(* ===== verification/_CoqProject ===== *)
-Q . S2P
Prelude.v
Utf8.v
Api.v
WorkloadStates.v
ApiSerde.v
Validation.v
CycleCheck.v
DeleteGraph.v
RequestId.v
LogCampaign.v
ConfigRenderer.v
StateManipulation.v
FieldMask.v
Messages.v
MessageSize.v
Channels.v
ServerState.v
StateComparator.v
StateDifferences.v
EventHandler.v
Server.v
ServerAnswers.v
Scheduler.v
Progress.v
WorkloadFiles.v
RetryManager.v
ControlLoop.v
CliCommand.v
PodmanCli.v
LogFetching.v
LogProcess.v
StateChecker.v
ContainerRuntime.v
PodmanRuntime.v
NerdctlCli.v
ContainerdRuntime.v
KubeManifest.v
PodmanKube.v
RuntimeFacade.v
Authorizer.v
ControlInterface.v
Pipes.v
AgentFiles.v
ControlTask.v
RuntimeManager.v
AgentManager.v
ResourceMonitor.v
Grpc.v
Security.v
GrpcClient.v
System.v
Convergence.v
AgentConvergence.v
NodeRuntime.v
Backpressure.v
WaitList.v
CliTable.v
Terminal.v
ServerConnection.v
ApplyManifests.v
Config.v
CliCommands.v
CliQueries.v
AnkMain.v
