(* ===== verification/Prelude.v ===== *)
(** * Ankaios: a verified model

    Ankaios runs containers on the nodes of a vehicle.  A _server_ keeps the
    desired state and the reported execution states; an _agent_ on each node
    starts, updates and deletes the workloads assigned to it; workloads talk to
    the server through the _control interface_ of their agent, users through
    the command line _ank_.  All of them exchange the messages of
    [ankaios_api/proto/] over a _gRPC middleware_.  This library models these
    programs in the crates [server], [agent], [ank], [grpc], [common] and
    [ankaios_api] and proves what makes them correct.

    ** How the parts interact

    A client's connection puts [ToServer] messages into the channel of the
    server; the server handles them one at a time ([Server.v]) and puts
    [FromServer] messages into the channel of the middleware, which hands each
    client its share ([Grpc.v]).  On an agent the client ([GrpcClient.v]) feeds
    the agent manager ([AgentManager.v]); it owns the runtime manager
    ([RuntimeManager.v]) with the queue of operations that wait for their
    dependencies ([Scheduler.v]) and starts a control loop per workload
    ([ControlLoop.v]), which calls a runtime connector ([ContainerRuntime.v],
    [PodmanKube.v]).  The states the loops report go back to the server and
    from there to the other agents, whose queues then move on.  A workload's
    requests come from a fifo ([Pipes.v]) into the task of its control interface
    ([ControlInterface.v], [ControlTask.v]), are checked by the authorizer
    ([Authorizer.v]) and go to the server under an id that names the workload.
    [System.v] composes server, middleware and agents.

    ** Files

    Shared
    - [Prelude]: results, [io], string functions, the order in which hash
      containers are iterated ([IterOrder]), generic lemmas, the hint database.
    - [Utf8]: [String::from_utf8] and [from_utf8_lossy].
    - [Api], [WorkloadStates], [ApiSerde], [Validation]: the objects of
      [ankaios_api/src/ank_base/], the map of execution states, the functions
      their serialization calls and all checks of names and configurations.
    - [Messages], [Channels], [MessageSize]: [common/src/commands.rs], the
      channel interfaces [from_server_interface.rs] and
      [to_server_interface.rs], and the splitting of log messages in
      [message_size.rs].
    - [StateManipulation]: [common/src/state_manipulation/].

    Server ([server/src/])
    - [CycleCheck] ([cycle_check.rs]), [DeleteGraph] ([delete_graph.rs]),
      [RequestId] ([request_id.rs]), [LogCampaign] ([log_campaign_store.rs]),
      [ConfigRenderer] ([config_renderer.rs], [rendered_workloads.rs]).
    - [ServerState], [FieldMask]: [server_state.rs]; an update computes the new
      desired state, renders it and validates it, the answer to a
      query is filtered.
    - [StateComparator], [StateDifferences], [EventHandler]: [state_comparator.rs]
      and [event_handler.rs], the events for a subscriber.
    - [Server], [ServerAnswers]: [ankaios_server.rs], a handler per message.

    Agent ([agent/src/])
    - [Scheduler], [Progress]: [workload_scheduler/].
    - [WorkloadFiles] ([workload_files/]), [RetryManager]
      ([workload/retry_manager.rs]), [ControlLoop]
      ([workload/workload_control_loop.rs], [control_loop_state.rs]),
      [StateChecker] ([generic_polling_state_checker.rs]).
    - Runtime connectors ([runtime_connectors/]): [CliCommand], [PodmanCli],
      [NerdctlCli], [ContainerRuntime] with its instances [PodmanRuntime] and
      [ContainerdRuntime], [KubeManifest] and [PodmanKube], [LogFetching],
      [LogProcess], [RuntimeFacade].
    - Control interface ([control_interface/]): [Authorizer],
      [ControlInterface], [Pipes], [AgentFiles] (also [io_utils/]),
      [ControlTask].
    - [RuntimeManager] ([runtime_manager.rs], [workload.rs]) and [AgentManager]
      ([agent_manager.rs], [subscription_store.rs], [workload_log_facade.rs]),
      [ResourceMonitor] ([resource_monitor.rs]).

    Middleware ([grpc/src/])
    - [Grpc]: the server's side, the proxies and [grpc_api.rs]; [GrpcClient]:
      [client.rs]; [Security]: the TLS configuration of [lib.rs].
    - [System]: all of it in one system of steps.  [Convergence],
      [AgentConvergence] and [NodeRuntime] follow the desired state through
      that system to the control loops of the agents and to the containers
      these loops run side by side on one runtime.  [Backpressure] gives the
      channels of the agent manager and of the middleware their bounds.

    Command line ([ank/src/])
    - [WaitList], [CliTable], [Terminal] ([log.rs]), [ServerConnection],
      [ApplyManifests], [CliCommands] (the commands that change the state),
      [CliQueries] (the commands that show it, and the completions), [AnkMain]
      ([main.rs]: the subcommands and the end of the process).

    All programs
    - [Config]: [common/src/config.rs], the configurations of the three
      programs, and their [main] functions up to the start of the tasks.

    ** How code became definitions

    - [Result] is [result E A], with [x ← m; k] for the operator [?]; code that
      acts on the outside is [io W E A], a state monad with errors over the
      world [W].  A panic is [None] or a constructor [Panicked].
    - A task is a function or a step relation on its state and one event; what
      the scheduler and the outside may do, in any order, is a list of events
      that the theorems quantify over.  A channel is the list of the messages
      sent; [Channels] and [Backpressure] take it with its capacity.
    - A [HashMap] is a [gmap] where its order does not show; where it is
      iterated the order is the parameter [IterOrder], of which nothing but
      being a permutation is known.  A [Vec] is a list.
    - Machine integers are [N] or [Z] with the bounds or the wrap-around of the
      code: the retry counter and its backoff, the sizes of messages, the varint
      of a pipe, the width of columns.
    - A trait or a crate is a class of operations: [RuntimeConnector],
      [ContainerCli], [OutputPipe], [WaitListDisplayTrait], [ControlApi] and
      [RuntimeHost] are interfaces inside the program; [YamlMapping],
      [StateConversion] and [StateObject], [CompleteStateFields],
      [WireConversion], [LogEncoding], [Varint], [TemplateEngine], [Base64],
      [Sha256], [Uuid], [PodmanDecoder], [NerdctlDecoder], [KubeDecoder],
      [YamlDocuments], [ManifestParsing], [Tabled], [Rendering], [SysInfo] stand for
      serializers and crates; [Host], [HostFs], [FileSystem], [Files], [Memory],
      [ProcessTable], [PemFiles], [ConfigHost] and the parsers of [Config] for the operating
      system.  Laws are fields of these classes or classes of their own
      ([RuntimeLaws], [ContainerCliLaws], [ProcessLaws], [VolumeLaws],
      [RegularConversion]);
      they state what the documentation of the library says, and each has an
      instance that a witness computes with.
    - [RuntimeLaws] is what the control loop asks of a connector; that the
      connectors for podman and containerd keep their own part is proved
      from [ContainerCliLaws].

    ** What is proved

    - End to end.  In any interleaving, with connections that break and agents
      that connect again, the messages sent to an agent tell it exactly the
      workloads the server has rendered for it
      ([Convergence.agents_learn_desired_workloads]); if no update has to wait
      for a dependency, its control loops were last told exactly these
      ([AgentConvergence.desired_workloads_reach_control_loops]), and a runtime
      that refuses nothing in the end holds exactly one container for each of
      them, however the loops interleave ([NodeRuntime.desired_workloads_run]).
    - Server.  A rejected update changes nothing; the difference an accepted
      one returns leads from the old rendered workloads to the new ones; the
      state stays valid; the search for cycles ends and never accuses a
      workload that is on none.  The comparison of two states gives exactly the
      changed fields, the filter exactly the leaves below the masks.  The server
      panics on a message exactly when a request id cannot be parsed, and
      otherwise answers each request once.
    - Agent.  The queue hands out an operation only when its conditions hold and,
      if nothing waits for itself, every operation in finitely many rounds.  A
      control loop owns one workload and leaves nothing behind.  Created
      workloads are found and deleted under their name, reused ones after a
      restart.  The registry has one live loop per workload.  Logs are
      forwarded line by line, however the output is cut and interleaved.
    - Control interface.  Only requests the access rules allow reach the server,
      and exactly those, however the bytes arrive; an authorized request without
      wildcards reaches no field that is denied or not allowed.  Messages
      through a pipe arrive once and in order as long as no send fails.
    - Middleware.  An agent receives its share of what the server sends; a
      client says hello first, keeps the order and never sends a message twice.
      Clients are isolated from each other's answers, and a workload's request
      comes back to it answered.  While all clients read, bounded channels change
      nothing of that ([Backpressure.readers_keep_middleware_going]).
    - Command line.  A command that waits returns only when everything it waits
      for was reported, and returns if it is; manifests are merged to exactly
      their entries; while a request waits no message is lost; streamed logs
      are printed completely.  The commands that show something never ask the
      server to change anything ([AnkMain.queries_only_read]).
    - Start.  An agent only starts with a valid name, directory, runtime and key.

    Where the code does not do what it means to, a theorem shows it by an
    execution: [CycleCheck.dfs_misses_cycle],
    [Authorizer.wildcard_mask_bypasses_deny_rule],
    [Authorizer.log_rule_ignores_patterns_after_wildcard],
    [EventHandler.sequence_event_missed],
    [RuntimeManager.deleted_waiting_workload_is_started],
    [RuntimeManager.stale_deletion_removes_new_workload],
    [RuntimeManager.reconnect_leaves_second_control_loop],
    [RuntimeManager.changed_runtime_stays_on_old_runtime],
    [Backpressure.waiting_workloads_block_agent],
    [Backpressure.hung_agent_stops_server],
    [System.empty_request_id_stops_server], [Grpc.late_error_removes_new_connection],
    [Grpc.malformed_request_disconnects_agent], [Pipes.dropped_read_loses_framing],
    [Pipes.elapsed_write_loses_framing], [Security.private_key_in_message] and
    others in the files they concern.

    ** Fuel

    Loops that are not structural have fuel, and the fuel they are called with is
    proved to be enough, except where the number of steps is plain:
    - [CycleCheck.dfs_fuel]: every workload pushes its dependencies at most once
      ([dfs_terminates]).
    - [StateComparator.difference_fuel], three steps per node of the old state:
      every common mapping is visited once and left once.
    - [StateManipulation.expand_loop], [EventHandler.leaf_paths_loop] and
      [altered_fields_loop]: the sizes of the values they walk through.
    - [LogFetching.take_lines]: the length of the data, a line takes one byte at
      least.
    - [Pipes.read_loop]: a file is opened again at most as often as opening
      succeeds in the input; [Pipes.read_inputs]: each round consumes an event.
    - [CliQueries.watch_loop] and [event_loop]: each round reads an arrival, so
      one more than the number of arrivals ([event_loop_enough_fuel]).
    - [Terminal.chunks]: the number of characters; [Security.octal]: the three
      digits of a mode; [Pipes.Leb128]: the ten bytes of a 64 bit varint.

    ** Not modelled

    - The derived serializers, the Rust types generated from the proto files, the
      macros ([spec_macros]), the schema generator and the build scripts: code
      that is generated or runs at build time.
    - The parsing of the command line (a derived parser), logging, the
      rendering of tables inside [tabled], the connection itself inside [tonic].
    - Time: a timeout is an event that may come at any moment.  Outside
      [Channels] and [Backpressure] the capacity of the channels is left out: a
      send waits in the code where it appends in the model.
    - Tests, test utilities, examples. *)

(** ** Shared prelude

    Results of fallible code, the iteration order of hash containers, the
    string functions of Rust's standard library that the sources use, and the
    generic lemmas, tactics and hint database the component files share. *)

From Stdlib Require Import Ascii.
From stdpp Require Import base tactics gmap strings list sorting.

(** ** Results

    [Result<A, E>] of the source.  The error type comes first so that
    [result E] is a monad and stdpp's [x ← m; k] is the [?] operator. *)

Inductive result (E A : Type) : Type :=
  | Ok (a : A)
  | Err (e : E).
Arguments Ok {E A} a.
Arguments Err {E A} e.

#[export] Instance result_ret {E} : MRet (result E) := λ A a, Ok a.
#[export] Instance result_bind {E} : MBind (result E) :=
  λ A B k m, match m with Ok a => k a | Err e => Err e end.
#[export] Instance result_fmap {E} : FMap (result E) :=
  λ A B f m, match m with Ok a => Ok (f a) | Err e => Err e end.

Definition map_err {E F A} (f : E → F) (m : result E A) : result F A :=
  match m with Ok a => Ok a | Err e => Err (f e) end.

(** Fallible code that acts on the outside world [W]: files, container
    runtimes.  The [?] operator is again [x ← m; k]. *)
Definition io (W E A : Type) : Type := W → result E A * W.

#[export] Instance io_ret {W E} : MRet (io W E) := λ A a w, (Ok a, w).
#[export] Instance io_bind {W E} : MBind (io W E) :=
  λ A B k m w, match m w with (Ok a, w) => k a w | (Err e, w) => (Err e, w) end.

Definition io_of {W E A} (r : result E A) : io W E A := λ w, (r, w).
Definition io_map_err {W E F A} (f : E → F) (m : io W E A) : io W F A :=
  λ w, (map_err f (m w).1, (m w).2).

Definition is_ok {E A} (m : result E A) : bool :=
  match m with Ok _ => true | Err _ => false end.

(** [iter().try_for_each(f)]: stops at the first error. *)
Fixpoint try_for_each {E A} (f : A → result E ()) (l : list A) : result E () :=
  match l with
  | [] => Ok ()
  | x :: l => _ ← f x; try_for_each f l
  end.

(** [iter().map(f).collect::<Result<Vec<_>, _>>()]: also stops at the first error. *)
Fixpoint try_collect {E A B} (f : A → result E B) (l : list A) : result E (list B) :=
  match l with
  | [] => Ok []
  | x :: l => y ← f x; ys ← try_collect f l; Ok (y :: ys)
  end.

Lemma map_err_ok {E F A} (f : E → F) (m : result E A) a : map_err f m = Ok a ↔ m = Ok a.
Proof. destruct m; simpl; naive_solver. Qed.

Lemma bind_ok {E A B} (m : result E A) (k : A → result E B) b :
  (x ← m; k x) = Ok b ↔ ∃ a, m = Ok a ∧ k a = Ok b.
Proof. destruct m; simpl; naive_solver. Qed.

Lemma io_bind_ok {W E A B} (m : io W E A) (k : A → io W E B) w b w' :
  (x ← m; k x) w = (Ok b, w') ↔ ∃ a w1, m w = (Ok a, w1) ∧ k a w1 = (Ok b, w').
Proof. unfold mbind, io_bind. destruct (m w) as [[a|e] w1]; naive_solver. Qed.

Lemma then_ok {E B} (m : result E ()) (k : result E B) b :
  (_ ← m; k) = Ok b ↔ m = Ok () ∧ k = Ok b.
Proof. destruct m as [[]|]; simpl; naive_solver. Qed.

Lemma try_for_each_ok {E A} (f : A → result E ()) l :
  try_for_each f l = Ok () ↔ ∀ x, x ∈ l → f x = Ok ().
Proof.
  induction l as [|x l IH]; simpl.
  - split; [by intros _ x ?%elem_of_nil | done].
  - setoid_rewrite elem_of_cons.
    destruct (f x) as [[]|e] eqn:Hx; simpl; [rewrite IH; naive_solver|].
    split; [done|]. intros Hall. by rewrite <-Hx, (Hall x); [|left].
Qed.

Lemma try_for_each_err {E A} (f : A → result E ()) l e :
  try_for_each f l = Err e → ∃ x, x ∈ l ∧ f x = Err e.
Proof.
  induction l as [|x l IH]; simpl; [done|].
  setoid_rewrite elem_of_cons.
  destruct (f x) as [[]|e'] eqn:Hx; simpl; [naive_solver|].
  intros [= ->]. eauto.
Qed.

Lemma try_collect_ok {E A B} (f : A → result E B) l ys :
  try_collect f l = Ok ys ↔ Forall2 (λ x y, f x = Ok y) l ys.
Proof.
  revert ys. induction l as [|x l IH]; intros ys; simpl.
  - split; [intros [= <-]; constructor | by inversion 1].
  - split.
    + destruct (f x) as [y|] eqn:Hx; simpl; [|done].
      destruct (try_collect f l) as [ys'|] eqn:Hl; simpl; [|done].
      intros [= <-]. constructor; [done|]. by apply IH.
    + inversion 1 as [|? y ? ys' Hx Hl]; subst. rewrite Hx. simpl.
      apply IH in Hl. by rewrite Hl.
Qed.

Lemma try_collect_is_ok {E A B} (f : A → result E B) l :
  is_ok (try_collect f l) = true ↔ ∀ x, x ∈ l → is_ok (f x) = true.
Proof.
  induction l as [|x l IH]; simpl.
  - split; [by intros _ x ?%elem_of_nil|done].
  - setoid_rewrite elem_of_cons. destruct (f x) as [y|] eqn:Hx; simpl.
    + assert (is_ok (try_collect f l ≫= λ ys, Ok (y :: ys)) = is_ok (try_collect f l)) as ->
        by (by destruct (try_collect f l)).
      rewrite IH. split; [intros ? ? [->|?]; [by rewrite Hx|auto]|auto].
    + split; [done|]. intros Hall. rewrite <-(Hall x), Hx by (by left). done.
Qed.

Lemma is_ok_true {E A} (m : result E A) : is_ok m = true ↔ ∃ a, m = Ok a.
Proof. destruct m as [a|]; simpl; [|naive_solver]. split; [by exists a|done]. Qed.

Lemma list_filter_iff' {A} (P Q : A → Prop) `{∀ x, Decision (P x), ∀ x, Decision (Q x)} (l : list A) :
  (∀ x, x ∈ l → P x ↔ Q x) → filter P l = filter Q l.
Proof.
  induction l as [|x l IH]; intros HPQ; [done|].
  assert (filter P l = filter Q l) as Hl by (apply IH; intros y ?; apply HPQ; by right).
  destruct (decide (P x)) as [HP|HP].
  - rewrite !filter_cons_True; [by rewrite Hl|apply HPQ; [by left|done]|done].
  - rewrite !filter_cons_False; [done| |done]. intros HQ. apply HP, HPQ; [by left|done].
Qed.

(** ** Automation and loops

    The database [wf] collects, per component, the lemmas that its operations
    preserve its invariant. *)

Create HintDb wf.

(** Takes apart the hypotheses that say that fallible code returned: [?] and
    [let]-else steps, and the results of the branches. *)
Ltac simplify_run :=
  repeat match goal with
    | H : (_ ≫= _) = Some _ |- _ =>
      let x := fresh "x" in let Hx := fresh "Hx" in apply bind_Some in H as (x & Hx & H)
    | H : Ok _ = Err _ |- _ => discriminate H
    | H : Err _ = Ok _ |- _ => discriminate H
    | H : None = Some _ |- _ => discriminate H
    | H : Some _ = Some _ |- _ => injection H as H; simplify_eq
    | H : Ok _ = Ok _ |- _ => injection H as H; simplify_eq
    | H : (_, _) = (_, _) |- _ => injection H as H; simplify_eq
    | x : _ * _ |- _ => destruct x
    end; simpl in *.

(** What every iteration keeps, the loop keeps. *)
Lemma foldl_preserves {A B} (P : A → Prop) (f : A → B → A) (l : list B) (a : A) :
  (∀ a b, P a → P (f a b)) → P a → P (foldl f a l).
Proof. intros Hf. revert a. induction l as [|b l IH]; intros a Ha; simpl; auto. Qed.

Lemma foldl_same {A B C} (g : A → C) (f : A → B → A) (l : list B) (a : A) :
  (∀ a b, g (f a b) = g a) → g (foldl f a l) = g a.
Proof. intros Hf. revert a. induction l as [|b l IH]; intros a; simpl; [done|]. by rewrite IH, Hf. Qed.

(** ** Iteration order of hash containers

    [HashMap] and [HashSet] visit every entry exactly once, in an order that
    the program cannot rely on.  Every definition that iterates over one takes
    the order as a parameter; every theorem holds for all of them. *)

Class IterOrder := {
  map_iter : ∀ {K} `{Countable K} {V : Type}, gmap K V → list (K * V);
  map_iter_perm : ∀ {K} `{Countable K} {V : Type} (m : gmap K V),
    map_iter m ≡ₚ map_to_list m
}.

(** The order used to evaluate examples. *)
Definition key_order : IterOrder := {|
  map_iter := λ K _ _ V m, map_to_list m;
  map_iter_perm := λ K _ _ V m, Permutation_refl _
|}.

Definition set_iter `{IterOrder} {K} `{Countable K} (X : gset K) : list K :=
  (map_iter (gset_to_gmap () X)).*1.

Section iter_order.
Context `{IterOrder} {K : Type} `{Countable K} {V : Type}.
Implicit Types m : gmap K V.

Lemma elem_of_map_iter m k v : (k, v) ∈ map_iter m ↔ m !! k = Some v.
Proof. rewrite map_iter_perm. apply elem_of_map_to_list. Qed.

Lemma NoDup_map_iter m : NoDup (map_iter m).
Proof. rewrite map_iter_perm. apply NoDup_map_to_list. Qed.

Lemma NoDup_fst_map_iter m : NoDup (map_iter m).*1.
Proof. rewrite map_iter_perm. apply NoDup_fst_map_to_list. Qed.

Lemma map_iter_nil m : map_iter m = [] ↔ m = ∅.
Proof.
  split; [|intros ->].
  - intros Hm. apply map_to_list_empty_iff. apply Permutation_nil_r.
    by rewrite <-map_iter_perm, Hm.
  - apply Permutation_nil_r. by rewrite map_iter_perm, map_to_list_empty.
Qed.

Lemma map_iter_insert_new m k v :
  m !! k = None → map_iter (<[k:=v]> m) ≡ₚ (k, v) :: map_iter m.
Proof. intros Hk. rewrite !map_iter_perm. by apply map_to_list_insert. Qed.

Lemma list_to_map_iter m : list_to_map (map_iter m) = m.
Proof.
  rewrite <-(list_to_map_to_list m) at 2.
  apply list_to_map_proper; [apply NoDup_fst_map_iter | apply map_iter_perm].
Qed.

Lemma elem_of_set_iter (X : gset K) k : k ∈ set_iter X ↔ k ∈ X.
Proof.
  unfold set_iter. rewrite list_elem_of_fmap. split.
  - intros ([k' []] & -> & Hin). rewrite map_iter_perm in Hin.
    apply elem_of_map_to_list, lookup_gset_to_gmap_Some in Hin. naive_solver.
  - intros Hin. exists (k, ()). split; [done|]. rewrite map_iter_perm.
    apply elem_of_map_to_list, lookup_gset_to_gmap_Some. done.
Qed.

Lemma NoDup_set_iter (X : gset K) : NoDup (set_iter X).
Proof.
  unfold set_iter. rewrite map_iter_perm. apply NoDup_fst_map_to_list.
Qed.
End iter_order.

(** ** Building a map entry by entry

    [for (k, v) in map { result.insert(k, f(k, v)?) }]: stops at the first error. *)

Fixpoint try_insert_all {E V W} (f : string → V → result E W) (l : list (string * V))
    (acc : gmap string W) : result E (gmap string W) :=
  match l with
  | [] => Ok acc
  | (k, v) :: l => w ← f k v; try_insert_all f l (<[k:=w]> acc)
  end.

Definition try_traverse `{IterOrder} {E V W} (f : string → V → result E W) (m : gmap string V) :
    result E (gmap string W) :=
  try_insert_all f (map_iter m) ∅.

Section try_traverse.
Context {E V W : Type} (f : string → V → result E W).

Lemma try_insert_all_ok l acc m' :
  NoDup l.*1 → try_insert_all f l acc = Ok m' →
  (∀ k v, (k, v) ∈ l → ∃ w, f k v = Ok w ∧ m' !! k = Some w) ∧
  (∀ k, k ∉ l.*1 → m' !! k = acc !! k).
Proof.
  revert acc. induction l as [|[k v] l IH]; intros acc; simpl.
  - intros _ [= <-]. split; [by intros k v ?%elem_of_nil|done].
  - intros [Hk Hl]%NoDup_cons. destruct (f k v) as [w|] eqn:Hf; simpl; [|done].
    intros [Hin Hout]%IH; [|done]. split.
    + intros k' v' [[= -> ->]|?]%elem_of_cons; [|auto].
      exists w. split; [done|]. by rewrite Hout, lookup_insert_eq.
    + intros k' [Hne ?]%not_elem_of_cons. by rewrite Hout, lookup_insert_ne by done.
Qed.

Lemma try_insert_all_total l acc :
  (∀ k v, (k, v) ∈ l → is_ok (f k v) = true) → is_ok (try_insert_all f l acc) = true.
Proof.
  revert acc. induction l as [|[k v] l IH]; intros acc Hl; simpl; [done|].
  pose proof (Hl k v) as Hk. destruct (f k v); simpl in *.
  - apply IH. intros k' v' ?. apply Hl. by right.
  - by apply Hk; left.
Qed.

Lemma try_insert_all_err l acc e :
  try_insert_all f l acc = Err e → ∃ k v, (k, v) ∈ l ∧ f k v = Err e.
Proof.
  revert acc. induction l as [|[k v] l IH]; intros acc; simpl; [done|].
  destruct (f k v) as [w|] eqn:Hf; simpl.
  - intros (k' & v' & ? & ?)%IH. exists k', v'. split; [by right|done].
  - intros [= ->]. exists k, v. split; [by left|done].
Qed.

Lemma try_traverse_ok `{IterOrder} m m' :
  try_traverse f m = Ok m' ↔
  ∀ k, match m !! k with
       | Some v => ∃ w, f k v = Ok w ∧ m' !! k = Some w
       | None => m' !! k = None
       end.
Proof.
  unfold try_traverse. split.
  - intros [Hin Hout]%try_insert_all_ok; [|apply NoDup_fst_map_iter]. intros k.
    destruct (m !! k) as [v|] eqn:Hk.
    + apply Hin. by apply elem_of_map_iter.
    + rewrite Hout; [apply lookup_empty|].
      intros ([k' v] & -> & Hv%elem_of_map_iter)%list_elem_of_fmap. simpl in *. congruence.
  - intros Hm. destruct (try_insert_all f (map_iter m) ∅) as [m2|e] eqn:Hres.
    + apply try_insert_all_ok in Hres as [Hin Hout]; [|apply NoDup_fst_map_iter].
      f_equal. apply map_eq. intros k. specialize (Hm k).
      destruct (m !! k) as [v|] eqn:Hk.
      * destruct (Hin k v) as (w & Hw & ->); [by apply elem_of_map_iter|].
        destruct Hm as (w' & Hw' & ->). congruence.
      * rewrite Hout, Hm; [apply lookup_empty|].
        intros ([k' v] & -> & Hv%elem_of_map_iter)%list_elem_of_fmap. simpl in *. congruence.
    + apply try_insert_all_err in Hres as (k & v & Hkv%elem_of_map_iter & Hf).
      specialize (Hm k). rewrite Hkv in Hm. destruct Hm as (w & ? & _). congruence.
Qed.

Lemma try_traverse_err `{IterOrder} m e :
  try_traverse f m = Err e → ∃ k v, m !! k = Some v ∧ f k v = Err e.
Proof.
  intros (k & v & Hkv%elem_of_map_iter & Hf)%try_insert_all_err. eauto.
Qed.

Lemma try_traverse_is_ok `{IterOrder} m :
  is_ok (try_traverse f m) = true ↔ ∀ k v, m !! k = Some v → is_ok (f k v) = true.
Proof.
  split.
  - destruct (try_traverse f m) as [m'|] eqn:Hm; [|done]. intros _ k v Hk.
    rewrite try_traverse_ok in Hm. specialize (Hm k). rewrite Hk in Hm.
    by destruct Hm as (w & -> & _).
  - intros Hall. apply try_insert_all_total. intros k v Hkv%elem_of_map_iter. eauto.
Qed.
End try_traverse.

(** ** Sums over lists and finite sets *)

Lemma sum_list_with_perm {A} (f : A → nat) l1 l2 :
  l1 ≡ₚ l2 → sum_list_with f l1 = sum_list_with f l2.
Proof. induction 1; simpl; lia. Qed.

Lemma sum_list_with_filter {A} (f : A → nat) (P : A → Prop) `{∀ x, Decision (P x)} l :
  sum_list_with f (filter P l) ≤ sum_list_with f l.
Proof.
  induction l as [|x l IH]; simpl; [done|].
  destruct (decide (P x)); [rewrite filter_cons_True by done|rewrite filter_cons_False by done];
    simpl; lia.
Qed.

Lemma sum_list_with_eq {A} (f h : A → nat) l :
  (∀ x, x ∈ l → f x = h x) → sum_list_with f l = sum_list_with h l.
Proof.
  induction l as [|x l IH]; intros Hf; simpl; [done|].
  rewrite (Hf x), IH; [done| |by left]. intros y Hy. apply Hf. by right.
Qed.

Lemma sum_elements_remove `{Countable A} (f : A → nat) (X : gset A) x :
  x ∈ X →
  sum_list_with f (elements X) = f x + sum_list_with f (elements (X ∖ {[x]})).
Proof.
  intros Hx. rewrite (union_difference_singleton_L x X Hx) at 1.
  rewrite (sum_list_with_perm f _ (x :: elements (X ∖ {[x]}))); [done|].
  apply elements_union_singleton. set_solver.
Qed.

Lemma sum_elements_subseteq `{Countable A} (f : A → nat) (X Y : gset A) :
  X ⊆ Y → sum_list_with f (elements X) ≤ sum_list_with f (elements Y).
Proof.
  intros HXY. rewrite (union_difference_L X Y HXY) at 1.
  rewrite (sum_list_with_perm f (elements (X ∪ Y ∖ X)) (elements X ++ elements (Y ∖ X))).
  - rewrite sum_list_with_app. lia.
  - apply elements_disj_union. set_solver.
Qed.

(** ** Strings

    The parts of Rust's [str] the sources use.  A string is its bytes, so
    [len] is [String.length]. *)

#[global] Arguments String.append !_ _ / : simpl nomatch.

(** [s.split(c)]: always at least one part. *)
Fixpoint split_on (c : ascii) (s : string) : list string :=
  match s with
  | EmptyString => [""]
  | String a s =>
    if decide (a = c) then "" :: split_on c s
    else match split_on c s with
         | [] => [String a ""]
         | p :: ps => String a p :: ps
         end
  end.

(** The prefix before and the rest after the first [c], if there is one. *)
Fixpoint split_once (c : ascii) (s : string) : option (string * string) :=
  match s with
  | EmptyString => None
  | String a s =>
    if decide (a = c) then Some ("", s)
    else '(p, r) ← split_once c s; Some (String a p, r)
  end.

(** [s.splitn(n, c)]. *)
Fixpoint splitn (n : nat) (c : ascii) (s : string) : list string :=
  match n with
  | 0 => []
  | 1 => [s]
  | S n =>
    match split_once c s with
    | Some (p, r) => p :: splitn n c r
    | None => [s]
    end
  end.

(** [parts.join(sep)]. *)
Definition join (sep : string) (parts : list string) : string := String.concat sep parts.

Fixpoint str_drop (n : nat) (s : string) : string :=
  match n, s with
  | 0, _ => s
  | S _, EmptyString => EmptyString
  | S n, String _ s => str_drop n s
  end.

Fixpoint str_take (n : nat) (s : string) : string :=
  match n, s with
  | 0, _ | _, EmptyString => EmptyString
  | S n, String a s => String a (str_take n s)
  end.

Definition starts_with (p s : string) : bool := String.prefix p s.
Definition ends_with (p s : string) : bool :=
  (String.length p <=? String.length s)
  && String.eqb (str_drop (String.length s - String.length p) s) p.

(** [s.find(c)] and [s.rfind(c)] for a one-byte pattern. *)
Fixpoint str_find (c : ascii) (s : string) : option nat :=
  match s with
  | EmptyString => None
  | String a s => if decide (a = c) then Some 0 else S <$> str_find c s
  end.

Fixpoint str_rfind (c : ascii) (s : string) : option nat :=
  match s with
  | EmptyString => None
  | String a s =>
    match str_rfind c s with
    | Some n => Some (S n)
    | None => if decide (a = c) then Some 0 else None
    end
  end.

(** [s.trim()], with the white space of ASCII. *)
Definition is_whitespace (c : ascii) : bool :=
  let n := nat_of_ascii c in (n =? 32) || ((9 <=? n) && (n <=? 13)).

Fixpoint trim_start (s : string) : string :=
  match s with
  | "" => ""
  | String c s' => if is_whitespace c then trim_start s' else s
  end.

Fixpoint trim_end (s : string) : string :=
  match s with
  | "" => ""
  | String c s' =>
    match trim_end s' with
    | "" => if is_whitespace c then "" else String c ""
    | s'' => String c s''
    end
  end.

Definition trim (s : string) : string := trim_end (trim_start s).

(** [s.replace(c, to)]. *)
Definition str_replace (c : ascii) (to s : string) : string := String.concat to (split_on c s).

(** A string between double quotes, for the messages that show one. *)
Definition in_quotes (s : string) : string := String "034" (s +:+ String "034" "").

Definition str_is_empty (s : string) : bool := String.eqb s "".

(** Every byte of the string satisfies [f]. *)
Fixpoint str_forall (f : ascii → bool) (s : string) : bool :=
  match s with
  | EmptyString => true
  | String a s => f a && str_forall f s
  end.

Definition has_char (c : ascii) (s : string) : bool :=
  negb (str_forall (λ a, bool_decide (a ≠ c)) s).

(** [slice.sort()] on strings: ascending byte order. *)
Definition sort_strings (l : list string) : list string := merge_sort String.le l.

Lemma elem_of_sort_strings l s : s ∈ sort_strings l ↔ s ∈ l.
Proof. unfold sort_strings. by rewrite merge_sort_Permutation. Qed.

Lemma length_sort_strings l : length (sort_strings l) = length l.
Proof. unfold sort_strings. by rewrite merge_sort_Permutation. Qed.

(** Sorting forgets the order in which the strings were visited. *)
Lemma sort_strings_perm l1 l2 : l1 ≡ₚ l2 → sort_strings l1 = sort_strings l2.
Proof.
  intros Hl. unfold sort_strings. apply (StronglySorted_unique String.le).
  - apply (StronglySorted_merge_sort _).
  - apply (StronglySorted_merge_sort _).
  - by rewrite !merge_sort_Permutation.
Qed.

Lemma str_is_empty_true s : str_is_empty s = true ↔ s = "".
Proof. apply String.eqb_eq. Qed.
Lemma str_is_empty_false s : str_is_empty s = false ↔ s ≠ "".
Proof. apply String.eqb_neq. Qed.

Lemma split_on_not_nil c s : split_on c s ≠ [].
Proof.
  destruct s as [|a s]; simpl; [done|].
  destruct (decide (a = c)); [done|]. by destruct (split_on c s).
Qed.

Lemma has_char_cons c a s : has_char c (String a s) = bool_decide (a = c) || has_char c s.
Proof.
  unfold has_char. simpl. rewrite negb_andb. f_equal.
  by repeat case_bool_decide.
Qed.

Lemma has_char_app c s t : has_char c (s +:+ t) = has_char c s || has_char c t.
Proof.
  induction s as [|a s IH]; simpl; [done|]. by rewrite !has_char_cons, IH, orb_assoc.
Qed.

Lemma str_find_None c s : str_find c s = None ↔ has_char c s = false.
Proof.
  induction s as [|a s IH]; simpl; [done|]. rewrite has_char_cons.
  case_decide; [by rewrite bool_decide_eq_true_2|].
  rewrite bool_decide_eq_false_2 by done. simpl. rewrite <-IH.
  by destruct (str_find c s).
Qed.

Lemma str_find_Some c s pos :
  str_find c s = Some pos →
  ∃ p r, s = p +:+ String c r ∧ has_char c p = false ∧ String.length p = pos.
Proof.
  revert pos. induction s as [|a s IH]; intros pos; simpl; [done|].
  case_decide as Ha; [intros [= <-]; exists "", s; by subst|].
  destruct (str_find c s) as [n|]; simpl; [|done]. intros [= <-].
  destruct (IH n eq_refl) as (p & r & -> & Hp & <-).
  exists (String a p), r. by rewrite has_char_cons, bool_decide_eq_false_2.
Qed.

Lemma str_take_app s r : str_take (String.length s) (s +:+ r) = s.
Proof. induction s as [|a s IH]; simpl; [by destruct r|congruence]. Qed.

Lemma split_on_no_char c s : has_char c s = false → split_on c s = [s].
Proof.
  induction s as [|a s IH]; [done|]. rewrite has_char_cons.
  case_bool_decide as Ha; [done|]. intros Hs. simpl.
  rewrite decide_False by done. by rewrite (IH Hs).
Qed.

Lemma str_app_nil_r s : s +:+ "" = s.
Proof. induction s as [|a s IH]; simpl; congruence. Qed.

Lemma str_app_assoc s1 s2 s3 : s1 +:+ (s2 +:+ s3) = (s1 +:+ s2) +:+ s3.
Proof. induction s1 as [|a s1 IH]; simpl; congruence. Qed.

Lemma str_length_app s1 s2 :
  String.length (s1 +:+ s2) = String.length s1 + String.length s2.
Proof. induction s1 as [|a s1 IH]; simpl; congruence. Qed.

Lemma join_cons sep s l : l ≠ [] → join sep (s :: l) = s +:+ sep +:+ join sep l.
Proof. by destruct l. Qed.

(** Joining the parts again gives the string back. *)
Lemma join_split_on c s : join (String c "") (split_on c s) = s.
Proof.
  induction s as [|a s IH]; [done|]. simpl.
  pose proof (split_on_not_nil c s) as Hne. case_decide as Ha; [subst a|].
  - rewrite join_cons by done. by rewrite IH.
  - destruct (split_on c s) as [|p ps] eqn:Hs; [done|].
    destruct ps; simpl in *; by f_equal.
Qed.

Lemma split_on_app_sep c s r :
  has_char c s = false → split_on c (s +:+ String c r) = s :: split_on c r.
Proof.
  induction s as [|a s IH]; simpl.
  - by rewrite decide_True.
  - rewrite has_char_cons. case_bool_decide; [done|]. intros Hs.
    rewrite decide_False by done. simpl in IH. by rewrite (IH Hs).
Qed.

(** Splitting the joined parts gives the parts back when none holds the separator. *)
Lemma split_on_join c l :
  l ≠ [] → Forall (λ s, has_char c s = false) l → split_on c (join (String c "") l) = l.
Proof.
  intros Hne Hl. induction Hl as [|s l Hs Hl IH]; [done|].
  destruct l as [|s' l]; [by apply split_on_no_char|].
  rewrite join_cons by done. change (String c "" +:+ ?r) with (String c r).
  by rewrite split_on_app_sep, IH.
Qed.

Lemma split_on_parts c s : Forall (λ p, has_char c p = false) (split_on c s).
Proof.
  induction s as [|a s IH]; simpl; [by repeat constructor|].
  case_decide; [by constructor|].
  destruct (split_on c s) as [|p ps]; inversion IH; subst;
    constructor; try done; rewrite has_char_cons, bool_decide_eq_false_2 by done; done.
Qed.

Lemma split_once_app c s r :
  has_char c s = false → split_once c (s +:+ String c r) = Some (s, r).
Proof.
  induction s as [|a s IH]; simpl; [by rewrite decide_True|].
  rewrite has_char_cons. case_bool_decide; [done|]. intros Hs.
  rewrite decide_False by done. simpl in IH. by rewrite (IH Hs).
Qed.

Lemma split_once_None c s : split_once c s = None ↔ has_char c s = false.
Proof.
  induction s as [|a s IH]; simpl; [done|]. rewrite has_char_cons.
  case_decide; [by rewrite bool_decide_eq_true_2|].
  rewrite bool_decide_eq_false_2 by done. simpl. rewrite <-IH.
  destruct (split_once c s) as [[]|]; simpl; naive_solver.
Qed.

Lemma split_once_Some c s p r :
  split_once c s = Some (p, r) ↔ s = p +:+ String c r ∧ has_char c p = false.
Proof.
  split; [|intros [-> ?]; by apply split_once_app].
  revert p. induction s as [|a s IH]; intros p; simpl; [done|].
  case_decide; [intros [= <- ->]; by subst|].
  destruct (split_once c s) as [[p' r']|]; simpl; [|done].
  intros [= <- ->]. destruct (IH p' eq_refl) as [-> Hp].
  split; [done|]. rewrite has_char_cons, bool_decide_eq_false_2; done.
Qed.

Lemma starts_with_app p s : starts_with p (p +:+ s) = true.
Proof.
  unfold starts_with. induction p as [|a p IH]; simpl; [by destruct s|].
  destruct (ascii_dec a a); [done | congruence].
Qed.

Lemma starts_with_spec p s : starts_with p s = true ↔ ∃ r, s = p +:+ r.
Proof.
  split; [|intros [r ->]; apply starts_with_app].
  unfold starts_with. revert s.
  induction p as [|a p IH]; intros s Hs; [by exists s|].
  destruct s as [|b s]; simpl in Hs; [done|].
  destruct (ascii_dec a b) as [->|]; [|done].
  destruct (IH _ Hs) as [r ->]. by exists r.
Qed.

Lemma str_drop_app s r : str_drop (String.length s) (s +:+ r) = r.
Proof. by induction s. Qed.

Lemma str_take_drop n s : str_take n s +:+ str_drop n s = s.
Proof.
  revert s. induction n as [|n IH]; intros [|a s]; simpl; try done. by rewrite IH.
Qed.

Lemma ends_with_spec p s : ends_with p s = true ↔ ∃ r, s = r +:+ p.
Proof.
  unfold ends_with. rewrite andb_true_iff, Nat.leb_le, String.eqb_eq. split.
  - intros [_ Hs]. exists (str_take (String.length s - String.length p) s).
    rewrite <-(str_take_drop (String.length s - String.length p) s) at 1. by rewrite Hs.
  - intros [r ->]. rewrite str_length_app. split; [lia|].
    rewrite Nat.add_sub. apply str_drop_app.
Qed.

Lemma str_app_split a b c d :
  a +:+ b = c +:+ d → String.length a ≤ String.length c → ∃ m, c = a +:+ m ∧ b = m +:+ d.
Proof.
  revert c. induction a as [|x a IH]; intros c Heq Hlen; [by exists c|].
  destruct c as [|y c]; simpl in *; [lia|]. injection Heq as -> Heq.
  destruct (IH c Heq) as (m & -> & ->); [lia|]. by exists m.
Qed.
