(* ===== verification/Utf8.v ===== *)
(** * UTF-8

    [String::from_utf8] and [String::from_utf8_lossy] of Rust's standard
    library, which the agent applies to the output of the commands it starts:
    the byte where the decoding stops, the error's message and the replacement
    of the invalid sequences. *)

From Stdlib Require Import Ascii.
From stdpp Require Import base tactics numbers strings list pretty.
From S2P Require Import Prelude.

(** The sequence at the front of a text: a scalar value of so many bytes, an
    invalid sequence of so many bytes, or the start of one that the text cuts
    off. *)
Inductive Utf8Char := Scalar (width : nat) | Invalid (len : nat) | Incomplete.

Definition byte_in (lo hi : N) (c : ascii) : bool :=
  ((lo <=? N_of_ascii c) && (N_of_ascii c <=? hi))%N.

(** The ranges of the bytes that follow a first byte. *)
Definition utf8_ranges (b : ascii) : option (list (N * N)) :=
  let continuation := (0x80, 0xBF)%N in
  if byte_in 0 0x7F b then Some []
  else if byte_in 0xC2 0xDF b then Some [continuation]
  else if byte_in 0xE0 0xE0 b then Some [(0xA0, 0xBF)%N; continuation]
  else if byte_in 0xED 0xED b then Some [(0x80, 0x9F)%N; continuation]
  else if byte_in 0xE1 0xEF b then Some [continuation; continuation]
  else if byte_in 0xF0 0xF0 b then Some [(0x90, 0xBF)%N; continuation; continuation]
  else if byte_in 0xF1 0xF3 b then Some [continuation; continuation; continuation]
  else if byte_in 0xF4 0xF4 b then Some [(0x80, 0x8F)%N; continuation; continuation]
  else None.

Fixpoint utf8_tail (seen : nat) (ranges : list (N * N)) (s : string) : Utf8Char :=
  match ranges with
  | [] => Scalar seen
  | (lo, hi) :: ranges =>
    match s with
    | "" => Incomplete
    | String c s => if byte_in lo hi c then utf8_tail (S seen) ranges s else Invalid seen
    end
  end.

Definition utf8_char (b : ascii) (s : string) : Utf8Char :=
  match utf8_ranges b with
  | Some ranges => utf8_tail 1 ranges s
  | None => Invalid 1
  end.

(** [Utf8Error]: how far the text is valid, and the length of the invalid
    sequence unless the text ends in it.  [skip] counts the bytes of the scalar
    value that are still to be passed. *)
Fixpoint utf8_error (skip valid_up_to : nat) (s : string) : option (nat * option nat) :=
  match s with
  | "" => None
  | String b s =>
    match skip with
    | S skip => utf8_error skip (S valid_up_to) s
    | 0 =>
      match utf8_char b s with
      | Scalar width => utf8_error (pred width) (S valid_up_to) s
      | Invalid len => Some (valid_up_to, Some len)
      | Incomplete => Some (valid_up_to, None)
      end
    end
  end.

Definition utf8_error_to_string (e : nat * option nat) : string :=
  match e with
  | (valid_up_to, Some len) =>
    "invalid utf-8 sequence of " +:+ pretty len +:+ " bytes from index " +:+ pretty valid_up_to
  | (valid_up_to, None) => "incomplete utf-8 byte sequence from index " +:+ pretty valid_up_to
  end.

Definition from_utf8 (s : string) : result string string :=
  match utf8_error 0 0 s with
  | None => Ok s
  | Some e => Err (utf8_error_to_string e)
  end.

(** U+FFFD. *)
Definition REPLACEMENT : string :=
  String (ascii_of_N 0xEF) (String (ascii_of_N 0xBF) (String (ascii_of_N 0xBD) "")).

(** The next [skip] bytes are kept or left out, as [keep] says. *)
Fixpoint lossy (skip : nat) (keep : bool) (s : string) : string :=
  match s with
  | "" => ""
  | String b s =>
    match skip with
    | S skip => if keep then String b (lossy skip keep s) else lossy skip keep s
    | 0 =>
      match utf8_char b s with
      | Scalar width => String b (lossy (pred width) true s)
      | Invalid len => REPLACEMENT +:+ lossy (pred len) false s
      | Incomplete => REPLACEMENT
      end
    end
  end.

Definition from_utf8_lossy (s : string) : string := lossy 0 true s.

(** [pop]: drops the last character, here one of a single byte. *)
Fixpoint str_pop (s : string) : string :=
  match s with
  | "" => ""
  | String c "" => ""
  | String c s => String c (str_pop s)
  end.

(** The index is at the start of a character or at the end of the string: the
    byte there does not continue a UTF-8 sequence. *)
Definition is_char_boundary (s : string) (i : nat) : bool :=
  if (i =? 0)%nat then true
  else match String.get i s with
       | None => (i =? String.length s)%nat
       | Some a => (N_of_ascii a <? 128)%N || (192 <=? N_of_ascii a)%N
       end.

(** [&s[..n]], which panics unless [n] is the start of a character or the end. *)
Definition str_slice_to (n : nat) (s : string) : option string :=
  if is_char_boundary s n then Some (str_take n s) else None.

(** [contains] with a string. *)
Fixpoint str_contains (needle s : string) : bool :=
  starts_with needle s || match s with "" => false | String _ s => str_contains needle s end.

(** [to_lowercase] on the letters of ASCII. *)
Definition to_ascii_lowercase (c : ascii) : ascii :=
  let n := nat_of_ascii c in if (65 <=? n) && (n <=? 90) then ascii_of_nat (n + 32) else c.
Fixpoint to_lowercase (s : string) : string :=
  match s with "" => "" | String c s => String (to_ascii_lowercase c) (to_lowercase s) end.

(** ** Lemmas *)

Lemma str_pop_app s c : str_pop (s +:+ String c "") = s.
Proof. induction s as [|a s IH]; [done|]. simpl. rewrite IH. by destruct s. Qed.

(** A byte outside of the continuation bytes ends every sequence. *)
Definition is_ascii (c : ascii) : Prop := (N_of_ascii c < 0x80)%N.

Definition continues (r : N * N) : Prop := (0x80 <= r.1)%N.

Lemma utf8_ranges_continue b ranges : utf8_ranges b = Some ranges → Forall continues ranges.
Proof.
  unfold utf8_ranges. repeat case_match; intros [= <-];
    repeat (constructor; [unfold continues; simpl; lia|]); constructor.
Qed.

Lemma utf8_tail_app c seen ranges s :
  is_ascii c → Forall continues ranges →
  utf8_tail seen ranges (s +:+ String c "") =
  match utf8_tail seen ranges s with
  | Incomplete => Invalid (seen + String.length s)
  | r => r
  end.
Proof.
  intros Hc Hr. revert seen s. induction Hr as [|[lo hi] ranges Hlo Hr IH]; intros seen s; [done|].
  destruct s as [|a s]; simpl.
  - assert (byte_in lo hi c = false) as ->.
    { unfold byte_in, is_ascii, continues in *. simpl in Hlo.
      apply andb_false_iff. left. apply N.leb_gt. lia. }
    by rewrite Nat.add_0_r.
  - destruct (byte_in lo hi a); [|done]. simpl in IH. rewrite IH.
    by rewrite Nat.add_succ_r.
Qed.

Lemma utf8_tail_bound seen ranges s w :
  utf8_tail seen ranges s = Scalar w ∨ utf8_tail seen ranges s = Invalid w →
  seen ≤ w ≤ seen + String.length s.
Proof.
  revert seen s. induction ranges as [|[lo hi] ranges IH]; intros seen s; simpl.
  - intros [[= <-]|[=]]. lia.
  - destruct s as [|a s]; [by intros [|]|]. destruct (byte_in lo hi a).
    + intros Hw. apply IH in Hw. simpl. lia.
    + intros [[=]|[= <-]]. lia.
Qed.

Lemma utf8_char_app c b s :
  is_ascii c →
  utf8_char b (s +:+ String c "") =
  match utf8_char b s with Incomplete => Invalid (S (String.length s)) | r => r end.
Proof.
  intros Hc. unfold utf8_char. destruct (utf8_ranges b) as [ranges|] eqn:Hr; [|done].
  rewrite utf8_tail_app; [done..|by eapply utf8_ranges_continue].
Qed.

Lemma utf8_char_bound b s w :
  utf8_char b s = Scalar w ∨ utf8_char b s = Invalid w → pred w ≤ String.length s.
Proof.
  unfold utf8_char. destruct (utf8_ranges b); [|by intros [[=]|[= <-]]; simpl; lia].
  intros Hw. apply utf8_tail_bound in Hw. lia.
Qed.

Lemma lossy_drop s t : lossy (String.length s) false (s +:+ t) = lossy 0 true t.
Proof. induction s as [|a s IH]; simpl; [by destruct t|done]. Qed.

Lemma lossy_ascii c : is_ascii c → lossy 0 true (String c "") = String c "".
Proof.
  unfold is_ascii. intros Hc. simpl. unfold utf8_char, utf8_ranges.
  assert (byte_in 0 0x7F c = true) as ->; [|done].
  unfold byte_in. rewrite andb_true_iff, !N.leb_le. lia.
Qed.

Lemma lossy_app c skip keep s :
  is_ascii c → skip ≤ String.length s →
  lossy skip keep (s +:+ String c "") = lossy skip keep s +:+ String c "".
Proof.
  intros Hc. revert skip keep. induction s as [|b s IH]; intros skip keep Hskip.
  - assert (skip = 0) as -> by (simpl in Hskip; lia). simpl.
    pose proof (lossy_ascii c Hc) as Hl. simpl in Hl. by rewrite Hl.
  - destruct skip as [|skip]; cbn [String.append lossy]; simpl in Hskip.
    + rewrite utf8_char_app by done.
      destruct (utf8_char b s) as [w|w|] eqn:Hchar.
      * rewrite IH; [done|]. apply (utf8_char_bound b s w). by left.
      * rewrite IH; [by rewrite str_app_assoc|]. apply (utf8_char_bound b s w). by right.
      * cbn [pred]. by rewrite lossy_drop, lossy_ascii.
    + destruct keep; rewrite IH by lia; done.
Qed.

Lemma from_utf8_lossy_app c s :
  is_ascii c → from_utf8_lossy (s +:+ String c "") = from_utf8_lossy s +:+ String c "".
Proof. intros Hc. apply lossy_app; [done|lia]. Qed.

Lemma utf8_error_lossy skip n s : utf8_error skip n s = None → lossy skip true s = s.
Proof.
  revert skip n. induction s as [|b s IH]; intros skip n; [done|]. simpl.
  destruct skip as [|skip]; [destruct (utf8_char b s); [|done..]|]; intros He; by rewrite (IH _ _ He).
Qed.

Lemma from_utf8_lossy_valid s t : from_utf8 s = Ok t → t = s ∧ from_utf8_lossy s = s.
Proof.
  unfold from_utf8. destruct (utf8_error 0 0 s) eqn:He; [done|]. intros [= <-].
  split; [done|]. by apply (utf8_error_lossy 0 0).
Qed.
