(* ===== verification/Api.v ===== *)
(** * Ankaios: the object model of the API

    The data every component exchanges: workload instance names, execution
    states, workloads, access rules, deleted workloads and the desired state.
    The types are those that [ankaios_api/proto/ank_base.proto] declares, in the
    internal ([...Spec]) form in which all fields are present; the operations
    are those of [ankaios_api/src/ank_base/]: [workload_instance_name.rs],
    [workload_state.rs], [workload.rs] and [control_interface_access.rs]. *)

From Stdlib Require Import Ascii.
From stdpp Require Import base tactics gmap strings list pretty.
From S2P Require Import Prelude.

(** ** Workload instance names *)

Record WorkloadInstanceNameSpec := {
  workload_name : string;
  agent_name : string;
  instance_id : string
}.

#[export] Instance WorkloadInstanceNameSpec_eq_dec : EqDecision WorkloadInstanceNameSpec.
Proof. solve_decision. Defined.
#[export] Instance WorkloadInstanceNameSpec_countable : Countable WorkloadInstanceNameSpec.
Proof.
  refine (inj_countable'
    (λ n, (workload_name n, agent_name n, instance_id n))
    (λ t, {| workload_name := t.1.1; agent_name := t.1.2; instance_id := t.2 |}) _).
  by intros [].
Defined.

Definition INSTANCE_NAME_PARTS_COUNT : nat := 3.
Definition INSTANCE_NAME_SEPARATOR : ascii := ".".

(** [WorkloadInstanceNameSpec::new]. *)
Definition instance_name_new (agent workload id : string) : WorkloadInstanceNameSpec :=
  {| workload_name := workload; agent_name := agent; instance_id := id |}.

(** [impl Display for WorkloadInstanceNameSpec]: name, id and agent, separated by dots. *)
Definition instance_name_to_string (n : WorkloadInstanceNameSpec) : string :=
  workload_name n +:+ String INSTANCE_NAME_SEPARATOR
    (instance_id n +:+ String INSTANCE_NAME_SEPARATOR (agent_name n)).

(** [impl TryFrom<&str> for WorkloadInstanceNameSpec]. *)
Definition instance_name_try_from (value : string) : result string WorkloadInstanceNameSpec :=
  match split_on INSTANCE_NAME_SEPARATOR value with
  | [w; i; a] => Ok {| workload_name := w; agent_name := a; instance_id := i |}
  | value_parts =>
    Err ("Could not convert '" +:+ value +:+
         "' to a WorkloadInstanceNameSpec, as it consist of " +:+
         pretty (length value_parts) +:+ " instead of 3.")
  end.

(** The folder of a workload below the run folder: a path is the list of its
    components ([WorkloadInstanceNameSpec::pipes_folder_name]). *)
Definition pipes_folder_name (n : WorkloadInstanceNameSpec) (base_path : list string) :
    list string :=
  base_path ++ [workload_name n +:+ String INSTANCE_NAME_SEPARATOR (instance_id n)].

(** The SHA-256 digest of the [sha256] crate. *)
Class Sha256 := sha256_digest : string → string.

Record WorkloadInstanceNameBuilder := {
  builder_agent_name : string;
  builder_workload_name : string;
  builder_hash : string
}.

Definition instance_name_builder : WorkloadInstanceNameBuilder :=
  {| builder_agent_name := ""; builder_workload_name := ""; builder_hash := "" |}.

Definition with_agent_name (a : string) (b : WorkloadInstanceNameBuilder) :=
  {| builder_agent_name := a;
     builder_workload_name := builder_workload_name b;
     builder_hash := builder_hash b |}.

Definition with_workload_name (w : string) (b : WorkloadInstanceNameBuilder) :=
  {| builder_agent_name := builder_agent_name b;
     builder_workload_name := w;
     builder_hash := builder_hash b |}.

(** [config(&runtime_config)]: the id is the digest of the runtime configuration. *)
Definition with_config `{Sha256} (config : string) (b : WorkloadInstanceNameBuilder) :=
  {| builder_agent_name := builder_agent_name b;
     builder_workload_name := builder_workload_name b;
     builder_hash := sha256_digest config |}.

Definition build (b : WorkloadInstanceNameBuilder) : WorkloadInstanceNameSpec :=
  {| workload_name := builder_workload_name b;
     agent_name := builder_agent_name b;
     instance_id := builder_hash b |}.

(** ** Execution states *)

Inductive Pending := PendingInitial | PendingWaitingToStart | PendingStarting
  | PendingStartingFailed.
Inductive Stopping := StoppingStopping | StoppingWaitingToStop
  | StoppingRequestedAtRuntime | StoppingDeleteFailed.
Inductive Failed := FailedExecFailed | FailedUnknown | FailedLost.

(** The one-valued proto enums ([Running::Ok], [Succeeded::Ok], [Removed::Removed],
    [AgentDisconnected::AgentDisconnected], [NotScheduled::NotScheduled]) carry
    no information and have no argument here. *)
Inductive ExecutionStateEnumSpec :=
  | AgentDisconnected
  | SPending (s : Pending)
  | SRunning
  | SStopping (s : Stopping)
  | SSucceeded
  | SFailed (s : Failed)
  | NotScheduled
  | SRemoved.

Record ExecutionStateSpec := {
  execution_state_enum : ExecutionStateEnumSpec;
  additional_info : string
}.

#[export] Instance Pending_eq_dec : EqDecision Pending.
Proof. solve_decision. Defined.
#[export] Instance Stopping_eq_dec : EqDecision Stopping.
Proof. solve_decision. Defined.
#[export] Instance Failed_eq_dec : EqDecision Failed.
Proof. solve_decision. Defined.
#[export] Instance ExecutionStateEnumSpec_eq_dec : EqDecision ExecutionStateEnumSpec.
Proof. solve_decision. Defined.
#[export] Instance ExecutionStateSpec_eq_dec : EqDecision ExecutionStateSpec.
Proof. solve_decision. Defined.

Definition TRIGGERED_MSG : string := "Triggered at runtime.".
Definition NO_MORE_RETRIES_MSG : string := "No more retries".

(** A state whose additional info is the default, the empty string. *)
Definition plain_state (s : ExecutionStateEnumSpec) : ExecutionStateSpec :=
  {| execution_state_enum := s; additional_info := "" |}.

Definition agent_disconnected_state := plain_state AgentDisconnected.
Definition starting_failed (info : string) : ExecutionStateSpec :=
  {| execution_state_enum := SPending PendingStartingFailed; additional_info := info |}.
Definition retry_starting (retry_count : N) (info : string) : ExecutionStateSpec :=
  {| execution_state_enum := SPending PendingStarting;
     additional_info := "Retry " +:+ pretty retry_count +:+ ": " +:+ info |}.
Definition retry_failed_no_retry (info : string) : ExecutionStateSpec :=
  {| execution_state_enum := SPending PendingStartingFailed;
     additional_info := NO_MORE_RETRIES_MSG +:+ ": " +:+ info |}.
Definition removed := plain_state SRemoved.
Definition unknown (info : string) : ExecutionStateSpec :=
  {| execution_state_enum := SFailed FailedUnknown; additional_info := info |}.
Definition starting (info : string) : ExecutionStateSpec :=
  {| execution_state_enum := SPending PendingStarting; additional_info := info |}.
Definition starting_triggered : ExecutionStateSpec :=
  {| execution_state_enum := SPending PendingStarting; additional_info := TRIGGERED_MSG |}.
Definition failed (info : string) : ExecutionStateSpec :=
  {| execution_state_enum := SFailed FailedExecFailed; additional_info := info |}.
Definition succeeded := plain_state SSucceeded.
Definition running := plain_state SRunning.
Definition stopping (info : string) : ExecutionStateSpec :=
  {| execution_state_enum := SStopping StoppingStopping; additional_info := info |}.
Definition stopping_requested := plain_state (SStopping StoppingRequestedAtRuntime).
Definition delete_failed (info : string) : ExecutionStateSpec :=
  {| execution_state_enum := SStopping StoppingDeleteFailed; additional_info := info |}.
Definition lost := plain_state (SFailed FailedLost).
Definition waiting_to_start := plain_state (SPending PendingWaitingToStart).
Definition waiting_to_stop := plain_state (SStopping StoppingWaitingToStop).
Definition initial := plain_state (SPending PendingInitial).
Definition not_scheduled := plain_state NotScheduled.

Definition is_removed (s : ExecutionStateSpec) : bool :=
  match execution_state_enum s with SRemoved => true | _ => false end.
Definition is_pending (s : ExecutionStateSpec) : bool :=
  match execution_state_enum s with SPending _ => true | _ => false end.
Definition is_pending_initial (s : ExecutionStateSpec) : bool :=
  match execution_state_enum s with SPending PendingInitial => true | _ => false end.
Definition is_running (s : ExecutionStateSpec) : bool :=
  match execution_state_enum s with SRunning => true | _ => false end.
Definition is_succeeded (s : ExecutionStateSpec) : bool :=
  match execution_state_enum s with SSucceeded => true | _ => false end.
Definition is_failed (s : ExecutionStateSpec) : bool :=
  match execution_state_enum s with SFailed FailedExecFailed => true | _ => false end.
Definition is_not_pending_nor_running (s : ExecutionStateSpec) : bool :=
  negb (is_pending s) && negb (is_running s).
Definition is_waiting_to_start (s : ExecutionStateSpec) : bool :=
  match execution_state_enum s with SPending PendingWaitingToStart => true | _ => false end.

(** [ExecutionStateSpec::transition]: while a stop is requested or awaited, the
    states a still running workload reports do not replace the stopping state. *)
Definition transition (self incoming : ExecutionStateSpec) : ExecutionStateSpec :=
  match execution_state_enum self, execution_state_enum incoming with
  | SStopping StoppingRequestedAtRuntime, SRunning
  | SStopping StoppingRequestedAtRuntime, SSucceeded
  | SStopping StoppingRequestedAtRuntime, SFailed FailedExecFailed
  | SStopping StoppingRequestedAtRuntime, SFailed FailedLost
  | SStopping StoppingRequestedAtRuntime, SFailed FailedUnknown
  | SStopping StoppingWaitingToStop, SRunning
  | SStopping StoppingWaitingToStop, SSucceeded
  | SStopping StoppingWaitingToStop, SFailed FailedExecFailed
  | SStopping StoppingWaitingToStop, SFailed FailedLost
  | SStopping StoppingWaitingToStop, SFailed FailedUnknown => self
  | _, _ => incoming
  end.

(** [impl Display] of the two execution state types ([{substate:?}] prints the
    constructor's name). *)
Definition show_pending (s : Pending) : string :=
  match s with
  | PendingInitial => "Initial" | PendingWaitingToStart => "WaitingToStart"
  | PendingStarting => "Starting" | PendingStartingFailed => "StartingFailed"
  end.
Definition show_stopping (s : Stopping) : string :=
  match s with
  | StoppingStopping => "Stopping" | StoppingWaitingToStop => "WaitingToStop"
  | StoppingRequestedAtRuntime => "RequestedAtRuntime" | StoppingDeleteFailed => "DeleteFailed"
  end.
Definition show_failed (s : Failed) : string :=
  match s with
  | FailedExecFailed => "ExecFailed" | FailedUnknown => "Unknown" | FailedLost => "Lost"
  end.
Definition execution_state_enum_to_string (s : ExecutionStateEnumSpec) : string :=
  match s with
  | AgentDisconnected => "AgentDisconnected"
  | SPending sub => "Pending(" +:+ show_pending sub +:+ ")"
  | SRunning => "Running(Ok)"
  | SStopping sub => "Stopping(" +:+ show_stopping sub +:+ ")"
  | SSucceeded => "Succeeded(Ok)"
  | SFailed sub => "Failed(" +:+ show_failed sub +:+ ")"
  | NotScheduled => "NotScheduled"
  | SRemoved => "Removed"
  end.
Definition execution_state_to_string (s : ExecutionStateSpec) : string :=
  if str_is_empty (additional_info s) then
    execution_state_enum_to_string (execution_state_enum s)
  else
    execution_state_enum_to_string (execution_state_enum s) +:+
      ": '" +:+ additional_info s +:+ "'".

(** ** Control interface access rules *)

Inductive ReadWriteEnum := RwNothing | RwRead | RwWrite | RwReadWrite.

Inductive AccessRightsRuleEnumSpec :=
  | StateRuleSpec (operation : ReadWriteEnum) (filter_masks : list string)
  | LogRuleSpec (workload_names : list string).

Record ControlInterfaceAccessSpec := {
  allow_rules : list AccessRightsRuleEnumSpec;
  deny_rules : list AccessRightsRuleEnumSpec
}.

#[export] Instance ReadWriteEnum_eq_dec : EqDecision ReadWriteEnum.
Proof. solve_decision. Defined.
#[export] Instance AccessRightsRuleEnumSpec_eq_dec : EqDecision AccessRightsRuleEnumSpec.
Proof. solve_decision. Defined.
#[export] Instance ControlInterfaceAccessSpec_eq_dec : EqDecision ControlInterfaceAccessSpec.
Proof. solve_decision. Defined.

Definition WILDCARD_SYMBOL : string := "*".
Definition WILDCARD_CHAR : ascii := "*".

(** ** Workloads *)

Inductive AddCondition := AddCondRunning | AddCondSucceeded | AddCondFailed.
Inductive DeleteCondition := DelCondRunning | DelCondNotPendingNorRunning.
Inductive RestartPolicy := Never | OnFailure | Always.
Inductive FileContentSpec := Data (data : string) | BinaryData (binary_data : string).
Record FileSpec := { mount_point : string; file_content : FileContentSpec }.

#[export] Instance AddCondition_eq_dec : EqDecision AddCondition.
Proof. solve_decision. Defined.
#[export] Instance DeleteCondition_eq_dec : EqDecision DeleteCondition.
Proof. solve_decision. Defined.
#[export] Instance RestartPolicy_eq_dec : EqDecision RestartPolicy.
Proof. solve_decision. Defined.
#[export] Instance FileContentSpec_eq_dec : EqDecision FileContentSpec.
Proof. solve_decision. Defined.
#[export] Instance FileSpec_eq_dec : EqDecision FileSpec.
Proof. solve_decision. Defined.

(** The single-field wrapper messages ([Dependencies], [Tags], [Files],
    [ConfigMappings]) are their one field. *)
Record WorkloadSpec := {
  agent : string;
  restart_policy : RestartPolicy;
  dependencies : gmap string AddCondition;
  tags : gmap string string;
  runtime : string;
  runtime_config : string;
  control_interface_access : ControlInterfaceAccessSpec;
  workload_configs : gmap string string;
  workload_files : list FileSpec
}.

Record WorkloadNamed := {
  instance_name : WorkloadInstanceNameSpec;
  workload : WorkloadSpec
}.

Record DeletedWorkload := {
  deleted_instance_name : WorkloadInstanceNameSpec;
  deleted_dependencies : gmap string DeleteCondition
}.

Record WorkloadStateSpec := {
  state_instance_name : WorkloadInstanceNameSpec;
  execution_state : ExecutionStateSpec
}.

#[export] Instance WorkloadSpec_eq_dec : EqDecision WorkloadSpec.
Proof. solve_decision. Defined.
#[export] Instance WorkloadNamed_eq_dec : EqDecision WorkloadNamed.
Proof. solve_decision. Defined.
#[export] Instance DeletedWorkload_eq_dec : EqDecision DeletedWorkload.
Proof. solve_decision. Defined.
#[export] Instance WorkloadStateSpec_eq_dec : EqDecision WorkloadStateSpec.
Proof. solve_decision. Defined.

(** [Default] of the derived structs. *)
Definition instance_name_default : WorkloadInstanceNameSpec :=
  {| workload_name := ""; agent_name := ""; instance_id := "" |}.
Definition workload_default : WorkloadSpec := {|
  agent := ""; restart_policy := Never; dependencies := ∅; tags := ∅;
  runtime := ""; runtime_config := "";
  control_interface_access := {| allow_rules := []; deny_rules := [] |};
  workload_configs := ∅; workload_files := [] |}.

(** [impl From<(String, WorkloadSpec)> for WorkloadNamed]. *)
Definition workload_named_from `{Sha256} (name : string) (w : WorkloadSpec) : WorkloadNamed :=
  {| instance_name :=
       build (with_config (runtime_config w)
         (with_workload_name name (with_agent_name (agent w) instance_name_builder)));
     workload := w |}.

Definition needs_control_interface (w : WorkloadSpec) : bool :=
  match allow_rules (control_interface_access w) with [] => false | _ => true end.

(** ** Desired state

    The fields of a configuration object are listed in the order in which its
    hash map is visited. *)

Inductive ConfigItemSpec :=
  | ConfigString (s : string)
  | ConfigArray (values : list ConfigItemSpec)
  | ConfigObject (fields : list (string * ConfigItemSpec)).

Record StateSpec := {
  api_version : string;
  workloads : gmap string WorkloadSpec;
  configs : gmap string ConfigItemSpec
}.

Definition CURRENT_API_VERSION : string := "v1".
Definition PREVIOUS_API_VERSION : string := "v0.1".

Definition state_default : StateSpec :=
  {| api_version := CURRENT_API_VERSION; workloads := ∅; configs := ∅ |}.

(** ** Agents *)

Record AgentStatusSpec := {
  cpu_usage : option N;
  free_memory : option N
}.

Record AgentAttributesSpec := {
  status : option AgentStatusSpec;
  agent_tags : gmap string string
}.

#[export] Instance AgentStatusSpec_eq_dec : EqDecision AgentStatusSpec.
Proof. solve_decision. Defined.
#[export] Instance AgentAttributesSpec_eq_dec : EqDecision AgentAttributesSpec.
Proof. solve_decision. Defined.

(** ** Properties *)

(** A text that parses is the printed form of its instance name. *)
Lemma instance_name_try_from_print s n :
  instance_name_try_from s = Ok n → instance_name_to_string n = s.
Proof.
  unfold instance_name_try_from. pose proof (join_split_on INSTANCE_NAME_SEPARATOR s) as Hjoin.
  destruct (split_on INSTANCE_NAME_SEPARATOR s) as [|w [|i [|a []]]]; try done.
  intros [= <-]. by rewrite <-Hjoin.
Qed.

(** Printing an instance name and parsing the result gives the instance
    name back, provided that no part contains a dot; validated workload and
    agent names do not. *)
Theorem instance_name_roundtrip n :
  has_char INSTANCE_NAME_SEPARATOR (workload_name n) = false →
  has_char INSTANCE_NAME_SEPARATOR (instance_id n) = false →
  has_char INSTANCE_NAME_SEPARATOR (agent_name n) = false →
  instance_name_try_from (instance_name_to_string n) = Ok n.
Proof.
  intros Hw Hi Ha. unfold instance_name_try_from, instance_name_to_string.
  rewrite split_on_app_sep, split_on_app_sep, split_on_no_char by done.
  by destruct n.
Qed.

Definition set_dependencies (w : WorkloadSpec) (deps : gmap string AddCondition) : WorkloadSpec :=
  {| agent := agent w; restart_policy := restart_policy w; dependencies := deps;
     tags := tags w; runtime := runtime w; runtime_config := runtime_config w;
     control_interface_access := control_interface_access w;
     workload_configs := workload_configs w; workload_files := workload_files w |}.

Definition set_agent (w : WorkloadSpec) (a : string) : WorkloadSpec :=
  {| agent := a; restart_policy := restart_policy w; dependencies := dependencies w;
     tags := tags w; runtime := runtime w; runtime_config := runtime_config w;
     control_interface_access := control_interface_access w;
     workload_configs := workload_configs w; workload_files := workload_files w |}.

Definition set_tags (w : WorkloadSpec) (ts : gmap string string) : WorkloadSpec :=
  {| agent := agent w; restart_policy := restart_policy w; dependencies := dependencies w;
     tags := ts; runtime := runtime w; runtime_config := runtime_config w;
     control_interface_access := control_interface_access w;
     workload_configs := workload_configs w; workload_files := workload_files w |}.

Definition example_instance_name : WorkloadInstanceNameSpec :=
  {| workload_name := "nginx"; agent_name := "agent_A"; instance_id := "abc" |}.

Lemma instance_name_roundtrip_witness :
  instance_name_try_from (instance_name_to_string example_instance_name)
  = Ok example_instance_name.
Proof. apply (instance_name_roundtrip example_instance_name); reflexivity. Defined.

(** A stop request is only left through a state that is not a report of the
    still existing workload. *)
Definition is_stop_pending (s : ExecutionStateSpec) : bool :=
  match execution_state_enum s with
  | SStopping StoppingRequestedAtRuntime | SStopping StoppingWaitingToStop => true
  | _ => false
  end.

Definition is_runtime_report (s : ExecutionStateSpec) : bool :=
  match execution_state_enum s with
  | SRunning | SSucceeded | SFailed _ => true
  | _ => false
  end.

Lemma transition_spec self incoming :
  transition self incoming =
  if is_stop_pending self && is_runtime_report incoming then self else incoming.
Proof.
  destruct self as [[] si], incoming as [[] ii]; try reflexivity;
    repeat match goal with s : Stopping |- _ => destruct s
                         | s : Failed |- _ => destruct s end; reflexivity.
Qed.

(** Hysteresis of the execution state: folding any sequence of reported
    states into a state in which a stop is pending keeps that state as long as
    all reports are of a running, succeeded or failed workload; any other
    report (stopping, removed, pending, ...) is taken over as it is. *)
Theorem transition_hysteresis self reports :
  is_stop_pending self = true →
  Forall (λ s, is_runtime_report s = true) reports →
  foldl transition self reports = self ∧
  ∀ next, is_runtime_report next = false →
    transition (foldl transition self reports) next = next.
Proof.
  intros Hself Hreports.
  assert (foldl transition self reports = self) as ->.
  { induction Hreports as [|s reports Hs _ IH]; simpl; [done|].
    by rewrite transition_spec, Hself, Hs. }
  split; [done|]. intros next Hnext. by rewrite transition_spec, Hnext, andb_false_r.
Qed.

Lemma transition_hysteresis_witness :
  foldl transition stopping_requested [running; failed "exit 1"; lost] = stopping_requested ∧
  ∀ next, is_runtime_report next = false →
    transition (foldl transition stopping_requested [running; failed "exit 1"; lost]) next = next.
Proof.
  apply transition_hysteresis; [reflexivity|]. repeat constructor.
Defined.
