(* ===== verification/WorkloadStates.v ===== *)
(** * Ankaios: the map of workload execution states

    [WorkloadStatesMapSpec] of [ankaios_api/src/ank_base/workload_states_map.rs]:
    agent name to workload name to instance id to execution state.  The server
    and every agent keep one.

    The abstract view of the map is the partial function from instance names to
    execution states ([get_workload_state_for_workload]); every operation is
    shown to act on that view as the corresponding operation on a flat map, and
    to keep the nested map free of empty inner maps. *)

From stdpp Require Import base tactics gmap strings list.
From S2P Require Import Prelude Api.

Abbreviation IdStateMap := (gmap string ExecutionStateSpec).
Abbreviation WlNameStateMap := (gmap string IdStateMap).
Abbreviation WorkloadStatesMap := (gmap string WlNameStateMap).

(** ** Operations *)

Definition get_workload_state_for_workload (m : WorkloadStatesMap)
    (n : WorkloadInstanceNameSpec) : option ExecutionStateSpec :=
  name_map ← m !! agent_name n;
  id_map ← name_map !! workload_name n;
  id_map !! instance_id n.

Section queries.
Context `{IterOrder}.

(** The states of one workload of one agent, in visiting order. *)
Definition states_of_ids (agent wl : string) (id_map : IdStateMap) : list WorkloadStateSpec :=
  (λ '(wl_id, exec_state),
    {| state_instance_name := instance_name_new agent wl wl_id;
       execution_state := exec_state |}) <$> map_iter id_map.

Definition states_of_names (agent : string) (name_map : WlNameStateMap) :
    list WorkloadStateSpec :=
  '(wl, id_map) ← map_iter name_map; states_of_ids agent wl id_map.

Definition get_workload_state_for_agent (m : WorkloadStatesMap) (agent : string) :
    list WorkloadStateSpec :=
  match m !! agent with
  | Some name_map => states_of_names agent name_map
  | None => []
  end.

Definition get_workload_state_excluding_agent (m : WorkloadStatesMap) (excluding : string) :
    list WorkloadStateSpec :=
  '(agent, name_map) ← filter (λ p, p.1 ≠ excluding) (map_iter m);
  states_of_names agent name_map.

Definition get_states_for_workload_name (m : WorkloadStatesMap) (wl : string) :
    list WorkloadStateSpec :=
  '(agent, name_map) ← map_iter m;
  match name_map !! wl with
  | Some id_map => states_of_ids agent wl id_map
  | None => []
  end.
End queries.

Definition agent_disconnected (m : WorkloadStatesMap) (agent : string) : WorkloadStatesMap :=
  match m !! agent with
  | Some agent_states =>
    <[agent := (λ id_map : IdStateMap, (λ _, agent_disconnected_state) <$> id_map)
                 <$> agent_states]> m
  | None => m
  end.

(** [entry(agent).or_default().entry(name).or_default().id_state_map] handed to [f]. *)
Definition with_id_map (n : WorkloadInstanceNameSpec) (f : IdStateMap → IdStateMap)
    (m : WorkloadStatesMap) : WorkloadStatesMap :=
  let name_map := default ∅ (m !! agent_name n) in
  let id_map := default ∅ (name_map !! workload_name n) in
  <[agent_name n := <[workload_name n := f id_map]> name_map]> m.

(** [entry(id).or_insert(s)]. *)
Definition or_insert (id : string) (s : ExecutionStateSpec) (id_map : IdStateMap) : IdStateMap :=
  match id_map !! id with Some _ => id_map | None => <[id := s]> id_map end.

Definition initial_state_of (n : WorkloadInstanceNameSpec) : ExecutionStateSpec :=
  if str_is_empty (agent_name n) then not_scheduled else initial.

Definition initial_state (m : WorkloadStatesMap) (wls : list WorkloadNamed) : WorkloadStatesMap :=
  foldl (λ m wl,
    let n := instance_name wl in
    with_id_map n (or_insert (instance_id n) (initial_state_of n)) m) m wls.

Definition remove (m : WorkloadStatesMap) (n : WorkloadInstanceNameSpec) : WorkloadStatesMap :=
  match m !! agent_name n with
  | Some agent_states =>
    match agent_states !! workload_name n with
    | Some workload_states =>
      let workload_states := delete (instance_id n) workload_states in
      if bool_decide (workload_states = ∅) then
        let agent_states := delete (workload_name n) agent_states in
        if bool_decide (agent_states = ∅) then delete (agent_name n) m
        else <[agent_name n := agent_states]> m
      else <[agent_name n := <[workload_name n := workload_states]> agent_states]> m
    | None => m
    end
  | None => m
  end.

Definition process_new_state (m : WorkloadStatesMap) (s : WorkloadStateSpec) :
    WorkloadStatesMap :=
  let n := state_instance_name s in
  if is_removed (execution_state s) then remove m n
  else with_id_map n (insert (instance_id n) (execution_state s)) m.

Definition process_new_states (m : WorkloadStatesMap) (l : list WorkloadStateSpec) :
    WorkloadStatesMap := foldl process_new_state m l.

(** ** Abstract view *)

(** Every inner map has an entry. *)
Definition states_wf (m : WorkloadStatesMap) : Prop :=
  map_Forall (λ _ (name_map : WlNameStateMap),
    name_map ≠ ∅ ∧ map_Forall (λ _ (id_map : IdStateMap), id_map ≠ ∅) name_map) m.

Abbreviation flat := get_workload_state_for_workload.

Lemma instance_name_eq (n n' : WorkloadInstanceNameSpec) :
  n = n' ↔ agent_name n = agent_name n' ∧ workload_name n = workload_name n' ∧
           instance_id n = instance_id n'.
Proof. destruct n, n'; simpl. naive_solver. Qed.

Lemma flat_with_id_map n f m n' :
  (∀ id_map i, i ≠ instance_id n → f id_map !! i = id_map !! i) →
  flat (with_id_map n f m) n' =
  if decide (n = n') then
    f (default ∅ (default ∅ (m !! agent_name n) !! workload_name n)) !! instance_id n
  else flat m n'.
Proof.
  intros Hf. unfold flat, with_id_map.
  destruct (decide (n = n')) as [<-|Hn]; [by rewrite !lookup_insert_eq; simpl; rewrite lookup_insert_eq|].
  destruct (decide (agent_name n = agent_name n')) as [Ha|Ha];
    [|by rewrite lookup_insert_ne by done].
  rewrite <-Ha, lookup_insert_eq. simpl.
  destruct (decide (workload_name n = workload_name n')) as [Hw|Hw].
  - rewrite <-Hw, lookup_insert_eq. simpl. rewrite Hf.
    + destruct (m !! agent_name n) as [nm|]; simpl; [|by rewrite !lookup_empty].
      destruct (nm !! workload_name n); simpl; [done|by rewrite lookup_empty].
    + intros Hi. apply Hn. by apply instance_name_eq.
  - rewrite lookup_insert_ne by done.
    destruct (m !! agent_name n); simpl; [done|]. by rewrite lookup_empty.
Qed.

Lemma flat_default m n :
  default ∅ (default ∅ (m !! agent_name n) !! workload_name n) !! instance_id n = flat m n.
Proof.
  unfold flat. destruct (m !! agent_name n) as [nm|]; simpl; [|by rewrite !lookup_empty].
  destruct (nm !! workload_name n); simpl; [done|by rewrite lookup_empty].
Qed.

Lemma flat_remove m n n' :
  flat (remove m n) n' = if decide (n = n') then None else flat m n'.
Proof.
  unfold flat, remove.
  destruct (m !! agent_name n) as [nm|] eqn:Hm;
    [|case_decide; subst; simpl; rewrite ?Hm; done].
  destruct (nm !! workload_name n) as [im|] eqn:Hnm;
    [|case_decide; subst; simpl; rewrite ?Hm; simpl; rewrite ?Hnm; done].
  destruct (decide (agent_name n = agent_name n')) as [Ha|Ha].
  2: { rewrite decide_False by (intros ->; done).
       by repeat case_bool_decide; rewrite ?lookup_delete_ne, ?lookup_insert_ne by done. }
  destruct (decide (workload_name n = workload_name n')) as [Hw|Hw].
  - rewrite <-Ha, <-Hw, Hm. simpl. rewrite Hnm. simpl.
    assert (delete (instance_id n) im !! instance_id n' =
            if decide (n = n') then None else im !! instance_id n') as <-.
    { case_decide as Hn; [subst; by rewrite lookup_delete_eq|].
      rewrite lookup_delete_ne; [done|]. intros Hi. apply Hn. by apply instance_name_eq. }
    case_bool_decide as Hi; [rewrite Hi, lookup_empty; case_bool_decide|].
    + by rewrite lookup_delete_eq.
    + rewrite lookup_insert_eq. simpl. by rewrite lookup_delete_eq.
    + rewrite lookup_insert_eq. simpl. by rewrite lookup_insert_eq.
  - rewrite decide_False by (intros ->; done). rewrite <-Ha, Hm. simpl.
    case_bool_decide as Hi; [case_bool_decide as Hn|].
    + rewrite lookup_delete_eq. simpl.
      rewrite <-(lookup_delete_ne nm (workload_name n)), Hn by done. by rewrite lookup_empty.
    + rewrite lookup_insert_eq. simpl. by rewrite lookup_delete_ne.
    + rewrite lookup_insert_eq. simpl. by rewrite lookup_insert_ne.
Qed.

Lemma flat_process_new_state m s n :
  flat (process_new_state m s) n =
  if decide (state_instance_name s = n) then
    if is_removed (execution_state s) then None else Some (execution_state s)
  else flat m n.
Proof.
  unfold process_new_state. destruct (is_removed (execution_state s)).
  - by rewrite flat_remove.
  - rewrite flat_with_id_map by (intros; by rewrite lookup_insert_ne).
    case_decide; [|done]. by rewrite lookup_insert_eq.
Qed.

Lemma flat_initial_state_of m wl n :
  flat (initial_state m [wl]) n =
  if decide (instance_name wl = n) then Some (default (initial_state_of n) (flat m n))
  else flat m n.
Proof.
  simpl. rewrite flat_with_id_map.
  - case_decide as Hn; [subst n|done].
    unfold or_insert. rewrite flat_default.
    destruct (flat m (instance_name wl)) eqn:Hf; simpl.
    + by rewrite flat_default.
    + by rewrite lookup_insert_eq.
  - intros im i Hi. unfold or_insert. destruct (im !! instance_id (instance_name wl)); [done|].
    by rewrite lookup_insert_ne.
Qed.

(** ** Well-formedness *)

Lemma states_wf_empty : states_wf ∅.
Proof. apply map_Forall_empty. Qed.

Lemma states_wf_with_id_map n f m :
  (∀ id_map, f id_map ≠ ∅) → states_wf m → states_wf (with_id_map n f m).
Proof.
  intros Hf Hm. unfold with_id_map. apply map_Forall_insert_2; [|done]. split.
  - apply insert_non_empty.
  - apply map_Forall_insert_2; [apply Hf|].
    destruct (m !! agent_name n) as [nm|] eqn:Ha; simpl; [|apply map_Forall_empty].
    by destruct (Hm _ _ Ha).
Qed.

Lemma states_wf_remove n m : states_wf m → states_wf (remove m n).
Proof.
  intros Hm. unfold remove.
  destruct (m !! agent_name n) as [nm|] eqn:Ha; [|done].
  destruct (nm !! workload_name n) as [im|] eqn:Hw; [|done].
  destruct (Hm _ _ Ha) as [Hne Hin].
  case_bool_decide; [case_bool_decide|].
  - by apply map_Forall_delete.
  - apply map_Forall_insert_2; [|done]. split; [done|]. by apply map_Forall_delete.
  - apply map_Forall_insert_2; [|done]. split; [apply insert_non_empty|].
    by apply map_Forall_insert_2.
Qed.

Lemma states_wf_process_new_state m s : states_wf m → states_wf (process_new_state m s).
Proof.
  intros Hm. unfold process_new_state. destruct (is_removed _).
  - by apply states_wf_remove.
  - apply states_wf_with_id_map; [intros; apply insert_non_empty|done].
Qed.

Lemma states_wf_process_new_states m l : states_wf m → states_wf (process_new_states m l).
Proof. apply foldl_preserves, states_wf_process_new_state. Qed.

Lemma states_wf_initial_state m wls : states_wf m → states_wf (initial_state m wls).
Proof.
  revert m. induction wls as [|wl wls IH]; intros m Hm; [done|].
  unfold initial_state. simpl. apply IH. apply states_wf_with_id_map; [|done].
  intros im. unfold or_insert. destruct (im !! _) eqn:Hi; [|apply insert_non_empty].
  intros ->. by rewrite lookup_empty in Hi.
Qed.

Lemma states_wf_agent_disconnected m a : states_wf m → states_wf (agent_disconnected m a).
Proof.
  intros Hm. unfold agent_disconnected. destruct (m !! a) as [nm|] eqn:Ha; [|done].
  destruct (Hm _ _ Ha) as [Hne Hin]. apply map_Forall_insert_2; [|done]. split.
  - by rewrite fmap_empty_iff.
  - intros w im. rewrite lookup_fmap. destruct (nm !! w) as [im'|] eqn:Hw; [|done].
    intros [= <-]. rewrite fmap_empty_iff. by eapply Hin.
Qed.

#[export] Hint Resolve states_wf_empty states_wf_remove states_wf_process_new_state : wf.
#[export] Hint Resolve states_wf_process_new_states states_wf_initial_state : wf.
#[export] Hint Resolve states_wf_agent_disconnected : wf.

(** ** Queries against the abstract view *)

Section query_lemmas.
Context `{IterOrder}.

Lemma elem_of_states_of_ids agent wl im s :
  s ∈ states_of_ids agent wl im ↔
  agent_name (state_instance_name s) = agent ∧ workload_name (state_instance_name s) = wl ∧
  im !! instance_id (state_instance_name s) = Some (execution_state s).
Proof.
  unfold states_of_ids. rewrite list_elem_of_fmap. split.
  - intros ([i e] & -> & Hin). by apply elem_of_map_iter in Hin.
  - intros (<- & <- & Hi). exists (instance_id (state_instance_name s), execution_state s).
    split; [by destruct s as [[] ?]|]. by apply elem_of_map_iter.
Qed.

Lemma elem_of_states_of_names agent nm s :
  s ∈ states_of_names agent nm ↔
  agent_name (state_instance_name s) = agent ∧
  nm !! workload_name (state_instance_name s) ≫= (.!! instance_id (state_instance_name s))
    = Some (execution_state s).
Proof.
  unfold states_of_names. rewrite list_elem_of_bind. split.
  - intros ([wl im] & Hs & Hin). apply elem_of_map_iter in Hin.
    apply elem_of_states_of_ids in Hs as (? & Hw & ?). split; [done|]. by rewrite Hw, Hin.
  - intros [Ha Hs]. destruct (nm !! _) as [im|] eqn:Hw; [|done]. simpl in Hs.
    exists (workload_name (state_instance_name s), im).
    rewrite elem_of_map_iter. split; [by apply elem_of_states_of_ids|done].
Qed.

Lemma elem_of_get_for_agent m a s :
  s ∈ get_workload_state_for_agent m a ↔
  agent_name (state_instance_name s) = a ∧
  flat m (state_instance_name s) = Some (execution_state s).
Proof.
  unfold get_workload_state_for_agent, flat. destruct (m !! a) as [nm|] eqn:Ha.
  - rewrite elem_of_states_of_names. split; intros [Hs Hf]; (split; [done|]).
    + by rewrite Hs, Ha.
    + by rewrite Hs, Ha in Hf.
  - rewrite elem_of_nil. split; [done|]. intros [Hs Hf]. by rewrite Hs, Ha in Hf.
Qed.

Lemma elem_of_get_excluding m a s :
  s ∈ get_workload_state_excluding_agent m a ↔
  agent_name (state_instance_name s) ≠ a ∧
  flat m (state_instance_name s) = Some (execution_state s).
Proof.
  unfold get_workload_state_excluding_agent, flat. rewrite list_elem_of_bind. split.
  - intros ([a' nm] & Hs & Hin). apply list_elem_of_filter in Hin as [Hne Hin].
    apply elem_of_map_iter in Hin. apply elem_of_states_of_names in Hs as [Hs Hf].
    simpl in *. split; [congruence|]. by rewrite Hs, Hin.
  - intros [Hne Hf]. destruct (m !! _) as [nm|] eqn:Ha; [|done]. simpl in Hf.
    exists (agent_name (state_instance_name s), nm). split.
    + by apply elem_of_states_of_names.
    + apply list_elem_of_filter. split; [done|]. by apply elem_of_map_iter.
Qed.

Lemma elem_of_get_for_name m wl s :
  s ∈ get_states_for_workload_name m wl ↔
  workload_name (state_instance_name s) = wl ∧
  flat m (state_instance_name s) = Some (execution_state s).
Proof.
  unfold get_states_for_workload_name, flat. rewrite list_elem_of_bind. split.
  - intros ([a nm] & Hs & Hin). apply elem_of_map_iter in Hin.
    destruct (nm !! wl) as [im|] eqn:Hw; [|by apply elem_of_nil in Hs].
    apply elem_of_states_of_ids in Hs as (Ha & Hn & Hi).
    split; [done|]. rewrite Ha, Hin. simpl. by rewrite Hn, Hw.
  - intros [Hn Hf]. destruct (m !! _) as [nm|] eqn:Ha; [|done]. simpl in Hf.
    destruct (nm !! _) as [im|] eqn:Hw; [|done]. simpl in Hf.
    exists (agent_name (state_instance_name s), nm). rewrite elem_of_map_iter.
    split; [|done]. rewrite <-Hn, Hw. by apply elem_of_states_of_ids.
Qed.
End query_lemmas.

Lemma flat_agent_disconnected m a n :
  flat (agent_disconnected m a) n =
  if decide (agent_name n = a) then (λ _, agent_disconnected_state) <$> flat m n else flat m n.
Proof.
  unfold flat, agent_disconnected. destruct (m !! a) as [nm|] eqn:Ha.
  - case_decide as Hn.
    + rewrite Hn, lookup_insert_eq, Ha. simpl. rewrite lookup_fmap.
      destruct (nm !! workload_name n); simpl; [|done]. by rewrite lookup_fmap.
    + by rewrite lookup_insert_ne by done.
  - case_decide as Hn; [|done]. by rewrite Hn, Ha.
Qed.

(** ** Properties *)

(** What one report does to the state of one instance in the flat map. *)
Definition flat_report (n : WorkloadInstanceNameSpec) (o : option ExecutionStateSpec)
    (s : WorkloadStateSpec) : option ExecutionStateSpec :=
  if decide (state_instance_name s = n) then
    if is_removed (execution_state s) then None else Some (execution_state s)
  else o.

(** C31: refinement of the nested state map to a flat one.  Processing a batch
    of reported states acts on every instance as the reports for this instance
    in their order: the last one wins, [Removed] deletes; and no empty inner
    maps are left behind. *)
Theorem process_new_states_refines m l :
  states_wf m →
  states_wf (process_new_states m l) ∧
  ∀ n, get_workload_state_for_workload (process_new_states m l) n =
       foldl (flat_report n) (get_workload_state_for_workload m n) l.
Proof.
  intros Hm. split; [by apply states_wf_process_new_states|].
  clear Hm. revert m. induction l as [|s l IH]; intros m n; [done|].
  unfold process_new_states in *. simpl. rewrite IH, flat_process_new_state. done.
Qed.

Lemma process_new_states_refines_witness :
  let s := {| state_instance_name := example_instance_name; execution_state := running |} in
  states_wf (process_new_states ∅ [s]) ∧
  ∀ n, get_workload_state_for_workload (process_new_states ∅ [s]) n =
       foldl (flat_report n) (get_workload_state_for_workload ∅ n) [s].
Proof. intros s. apply process_new_states_refines. apply states_wf_empty. Defined.

(** The nested map is canonical: two well-formed maps in which every
    instance has the same state are equal, so removing an instance leaves no
    trace of its agent or workload name behind. *)
Theorem states_map_extensional m1 m2 :
  states_wf m1 → states_wf m2 →
  (∀ n, get_workload_state_for_workload m1 n = get_workload_state_for_workload m2 n) →
  m1 = m2.
Proof.
  intros Hwf1 Hwf2 Hext.
  assert (∀ m a nm w im, states_wf m → m !! a = Some nm → nm !! w = Some im →
    ∃ i e, flat m (instance_name_new a w i) = Some e) as Hinst.
  { intros m a nm w im Hm Ha Hw. destruct (Hm _ _ Ha) as [_ Hin].
    destruct (map_choose im (Hin _ _ Hw)) as (i & e & Hi).
    exists i, e. unfold flat. simpl. rewrite Ha. simpl. by rewrite Hw. }
  assert (∀ m m' a nm, states_wf m → (∀ n, flat m n = flat m' n) → m !! a = Some nm →
    ∃ nm', m' !! a = Some nm') as Hdom.
  { intros m m' a nm Hm He Ha. destruct (Hm _ _ Ha) as [Hne _].
    destruct (map_choose nm Hne) as (w & im & Hw).
    destruct (Hinst m a nm w im Hm Ha Hw) as (i & e & Hf). rewrite He in Hf.
    unfold flat in Hf. simpl in Hf. destruct (m' !! a); [eauto|done]. }
  assert (∀ m m' a nm nm' w im, states_wf m → (∀ n, flat m n = flat m' n) →
    m !! a = Some nm → m' !! a = Some nm' → nm !! w = Some im →
    ∃ im', nm' !! w = Some im') as Hdom2.
  { intros m m' a nm nm' w im Hm He Ha Ha' Hw.
    destruct (Hinst m a nm w im Hm Ha Hw) as (i & e & Hf). rewrite He in Hf.
    unfold flat in Hf. simpl in Hf. rewrite Ha' in Hf. simpl in Hf.
    destruct (nm' !! w); [eauto|done]. }
  apply map_eq. intros a. destruct (m1 !! a) as [nm1|] eqn:Ha1.
  2: { destruct (m2 !! a) as [nm2|] eqn:Ha2; [|done].
       destruct (Hdom m2 m1 a nm2) as [? ?]; [done..|congruence]. }
  destruct (Hdom m1 m2 a nm1) as [nm2 Ha2]; [done..|]. rewrite Ha2. f_equal.
  apply map_eq. intros w. destruct (nm1 !! w) as [im1|] eqn:Hw1.
  2: { destruct (nm2 !! w) as [im2|] eqn:Hw2; [|done].
       destruct (Hdom2 m2 m1 a nm2 nm1 w im2) as [? ?]; [done..|congruence]. }
  destruct (Hdom2 m1 m2 a nm1 nm2 w im1) as [im2 Hw2]; [done..|]. rewrite Hw2. f_equal.
  apply map_eq. intros i. pose proof (Hext (instance_name_new a w i)) as Hf.
  unfold flat in Hf. simpl in Hf. rewrite Ha1, Ha2 in Hf. simpl in Hf.
  by rewrite Hw1, Hw2 in Hf.
Qed.

Lemma states_map_extensional_witness :
  let s := {| state_instance_name := example_instance_name; execution_state := running |} in
  let r := {| state_instance_name := example_instance_name; execution_state := removed |} in
  process_new_states ∅ [s; r] = ∅.
Proof.
  intros s r. apply states_map_extensional.
  - apply states_wf_process_new_states, states_wf_empty.
  - apply states_wf_empty.
  - intros n. unfold process_new_states. simpl. rewrite !flat_process_new_state.
    repeat case_decide; done.
Defined.

(** When an agent disconnects, exactly its workloads get the state
    [AgentDisconnected], nothing else changes, and the states the server then
    distributes for this agent are exactly those. *)
Theorem agent_disconnected_spec `{IterOrder} m a :
  (∀ n, get_workload_state_for_workload (agent_disconnected m a) n =
        if decide (agent_name n = a)
        then (λ _, agent_disconnected_state) <$> get_workload_state_for_workload m n
        else get_workload_state_for_workload m n) ∧
  (∀ s, s ∈ get_workload_state_for_agent (agent_disconnected m a) a ↔
        agent_name (state_instance_name s) = a ∧
        execution_state s = agent_disconnected_state ∧
        is_Some (get_workload_state_for_workload m (state_instance_name s))).
Proof.
  split; [intros n; apply flat_agent_disconnected|].
  intros s. rewrite elem_of_get_for_agent, flat_agent_disconnected.
  split.
  - intros [Ha Hf]. rewrite decide_True in Hf by done.
    destruct (flat m (state_instance_name s)); simpl in Hf; [|done]. naive_solver.
  - intros (Ha & He & [e Hf]). split; [done|]. rewrite decide_True by done.
    rewrite Hf. simpl. congruence.
Qed.
