(* ===== verification/ApiSerde.v ===== *)
(** * Ankaios: serialization of the API objects

    [ankaios_api/src/helpers.rs]: what the attributes of the generated types
    call while an object is written or read. The formats themselves are those
    of the [serde] crates; a deserialized value and the entries that are
    serialized are given. *)

From stdpp Require Import base tactics gmap strings list sorting.
From S2P Require Import Prelude Api.

(** [trim_string]: applied to the runtime configuration. *)
Definition trim_string (deserialized : result string string) : result string string :=
  s ← deserialized; Ok (trim s).

(** Maps are written in the order of their keys. *)
Definition serialize_to_ordered_map `{IterOrder} {V} (value : gmap string V) : list (string * V) :=
  omap (λ k, (λ v, (k, v)) <$> value !! k) (sort_strings (fst <$> map_iter value)).

(** Tags are a mapping or, in the previous version, a list of entries. *)
Inductive MapOrVec (V : Type) :=
  | Map (m : gmap string V)
  | Vec (v : list (string * V)).
Arguments Map {V} m.
Arguments Vec {V} v.

(** The untagged alternatives are tried in this order. *)
Definition map_or_vec_deserialize {V} (as_map : result string (gmap string V))
    (as_vec : result string (list (string * V))) : result string (MapOrVec V) :=
  match as_map, as_vec with
  | Ok m, _ => Ok (Map m)
  | Err _, Ok v => Ok (Vec v)
  | Err _, Err _ => Err "data did not match any variant of untagged enum MapOrVec"
  end.

Definition tag_adapter_deserializer {V} (deserialized : result string (MapOrVec V)) :
    result string (gmap string V) :=
  map_or_vec ← deserialized;
  Ok match map_or_vec with
     | Map m => m
     | Vec v => foldl (λ map entry, <[entry.1 := entry.2]> map) ∅ v
     end.

Definition should_skip_control_interface_serialization
    (control_interface_access : option ControlInterfaceAccessSpec) : bool :=
  match control_interface_access with
  | None => true
  | Some access => bool_decide (length (allow_rules access) = 0) &&
                   bool_decide (length (deny_rules access) = 0)
  end.

(** ** Lemmas *)

Section serde_lemmas.
Context {V : Type}.
Implicit Types (m : gmap string V) (v : list (string * V)).

Lemma keys_iter `{I : IterOrder} m k : k ∈ (fst <$> map_iter m) ↔ is_Some (m !! k).
Proof.
  rewrite map_iter_perm, list_elem_of_fmap. split.
  - intros ([k' x] & -> & Hin%elem_of_map_to_list). by exists x.
  - intros [x Hx]. exists (k, x). split; [done|]. by apply elem_of_map_to_list.
Qed.

Lemma keys_iter_perm (I1 I2 : IterOrder) m :
  (fst <$> @map_iter I1 _ _ _ V m) ≡ₚ (fst <$> @map_iter I2 _ _ _ V m).
Proof. by rewrite !map_iter_perm. Qed.

(** The order in which a hash map iterates does not show in what is written. *)
Lemma serialize_independent (I1 I2 : IterOrder) m :
  @serialize_to_ordered_map I1 V m = @serialize_to_ordered_map I2 V m.
Proof. unfold serialize_to_ordered_map. by rewrite (sort_strings_perm _ _ (keys_iter_perm I1 I2 m)). Qed.

Lemma serialize_entries `{I : IterOrder} m k x :
  (k, x) ∈ serialize_to_ordered_map m ↔ m !! k = Some x.
Proof.
  unfold serialize_to_ordered_map. rewrite list_elem_of_omap. split.
  - intros (k' & _ & (y & Hy & [= -> ->])%fmap_Some). done.
  - intros Hx. exists k. rewrite elem_of_sort_strings, keys_iter, Hx. split; [by eexists|done].
Qed.

Lemma foldl_insert_lookup v m k :
  foldl (λ map entry, <[entry.1 := entry.2]> map) m v !! k =
  match last (filter (λ e, e.1 = k) v) with Some e => Some e.2 | None => m !! k end.
Proof.
  revert m. induction v as [|[k' x] v IH] using rev_ind; intros m; [done|].
  rewrite foldl_app, filter_app. simpl. destruct (decide (k' = k)) as [->|Hne].
  - rewrite (filter_cons_True (λ e : string * V, e.1 = k) (k, x) []) by done.
    rewrite lookup_insert_eq, last_app. done.
  - rewrite (filter_cons_False (λ e : string * V, e.1 = k) (k', x) []) by done.
    rewrite lookup_insert_ne by done. by rewrite app_nil_r.
Qed.

(** Of several entries with the same key the last one counts. *)
Lemma tag_adapter_last v r k :
  tag_adapter_deserializer (Ok (Vec v)) = Ok r →
  r !! k = snd <$> last (filter (λ e, e.1 = k) v).
Proof. intros [= <-]. rewrite foldl_insert_lookup, lookup_empty. by destruct (last _). Qed.
End serde_lemmas.

(** Tags that are written are read back: the mapping as it is, the entries of the
    previous version as the mapping they stand for. *)
Lemma tags_roundtrip {V} `{I : IterOrder} (m : gmap string V) :
  tag_adapter_deserializer (Ok (Map m)) = Ok m ∧
  tag_adapter_deserializer (Ok (Vec (serialize_to_ordered_map m))) = Ok m.
Proof.
  split; [done|]. unfold tag_adapter_deserializer. simpl. f_equal. apply map_eq. intros k.
  rewrite foldl_insert_lookup, lookup_empty.
  destruct (last _) as [[k' x]|] eqn:Hlast.
  - apply last_Some_elem_of, list_elem_of_filter in Hlast as [Hk Hin]. simpl in *. subst k'.
    by apply serialize_entries in Hin.
  - apply last_None in Hlast. destruct (m !! k) as [x|] eqn:Hx; [|done].
    apply serialize_entries in Hx. exfalso.
    assert ((k, x) ∈ filter (λ e : string * V, e.1 = k) (serialize_to_ordered_map m)) as Hin
      by by apply list_elem_of_filter.
    rewrite Hlast in Hin. by apply elem_of_nil in Hin.
Qed.
