(* ===== verification/Validation.v ===== *)
(** * Ankaios: validation of names, access rules and configurations

    The format checks of [ankaios_api/src/helpers.rs],
    [ankaios_api/src/ank_base/workload.rs], [control_interface_access.rs] and
    [complete_state.rs].  The constant regular expressions of the source are the
    boolean predicates of the languages they describe. *)

From Stdlib Require Import Ascii.
From stdpp Require Import base tactics gmap strings list pretty.
From S2P Require Import Prelude Api.

(** ** Characters and fields *)

Definition ALLOWED_CHAR_SET : string := "[a-zA-Z0-9_-]".
Definition MAX_FIELD_LENGTH : nat := 63.
Definition CONSTRAINT_FIELD_DESCRIPTION : string :=
  "Only a-z, A-Z, 0-9 chars, underscore (_), and hyphen (-) allowed. Maximum length is 63 characters.".

Definition in_range (a lo hi : ascii) : bool :=
  (nat_of_ascii lo <=? nat_of_ascii a) && (nat_of_ascii a <=? nat_of_ascii hi).

(** The class [[a-zA-Z0-9_-]]. *)
Definition allowed_char (a : ascii) : bool :=
  in_range a "a" "z" || in_range a "A" "Z" || in_range a "0" "9"
  || bool_decide (a = "_"%char) || bool_decide (a = "-"%char).

Definition validate_field_pattern (value : string) : result string () :=
  if str_forall allowed_char value then Ok ()
  else Err ("Expected to have characters in " +:+ ALLOWED_CHAR_SET +:+ ".").

Definition validate_field_not_empty (value : string) : result string () :=
  if str_is_empty value then Err "Is empty." else Ok ().

Definition validate_max_field_length (value : string) : result string () :=
  let length := String.length value in
  if MAX_FIELD_LENGTH <? length then
    Err ("Length " +:+ pretty length +:+ " exceeds the maximum limit of " +:+
         pretty MAX_FIELD_LENGTH +:+ " characters.")
  else Ok ().

Definition validate_max_length_filter (value : string) : result string () :=
  let length := String.length value in
  if MAX_FIELD_LENGTH + 1 <? length then
    Err ("Filter length " +:+ pretty length +:+ " exceeds the maximum limit of " +:+
         pretty (MAX_FIELD_LENGTH + 1) +:+ " characters.")
  else Ok ().

(** ** Workload and agent names *)

Definition validate_wildcard_workload_filter_format (workload_filter : string)
    (wildcard_pos : nat) : result string () :=
  let prefix := str_take wildcard_pos workload_filter in
  let suffix := str_drop (wildcard_pos + 1) workload_filter in
  map_err (λ err, "Unsupported workload name filter with wildcard '" +:+ workload_filter +:+
                  "'. " +:+ err)
    (_ ← validate_field_not_empty workload_filter;
     _ ← validate_max_length_filter workload_filter;
     _ ← validate_field_pattern prefix;
     validate_field_pattern suffix).

Definition validate_workload_name_format (name : string) : result string () :=
  map_err (λ err, "Unsupported workload name '" +:+ name +:+ "'. " +:+ err)
    (_ ← validate_field_not_empty name;
     _ ← validate_field_pattern name;
     validate_max_field_length name).

Definition validate_agent_name_format (name : string) : result string () :=
  if is_ok (validate_field_pattern name) then Ok ()
  else Err ("Unsupported agent name '" +:+ name +:+ "'. " +:+ CONSTRAINT_FIELD_DESCRIPTION).

(** ** Access rules *)

(** The language of [^(?:\*|C+)(?:\.(?:\*|C+))*$]. *)
Definition filter_mask_segment (s : string) : bool :=
  String.eqb s WILDCARD_SYMBOL || (negb (str_is_empty s) && str_forall allowed_char s).
Definition filter_mask_matches (filter : string) : bool :=
  forallb filter_mask_segment (split_on "." filter).

Definition validate_log_rule_workload_name_pattern_format (name : string) :
    result string () :=
  map_err (λ err, "Log rule validation filed: " +:+ err)
    match str_find WILDCARD_CHAR name, str_rfind WILDCARD_CHAR name with
    | Some first, Some last =>
      if decide (first = last) then validate_wildcard_workload_filter_format name first
      else Err ("Expected at most one '" +:+ WILDCARD_SYMBOL +:+ "' symbol.")
    | _, _ => validate_workload_name_format name
    end.

Definition validate_filter_mask (filter : string) : result string () :=
  if str_is_empty filter then
    Err "Empty filter masks are not allowed in Control Interface access rules"
  else if filter_mask_matches filter then Ok ()
  else Err ("Unsupported filter mask '" +:+ filter +:+
    "'. Only " +:+ in_quotes "." +:+
    " separated sequences allowed where each part is either a wildcard " +:+ in_quotes "*" +:+
    " or chars in [a-zA-Z0-9_-]").

Definition validate_rule_format (rule : AccessRightsRuleEnumSpec) : result string () :=
  match rule with
  | StateRuleSpec _ filter_masks => try_for_each validate_filter_mask filter_masks
  | LogRuleSpec names => try_for_each validate_log_rule_workload_name_pattern_format names
  end.

Definition validate_format (access : ControlInterfaceAccessSpec) : result string () :=
  try_for_each validate_rule_format (allow_rules access ++ deny_rules access).

(** ** Workloads *)

Definition validate_fields_format (w : WorkloadNamed) : result string () :=
  _ ← validate_workload_name_format (workload_name (instance_name w));
  _ ← validate_agent_name_format (agent (workload w));
  if decide (agent_name (instance_name w) = agent (workload w)) then
    validate_format (control_interface_access (workload w))
  else
    Err ("Internal error. Mismatch between workload instance name agent '" +:+
         agent_name (instance_name w) +:+ "' and workload agent field '" +:+
         agent (workload w) +:+ "'.").

(** The three checks of a configuration alias or reference key. *)
Definition validate_config_name (error_prefix name : string) : result string () :=
  map_err (λ _, error_prefix +:+ " '" +:+ name +:+ "'. " +:+ CONSTRAINT_FIELD_DESCRIPTION)
    (_ ← validate_field_not_empty name;
     _ ← validate_max_field_length name;
     validate_field_pattern name).

Definition validate_config_reference_format `{IterOrder} (w : WorkloadSpec) : result string () :=
  try_for_each (λ '(config_alias, referenced_config),
    _ ← validate_config_name "Unsupported config alias" config_alias;
    validate_config_name "Unsupported config reference key" referenced_config)
    (map_iter (workload_configs w)).

(** ** Desired state *)

Definition validate_api_version (s : StateSpec) : result string () :=
  if String.eqb (api_version s) CURRENT_API_VERSION then Ok ()
  else if String.eqb (api_version s) PREVIOUS_API_VERSION then Ok ()
  else Err ("Unsupported API version. Received '" +:+ api_version s +:+ "', expected '" +:+
            CURRENT_API_VERSION +:+ "'").

Definition validate_config_key (key : string) : result string () :=
  if (MAX_FIELD_LENGTH <? String.length key)
     || negb (negb (str_is_empty key) && str_forall allowed_char key) then
    Err ("Unsupported config item key '" +:+ key +:+ "'. " +:+ CONSTRAINT_FIELD_DESCRIPTION)
  else Ok ().

(** The body of the loop of [validate_config_map] for the value of one entry. *)
Fixpoint validate_config_value (value : ConfigItemSpec) : result string () :=
  match value with
  | ConfigString _ => Ok ()
  | ConfigArray values =>
    try_for_each (λ item,
      match item with
      | ConfigObject _ => validate_config_value item
      | _ => Ok ()
      end) values
  | ConfigObject fields =>
    try_for_each (λ '(key, value),
      _ ← validate_config_key key; validate_config_value value) fields
  end.

Definition validate_config_map (config_map : list (string * ConfigItemSpec)) :
    result string () :=
  try_for_each (λ '(key, value),
    _ ← validate_config_key key; validate_config_value value) config_map.

Definition validate_configs_format `{IterOrder} (s : StateSpec) : result string () :=
  _ ← validate_config_map (map_iter (configs s));
  try_for_each validate_config_reference_format (map_iter (workloads s)).*2.

Definition validate_pre_rendering `{IterOrder} (s : StateSpec) : result string () :=
  _ ← validate_api_version s;
  validate_configs_format s.

(** ** Lemmas *)

Lemma str_forall_app f s1 s2 : str_forall f (s1 +:+ s2) = str_forall f s1 && str_forall f s2.
Proof. induction s1 as [|a s1 IH]; simpl; [done|]. by rewrite IH, andb_assoc. Qed.

Lemma str_forall_impl (f g : ascii → bool) s :
  (∀ a, f a = true → g a = true) → str_forall f s = true → str_forall g s = true.
Proof.
  intros Hfg. induction s as [|a s IH]; simpl; [done|].
  rewrite !andb_true_iff. naive_solver.
Qed.

(** A string of allowed characters holds no character outside the class. *)
Lemma allowed_no_char c s :
  allowed_char c = false → str_forall allowed_char s = true → has_char c s = false.
Proof.
  intros Hc Hs. unfold has_char. apply negb_false_iff.
  eapply str_forall_impl; [|exact Hs]. intros a Ha.
  apply bool_decide_eq_true. congruence.
Qed.

Lemma validate_field_pattern_ok s :
  validate_field_pattern s = Ok () ↔ str_forall allowed_char s = true.
Proof. unfold validate_field_pattern. by destruct (str_forall allowed_char s). Qed.

Lemma validate_field_not_empty_ok s : validate_field_not_empty s = Ok () ↔ s ≠ "".
Proof.
  unfold validate_field_not_empty. rewrite <-str_is_empty_false.
  by destruct (str_is_empty s).
Qed.

Lemma validate_max_field_length_ok s :
  validate_max_field_length s = Ok () ↔ String.length s ≤ MAX_FIELD_LENGTH.
Proof.
  unfold validate_max_field_length. rewrite <-Nat.ltb_ge.
  by destruct (MAX_FIELD_LENGTH <? String.length s).
Qed.

Lemma validate_max_length_filter_ok s :
  validate_max_length_filter s = Ok () ↔ String.length s ≤ MAX_FIELD_LENGTH + 1.
Proof.
  unfold validate_max_length_filter. rewrite <-Nat.ltb_ge.
  by destruct (MAX_FIELD_LENGTH + 1 <? String.length s).
Qed.

(** The names that identify workloads. *)
Definition valid_name (s : string) : Prop :=
  s ≠ "" ∧ str_forall allowed_char s = true ∧ String.length s ≤ MAX_FIELD_LENGTH.

Lemma validate_workload_name_format_ok s :
  validate_workload_name_format s = Ok () ↔ valid_name s.
Proof.
  unfold validate_workload_name_format, valid_name. rewrite map_err_ok, !then_ok.
  by rewrite validate_field_not_empty_ok, validate_field_pattern_ok, validate_max_field_length_ok.
Qed.

Lemma str_rfind_None c s : str_rfind c s = None ↔ has_char c s = false.
Proof.
  induction s as [|a s IH]; simpl; [done|]. rewrite has_char_cons.
  destruct (str_rfind c s) as [i|].
  - split; [done|]. rewrite orb_false_iff. naive_solver.
  - destruct (decide (a = c)); [by rewrite bool_decide_eq_true_2|].
    rewrite bool_decide_eq_false_2 by done. naive_solver.
Qed.

(** The first occurrence is the last one iff the character occurs once. *)
Lemma str_find_single c s i :
  str_find c s = Some i ∧ str_rfind c s = Some i ↔
  ∃ p r, s = p +:+ String c r ∧ String.length p = i ∧
         has_char c p = false ∧ has_char c r = false.
Proof.
  revert i. induction s as [|a s IH]; intros i; simpl.
  - split; [naive_solver|]. intros (p & r & Hs & _). by destruct p.
  - destruct (decide (a = c)) as [->|Ha].
    + split.
      * destruct (str_rfind c s) as [j|] eqn:Hr; [naive_solver|]. intros [[= <-] _].
        apply str_rfind_None in Hr. by exists "", s.
      * intros (p & r & Hs & Hi & Hp & Hr). destruct p as [|b p]; simpl in *.
        -- injection Hs as ->. apply str_rfind_None in Hr. by rewrite Hr, Hi.
        -- injection Hs as <- ->. rewrite has_char_cons in Hp.
           by rewrite bool_decide_eq_true_2 in Hp.
    + split.
      * intros [Hf Hr]. destruct (str_find c s) as [j|] eqn:Hj; [|done]. simpl in Hf.
        destruct (str_rfind c s) as [k|] eqn:Hk; [|done].
        assert (k = j) as -> by naive_solver. injection Hf as <-.
        destruct (IH j) as [(p & r & -> & Hl & Hp & Hr') _]; [done|].
        exists (String a p), r. simpl. rewrite Hl. repeat split; try done.
        by rewrite has_char_cons, bool_decide_eq_false_2.
      * intros (p & r & Hs & <- & Hp & Hr). destruct p as [|b p]; simpl in *; [naive_solver|].
        injection Hs as <- ->. rewrite has_char_cons, bool_decide_eq_false_2 in Hp by done.
        destruct (IH (String.length p)) as [_ [-> ->]]; [by exists p, r|done].
Qed.

Lemma str_drop_succ_app s a r : str_drop (String.length s + 1) (s +:+ String a r) = r.
Proof. induction s as [|b s IH]; simpl; [by destruct r|done]. Qed.

(** A workload name pattern of a log rule: a valid name, or a name of at most
    64 characters with a single wildcard in it. *)
Definition valid_log_pattern (s : string) : Prop :=
  valid_name s ∨
  ∃ p r, s = p +:+ String WILDCARD_CHAR r ∧ str_forall allowed_char p = true ∧
         str_forall allowed_char r = true ∧ String.length s ≤ MAX_FIELD_LENGTH + 1.

Lemma validate_wildcard_filter_ok p r :
  validate_wildcard_workload_filter_format (p +:+ String WILDCARD_CHAR r) (String.length p)
    = Ok () ↔
  str_forall allowed_char p = true ∧ str_forall allowed_char r = true ∧
  String.length (p +:+ String WILDCARD_CHAR r) ≤ MAX_FIELD_LENGTH + 1.
Proof.
  unfold validate_wildcard_workload_filter_format.
  rewrite map_err_ok, !then_ok, validate_field_not_empty_ok, validate_max_length_filter_ok.
  rewrite !validate_field_pattern_ok, str_take_app, str_drop_succ_app.
  assert (p +:+ String WILDCARD_CHAR r ≠ "") by (by destruct p). naive_solver.
Qed.

Lemma validate_log_rule_pattern_ok s :
  validate_log_rule_workload_name_pattern_format s = Ok () ↔ valid_log_pattern s.
Proof.
  unfold validate_log_rule_workload_name_pattern_format, valid_log_pattern. rewrite map_err_ok.
  assert (∀ p r, s = p +:+ String WILDCARD_CHAR r → str_forall allowed_char s = true → False)
    as Hexcl.
  { intros p r -> Hs. rewrite str_forall_app in Hs. simpl in Hs.
    by rewrite andb_false_r in Hs. }
  destruct (str_find WILDCARD_CHAR s) as [i|] eqn:Hf.
  2: { rewrite validate_workload_name_format_ok. split; [by left|].
       intros [?|(p & r & -> & Hp & Hr & _)]; [done|]. apply str_find_None in Hf.
       apply split_once_None in Hf. rewrite split_once_app in Hf; [done|].
       by apply allowed_no_char. }
  destruct (str_rfind WILDCARD_CHAR s) as [j|] eqn:Hr.
  2: { apply str_rfind_None, str_find_None in Hr. by rewrite Hr in Hf. }
  case_decide as Hij; [subst j|].
  - destruct (proj1 (str_find_single WILDCARD_CHAR s i)) as (p & r & -> & <- & Hp & Hr'); [done|].
    rewrite validate_wildcard_filter_ok. split; [right; naive_solver|].
    intros [(_ & Ha & _)|(p' & r' & Heq & Hp' & Hr'' & Hl)]; [by destruct (Hexcl p r)|].
    assert (Some (p, r) = Some (p', r')) as [= <- <-]; [|done].
    rewrite <-(split_once_app WILDCARD_CHAR p r), Heq by done.
    apply split_once_app. by apply allowed_no_char.
  - split; [done|]. intros [(_ & Ha & _)|(p & r & -> & Hp & Hr' & _)].
    + assert (has_char WILDCARD_CHAR s = false) as Hn by (by apply allowed_no_char).
      apply str_find_None in Hn. by rewrite Hn in Hf.
    + destruct (proj2 (str_find_single WILDCARD_CHAR (p +:+ String WILDCARD_CHAR r)
        (String.length p))) as [Hf' Hr''].
      { exists p, r. repeat split; by apply allowed_no_char. }
      congruence.
Qed.

Lemma validate_filter_mask_ok f :
  validate_filter_mask f = Ok () ↔
  f ≠ "" ∧ Forall (λ s, s = WILDCARD_SYMBOL ∨ (s ≠ "" ∧ str_forall allowed_char s = true))
             (split_on "." f).
Proof.
  assert (filter_mask_matches f = true ↔
    Forall (λ s, s = WILDCARD_SYMBOL ∨ (s ≠ "" ∧ str_forall allowed_char s = true))
      (split_on "." f)) as <-.
  { unfold filter_mask_matches. rewrite <-Is_true_true, forallb_True, !Forall_forall.
    apply forall_proper. intros s. rewrite Is_true_true. unfold filter_mask_segment.
    by rewrite orb_true_iff, andb_true_iff, String.eqb_eq, negb_true_iff, str_is_empty_false. }
  unfold validate_filter_mask. rewrite <-str_is_empty_false.
  destruct (str_is_empty f); [naive_solver|]. destruct (filter_mask_matches f); naive_solver.
Qed.

(** ** Properties *)

Definition valid_rule (rule : AccessRightsRuleEnumSpec) : Prop :=
  match rule with
  | StateRuleSpec _ masks =>
    ∀ f, f ∈ masks → f ≠ "" ∧
      Forall (λ s, s = WILDCARD_SYMBOL ∨ (s ≠ "" ∧ str_forall allowed_char s = true))
        (split_on "." f)
  | LogRuleSpec names => ∀ n, n ∈ names → valid_log_pattern n
  end.

Lemma validate_fields_format_ok w :
  validate_fields_format w = Ok () ↔
  valid_name (workload_name (instance_name w)) ∧
  str_forall allowed_char (agent (workload w)) = true ∧
  agent_name (instance_name w) = agent (workload w) ∧
  ∀ rule, rule ∈ allow_rules (control_interface_access (workload w))
                 ++ deny_rules (control_interface_access (workload w)) → valid_rule rule.
Proof.
  unfold validate_fields_format, validate_agent_name_format.
  rewrite !then_ok, validate_workload_name_format_ok, <-validate_field_pattern_ok.
  assert (is_ok (validate_field_pattern (agent (workload w))) = true ↔
          validate_field_pattern (agent (workload w)) = Ok ()) as Hok.
  { by destruct (validate_field_pattern (agent (workload w))) as [[]|]. }
  assert (∀ rule, validate_rule_format rule = Ok () ↔ valid_rule rule) as Hrule.
  { intros [op masks|names]; simpl; rewrite try_for_each_ok.
    - by setoid_rewrite validate_filter_mask_ok.
    - by setoid_rewrite validate_log_rule_pattern_ok. }
  case_decide as Ha.
  - unfold validate_format. rewrite try_for_each_ok. setoid_rewrite Hrule.
    destruct (is_ok _); naive_solver.
  - naive_solver.
Qed.

(** The workloads the server accepts: exactly those with a non-empty name
    of at most 63 allowed characters, an agent name of allowed characters that
    is the one in the instance name, state rules whose masks are dot-separated
    wildcards or names, and log rules with at most one wildcard per name. *)
Theorem validate_fields_format_spec w :
  validate_fields_format w = Ok () ↔
  valid_name (workload_name (instance_name w)) ∧
  str_forall allowed_char (agent (workload w)) = true ∧
  agent_name (instance_name w) = agent (workload w) ∧
  ∀ rule, rule ∈ allow_rules (control_interface_access (workload w))
                 ++ deny_rules (control_interface_access (workload w)) → valid_rule rule.
Proof. apply validate_fields_format_ok. Qed.

(** The key check of configuration items does not reach an object inside an
    array inside an array: an object with a key outside the allowed characters
    is accepted there although it is rejected in every other position. *)
Theorem validate_config_map_skips_nested_arrays key value :
  validate_config_key key ≠ Ok () →
  let bad := ConfigObject [(key, value)] in
  validate_config_map [("item", bad)] ≠ Ok () ∧
  validate_config_map [("item", ConfigArray [bad])] ≠ Ok () ∧
  validate_config_map [("item", ConfigArray [ConfigArray [bad]])] = Ok ().
Proof.
  intros Hkey bad. unfold validate_config_map. simpl.
  destruct (validate_config_key key) as [[]|e]; done.
Qed.

Lemma validate_config_map_skips_nested_arrays_witness :
  let bad := ConfigObject [("a.b", ConfigString "x")] in
  validate_config_map [("item", bad)] ≠ Ok () ∧
  validate_config_map [("item", ConfigArray [bad])] ≠ Ok () ∧
  validate_config_map [("item", ConfigArray [ConfigArray [bad]])] = Ok ().
Proof. apply validate_config_map_skips_nested_arrays. discriminate. Defined.
