(* ===== verification/CycleCheck.v ===== *)
(** * Ankaios server: cycle detection in the workload dependencies

    [dfs] of [server/src/ankaios_server/cycle_check.rs]: an iterative
    depth-first search with an explicit stack, a set of visited workloads and
    the current path.

    The loop of the source is [dfs_loop], with fuel; [dfs_fuel] is proved to be
    enough for every graph.  The search never reports a workload that is not on
    a cycle.  It does miss cycles: a workload that is pushed twice pops an entry
    of the path that is not its own when the second entry is removed. *)

From stdpp Require Import base tactics gmap strings list sorting relations.
From S2P Require Import Prelude Api.

Abbreviation WorkloadMap := (gmap string WorkloadSpec).

Section dfs.
Context `{IterOrder}.
Variable g : WorkloadMap.

(** [workload.dependencies.dependencies.keys()], sorted. *)
Definition sorted_dependencies (w : WorkloadSpec) : list string :=
  sort_strings (map_iter (dependencies w)).*1.

(** The front of the stack is the head of the list, and so is the back of the path. *)
Record dfs_state := {
  stack : list string;
  visited : gset string;
  path : list string
}.

(** The loop over the dependencies of the front: the found workload, or the new stack. *)
Fixpoint visit_dependencies (vis : gset string) (pth deps stk : list string) :
    string + list string :=
  match deps with
  | [] => inr stk
  | dependency :: deps =>
    if decide (dependency ∉ vis) then visit_dependencies vis pth deps (dependency :: stk)
    else if decide (dependency ∈ pth) then inl dependency
    else visit_dependencies vis pth deps stk
  end.

(** One iteration of [while let Some(head) = stack.front()]. *)
Definition dfs_step (head : string) (rest : list string) (s : dfs_state) :
    string + dfs_state :=
  match g !! head with
  | Some workload =>
    let '(stk, vis, pth) :=
      if decide (head ∉ visited s) then (head :: rest, {[head]} ∪ visited s, head :: path s)
      else (rest, visited s, tail (path s)) in
    match visit_dependencies vis pth (sorted_dependencies workload) stk with
    | inl dependency => inl dependency
    | inr stk => inr {| stack := stk; visited := vis; path := pth |}
    end
  | None => inr {| stack := rest; visited := visited s; path := path s |}
  end.

(** [None] is running out of fuel. *)
Fixpoint dfs_loop (fuel : nat) (s : dfs_state) : option (string + dfs_state) :=
  match stack s with
  | [] => Some (inr s)
  | head :: rest =>
    match fuel with
    | 0 => None
    | S fuel =>
      match dfs_step head rest s with
      | inl dependency => Some (inl dependency)
      | inr s => dfs_loop fuel s
      end
    end
  end.

(** Work a stack entry can cause when it is removed, and all that visiting the
    workloads of the graph can push. *)
Definition weight (name : string) : nat :=
  match g !! name with
  | Some workload => S (length (sorted_dependencies workload))
  | None => 1
  end.
Definition visit_weight (name : string) : nat :=
  match g !! name with
  | Some workload => S (sum_list_with weight (sorted_dependencies workload))
  | None => 0
  end.
Definition dfs_fuel (name : string) : nat :=
  sum_list_with visit_weight (elements (dom g)) + weight name.

(** The loop over the start nodes. *)
Fixpoint dfs_nodes (names : list string) (s : dfs_state) : option (option string) :=
  match names with
  | [] => Some None
  | workload_name :: names =>
    if decide (workload_name ∈ visited s) then dfs_nodes names s
    else
      match dfs_loop (dfs_fuel workload_name)
              {| stack := workload_name :: stack s; visited := visited s; path := path s |} with
      | None => None
      | Some (inl dependency) => Some (Some dependency)
      | Some (inr s) => dfs_nodes names s
      end
  end.

Definition dfs (start_nodes : option (list string)) : option (option string) :=
  let workloads_to_visit :=
    match start_nodes with
    | Some nodes => nodes
    | None => (map_iter g).*1
    end in
  dfs_nodes (sort_strings workloads_to_visit) {| stack := []; visited := ∅; path := [] |}.

(** ** Dependency graph *)

(** [edge a b]: the workload [a] of the state depends on [b]. *)
Definition edge (a b : string) : Prop :=
  ∃ w, g !! a = Some w ∧ b ∈ dom (dependencies w).

Lemma elem_of_sorted_dependencies w d : d ∈ sorted_dependencies w ↔ d ∈ dom (dependencies w).
Proof.
  unfold sorted_dependencies. rewrite elem_of_sort_strings, list_elem_of_fmap, elem_of_dom.
  split.
  - intros ([d' c] & -> & Hin). apply elem_of_map_iter in Hin. simpl. by eexists.
  - intros [c Hc]. exists (d, c). by rewrite elem_of_map_iter.
Qed.

Lemma visit_dependencies_inl vis pth deps stk d :
  visit_dependencies vis pth deps stk = inl d → d ∈ deps ∧ d ∈ vis ∧ d ∈ pth.
Proof.
  revert stk. induction deps as [|d' deps IH]; intros stk; simpl; [done|].
  rewrite elem_of_cons.
  case_decide as Hv; [|case_decide as Hp].
  - intros (? & ? & ?)%IH. auto.
  - intros [= <-]. split; [by left|]. split; [|done].
    by destruct (decide (d' ∈ vis)).
  - intros (? & ? & ?)%IH. auto.
Qed.

Lemma visit_dependencies_inr vis pth deps stk stk' :
  visit_dependencies vis pth deps stk = inr stk' →
  (∀ d, d ∈ deps → d ∈ vis → d ∉ pth) ∧
  stk' = reverse (filter (λ d, d ∉ vis) deps) ++ stk.
Proof.
  revert stk. induction deps as [|d' deps IH]; intros stk; simpl.
  - intros [= <-]. split; [|done]. by intros d ?%elem_of_nil.
  - setoid_rewrite elem_of_cons. case_decide as Hvis.
    + intros [Hd ->]%IH. split; [naive_solver|].
      rewrite filter_cons_True by done. by rewrite reverse_cons, <-app_assoc.
    + case_decide; [done|]. intros [Hd ->]%IH. split; [naive_solver|].
      by rewrite filter_cons_False by (intros ?; done).
Qed.

(** ** Termination *)

(** Every existing dependency of a visited stack entry is visited or lies above
    the entry. *)
Fixpoint stack_ok (vis : gset string) (above stk : list string) : Prop :=
  match stk with
  | [] => True
  | n :: stk =>
    (n ∈ vis → ∀ d, edge n d → is_Some (g !! d) → d ∈ vis ∨ d ∈ above) ∧
    stack_ok vis (n :: above) stk
  end.

Lemma stack_ok_mono vis vis' above above' stk :
  (∀ n, n ∈ stk → n ∈ vis' → n ∈ vis ∨ ∀ d, edge n d → d ∈ vis' ∨ d ∈ above') →
  vis ⊆ vis' →
  (∀ d, d ∈ above → is_Some (g !! d) → d ∈ vis' ∨ d ∈ above') →
  stack_ok vis above stk → stack_ok vis' above' stk.
Proof.
  intros Hnew Hvis. revert above above' Hnew.
  induction stk as [|n stk IH]; intros above above' Hnew Habove; simpl; [done|].
  setoid_rewrite elem_of_cons in Hnew. intros [Hn Hstk]. split.
  - intros Hin d Hd Hex. destruct (Hnew n) as [Hv|Hv]; [by left|done| |by apply Hv].
    destruct (Hn Hv d Hd Hex); [left; set_solver|naive_solver].
  - eapply IH; [| |exact Hstk].
    + intros n' Hn' Hv. destruct (Hnew n') as [?|Hd]; [by right|done|by left|].
      right. intros d Hd'. rewrite elem_of_cons. naive_solver.
    + intros d. rewrite !elem_of_cons. naive_solver.
Qed.

Lemma stack_ok_app vis above new stk :
  (∀ n, n ∈ new → n ∉ vis) →
  stack_ok vis (reverse new ++ above) stk → stack_ok vis above (new ++ stk).
Proof.
  revert above. induction new as [|n new IH]; intros above Hnew; simpl; [done|].
  rewrite reverse_cons, <-app_assoc. simpl. intros Hstk. split.
  - intros Hn. exfalso. apply (Hnew n); [by left|done].
  - apply IH; [|done]. intros n' Hn'. apply Hnew. by right.
Qed.
(** The work left: what visiting the remaining workloads can cause, and the stack. *)
Definition work (s : dfs_state) : nat :=
  sum_list_with visit_weight (elements (dom g ∖ visited s)) + sum_list_with weight (stack s).

Definition dfs_wf (s : dfs_state) : Prop :=
  visited s ⊆ dom g ∧ stack_ok (visited s) [] (stack s).

Lemma weight_pos n : 0 < weight n.
Proof. unfold weight. destruct (g !! n); lia. Qed.

Lemma sum_weight_missing l :
  (∀ d, d ∈ l → g !! d = None) → sum_list_with weight l = length l.
Proof.
  induction l as [|d l IH]; intros Hl; simpl; [done|].
  rewrite IH by (intros; apply Hl; by right).
  unfold weight. by rewrite (Hl d) by left.
Qed.

Lemma edge_deps n w d : g !! n = Some w → edge n d ↔ d ∈ sorted_dependencies w.
Proof.
  intros Hn. rewrite elem_of_sorted_dependencies. unfold edge. rewrite Hn. naive_solver.
Qed.

Lemma dfs_step_work head rest s s' :
  dfs_wf s → stack s = head :: rest → dfs_step head rest s = inr s' →
  dfs_wf s' ∧ work s' < work s.
Proof.
  intros [Hdom Hok] Hstk. rewrite Hstk in Hok. destruct Hok as [Hhead Hrest].
  unfold dfs_step, work, dfs_wf. rewrite Hstk. simpl.
  destruct (g !! head) as [w|] eqn:Hg.
  2: { intros [= <-]. simpl. pose proof (weight_pos head). repeat split; [done| |lia].
       eapply stack_ok_mono; [| |  |exact Hrest]; [naive_solver|done|].
       intros d ->%list_elem_of_singleton. rewrite Hg. by intros []. }
  case_decide as Hvis.
  - destruct (visit_dependencies _ _ _ _) as [d|stk] eqn:Hd; [done|].
    intros [= <-]. simpl. apply visit_dependencies_inr in Hd as [_ ->].
    assert (head ∈ dom g) as Hin by (apply elem_of_dom; eauto).
    repeat split; [set_solver| |].
    + apply stack_ok_app.
      { intros n Hn. apply elem_of_reverse, list_elem_of_filter in Hn as [? _]. done. }
      rewrite reverse_involutive. simpl. split.
      * intros _ d Hed _. rewrite app_nil_r, list_elem_of_filter.
        apply (edge_deps _ _ _ Hg) in Hed. destruct (decide (d ∈ {[head]} ∪ visited s)); auto.
      * eapply stack_ok_mono; [| | |exact Hrest]; [|set_solver|set_solver].
        intros n Hn [->%elem_of_singleton|?]%elem_of_union; [right|by left].
        intros d Hed. rewrite elem_of_cons, app_nil_r, list_elem_of_filter.
        apply (edge_deps _ _ _ Hg) in Hed. destruct (decide (d ∈ {[head]} ∪ visited s)); auto.
    + rewrite sum_list_with_app. simpl. rewrite sum_list_with_reverse.
      rewrite (sum_elements_remove visit_weight (dom g ∖ visited s) head) by set_solver.
      replace (dom g ∖ visited s ∖ {[head]}) with (dom g ∖ ({[head]} ∪ visited s)) by set_solver.
      pose proof (sum_list_with_filter weight (λ d, d ∉ {[head]} ∪ visited s)
        (sorted_dependencies w)) as Hle.
      assert (visit_weight head = S (sum_list_with weight (sorted_dependencies w))) as ->
        by (unfold visit_weight; by rewrite Hg).
      lia.
  - destruct (visit_dependencies _ _ _ _) as [d|stk] eqn:Hd; [done|].
    intros [= <-]. simpl. apply visit_dependencies_inr in Hd as [_ ->].
    assert (head ∈ visited s) as Hv by (by destruct (decide (head ∈ visited s))).
    assert (∀ d, d ∈ filter (λ d, d ∉ visited s) (sorted_dependencies w) → g !! d = None)
      as Hmissing.
    { intros d [Hnd Hin]%list_elem_of_filter. apply (edge_deps _ _ _ Hg) in Hin.
      destruct (g !! d) eqn:Hgd; [|done]. exfalso.
      destruct (Hhead Hv d Hin) as [?|?%elem_of_nil]; [by eexists|done..]. }
    repeat split; [done| |].
    + apply stack_ok_app.
      { intros n Hn. apply elem_of_reverse, list_elem_of_filter in Hn as [? _]. done. }
      eapply stack_ok_mono; [| | |exact Hrest]; [naive_solver|done|].
      intros d ->%list_elem_of_singleton _. by left.
    + rewrite sum_list_with_app, sum_list_with_reverse, sum_weight_missing by done.
      pose proof (length_filter (λ d, d ∉ visited s) (sorted_dependencies w)).
      assert (weight head = S (length (sorted_dependencies w))) as ->
        by (unfold weight; by rewrite Hg).
      lia.
Qed.

Lemma dfs_loop_total fuel s :
  dfs_wf s → work s ≤ fuel →
  ∃ r, dfs_loop fuel s = Some r ∧
       ∀ s', r = inr s' → dfs_wf s' ∧ stack s' = [].
Proof.
  revert s. induction fuel as [|fuel IH]; intros s Hwf Hwork.
  - simpl. destruct (stack s) as [|head rest] eqn:Hstk; [naive_solver|].
    exfalso. unfold work in Hwork. rewrite Hstk in Hwork. simpl in Hwork.
    pose proof (weight_pos head). lia.
  - simpl. destruct (stack s) as [|head rest] eqn:Hstk; [naive_solver|].
    destruct (dfs_step head rest s) as [d|s'] eqn:Hstep; [naive_solver|].
    destruct (dfs_step_work _ _ _ _ Hwf Hstk Hstep) as [Hwf' Hlt].
    apply IH; [done|lia].
Qed.

Lemma dfs_nodes_total names s :
  dfs_wf s → stack s = [] → is_Some (dfs_nodes names s).
Proof.
  revert s. induction names as [|n names IH]; intros s [Hdom Hok] Hstk; simpl; [done|].
  case_decide as Hn; [by apply IH|]. rewrite Hstk.
  destruct (dfs_loop_total (dfs_fuel n)
    {| stack := [n]; visited := visited s; path := path s |}) as ([d|s'] & -> & Hr).
  - split; simpl; [done|]. split; [|done]. by intros ?%Hn.
  - unfold work, dfs_fuel. simpl.
    assert (sum_list_with visit_weight (elements (dom g ∖ visited s)) ≤
            sum_list_with visit_weight (elements (dom g)))
      by (apply sum_elements_subseteq; set_solver).
    lia.
  - done.
  - destruct (Hr s' eq_refl). by apply IH.
Qed.
(** ** Soundness *)

(** The path, back first, is embedded in the stack; every workload on the path
    reaches the stack entries above its own. *)
Inductive grey : list string → list string → Prop :=
  | grey_nil stk : grey [] stk
  | grey_cons p ps pre post :
    (∀ e, e ∈ pre → rtc edge p e) → (∀ q, q ∈ ps → rtc edge q p) →
    grey ps post → grey (p :: ps) (pre ++ p :: post).

Lemma grey_reaches_head pth head rest q :
  grey pth (head :: rest) → q ∈ pth → rtc edge q head.
Proof.
  inversion 1 as [|p ps pre post Hpre Hps Hgrey]; subst; [by intros ?%elem_of_nil|].
  assert (rtc edge p head) as Hp.
  { destruct pre as [|e pre]; simplify_eq/=; [done|]. apply Hpre. by left. }
  intros [->|Hq]%elem_of_cons; [done|]. etrans; [by apply Hps|done].
Qed.

Lemma grey_weaken pth pre stk :
  grey pth stk → (∀ q e, q ∈ pth → e ∈ pre → rtc edge q e) → grey pth (pre ++ stk).
Proof.
  inversion 1 as [|p ps pre' post Hpre Hps Hgrey]; subst; intros Hnew; [constructor|].
  rewrite app_assoc. constructor; [|done..].
  intros e [He|He]%elem_of_app; [|by apply Hpre]. apply Hnew; [by left|done].
Qed.

(** Removing the front of the stack, which is not the back of the path. *)
Lemma grey_pop_stack pth head rest :
  grey pth (head :: rest) → head ∉ pth → grey pth rest.
Proof.
  inversion 1 as [|p ps pre post Hpre Hps Hgrey]; subst; [constructor|].
  intros Hp. destruct pre as [|e pre]; simplify_eq/=.
  - destruct Hp. by left.
  - constructor; [|done..]. intros e He. apply Hpre. by right.
Qed.

(** Removing the front of the stack and the back of the path. *)
Lemma grey_pop_both pth head rest : grey pth (head :: rest) → grey (tail pth) rest.
Proof.
  inversion 1 as [|p ps pre post Hpre Hps Hgrey]; subst; simpl; [constructor|].
  destruct pre as [|e pre]; simplify_eq/=; [done|].
  replace (pre ++ p :: post) with ((pre ++ [p]) ++ post) by (by rewrite <-app_assoc).
  apply (grey_weaken ps); [done|].
  intros q e' Hq [He| ->%list_elem_of_singleton]%elem_of_app; [|by apply Hps].
  etrans; [by apply Hps|]. apply Hpre. by right.
Qed.

Definition dfs_grey (s : dfs_state) : Prop :=
  grey (path s) (stack s) ∧ (∀ p, p ∈ path s → p ∈ visited s ∧ is_Some (g !! p)).

Lemma dfs_step_grey head rest s :
  dfs_grey s → stack s = head :: rest →
  match dfs_step head rest s with
  | inl d => tc edge d d
  | inr s' => dfs_grey s'
  end.
Proof.
  intros [Hgrey Hpath] Hstk. rewrite Hstk in Hgrey.
  pose proof (λ q, grey_reaches_head _ _ _ q Hgrey) as Hreach.
  unfold dfs_step. destruct (g !! head) as [w|] eqn:Hg.
  2: { split; simpl; [|done]. eapply grey_pop_stack; [done|].
       intros [_ [? ?]]%Hpath. congruence. }
  pose proof (edge_deps head w) as Hdeps.
  assert (∀ q d, rtc edge q head → d ∈ sorted_dependencies w → tc edge q d) as Htc.
  { intros q d Hq Hd. eapply tc_rtc_l; [done|]. apply tc_once. by apply (Hdeps d Hg). }
  case_decide as Hvis.
  - destruct (visit_dependencies _ _ _ _) as [d|stk] eqn:Hd.
    + apply visit_dependencies_inl in Hd as (Hin & _ & Hp). apply Htc; [|done].
      apply elem_of_cons in Hp as [->|Hp]; [done|by apply Hreach].
    + apply visit_dependencies_inr in Hd as [_ ->]. split; simpl.
      * constructor; [| |eapply grey_pop_stack; [done|]].
        -- intros e [_ He]%elem_of_reverse%list_elem_of_filter.
           apply tc_rtc. by apply Htc.
        -- exact Hreach.
        -- by intros [? _]%Hpath.
      * intros p [->|Hp]%elem_of_cons; [split; [set_solver|by eexists]|].
        destruct (Hpath p Hp). set_solver.
  - assert (∀ p, p ∈ tail (path s) → p ∈ path s) as Htail.
    { intros p. destruct (path s); [done|]. by right. }
    destruct (visit_dependencies _ _ _ _) as [d|stk] eqn:Hd.
    + apply visit_dependencies_inl in Hd as (Hin & _ & Hp). apply Htc; [|done].
      apply Hreach. by apply Htail.
    + apply visit_dependencies_inr in Hd as [_ ->]. split; simpl; [|by auto].
      apply (grey_weaken (tail (path s))); [by eapply grey_pop_both|].
      intros q e Hq [_ He]%elem_of_reverse%list_elem_of_filter.
      apply tc_rtc, Htc; [|done]. apply Hreach. by apply Htail.
Qed.

Lemma dfs_loop_grey fuel s r :
  dfs_grey s → dfs_loop fuel s = Some r →
  match r with inl d => tc edge d d | inr s' => dfs_grey s' end.
Proof.
  revert s. induction fuel as [|fuel IH]; intros s Hs; simpl;
    (destruct (stack s) as [|head rest] eqn:Hstk; [by intros [= <-]|]); [done|].
  pose proof (dfs_step_grey _ _ _ Hs Hstk) as Hstep.
  destruct (dfs_step head rest s) as [d|s']; [by intros [= <-]|by apply IH].
Qed.

Lemma dfs_nodes_sound names s d :
  dfs_wf s → stack s = [] → dfs_grey s → dfs_nodes names s = Some (Some d) → tc edge d d.
Proof.
  revert s. induction names as [|n names IH]; intros s Hwf Hstk Hgrey; simpl; [done|].
  case_decide as Hn; [by apply IH|]. rewrite Hstk.
  set (s0 := {| stack := [n]; visited := visited s; path := path s |}).
  assert (dfs_wf s0) as Hwf0.
  { destruct Hwf. split; simpl; [done|]. split; [|done]. by intros ?%Hn. }
  assert (dfs_grey s0) as Hgrey0.
  { destruct Hgrey as [Hg Hp]. rewrite Hstk in Hg. split; simpl; [|done].
    inversion Hg as [|p ps pre post Hpre Hps Hgr Heq1 Heq2]; [constructor|].
    by destruct pre. }
  destruct (dfs_loop (dfs_fuel n) s0) as [[d'|s']|] eqn:Hloop; [| |done].
  - intros [= ->]. exact (dfs_loop_grey _ _ _ Hgrey0 Hloop).
  - intros Hd.
    assert (work s0 ≤ dfs_fuel n) as Hw.
    { unfold work, dfs_fuel. simpl.
      assert (sum_list_with visit_weight (elements (dom g ∖ visited s)) ≤
              sum_list_with visit_weight (elements (dom g)))
        by (apply sum_elements_subseteq; set_solver).
      lia. }
    destruct (dfs_loop_total (dfs_fuel n) s0 Hwf0 Hw) as (r & Hr & Hwf').
    rewrite Hloop in Hr. injection Hr as <-. destruct (Hwf' s' eq_refl).
    eapply IH; [done..| |done]. exact (dfs_loop_grey _ _ _ Hgrey0 Hloop).
Qed.
(** ** Coverage *)

Definition covered (s : dfs_state) (d : string) : Prop :=
  d ∈ visited s ∨ d ∈ stack s ∨ g !! d = None.

(** Everything a visited workload depends on is covered, and no visited
    workload depends on itself. *)
Definition dfs_cover (s : dfs_state) : Prop :=
  ∀ n, n ∈ visited s → ¬ edge n n ∧ ∀ d, edge n d → covered s d.

Lemma dfs_step_cover head rest s s' :
  dfs_cover s → stack s = head :: rest → dfs_step head rest s = inr s' →
  dfs_cover s' ∧ visited s ⊆ visited s' ∧ ∀ d, covered s d → covered s' d.
Proof.
  intros Hcov Hstk. unfold dfs_step. destruct (g !! head) as [w|] eqn:Hg.
  2: { intros [= <-].
       assert (∀ d, covered s d →
         covered {| stack := rest; visited := visited s; path := path s |} d) as Hmono.
       { intros d. unfold covered. rewrite Hstk, elem_of_cons. simpl. naive_solver. }
       split; [|by split]. intros n Hn. destruct (Hcov n Hn). eauto. }
  case_decide as Hvis.
  - destruct (visit_dependencies _ _ _ _) as [|stk] eqn:Hd; [done|]. intros [= <-].
    apply visit_dependencies_inr in Hd as [Hself ->].
    set (s' := {| stack := _ |}).
    assert (∀ d, covered s d → covered s' d) as Hmono.
    { intros d. unfold covered, s'. rewrite Hstk. simpl. set_solver. }
    split; [|split; [set_solver|done]]. intros n [->%elem_of_singleton|Hn]%elem_of_union.
    + split.
      * intros Hed%(edge_deps _ _ _ Hg). apply (Hself head); [done|set_solver|by left].
      * intros d Hed%(edge_deps _ _ _ Hg). unfold covered, s'. simpl.
        destruct (decide (d ∈ {[head]} ∪ visited s)); [by left|right; left].
        apply elem_of_app. left. apply elem_of_reverse, list_elem_of_filter. done.
    + destruct (Hcov n Hn). eauto.
  - destruct (visit_dependencies _ _ _ _) as [|stk] eqn:Hd; [done|]. intros [= <-].
    apply visit_dependencies_inr in Hd as [_ ->].
    set (s' := {| stack := _ |}).
    assert (head ∈ visited s) as Hv by (by destruct (decide (head ∈ visited s))).
    assert (∀ d, covered s d → covered s' d) as Hmono.
    { intros d. unfold covered, s'. rewrite Hstk. simpl. set_solver. }
    split; [|by split]. intros n Hn. destruct (Hcov n Hn). eauto.
Qed.

Lemma dfs_loop_cover fuel s s' :
  dfs_cover s → dfs_loop fuel s = Some (inr s') →
  dfs_cover s' ∧ stack s' = [] ∧ visited s ⊆ visited s' ∧ ∀ d, covered s d → covered s' d.
Proof.
  revert s. induction fuel as [|fuel IH]; intros s Hs; simpl;
    (destruct (stack s) as [|head rest] eqn:Hstk; [intros [= <-]; auto|]); [done|].
  destruct (dfs_step head rest s) as [d|s1] eqn:Hstep; [done|].
  destruct (dfs_step_cover _ _ _ _ Hs Hstk Hstep) as (Hs1 & Hvis & Hmono).
  intros (? & ? & ? & ?)%IH; [|done].
  split; [done|]. split; [done|]. split; [by etrans|auto].
Qed.

Lemma dfs_nodes_cover names s :
  dfs_cover s → stack s = [] → dfs_nodes names s = Some None →
  ∃ vis : gset string,
    (∀ n, n ∈ names → is_Some (g !! n) → n ∈ vis) ∧ visited s ⊆ vis ∧
    ∀ n, n ∈ vis → ¬ edge n n ∧ ∀ d, edge n d → is_Some (g !! d) → d ∈ vis.
Proof.
  revert s. induction names as [|n names IH]; intros s Hcov Hstk; simpl.
  - intros _. exists (visited s). split; [by intros n ?%elem_of_nil|]. split; [done|].
    intros n Hn. destruct (Hcov n Hn) as [Hself Hd]. split; [done|].
    intros d Hed [w Hg]. destruct (Hd d Hed) as [?|[Hs|?]]; [done| |congruence].
    rewrite Hstk in Hs. by apply elem_of_nil in Hs.
  - case_decide as Hn.
    + intros (vis & Hnames & Hsub & Hvis)%IH; [|done..]. exists vis.
      split; [|done]. intros n' [->|?]%elem_of_cons; [set_solver|auto].
    + rewrite Hstk. destruct (dfs_loop _ _) as [[d|s']|] eqn:Hloop; [done| |done].
      apply dfs_loop_cover in Hloop as (Hcov' & Hstk' & Hmon & Hmono).
      2: { intros n' Hn'. destruct (Hcov n' Hn') as [Hself Hd]. split; [done|].
           intros d Hed. destruct (Hd d Hed) as [?|[Hs|?]];
             [by left| |by right; right]. rewrite Hstk in Hs. by apply elem_of_nil in Hs. }
      intros (vis & Hnames & Hsub & Hvis)%IH; [|done..]. simpl in Hmon.
      exists vis. split; [|split; [by etrans|done]].
      intros n' [->|?]%elem_of_cons [w Hg]; [|eauto].
      destruct (Hmono n) as [?|[Hs|?]]; [right; left; by left|set_solver| |congruence].
      rewrite Hstk' in Hs. by apply elem_of_nil in Hs.
Qed.
End dfs.

(** ** Properties *)

Lemma dfs_total `{IterOrder} g start_nodes : is_Some (dfs g start_nodes).
Proof.
  unfold dfs. apply dfs_nodes_total; [|done]. split; simpl; [set_solver|done].
Qed.

(** C32: the search terminates on every state and for every set of start nodes:
    [dfs_fuel] iterations are enough. *)
Theorem dfs_terminates `{IterOrder} g start_nodes : is_Some (dfs g start_nodes).
Proof. apply dfs_total. Qed.

Lemma dfs_reported_on_cycle `{IterOrder} g start_nodes d :
  dfs g start_nodes = Some (Some d) → tc (edge g) d d.
Proof.
  unfold dfs. apply dfs_nodes_sound; [|done|].
  - split; simpl; [set_solver|done].
  - split; simpl; [constructor|]. by intros p ?%elem_of_nil.
Qed.

(** The search has no false alarms: a workload it reports depends on itself
    through a non-empty chain of dependencies; in particular a state without
    dependency cycles is never rejected. *)
Theorem dfs_sound `{IterOrder} g start_nodes d :
  dfs g start_nodes = Some (Some d) → tc (edge g) d d.
Proof. apply dfs_reported_on_cycle. Qed.

Lemma sorted_dependencies_order (o1 o2 : IterOrder) w :
  @sorted_dependencies o1 w = @sorted_dependencies o2 w.
Proof.
  unfold sorted_dependencies. apply sort_strings_perm. by rewrite !map_iter_perm.
Qed.

Lemma dfs_loop_order (o1 o2 : IterOrder) g fuel s :
  @dfs_loop o1 g fuel s = @dfs_loop o2 g fuel s.
Proof.
  revert s. induction fuel as [|fuel IH]; intros s; simpl; [done|].
  destruct (stack s) as [|head rest]; [done|].
  assert (@dfs_step o1 g head rest s = @dfs_step o2 g head rest s) as ->.
  { unfold dfs_step. destruct (g !! head); [|done].
    by rewrite (sorted_dependencies_order o1 o2). }
  destruct (@dfs_step o2 g head rest s); [done|apply IH].
Qed.

Lemma dfs_fuel_order (o1 o2 : IterOrder) g n : @dfs_fuel o1 g n = @dfs_fuel o2 g n.
Proof.
  assert (∀ n, @weight o1 g n = @weight o2 g n) as Hw.
  { intros n'. unfold weight. destruct (g !! n'); [|done].
    by rewrite (sorted_dependencies_order o1 o2). }
  unfold dfs_fuel. rewrite Hw. f_equal. apply sum_list_with_eq. intros x _.
  unfold visit_weight. destruct (g !! x); [|done].
  rewrite (sorted_dependencies_order o1 o2). f_equal. by apply sum_list_with_eq.
Qed.

Lemma dfs_nodes_order (o1 o2 : IterOrder) g names s :
  @dfs_nodes o1 g names s = @dfs_nodes o2 g names s.
Proof.
  revert s. induction names as [|n names IH]; intros s; simpl; [done|].
  case_decide; [done|]. rewrite (dfs_fuel_order o1 o2), (dfs_loop_order o1 o2).
  by destruct (@dfs_loop o2 g _ _) as [[]|].
Qed.

(** The result of the search does not depend on the order in which the
    hash maps of the state are iterated, so all servers report the same
    workload for the same state. *)
Theorem dfs_order_independent (o1 o2 : IterOrder) g start_nodes :
  @dfs o1 g start_nodes = @dfs o2 g start_nodes.
Proof.
  unfold dfs. rewrite (dfs_nodes_order o1 o2). f_equal. apply sort_strings_perm.
  destruct start_nodes; [done|]. by rewrite !map_iter_perm.
Qed.

Lemma dfs_no_self_dependency `{IterOrder} g nodes start w :
  dfs g (Some nodes) = Some None → start ∈ nodes →
  rtc (λ a b, edge g a b ∧ is_Some (g !! b)) start w → is_Some (g !! start) →
  ¬ edge g w w.
Proof.
  unfold dfs. intros Hdfs Hstart Hreach Hex.
  apply dfs_nodes_cover in Hdfs as (vis & Hnames & _ & Hvis);
    [|by intros n ?%elem_of_empty|done].
  assert (start ∈ vis) as Hs by (by apply Hnames; [apply elem_of_sort_strings|]).
  clear Hnames Hstart Hex. induction Hreach as [w|a b w [Hab Hb] _ IH]; [by apply Hvis|].
  apply IH. by apply (Hvis a).
Qed.

(** When the search finds nothing, no workload that is reachable from a
    start node over existing workloads depends on itself directly. *)
Theorem dfs_finds_self_dependencies `{IterOrder} g nodes start w :
  dfs g (Some nodes) = Some None → start ∈ nodes →
  rtc (λ a b, edge g a b ∧ is_Some (g !! b)) start w → is_Some (g !! start) →
  ¬ edge g w w.
Proof. apply dfs_no_self_dependency. Qed.

Definition example_workload (deps : list string) : WorkloadSpec :=
  set_dependencies workload_default (list_to_map ((λ d, (d, AddCondRunning)) <$> deps)).

Definition example_graph (edges : list (string * list string)) : WorkloadMap :=
  list_to_map ((λ '(n, deps), (n, example_workload deps)) <$> edges).

(** The search misses cycles.  Here [a] and [b] depend on each other, and
    [c], which both [a] and [d] depend on, is on the stack twice: the second
    removal of [c] takes [a] off the path, so that the edge from [b] back to
    [a] goes unnoticed. *)
Theorem dfs_misses_cycle :
  ∃ g : WorkloadMap, tc (edge g) "a" "a" ∧
    ∀ H : IterOrder, dfs g None = Some None.
Proof.
  exists (example_graph
    [("a", ["b"; "c"; "d"]); ("b", ["a"]); ("c", []); ("d", ["c"])]).
  split.
  - apply tc_l with "b"; [|apply tc_once].
    + eexists. split; [vm_compute; reflexivity|]. vm_compute. by eexists.
    + eexists. split; [vm_compute; reflexivity|]. vm_compute. by eexists.
  - intros H. rewrite (dfs_order_independent H key_order). vm_compute. reflexivity.
Qed.

Lemma dfs_sound_witness :
  tc (edge (example_graph [("a", ["b"]); ("b", ["a"])])) "a" "a".
Proof. apply (@dfs_sound key_order _ None). vm_compute. reflexivity. Defined.

Lemma dfs_finds_self_dependencies_witness :
  ¬ edge (example_graph [("a", ["b"]); ("b", ["c"])]) "b" "b".
Proof.
  apply (@dfs_finds_self_dependencies key_order _ ["a"] "a").
  - vm_compute. reflexivity.
  - by left.
  - apply rtc_once. split.
    + eexists. split; [vm_compute; reflexivity|]. vm_compute. by eexists.
    + vm_compute. by eexists.
  - vm_compute. by eexists.
Defined.
