(* ===== verification/DeleteGraph.v ===== *)
(** * Ankaios server: delete graph

    [server/src/ankaios_server/delete_graph.rs]: the conditions under which a
    deleted workload may be stopped, i.e. for every workload the workloads that
    were added with a running-dependency on it.  The graph is proved to refine
    a relation on pairs of workload names. *)

From stdpp Require Import base tactics gmap strings list.
From S2P Require Import Prelude Api.

Abbreviation DeleteConditions := (gmap string DeleteCondition).
Abbreviation DeleteGraph := (gmap string DeleteConditions).

Section delete_graph.
Context `{IterOrder}.

(** The body of the inner loop of [insert]. *)
Definition insert_dependency (workload_name : string) (dg : DeleteGraph)
    (dep : string * AddCondition) : DeleteGraph :=
  let '(dependency_name, add_condition) := dep in
  if decide (add_condition = AddCondRunning) then
    <[dependency_name :=
      <[workload_name := DelCondNotPendingNorRunning]> (default ∅ (dg !! dependency_name))]> dg
  else dg.

Definition insert_workload (dg : DeleteGraph) (w : WorkloadNamed) : DeleteGraph :=
  foldl (insert_dependency (workload_name (instance_name w))) dg
    (map_iter (dependencies (workload w))).

Definition insert_delete_conditions (dg : DeleteGraph) (new_workloads : list WorkloadNamed) :
    DeleteGraph :=
  foldl insert_workload dg new_workloads.

Definition apply_delete_conditions (dg : DeleteGraph) (w : DeletedWorkload) : DeletedWorkload :=
  match dg !! workload_name (deleted_instance_name w) with
  | Some delete_conditions =>
    {| deleted_instance_name := deleted_instance_name w;
       deleted_dependencies := delete_conditions |}
  | None => w
  end.

Definition apply_delete_conditions_to (dg : DeleteGraph) (ws : list DeletedWorkload) :
    list DeletedWorkload :=
  apply_delete_conditions dg <$> ws.

Definition remove_deleted_workloads_from_delete_graph (dg : DeleteGraph)
    (states : list WorkloadStateSpec) : DeleteGraph :=
  foldl (λ dg s,
    if is_removed (execution_state s) then delete (workload_name (state_instance_name s)) dg
    else dg) dg states.

(** ** Specification: a relation between workload names *)

Definition delete_condition (dg : DeleteGraph) (dep name : string) : option DeleteCondition :=
  dg !! dep ≫= lookup name.

(** [waits_for w dep name]: adding [w], named [name], requires [dep] to be running. *)
Definition waits_for (w : WorkloadNamed) (dep name : string) : Prop :=
  workload_name (instance_name w) = name ∧
  dependencies (workload w) !! dep = Some AddCondRunning.
#[global] Instance waits_for_dec w dep name : Decision (waits_for w dep name).
Proof. unfold waits_for. apply _. Defined.

(** Every condition of the graph is the one that [insert] writes. *)
Definition delete_graph_wf (dg : DeleteGraph) : Prop :=
  ∀ dep name c, delete_condition dg dep name = Some c → c = DelCondNotPendingNorRunning.

Lemma delete_condition_insert dg d n c dep name :
  delete_condition (<[d := <[n := c]> (default ∅ (dg !! d))]> dg) dep name =
  if decide (d = dep ∧ n = name) then Some c else delete_condition dg dep name.
Proof.
  unfold delete_condition.
  destruct (decide (d = dep)) as [->|Hd].
  - rewrite lookup_insert_eq. simpl.
    destruct (decide (n = name)) as [->|Hn].
    + rewrite lookup_insert_eq. by rewrite decide_True.
    + rewrite lookup_insert_ne by done. rewrite decide_False by naive_solver.
      destruct (dg !! dep); simpl; [done|]. by rewrite lookup_empty.
  - rewrite lookup_insert_ne by done. by rewrite decide_False by naive_solver.
Qed.

Lemma delete_condition_insert_deps wl deps dg dep name :
  delete_condition (foldl (insert_dependency wl) dg deps) dep name =
  if decide (wl = name ∧ (dep, AddCondRunning) ∈ deps) then Some DelCondNotPendingNorRunning
  else delete_condition dg dep name.
Proof.
  revert dg. induction deps as [|[d c] deps IH]; intros dg; cbn [foldl].
  - rewrite decide_False; [done|]. by intros [_ ?%elem_of_nil].
  - rewrite IH. clear IH.
    destruct (decide (wl = name ∧ (dep, AddCondRunning) ∈ deps)) as [Hin|Hin].
    { rewrite decide_True; [done|]. split; [apply Hin|right; apply Hin]. }
    unfold insert_dependency. case_decide as Hc; [subst c; rewrite delete_condition_insert|].
    + apply decide_ext. rewrite elem_of_cons. naive_solver.
    + rewrite decide_False; [done|]. rewrite elem_of_cons. naive_solver.
Qed.

Lemma delete_condition_insert_workload dg w dep name :
  delete_condition (insert_workload dg w) dep name =
  if decide (waits_for w dep name) then Some DelCondNotPendingNorRunning
  else delete_condition dg dep name.
Proof.
  unfold insert_workload. rewrite delete_condition_insert_deps.
  apply decide_ext. unfold waits_for. by rewrite elem_of_map_iter.
Qed.

Lemma delete_condition_insert_workloads dg ws dep name :
  delete_condition (insert_delete_conditions dg ws) dep name =
  if decide (Exists (λ w, waits_for w dep name) ws) then Some DelCondNotPendingNorRunning
  else delete_condition dg dep name.
Proof.
  unfold insert_delete_conditions. revert dg.
  induction ws as [|w ws IH]; intros dg; cbn [foldl].
  - rewrite decide_False; [done|]. by inversion 1.
  - rewrite IH, delete_condition_insert_workload.
    destruct (decide (Exists _ ws)) as [Hws|Hws].
    + rewrite decide_True; [done|]. by right.
    + apply decide_ext. rewrite Exists_cons. naive_solver.
Qed.

Lemma delete_condition_remove dg states dep name :
  delete_condition (remove_deleted_workloads_from_delete_graph dg states) dep name =
  if decide (Exists (λ s, is_removed (execution_state s) = true ∧
                          workload_name (state_instance_name s) = dep) states)
  then None else delete_condition dg dep name.
Proof.
  unfold remove_deleted_workloads_from_delete_graph. revert dg.
  induction states as [|s states IH]; intros dg; cbn [foldl].
  - rewrite decide_False; [done|]. by inversion 1.
  - rewrite IH. destruct (decide (Exists _ states)) as [Hs|Hs].
    + rewrite decide_True; [done|]. by right.
    + destruct (is_removed (execution_state s)) eqn:Hrem.
      * destruct (decide (workload_name (state_instance_name s) = dep)) as [<-|Hd].
        -- rewrite decide_True by (by left). unfold delete_condition.
           by rewrite lookup_delete_eq.
        -- rewrite decide_False by (rewrite Exists_cons; intros [[? ?]|?]; congruence).
           unfold delete_condition. by rewrite lookup_delete_ne.
      * rewrite decide_False; [done|]. rewrite Exists_cons. intros [[? ?]|?]; congruence.
Qed.

Lemma delete_graph_wf_empty : delete_graph_wf ∅.
Proof. intros dep name c. unfold delete_condition. by rewrite lookup_empty. Qed.

Lemma delete_graph_wf_insert dg ws :
  delete_graph_wf dg → delete_graph_wf (insert_delete_conditions dg ws).
Proof.
  intros Hwf dep name c. rewrite delete_condition_insert_workloads.
  case_decide; [by intros [= <-]|apply Hwf].
Qed.

Lemma delete_graph_wf_remove dg states :
  delete_graph_wf dg →
  delete_graph_wf (remove_deleted_workloads_from_delete_graph dg states).
Proof.
  intros Hwf dep name c. rewrite delete_condition_remove. case_decide; [done|apply Hwf].
Qed.
End delete_graph.

#[export] Hint Resolve delete_graph_wf_empty delete_graph_wf_insert delete_graph_wf_remove : wf.

(** ** Properties *)

(** A history of the graph: updates that add workloads, and state reports. *)
Inductive delete_event :=
  | Added (ws : list WorkloadNamed)
  | Reported (states : list WorkloadStateSpec).

Definition run_delete_event `{IterOrder} (dg : DeleteGraph) (e : delete_event) : DeleteGraph :=
  match e with
  | Added ws => insert_delete_conditions dg ws
  | Reported states => remove_deleted_workloads_from_delete_graph dg states
  end.

(** The specification, over the history with the latest event first. *)
Fixpoint must_wait (history : list delete_event) (dep name : string) : bool :=
  match history with
  | [] => false
  | Added ws :: history =>
    bool_decide (Exists (λ w, waits_for w dep name) ws) || must_wait history dep name
  | Reported states :: history =>
    negb (bool_decide (Exists (λ s, is_removed (execution_state s) = true ∧
                          workload_name (state_instance_name s) = dep) states))
    && must_wait history dep name
  end.

Lemma delete_condition_history `{IterOrder} history dep name :
  delete_condition (foldl run_delete_event ∅ (reverse history)) dep name =
  if must_wait history dep name then Some DelCondNotPendingNorRunning else None.
Proof.
  induction history as [|e history IH]; simpl.
  - unfold delete_condition. by rewrite lookup_empty.
  - rewrite reverse_cons, foldl_app. simpl. destruct e as [ws|states]; simpl.
    + rewrite delete_condition_insert_workloads, IH.
      case_bool_decide as Hw; [by rewrite decide_True|by rewrite decide_False].
    + rewrite delete_condition_remove, IH.
      case_bool_decide as Hw; [by rewrite decide_True|by rewrite decide_False].
Qed.

(** C34: along any history of updates and state reports that starts with the
    empty graph, a deleted workload is told to wait for [name] exactly if an
    update of the history added [name] with a running-dependency on it and no
    report since then said that it is removed. *)
Theorem deleted_workload_waits_for_dependents `{IterOrder} history w name :
  deleted_dependencies w = ∅ →
  deleted_dependencies
    (apply_delete_conditions (foldl run_delete_event ∅ (reverse history)) w) !! name =
  if must_wait history (workload_name (deleted_instance_name w)) name
  then Some DelCondNotPendingNorRunning else None.
Proof.
  intros Hw. rewrite <-delete_condition_history. unfold apply_delete_conditions, delete_condition.
  destruct (foldl _ _ _ !! _) as [dc|]; simpl; [done|]. by rewrite Hw, lookup_empty.
Qed.

Lemma deleted_workload_waits_for_dependents_witness :
  let web := {| workload_name := "web"; agent_name := "agent_A"; instance_id := "1" |} in
  let db := {| workload_name := "db"; agent_name := "agent_A"; instance_id := "2" |} in
  let w := {| instance_name := web;
              workload := set_dependencies workload_default {["db" := AddCondRunning]} |} in
  deleted_dependencies (@apply_delete_conditions
    (foldl (@run_delete_event key_order) ∅ (reverse [Added [w]]))
    {| deleted_instance_name := db; deleted_dependencies := ∅ |}) !! "web"
  = Some DelCondNotPendingNorRunning.
Proof.
  intros web db w.
  by rewrite (@deleted_workload_waits_for_dependents key_order [Added [w]]).
Defined.
