(* ===== verification/RequestId.v ===== *)
(** * Ankaios server: request ids

    [server/src/ankaios_server/request_id.rs]: the ids under which the server
    keeps log campaigns and event subscriptions, parsed from the id of the
    request.  The parser indexes the parts of the string without a check, so
    that it panics on a string with too few separators; a panic is [None]. *)

From Stdlib Require Import Ascii.
From stdpp Require Import base tactics gmap strings list.
From S2P Require Import Prelude.

Record CliRequestId := { cli_name : string; cli_request_id : string }.
Record AgentRequestId := {
  request_agent_name : string;
  request_workload_name : string;
  agent_request_id : string
}.
Inductive RequestId :=
  | FromCli (r : CliRequestId)
  | FromAgent (r : AgentRequestId).

#[export] Instance CliRequestId_eq_dec : EqDecision CliRequestId.
Proof. solve_decision. Defined.
#[export] Instance AgentRequestId_eq_dec : EqDecision AgentRequestId.
Proof. solve_decision. Defined.
#[export] Instance RequestId_eq_dec : EqDecision RequestId.
Proof. solve_decision. Defined.
#[export] Instance CliRequestId_countable : Countable CliRequestId.
Proof.
  apply (inj_countable' (λ r, (cli_name r, cli_request_id r)) (λ '(n, i), Build_CliRequestId n i)).
  by intros [].
Defined.
#[export] Instance AgentRequestId_countable : Countable AgentRequestId.
Proof.
  apply (inj_countable'
    (λ r, (request_agent_name r, request_workload_name r, agent_request_id r))
    (λ '(a, w, i), Build_AgentRequestId a w i)).
  by intros [].
Defined.
#[export] Instance RequestId_countable : Countable RequestId.
Proof.
  apply (inj_countable' (λ r, match r with FromCli r => inl r | FromAgent r => inr r end)
    (λ r, match r with inl r => FromCli r | inr r => FromAgent r end)).
  by intros [].
Defined.

Definition SEPARATOR : ascii := "@".
Definition CLI_PREFIX : string := "cli-conn".
Definition CLI_REQUEST_PARTS_LEN : nat := 2.
Definition CLI_REQUEST_NAME_INDEX : nat := 0.
Definition CLI_REQUEST_ID_INDEX : nat := 1.
Definition AGENT_REQUEST_PARTS_LEN : nat := 3.
Definition AGENT_REQUEST_NAME_INDEX : nat := 0.
Definition AGENT_REQUEST_WORKLOAD_NAME_INDEX : nat := 1.
Definition AGENT_REQUEST_ID_INDEX : nat := 2.

Definition cli_request_id_to_string (r : CliRequestId) : string :=
  cli_name r +:+ String SEPARATOR (cli_request_id r).
Definition agent_request_id_to_string (r : AgentRequestId) : string :=
  request_agent_name r +:+ String SEPARATOR
    (request_workload_name r +:+ String SEPARATOR (agent_request_id r)).

Definition to_string_id (r : RequestId) : string :=
  match r with
  | FromCli r => cli_request_id_to_string r
  | FromAgent r => agent_request_id_to_string r
  end.

Definition to_string_ids {A} `{Countable A} (f : A → string) (request_ids : gset A) : gset string :=
  set_map f request_ids.

(** [impl From<S> for RequestId]. *)
Definition request_id_from (request_id : string) : option RequestId :=
  if starts_with CLI_PREFIX request_id then
    let parts := splitn CLI_REQUEST_PARTS_LEN SEPARATOR request_id in
    name ← parts !! CLI_REQUEST_NAME_INDEX;
    id ← parts !! CLI_REQUEST_ID_INDEX;
    Some (FromCli {| cli_name := name; cli_request_id := id |})
  else
    let parts := splitn AGENT_REQUEST_PARTS_LEN SEPARATOR request_id in
    name ← parts !! AGENT_REQUEST_NAME_INDEX;
    wl ← parts !! AGENT_REQUEST_WORKLOAD_NAME_INDEX;
    id ← parts !! AGENT_REQUEST_ID_INDEX;
    Some (FromAgent
      {| request_agent_name := name; request_workload_name := wl; agent_request_id := id |}).

(** What the connections of the server produce: the name of a CLI connection
    starts with the prefix, the name of an agent does not, and no name holds
    the separator. *)
Definition request_id_wf (r : RequestId) : Prop :=
  match r with
  | FromCli r => starts_with CLI_PREFIX (cli_name r) = true ∧ has_char SEPARATOR (cli_name r) = false
  | FromAgent r =>
    starts_with CLI_PREFIX (request_agent_name r) = false ∧
    has_char SEPARATOR (request_agent_name r) = false ∧
    has_char SEPARATOR (request_workload_name r) = false
  end.
#[export] Instance request_id_wf_dec r : Decision (request_id_wf r).
Proof. destruct r; unfold request_id_wf; apply _. Defined.

(** ** Lemmas *)

(** A prefix without the separator is found in the part before the separator. *)
Lemma starts_with_before_sep p s r c :
  has_char c p = false → starts_with p (s +:+ String c r) = starts_with p s.
Proof.
  unfold starts_with. revert s. induction p as [|a p IH]; intros s.
  - by destruct s; simpl; destruct r.
  - rewrite has_char_cons. case_bool_decide as Ha; [done|]. intros Hp.
    destruct s as [|b s]; simpl.
    + destruct (ascii_dec a c); [done|done].
    + destruct (ascii_dec a b); [by apply IH|done].
Qed.

Lemma request_id_from_to_string r : request_id_wf r → request_id_from (to_string_id r) = Some r.
Proof.
  destruct r as [[n i]|[a w i]]; simpl.
  - intros [Hp Hn]. unfold request_id_from, cli_request_id_to_string. simpl.
    rewrite starts_with_before_sep, Hp by done. simpl. by rewrite split_once_app.
  - intros (Hp & Ha & Hw). unfold request_id_from, agent_request_id_to_string. simpl.
    rewrite starts_with_before_sep, Hp by done. simpl. by rewrite !split_once_app.
Qed.

Lemma request_id_from_Some s r :
  request_id_from s = Some r → to_string_id r = s ∧ request_id_wf r.
Proof.
  unfold request_id_from. simpl. destruct (starts_with CLI_PREFIX s) eqn:Hp.
  - destruct (split_once SEPARATOR s) as [[n i]|] eqn:Hs; simpl; [|done].
    intros [= <-]. apply split_once_Some in Hs as [-> Hn]. split; [done|]. split; [|done].
    by rewrite starts_with_before_sep in Hp.
  - destruct (split_once SEPARATOR s) as [[a rest]|] eqn:Hs; simpl; [|done].
    destruct (split_once SEPARATOR rest) as [[w i]|] eqn:Hrest; simpl; [|done].
    intros [= <-]. apply split_once_Some in Hs as [-> Ha].
    apply split_once_Some in Hrest as [-> Hw]. split; [done|]. split; [|done].
    by rewrite starts_with_before_sep in Hp.
Qed.

Lemma request_id_from_inj s1 s2 r :
  request_id_from s1 = Some r → request_id_from s2 = Some r → s1 = s2.
Proof.
  intros [<- _]%request_id_from_Some [<- _]%request_id_from_Some. done.
Qed.

(** ** Properties *)

(** Parsing request ids is exactly the inverse of printing them: the
    parser accepts the string of every well-formed id and returns that id, and
    whatever it returns is well-formed and prints as the string that was
    parsed.  The log campaign store relies on the latter when it looks up the
    printed id. *)
Theorem request_id_roundtrip s r :
  request_id_from s = Some r ↔ to_string_id r = s ∧ request_id_wf r.
Proof.
  split; [apply request_id_from_Some|]. intros [<- Hr]. by apply request_id_from_to_string.
Qed.

Fixpoint count_char (c : ascii) (s : string) : nat :=
  match s with
  | EmptyString => 0
  | String a s => (if decide (a = c) then 1 else 0) + count_char c s
  end.

Lemma count_char_zero c s : count_char c s = 0 ↔ has_char c s = false.
Proof.
  induction s as [|a s IH]; [done|]. rewrite has_char_cons. simpl.
  case_decide; [by rewrite bool_decide_eq_true_2|].
  rewrite bool_decide_eq_false_2 by done. done.
Qed.

Lemma count_char_split_once c s p r :
  split_once c s = Some (p, r) → count_char c s = S (count_char c r).
Proof.
  revert p. induction s as [|a s IH]; intros p; simpl; [done|].
  case_decide; [by intros [= _ ->]|].
  destruct (split_once c s) as [[p' r']|]; simpl; [|done].
  intros [= _ ->]. by apply (IH p').
Qed.

(** The parser panics exactly on the ids with too few separators: one is
    needed for an id with the prefix of CLI connections and two for any
    other, so that the empty id always panics. *)
Theorem request_id_from_panics s :
  request_id_from s = None ↔
  count_char SEPARATOR s < (if starts_with CLI_PREFIX s then 1 else 2).
Proof.
  unfold request_id_from. simpl. destruct (starts_with CLI_PREFIX s).
  - destruct (split_once SEPARATOR s) as [[n i]|] eqn:Hs; simpl.
    + apply count_char_split_once in Hs. split; [done|lia].
    + apply split_once_None, count_char_zero in Hs. split; [lia|done].
  - destruct (split_once SEPARATOR s) as [[a rest]|] eqn:Hs; simpl.
    + apply count_char_split_once in Hs.
      destruct (split_once SEPARATOR rest) as [[w i]|] eqn:Hrest; simpl.
      * apply count_char_split_once in Hrest. split; [done|lia].
      * apply split_once_None, count_char_zero in Hrest. split; [lia|done].
    + apply split_once_None, count_char_zero in Hs. split; [lia|done].
Qed.
