(* ===== verification/LogCampaign.v ===== *)
(** * Ankaios server: log campaign store

    [server/src/ankaios_server/log_campaign_store.rs]: who collects logs and
    which agents provide them.  Four hash maps that have to agree; the
    invariant is kept by every operation, and the removal operations are
    proved to forget exactly the campaigns of the removed collector. *)

From stdpp Require Import base tactics gmap strings list.
From S2P Require Import Prelude Api RequestId.

(** ** Maps of sets *)

Section set_maps.
Context `{Countable A}.
Implicit Types m : gmap string (gset A).

Definition ids_of m (k : string) : gset A := default ∅ (m !! k).

(** [m.entry(k).or_default().insert(x)]. *)
Definition set_map_insert (k : string) (x : A) m : gmap string (gset A) :=
  <[k := {[x]} ∪ ids_of m k]> m.

(** Remove [x] from the set under [k], and the entry when the set gets empty. *)
Definition set_map_remove (k : string) (x : A) m : gmap string (gset A) :=
  match m !! k with
  | Some requests =>
    let requests := requests ∖ {[x]} in
    if decide (requests = ∅) then delete k m else <[k := requests]> m
  | None => m
  end.

Definition set_map_wf m : Prop := ∀ k X, m !! k = Some X → X ≠ ∅.

Lemma elem_of_set_map_insert k x m k' y :
  y ∈ ids_of (set_map_insert k x m) k' ↔ (k' = k ∧ y = x) ∨ y ∈ ids_of m k'.
Proof.
  unfold set_map_insert. destruct (decide (k' = k)) as [->|Hk].
  - unfold ids_of at 1. rewrite lookup_insert_eq. simpl. set_solver.
  - unfold ids_of at 1. rewrite lookup_insert_ne by done. fold (ids_of m k'). set_solver.
Qed.

Lemma elem_of_set_map_remove k x m k' y :
  y ∈ ids_of (set_map_remove k x m) k' ↔ y ∈ ids_of m k' ∧ ¬ (k' = k ∧ y = x).
Proof.
  unfold set_map_remove. destruct (m !! k) as [X|] eqn:Hm.
  - destruct (decide (k' = k)) as [->|Hk].
    + assert (ids_of m k = X) as -> by (unfold ids_of; by rewrite Hm).
      case_decide as HX; unfold ids_of.
      * rewrite lookup_delete_eq. simpl. set_solver.
      * rewrite lookup_insert_eq. simpl. set_solver.
    + case_decide as HX; unfold ids_of.
      * rewrite lookup_delete_ne by done. naive_solver.
      * rewrite lookup_insert_ne by done. naive_solver.
  - destruct (decide (k' = k)) as [->|Hk]; [|naive_solver].
    unfold ids_of. rewrite Hm. simpl. set_solver.
Qed.

Lemma elem_of_ids_of_delete k m k' y :
  y ∈ ids_of (delete k m) k' ↔ y ∈ ids_of m k' ∧ k' ≠ k.
Proof.
  unfold ids_of. destruct (decide (k' = k)) as [->|Hk].
  - rewrite lookup_delete_eq. simpl. set_solver.
  - rewrite lookup_delete_ne by done. naive_solver.
Qed.

Lemma set_map_wf_insert k x m : set_map_wf m → set_map_wf (set_map_insert k x m).
Proof.
  intros Hm k' X. unfold set_map_insert. rewrite lookup_insert_Some.
  intros [[<- <-]|[_ ?%Hm]]; [set_solver|done].
Qed.

Lemma set_map_wf_remove k x m : set_map_wf m → set_map_wf (set_map_remove k x m).
Proof.
  intros Hm. unfold set_map_remove. destruct (m !! k) as [X|]; [|done].
  case_decide; intros k' X'.
  - rewrite lookup_delete_Some. intros [_ ?]. by eapply Hm.
  - rewrite lookup_insert_Some. intros [[<- <-]|[_ ?%Hm]]; done.
Qed.

Lemma set_map_wf_delete k m : set_map_wf m → set_map_wf (delete k m).
Proof. intros Hm k' X'. rewrite lookup_delete_Some. intros [_ ?]. by eapply Hm. Qed.
End set_maps.

(** ** The store *)

Abbreviation ProviderMap := (gmap string (list WorkloadInstanceNameSpec)).

Record LogCampaignStore := {
  agent_log_request_ids_store : gmap string (gset AgentRequestId);
  workload_name_request_id_store : gmap string (gset AgentRequestId);
  log_providers_store : gmap string ProviderMap;
  cli_log_request_id_store : gmap string (gset CliRequestId)
}.

Record RemovedLogRequests := {
  collector_requests : gset string;
  disconnected_log_providers : list (string * list WorkloadInstanceNameSpec)
}.

Definition log_campaign_store_default : LogCampaignStore :=
  {| agent_log_request_ids_store := ∅; workload_name_request_id_store := ∅;
     log_providers_store := ∅; cli_log_request_id_store := ∅ |}.

Section log_campaigns.
Context `{IterOrder}.
Implicit Types s : LogCampaignStore.

(** The body of the loop over the log providers. *)
Definition push_provider (input_request_id : string) (m : gmap string ProviderMap)
    (n : WorkloadInstanceNameSpec) : gmap string ProviderMap :=
  let provider_map := default ∅ (m !! agent_name n) in
  <[agent_name n :=
    <[input_request_id := default [] (provider_map !! input_request_id) ++ [n]]> provider_map]> m.

Definition register_campaign (r : RequestId) s : LogCampaignStore :=
  match r with
  | FromCli r =>
    {| agent_log_request_ids_store := agent_log_request_ids_store s;
       workload_name_request_id_store := workload_name_request_id_store s;
       log_providers_store := log_providers_store s;
       cli_log_request_id_store :=
         set_map_insert (cli_name r) r (cli_log_request_id_store s) |}
  | FromAgent r =>
    {| agent_log_request_ids_store :=
         set_map_insert (request_agent_name r) r (agent_log_request_ids_store s);
       workload_name_request_id_store :=
         set_map_insert (request_workload_name r) r (workload_name_request_id_store s);
       log_providers_store := log_providers_store s;
       cli_log_request_id_store := cli_log_request_id_store s |}
  end.

Definition set_log_providers (m : gmap string ProviderMap) s : LogCampaignStore :=
  {| agent_log_request_ids_store := agent_log_request_ids_store s;
     workload_name_request_id_store := workload_name_request_id_store s;
     log_providers_store := m;
     cli_log_request_id_store := cli_log_request_id_store s |}.

(** [None] is the panic of the id parser. *)
Definition insert_log_campaign s (input_request_id : string)
    (log_providers : list WorkloadInstanceNameSpec) : option LogCampaignStore :=
  request_id ← request_id_from input_request_id;
  let s := register_campaign request_id s in
  Some (set_log_providers
    (foldl (push_provider input_request_id) (log_providers_store s) log_providers) s).

Definition retain_other_requests (id : string) (provider_map : ProviderMap) : ProviderMap :=
  filter (λ p, p.1 ≠ id) provider_map.
Definition providers_without (id : string) (m : gmap string ProviderMap) :
    gmap string ProviderMap :=
  omap (λ provider_map,
    let provider_map := retain_other_requests id provider_map in
    if decide (provider_map = ∅) then None else Some provider_map) m.
Definition remove_request_from_log_providers_store s (id : string) : LogCampaignStore :=
  set_log_providers (providers_without id (log_providers_store s)) s.

Definition remove_request_from_agent_log_campaign_store s (r : AgentRequestId) :
    LogCampaignStore :=
  {| agent_log_request_ids_store :=
       set_map_remove (request_agent_name r) r (agent_log_request_ids_store s);
     workload_name_request_id_store := workload_name_request_id_store s;
     log_providers_store := log_providers_store s;
     cli_log_request_id_store := cli_log_request_id_store s |}.

Definition remove_request_from_cli_log_campaign_store s (r : CliRequestId) : LogCampaignStore :=
  {| agent_log_request_ids_store := agent_log_request_ids_store s;
     workload_name_request_id_store := workload_name_request_id_store s;
     log_providers_store := log_providers_store s;
     cli_log_request_id_store := set_map_remove (cli_name r) r (cli_log_request_id_store s) |}.

Definition remove_request_from_workload_log_campaign_store s (r : AgentRequestId) :
    LogCampaignStore :=
  {| agent_log_request_ids_store := agent_log_request_ids_store s;
     workload_name_request_id_store :=
       set_map_remove (request_workload_name r) r (workload_name_request_id_store s);
     log_providers_store := log_providers_store s;
     cli_log_request_id_store := cli_log_request_id_store s |}.

Definition take_agent_requests s (agent : string) : LogCampaignStore :=
  {| agent_log_request_ids_store := delete agent (agent_log_request_ids_store s);
     workload_name_request_id_store := workload_name_request_id_store s;
     log_providers_store := log_providers_store s;
     cli_log_request_id_store := cli_log_request_id_store s |}.

Definition take_workload_requests s (wl : string) : LogCampaignStore :=
  {| agent_log_request_ids_store := agent_log_request_ids_store s;
     workload_name_request_id_store := delete wl (workload_name_request_id_store s);
     log_providers_store := log_providers_store s;
     cli_log_request_id_store := cli_log_request_id_store s |}.

Definition take_cli_requests s (cli : string) : LogCampaignStore :=
  {| agent_log_request_ids_store := agent_log_request_ids_store s;
     workload_name_request_id_store := workload_name_request_id_store s;
     log_providers_store := log_providers_store s;
     cli_log_request_id_store := delete cli (cli_log_request_id_store s) |}.

Definition remove_agent_log_campaign_entry s (agent : string) :
    RemovedLogRequests * LogCampaignStore :=
  let requests := ids_of (agent_log_request_ids_store s) agent in
  let s :=
    foldl (λ s r,
      remove_request_from_log_providers_store
        (take_workload_requests s (request_workload_name r)) (agent_request_id_to_string r))
      (take_agent_requests s agent) (set_iter requests) in
  ({| collector_requests := to_string_ids agent_request_id_to_string requests;
      disconnected_log_providers := map_iter (default ∅ (log_providers_store s !! agent)) |},
   set_log_providers (delete agent (log_providers_store s)) s).

Definition remove_cli_log_campaign_entry s (cli_connection_name : string) :
    gset string * LogCampaignStore :=
  let removed_request_ids := ids_of (cli_log_request_id_store s) cli_connection_name in
  (to_string_ids cli_request_id_to_string removed_request_ids,
   foldl (λ s r, remove_request_from_log_providers_store s (cli_request_id_to_string r))
     (take_cli_requests s cli_connection_name) (set_iter removed_request_ids)).

Definition remove_logs_request_id s (input_request_id : string) : option LogCampaignStore :=
  request_id ← request_id_from input_request_id;
  let s := remove_request_from_log_providers_store s input_request_id in
  Some match request_id with
       | FromCli r => remove_request_from_cli_log_campaign_store s r
       | FromAgent r =>
         remove_request_from_workload_log_campaign_store
           (remove_request_from_agent_log_campaign_store s r) r
       end.

Definition remove_collector_campaign_entry s (wl : string) : gset string * LogCampaignStore :=
  let removed_request_ids := ids_of (workload_name_request_id_store s) wl in
  (to_string_ids agent_request_id_to_string removed_request_ids,
   foldl (λ s r,
     remove_request_from_log_providers_store
       (remove_request_from_agent_log_campaign_store s r) (agent_request_id_to_string r))
     (take_workload_requests s wl) (set_iter removed_request_ids)).
End log_campaigns.

(** ** Views of the store *)

Definition registered (s : LogCampaignStore) (r : RequestId) : Prop :=
  match r with
  | FromCli r => r ∈ ids_of (cli_log_request_id_store s) (cli_name r)
  | FromAgent r => r ∈ ids_of (agent_log_request_ids_store s) (request_agent_name r)
  end.

Definition providers_of (m : gmap string ProviderMap) (agent id : string) :
    option (list WorkloadInstanceNameSpec) :=
  m !! agent ≫= lookup id.

Definition providers_wf (m : gmap string ProviderMap) : Prop :=
  ∀ a pm, m !! a = Some pm → pm ≠ ∅ ∧
    ∀ id names, pm !! id = Some names → names ≠ [] ∧ Forall (λ n, agent_name n = a) names.

(** The maps agree: no empty set or map is stored, every request is stored
    under its own names, the collectors found by workload name are also found
    by agent name, and only registered campaigns have log providers, each
    stored under its own agent. *)
Record campaign_wf (s : LogCampaignStore) : Prop := {
  wf_agent_sets : set_map_wf (agent_log_request_ids_store s);
  wf_workload_sets : set_map_wf (workload_name_request_id_store s);
  wf_cli_sets : set_map_wf (cli_log_request_id_store s);
  wf_agent : ∀ a r, r ∈ ids_of (agent_log_request_ids_store s) a →
    request_agent_name r = a ∧ request_id_wf (FromAgent r);
  wf_workload : ∀ w r, r ∈ ids_of (workload_name_request_id_store s) w →
    request_workload_name r = w ∧ registered s (FromAgent r);
  wf_cli : ∀ c r, r ∈ ids_of (cli_log_request_id_store s) c →
    cli_name r = c ∧ request_id_wf (FromCli r);
  wf_providers : providers_wf (log_providers_store s);
  wf_provided : ∀ a id, is_Some (providers_of (log_providers_store s) a id) →
    ∃ r, request_id_from id = Some r ∧ registered s r
}.

Lemma providers_of_push id m n a id' :
  providers_of (push_provider id m n) a id' =
  if decide (a = agent_name n ∧ id' = id) then
    Some (default [] (providers_of m a id') ++ [n])
  else providers_of m a id'.
Proof.
  unfold push_provider, providers_of. destruct (decide (a = agent_name n)) as [->|Ha].
  - rewrite lookup_insert_eq. simpl. destruct (decide (id' = id)) as [->|Hid].
    + rewrite lookup_insert_eq, decide_True by done. destruct (m !! agent_name n); simpl; [done|].
      by rewrite lookup_empty.
    + rewrite lookup_insert_ne, decide_False by naive_solver.
      destruct (m !! agent_name n); simpl; [done|]. by rewrite lookup_empty.
  - rewrite lookup_insert_ne, decide_False by naive_solver. done.
Qed.

Lemma lookup_default_providers m a id : default ∅ (m !! a : option ProviderMap) !! id = providers_of m a id.
Proof. unfold providers_of. destruct (m !! a); simpl; [done|apply lookup_empty]. Qed.

Lemma providers_wf_push id m n : providers_wf m → providers_wf (push_provider id m n).
Proof.
  intros Hm a pm. unfold push_provider. rewrite lookup_insert_Some.
  intros [[<- <-]|[_ Ha]]; [|by apply Hm]. split; [apply insert_non_empty|].
  assert (∀ id' names, default ∅ (m !! agent_name n) !! id' = Some names →
    names ≠ [] ∧ Forall (λ n', agent_name n' = agent_name n) names) as Hold.
  { intros id' names. destruct (m !! agent_name n) as [pm|] eqn:Hpm; simpl.
    - by apply (Hm _ _ Hpm).
    - by rewrite lookup_empty. }
  intros id' names. rewrite lookup_insert_Some. intros [[<- <-]|[_ ?]]; [|by eapply Hold].
  split; [by intros [_ ?]%app_nil|]. apply Forall_app. split; [|by repeat constructor].
  destruct (default ∅ (m !! agent_name n) !! id) as [l|] eqn:Hl; simpl; [|constructor].
  by apply (Hold _ _ Hl).
Qed.

Lemma providers_of_pushes id m ns a id' :
  is_Some (providers_of (foldl (push_provider id) m ns) a id') →
  id' = id ∨ is_Some (providers_of m a id').
Proof.
  revert m. induction ns as [|n ns IH]; intros m; simpl; [by right|].
  intros [->|Hm]%IH; [by left|]. rewrite providers_of_push in Hm.
  case_decide; [left; naive_solver|by right].
Qed.

Lemma providers_wf_pushes id m ns :
  providers_wf m → providers_wf (foldl (push_provider id) m ns).
Proof.
  revert m. induction ns as [|n ns IH]; intros m Hm; simpl; [done|].
  by apply IH, providers_wf_push.
Qed.

Lemma providers_of_without id m a id' :
  providers_of (providers_without id m) a id' =
  if decide (id' = id) then None else providers_of m a id'.
Proof.
  unfold providers_of, providers_without, retain_other_requests. rewrite lookup_omap.
  destruct (m !! a) as [pm|]; simpl; [|by case_decide].
  assert (filter (λ p : string * list WorkloadInstanceNameSpec, p.1 ≠ id) pm !! id' =
          if decide (id' = id) then None else pm !! id') as Hf.
  { apply option_eq. intros l. rewrite map_lookup_filter_Some. simpl.
    case_decide; naive_solver. }
  rewrite <-Hf. clear Hf. case_decide as Hempty; [by rewrite Hempty|done].
Qed.

Lemma providers_wf_without id m : providers_wf m → providers_wf (providers_without id m).
Proof.
  intros Hm a pm. unfold providers_without. rewrite lookup_omap.
  destruct (m !! a) as [pm'|] eqn:Ha; simpl; [|done]. case_decide; [done|].
  intros [= <-]. split; [done|]. intros id' names [Hid _]%map_lookup_filter_Some.
  by eapply (proj2 (Hm _ _ Ha)).
Qed.

Lemma providers_of_without_all ids m a id :
  providers_of (foldl (λ m id, providers_without id m) m ids) a id =
  if decide (id ∈ ids) then None else providers_of m a id.
Proof.
  revert m. induction ids as [|i ids IH]; intros m; cbn [foldl].
  - rewrite decide_False; [done|]. by intros ?%elem_of_nil.
  - rewrite IH, providers_of_without. destruct (decide (id ∈ ids)).
    + rewrite decide_True; [done|by right].
    + apply decide_ext. rewrite elem_of_cons. naive_solver.
Qed.

Lemma providers_wf_without_all ids m :
  providers_wf m → providers_wf (foldl (λ m id, providers_without id m) m ids).
Proof.
  revert m. induction ids as [|i ids IH]; intros m Hm; simpl; [done|].
  by apply IH, providers_wf_without.
Qed.

Lemma providers_of_delete agent m a id :
  providers_of (delete agent m) a id = if decide (a = agent) then None else providers_of m a id.
Proof.
  unfold providers_of. case_decide as Ha.
  - subst a. by rewrite lookup_delete_eq.
  - by rewrite lookup_delete_ne.
Qed.

Lemma providers_wf_delete agent m : providers_wf m → providers_wf (delete agent m).
Proof. intros Hm a pm. rewrite lookup_delete_Some. intros [_ ?]. by apply Hm. Qed.

(** The loops of the removal operations, one map at a time. *)
Lemma remove_agent_loop s (l : list AgentRequestId) :
  foldl (λ s r,
    remove_request_from_log_providers_store
      (take_workload_requests s (request_workload_name r)) (agent_request_id_to_string r)) s l =
  {| agent_log_request_ids_store := agent_log_request_ids_store s;
     workload_name_request_id_store :=
       foldl (λ m r, delete (request_workload_name r) m) (workload_name_request_id_store s) l;
     log_providers_store :=
       foldl (λ m id, providers_without id m) (log_providers_store s)
         (agent_request_id_to_string <$> l);
     cli_log_request_id_store := cli_log_request_id_store s |}.
Proof. revert s. induction l as [|r l IH]; intros s; simpl; [by destruct s|]. by rewrite IH. Qed.

Lemma remove_cli_loop s (l : list CliRequestId) :
  foldl (λ s r, remove_request_from_log_providers_store s (cli_request_id_to_string r)) s l =
  set_log_providers
    (foldl (λ m id, providers_without id m) (log_providers_store s)
      (cli_request_id_to_string <$> l)) s.
Proof. revert s. induction l as [|r l IH]; intros s; simpl; [by destruct s|]. by rewrite IH. Qed.

Lemma remove_collector_loop s (l : list AgentRequestId) :
  foldl (λ s r,
    remove_request_from_log_providers_store
      (remove_request_from_agent_log_campaign_store s r) (agent_request_id_to_string r)) s l =
  {| agent_log_request_ids_store :=
       foldl (λ m r, set_map_remove (request_agent_name r) r m) (agent_log_request_ids_store s) l;
     workload_name_request_id_store := workload_name_request_id_store s;
     log_providers_store :=
       foldl (λ m id, providers_without id m) (log_providers_store s)
         (agent_request_id_to_string <$> l);
     cli_log_request_id_store := cli_log_request_id_store s |}.
Proof. revert s. induction l as [|r l IH]; intros s; simpl; [by destruct s|]. by rewrite IH. Qed.

Lemma elem_of_workload_deletes (l : list AgentRequestId) (m : gmap string (gset AgentRequestId)) w r :
  r ∈ ids_of (foldl (λ m r, delete (request_workload_name r) m) m l) w ↔
  r ∈ ids_of m w ∧ ∀ r', r' ∈ l → request_workload_name r' ≠ w.
Proof.
  revert m. induction l as [|r' l IH]; intros m; simpl.
  - split; [|naive_solver]. intros ?. split; [done|]. by intros ? ?%elem_of_nil.
  - rewrite IH, elem_of_ids_of_delete. setoid_rewrite elem_of_cons. naive_solver.
Qed.

Lemma set_map_wf_workload_deletes (l : list AgentRequestId) (m : gmap string (gset AgentRequestId)) :
  set_map_wf m → set_map_wf (foldl (λ m r, delete (request_workload_name r) m) m l).
Proof.
  revert m. induction l as [|r l IH]; intros m Hm; simpl; [done|].
  by apply IH, set_map_wf_delete.
Qed.

Lemma elem_of_agent_removes (l : list AgentRequestId) (m : gmap string (gset AgentRequestId)) a r :
  r ∈ ids_of (foldl (λ m r, set_map_remove (request_agent_name r) r m) m l) a ↔
  r ∈ ids_of m a ∧ ¬ (r ∈ l ∧ request_agent_name r = a).
Proof.
  revert m. induction l as [|r' l IH]; intros m; simpl.
  - split; [|naive_solver]. intros ?. split; [done|]. by intros [?%elem_of_nil ?].
  - rewrite IH, elem_of_set_map_remove, elem_of_cons. naive_solver.
Qed.

Lemma set_map_wf_agent_removes (l : list AgentRequestId) (m : gmap string (gset AgentRequestId)) :
  set_map_wf m → set_map_wf (foldl (λ m r, set_map_remove (request_agent_name r) r m) m l).
Proof.
  revert m. induction l as [|r l IH]; intros m Hm; simpl; [done|].
  by apply IH, set_map_wf_remove.
Qed.

(** ** The invariant is kept *)

Lemma campaign_wf_default : campaign_wf log_campaign_store_default.
Proof.
  split; simpl; try (by intros ? ?; rewrite lookup_empty);
    try (intros ? ?; unfold ids_of; by rewrite lookup_empty).
  intros a id. unfold providers_of. rewrite lookup_empty. by intros [].
Qed.

Lemma campaign_wf_insert s id ns s' :
  campaign_wf s → insert_log_campaign s id ns = Some s' → campaign_wf s'.
Proof.
  intros [Has Hws Hcs Ha Hw Hc Hp Hpr]. unfold insert_log_campaign.
  destruct (request_id_from id) as [[r|r]|] eqn:Hid; simpl; [| |done]; intros [= <-];
    destruct (request_id_from_Some _ _ Hid) as [_ Hwf];
    split; simpl; auto using set_map_wf_insert, providers_wf_pushes.
  - intros c r'. rewrite elem_of_set_map_insert. intros [[-> ->]|?]; [done|by apply Hc].
  - intros a id' [->|(r' & Hr' & Hreg)%Hpr]%providers_of_pushes.
    + exists (FromCli r). split; [done|]. simpl. apply elem_of_set_map_insert. by left.
    + exists r'. split; [done|]. destruct r'; simpl in *; [|done].
      apply elem_of_set_map_insert. by right.
  - intros a r'. rewrite elem_of_set_map_insert. intros [[-> ->]|?]; [done|by apply Ha].
  - intros w r'. rewrite !elem_of_set_map_insert.
    intros [[-> ->]|[? ?]%Hw]; [split; [done|by left]|split; [done|by right]].
  - intros a id' [->|(r' & Hr' & Hreg)%Hpr]%providers_of_pushes.
    + exists (FromAgent r). split; [done|]. simpl. apply elem_of_set_map_insert. by left.
    + exists r'. split; [done|]. destruct r'; simpl in *; [done|].
      apply elem_of_set_map_insert. by right.
Qed.

(** A provider entry that survives the removal of [ids] belongs to another campaign. *)
Lemma provided_elsewhere s (ids : list string) m a id :
  campaign_wf s → (∀ a id, is_Some (providers_of m a id) →
    is_Some (providers_of (foldl (λ m id, providers_without id m) (log_providers_store s) ids) a id)) →
  is_Some (providers_of m a id) →
  ∃ r, request_id_from id = Some r ∧ registered s r ∧ to_string_id r ∉ ids.
Proof.
  intros Hs Hm Hid%Hm. rewrite providers_of_without_all in Hid.
  case_decide as Hin; [by destruct Hid|].
  destruct (wf_provided s Hs _ _ Hid) as (r & Hr & Hreg). exists r. repeat split; [done..|].
  by destruct (request_id_from_Some _ _ Hr) as [-> _].
Qed.

Section preservation.
Context `{IterOrder}.

Lemma campaign_wf_remove_agent s a :
  campaign_wf s → campaign_wf (remove_agent_log_campaign_entry s a).2.
Proof.
  intros Hs. pose proof Hs as [Has Hws Hcs Ha Hw Hc Hp Hpr].
  unfold remove_agent_log_campaign_entry. simpl. rewrite remove_agent_loop.
  set (l := set_iter _). split; simpl;
    auto using set_map_wf_delete, set_map_wf_workload_deletes, providers_wf_delete,
      providers_wf_without_all.
  - intros a' r [? _]%elem_of_ids_of_delete. by apply Ha.
  - intros w r [[Hrw Hreg]%Hw Hl]%elem_of_workload_deletes. split; [done|].
    apply elem_of_ids_of_delete. split; [done|]. intros Heq. apply (Hl r); [|done].
    apply elem_of_set_iter. by rewrite <-Heq.
  - intros a' id Hid. eapply (provided_elsewhere s) in Hid as (r & Hr & Hreg & Hni); [|done|].
    2: { intros a0 id0. rewrite providers_of_delete. case_decide; [by intros []|done]. }
    exists r. split; [done|]. destruct r as [r|r]; simpl in *; [done|].
    apply elem_of_ids_of_delete. split; [done|]. intros Heq. apply Hni.
    apply list_elem_of_fmap. exists r. split; [done|]. apply elem_of_set_iter. by rewrite <-Heq.
Qed.

Lemma campaign_wf_remove_cli s c :
  campaign_wf s → campaign_wf (remove_cli_log_campaign_entry s c).2.
Proof.
  intros Hs. pose proof Hs as [Has Hws Hcs Ha Hw Hc Hp Hpr].
  unfold remove_cli_log_campaign_entry. simpl. rewrite remove_cli_loop.
  set (l := set_iter _). split; simpl;
    auto using set_map_wf_delete, providers_wf_without_all.
  - intros c' r [? _]%elem_of_ids_of_delete. by apply Hc.
  - intros a' id Hid. eapply (provided_elsewhere s) in Hid as (r & Hr & Hreg & Hni); [|done|].
    2: { intros a0 id0 Ha0. exact Ha0. }
    exists r. split; [done|]. destruct r as [r|r]; simpl in *; [|done].
    apply elem_of_ids_of_delete. split; [done|]. intros Heq. apply Hni.
    apply list_elem_of_fmap. exists r. split; [done|]. apply elem_of_set_iter. by rewrite <-Heq.
Qed.

Lemma campaign_wf_remove_request s id s' :
  campaign_wf s → remove_logs_request_id s id = Some s' → campaign_wf s'.
Proof.
  intros Hs. pose proof Hs as [Has Hws Hcs Ha Hw Hc Hp Hpr]. unfold remove_logs_request_id.
  destruct (request_id_from id) as [r|] eqn:Hid; simpl; [|done]. intros [= <-].
  assert (∀ a id', is_Some (providers_of (providers_without id (log_providers_store s)) a id') →
    ∃ r', request_id_from id' = Some r' ∧ registered s r' ∧ r' ≠ r) as Helse.
  { intros a id'. rewrite providers_of_without. case_decide as Hne; [by intros []|].
    intros (r' & Hr' & Hreg)%Hpr. exists r'. repeat split; [done..|]. intros ->.
    apply Hne. by eapply request_id_from_inj. }
  destruct r as [r|r]; split; simpl; auto using set_map_wf_remove, providers_wf_without.
  - intros c r' [? _]%elem_of_set_map_remove. by apply Hc.
  - intros a id' (r' & Hr' & Hreg & Hne)%Helse. exists r'. split; [done|].
    destruct r' as [r'|r']; simpl in *; [|done]. apply elem_of_set_map_remove. naive_solver.
  - intros a r' [? _]%elem_of_set_map_remove. by apply Ha.
  - intros w r' [[Hrw Hreg]%Hw Hne]%elem_of_set_map_remove. split; [done|].
    apply elem_of_set_map_remove. split; [done|]. naive_solver.
  - intros a id' (r' & Hr' & Hreg & Hne)%Helse. exists r'. split; [done|].
    destruct r' as [r'|r']; simpl in *; [done|]. apply elem_of_set_map_remove. naive_solver.
Qed.

Lemma campaign_wf_remove_collector s w :
  campaign_wf s → campaign_wf (remove_collector_campaign_entry s w).2.
Proof.
  intros Hs. pose proof Hs as [Has Hws Hcs Ha Hw Hc Hp Hpr].
  unfold remove_collector_campaign_entry. simpl. rewrite remove_collector_loop.
  set (l := set_iter _). split; simpl;
    auto using set_map_wf_delete, set_map_wf_agent_removes, providers_wf_without_all.
  - intros a r [? _]%elem_of_agent_removes. by apply Ha.
  - intros w' r [[Hrw Hreg]%Hw Hne]%elem_of_ids_of_delete. split; [done|].
    apply elem_of_agent_removes. split; [done|]. intros [Hl _].
    apply elem_of_set_iter, Hw in Hl as [Hl _]. naive_solver.
  - intros a' id Hid. eapply (provided_elsewhere s) in Hid as (r & Hr & Hreg & Hni); [|done|].
    2: { intros a0 id0 Ha0. exact Ha0. }
    exists r. split; [done|]. destruct r as [r|r]; simpl in *; [done|].
    apply elem_of_agent_removes. split; [done|]. intros [Hl _]. apply Hni.
    apply list_elem_of_fmap. by exists r.
Qed.
End preservation.

#[export] Hint Resolve campaign_wf_default campaign_wf_insert campaign_wf_remove_agent : wf.
#[export] Hint Resolve campaign_wf_remove_cli campaign_wf_remove_request : wf.
#[export] Hint Resolve campaign_wf_remove_collector : wf.

(** ** Properties *)

Inductive campaign_step `{IterOrder} : LogCampaignStore → LogCampaignStore → Prop :=
  | step_insert s id ns s' : insert_log_campaign s id ns = Some s' → campaign_step s s'
  | step_remove_agent s a : campaign_step s (remove_agent_log_campaign_entry s a).2
  | step_remove_cli s c : campaign_step s (remove_cli_log_campaign_entry s c).2
  | step_remove_request s id s' : remove_logs_request_id s id = Some s' → campaign_step s s'
  | step_remove_collector s w : campaign_step s (remove_collector_campaign_entry s w).2.

(** After any sequence of operations the four maps of the store agree:
    no empty entry is left behind, every request is stored under its own
    names, and every log provider belongs to a registered campaign. *)
Theorem campaign_store_wf `{IterOrder} s :
  rtc campaign_step log_campaign_store_default s → campaign_wf s.
Proof.
  cut (∀ s0, rtc campaign_step s0 s → campaign_wf s0 → campaign_wf s).
  { intros Hcut Hs. apply (Hcut _ Hs), campaign_wf_default. }
  intros s0 Hs. induction Hs as [|s0 s1 s2 Hstep _ IH]; [done|]. intros Hwf. apply IH.
  destruct Hstep; eauto with wf.
Qed.

(** When an agent disconnects, the ids of the campaigns its workloads had
    started are returned, these campaigns and the providers on the agent are
    forgotten, the providers on the agent for other campaigns are returned for the stop responses,
    and the providers of all other campaigns on other agents are kept. *)
Theorem remove_agent_log_campaign_entry_spec `{IterOrder} s agent :
  let '(removed, s') := remove_agent_log_campaign_entry s agent in
  (∀ id, id ∈ collector_requests removed ↔
    ∃ r, id = agent_request_id_to_string r ∧ r ∈ ids_of (agent_log_request_ids_store s) agent) ∧
  (∀ id names, (id, names) ∈ disconnected_log_providers removed ↔
    id ∉ collector_requests removed ∧
    providers_of (log_providers_store s) agent id = Some names) ∧
  (∀ a id, providers_of (log_providers_store s') a id =
    if decide (a = agent ∨ id ∈ collector_requests removed) then None
    else providers_of (log_providers_store s) a id) ∧
  (∀ a, ids_of (agent_log_request_ids_store s') a =
    if decide (a = agent) then ∅ else ids_of (agent_log_request_ids_store s) a) ∧
  cli_log_request_id_store s' = cli_log_request_id_store s.
Proof.
  unfold remove_agent_log_campaign_entry. rewrite remove_agent_loop. simpl.
  assert (∀ id, id ∈ to_string_ids agent_request_id_to_string
      (ids_of (agent_log_request_ids_store s) agent) ↔
    ∃ r, id = agent_request_id_to_string r ∧
      r ∈ ids_of (agent_log_request_ids_store s) agent) as Hids
    by (intros id; apply elem_of_map).
  split; [exact Hids|]. split; [|split; [|split; [|done]]].
  - intros id names. rewrite elem_of_map_iter, lookup_default_providers, providers_of_without_all.
    rewrite Hids. case_decide as Hin; rewrite list_elem_of_fmap in Hin;
      setoid_rewrite elem_of_set_iter in Hin; naive_solver.
  - intros a id. rewrite providers_of_delete, providers_of_without_all.
    destruct (decide (a = agent)) as [->|Ha]; [by rewrite decide_True by (by left)|].
    apply decide_ext. rewrite Hids, list_elem_of_fmap. setoid_rewrite elem_of_set_iter.
    naive_solver.
  - intros a. unfold ids_of at 1. case_decide as Ha; [subst a; by rewrite lookup_delete_eq|].
    by rewrite lookup_delete_ne.
Qed.

(** When a workload is deleted, all campaigns found under its name are
    returned for cancellation and forgotten, with all their providers, on
    every agent; the campaigns of other collectors keep their providers. *)
Theorem remove_collector_campaign_entry_spec `{IterOrder} s w :
  campaign_wf s →
  let '(removed, s') := remove_collector_campaign_entry s w in
  (∀ id, id ∈ removed ↔
    ∃ r, id = agent_request_id_to_string r ∧ r ∈ ids_of (workload_name_request_id_store s) w) ∧
  (∀ a id, providers_of (log_providers_store s') a id =
    if decide (id ∈ removed) then None else providers_of (log_providers_store s) a id) ∧
  (∀ r, registered s' r ↔ registered s r ∧ to_string_id r ∉ removed).
Proof.
  intros Hs. unfold remove_collector_campaign_entry. rewrite remove_collector_loop. simpl.
  assert (∀ id, id ∈ to_string_ids agent_request_id_to_string
      (ids_of (workload_name_request_id_store s) w) ↔
    ∃ r, id = agent_request_id_to_string r ∧
      r ∈ ids_of (workload_name_request_id_store s) w) as Hids
    by (intros id; apply elem_of_map).
  split; [exact Hids|]. split.
  - intros a id. rewrite providers_of_without_all. apply decide_ext.
    rewrite Hids, list_elem_of_fmap. setoid_rewrite elem_of_set_iter. done.
  - intros r. rewrite Hids. destruct r as [r|r]; simpl.
    + split; [|naive_solver]. intros Hr. split; [done|].
      intros (r' & Heq & [_ Hreg]%(wf_workload s Hs)).
      apply (wf_agent s Hs) in Hreg as [_ Hwf']. apply (wf_cli s Hs) in Hr as [_ Hwf].
      assert (Some (FromCli r) = Some (FromAgent r')); [|done].
      rewrite <-(request_id_from_to_string _ Hwf), <-(request_id_from_to_string _ Hwf').
      simpl. by rewrite Heq.
    + rewrite elem_of_agent_removes, elem_of_set_iter. split.
      * intros [Hr Hnot]. split; [done|]. intros (r' & Heq & Hin). apply Hnot.
        split; [|done]. replace r with r'; [done|].
        apply (wf_workload s Hs) in Hin as [_ Hreg].
        apply (wf_agent s Hs) in Hreg as [_ Hwf']. apply (wf_agent s Hs) in Hr as [_ Hwf].
        assert (Some (FromAgent r') = Some (FromAgent r)) as [= ->]; [|done].
        rewrite <-(request_id_from_to_string _ Hwf), <-(request_id_from_to_string _ Hwf').
        simpl. by rewrite Heq.
      * intros [Hr Hnot]. split; [done|]. intros [Hin _]. apply Hnot. by exists r.
Qed.

Definition example_store : LogCampaignStore :=
  default log_campaign_store_default
    (insert_log_campaign log_campaign_store_default "agent_A@collector@1"
      [{| workload_name := "web"; agent_name := "agent_B"; instance_id := "x" |}]).

Lemma example_store_reachable :
  insert_log_campaign log_campaign_store_default "agent_A@collector@1"
    [{| workload_name := "web"; agent_name := "agent_B"; instance_id := "x" |}]
  = Some example_store.
Proof. vm_compute. reflexivity. Qed.

Lemma campaign_store_wf_witness : campaign_wf example_store.
Proof.
  apply (@campaign_store_wf key_order). eapply rtc_once, step_insert, example_store_reachable.
Defined.

Lemma remove_collector_campaign_entry_spec_witness :
  "agent_A@collector@1" ∈ (@remove_collector_campaign_entry key_order example_store "collector").1.
Proof.
  pose proof (@remove_collector_campaign_entry_spec key_order example_store "collector"
    (campaign_wf_insert _ _ _ _ campaign_wf_default example_store_reachable)) as Hspec.
  destruct (remove_collector_campaign_entry example_store "collector") as [removed s'].
  destruct Hspec as [Hremoved _]. apply Hremoved.
  exists {| request_agent_name := "agent_A"; request_workload_name := "collector";
            agent_request_id := "1" |}.
  split; [reflexivity|]. vm_compute. reflexivity.
Defined.
