(* ===== verification/ConfigRenderer.v ===== *)
(** * Ankaios server: rendering of workload configurations

    [server/src/ankaios_server/config_renderer.rs] and
    [server/src/ankaios_server/rendered_workloads.rs]: the templates in the
    agent, runtime configuration and files of a workload are rendered with the
    configuration items the workload refers to.  The template engine is a
    library and a parameter of the model. *)

From stdpp Require Import base tactics gmap strings list.
From S2P Require Import Prelude Api Validation.

Inductive ConfigRenderError :=
  | Field (field reason : string)
  | NotExistingConfigKey (config_key : string).

Definition config_render_error_to_string (e : ConfigRenderError) : string :=
  match e with
  | Field field reason => "Failed to render field '" +:+ field +:+ "': '" +:+ reason +:+ "'"
  | NotExistingConfigKey config_key =>
    "Workload references config key '" +:+ config_key +:+ "' that does not exist"
  end.

Definition for_field (field reason : string) : ConfigRenderError := Field field reason.
Definition for_files (mount_point reason : string) : ConfigRenderError :=
  Field ("files with mount point " +:+ mount_point) reason.

Abbreviation ConfigMap := (gmap string ConfigItemSpec).
Abbreviation RenderedWorkloads := (gmap string WorkloadNamed).

(** The template engine: the rendered text or the message of its error. *)
Class TemplateEngine := render_template : string → ConfigMap → result string string.

Section rendering.
Context `{IterOrder} `{Sha256} `{TemplateEngine}.

Definition create_config_map_for_workload (w : WorkloadSpec) (configs : ConfigMap) :
    result ConfigRenderError ConfigMap :=
  try_traverse (λ config_alias config_key,
    match configs !! config_key with
    | Some config_value => Ok config_value
    | None => Err (NotExistingConfigKey config_key)
    end) (workload_configs w).

Definition render_file_content (mount_point : string) (wl_config_map : ConfigMap)
    (c : FileContentSpec) : result ConfigRenderError FileContentSpec :=
  match c with
  | Data data =>
    Data <$> map_err (for_files mount_point) (render_template data wl_config_map)
  | BinaryData binary_data =>
    BinaryData <$> map_err (for_files mount_point) (render_template binary_data wl_config_map)
  end.

Definition render_files_field (files : list FileSpec) (wl_config_map : ConfigMap) :
    result ConfigRenderError (list FileSpec) :=
  try_collect (λ f,
    content ← render_file_content (mount_point f) wl_config_map (file_content f);
    Ok {| mount_point := mount_point f; file_content := content |}) files.

Definition render_workload_fields (name : string) (w : WorkloadSpec)
    (wl_config_map : ConfigMap) : result ConfigRenderError WorkloadNamed :=
  rendered_runtime_config ←
    map_err (for_field "runtimeConfig") (render_template (runtime_config w) wl_config_map);
  rendered_agent_name ←
    map_err (for_field "agent") (render_template (agent w) wl_config_map);
  rendered_files ← render_files_field (workload_files w) wl_config_map;
  Ok {| instance_name :=
          build (with_config rendered_runtime_config
            (with_agent_name rendered_agent_name
              (with_workload_name name instance_name_builder)));
        workload :=
          {| agent := rendered_agent_name; runtime := runtime w;
             runtime_config := rendered_runtime_config; tags := tags w;
             dependencies := dependencies w; restart_policy := restart_policy w;
             workload_files := rendered_files; workload_configs := ∅;
             control_interface_access := control_interface_access w |} |}.

(** The body of the loop of [render_workloads]. *)
Definition render_workload (configs : ConfigMap) (name : string) (w : WorkloadSpec) :
    result ConfigRenderError WorkloadNamed :=
  if decide (workload_configs w = ∅) then Ok (workload_named_from name w)
  else
    wl_config_map ← create_config_map_for_workload w configs;
    render_workload_fields name w wl_config_map.

Definition render_workloads (ws : gmap string WorkloadSpec) (configs : ConfigMap) :
    result ConfigRenderError RenderedWorkloads :=
  try_traverse (render_workload configs) ws.

(** [RenderedWorkloads::validate]. *)
Definition validate (rendered : RenderedWorkloads) : result string () :=
  try_for_each validate_fields_format (map_iter rendered).*2.

(** ** Lemmas *)

Lemma render_workload_fields_ok name w cm wn :
  render_workload_fields name w cm = Ok wn →
  workload_name (instance_name wn) = name ∧
  agent_name (instance_name wn) = agent (workload wn) ∧
  instance_id (instance_name wn) = sha256_digest (runtime_config (workload wn)) ∧
  workload_configs (workload wn) = ∅.
Proof.
  unfold render_workload_fields.
  destruct (map_err _ (render_template (runtime_config w) cm)) as [rc|]; simpl; [|done].
  destruct (map_err _ (render_template (agent w) cm)) as [ag|]; simpl; [|done].
  destruct (render_files_field _ _) as [fs|]; simpl; [|done].
  by intros [= <-].
Qed.

Lemma render_workload_ok configs name w wn :
  render_workload configs name w = Ok wn →
  workload_name (instance_name wn) = name ∧
  agent_name (instance_name wn) = agent (workload wn) ∧
  instance_id (instance_name wn) = sha256_digest (runtime_config (workload wn)) ∧
  workload_configs (workload wn) = ∅ ∧
  dependencies (workload wn) = dependencies w ∧
  control_interface_access (workload wn) = control_interface_access w.
Proof.
  unfold render_workload. case_decide as Hc.
  - intros [= <-]. done.
  - destruct (create_config_map_for_workload w configs) as [cm|]; simpl; [|done].
    intros Hwn. pose proof (render_workload_fields_ok _ _ _ _ Hwn) as (? & ? & ? & ?).
    repeat split; try done; revert Hwn; unfold render_workload_fields;
      destruct (map_err _ (render_template (runtime_config w) cm)); simpl; try done;
      destruct (map_err _ (render_template (agent w) cm)); simpl; try done;
      destruct (render_files_field _ _); simpl; try done; by intros [= <-].
Qed.

Lemma validate_ok rendered :
  validate rendered = Ok () ↔
  ∀ name wn, rendered !! name = Some wn → validate_fields_format wn = Ok ().
Proof.
  unfold validate. rewrite try_for_each_ok. split.
  - intros Hall name wn Hwn. apply Hall, list_elem_of_fmap. exists (name, wn).
    by rewrite elem_of_map_iter.
  - intros Hall wn ([name ?] & -> & Hwn)%list_elem_of_fmap.
    apply elem_of_map_iter in Hwn. by eapply Hall.
Qed.
End rendering.

(** ** Properties *)

(** Rendering a state succeeds exactly if rendering each workload does,
    and then every rendered workload is stored under its own name, is assigned
    to the agent its instance name says, has the hash of its rendered runtime
    configuration as id, holds no configuration references any more, and keeps
    its dependencies and access rules. *)
Theorem render_workloads_spec `{IterOrder, Sha256, TemplateEngine} ws configs rendered :
  render_workloads ws configs = Ok rendered →
  dom rendered = dom ws ∧
  ∀ name wn, rendered !! name = Some wn →
    ∃ w, ws !! name = Some w ∧ render_workload configs name w = Ok wn ∧
      workload_name (instance_name wn) = name ∧
      agent_name (instance_name wn) = agent (workload wn) ∧
      instance_id (instance_name wn) = sha256_digest (runtime_config (workload wn)) ∧
      workload_configs (workload wn) = ∅ ∧
      dependencies (workload wn) = dependencies w ∧
      control_interface_access (workload wn) = control_interface_access w.
Proof.
  unfold render_workloads. rewrite try_traverse_ok. intros Hall. split.
  - apply set_eq. intros name. rewrite !elem_of_dom. specialize (Hall name).
    destruct (ws !! name); [|by rewrite Hall].
    destruct Hall as (wn & _ & ->). split; by eexists.
  - intros name wn Hwn. specialize (Hall name). rewrite Hwn in Hall.
    destruct (ws !! name) as [w|]; [|done]. destruct Hall as (wn' & Hr & [= <-]).
    exists w. split; [done|]. split; [done|]. by apply render_workload_ok in Hr.
Qed.

(** The only errors of rendering are references to configuration items
    that do not exist and errors of the template engine, and a state where no
    reference dangles and all templates render is accepted. *)
Theorem render_workloads_total `{IterOrder, Sha256, TemplateEngine} ws configs :
  (∀ name w alias key, ws !! name = Some w → workload_configs w !! alias = Some key →
    is_Some (configs !! key)) →
  (∀ template cm, is_ok (render_template template cm) = true) →
  is_ok (render_workloads ws configs) = true.
Proof.
  intros Hkeys Htemplates. apply try_traverse_is_ok. intros name w Hw.
  unfold render_workload. case_decide; [done|].
  destruct (create_config_map_for_workload w configs) as [cm|e] eqn:Hcm; simpl.
  - unfold render_workload_fields.
    pose proof (Htemplates (runtime_config w) cm). pose proof (Htemplates (agent w) cm).
    destruct (render_template (runtime_config w) cm); simpl; [|done].
    destruct (render_template (agent w) cm); simpl; [|done].
    assert (is_ok (render_files_field (workload_files w) cm) = true) as [fs ->]%is_ok_true; [|done].
    apply try_collect_is_ok. intros f _. unfold render_file_content.
    destruct (file_content f) as [t|t]; pose proof (Htemplates t cm);
      by destruct (render_template t cm).
  - exfalso. unfold create_config_map_for_workload in Hcm.
    apply try_traverse_err in Hcm as (alias & key & Hkey & He).
    destruct (Hkeys _ _ _ _ Hw Hkey) as [v Hv]. by rewrite Hv in He.
Qed.

(** The internal error of the field validation, a mismatch between the
    agent of the instance name and of the workload, cannot occur for rendered
    workloads: a rendered state is valid exactly if its names, agent names and
    access rules are. *)
Theorem rendered_workloads_valid `{IterOrder, Sha256, TemplateEngine} ws configs rendered :
  render_workloads ws configs = Ok rendered →
  validate rendered = Ok () ↔
  ∀ name wn, rendered !! name = Some wn →
    valid_name name ∧ str_forall allowed_char (agent (workload wn)) = true ∧
    ∀ rule, rule ∈ allow_rules (control_interface_access (workload wn)) ++
                   deny_rules (control_interface_access (workload wn)) → valid_rule rule.
Proof.
  unfold render_workloads. rewrite try_traverse_ok, validate_ok. intros Hall.
  apply forall_proper. intros name. apply forall_proper. intros wn.
  split; intros Hv Hwn; specialize (Hv Hwn); specialize (Hall name); rewrite Hwn in Hall;
    (destruct (ws !! name) as [w|]; [|done]); destruct Hall as (wn' & Hr & [= <-]);
    apply render_workload_ok in Hr as (Hname & Hagent & _);
    rewrite ?validate_fields_format_ok, ?Hname in *; naive_solver.
Qed.

(** An engine that substitutes nothing, and a digest, to evaluate examples. *)
Definition plain_engine : TemplateEngine := λ template _, Ok template.
Definition example_sha : Sha256 := λ s, s.
Definition example_workloads : gmap string WorkloadSpec :=
  {["web" := set_dependencies workload_default {["db" := AddCondRunning]}]}.
Definition example_rendered : RenderedWorkloads :=
  match @render_workloads key_order example_sha plain_engine example_workloads ∅ with
  | Ok rendered => rendered
  | Err _ => ∅
  end.

Lemma example_rendered_ok :
  @render_workloads key_order example_sha plain_engine example_workloads ∅ = Ok example_rendered.
Proof. vm_compute. reflexivity. Qed.

Lemma render_workloads_spec_witness : dom example_rendered = dom example_workloads.
Proof.
  apply (@render_workloads_spec key_order example_sha plain_engine _ ∅).
  apply example_rendered_ok.
Defined.

Lemma render_workloads_total_witness :
  is_ok (@render_workloads key_order example_sha plain_engine example_workloads ∅) = true.
Proof.
  apply (@render_workloads_total key_order example_sha plain_engine); [|done].
  intros name w alias key Hw Hkey. unfold example_workloads in Hw.
  apply lookup_singleton_Some in Hw as [<- <-]. simpl in Hkey.
  by rewrite lookup_empty in Hkey.
Defined.

Lemma rendered_workloads_valid_witness :
  @validate key_order example_rendered = Ok () ↔
  ∀ name wn, example_rendered !! name = Some wn →
    valid_name name ∧ str_forall allowed_char (agent (workload wn)) = true ∧
    ∀ rule, rule ∈ allow_rules (control_interface_access (workload wn)) ++
                   deny_rules (control_interface_access (workload wn)) → valid_rule rule.
Proof.
  apply (@rendered_workloads_valid key_order example_sha plain_engine example_workloads ∅).
  apply example_rendered_ok.
Defined.
