(* ===== verification/StateManipulation.v ===== *)
(** * Ankaios common: paths and objects

    [common/src/state_manipulation/path.rs] and
    [common/src/state_manipulation/object.rs]: reading, writing, removing and
    expanding field masks in a state that was converted to a YAML value.

    [serde_yaml] is a library: the data type of its values is its documented
    enum, the operations of its mappings are a parameter with the laws of a
    map.  [assoc_mapping] is one implementation of them. *)

From Stdlib Require Import Ascii.
From stdpp Require Import base tactics gmap strings list pretty.
From S2P Require Import Prelude Api Validation.

(** ** YAML values *)

Inductive YamlNumber :=
  | Int (z : Z)
  | Float (repr : string).

#[local] Unset Elimination Schemes.
Inductive Value :=
  | Null
  | VBool (b : bool)
  | VNumber (n : YamlNumber)
  | VString (s : string)
  | VSequence (l : list Value)
  | VMapping (m : list (Value * Value))
  | VTagged (tag : string) (v : Value).
#[local] Set Elimination Schemes.

Abbreviation Mapping := (list (Value * Value)).

#[export] Instance YamlNumber_eq_dec : EqDecision YamlNumber.
Proof. solve_decision. Defined.

Fixpoint value_eq_dec (v w : Value) {struct v} : {v = w} + {v ≠ w}.
Proof.
  refine (
    match v, w with
    | Null, Null => left eq_refl
    | VBool b, VBool b' => cast_if (decide (b = b'))
    | VNumber n, VNumber n' => cast_if (decide (n = n'))
    | VString s, VString s' => cast_if (decide (s = s'))
    | VSequence l, VSequence l' => cast_if (@list_eq_dec Value value_eq_dec l l')
    | VMapping m, VMapping m' =>
      cast_if (@list_eq_dec _ (@prod_eq_dec Value value_eq_dec Value value_eq_dec) m m')
    | VTagged t v, VTagged t' v' => cast_if_and (decide (t = t')) (value_eq_dec v v')
    | _, _ => right _
    end); clear value_eq_dec; abstract congruence.
Defined.
#[export] Instance Value_eq_dec : EqDecision Value := value_eq_dec.

(** The accessors of [serde_yaml::Value] look through tags. *)
Fixpoint untag (v : Value) : Value := match v with VTagged _ v => untag v | v => v end.

Definition as_str (v : Value) : option string :=
  match untag v with VString s => Some s | _ => None end.
Definition as_sequence (v : Value) : option (list Value) :=
  match untag v with VSequence l => Some l | _ => None end.
Definition is_mapping (v : Value) : bool :=
  match untag v with VMapping _ => true | _ => false end.
Definition is_sequence (v : Value) : bool :=
  match untag v with VSequence _ => true | _ => false end.

(** ** Mappings *)

Class YamlMapping := {
  mapping_get : Mapping → Value → option Value;
  mapping_insert : Value → Value → Mapping → Mapping;
  mapping_remove : Value → Mapping → Mapping;
  (** [Value::get] with a string index. *)
  value_get : Value → string → option Value;
  (** [Value]'s [PartialEq], which ignores the order of mappings. *)
  value_eqb : Value → Value → bool;
  value_debug : Value → string;
  path_debug : list string → string;
  mapping_get_nil k : mapping_get [] k = None;
  mapping_get_insert m k v k' :
    mapping_get (mapping_insert k v m) k' = if decide (k' = k) then Some v else mapping_get m k';
  mapping_get_remove m k k' :
    mapping_get (mapping_remove k m) k' = if decide (k' = k) then None else mapping_get m k';
  mapping_get_entry m k v : NoDup m.*1 → mapping_get m k = Some v ↔ (k, v) ∈ m;
  mapping_insert_NoDup m k v : NoDup m.*1 → NoDup (mapping_insert k v m).*1;
  mapping_remove_NoDup m k : NoDup m.*1 → NoDup (mapping_remove k m).*1;
  value_get_mapping m s : value_get (VMapping m) s = mapping_get m (VString s);
  value_get_scalar v s :
    match v with VMapping _ | VTagged _ _ => True | _ => value_get v s = None end;
  value_eqb_refl v : value_eqb v v = true
}.

(** ** Paths *)

Abbreviation Path := (list string).
Definition PATH_SEPARATOR : ascii := ".".

Definition split_last (path : Path) : result string (Path * string) :=
  match last path with
  | Some l => Ok (removelast path, l)
  | None => Err "The given path is empty"
  end.

Definition path_from (value : string) : Path :=
  if str_is_empty value then [] else split_on PATH_SEPARATOR value.
Definition path_to_string (p : Path) : string := join "." p.

(** [p.parse::<usize>()] on a 64-bit machine: an optional plus sign and digits. *)
Fixpoint parse_digits (acc : N) (s : string) : option N :=
  match s with
  | EmptyString => Some acc
  | String a s =>
    if in_range a "0" "9" then
      parse_digits (10 * acc + N.of_nat (nat_of_ascii a - nat_of_ascii "0")) s
    else None
  end.
Definition parse_usize (s : string) : option N :=
  let digits := match s with String "+"%char s => s | _ => s end in
  if str_is_empty digits then None
  else n ← parse_digits 0 digits; if (n <? 2 ^ 64)%N then Some n else None.

(** An entry of the work list: the path so far, its value and the rest of the mask. *)
Abbreviation todo := (list string * Value * list string)%type.

Section object.
Context `{YamlMapping}.

(** ** Objects: the data of an [Object] is its root value *)

Definition object_default : Value := VMapping [].

Definition as_mapping (v : Value) : option Mapping :=
  match v with VMapping m => Some m | _ => None end.

(** [None] is the panic of [unwrap_or_unreachable] on a root that is no mapping. *)
Definition is_empty (root : Value) : option bool :=
  (λ m, match m with [] => true | _ => false end) <$> as_mapping root.

(** The loop of [set] over the head of the path, then the final insertion. *)
Fixpoint set_in (m : Mapping) (path_head : list string) (path_last : string) (value : Value) :
    result string Mapping :=
  match path_head with
  | [] => Ok (mapping_insert (VString path_last) value m)
  | path_part :: path_head =>
    match default (VMapping []) (mapping_get m (VString path_part)) with
    | VMapping next =>
      next ← set_in next path_head path_last value;
      Ok (mapping_insert (VString path_part) (VMapping next) m)
    | _ => Err "object is not a mapping"
    end
  end.

Definition object_set (root : Value) (path : Path) (value : Value) : result string Value :=
  '(path_head, path_last) ← split_last path;
  match root with
  | VMapping m => VMapping <$> set_in m path_head path_last value
  | _ => Err "The root of the object is not a mapping"
  end.

Fixpoint object_get (v : Value) (path : Path) : option Value :=
  match path with
  | [] => Some v
  | p :: path =>
    match v with
    | VMapping m => next ← mapping_get m (VString p); object_get next path
    | VSequence l =>
      index ← parse_usize p;
      if (index <? N.of_nat (length l))%N then
        next ← l !! N.to_nat index; object_get next path
      else None
    | _ => None
    end
  end.

(** [get_as_mapping_mut(path_head)], then removal of [path_last] in the mapping
    it points to: the new value and the removed one, [None] if there is no mapping. *)
Fixpoint remove_in (v : Value) (path_head : list string) (path_last : string) :
    option (Value * option Value) :=
  match v, path_head with
  | VMapping m, [] =>
    Some (VMapping (mapping_remove (VString path_last) m), mapping_get m (VString path_last))
  | VMapping m, p :: path_head =>
    next ← mapping_get m (VString p);
    '(next, removed) ← remove_in next path_head path_last;
    Some (VMapping (mapping_insert (VString p) next m), removed)
  | _, _ => None
  end.

Definition object_remove (root : Value) (path : Path) : result string (Value * option Value) :=
  '(path_head, path_last) ← split_last path;
  match remove_in root path_head path_last with
  | Some res => Ok res
  | None => Err (path_debug path_head +:+ " is not mapping")
  end.

Definition check_if_provided_path_exists (root : Value) (path : Path) : bool :=
  match object_get root path with Some _ => true | None => false end.

(** *** Wildcards *)

(** A key of a mapping as a path part. *)
Definition key_part (key : Value) : option string :=
  match key with
  | VString s => Some s
  | VNumber (Int z) => Some (pretty z)
  | _ => None
  end.

Definition mapping_parts (m : Mapping) : list (string * Value) :=
  omap (λ '(key, value), k ← key_part key; Some (k, value)) m.

(** The inner loop: the complete path, or the entries it pushes to the front
    of the work list, the last one first. *)
Fixpoint walk (current_prefix : list string) (current_value : Value) (remaining : list string) :
    option (list string) * list todo :=
  match remaining with
  | [] => (Some current_prefix, [])
  | path_element :: remaining =>
    if String.eqb path_element WILDCARD_SYMBOL then
      match current_value with
      | VMapping m =>
        (None, reverse ((λ '(k, v), (current_prefix ++ [k], v, remaining)) <$> mapping_parts m))
      | _ => (None, [])
      end
    else
      match value_get current_value path_element with
      | Some next => walk (current_prefix ++ [path_element]) next remaining
      | None => (None, [])
      end
  end.

(** The outer loop; [None] is running out of fuel. *)
Fixpoint expand_loop (fuel : nat) (to_do : list todo) (found : list (list string)) :
    option (list (list string)) :=
  match to_do with
  | [] => Some found
  | (prefix, v, remaining) :: to_do =>
    match fuel with
    | 0 => None
    | S fuel =>
      let '(res, new) := walk prefix v remaining in
      expand_loop fuel (new ++ to_do) (found ++ match res with Some p => [p] | None => [] end)
    end
  end.

Definition expand_todo (root : Value) (paths : list Path) : list todo :=
  (λ p, ([], root, p)) <$> paths.

(** The number of iterations an entry causes. *)
Fixpoint todo_size (v : Value) (remaining : list string) : nat :=
  match remaining with
  | [] => 1
  | path_element :: remaining =>
    if String.eqb path_element WILDCARD_SYMBOL then
      match v with
      | VMapping m => S (sum_list_with (λ kv, todo_size kv.2 remaining) (mapping_parts m))
      | _ => 1
      end
    else
      match value_get v path_element with
      | Some next => todo_size next remaining
      | None => 1
      end
  end.

Definition expand_wildcards (root : Value) (paths : list Path) : option (list Path) :=
  expand_loop (sum_list_with (todo_size root) paths) (expand_todo root paths) [].

(** *** All paths of a value *)

Definition new_path (start_path key : string) : string :=
  if str_is_empty start_path then key else start_path +:+ "." +:+ key.

Definition path_key (key : Value) : result string string :=
  match key with
  | VString key_str =>
    _ ← map_err (λ e, "Invalid mapping key '" +:+ key_str +:+ "': " +:+ e)
          (validate_field_pattern key_str);
    Ok key_str
  | VNumber (Int key_number) => Ok (pretty key_number)
  | _ => Err ("Unsupported mapping key '" +:+ value_debug key +:+ "'")
  end.

Fixpoint generate_paths_from_yaml_node (node : Value) (start_path : string) (paths : gset string)
    (includes_mappings_and_sequences : bool) {struct node} : result string (gset string) :=
  match node with
  | VMapping m =>
    (fix entries (l : list (Value * Value)) (paths : gset string) :=
      match l with
      | [] => Ok paths
      | (key, value) :: l =>
        key_str ← path_key key;
        let path := new_path start_path key_str in
        let paths := if includes_mappings_and_sequences then {[path]} ∪ paths else paths in
        paths ← generate_paths_from_yaml_node value path paths includes_mappings_and_sequences;
        entries l paths
      end) m paths
  | VSequence l =>
    (fix elems (l : list Value) (index : nat) (paths : gset string) :=
      match l with
      | [] => Ok paths
      | value :: l =>
        let path := start_path +:+ "." +:+ pretty index in
        let paths := if includes_mappings_and_sequences then {[path]} ∪ paths else paths in
        paths ← generate_paths_from_yaml_node value path paths includes_mappings_and_sequences;
        elems l (S index) paths
      end) l 0 paths
  | _ => Ok ({[start_path]} ∪ paths)
  end.

Definition get_paths_from_yaml_node `{IterOrder} (node : Value)
    (includes_mappings_and_sequences : bool) : result string (list Path) :=
  yaml_node_paths ← generate_paths_from_yaml_node node "" ∅ includes_mappings_and_sequences;
  Ok (path_from <$> set_iter yaml_node_paths).
End object.

(** ** Lemmas *)

Lemma split_last_ok (p : Path) h l : split_last p = Ok (h, l) ↔ p = h ++ [l].
Proof.
  unfold split_last. split.
  - destruct p as [|x p _] using rev_ind; [done|].
    rewrite last_snoc, removelast_last. by intros [= <- <-].
  - intros ->. by rewrite last_snoc, removelast_last.
Qed.

Lemma mapping_or_not v : (∃ m, v = VMapping m) ∨ ¬ ∃ m, v = VMapping m.
Proof. destruct v; try (right; by intros [? ?]). left. by eexists. Qed.

Lemma split_last_nil : split_last [] = Err "The given path is empty".
Proof. done. Qed.

Section object_lemmas.
Context `{YamlMapping}.

Lemma object_get_mapping m p path :
  object_get (VMapping m) (p :: path) =
  mapping_get m (VString p) ≫= λ next, object_get next path.
Proof. done. Qed.

Lemma object_get_app v p q :
  object_get v (p ++ q) = object_get v p ≫= λ w, object_get w q.
Proof.
  revert v. induction p as [|x p IH]; intros v; [done|]. simpl.
  destruct v as [| | | |l|m|]; try done.
  - destruct (parse_usize x) as [n|]; simpl; [|done].
    destruct (n <? N.of_nat (length l))%N; [|done].
    destruct (l !! N.to_nat n); simpl; [apply IH|done].
  - destruct (mapping_get m (VString x)); simpl; [apply IH|done].
Qed.

Lemma set_in_get m h l v m' :
  set_in m h l v = Ok m' → object_get (VMapping m') (h ++ [l]) = Some v.
Proof.
  revert m m'. induction h as [|p h IH]; intros m m'.
  - intros [= <-]. simpl. by rewrite mapping_get_insert, decide_True.
  - cbn [set_in]. destruct (default _ _) as [| | | | |next|]; try done.
    destruct (set_in next h l v) as [next'|] eqn:Hnext; [|done]. intros [= <-].
    cbn [app]. rewrite object_get_mapping, mapping_get_insert, decide_True by done.
    by apply (IH next).
Qed.

Lemma set_in_get_other m h l v m' q :
  set_in m h l v = Ok m' → ¬ (h ++ [l]) `prefix_of` q → ¬ q `prefix_of` (h ++ [l]) →
  object_get (VMapping m') q = object_get (VMapping m) q.
Proof.
  revert m m' q. induction h as [|p h IH]; intros m m' [|x q]; try (by destruct 3; apply prefix_nil).
  - intros [= <-] Hpq _. rewrite !object_get_mapping, mapping_get_insert.
    case_decide as Hx; [|done]. injection Hx as ->. destruct Hpq.
    apply prefix_cons, prefix_nil.
  - cbn [set_in app]. destruct (default _ _) as [| | | | |next|] eqn:Hdef; try done.
    destruct (set_in next h l v) as [next'|] eqn:Hnext; [|done]. intros [= <-] Hpq Hqp.
    rewrite !object_get_mapping, mapping_get_insert. case_decide as Hx; [|done].
    injection Hx as ->. simpl.
    rewrite (IH next next' q Hnext) by eauto using prefix_cons.
    destruct (mapping_get m (VString p)) as [w|]; simpl in *; subst; [done|].
    injection Hdef as <-. destruct q as [|x q]; simpl.
    + destruct Hqp. apply prefix_cons, prefix_nil.
    + by rewrite mapping_get_nil.
Qed.

Lemma set_in_ok m h l v :
  is_ok (set_in m h l v) = true ↔
  ∀ q x, q ≠ [] → q `prefix_of` h → object_get (VMapping m) q = Some x → ∃ m', x = VMapping m'.
Proof.
  revert m. induction h as [|p h IH]; intros m; cbn [set_in].
  - split; [|done]. intros _ q x Hne ->%prefix_nil_inv. done.
  - destruct (mapping_get m (VString p)) as [w|] eqn:Hw; simpl.
    + destruct (mapping_or_not w) as [[next ->]|Hnot].
      * assert (is_ok (set_in next h l v ≫= λ next, Ok (mapping_insert (VString p) (VMapping next) m))
                = is_ok (set_in next h l v)) as -> by (by destruct (set_in next h l v)).
        rewrite IH. split.
        -- intros Hall [|y q] x Hne Hq; [done|].
           pose proof (prefix_cons_inv_1 _ _ _ _ Hq) as ->. apply prefix_cons_inv_2 in Hq.
           rewrite object_get_mapping, Hw. simpl. destruct q as [|z q].
           { intros [= <-]. by eexists. }
           intros Hx. by apply (Hall (z :: q)).
        -- intros Hall q x Hne Hq Hx. apply (Hall (p :: q) x); [done|by apply prefix_cons|].
           by rewrite object_get_mapping, Hw.
      * split; [destruct w; try done; destruct Hnot; by eexists|].
        intros Hall. destruct Hnot. apply (Hall [p] w); [done| |].
        -- apply prefix_cons, prefix_nil.
        -- by rewrite object_get_mapping, Hw.
    + assert (is_ok (set_in [] h l v ≫= λ next, Ok (mapping_insert (VString p) (VMapping next) m))
              = true) as Hok.
      { assert (is_ok (set_in [] h l v) = true) as Hok;
          [|by destruct (set_in [] h l v)].
        apply IH. intros [|x q] y Hne _; [done|]. rewrite object_get_mapping.
        by rewrite mapping_get_nil. }
      split; [|done]. intros _ [|y q] x Hne Hq; [done|].
      pose proof (prefix_cons_inv_1 _ _ _ _ Hq) as ->. by rewrite object_get_mapping, Hw.
Qed.

Lemma remove_in_get v h l v' removed :
  remove_in v h l = Some (v', removed) →
  object_get v' (h ++ [l]) = None ∧ object_get v (h ++ [l]) = removed ∧
  ∀ q, ¬ (h ++ [l]) `prefix_of` q → ¬ q `prefix_of` (h ++ [l]) → object_get v' q = object_get v q.
Proof.
  revert v v'. induction h as [|p h IH]; intros v v'; destruct v as [| | | | |m|]; try done.
  - intros [= <- <-]. cbn [app]. rewrite !object_get_mapping, mapping_get_remove.
    rewrite decide_True by done. split; [done|]. split; [by destruct (mapping_get _ _)|].
    intros [|x q] Hpq Hqp; [destruct Hqp; apply prefix_nil|].
    rewrite !object_get_mapping, mapping_get_remove. case_decide as Hx; [|done].
    injection Hx as ->. destruct Hpq. apply prefix_cons, prefix_nil.
  - cbn [remove_in app]. destruct (mapping_get m (VString p)) as [next|] eqn:Hp; simpl; [|done].
    destruct (remove_in next h l) as [[next' r]|] eqn:Hnext; simpl; [|done].
    intros [= <- <-]. destruct (IH _ _ Hnext) as (Hnone & Hold & Hother).
    rewrite mapping_get_insert, decide_True, Hp by done. split; [done|].
    split; [done|]. intros [|x q] Hpq Hqp; [destruct Hqp; apply prefix_nil|].
    rewrite !object_get_mapping, mapping_get_insert. case_decide as Hx; [|done].
    injection Hx as ->. rewrite Hp. simpl. apply Hother; eauto using prefix_cons.
Qed.

(** *** Expansion of wildcards *)

(** The paths that [v] has for the mask [remaining], in the order of the work list. *)
Fixpoint expansions (v : Value) (remaining : list string) : list (list string) :=
  match remaining with
  | [] => [[]]
  | path_element :: remaining =>
    if String.eqb path_element WILDCARD_SYMBOL then
      match v with
      | VMapping m =>
        reverse (mapping_parts m) ≫= λ kv, cons kv.1 <$> expansions kv.2 remaining
      | _ => []
      end
    else
      match value_get v path_element with
      | Some next => cons path_element <$> expansions next remaining
      | None => []
      end
  end.

Definition todo_result (t : todo) : list (list string) :=
  let '(prefix, v, remaining) := t in app prefix <$> expansions v remaining.
Definition todo_work (t : todo) : nat := todo_size t.1.2 t.2.

Lemma todo_size_pos v r : 0 < todo_size v r.
Proof.
  revert v. induction r as [|e r IH]; intros v; simpl; [lia|].
  destruct (String.eqb e WILDCARD_SYMBOL); [destruct v; lia|].
  destruct (value_get v e); [apply IH|lia].
Qed.

Lemma app_cons_expansions (prefix : list string) k (l : list (list string)) :
  app prefix <$> (cons k <$> l) = app (prefix ++ [k]) <$> l.
Proof.
  rewrite <-list_fmap_compose. apply list_fmap_ext. intros i x _. simpl.
  by rewrite <-app_assoc.
Qed.

Lemma walk_spec prefix v r :
  let '(res, new) := walk prefix v r in
  match res with Some p => [p] | None => [] end ++ (new ≫= todo_result) =
    todo_result (prefix, v, r) ∧
  sum_list_with todo_work new < todo_size v r.
Proof.
  revert prefix v. induction r as [|e r IH]; intros prefix v; simpl.
  - rewrite app_nil_r. split; [done|lia].
  - destruct (String.eqb e WILDCARD_SYMBOL) eqn:He.
    + destruct v as [| | | | |m|]; simpl; try (split; [done|lia]).
      rewrite <-fmap_reverse. split.
      * induction (reverse (mapping_parts m)) as [|[k v] l IHl]; csimpl; [done|].
        rewrite fmap_app, app_cons_expansions. by f_equal.
      * rewrite fmap_reverse, sum_list_with_reverse.
        induction (mapping_parts m) as [|[k v] l IHl]; csimpl; [lia|].
        unfold todo_work at 1. csimpl. lia.
    + destruct (value_get v e) as [next|]; simpl; [|split; [done|lia]].
      specialize (IH (prefix ++ [e]) next). destruct (walk _ _ _) as [res new].
      destruct IH as [IH1 IH2]. split; [|done]. rewrite IH1. simpl.
      by rewrite app_cons_expansions.
Qed.

Lemma expand_loop_spec fuel to_do found :
  sum_list_with todo_work to_do ≤ fuel →
  expand_loop fuel to_do found = Some (found ++ (to_do ≫= todo_result)).
Proof.
  revert to_do found. induction fuel as [|fuel IH]; intros [|[[prefix v] r] to_do] found Hfuel;
    simpl; try (by rewrite app_nil_r).
  - simpl in Hfuel. unfold todo_work in Hfuel at 1. simpl in Hfuel.
    pose proof (todo_size_pos v r). lia.
  - pose proof (walk_spec prefix v r) as Hwalk. destruct (walk prefix v r) as [res new].
    destruct Hwalk as [Heq Hlt]. simpl in Hfuel. unfold todo_work in Hfuel at 1. simpl in Hfuel.
    rewrite IH by (rewrite sum_list_with_app; lia).
    f_equal. rewrite <-app_assoc. f_equal. rewrite bind_app, app_assoc, Heq. done.
Qed.

(** The value a path of mapping keys leads to. *)
Fixpoint value_at (v : Value) (path : list string) : option Value :=
  match path with
  | [] => Some v
  | p :: path => next ← value_get v p; value_at next path
  end.

(** A mask matches a path of the same length; a wildcard matches any part. *)
Definition mask_matches (mask p : list string) : Prop :=
  Forall2 (λ m x, m = WILDCARD_SYMBOL ∨ m = x) mask p.

(** Values whose mappings have distinct string keys, as converted states have. *)
Inductive value_wf : Value → Prop :=
  | wf_mapping m :
    NoDup m.*1 → (∀ k v, (k, v) ∈ m → (∃ s, k = VString s) ∧ value_wf v) → value_wf (VMapping m)
  | wf_other v :
    match v with VMapping _ | VTagged _ _ => False | _ => True end → value_wf v.

Lemma elem_of_mapping_parts m s v :
  value_wf (VMapping m) → (s, v) ∈ mapping_parts m ↔ mapping_get m (VString s) = Some v.
Proof.
  inversion 1 as [m' Hnd Hkeys|v' Hfalse]; subst; [|done].
  rewrite mapping_get_entry by done. unfold mapping_parts. rewrite list_elem_of_omap. split.
  - intros ([key value] & Hin & Hkey). destruct (Hkeys _ _ Hin) as [[s' ->] _].
    simpl in Hkey. by injection Hkey as <- <-.
  - intros Hin. exists (VString s, v). done.
Qed.

Lemma value_wf_get v s next : value_wf v → value_get v s = Some next → value_wf next ∧
  ∃ m, v = VMapping m ∧ mapping_get m (VString s) = Some next.
Proof.
  inversion 1 as [m Hnd Hkeys|v' Hother]; subst.
  - rewrite value_get_mapping. intros Hs. split; [|eauto].
    apply (Hkeys (VString s)). by apply mapping_get_entry.
  - intros Hs. pose proof (value_get_scalar v s). destruct v; try done; congruence.
Qed.

Lemma elem_of_expansions v mask p :
  value_wf v → p ∈ expansions v mask ↔ mask_matches mask p ∧ is_Some (value_at v p).
Proof.
  unfold mask_matches. revert v p. induction mask as [|e mask IH]; intros v p Hv; simpl.
  - rewrite list_elem_of_singleton. split.
    + intros ->. split; [constructor|by eexists].
    + intros [Hp _]. by inversion Hp.
  - destruct (String.eqb_spec e WILDCARD_SYMBOL) as [->|He].
    + destruct (mapping_or_not v) as [[m ->]|Hnm].
      2: { split.
           - destruct v; try (by intros ?%elem_of_nil). destruct Hnm. by eexists.
           - intros [Hp [w Hw]]. inversion Hp as [|? x ? p' _ _]; subst. simpl in Hw.
             destruct (value_get v x) as [next|] eqn:Hnext; [|done].
             apply value_wf_get in Hnext as (_ & m & -> & _); [|done].
             destruct Hnm. by eexists. }
      rewrite list_elem_of_bind. setoid_rewrite elem_of_reverse.
      setoid_rewrite list_elem_of_fmap. split.
      * intros ([k w] & (p' & -> & Hp') & Hk). simpl in *.
        apply elem_of_mapping_parts in Hk; [|done]. rewrite value_get_mapping, Hk. simpl.
        assert (value_wf w) as Hw.
        { eapply (value_wf_get (VMapping m) k); [done|]. by rewrite value_get_mapping. }
        apply IH in Hp' as [Hm Hsome]; [|done]. split; [constructor; [by left|done]|done].
      * intros [Hp [w Hw]]. inversion Hp as [|? x ? p' _ Hm]; subst. simpl in Hw.
        destruct (value_get (VMapping m) x) as [next|] eqn:Hnext; [|done].
        apply value_wf_get in Hnext as (Hnwf & ? & [= <-] & Hnext); [|done].
        exists (x, next). split; [|by apply elem_of_mapping_parts]. exists p'. split; [done|].
        apply IH; [done|]. split; [done|by eexists].
    + destruct (value_get v e) as [next|] eqn:Hnext.
      * rewrite list_elem_of_fmap. apply value_wf_get in Hnext as Hwf; [|done].
        destruct Hwf as [Hwf _]. split.
        -- intros (p' & -> & [Hm Hs]%IH); [|done]. split; [by constructor; [right|]|].
           simpl. by rewrite Hnext.
        -- intros [Hp Hs]. inversion Hp as [|? x ? p' [?|<-] Hm]; subst; [done|].
           exists p'. split; [done|]. apply IH; [done|]. split; [done|].
           simpl in Hs. by rewrite Hnext in Hs.
      * split; [by intros ?%elem_of_nil|]. intros [Hp [w Hw]].
        inversion Hp as [|? x ? p' [?|<-] Hm]; subst; [done|].
        simpl in Hw. by rewrite Hnext in Hw.
Qed.

Lemma value_at_object_get v p w :
  value_wf v → value_at v p = Some w → object_get v p = Some w.
Proof.
  revert v. induction p as [|x p IH]; intros v Hv; [done|]. simpl.
  destruct (value_get v x) as [next|] eqn:Hnext; [|done]. simpl.
  apply value_wf_get in Hnext as (Hwf & m & -> & Hget); [|done].
  rewrite Hget. simpl. by apply IH.
Qed.
Lemma expand_wildcards_paths root masks :
  value_wf root →
  ∃ paths, expand_wildcards root masks = Some paths ∧
    ∀ p, p ∈ paths ↔
      (∃ mask, mask ∈ masks ∧ mask_matches mask p) ∧ is_Some (value_at root p).
Proof.
  intros Hroot. unfold expand_wildcards. eexists. split.
  - apply expand_loop_spec. unfold expand_todo.
    induction masks as [|mask masks IH]; csimpl; [lia|]. unfold todo_work at 1. simpl. lia.
  - intros p. simpl. unfold expand_todo. rewrite list_elem_of_bind. split.
    + intros (t & Ht & (mask & -> & Hmask)%list_elem_of_fmap). simpl in Ht.
      apply list_elem_of_fmap in Ht as (p' & -> & Hp). simpl.
      apply elem_of_expansions in Hp as [Hm Hs]; [|done]. eauto.
    + intros ((mask & Hin & Hm) & Hs). exists ([], root, mask). split.
      * simpl. apply list_elem_of_fmap. exists p. split; [done|]. by apply elem_of_expansions.
      * apply list_elem_of_fmap. by exists mask.
Qed.
End object_lemmas.

(** ** Properties *)

Lemma object_set_correct `{YamlMapping} root path value :
  (is_ok (object_set root path value) = true ↔
    path ≠ [] ∧
    ∀ q x, q `prefix_of` path → q ≠ path → object_get root q = Some x → ∃ m, x = VMapping m) ∧
  ∀ root', object_set root path value = Ok root' →
    object_get root' path = Some value ∧
    ∀ q, ¬ path `prefix_of` q → ¬ q `prefix_of` path → object_get root' q = object_get root q.
Proof.
  destruct path as [|l h _] using rev_ind.
  { split; [split; [done|by intros []]|done]. }
  unfold object_set. replace (split_last (h ++ [l])) with (Ok (E:=string) (h, l))
    by (symmetry; by apply split_last_ok). simpl. split.
  - destruct (mapping_or_not root) as [[m ->]|Hnm].
    + assert (is_ok (VMapping <$> set_in m h l value) = is_ok (set_in m h l value)) as ->
        by (by destruct (set_in m h l value)).
      rewrite set_in_ok. split.
      * intros Hall. split; [by intros [_ ?]%app_nil|]. intros q x Hq Hne Hx.
        destruct q as [|y q]; [injection Hx as <-; by eexists|].
        apply (Hall (y :: q)); [done| |done].
        destruct Hq as [r Hr]. destruct r as [|z r _] using rev_ind; [by rewrite app_nil_r in Hr|].
        rewrite app_assoc in Hr. apply app_inj_tail in Hr as [-> _]. by eexists.
      * intros [_ Hall] q x Hne Hq Hx. apply (Hall q x); [by apply prefix_app_r| |done].
        intros ->. apply prefix_length in Hq. rewrite length_app in Hq. simpl in Hq. lia.
    + split; [destruct root; try done; by destruct Hnm; eexists|].
      intros [_ Hall]. destruct Hnm. apply (Hall [] root); [apply prefix_nil| |done].
      intros Heq. symmetry in Heq. by apply app_nil in Heq as [_ ?].
  - destruct root as [| | | | |m|]; try done. intros root'.
    destruct (set_in m h l value) as [m'|] eqn:Hset; [|done]. intros [= <-].
    split; [by eapply set_in_get|]. intros q. by eapply set_in_get_other.
Qed.

Lemma object_set_ok `{YamlMapping} root path value root' :
  object_set root path value = Ok root' →
  object_get root' path = Some value ∧
  ∀ q, ¬ path `prefix_of` q → ¬ q `prefix_of` path → object_get root' q = object_get root q.
Proof. apply object_set_correct. Qed.

(** Writing a field.  It succeeds exactly for a non-empty path of which
    no proper prefix leads to something that is not a mapping; afterwards the
    path has the new value, and every path that neither extends it nor is
    extended by it keeps its value. *)
Theorem object_set_spec `{YamlMapping} root path value :
  (is_ok (object_set root path value) = true ↔
    path ≠ [] ∧
    ∀ q x, q `prefix_of` path → q ≠ path → object_get root q = Some x → ∃ m, x = VMapping m) ∧
  ∀ root', object_set root path value = Ok root' →
    object_get root' path = Some value ∧
    ∀ q, ¬ path `prefix_of` q → ¬ q `prefix_of` path → object_get root' q = object_get root q.
Proof. apply object_set_correct. Qed.

Lemma object_remove_ok `{YamlMapping} root path root' removed :
  object_remove root path = Ok (root', removed) →
  object_get root' path = None ∧ object_get root path = removed ∧
  ∀ q, ¬ path `prefix_of` q → ¬ q `prefix_of` path → object_get root' q = object_get root q.
Proof.
  unfold object_remove. destruct (split_last path) as [[h l]|] eqn:Hpath; simpl; [|done].
  apply split_last_ok in Hpath as ->. destruct (remove_in root h l) as [res|] eqn:Hrem; [|done].
  intros [= ->]. by apply remove_in_get.
Qed.

(** Removing a field.  The removed value is returned, the path leads to
    nothing afterwards, and every path that neither extends it nor is extended
    by it keeps its value. *)
Theorem object_remove_spec `{YamlMapping} root path root' removed :
  object_remove root path = Ok (root', removed) →
  object_get root' path = None ∧ object_get root path = removed ∧
  ∀ q, ¬ path `prefix_of` q → ¬ q `prefix_of` path → object_get root' q = object_get root q.
Proof. apply object_remove_ok. Qed.

(** Expanding field masks ends with exactly the paths of the object that
    match one of the masks, a wildcard standing for any one key; each of them
    can be read from the object. *)
Theorem expand_wildcards_spec `{YamlMapping} root masks :
  value_wf root →
  ∃ paths, expand_wildcards root masks = Some paths ∧
    ∀ p, p ∈ paths ↔
      (∃ mask, mask ∈ masks ∧ mask_matches mask p) ∧ is_Some (value_at root p) ∧
      is_Some (object_get root p).
Proof.
  intros Hroot. destruct (expand_wildcards_paths root masks Hroot) as (paths & Hpaths & Hin).
  exists paths. split; [done|]. intros p. rewrite Hin. split; [|naive_solver].
  intros [Hm [w Hw]]. split; [done|]. split; [by eexists|].
  eexists. by eapply value_at_object_get.
Qed.

(** ** An implementation of the mappings, to evaluate examples *)

Fixpoint assoc_get (m : Mapping) (k : Value) : option Value :=
  match m with
  | [] => None
  | (k', v) :: m => if decide (k = k') then Some v else assoc_get m k
  end.
Fixpoint assoc_insert (k v : Value) (m : Mapping) : Mapping :=
  match m with
  | [] => [(k, v)]
  | (k', v') :: m => if decide (k = k') then (k, v) :: m else (k', v') :: assoc_insert k v m
  end.
Definition assoc_remove (k : Value) (m : Mapping) : Mapping := filter (λ kv, kv.1 ≠ k) m.

Lemma assoc_get_insert m k v k' :
  assoc_get (assoc_insert k v m) k' = if decide (k' = k) then Some v else assoc_get m k'.
Proof.
  induction m as [|[k2 v2] m IH]; simpl; [done|].
  destruct (decide (k = k2)) as [->|Hk]; simpl; [by case_decide|].
  rewrite IH. destruct (decide (k' = k2)) as [->|]; [|done]. by rewrite decide_False.
Qed.

Lemma assoc_get_remove m k k' :
  assoc_get (assoc_remove k m) k' = if decide (k' = k) then None else assoc_get m k'.
Proof.
  unfold assoc_remove. induction m as [|[k2 v2] m IH]; simpl; [by case_decide|].
  destruct (decide (k2 = k)) as [->|Hk].
  - rewrite filter_cons_False by (simpl; by intros []). rewrite IH. by case_decide.
  - rewrite filter_cons_True by done. simpl. rewrite IH.
    destruct (decide (k' = k2)) as [->|]; [|done]. by rewrite decide_False.
Qed.

Lemma elem_of_assoc_insert m k v k' :
  k' ∈ (assoc_insert k v m).*1 ↔ k' = k ∨ k' ∈ m.*1.
Proof.
  induction m as [|[k2 v2] m IH]; simpl.
  - rewrite list_elem_of_singleton, elem_of_nil. naive_solver.
  - case_decide as Hk; simpl; rewrite !elem_of_cons; [naive_solver|]. rewrite IH. naive_solver.
Qed.

Lemma assoc_insert_NoDup m k v : NoDup m.*1 → NoDup (assoc_insert k v m).*1.
Proof.
  induction m as [|[k2 v2] m IH]; simpl; [intros; apply NoDup_singleton|].
  intros [Hk2 Hm]%NoDup_cons. case_decide as Hk; simpl; apply NoDup_cons; [by subst|].
  split; [|by apply IH]. rewrite elem_of_assoc_insert. naive_solver.
Qed.

Lemma assoc_remove_NoDup m k : NoDup m.*1 → NoDup (assoc_remove k m).*1.
Proof.
  unfold assoc_remove. induction m as [|[k2 v2] m IH]; simpl; [done|].
  intros [Hk2 Hm]%NoDup_cons. destruct (decide (k2 = k)).
  - rewrite filter_cons_False by (simpl; by intros []). by apply IH.
  - rewrite filter_cons_True by done. simpl. apply NoDup_cons. split; [|by apply IH].
    intros ([? ?] & -> & [_ Hin]%list_elem_of_filter)%list_elem_of_fmap. apply Hk2.
    apply list_elem_of_fmap. eauto.
Qed.

Lemma assoc_get_entry m k v : NoDup m.*1 → assoc_get m k = Some v ↔ (k, v) ∈ m.
Proof.
  induction m as [|[k2 v2] m IH]; simpl; [by rewrite elem_of_nil|].
  intros [Hk2 Hm]%NoDup_cons. rewrite elem_of_cons. case_decide as Hk.
  - subst k2. split; [intros [= ->]; by left|]. intros [[= ->]|Hin]; [done|].
    destruct Hk2. apply list_elem_of_fmap. by exists (k, v).
  - rewrite IH by done. naive_solver.
Qed.

Definition assoc_value_get (v : Value) (s : string) : option Value :=
  match v with VMapping m => assoc_get m (VString s) | _ => None end.

Lemma assoc_value_get_scalar v s :
  match v with VMapping _ | VTagged _ _ => True | _ => assoc_value_get v s = None end.
Proof. by destruct v. Qed.

Definition assoc_mapping : YamlMapping := {|
  mapping_get := assoc_get; mapping_insert := assoc_insert; mapping_remove := assoc_remove;
  value_get := assoc_value_get; value_eqb := λ v w, bool_decide (v = w);
  value_debug := λ _, ""; path_debug := λ _, "";
  mapping_get_nil := λ _, eq_refl; mapping_get_insert := assoc_get_insert;
  mapping_get_remove := assoc_get_remove; mapping_get_entry := assoc_get_entry;
  mapping_insert_NoDup := assoc_insert_NoDup; mapping_remove_NoDup := assoc_remove_NoDup;
  value_get_mapping := λ _ _, eq_refl; value_get_scalar := assoc_value_get_scalar;
  value_eqb_refl := λ v, bool_decide_eq_true_2 _ eq_refl
|}.

Definition example_root : Value :=
  VMapping [(VString "workloads", VMapping [(VString "web", VString "nginx")])].

Lemma example_root_wf : value_wf example_root.
Proof.
  unfold example_root. apply wf_mapping; [apply NoDup_singleton|].
  intros k v [= -> ->]%list_elem_of_singleton. split; [eauto|].
  apply wf_mapping; [apply NoDup_singleton|].
  intros k v [= -> ->]%list_elem_of_singleton. split; [eauto|]. by apply wf_other.
Qed.

Lemma object_remove_spec_witness :
  @object_get assoc_mapping (VMapping [(VString "workloads", VMapping [])])
    ["workloads"; "web"] = None.
Proof.
  eapply (@object_remove_spec assoc_mapping example_root). vm_compute. reflexivity.
Defined.

Lemma expand_wildcards_spec_witness :
  ∃ paths, @expand_wildcards assoc_mapping example_root [["workloads"; "*"]] = Some paths ∧
    ["workloads"; "web"] ∈ paths.
Proof.
  destruct (@expand_wildcards_spec assoc_mapping example_root [["workloads"; "*"]] example_root_wf)
    as (paths & Hpaths & Hin).
  exists paths. split; [done|]. apply Hin. split.
  - exists ["workloads"; "*"]. split; [by left|]. constructor; [by right|]. constructor; [by left|constructor].
  - split; vm_compute; by eexists.
Defined.
