(* ===== verification/FieldMask.v ===== *)
(** * Ankaios server: filtering the complete state by field masks

    The filter part of [get_complete_state_by_field_mask] of
    [server/src/ankaios_server/server_state.rs]: the masks the server adds, and
    the copy of the requested fields into an empty object.  The copy is proved
    to hold exactly the leaves of the state below the requested masks. *)

From Stdlib Require Import Ascii.
From stdpp Require Import base tactics gmap strings list.
From S2P Require Import Prelude Api Validation StateManipulation.

(** ** The masks the server adds *)

Definition state_suffix : string := ".state".
Definition substate_suffix : string := ".subState".

(** The language of the two regular expressions: [workloadStates], three parts that are
    names or wildcards, and the last part. *)
Definition matches_state_filter (last_part filter : string) : bool :=
  match split_on "." filter with
  | [root; agent; name; id; l] =>
    String.eqb root "workloadStates" && filter_mask_segment agent && filter_mask_segment name
    && filter_mask_segment id && String.eqb l last_part
  | _ => false
  end.

Definition replace_suffix (s old_suffix new_suffix : string) : string :=
  str_take (String.length s - String.length old_suffix) s +:+ new_suffix.

Definition push_new (filter : string) (filters : list string) : list string :=
  if decide (filter ∈ filters) then filters else filters ++ [filter].

(** The body of the loop over the filters given by the request. *)
Definition include_counterpart (filters : list string) (filter : string) : list string :=
  if matches_state_filter "state" filter then
    push_new (replace_suffix filter state_suffix substate_suffix) filters
  else if matches_state_filter "subState" filter then
    push_new (replace_suffix filter substate_suffix state_suffix) filters
  else filters.

Definition include_both_state_and_substate_filters (filters : list string) : list string :=
  foldl include_counterpart filters filters.

Definition API_VERSION_FILTER_MASK : string := "desiredState.apiVersion".
Definition DESIRED_STATE_FIELD_MASK_PART : string := "desiredState".

(** The masks that are used for the request with the masks [field_mask]. *)
Definition complete_filters (field_mask : list string) : list string :=
  let filters :=
    if existsb (starts_with DESIRED_STATE_FIELD_MASK_PART) field_mask
    then field_mask ++ [API_VERSION_FILTER_MASK] else field_mask in
  include_both_state_and_substate_filters filters.

Section filter.
Context `{YamlMapping}.

(** The loop over the expanded masks. *)
Fixpoint collect_fields (current : Value) (filters : list Path) (return_state : Value) :
    result string Value :=
  match filters with
  | [] => Ok return_state
  | field :: filters =>
    match object_get current field with
    | Some value =>
      return_state ← object_set return_state field value;
      collect_fields current filters return_state
    | None => collect_fields current filters return_state
    end
  end.

(** [None] is running out of fuel in the expansion. *)
Definition filter_state (current : Value) (field_mask : list string) :
    option (result string Value) :=
  filters ← expand_wildcards current (path_from <$> complete_filters field_mask);
  Some (collect_fields current filters object_default).

(** ** Lemmas *)

Lemma set_in_get_prefix m h l v m' q :
  set_in m h l v = Ok m' → q `prefix_of` h → ∃ m2, object_get (VMapping m') q = Some (VMapping m2).
Proof.
  revert m m' q. induction h as [|p h IH]; intros m m' q.
  - intros _ ->%prefix_nil_inv. by eexists.
  - cbn [set_in]. destruct (default _ _) as [| | | | |next|]; try done.
    destruct (set_in next h l v) as [next'|] eqn:Hnext; [|done]. intros [= <-] Hq.
    destruct q as [|x q]; [by eexists|].
    pose proof (prefix_cons_inv_1 _ _ _ _ Hq) as ->. apply prefix_cons_inv_2 in Hq.
    rewrite object_get_mapping, mapping_get_insert, decide_True by done. simpl. by eapply IH.
Qed.

(** Every proper prefix of a path of mapping keys leads to a mapping. *)
Lemma value_at_prefix v p r : value_wf v → is_Some (value_at v (p ++ r)) → r ≠ [] →
  ∃ m, object_get v p = Some (VMapping m).
Proof.
  revert v. induction p as [|x p IH]; intros v Hv Hs Hr; simpl in *.
  - destruct r as [|y r]; [done|]. simpl in Hs.
    destruct (value_get v y) as [next|] eqn:Hnext; [|by destruct Hs].
    apply value_wf_get in Hnext as (_ & m & -> & _); [|done]. by eexists.
  - destruct (value_get v x) as [next|] eqn:Hnext; [|by destruct Hs].
    apply value_wf_get in Hnext as (Hwf & m & -> & Hget); [|done].
    rewrite Hget. simpl in *. by apply IH.
Qed.

Definition is_leaf (v : Value) : Prop := ∀ m, v ≠ VMapping m.

(** The copied leaves are those below the paths that were set. *)
Definition filtered (current ret : Value) (done_paths : list Path) : Prop :=
  (∃ m, ret = VMapping m) ∧
  ∀ q w, is_leaf w →
    object_get ret q = Some w ↔
    object_get current q = Some w ∧ ∃ p, p ∈ done_paths ∧ p `prefix_of` q.

Lemma filtered_default current : filtered current object_default [].
Proof.
  split; [by eexists|]. intros q w Hw. split.
  - destruct q as [|x q]; simpl; [intros [= <-]; by destruct (Hw [])|by rewrite mapping_get_nil].
  - intros (_ & p & ?%elem_of_nil & _). done.
Qed.

Lemma filtered_set current ret done_paths path value :
  value_wf current → path ≠ [] → is_Some (value_at current path) →
  object_get current path = Some value →
  filtered current ret done_paths →
  ∃ ret', object_set ret path value = Ok ret' ∧ filtered current ret' (done_paths ++ [path]).
Proof.
  intros Hwf Hne Hat Hget [[m ->] Hinv].
  destruct path as [|l h _] using rev_ind; [done|].
  unfold object_set. replace (split_last (h ++ [l])) with (Ok (E:=string) (h, l))
    by (symmetry; by apply split_last_ok). simpl.
  assert (is_ok (set_in m h l value) = true) as Hok.
  { apply set_in_ok. intros q x Hq [r ->] Hx.
    destruct (value_at_prefix current q (r ++ [l])) as [m' Hm']; [done| | |].
    - by rewrite app_assoc.
    - by intros [_ ?]%app_nil.
    - destruct (mapping_or_not x) as [?|Hleaf]; [done|].
      assert (is_leaf x) as Hl by (intros m2 ->; apply Hleaf; by eexists).
      apply (Hinv q x Hl) in Hx as [Hx _]. rewrite Hm' in Hx. injection Hx as <-. by eexists. }
  apply is_ok_true in Hok as [m' Hset]. rewrite Hset. exists (VMapping m'). split; [done|].
  split; [by eexists|]. intros q w Hw. setoid_rewrite elem_of_app.
  setoid_rewrite list_elem_of_singleton.
  destruct (decide ((h ++ [l]) `prefix_of` q)) as [[r ->]|Hpq].
  { rewrite (object_get_app (VMapping m') (h ++ [l]) r), (object_get_app current (h ++ [l]) r).
    rewrite (set_in_get _ _ _ _ _ Hset), Hget. simpl.
    split; [|by intros [? _]]. intros Hr. split; [done|]. exists (h ++ [l]).
    split; [by right|]. by eexists. }
  destruct (decide (q `prefix_of` (h ++ [l]))) as [Hqp|Hqp].
  - assert (q `prefix_of` h ∧ ∃ r, h ++ [l] = q ++ r ∧ r ≠ []) as [Hqh (r & Hr & Hrne)].
    { destruct Hqp as [r Hr]. destruct r as [|z r _] using rev_ind.
      - rewrite app_nil_r in Hr. by destruct Hpq; rewrite Hr.
      - split.
        + rewrite app_assoc in Hr. apply app_inj_tail in Hr as [-> _]. by eexists.
        + exists (r ++ [z]). split; [done|]. by intros [_ ?]%app_nil. }
    destruct (set_in_get_prefix _ _ _ _ _ q Hset Hqh) as [m2 Hm2].
    destruct (value_at_prefix current q r) as [m3 Hm3]; [done|by rewrite <-Hr|done|].
    rewrite Hm2, Hm3. split; [intros [= <-]|intros [[= <-] _]]; by destruct (Hw _ eq_refl).
  - rewrite (set_in_get_other _ _ _ _ _ _ Hset Hpq Hqp), (Hinv q w Hw). naive_solver.
Qed.

Lemma collect_fields_filtered current filters ret done_paths :
  value_wf current →
  (∀ p, p ∈ filters → p ≠ [] ∧ is_Some (value_at current p)) →
  filtered current ret done_paths →
  ∃ ret', collect_fields current filters ret = Ok ret' ∧
    filtered current ret' (done_paths ++ filters).
Proof.
  intros Hwf. revert ret done_paths. induction filters as [|p filters IH]; intros ret ps Hf Hret.
  - exists ret. by rewrite app_nil_r.
  - destruct (Hf p) as [Hne Hat]; [by left|].
    destruct Hat as [v Hv]. pose proof (value_at_object_get _ _ _ Hwf Hv) as Hget.
    cbn [collect_fields]. rewrite Hget.
    destruct (filtered_set current ret ps p v) as (ret' & -> & Hret'); [done..|by eexists|done|done|].
    simpl. destruct (IH ret' (ps ++ [p])) as (ret2 & -> & Hret2); [|done|].
    + intros p' ?. apply Hf. by right.
    + exists ret2. split; [done|]. by rewrite <-app_assoc in Hret2.
Qed.
End filter.

(** ** Properties *)

Lemma split_on_dot_path_from s : s ≠ "" → path_from s ≠ [].
Proof.
  intros Hs. unfold path_from. apply str_is_empty_false in Hs as ->. apply split_on_not_nil.
Qed.

Lemma include_counterpart_incl filters l f :
  f ∈ filters → f ∈ foldl include_counterpart filters l.
Proof.
  revert filters. induction l as [|x l IH]; intros filters Hf; simpl; [done|]. apply IH.
  unfold include_counterpart, push_new. repeat case_match; try done; apply elem_of_app; by left.
Qed.

Lemma include_counterpart_new filters l f :
  f ∈ foldl include_counterpart filters l → f ∈ filters ∨ f ≠ "".
Proof.
  assert (∀ s o n, n ≠ "" → replace_suffix s o n ≠ "") as Hrep.
  { intros s o n Hn. unfold replace_suffix. by destruct (str_take _ s). }
  revert filters. induction l as [|x l IH]; intros filters; simpl; [by left|].
  intros [Hf|?]%IH; [|by right]. unfold include_counterpart, push_new in Hf.
  repeat case_match; try (by left);
    apply elem_of_app in Hf as [?|Hf%list_elem_of_singleton]; try (by left); right;
    rewrite Hf; by apply Hrep.
Qed.

Lemma complete_filters_incl field_mask f : f ∈ field_mask → f ∈ complete_filters field_mask.
Proof.
  intros Hf. apply include_counterpart_incl.
  destruct (existsb _ _); [apply elem_of_app; by left|done].
Qed.

(** C33: the answer to a request with field masks.  For masks that are not
    empty the filter succeeds, and the leaves of the filtered state (all values
    but mappings) are exactly the leaves of the current state below a path that
    matches a requested mask or one of the masks the server adds. *)
Theorem filter_state_spec `{YamlMapping} current field_mask :
  value_wf current → (∀ f, f ∈ field_mask → f ≠ "") →
  ∃ ret, filter_state current field_mask = Some (Ok ret) ∧
    ∀ q w, is_leaf w →
      object_get ret q = Some w ↔
      object_get current q = Some w ∧
      ∃ p mask, p `prefix_of` q ∧ is_Some (value_at current p) ∧
        mask ∈ complete_filters field_mask ∧ mask_matches (path_from mask) p.
Proof.
  intros Hwf Hne. unfold filter_state.
  destruct (expand_wildcards_paths current (path_from <$> complete_filters field_mask) Hwf)
    as (paths & -> & Hpaths). simpl.
  assert (∀ f, f ∈ complete_filters field_mask → f ≠ "") as Hnonempty.
  { intros f [Hf|?]%include_counterpart_new; [|done].
    destruct (existsb _ field_mask); [|by apply Hne].
    apply elem_of_app in Hf as [?| ->%list_elem_of_singleton]; [by apply Hne|done]. }
  destruct (collect_fields_filtered current paths object_default []) as (ret & -> & _ & Hret).
  - done.
  - intros p [(mask & Hin & Hm) Hat]%Hpaths. split; [|done]. intros ->.
    apply list_elem_of_fmap in Hin as (f & -> & Hf). inversion Hm as [Hnil|].
    by apply (split_on_dot_path_from f); [apply Hnonempty|].
  - apply filtered_default.
  - exists ret. split; [done|]. intros q w Hw. rewrite (Hret q w Hw). simpl.
    setoid_rewrite Hpaths. setoid_rewrite list_elem_of_fmap. naive_solver.
Qed.

Lemma filter_state_spec_witness :
  ∃ ret, @filter_state assoc_mapping example_root ["workloads.*"] = Some (Ok ret) ∧
    @object_get assoc_mapping ret ["workloads"; "web"] = Some (VString "nginx").
Proof.
  destruct (@filter_state_spec assoc_mapping example_root ["workloads.*"] example_root_wf)
    as (ret & Hret & Hleaves).
  - by intros f ->%list_elem_of_singleton.
  - exists ret. split; [done|]. apply Hleaves; [done|]. split; [reflexivity|].
    exists ["workloads"; "web"], "workloads.*". split; [done|].
    split; [by eexists|]. split; [by left|]. constructor; [by right|]. constructor; [by left|constructor].
Defined.
