(* ===== verification/Messages.v ===== *)
(** * Ankaios: messages and channels

    The messages of [ankaios_api/proto/ank_base.proto] that the server and the
    agents exchange, [common/src/commands.rs], and the two channel interfaces
    [common/src/from_server_interface.rs] and
    [common/src/to_server_interface.rs].

    The Rust types of the protobuf messages and their conversion to and from
    YAML are generated code.  The complete state is used as an abstract type
    with conversions, the class [StateConversion]; of the other messages the
    fields are modelled.  Sending to a channel is appending to a list. *)

From Stdlib Require Import ZArith.
From stdpp Require Import base tactics gmap strings list.
From S2P Require Import Prelude Api WorkloadStates StateManipulation.

(** ** The complete state *)

Abbreviation AgentMap := (gmap string AgentAttributesSpec).

Record CompleteStateSpec := {
  desired_state : StateSpec;
  complete_workload_states : WorkloadStatesMap;
  agents : AgentMap
}.

Definition complete_state_spec_default : CompleteStateSpec :=
  {| desired_state := state_default; complete_workload_states := ∅; agents := ∅ |}.

(** The generated message type and the [serde] conversions. *)
Class StateConversion := {
  CompleteState : Type;
  complete_state_default : CompleteState;
  complete_state_of_spec : CompleteStateSpec → CompleteState;
  spec_of_complete_state : CompleteState → result string CompleteStateSpec;
  complete_state_to_value : CompleteState → result string Value;
  complete_state_from_value : Value → result string CompleteState;
  spec_to_value : CompleteStateSpec → result string Value;
  spec_from_value : Value → result string CompleteStateSpec
}.

(** ** Requests and responses *)

Record CompleteStateRequest := {
  field_mask : list string;
  subscribe_for_events : bool
}.

Record LogsRequest := {
  log_workload_names : list WorkloadInstanceNameSpec;
  follow : option bool;
  tail_lines : option Z;
  since : option string;
  until : option string
}.

Record LogEntry := {
  log_workload_name : option WorkloadInstanceNameSpec;
  log_message : string
}.
Abbreviation LogEntriesResponse := (list LogEntry).

(** The stopped workload; the field of a protobuf message is optional. *)
Record LogsStopResponse := { stopped_workload_name : option WorkloadInstanceNameSpec }.

Record AlteredFields := {
  added_fields : list string;
  removed_fields : list string;
  updated_fields : list string
}.

Section messages.
Context `{StateConversion}.

Record UpdateStateRequest := {
  new_state : option CompleteState;
  update_mask : list string
}.

Inductive RequestContent :=
  | UpdateStateRequestContent (r : UpdateStateRequest)
  | CompleteStateRequestContent (r : CompleteStateRequest)
  | LogsRequestContent (r : LogsRequest)
  | LogsCancelRequestContent
  | EventsCancelRequestContent.

Record Request := {
  request_id : string;
  request_content : option RequestContent
}.

Inductive ResponseContent :=
  | ErrorContent (message : string)
  | CompleteStateResponseContent (complete_state : option CompleteState)
      (altered_fields : option AlteredFields)
  | UpdateStateSuccessContent (added_workloads deleted_workloads : list string)
  | LogsRequestAcceptedContent (workload_names : list WorkloadInstanceNameSpec)
  | LogEntriesResponseContent (logs : LogEntriesResponse)
  | LogsStopResponseContent (r : LogsStopResponse)
  | LogsCancelAcceptedContent
  | EventsCancelAcceptedContent.

Record Response := {
  response_request_id : string;
  response_content : option ResponseContent
}.

(** ** The channel to the server *)

Inductive ToServer :=
  | AgentHello (agent_name : string) (tags : gmap string string)
  | AgentLoadStatus (agent_name : string) (cpu free_mem : N)
  | AgentGone (agent_name : string)
  | ToServerRequest (r : Request)
  | ToServerUpdateWorkloadState (workload_states : list WorkloadStateSpec)
  | ToServerStop
  | Goodbye (connection_name : string)
  | ToServerLogEntriesResponse (request_id : string) (logs : LogEntriesResponse)
  | ToServerLogsStopResponse (request_id : string) (r : LogsStopResponse).

Definition request_update_state (id : string) (s : CompleteState) (mask : list string) : ToServer :=
  ToServerRequest {| request_id := id;
    request_content := Some (UpdateStateRequestContent {| new_state := Some s; update_mask := mask |}) |}.
Definition request_complete_state (id : string) (r : CompleteStateRequest) : ToServer :=
  ToServerRequest {| request_id := id; request_content := Some (CompleteStateRequestContent r) |}.
Definition request_logs (id : string) (r : LogsRequest) : ToServer :=
  ToServerRequest {| request_id := id; request_content := Some (LogsRequestContent r) |}.
Definition request_logs_cancel (id : string) : ToServer :=
  ToServerRequest {| request_id := id; request_content := Some LogsCancelRequestContent |}.
Definition request_events_cancel (id : string) : ToServer :=
  ToServerRequest {| request_id := id; request_content := Some EventsCancelRequestContent |}.

(** ** The channel from the server *)

Inductive FromServer :=
  | ServerHello (agent_name : option string) (added_workloads : list WorkloadNamed)
  | UpdateWorkload (added_workloads : list WorkloadNamed)
      (deleted_workloads : list DeletedWorkload)
  | UpdateWorkloadState (workload_states : list WorkloadStateSpec)
  | FromServerResponse (r : Response)
  | FromServerStop
  | FromServerLogsRequest (request_id : string) (r : LogsRequest)
  | FromServerLogsCancelRequest (request_id : string)
  | ServerGone.

Definition respond (id : string) (content : ResponseContent) : FromServer :=
  FromServerResponse {| response_request_id := id; response_content := Some content |}.

Definition complete_state (id : string) (s : CompleteState) (altered : option AlteredFields) :
    FromServer :=
  respond id (CompleteStateResponseContent (Some s) altered).
Definition update_state_success (id : string) (added deleted : list string) : FromServer :=
  respond id (UpdateStateSuccessContent added deleted).
Definition logs_request (id : string) (r : LogsRequest) : FromServer := FromServerLogsRequest id r.
Definition logs_request_accepted (id : string) (r : LogsRequest) : FromServer :=
  respond id (LogsRequestAcceptedContent (log_workload_names r)).
Definition log_entries_response (id : string) (logs : LogEntriesResponse) : FromServer :=
  respond id (LogEntriesResponseContent logs).
Definition logs_stop_response (id : string) (r : LogsStopResponse) : FromServer :=
  respond id (LogsStopResponseContent r).
Definition logs_cancel_request (id : string) : FromServer := FromServerLogsCancelRequest id.
Definition logs_cancel_request_accepted (id : string) : FromServer :=
  respond id LogsCancelAcceptedContent.
Definition event_cancel_request_accepted (id : string) : FromServer :=
  respond id EventsCancelAcceptedContent.
Definition error (id : string) (message : string) : FromServer := respond id (ErrorContent message).
End messages.

(** ** A conversion for the examples *)

Definition example_conversion : StateConversion := {|
  CompleteState := CompleteStateSpec;
  complete_state_default := complete_state_spec_default;
  complete_state_of_spec := λ s, s;
  spec_of_complete_state := λ s, Ok s;
  complete_state_to_value := λ _, Ok (VMapping []);
  complete_state_from_value := λ _, Ok complete_state_spec_default;
  spec_to_value := λ _, Ok (VMapping []);
  spec_from_value := λ _, Ok complete_state_spec_default
|}.
