(* ===== verification/MessageSize.v ===== *)
(** * Ankaios: size of log messages

    [common/src/message_size.rs], used by the channel to the server
    ([common/src/to_server_interface.rs]): a response with log entries that is too large
    for one message is split, and an entry that is too large on its own is
    truncated. The encoded length of the protobuf messages is a parameter with
    the laws of the wire format. *)

From Stdlib Require Import Ascii NArith Lia.
From stdpp Require Import base tactics numbers strings list.
From S2P Require Import Prelude Utf8 Api Messages.
Local Open Scope N_scope.

Definition LOGS_MAX_SIZE_MB : N := 2.
Definition LOGS_MAX_SIZE_BYTES : N := LOGS_MAX_SIZE_MB * 1024 * 1024.
Definition TRUNCATION_NOTICE : string := " [truncated]".
Definition REPEATED_FIELD_OVERHEAD : N := 10.
Definition TRUNCATION_INFO : string :=
  "The previous message was truncated due to exceeding the maximum 2 MB size.".

Definition str_len (s : string) : N := N.of_nat (String.length s).

(** [encoded_len] of the messages. A repeated field holds for every entry a tag,
    the length and the entry; an entry has its message as bytes besides the
    name, a tag and the length of the message. *)
Class LogEncoding := {
  entry_encoded_len : LogEntry → N;
  response_encoded_len : LogEntriesResponse → N;
  name_encoded_len : option WorkloadInstanceNameSpec → N;
  field_overhead : N → N;
  field_overhead_small n : n < 2 ^ 28 → field_overhead n ≤ 5;
  response_len_nil : response_encoded_len [] = 0;
  response_len_cons e l : response_encoded_len (e :: l) =
    field_overhead (entry_encoded_len e) + entry_encoded_len e + response_encoded_len l;
  entry_len_lower e : name_encoded_len (log_workload_name e) + str_len (log_message e) ≤
    entry_encoded_len e;
  entry_len_upper e : entry_encoded_len e ≤
    name_encoded_len (log_workload_name e) + str_len (log_message e) + 11;
  entry_len_upper_small e : str_len (log_message e) < 2 ^ 28 →
    entry_encoded_len e ≤ name_encoded_len (log_workload_name e) + str_len (log_message e) + 5
}.

Section message_size.
Context `{LogEncoding}.

(** The loop that walks back to a boundary. *)
Fixpoint char_boundary_before (s : string) (n : nat) : nat :=
  match n with
  | O => O
  | S n' => if is_char_boundary s n then n else char_boundary_before s n'
  end.

Definition truncate_log_entry (entry : LogEntry) : LogEntry * LogEntry :=
  let info_entry :=
    {| log_workload_name := log_workload_name entry; log_message := TRUNCATION_INFO |} in
  let message_len := str_len (log_message entry) in
  let overhead := entry_encoded_len entry - message_len in
  let max_message_size :=
    LOGS_MAX_SIZE_BYTES - overhead - str_len TRUNCATION_NOTICE - entry_encoded_len info_entry
      - REPEATED_FIELD_OVERHEAD in
  let truncated_message :=
    if max_message_size <? message_len then
      str_take (char_boundary_before (log_message entry) (N.to_nat max_message_size))
        (log_message entry) +:+ TRUNCATION_NOTICE
    else log_message entry in
  ({| log_workload_name := log_workload_name entry; log_message := truncated_message |}, info_entry).

(** The response that is being filled, if it holds an entry. *)
Definition flush (current : LogEntriesResponse) : list LogEntriesResponse :=
  match current with [] => [] | _ => [current] end.

(** The body of the loop over the entries. *)
Definition add_log_entry (acc : list LogEntriesResponse * LogEntriesResponse) (entry : LogEntry) :
    list LogEntriesResponse * LogEntriesResponse :=
  let '(result, current) := acc in
  let entry_size := entry_encoded_len entry in
  if LOGS_MAX_SIZE_BYTES <? entry_size then
    let '(truncated_entry, info_entry) := truncate_log_entry entry in
    (result ++ flush current ++ [[truncated_entry; info_entry]], [])
  else if LOGS_MAX_SIZE_BYTES <? response_encoded_len current + entry_size then
    (result ++ flush current, [entry])
  else (result, current ++ [entry]).

Definition process_log_entries_response (logs_response : LogEntriesResponse) :
    list LogEntriesResponse :=
  if response_encoded_len logs_response <=? LOGS_MAX_SIZE_BYTES then [logs_response]
  else
    let '(result, current) := foldl add_log_entry ([], []) logs_response in
    result ++ flush current.

(** [log_entries_response] of the channel to the server: one message per part. *)
Definition to_server_log_entries_response `{StateConversion} (request_id : string)
    (logs_response : LogEntriesResponse) : list ToServer :=
  ToServerLogEntriesResponse request_id <$> process_log_entries_response logs_response.

(** ** Specification *)

(** What becomes of one entry. *)
Definition split_entry (e : LogEntry) : list LogEntry :=
  if LOGS_MAX_SIZE_BYTES <? entry_encoded_len e then
    [(truncate_log_entry e).1; (truncate_log_entry e).2]
  else [e].

(** The most a response can have over the limit: tag and length of one entry. *)
Definition ENTRY_FIELD_OVERHEAD : N := 5.

(** ** Lemmas *)

Lemma max_small : LOGS_MAX_SIZE_BYTES < 2 ^ 28.
Proof. reflexivity. Qed.

Lemma str_len_app s1 s2 : str_len (s1 +:+ s2) = str_len s1 + str_len s2.
Proof. unfold str_len. rewrite str_length_app. lia. Qed.

Lemma str_len_take n s : str_len (str_take n s) ≤ N.of_nat n.
Proof.
  unfold str_len. revert s. induction n as [|n IH]; intros [|a s]; simpl; try lia.
  specialize (IH s). lia.
Qed.

Lemma char_boundary_before_le s n : (char_boundary_before s n ≤ n)%nat.
Proof. induction n as [|n IH]; simpl; [done|]. case_match; lia. Qed.

Lemma char_boundary_before_spec s n : is_char_boundary s (char_boundary_before s n) = true.
Proof. induction n as [|n IH]; simpl; [done|]. by destruct (is_char_boundary s (S n)) eqn:Hb. Qed.

Lemma response_len_app l1 l2 :
  response_encoded_len (l1 ++ l2) = response_encoded_len l1 + response_encoded_len l2.
Proof.
  induction l1 as [|e l1 IH]; simpl; [by rewrite response_len_nil|].
  rewrite !response_len_cons, IH. lia.
Qed.

Lemma response_len_single e :
  response_encoded_len [e] = field_overhead (entry_encoded_len e) + entry_encoded_len e.
Proof. rewrite response_len_cons, response_len_nil. lia. Qed.

Lemma response_len_single_le e n :
  entry_encoded_len e ≤ n → n ≤ LOGS_MAX_SIZE_BYTES → response_encoded_len [e] ≤ n + 5.
Proof.
  intros He Hn. rewrite response_len_single.
  assert (field_overhead (entry_encoded_len e) ≤ 5); [|lia].
  apply field_overhead_small. pose proof max_small. lia.
Qed.

(** A name that leaves room for a message and the notice. *)
Definition small_name (e : LogEntry) : Prop :=
  name_encoded_len (log_workload_name e) ≤ LOGS_MAX_SIZE_BYTES / 4.

Lemma truncated_message_len e :
  small_name e → LOGS_MAX_SIZE_BYTES < entry_encoded_len e →
  str_len (log_message (truncate_log_entry e).1) + name_encoded_len (log_workload_name e) +
    entry_encoded_len (truncate_log_entry e).2 + 10 ≤ LOGS_MAX_SIZE_BYTES.
Proof.
  intros Hname Hbig. unfold small_name in Hname.
  pose proof (entry_len_lower e) as Hlow. pose proof (entry_len_upper e) as Hup.
  unfold truncate_log_entry. cbn [fst snd log_message log_workload_name].
  set (info := {| log_workload_name := log_workload_name e; log_message := TRUNCATION_INFO |}).
  pose proof (entry_len_upper info) as Hinfo. cbn [log_workload_name log_message] in Hinfo.
  change (log_workload_name info) with (log_workload_name e) in Hinfo.
  change (str_len (log_message info)) with 74 in Hinfo.
  change (str_len TRUNCATION_NOTICE) with 12. unfold REPEATED_FIELD_OVERHEAD.
  change LOGS_MAX_SIZE_BYTES with 2097152 in *. change (2097152 / 4) with 524288 in *.
  set (m := str_len (log_message e)) in *. set (o := entry_encoded_len e - m).
  set (room := 2097152 - o - 12 - entry_encoded_len info - 10).
  assert (room + o + 12 + entry_encoded_len info + 10 = 2097152) as Hroom by lia.
  assert (name_encoded_len (log_workload_name e) ≤ o) as Ho by lia.
  assert (room < m) as Hlt by lia. rewrite (proj2 (N.ltb_lt _ _) Hlt), str_len_app.
  change (str_len TRUNCATION_NOTICE) with 12.
  pose proof (str_len_take (char_boundary_before (log_message e) (N.to_nat room)) (log_message e)).
  pose proof (char_boundary_before_le (log_message e) (N.to_nat room)). lia.
Qed.

Lemma truncated_response_len e :
  small_name e → LOGS_MAX_SIZE_BYTES < entry_encoded_len e →
  response_encoded_len [(truncate_log_entry e).1; (truncate_log_entry e).2] ≤
    LOGS_MAX_SIZE_BYTES + ENTRY_FIELD_OVERHEAD.
Proof.
  intros Hname Hbig. pose proof (truncated_message_len e Hname Hbig) as Hlen.
  pose proof max_small as Hmax. unfold ENTRY_FIELD_OVERHEAD.
  set (t := (truncate_log_entry e).1) in *. set (info := (truncate_log_entry e).2) in *.
  assert (entry_encoded_len t ≤ name_encoded_len (log_workload_name e) + str_len (log_message t) + 5) as Ht.
  { apply (entry_len_upper_small t). lia. }
  rewrite response_len_cons, response_len_single.
  pose proof (field_overhead_small (entry_encoded_len t)).
  pose proof (field_overhead_small (entry_encoded_len info)). lia.
Qed.

(** What the loop maintains: the entries so far, split, and no response that is
    too large. *)
Record split_ok (seen : LogEntriesResponse) (acc : list LogEntriesResponse * LogEntriesResponse) :
    Prop := {
  split_entries : mjoin acc.1 ++ acc.2 = seen ≫= split_entry;
  split_not_empty : Forall (λ r, r ≠ []) acc.1;
  split_size : Forall (λ r, response_encoded_len r ≤ LOGS_MAX_SIZE_BYTES + ENTRY_FIELD_OVERHEAD) acc.1;
  split_current_size : response_encoded_len acc.2 ≤ LOGS_MAX_SIZE_BYTES + ENTRY_FIELD_OVERHEAD
}.

Lemma flush_join l : mjoin (flush l) = l.
Proof. destruct l; [done|]. simpl. by rewrite app_nil_r. Qed.

Lemma flush_Forall (P : LogEntriesResponse → Prop) l : (l ≠ [] → P l) → Forall P (flush l).
Proof. destruct l; simpl; intros Hl; [constructor|]. constructor; [by apply Hl|constructor]. Qed.

Lemma split_ok_step seen acc e :
  small_name e → split_ok seen acc → split_ok (seen ++ [e]) (add_log_entry acc e).
Proof.
  destruct acc as [result current]. intros Hname [Hentries Hne Hsize Hcur]. simpl in Hentries, Hne, Hsize, Hcur.
  assert ((seen ++ [e]) ≫= split_entry = (mjoin result ++ current) ++ split_entry e) as Hnew.
  { rewrite bind_app, <-Hentries. simpl. by rewrite app_nil_r. }
  unfold add_log_entry.
  destruct (LOGS_MAX_SIZE_BYTES <? entry_encoded_len e) eqn:Hbig.
  - pose proof (truncated_response_len e Hname (proj1 (N.ltb_lt _ _) Hbig)) as Htr.
    assert (split_entry e = [(truncate_log_entry e).1; (truncate_log_entry e).2]) as Hsplit
      by (unfold split_entry; by rewrite Hbig).
    rewrite Hsplit in Hnew. destruct (truncate_log_entry e) as [t info].
    split; cbn [fst snd] in *.
    + by rewrite Hnew, app_nil_r, !join_app, flush_join, app_assoc.
    + rewrite !Forall_app. split_and!; [done|by apply flush_Forall|by apply Forall_singleton].
    + rewrite !Forall_app. split_and!; [done|by apply flush_Forall|by apply Forall_singleton].
    + by rewrite response_len_nil.
  - assert (split_entry e = [e]) as Hsplit by (unfold split_entry; by rewrite Hbig).
    rewrite Hsplit in Hnew. apply N.ltb_ge in Hbig.
    destruct (LOGS_MAX_SIZE_BYTES <? response_encoded_len current + entry_encoded_len e) eqn:Hfull;
      split; cbn [fst snd].
    + by rewrite Hnew, join_app, flush_join.
    + rewrite Forall_app. split; [done|by apply flush_Forall].
    + rewrite Forall_app. split; [done|by apply flush_Forall].
    + by apply response_len_single_le.
    + by rewrite Hnew, app_assoc.
    + done.
    + done.
    + apply N.ltb_ge in Hfull. rewrite response_len_app, response_len_single.
      pose proof max_small. pose proof (field_overhead_small (entry_encoded_len e)).
      unfold ENTRY_FIELD_OVERHEAD. lia.
Qed.

Lemma split_ok_loop seen acc l :
  Forall small_name l → split_ok seen acc → split_ok (seen ++ l) (foldl add_log_entry acc l).
Proof.
  intros Hall. revert seen acc. induction Hall as [|e l He Hall IH]; intros seen acc Hok.
  { by rewrite app_nil_r. }
  simpl. rewrite cons_middle, app_assoc. by apply IH, split_ok_step.
Qed.

Lemma split_ok_final l :
  Forall small_name l → split_ok l (foldl add_log_entry ([], []) l).
Proof.
  intros Hall. apply (split_ok_loop [] ([], [])); [done|].
  split; simpl; [done|constructor|constructor|]. by rewrite response_len_nil.
Qed.
End message_size.

(** ** Properties *)

(** C40: splitting loses no entry and keeps the order: a response that is small
    enough is sent as it is; otherwise the parts hold the same entries, where an
    entry that is too large is replaced by its beginning, cut at the boundary of
    a character, and a note. No part is empty, and a part exceeds the limit by
    at most the tag and length of one entry. *)
Theorem process_log_entries_response_spec `{LogEncoding} l :
  Forall small_name l →
  let parts := process_log_entries_response l in
  (if response_encoded_len l <=? LOGS_MAX_SIZE_BYTES then parts = [l]
   else mjoin parts = l ≫= split_entry ∧ Forall (λ r, r ≠ []) parts) ∧
  Forall (λ r, response_encoded_len r ≤ LOGS_MAX_SIZE_BYTES + ENTRY_FIELD_OVERHEAD) parts.
Proof.
  intros Hall parts. subst parts. unfold process_log_entries_response.
  destruct (response_encoded_len l <=? LOGS_MAX_SIZE_BYTES) eqn:Hsmall.
  { split; [done|]. constructor; [|constructor]. apply N.leb_le in Hsmall.
    unfold ENTRY_FIELD_OVERHEAD. lia. }
  destruct (split_ok_final l Hall) as [Hentries Hne Hsize Hcur].
  destruct (foldl add_log_entry ([], []) l) as [result current]. simpl in *. split_and!.
  - by rewrite join_app, flush_join.
  - rewrite Forall_app. split; [done|by apply flush_Forall].
  - rewrite Forall_app. split; [done|by apply flush_Forall].
Qed.

(** The limit itself is exceeded: two entries of exactly the maximal size are
    sent as two responses that are both larger than the maximum. *)
Theorem split_exceeds_limit `{LogEncoding} e :
  entry_encoded_len e = LOGS_MAX_SIZE_BYTES → 0 < field_overhead LOGS_MAX_SIZE_BYTES →
  process_log_entries_response [e; e] = [[e]; [e]] ∧ LOGS_MAX_SIZE_BYTES < response_encoded_len [e].
Proof.
  intros He Hf. assert (LOGS_MAX_SIZE_BYTES < response_encoded_len [e]) as Hlt.
  { rewrite response_len_single, He. lia. }
  split; [|done]. unfold process_log_entries_response.
  rewrite (proj2 (N.leb_gt _ _)); [|rewrite (response_len_app [e] [e]); lia].
  assert (add_log_entry ([], []) e = ([], [e])) as Hfirst.
  { unfold add_log_entry. by rewrite response_len_nil, N.add_0_l, He, N.ltb_irrefl. }
  assert (add_log_entry ([], [e]) e = ([[e]], [e])) as Hsecond.
  { unfold add_log_entry. rewrite He, N.ltb_irrefl, (proj2 (N.ltb_lt _ _)) by lia. done. }
  cbn [foldl]. by rewrite Hfirst, Hsecond.
Qed.

(** ** The encoding of the examples *)

Definition varint_len (n : N) : N := 1 + N.log2 n / 7.
Definition field_len (n : N) : N := if n =? 0 then 0 else 1 + varint_len n + n.

Definition example_name_len (n : option WorkloadInstanceNameSpec) : N :=
  match n with
  | None => 0
  | Some n =>
    let len := field_len (str_len (workload_name n)) + field_len (str_len (agent_name n))
               + field_len (str_len (instance_id n)) in
    1 + varint_len len + len
  end.

Definition example_entry_len (name_len : option WorkloadInstanceNameSpec → N) (e : LogEntry) : N :=
  name_len (log_workload_name e) + str_len (log_message e) +
  (if str_len (log_message e) =? 0 then 0
   else N.min 11 (1 + varint_len (str_len (log_message e)))).

Lemma varint_len_small n : n < 2 ^ 28 → varint_len n ≤ 4.
Proof.
  intros Hn. unfold varint_len. destruct (N.eq_dec n 0) as [->|Hne]; [done|].
  assert (N.log2 n < 28) by (apply N.log2_lt_pow2; lia).
  assert (N.log2 n / 7 < 4) by (apply N.Div0.div_lt_upper_bound; lia). lia.
Qed.

Program Definition example_encoding (name_len : option WorkloadInstanceNameSpec → N) : LogEncoding := {|
  entry_encoded_len := example_entry_len name_len;
  response_encoded_len := λ l,
    foldr (λ e n, 1 + varint_len (example_entry_len name_len e) + example_entry_len name_len e + n) 0 l;
  name_encoded_len := name_len;
  field_overhead := λ n, 1 + varint_len n
|}.
Next Obligation. intros name_len n Hn%varint_len_small. simpl. lia. Qed.
Next Obligation. done. Qed.
Next Obligation. done. Qed.
Next Obligation. intros name_len e. unfold example_entry_len. lia. Qed.
Next Obligation. intros name_len e. unfold example_entry_len. case_match; lia. Qed.
Next Obligation.
  intros name_len e Hn%varint_len_small. unfold example_entry_len. case_match; lia.
Qed.

Definition example_entry (message : string) : LogEntry :=
  {| log_workload_name := None; log_message := message |}.

(** Five entries of half a megabyte each. *)
Lemma process_log_entries_response_spec_witness :
  let E := example_encoding (λ _, 500000) in
  let l := example_entry <$> ["a"; "b"; "c"; "d"; "e"] in
  let parts := process_log_entries_response l in
  parts = [example_entry <$> ["a"; "b"; "c"; "d"]; [example_entry "e"]] ∧
  mjoin parts = l ≫= split_entry.
Proof.
  intros E l parts. split; [vm_compute; reflexivity|].
  assert (Forall small_name l) as Hall by (repeat constructor; vm_compute; discriminate).
  exact (proj1 (proj1 (process_log_entries_response_spec l Hall))).
Defined.
