(* ===== verification/Channels.v ===== *)
(** * Ankaios: the interfaces of the channels

    [common/src/from_server_interface.rs] and [to_server_interface.rs]: the
    functions that build a message and send it on a bounded channel. The other
    files take what is sent as a list; here sending is a step that waits while
    the channel is full and fails when its receiver is gone. *)

From stdpp Require Import base tactics gmap strings list.
From S2P Require Import Prelude Api WorkloadStates StateManipulation Messages MessageSize.

(** ** Bounded channels *)

Record Channel (A : Type) := {
  channel_capacity : nat;
  buffer : list A;
  receiver_open : bool
}.
Arguments channel_capacity {A}.
Arguments buffer {A}.
Arguments receiver_open {A}.

(** [Wait] is a sender that is not done yet. *)
Inductive SendOutcome (A : Type) :=
  | Done (c : Channel A)
  | Wait
  | SendError.
Arguments Done {A}.
Arguments Wait {A}.
Arguments SendError {A}.

Section channels.
Context {A : Type}.
Implicit Types (c : Channel A) (ms : list A).

Definition channel_new (capacity : nat) : Channel A :=
  {| channel_capacity := capacity; buffer := []; receiver_open := true |}.

Definition channel_send (m : A) c : SendOutcome A :=
  if receiver_open c then
    if decide (length (buffer c) < channel_capacity c) then
      Done {| channel_capacity := channel_capacity c; buffer := buffer c ++ [m]; receiver_open := true |}
    else Wait
  else SendError.

Definition channel_receive c : option (A * Channel A) :=
  match buffer c with
  | [] => None
  | m :: ms =>
    Some (m, {| channel_capacity := channel_capacity c; buffer := ms; receiver_open := receiver_open c |})
  end.

(** A task that sends one message after the other, and ends at an error; and
    the reader of the channel. *)
Record Transfer := {
  to_send : list A;
  transfer_channel : Channel A;
  taken : list A;
  send_failed : bool
}.

Inductive TransferEvent := SenderTurn | ReceiverTurn | ReceiverGone.

Definition transfer_step (t : Transfer) (e : TransferEvent) : Transfer :=
  let c := transfer_channel t in
  match e with
  | SenderTurn =>
    match to_send t with
    | [] => t
    | m :: ms =>
      match channel_send m c with
      | Done c => {| to_send := ms; transfer_channel := c; taken := taken t; send_failed := send_failed t |}
      | Wait => t
      | SendError => {| to_send := []; transfer_channel := c; taken := taken t; send_failed := true |}
      end
    end
  | ReceiverTurn =>
    match channel_receive c with
    | Some (m, c) => {| to_send := to_send t; transfer_channel := c; taken := taken t ++ [m];
                        send_failed := send_failed t |}
    | None => t
    end
  | ReceiverGone =>
    {| to_send := to_send t;
       transfer_channel := {| channel_capacity := channel_capacity c; buffer := []; receiver_open := false |};
       taken := taken t; send_failed := send_failed t |}
  end.

Definition transfer : Transfer → list TransferEvent → Transfer := foldl transfer_step.

Definition transfer_new (capacity : nat) ms : Transfer :=
  {| to_send := ms; transfer_channel := channel_new capacity; taken := []; send_failed := false |}.

(** In order and once; nothing is lost while the receiver is there. *)
Record transfer_wf ms (t : Transfer) : Prop := {
  wf_bounded : length (buffer (transfer_channel t)) ≤ channel_capacity (transfer_channel t);
  wf_taken : taken t `prefix_of` ms;
  wf_complete : receiver_open (transfer_channel t) = true →
    send_failed t = false ∧ taken t ++ buffer (transfer_channel t) ++ to_send t = ms;
  wf_gone : receiver_open (transfer_channel t) = false → buffer (transfer_channel t) = []
}.

Lemma transfer_wf_step ms t e : transfer_wf ms t → transfer_wf ms (transfer_step t e).
Proof.
  intros [Hb Ht Hc Hg]. destruct t as [rest [cap buf op] tk fl]. simpl in *. destruct e; simpl.
  - destruct rest as [|m rest]; [done|]. unfold channel_send. simpl. destruct op; [|by split].
    case_decide; [|done]. destruct (Hc eq_refl) as [-> Heq]. split; simpl; [|done| |done].
    + rewrite length_app. simpl. lia.
    + intros _. split; [done|]. by rewrite <-app_assoc.
  - unfold channel_receive. simpl. destruct buf as [|m buf]; [done|]. destruct op; [|by specialize (Hg eq_refl)].
    simpl in Hb. destruct (Hc eq_refl) as [-> Heq]. split; simpl; [lia| | |done].
    + exists (buf ++ rest). by rewrite <-Heq, <-app_assoc.
    + intros _. split; [done|]. by rewrite <-app_assoc.
  - split; simpl; [lia|done..].
Qed.

Lemma transfer_wf_new capacity ms : transfer_wf ms (transfer_new capacity ms).
Proof. split; simpl; [lia|apply prefix_nil|done|done]. Qed.

Lemma transfer_wf_run ms t events : transfer_wf ms t → transfer_wf ms (transfer t events).
Proof. intros Ht. apply (foldl_preserves (transfer_wf ms)); [|done]. intros t' e. apply transfer_wf_step. Qed.

(** With room for one message, turns of both sides bring everything over. *)
Lemma transfer_all capacity ms c tk :
  0 < capacity → channel_capacity c = capacity → buffer c = [] → receiver_open c = true →
  taken (transfer {| to_send := ms; transfer_channel := c; taken := tk; send_failed := false |}
    (ms ≫= λ _, [SenderTurn; ReceiverTurn])) = tk ++ ms.
Proof.
  intros Hcap. revert c tk. induction ms as [|m ms IH]; intros [cap buf op] tk; simpl; intros -> -> ->.
  - by rewrite app_nil_r.
  - unfold transfer in *. simpl. unfold channel_send. simpl. rewrite decide_True by lia. simpl.
    rewrite IH by done. by rewrite <-app_assoc.
Qed.
End channels.

(** ** The interfaces *)

Definition channel_closed : string := "channel closed".
Definition from_server_interface_error (err : string) : string := "FromServerInterfaceError: '" +:+ err +:+ "'".
Definition to_server_error (err : string) : string := "ToServerError: '" +:+ err +:+ "'".

Section interfaces.
Context {SC : StateConversion} {LE : LogEncoding}.

(** What the functions of [ToServerInterface] send besides those of [Messages.v]
    and [to_server_log_entries_response]. *)
Definition to_server_agent_hello (name : string) (tags : gmap string string) : list ToServer := [AgentHello name tags].
Definition to_server_agent_load_status (name : string) (cpu free_mem : N) : list ToServer :=
  [AgentLoadStatus name cpu free_mem].
Definition to_server_agent_gone (name : string) : list ToServer := [AgentGone name].
Definition to_server_update_state (id : string) (s : CompleteState) (mask : list string) : list ToServer :=
  [request_update_state id s mask].
Definition to_server_update_workload_state (states : list WorkloadStateSpec) : list ToServer :=
  [ToServerUpdateWorkloadState states].
Definition to_server_logs_stop_response (id : string) (r : LogsStopResponse) : list ToServer := [ToServerLogsStopResponse id r].
Definition to_server_goodbye (name : string) : list ToServer := [Goodbye name].
Definition to_server_stop : list ToServer := [ToServerStop].

(** What the functions of [FromServerInterface] send besides those of
    [Messages.v]. *)
Definition from_server_server_hello (name : option string) (added : list WorkloadNamed) : list FromServer :=
  [ServerHello name added].
Definition from_server_update_workload (added : list WorkloadNamed) (deleted : list DeletedWorkload) : list FromServer :=
  [UpdateWorkload added deleted].
Definition from_server_update_workload_state (states : list WorkloadStateSpec) : list FromServer :=
  [UpdateWorkloadState states].
Definition from_server_response (r : Response) : list FromServer := [FromServerResponse r].
Definition from_server_stop : list FromServer := [FromServerStop].
End interfaces.

(** ** Properties *)

(** However the turns of a sender and of the reader of its channel interleave,
    the reader takes a prefix of what the sender sends, once and in order; while
    it is there nothing is lost, and the channel never holds more than its
    capacity. With turns of both sides everything arrives. *)
Theorem channel_transfers_in_order {A} capacity (ms : list A) events :
  let t := transfer (transfer_new capacity ms) events in
  taken t `prefix_of` ms ∧ length (buffer (transfer_channel t)) ≤ channel_capacity (transfer_channel t) ∧
  (receiver_open (transfer_channel t) = true →
     send_failed t = false ∧ taken t ++ buffer (transfer_channel t) ++ to_send t = ms) ∧
  (0 < capacity → ∃ events', taken (transfer (transfer_new capacity ms) events') = ms).
Proof.
  intros t. destruct (transfer_wf_run ms (transfer_new capacity ms) events) as [H1 H2 H3 _];
    [apply transfer_wf_new|].
  split_and!; [done..|]. intros Hcap. eexists.
  exact (transfer_all capacity ms (channel_new capacity) [] Hcap eq_refl eq_refl eq_refl).
Qed.
