(* ===== verification/ServerState.v ===== *)
(** * Ankaios server: the desired state

    [server/src/ankaios_server/server_state.rs]: the state the server keeps,
    the computation of a new desired state from an update request, its
    validation, and the difference of the rendered workloads that is sent to
    the agents. *)

From stdpp Require Import base tactics gmap strings list.
From S2P Require Import Prelude Api WorkloadStates Validation CycleCheck DeleteGraph.
From S2P Require Import ConfigRenderer StateManipulation FieldMask Messages.

Record StateGenerationResult := {
  old_desired_state : StateSpec;
  new_desired_state : StateSpec;
  new_agent_map : AgentMap
}.

Inductive UpdateStateError :=
  | FieldNotFound (field : string)
  | ResultInvalid (reason : string)
  | CycleInDependencies (workload_part_of_cycle : string).

Definition update_state_error_to_string (e : UpdateStateError) : string :=
  match e with
  | FieldNotFound field => "Could not find field " +:+ field
  | ResultInvalid reason => "Resulting State is invalid, reason: '" +:+ reason +:+ "'"
  | CycleInDependencies w => "workload dependency '" +:+ w +:+ "' is part of a cycle."
  end.

Record AddedDeletedWorkloads := {
  added_workloads : list WorkloadNamed;
  deleted_workloads : list DeletedWorkload
}.

Record ServerState := {
  state : CompleteStateSpec;
  rendered_workloads : RenderedWorkloads;
  delete_graph : DeleteGraph
}.

Definition server_state_default : ServerState :=
  {| state := complete_state_spec_default; rendered_workloads := ∅; delete_graph := ∅ |}.

Definition deleted_workload_of (w : WorkloadNamed) : DeletedWorkload :=
  {| deleted_instance_name := instance_name w; deleted_dependencies := ∅ |}.

Section server_state.
Context `{IterOrder}.

(** ** Difference of the rendered workloads *)

(** The bodies of the two loops of [extract_added_and_deleted_workloads]. *)
Definition compare_current (new_workloads : RenderedWorkloads) (acc : AddedDeletedWorkloads)
    (current : string * WorkloadNamed) : AddedDeletedWorkloads :=
  let '(wl_name, wls) := current in
  match new_workloads !! wl_name with
  | Some new_wls =>
    if decide (wls ≠ new_wls) then
      {| added_workloads := added_workloads acc ++ [new_wls];
         deleted_workloads := deleted_workloads acc ++ [deleted_workload_of wls] |}
    else acc
  | None =>
    {| added_workloads := added_workloads acc;
       deleted_workloads := deleted_workloads acc ++ [deleted_workload_of wls] |}
  end.

Definition compare_new (current_workloads : RenderedWorkloads) (acc : AddedDeletedWorkloads)
    (new : string * WorkloadNamed) : AddedDeletedWorkloads :=
  let '(new_wl_name, new_wls) := new in
  match current_workloads !! new_wl_name with
  | Some _ => acc
  | None =>
    {| added_workloads := added_workloads acc ++ [new_wls];
       deleted_workloads := deleted_workloads acc |}
  end.

Definition extract_added_and_deleted_workloads (current_workloads new_workloads : RenderedWorkloads) :
    option AddedDeletedWorkloads :=
  let acc := {| added_workloads := []; deleted_workloads := [] |} in
  let acc := foldl (compare_current new_workloads) acc (map_iter current_workloads) in
  let acc := foldl (compare_new current_workloads) acc (map_iter new_workloads) in
  match added_workloads acc, deleted_workloads acc with
  | [], [] => None
  | _, _ => Some acc
  end.

(** ** Queries *)

Definition get_workloads_for_agent (s : ServerState) (agent : string) : list WorkloadNamed :=
  (filter (λ w, agent_name (instance_name w.2) = agent) (map_iter (rendered_workloads s))).*2.

Definition desired_state_contains_instance_name (s : ServerState)
    (n : WorkloadInstanceNameSpec) : bool :=
  match rendered_workloads s !! workload_name n with
  | Some w =>
    String.eqb (agent_name (instance_name w)) (agent_name n)
    && String.eqb (instance_id (instance_name w)) (instance_id n)
  | None => false
  end.

(** ** Updates *)

Definition set_desired_state (s : ServerState) (new_desired_state : StateSpec) : ServerState :=
  {| state :=
       {| desired_state := new_desired_state;
          complete_workload_states := complete_workload_states (state s);
          agents := agents (state s) |};
     rendered_workloads := rendered_workloads s;
     delete_graph := delete_graph s |}.

Definition start_nodes (added : list WorkloadNamed) : list string :=
  omap (λ w, if decide (dependencies (workload w) ≠ ∅)
             then Some (workload_name (instance_name w)) else None) added.

Definition cleanup_state (s : ServerState) (new_workload_states : list WorkloadStateSpec) :
    ServerState :=
  {| state := state s; rendered_workloads := rendered_workloads s;
     delete_graph :=
       remove_deleted_workloads_from_delete_graph (delete_graph s) new_workload_states |}.

(** [cycle_check::dfs] with the fuel that [CycleCheck] proves to be enough. *)
Definition cyclic_workload (g : WorkloadMap) (nodes : list string) : option string :=
  mjoin (dfs g (Some nodes)).

Section update.
Context `{Sha256} `{TemplateEngine}.

(** The part of [update] before the first change of the server state. *)
Definition prepare_update (s : ServerState) (new_desired_state : StateSpec) :
    result UpdateStateError (RenderedWorkloads * option AddedDeletedWorkloads) :=
  new_rendered_workloads ←
    map_err (λ err, ResultInvalid (config_render_error_to_string err))
      (render_workloads (workloads new_desired_state) (configs new_desired_state));
  _ ← map_err ResultInvalid (validate new_rendered_workloads);
  let added_deleted :=
    extract_added_and_deleted_workloads (rendered_workloads s) new_rendered_workloads in
  match added_deleted with
  | Some ad =>
    match cyclic_workload (workloads new_desired_state) (start_nodes (added_workloads ad)) with
    | Some workload_part_of_cycle => Err (CycleInDependencies workload_part_of_cycle)
    | None => Ok (new_rendered_workloads, added_deleted)
    end
  | None => Ok (new_rendered_workloads, None)
  end.

Definition update (s : ServerState) (new_desired_state : StateSpec) :
    result UpdateStateError (option AddedDeletedWorkloads) * ServerState :=
  match prepare_update s new_desired_state with
  | Err e => (Err e, s)
  | Ok (new_rendered_workloads, Some ad) =>
    let delete_graph := insert_delete_conditions (delete_graph s) (added_workloads ad) in
    let deleted := apply_delete_conditions_to delete_graph (deleted_workloads ad) in
    (Ok (Some {| added_workloads := added_workloads ad; deleted_workloads := deleted |}),
     {| state := state (set_desired_state s new_desired_state);
        rendered_workloads := new_rendered_workloads;
        delete_graph := delete_graph |})
  | Ok (_, None) => (Ok None, set_desired_state s new_desired_state)
  end.
End update.

Section generate.
Context `{YamlMapping} `{StateConversion}.

(** The loop over the update mask. *)
Fixpoint apply_update_mask (state_from_update : Value) (update_mask : list string)
    (new_state : Value) : result UpdateStateError Value :=
  match update_mask with
  | [] => Ok new_state
  | field :: update_mask =>
    let path := path_from field in
    match object_get state_from_update path with
    | Some field_from_update =>
      match object_set new_state path field_from_update with
      | Ok new_state => apply_update_mask state_from_update update_mask new_state
      | Err _ => Err (FieldNotFound (path_to_string path))
      end
    | None =>
      match object_remove new_state path with
      | Ok (new_state, _) => apply_update_mask state_from_update update_mask new_state
      | Err _ => Err (FieldNotFound (path_to_string path))
      end
    end
  end.

Definition generation_result (s : ServerState) (new_complete_state : CompleteStateSpec) :
    StateGenerationResult :=
  {| old_desired_state := desired_state (state s);
     new_desired_state := desired_state new_complete_state;
     new_agent_map := agents new_complete_state |}.

Definition generate_new_state (s : ServerState) (updated_state : CompleteState)
    (update_mask : list string) : result UpdateStateError StateGenerationResult :=
  let could_not_parse err :=
    ResultInvalid ("Could not parse into CompleteState: '" +:+ err +:+ "'") in
  match update_mask with
  | [] =>
    new_complete_state ← map_err could_not_parse (spec_of_complete_state updated_state);
    Ok (generation_result s new_complete_state)
  | _ =>
    old_state ←
      map_err (λ err, ResultInvalid ("Failed to parse current state, '" +:+ err +:+ "'"))
        (spec_to_value (state s));
    state_from_update ←
      map_err (λ err, ResultInvalid ("Failed to parse new state, '" +:+ err +:+ "'"))
        (complete_state_to_value updated_state);
    new_state ← apply_update_mask state_from_update update_mask old_state;
    new_complete_state ← map_err could_not_parse (spec_from_value new_state);
    Ok (generation_result s new_complete_state)
  end.

(** The outer [None] is the panic of the conversion to YAML. *)
Definition get_complete_state_by_field_mask (s : ServerState) (request : CompleteStateRequest)
    (workload_states_map : WorkloadStatesMap) (agent_map : AgentMap) :
    option (result string CompleteState) :=
  let current_complete_state :=
    complete_state_of_spec
      {| desired_state := desired_state (state s);
         complete_workload_states := workload_states_map; agents := agent_map |} in
  match field_mask request with
  | [] => Some (Ok current_complete_state)
  | _ =>
    match complete_state_to_value current_complete_state with
    | Err _ => None
    | Ok current_value =>
      return_state ← filter_state current_value (field_mask request);
      Some (return_state ← return_state;
            map_err (λ err, "The result for CompleteState is invalid: '" +:+ err +:+ "'")
              (complete_state_from_value return_state))
    end
  end.
End generate.
End server_state.

(** ** Lemmas *)

Lemma apply_delete_conditions_name dg d :
  deleted_instance_name (apply_delete_conditions dg d) = deleted_instance_name d.
Proof. unfold apply_delete_conditions. by destruct (dg !! _). Qed.

Section difference.
Context `{IterOrder}.
Implicit Types current new m : RenderedWorkloads.

Definition updated_or_none new (p : string * WorkloadNamed) : option WorkloadNamed :=
  match new !! p.1 with
  | Some new_wls => if decide (p.2 ≠ new_wls) then Some new_wls else None
  | None => None
  end.
Definition deleted_or_none new (p : string * WorkloadNamed) : option DeletedWorkload :=
  if decide (new !! p.1 ≠ Some p.2) then Some (deleted_workload_of p.2) else None.
Definition new_or_none current (p : string * WorkloadNamed) : option WorkloadNamed :=
  match current !! p.1 with Some _ => None | None => Some p.2 end.

Lemma compare_current_loop new acc l :
  foldl (compare_current new) acc l =
  {| added_workloads := added_workloads acc ++ omap (updated_or_none new) l;
     deleted_workloads := deleted_workloads acc ++ omap (deleted_or_none new) l |}.
Proof.
  revert acc. induction l as [|[n w] l IH]; intros acc; cbn [foldl].
  - simpl. rewrite !app_nil_r. by destruct acc.
  - rewrite IH. csimpl.
    change (updated_or_none new (n, w)) with
      (match new !! n with Some w' => if decide (w ≠ w') then Some w' else None | None => None end).
    change (deleted_or_none new (n, w)) with
      (if decide (new !! n ≠ Some w) then Some (deleted_workload_of w) else None).
    unfold compare_current. destruct (new !! n) as [w'|] eqn:Hn.
    + destruct (decide (w = w')) as [->|Hne].
      * rewrite !decide_False by (intros Hne; by apply Hne). done.
      * rewrite !decide_True by congruence. simpl. by rewrite <-!app_assoc.
    + rewrite decide_True by done. simpl. by rewrite <-!app_assoc.
Qed.

Lemma compare_new_loop current acc l :
  foldl (compare_new current) acc l =
  {| added_workloads := added_workloads acc ++ omap (new_or_none current) l;
     deleted_workloads := deleted_workloads acc |}.
Proof.
  revert acc. induction l as [|[n w] l IH]; intros acc; cbn [foldl].
  - simpl. rewrite app_nil_r. by destruct acc.
  - rewrite IH. csimpl.
    change (new_or_none current (n, w)) with
      (match current !! n with Some _ => None | None => Some w end).
    unfold compare_new. destruct (current !! n); simpl; [done|]. by rewrite <-app_assoc.
Qed.

(** The lists before the test for emptiness. *)
Definition all_added current new : list WorkloadNamed :=
  omap (updated_or_none new) (map_iter current) ++ omap (new_or_none current) (map_iter new).
Definition all_deleted current new : list DeletedWorkload :=
  omap (deleted_or_none new) (map_iter current).

Lemma extract_lists current new :
  extract_added_and_deleted_workloads current new =
  match all_added current new, all_deleted current new with
  | [], [] => None
  | added, deleted => Some {| added_workloads := added; deleted_workloads := deleted |}
  end.
Proof.
  unfold extract_added_and_deleted_workloads. rewrite compare_current_loop, compare_new_loop.
  unfold all_added, all_deleted. simpl.
  by destruct (omap (updated_or_none new) _ ++ _), (omap (deleted_or_none new) _).
Qed.

Lemma elem_of_all_added current new w :
  w ∈ all_added current new ↔ ∃ n, new !! n = Some w ∧ current !! n ≠ Some w.
Proof.
  unfold all_added. rewrite elem_of_app, !list_elem_of_omap. split.
  - intros [([n w'] & Hin%elem_of_map_iter & Hu)|([n w'] & Hin%elem_of_map_iter & Hu)].
    + unfold updated_or_none in Hu. simpl in Hu. destruct (new !! n) as [w2|] eqn:Hn; [|done].
      case_decide; simplify_eq. exists n. split; [done|]. congruence.
    + unfold new_or_none in Hu. simpl in Hu. destruct (current !! n) eqn:Hn; simplify_eq.
      exists n. split; [done|]. congruence.
  - intros (n & Hnew & Hcur). destruct (current !! n) as [w'|] eqn:Hn.
    + left. exists (n, w'). split; [by apply elem_of_map_iter|]. unfold updated_or_none. simpl.
      rewrite Hnew. rewrite decide_True; [done|]. congruence.
    + right. exists (n, w). split; [by apply elem_of_map_iter|]. unfold new_or_none. simpl.
      by rewrite Hn.
Qed.

Lemma elem_of_all_deleted current new d :
  d ∈ all_deleted current new ↔
  ∃ n w, current !! n = Some w ∧ new !! n ≠ Some w ∧ d = deleted_workload_of w.
Proof.
  unfold all_deleted. rewrite list_elem_of_omap. split.
  - intros ([n w] & Hin%elem_of_map_iter & Hd). unfold deleted_or_none in Hd. simpl in Hd.
    case_decide; simplify_eq. eauto.
  - intros (n & w & Hcur & Hnew & ->). exists (n, w). split; [by apply elem_of_map_iter|].
    unfold deleted_or_none. simpl. by rewrite decide_True.
Qed.

Lemma all_unchanged current new :
  all_added current new = [] → all_deleted current new = [] → current = new.
Proof.
  intros Ha Hd. apply map_eq. intros n. apply option_eq. intros w. split; intros Hw.
  - destruct (decide (new !! n = Some w)) as [?|Hne]; [done|].
    assert (deleted_workload_of w ∈ all_deleted current new) as Hin
      by (apply elem_of_all_deleted; eauto).
    rewrite Hd in Hin. by apply elem_of_nil in Hin.
  - destruct (decide (current !! n = Some w)) as [?|Hne]; [done|].
    assert (w ∈ all_added current new) as Hin by (apply elem_of_all_added; eauto).
    rewrite Ha in Hin. by apply elem_of_nil in Hin.
Qed.

Lemma extract_same m : extract_added_and_deleted_workloads m m = None.
Proof.
  rewrite extract_lists.
  destruct (all_added m m) as [|w l] eqn:Ha.
  - destruct (all_deleted m m) as [|d l] eqn:Hd; [done|].
    assert (d ∈ all_deleted m m) as Hin by (rewrite Hd; by left).
    apply elem_of_all_deleted in Hin as (n & w & ? & ? & _). done.
  - assert (w ∈ all_added m m) as Hin by (rewrite Ha; by left).
    apply elem_of_all_added in Hin as (n & ? & ?). done.
Qed.

Lemma extract_None current new :
  extract_added_and_deleted_workloads current new = None ↔ current = new.
Proof.
  split; [|intros ->; apply extract_same]. rewrite extract_lists.
  destruct (all_added current new) eqn:Ha, (all_deleted current new) eqn:Hd; try done.
  intros _. by apply all_unchanged.
Qed.

Lemma extract_Some current new ad :
  extract_added_and_deleted_workloads current new = Some ad →
  ad = {| added_workloads := all_added current new; deleted_workloads := all_deleted current new |}.
Proof.
  rewrite extract_lists. by destruct (all_added current new), (all_deleted current new);
    intros; simplify_eq.
Qed.

(** Workloads are stored under their own names. *)
Definition keyed (m : RenderedWorkloads) : Prop :=
  ∀ n w, m !! n = Some w → workload_name (instance_name w) = n.

(** What a receiver of the difference does: stop the deleted workloads, then
    start the added ones. *)
Definition apply_difference (m : RenderedWorkloads) (ad : AddedDeletedWorkloads) :
    RenderedWorkloads :=
  let m := foldr (λ d, delete (workload_name (deleted_instance_name d))) m
             (deleted_workloads ad) in
  foldr (λ w, insert (workload_name (instance_name w)) w) m (added_workloads ad).

Lemma delete_all_apply_conditions dg m (l : list DeletedWorkload) :
  foldr (λ d, delete (workload_name (deleted_instance_name d))) m (apply_delete_conditions dg <$> l)
  = foldr (λ d, delete (workload_name (deleted_instance_name d))) m l.
Proof.
  induction l as [|d l IH]; [done|]. rewrite fmap_cons. cbn [foldr].
  by rewrite IH, apply_delete_conditions_name.
Qed.

Lemma lookup_delete_all (l : list DeletedWorkload) m n :
  foldr (λ d, delete (workload_name (deleted_instance_name d))) m l !! n =
  if decide (n ∈ workload_name ∘ deleted_instance_name <$> l)
  then None else (m !! n : option WorkloadNamed).
Proof.
  induction l as [|d l IH]; cbn [foldr].
  - rewrite decide_False; [done|]. by intros ?%elem_of_nil.
  - rewrite fmap_cons.
    destruct (decide (workload_name (deleted_instance_name d) = n)) as [<-|Hne].
    + rewrite lookup_delete_eq, decide_True; [done|]. by left.
    + rewrite lookup_delete_ne, IH by done. apply decide_ext. rewrite elem_of_cons. naive_solver.
Qed.

Lemma lookup_insert_all_in (l : list WorkloadNamed) m n w :
  w ∈ l → workload_name (instance_name w) = n →
  (∀ w', w' ∈ l → workload_name (instance_name w') = n → w' = w) →
  foldr (λ w, insert (workload_name (instance_name w)) w) m l !! n = Some w.
Proof.
  induction l as [|w' l IH]; simpl; [by intros ?%elem_of_nil|].
  intros Hin Hn Huniq. destruct (decide (workload_name (instance_name w') = n)) as [Hw'|Hne].
  - rewrite (Huniq w'), Hn, lookup_insert_eq; [done|by left|done].
  - rewrite lookup_insert_ne by done. apply IH; [|done|].
    + apply elem_of_cons in Hin as [->|?]; done.
    + intros w2 ? ?. apply Huniq; [by right|done].
Qed.

Lemma lookup_insert_all_out (l : list WorkloadNamed) m n :
  (∀ w, w ∈ l → workload_name (instance_name w) ≠ n) →
  foldr (λ w, insert (workload_name (instance_name w)) w) m l !! n = m !! n.
Proof.
  induction l as [|w l IH]; intros Hl; simpl; [done|].
  rewrite lookup_insert_ne by (apply Hl; by left). apply IH. intros w' ?. apply Hl. by right.
Qed.

Lemma apply_difference_new current new :
  keyed current → keyed new →
  apply_difference current
    {| added_workloads := all_added current new; deleted_workloads := all_deleted current new |}
  = new.
Proof.
  intros Hcur Hnew. apply map_eq. intros n. unfold apply_difference. simpl.
  destruct (decide (current !! n = new !! n)) as [Heq|Hne].
  - rewrite lookup_insert_all_out, lookup_delete_all.
    + rewrite decide_False; [done|].
      intros (d & Hn & Hd)%list_elem_of_fmap.
      apply elem_of_all_deleted in Hd as (n' & w & Hw & Hw' & ->). simpl in Hn.
      rewrite (Hcur _ _ Hw) in Hn. subst n'. congruence.
    + intros w (n' & Hw & Hw')%elem_of_all_added Hn.
      rewrite (Hnew _ _ Hw) in Hn. subst n'. congruence.
  - destruct (new !! n) as [w|] eqn:Hw.
    + apply lookup_insert_all_in; [apply elem_of_all_added; eauto|by apply Hnew|].
      intros w' (n' & Hw' & _)%elem_of_all_added Hn. rewrite (Hnew _ _ Hw') in Hn. congruence.
    + rewrite lookup_insert_all_out, lookup_delete_all.
      * rewrite decide_True; [done|]. destruct (current !! n) as [w|] eqn:Hc; [|done].
        apply list_elem_of_fmap. exists (deleted_workload_of w).
        split; [simpl; by rewrite (Hcur _ _ Hc)|]. apply elem_of_all_deleted.
        exists n, w. split; [done|]. split; [|done]. congruence.
      * intros w (n' & Hw' & _)%elem_of_all_added Hn. rewrite (Hnew _ _ Hw') in Hn. congruence.
Qed.
End difference.

Section update_lemmas.
Context `{IterOrder} `{Sha256} `{TemplateEngine}.

Lemma render_workloads_lookup ws cfg rendered n wn :
  render_workloads ws cfg = Ok rendered → rendered !! n = Some wn →
  workload_name (instance_name wn) = n ∧
  ∃ w, ws !! n = Some w ∧ dependencies (workload wn) = dependencies w.
Proof.
  unfold render_workloads. rewrite try_traverse_ok. intros Hall Hn. specialize (Hall n).
  rewrite Hn in Hall. destruct (ws !! n) as [w|]; [|done]. destruct Hall as (? & Hr & [= <-]).
  apply render_workload_ok in Hr as (? & ? & ? & ? & ? & ?). eauto.
Qed.

Lemma render_workloads_lookup_back ws cfg rendered n w :
  render_workloads ws cfg = Ok rendered → ws !! n = Some w →
  ∃ wn, rendered !! n = Some wn ∧ dependencies (workload wn) = dependencies w.
Proof.
  unfold render_workloads. rewrite try_traverse_ok. intros Hall Hn. specialize (Hall n).
  rewrite Hn in Hall. destruct Hall as (wn & Hr & ?).
  apply render_workload_ok in Hr as (? & ? & ? & ? & ? & ?). eauto.
Qed.

Lemma render_workloads_keyed ws cfg rendered :
  render_workloads ws cfg = Ok rendered → keyed rendered.
Proof. intros Hr n w Hn. by destruct (render_workloads_lookup _ _ _ _ _ Hr Hn). Qed.

Lemma cyclic_workload_Some g nodes w : cyclic_workload g nodes = Some w → tc (edge g) w w.
Proof.
  unfold cyclic_workload. destruct (dfs g (Some nodes)) as [[d|]|] eqn:Hdfs; simpl; try done.
  intros [= ->]. by eapply dfs_reported_on_cycle.
Qed.

Lemma cyclic_workload_None g nodes : cyclic_workload g nodes = None → dfs g (Some nodes) = Some None.
Proof.
  unfold cyclic_workload. destruct (dfs_total g (Some nodes)) as [r ->]. simpl. by intros ->.
Qed.

(** No workload of the desired state depends on itself. *)
Definition no_self_dependency (g : WorkloadMap) : Prop := ∀ w, ¬ edge g w w.

(** The rendered workloads are those of the desired state and valid. *)
Record server_wf (s : ServerState) : Prop := {
  wf_rendered :
    render_workloads (workloads (desired_state (state s))) (configs (desired_state (state s)))
    = Ok (rendered_workloads s);
  wf_valid : validate (rendered_workloads s) = Ok ();
  wf_delete_graph : delete_graph_wf (delete_graph s);
  wf_no_self_dependency : no_self_dependency (workloads (desired_state (state s)))
}.

Lemma prepare_update_ok s ds r o :
  prepare_update s ds = Ok (r, o) →
  render_workloads (workloads ds) (configs ds) = Ok r ∧ validate r = Ok () ∧
  o = extract_added_and_deleted_workloads (rendered_workloads s) r ∧
  ∀ ad, o = Some ad → dfs (workloads ds) (Some (start_nodes (added_workloads ad))) = Some None.
Proof.
  unfold prepare_update. destruct (render_workloads _ _) as [r'|] eqn:Hr; simpl; [|done].
  destruct (validate r') as [[]|] eqn:Hv; simpl; [|done].
  destruct (extract_added_and_deleted_workloads _ _) as [ad|] eqn:Had.
  - destruct (cyclic_workload _ _) eqn:Hc; [done|]. intros [= <- <-].
    apply cyclic_workload_None in Hc.
    split; [done|]. split; [done|]. split; [done|]. by intros ad' [= <-].
  - intros [= <- <-]. done.
Qed.

Lemma prepare_update_err s ds e :
  prepare_update s ds = Err e →
  match e with
  | CycleInDependencies w => tc (edge (workloads ds)) w w
  | ResultInvalid reason =>
    (∃ err, render_workloads (workloads ds) (configs ds) = Err err ∧
            reason = config_render_error_to_string err) ∨
    (∃ r, render_workloads (workloads ds) (configs ds) = Ok r ∧ validate r = Err reason)
  | FieldNotFound _ => False
  end.
Proof.
  unfold prepare_update. destruct (render_workloads _ _) as [r|err] eqn:Hr; simpl.
  - destruct (validate r) as [[]|reason] eqn:Hv; simpl; [|intros [= <-]; eauto].
    destruct (extract_added_and_deleted_workloads _ _) as [ad|]; [|done].
    destruct (cyclic_workload _ _) as [w|] eqn:Hc; [|done]. intros [= <-].
    by eapply cyclic_workload_Some.
  - intros [= <-]. left. eauto.
Qed.

Lemma edge_dependencies g n w d : g !! n = Some w → edge g n d ↔ d ∈ dom (dependencies w).
Proof. intros Hn. unfold edge. rewrite Hn. naive_solver. Qed.

Lemma prepare_update_no_self s ds r o :
  server_wf s → prepare_update s ds = Ok (r, o) → no_self_dependency (workloads ds).
Proof.
  intros Hs (Hr & _ & Ho & Hdfs)%prepare_update_ok n Hself.
  pose proof Hself as (w & Hn & Hdep).
  destruct (render_workloads_lookup_back _ _ _ _ _ Hr Hn) as (wn & Hwn & Hdeps).
  destruct (decide (rendered_workloads s !! n = Some wn)) as [Hold|Hchanged].
  - destruct (render_workloads_lookup _ _ _ _ _ (wf_rendered s Hs) Hold) as (_ & w' & Hw' & Hd').
    apply (wf_no_self_dependency s Hs n). rewrite (edge_dependencies _ _ _ _ Hw'). congruence.
  - destruct o as [ad|].
    + symmetry in Ho. apply extract_Some in Ho as ->.
      eapply (dfs_no_self_dependency (workloads ds) _ n n); [by apply Hdfs| |done|by eexists|done].
      unfold start_nodes. apply list_elem_of_omap. exists wn. split.
      * apply elem_of_all_added. eauto.
      * rewrite decide_True.
        -- by rewrite (proj1 (render_workloads_lookup _ _ _ _ _ Hr Hwn)).
        -- rewrite Hdeps. intros Hempty. rewrite Hempty in Hdep. set_solver.
    + symmetry in Ho. apply extract_None in Ho. congruence.
Qed.

Lemma server_wf_update s ds : server_wf s → server_wf (update s ds).2.
Proof.
  intros Hs. unfold update. destruct (prepare_update s ds) as [[r o]|e] eqn:Hprep; [|done].
  pose proof (prepare_update_no_self _ _ _ _ Hs Hprep) as Hself.
  apply prepare_update_ok in Hprep as (Hr & Hv & Ho & _).
  destruct o as [ad|]; simpl; split; simpl; try done.
  - by apply delete_graph_wf_insert, wf_delete_graph.
  - symmetry in Ho. apply extract_None in Ho as ->. done.
  - by apply wf_valid.
  - by apply wf_delete_graph.
Qed.

Lemma update_err_unchanged s ds e s' : update s ds = (Err e, s') → s' = s.
Proof. unfold update. by destruct (prepare_update s ds) as [[r [ad|]]|e']; intros [= _ <-]. Qed.

Lemma server_wf_cleanup s states : server_wf s → server_wf (cleanup_state s states).
Proof. intros [? ? ? ?]. split; simpl; try done. by apply delete_graph_wf_remove. Qed.

Lemma server_wf_default : server_wf server_state_default.
Proof.
  split; simpl.
  - apply try_traverse_ok. intros n. by rewrite !lookup_empty.
  - apply validate_ok. intros n w. by rewrite lookup_empty.
  - apply delete_graph_wf_empty.
  - intros w (? & ? & _). by rewrite lookup_empty in *.
Qed.
End update_lemmas.

#[export] Hint Resolve server_wf_default server_wf_update server_wf_cleanup : wf.

(** ** Properties *)

Inductive server_state_step `{IterOrder, Sha256, TemplateEngine} : ServerState → ServerState → Prop :=
  | step_update s ds : server_state_step s (update s ds).2
  | step_cleanup s states : server_state_step s (cleanup_state s states).

(** C24: in every server state reached from the initial one by updates, accepted
    or not, and reported workload states, the rendered workloads are exactly
    the rendering of the desired state, they passed the field validation, the
    delete graph is well-formed and no workload depends on itself. *)
Theorem server_state_invariant `{IterOrder, Sha256, TemplateEngine} s :
  rtc server_state_step server_state_default s → server_wf s.
Proof.
  intros Hs. apply (rtc_ind_r (R:=server_state_step) server_wf server_state_default); [| |done].
  - apply server_wf_default.
  - intros s1 s2 _ [] Hwf; [by apply server_wf_update|by apply server_wf_cleanup].
Qed.

(** An update that is rejected leaves the server state as it is, and the
    reason given is right: a configuration that does not render, a rendered
    workload that is not valid, or a workload that is on a dependency cycle. *)
Theorem update_rejected `{IterOrder, Sha256, TemplateEngine} s ds e s' :
  update s ds = (Err e, s') →
  s' = s ∧
  match e with
  | CycleInDependencies w => tc (edge (workloads ds)) w w
  | ResultInvalid reason =>
    (∃ err, render_workloads (workloads ds) (configs ds) = Err err ∧
            reason = config_render_error_to_string err) ∨
    (∃ r, render_workloads (workloads ds) (configs ds) = Ok r ∧ validate r = Err reason)
  | FieldNotFound _ => False
  end.
Proof.
  unfold update. destruct (prepare_update s ds) as [[r [ad|]]|e'] eqn:Hprep; [done..|].
  intros [= <- <-]. split; [done|]. by apply prepare_update_err in Hprep.
Qed.

(** C5: an accepted update stores the new desired state, and the difference it
    returns, applied to the old rendered workloads by a receiver that stops
    the deleted and starts the added workloads, gives exactly the new rendered
    workloads; no difference is returned exactly if they did not change. *)
Theorem update_accepted `{IterOrder, Sha256, TemplateEngine} s ds o s' :
  server_wf s → update s ds = (Ok o, s') →
  desired_state (state s') = ds ∧
  (o = None ↔ rendered_workloads s = rendered_workloads s') ∧
  ∀ ad, o = Some ad →
    apply_difference (rendered_workloads s) ad = rendered_workloads s' ∧
    (∀ w, w ∈ added_workloads ad ↔
      ∃ n, rendered_workloads s' !! n = Some w ∧ rendered_workloads s !! n ≠ Some w) ∧
    (∀ d, d ∈ deleted_workloads ad → ∃ n w, rendered_workloads s !! n = Some w ∧
      rendered_workloads s' !! n ≠ Some w ∧ deleted_instance_name d = instance_name w).
Proof.
  intros Hs. unfold update. destruct (prepare_update s ds) as [[r o']|e] eqn:Hprep; [|done].
  apply prepare_update_ok in Hprep as (Hr & Hv & Ho & _). symmetry in Ho.
  destruct o' as [ad|]; intros [= <- <-]; simpl.
  - split; [done|]. split.
    { split; [done|]. intros Heq. apply extract_None in Heq. congruence. }
    intros ad' [= <-]. pose proof (extract_Some _ _ _ Ho) as ->. simpl. split; [|split].
    + etrans; [|apply (apply_difference_new (rendered_workloads s) r)].
      * unfold apply_difference. simpl. f_equal. unfold apply_delete_conditions_to.
        apply delete_all_apply_conditions.
      * eapply render_workloads_keyed, (wf_rendered s Hs).
      * by eapply render_workloads_keyed.
    + apply elem_of_all_added.
    + intros d (d' & -> & (n & w & ? & ? & ->)%elem_of_all_deleted)%list_elem_of_fmap.
      exists n, w. by rewrite apply_delete_conditions_name.
  - split; [done|]. split; [by split|done].
Qed.

(** A desired state computed with an update mask.  Fields that neither
    extend nor are extended by a field of the mask keep the value of the old
    state; the last field of the mask has the value of the update, and leads to
    nothing if the update has no such field. *)
Theorem apply_update_mask_spec `{YamlMapping} upd mask last_field old new :
  apply_update_mask upd (mask ++ [last_field]) old = Ok new →
  object_get new (path_from last_field) = object_get upd (path_from last_field) ∧
  ∀ q, (∀ f, f ∈ mask ++ [last_field] →
          ¬ path_from f `prefix_of` q ∧ ¬ q `prefix_of` path_from f) →
    object_get new q = object_get old q.
Proof.
  revert old. induction mask as [|f mask IH]; intros old; simpl.
  - destruct (object_get upd (path_from last_field)) as [v|] eqn:Hv.
    + destruct (object_set old (path_from last_field) v) as [new'|] eqn:Hset; [|done].
      intros [= <-]. apply object_set_ok in Hset as [Hget Hother]. split; [done|].
      intros q Hq. apply Hother; apply (Hq last_field); by left.
    + destruct (object_remove old (path_from last_field)) as [[new' removed]|] eqn:Hrem; [|done].
      intros [= <-]. apply object_remove_ok in Hrem as (Hget & _ & Hother). split; [done|].
      intros q Hq. apply Hother; apply (Hq last_field); by left.
  - assert (∀ next, apply_update_mask upd (mask ++ [last_field]) next = Ok new →
      (∀ q, ¬ path_from f `prefix_of` q → ¬ q `prefix_of` path_from f →
        object_get next q = object_get old q) →
      object_get new (path_from last_field) = object_get upd (path_from last_field) ∧
      ∀ q, (∀ f', f' ∈ f :: mask ++ [last_field] →
              ¬ path_from f' `prefix_of` q ∧ ¬ q `prefix_of` path_from f') →
        object_get new q = object_get old q) as Hstep.
    { intros next [Hlast Hothers]%IH Hnext. split; [done|]. intros q Hq. rewrite Hothers.
      - apply Hnext; apply (Hq f); by left.
      - intros f' ?. apply Hq. by right. }
    destruct (object_get upd (path_from f)) as [v|].
    + destruct (object_set old (path_from f) v) as [next|] eqn:Hset; [|done].
      intros Hnew. apply (Hstep next Hnew). by eapply object_set_ok.
    + destruct (object_remove old (path_from f)) as [[next removed]|] eqn:Hrem; [|done].
      intros Hnew. apply (Hstep next Hnew). by eapply object_remove_ok.
Qed.

(** The workloads sent to an agent that connects are exactly the rendered
    workloads of the desired state that are assigned to it, and a log request
    is only served for instances of the desired state. *)
Theorem get_workloads_for_agent_spec `{IterOrder} s agent :
  (∀ w, w ∈ get_workloads_for_agent s agent ↔
    agent_name (instance_name w) = agent ∧ ∃ n, rendered_workloads s !! n = Some w) ∧
  (keyed (rendered_workloads s) → ∀ n,
    desired_state_contains_instance_name s n = true ↔
    ∃ w, w ∈ get_workloads_for_agent s (agent_name n) ∧ instance_name w = n).
Proof.
  assert (∀ agent w, w ∈ get_workloads_for_agent s agent ↔
    agent_name (instance_name w) = agent ∧ ∃ n, rendered_workloads s !! n = Some w) as Hagent.
  { intros a w. unfold get_workloads_for_agent. rewrite list_elem_of_fmap. split.
    - intros ([n w'] & -> & [Ha Hin%elem_of_map_iter]%list_elem_of_filter). eauto.
    - intros [Ha [n Hn]]. exists (n, w). split; [done|]. apply list_elem_of_filter.
      by rewrite elem_of_map_iter. }
  split; [apply Hagent|]. intros Hkeyed n. unfold desired_state_contains_instance_name.
  setoid_rewrite Hagent. destruct (rendered_workloads s !! workload_name n) as [w|] eqn:Hw.
  - rewrite andb_true_iff, !String.eqb_eq. split.
    + intros [Ha Hi]. exists w. split; [eauto|]. pose proof (Hkeyed _ _ Hw).
      destruct (instance_name w), n; simpl in *. congruence.
    + intros (w' & [_ [n' Hw']] & Hn). rewrite <-(Hkeyed _ _ Hw') in Hw'.
      rewrite Hn, Hw in Hw'. by injection Hw' as <-; subst n.
  - split; [done|]. intros (w' & [_ [n' Hw']] & Hn). rewrite <-(Hkeyed _ _ Hw') in Hw'.
    rewrite Hn in Hw'. congruence.
Qed.

(** ** Examples *)

Definition example_state : StateSpec :=
  {| api_version := CURRENT_API_VERSION; workloads := example_workloads; configs := ∅ |}.
Definition example_cyclic_state : StateSpec :=
  {| api_version := CURRENT_API_VERSION;
     workloads := {["a" := set_dependencies workload_default {["a" := AddCondRunning]}]};
     configs := ∅ |}.

Abbreviation example_update := (@update key_order example_sha plain_engine).
Abbreviation example_server_wf := (@server_wf key_order example_sha plain_engine).

Lemma server_state_invariant_witness :
  example_server_wf (example_update server_state_default example_state).2.
Proof.
  apply (@server_state_invariant key_order example_sha plain_engine). apply rtc_once, step_update.
Defined.

Lemma update_rejected_witness :
  (example_update server_state_default example_cyclic_state).2 = server_state_default.
Proof.
  apply (@update_rejected key_order example_sha plain_engine server_state_default
    example_cyclic_state (CycleInDependencies "a")).
  vm_compute. reflexivity.
Defined.

Lemma update_accepted_witness :
  desired_state (state (example_update server_state_default example_state).2) = example_state.
Proof.
  destruct (example_update server_state_default example_state) as [[o|e] s'] eqn:Hu.
  - exact (proj1 (@update_accepted key_order example_sha plain_engine _ _ _ _
      (@server_wf_default key_order example_sha plain_engine) Hu)).
  - exfalso. revert Hu. vm_compute. discriminate.
Defined.

Lemma apply_update_mask_spec_witness :
  @object_get assoc_mapping
    (VMapping [(VString "workloads", VMapping [(VString "web", VString "httpd")])])
    ["workloads"; "web"] = Some (VString "httpd").
Proof.
  apply (@apply_update_mask_spec assoc_mapping
    (VMapping [(VString "workloads", VMapping [(VString "web", VString "httpd")])])
    [] "workloads.web" example_root).
  vm_compute. reflexivity.
Defined.
