(* ===== verification/StateDifferences.v ===== *)
(** * Ankaios server: what the state comparison computes

    The search of [StateComparator.v] with its explicit stack is the same as a
    recursive definition over the common mappings of the two states
    ([changes]), and for states whose mappings have distinct string keys it
    always succeeds with trees that hold exactly the fields that were added,
    removed and updated. *)

From stdpp Require Import base tactics gmap strings list.
From S2P Require Import Prelude Api StateManipulation FieldMask StateComparator.

(** ** The recursive definition *)

Inductive Change :=
  | AddedFirst (p : Path)
  | AddedFull (p : Path) (v : Value)
  | RemovedFirst (p : Path)
  | RemovedFull (p : Path) (v : Value)
  | Updated (p : Path).

(** A key that both nodes hold a mapping under. *)
Abbreviation Child := (string * Mapping * Mapping)%type.

Section reference.
Context `{YamlMapping} `{KeyOrder}.

Definition apply_change (t : StateDifferenceTree) (c : Change) : option StateDifferenceTree :=
  match c with
  | AddedFirst p => insert_added_first t p
  | AddedFull p v => insert_added_full t p v
  | RemovedFirst p => insert_removed_first t p
  | RemovedFull p v => insert_removed_full t p v
  | Updated p => insert_updated t p
  end.

Definition apply_changes : StateDifferenceTree → list Change → option StateDifferenceTree :=
  try_foldl apply_change.

Definition new_key_changes (old_node new_node : Mapping) (mask : Path) (key : Value) : list Change :=
  match convert_key_to_string key, mapping_get old_node key, mapping_get new_node key with
  | Some k, None, Some added =>
    [AddedFirst (mask ++ [k]); AddedFull (mask ++ [k]) (copy_tree_nodes_without_data added)]
  | _, _, _ => []
  end.

Definition value_changes (p : Path) (old_value new_value : Value) : list Change :=
  match old_value, new_value with
  | VMapping _, VMapping _ => []
  | VSequence [], VSequence (_ :: _) => [AddedFirst p]
  | VSequence (_ :: _), VSequence [] => [RemovedFirst p]
  | _, _ => if value_eqb old_value new_value then [] else [Updated p]
  end.

Definition old_key_changes (old_node new_node : Mapping) (mask : Path) (key : Value) : list Change :=
  match convert_key_to_string key, mapping_get old_node key, mapping_get new_node key with
  | Some k, Some removed, None =>
    [RemovedFirst (mask ++ [k]); RemovedFull (mask ++ [k]) (copy_tree_nodes_without_data removed)]
  | Some k, Some old_value, Some new_value => value_changes (mask ++ [k]) old_value new_value
  | _, _, _ => []
  end.

Definition child_of (old_node new_node : Mapping) (key : Value) : option Child :=
  match convert_key_to_string key, mapping_get old_node key, mapping_get new_node key with
  | Some k, Some (VMapping next_old), Some (VMapping next_new) => Some (k, next_old, next_new)
  | _, _, _ => None
  end.

Definition node_changes (old_node new_node : Mapping) (mask : Path) : list Change :=
  (hash_keys new_node ≫= new_key_changes old_node new_node mask) ++
  (hash_keys old_node ≫= old_key_changes old_node new_node mask).

(** The search visits the last common mapping first. *)
Definition children (old_node new_node : Mapping) : list Child :=
  reverse (omap (child_of old_node new_node) (hash_keys old_node)).

(** [depth] bounds the nesting of the mappings. *)
Fixpoint changes (depth : nat) (old_node new_node : Mapping) (mask : Path) : list Change :=
  match depth with
  | 0 => []
  | S depth =>
    node_changes old_node new_node mask ++
    (children old_node new_node ≫= λ '(k, next_old, next_new),
      changes depth next_old next_new (mask ++ [k]))
  end.

(** The iterations of the search. *)
Fixpoint visits (depth : nat) (old_node new_node : Mapping) : nat :=
  match depth with
  | 0 => 0
  | S depth =>
    S (sum_list_with (λ '(_, next_old, next_new), 2 + visits depth next_old next_new)
         (children old_node new_node))
  end.

(** The tasks on the stack for a common mapping. *)
Definition child_tasks (c : Child) : list StackTask :=
  let '(k, next_old, next_new) := c in [PushField k; VisitPair next_old next_new; PopField].
End reference.

(** ** The search is the recursive definition *)

Lemma try_foldl_app {A B} (f : A → B → option A) acc l1 l2 :
  try_foldl f acc (l1 ++ l2) = try_foldl f acc l1 ≫= λ acc, try_foldl f acc l2.
Proof.
  revert acc. induction l1 as [|x l1 IH]; intros acc; simpl; [done|].
  destruct (f acc x); [apply IH|done].
Qed.

(** Values: sizes and well-formedness. *)
Lemma value_size_pos v : 0 < value_size v.
Proof. destruct v; simpl; lia. Qed.

Lemma value_size_entry m k w : (k, w) ∈ m → value_size w < value_size (VMapping m).
Proof.
  intros Hin. simpl. apply elem_of_Permutation in Hin as [m' Hm].
  rewrite (sum_list_with_perm _ _ _ Hm). simpl. lia.
Qed.

Lemma value_wf_entry m k w : value_wf (VMapping m) → (k, w) ∈ m → value_wf w.
Proof. inversion 1 as [? ? Hall|]; subst; [|done]. intros Hin. by apply Hall in Hin as [_ ?]. Qed.

Section equivalence.
Context `{YamlMapping} `{KeyOrder}.

Lemma value_wf_NoDup m : value_wf (VMapping m) → NoDup m.*1.
Proof. by inversion 1. Qed.

Lemma elem_of_hash_keys_get m key :
  value_wf (VMapping m) → key ∈ hash_keys m ↔ is_Some (mapping_get m key).
Proof.
  intros Hwf%value_wf_NoDup. rewrite elem_of_hash_keys, list_elem_of_fmap. split.
  - intros ([k v] & -> & Hin). exists v. by apply mapping_get_entry.
  - intros [v Hv]. apply mapping_get_entry in Hv; [|done]. by exists (key, v).
Qed.

Lemma mapping_get_wf m key v : value_wf (VMapping m) → mapping_get m key = Some v →
  value_wf v ∧ value_size v < value_size (VMapping m).
Proof.
  intros Hwf Hv. apply mapping_get_entry in Hv; [|by apply value_wf_NoDup].
  split; [by eapply value_wf_entry|by eapply value_size_entry].
Qed.

Lemma apply_single t c : try_foldl apply_change t [c] = apply_change t c.
Proof. simpl. by destruct (apply_change t c). Qed.

Lemma visit_new_key_changes old_node new_node mask t key :
  value_wf (VMapping old_node) → value_wf (VMapping new_node) → key ∈ hash_keys new_node →
  visit_new_key old_node new_node mask t key =
    apply_changes t (new_key_changes old_node new_node mask key).
Proof.
  intros Hold Hnew Hkey. unfold visit_new_key, new_key_changes, apply_changes.
  apply elem_of_hash_keys_get in Hkey as [v Hv]; [|done]. rewrite Hv.
  destruct (convert_key_to_string key) as [k|]; [|by case_decide].
  case_decide as Hin; rewrite elem_of_hash_keys_get in Hin by done.
  - apply eq_None_not_Some in Hin as ->. simpl.
    destruct (insert_added_first t _) as [t'|]; simpl; [|done]. by destruct (insert_added_full _ _ _).
  - by destruct (mapping_get old_node key).
Qed.

Lemma visit_new_keys old_node new_node mask t keys :
  value_wf (VMapping old_node) → value_wf (VMapping new_node) →
  (∀ key, key ∈ keys → key ∈ hash_keys new_node) →
  try_foldl (visit_new_key old_node new_node mask) t keys =
    apply_changes t (keys ≫= new_key_changes old_node new_node mask).
Proof.
  intros Hold Hnew. revert t. induction keys as [|key keys IH]; intros t Hkeys; [done|].
  cbn [try_foldl]. rewrite visit_new_key_changes, bind_cons by (done || apply Hkeys; by left).
  unfold apply_changes at 2. rewrite try_foldl_app. unfold apply_changes at 1.
  destruct (try_foldl apply_change t _); [|done]. apply IH. intros key' ?. apply Hkeys. by right.
Qed.

Lemma visit_old_key_changes old_node new_node mask t stack key :
  value_wf (VMapping old_node) → value_wf (VMapping new_node) → key ∈ hash_keys old_node →
  visit_old_key old_node new_node mask (t, stack) key =
    t ← apply_changes t (old_key_changes old_node new_node mask key);
    Some (t, match child_of old_node new_node key with Some c => child_tasks c | None => [] end ++ stack).
Proof.
  intros Hold Hnew Hkey. unfold visit_old_key, old_key_changes, child_of, apply_changes.
  apply elem_of_hash_keys_get in Hkey as [v Hv]; [|done]. rewrite Hv.
  destruct (convert_key_to_string key) as [k|]; [|done].
  case_decide as Hin; rewrite elem_of_hash_keys_get in Hin by done.
  - apply eq_None_not_Some in Hin as ->. simpl.
    destruct (insert_removed_first t _) as [t'|]; simpl; [|by destruct v].
    destruct (insert_removed_full _ _ _); by destruct v.
  - destruct (mapping_get new_node key) as [w|]; [|by destruct Hin]. simpl.
    unfold compare_values, value_changes.
    destruct v as [| | | |[|x xs]|mv|], w as [| | | |[|y ys]|mw|]; try done;
      try (destruct (value_eqb _ _); [done|]); by rewrite apply_single.
Qed.

Lemma visit_old_keys old_node new_node mask t stack keys :
  value_wf (VMapping old_node) → value_wf (VMapping new_node) →
  (∀ key, key ∈ keys → key ∈ hash_keys old_node) →
  try_foldl (visit_old_key old_node new_node mask) (t, stack) keys =
    t ← apply_changes t (keys ≫= old_key_changes old_node new_node mask);
    Some (t, (reverse (omap (child_of old_node new_node) keys) ≫= child_tasks) ++ stack).
Proof.
  intros Hold Hnew. revert t stack. induction keys as [|key keys IH]; intros t stack Hkeys; [done|].
  cbn [try_foldl]. rewrite visit_old_key_changes, bind_cons by (done || apply Hkeys; by left).
  unfold apply_changes at 2. rewrite try_foldl_app. unfold apply_changes at 1.
  destruct (try_foldl apply_change t _) as [t1|]; [|done]. cbn [mbind option_bind].
  rewrite IH by (intros key' ?; apply Hkeys; by right). unfold apply_changes.
  destruct (try_foldl apply_change t1 _) as [t2|]; [|done]. cbn [mbind option_bind].
  do 2 f_equal. cbn [omap list_omap]. destruct (child_of old_node new_node key) as [c|]; [|done].
  rewrite reverse_cons, bind_app, bind_cons, app_nil_r, <-app_assoc. done.
Qed.

Lemma child_of_spec old_node new_node key k next_old next_new :
  child_of old_node new_node key = Some (k, next_old, next_new) ↔
  convert_key_to_string key = Some k ∧ mapping_get old_node key = Some (VMapping next_old) ∧
  mapping_get new_node key = Some (VMapping next_new).
Proof.
  unfold child_of. split.
  - repeat (case_match; try done). by intros [= <- <- <-].
  - by intros (-> & -> & ->).
Qed.

Lemma elem_of_children old_node new_node k next_old next_new :
  value_wf (VMapping old_node) →
  (k, next_old, next_new) ∈ children old_node new_node ↔
  ∃ key, convert_key_to_string key = Some k ∧ mapping_get old_node key = Some (VMapping next_old) ∧
    mapping_get new_node key = Some (VMapping next_new).
Proof.
  intros Hold. unfold children. rewrite elem_of_reverse, list_elem_of_omap.
  setoid_rewrite child_of_spec. split; intros (key & Hkey); exists key; [by destruct Hkey|].
  split; [|done]. apply elem_of_hash_keys_get; [done|]. destruct Hkey as (_ & -> & _). by eexists.
Qed.

Lemma children_wf old_node new_node k next_old next_new :
  value_wf (VMapping old_node) → value_wf (VMapping new_node) →
  (k, next_old, next_new) ∈ children old_node new_node →
  value_wf (VMapping next_old) ∧ value_wf (VMapping next_new) ∧
  value_size (VMapping next_old) < value_size (VMapping old_node).
Proof.
  intros Hold Hnew (key & _ & Ho & Hn)%elem_of_children; [|done].
  apply mapping_get_wf in Ho as [? ?]; [|done]. by apply mapping_get_wf in Hn as [? _].
Qed.

(** The tasks of the common mappings, given what the search does for each. *)
Lemma difference_loop_children depth l fuel mask stack t :
  (∀ k next_old next_new, (k, next_old, next_new) ∈ l → ∀ fuel mask stack t,
    difference_loop (visits depth next_old next_new + fuel) (VisitPair next_old next_new :: stack) mask t =
      t ← apply_changes t (changes depth next_old next_new mask); difference_loop fuel stack mask t) →
  difference_loop (sum_list_with (λ '(_, next_old, next_new), 2 + visits depth next_old next_new) l + fuel)
    ((l ≫= child_tasks) ++ stack) mask t =
  t ← apply_changes t (l ≫= λ '(k, next_old, next_new), changes depth next_old next_new (mask ++ [k]));
  difference_loop fuel stack mask t.
Proof.
  revert t. induction l as [|[[k no] nn] l IH]; intros t Hl; [done|].
  rewrite !bind_cons. unfold apply_changes. rewrite try_foldl_app. cbn [child_tasks sum_list_with app].
  replace (2 + visits depth no nn + _ + fuel) with (S (visits depth no nn + S
    (sum_list_with (λ '(_, next_old, next_new), 2 + visits depth next_old next_new) l + fuel))) by lia.
  cbn [difference_loop]. rewrite (Hl k) by (by left). unfold apply_changes.
  destruct (try_foldl apply_change t _) as [t'|]; [|done]. cbn [mbind option_bind difference_loop].
  rewrite removelast_last. apply IH. intros k' no' nn' ?. apply (Hl k'). by right.
Qed.

Lemma difference_loop_visits depth fuel old_node new_node mask stack t :
  value_wf (VMapping old_node) → value_wf (VMapping new_node) →
  value_size (VMapping old_node) ≤ depth →
  difference_loop (visits depth old_node new_node + fuel) (VisitPair old_node new_node :: stack) mask t =
    t ← apply_changes t (changes depth old_node new_node mask); difference_loop fuel stack mask t.
Proof.
  revert fuel old_node new_node mask stack t.
  induction depth as [|depth IH]; intros fuel old_node new_node mask stack t Hold Hnew Hdepth.
  { pose proof (value_size_pos (VMapping old_node)). lia. }
  cbn [visits changes]. cbn [Nat.add difference_loop].
  rewrite visit_new_keys by done. unfold node_changes, apply_changes. rewrite !try_foldl_app.
  destruct (try_foldl apply_change t _) as [t1|]; [|done]. cbn [mbind option_bind].
  rewrite visit_old_keys by done. unfold apply_changes.
  destruct (try_foldl apply_change t1 _) as [t2|]; [|done]. cbn [mbind option_bind]. clear t t1.
  change (reverse (omap (child_of old_node new_node) (hash_keys old_node)))
    with (children old_node new_node).
  apply difference_loop_children. intros k no nn Hc.
  destruct (children_wf _ _ _ _ _ Hold Hnew Hc) as (? & ? & ?).
  intros fuel' mask' stack' t'. apply IH; [done|done|lia].
Qed.

(** The fuel covers the iterations: every common mapping is visited once. *)
Lemma sum_omap_le {A B} (f : B → nat) (g : A → nat) (h : A → option B) l :
  (∀ x y, x ∈ l → h x = Some y → f y ≤ g x) → sum_list_with f (omap h l) ≤ sum_list_with g l.
Proof.
  induction l as [|x l IH]; intros Hl; [done|].
  change (omap h (x :: l)) with (match h x with Some y => y :: omap h l | None => omap h l end).
  cbn [sum_list_with]. assert (sum_list_with f (omap h l) ≤ sum_list_with g l) as Hle
    by (apply IH; intros; apply Hl; [by right|done]).
  destruct (h x) as [y|] eqn:Hy; [|lia]. cbn [sum_list_with].
  pose proof (Hl x y (list_elem_of_here _ _) Hy). lia.
Qed.

Definition entry_size (m : Mapping) (key : Value) : nat :=
  match mapping_get m key with Some v => value_size v | None => 0 end.

Lemma sum_entry_sizes m :
  value_wf (VMapping m) → S (sum_list_with (entry_size m) (hash_keys m)) = value_size (VMapping m).
Proof.
  intros Hwf. apply value_wf_NoDup in Hwf as Hnd.
  rewrite (sum_list_with_perm _ _ m.*1).
  2: { apply NoDup_Permutation; [apply NoDup_hash_keys|done|apply elem_of_hash_keys]. }
  cbn [value_size]. f_equal.
  assert (∀ l, (∀ kv, kv ∈ l → kv ∈ m) → sum_list_with (entry_size m) l.*1 =
    sum_list_with (λ kv, let '(_, w) := kv in value_size w) l) as Hsum; [|by apply Hsum].
  induction l as [|[k v] l IH]; intros Hl; [done|]. simpl. f_equal.
  - unfold entry_size. assert (mapping_get m k = Some v) as ->; [|done].
    apply mapping_get_entry; [done|]. apply Hl. by left.
  - apply IH. intros kv ?. apply Hl. by right.
Qed.

Lemma visits_bound depth old_node new_node :
  value_wf (VMapping old_node) → value_wf (VMapping new_node) →
  visits depth old_node new_node + 2 ≤ 3 * value_size (VMapping old_node).
Proof.
  revert old_node new_node. induction depth as [|depth IH]; intros old_node new_node Hold Hnew.
  { pose proof (value_size_pos (VMapping old_node)). cbn [visits]. lia. }
  cbn [visits]. rewrite <-(sum_entry_sizes old_node Hold). unfold children.
  rewrite sum_list_with_reverse.
  assert (sum_list_with (λ '(_, next_old, next_new), 2 + visits depth next_old next_new)
    (omap (child_of old_node new_node) (hash_keys old_node)) ≤
    sum_list_with (λ key, 3 * entry_size old_node key) (hash_keys old_node)) as Hsum.
  { apply sum_omap_le. intros key [[k no] nn] _ (_ & Ho & Hn)%child_of_spec.
    unfold entry_size. rewrite Ho. apply mapping_get_wf in Ho as [Ho _]; [|done].
    apply mapping_get_wf in Hn as [Hn _]; [|done]. specialize (IH no nn Ho Hn). lia. }
  assert (∀ l : list Value, sum_list_with (λ key, 3 * entry_size old_node key) l =
    3 * sum_list_with (entry_size old_node) l) as Hmul; [|rewrite Hmul in Hsum; lia].
  induction l as [|key l IHl]; [done|]. cbn [sum_list_with]. rewrite IHl. lia.
Qed.

Lemma state_differences_changes old_state new_state :
  value_wf (VMapping old_state) → value_wf (VMapping new_state) →
  state_differences old_state new_state =
    apply_changes difference_tree_new
      (changes (value_size (VMapping old_state)) old_state new_state []).
Proof.
  intros Hold Hnew. unfold state_differences, difference_fuel.
  set (n := value_size (VMapping old_state)).
  pose proof (visits_bound n old_state new_state Hold Hnew) as Hvisits.
  replace (3 * n) with (visits n old_state new_state + (3 * n - visits n old_state new_state)) by lia.
  rewrite difference_loop_visits by (done || unfold n; lia).
  destruct (apply_changes _ _) as [t|]; [|done]. simpl. by destruct (_ - _).
Qed.
End equivalence.

(** ** What changed, by paths *)

Section specification.
Context `{YamlMapping}.

(** The mappings both states have at a path of keys. *)
Definition common (old new : Value) (q : Path) (old_node new_node : Mapping) : Prop :=
  value_at old q = Some (VMapping old_node) ∧ value_at new q = Some (VMapping new_node).

(** The change of a field, given its values in both states: a field that only
    one of them has, or a value that differs and is not a mapping in both; a
    list that gets its first elements counts as added, one that loses all of
    them as removed. *)
Definition field_changes (p : Path) (old_value new_value : option Value) : list Change :=
  match old_value, new_value with
  | None, None => []
  | None, Some added => [AddedFirst p; AddedFull p (copy_tree_nodes_without_data added)]
  | Some removed, None => [RemovedFirst p; RemovedFull p (copy_tree_nodes_without_data removed)]
  | Some old_value, Some new_value => value_changes p old_value new_value
  end.

Definition changed (old new : Value) (c : Change) : Prop :=
  ∃ q old_node new_node k, common old new q old_node new_node ∧
    c ∈ field_changes (q ++ [k]) (mapping_get old_node (VString k)) (mapping_get new_node (VString k)).

(** A tree with exactly the given leaves: every other node is a mapping on the
    way to a leaf or lies in the value at a leaf. *)
Record tree_of (leaves : Path → Value → Prop) (T : Value) : Prop := {
  tree_wf : value_wf T;
  tree_root : ∃ m, T = VMapping m;
  tree_leaf p v : leaves p v → object_get T p = Some v;
  tree_node q w : object_get T q = Some w →
    (∃ p v, leaves p v ∧ p `prefix_of` q) ∨
    (∃ m, w = VMapping m) ∧ (q = [] ∨ ∃ p v, leaves p v ∧ q `prefix_of` p)
}.

Lemma value_at_mapping m k q :
  value_at (VMapping m) (k :: q) = mapping_get m (VString k) ≫= λ v, value_at v q.
Proof. simpl. by rewrite value_get_mapping. Qed.

Lemma value_at_app v p q : value_at v (p ++ q) = value_at v p ≫= λ w, value_at w q.
Proof. revert v. induction p as [|x p IH]; intros v; [done|]. simpl. destruct (value_get v x); [apply IH|done]. Qed.

Lemma value_at_wf v p w : value_wf v → value_at v p = Some w → value_wf w.
Proof.
  revert v. induction p as [|x p IH]; intros v Hv; simpl; [by intros [= <-]|].
  intros (next & Hnext & Hw)%bind_Some. apply value_wf_get in Hnext as [Hwf _]; [|done]. by eapply IH.
Qed.

Lemma value_at_cons_mapping v k q w :
  value_wf v → value_at v (k :: q) = Some w →
  ∃ m next, v = VMapping m ∧ mapping_get m (VString k) = Some next ∧ value_at next q = Some w.
Proof.
  simpl. intros Hwf (next & Hnext & Hw)%bind_Some.
  apply value_wf_get in Hnext as (_ & m & -> & Hget); [|done]. eauto.
Qed.

Lemma mapping_get_key m key v : value_wf (VMapping m) → mapping_get m key = Some v →
  ∃ k, key = VString k.
Proof.
  inversion 1 as [? Hnd Hkeys|]; subst; [|done]. intros Hv%mapping_get_entry; [|done].
  by apply Hkeys in Hv as [? _].
Qed.
End specification.

Section changes_spec.
Context `{YamlMapping} `{KeyOrder}.

Lemma elem_of_node_changes old_node new_node mask c :
  value_wf (VMapping old_node) → value_wf (VMapping new_node) →
  c ∈ node_changes old_node new_node mask ↔
  ∃ k, c ∈ field_changes (mask ++ [k]) (mapping_get old_node (VString k)) (mapping_get new_node (VString k)).
Proof.
  intros Hold Hnew. unfold node_changes. rewrite elem_of_app, !list_elem_of_bind. split.
  - intros [(key & Hc & Hkey)|(key & Hc & Hkey)];
      apply elem_of_hash_keys_get in Hkey as [v Hv]; try done.
    + destruct (mapping_get_key _ _ _ Hnew Hv) as [k ->]. exists k. revert Hc.
      unfold new_key_changes, field_changes. rewrite Hv. simpl.
      destruct (mapping_get old_node (VString k)); [by intros ?%elem_of_nil|done].
    + destruct (mapping_get_key _ _ _ Hold Hv) as [k ->]. exists k. revert Hc.
      unfold old_key_changes, field_changes. rewrite Hv. simpl. by destruct (mapping_get new_node _).
  - intros (k & Hc). revert Hc. unfold field_changes.
    destruct (mapping_get old_node (VString k)) as [v|] eqn:Hv.
    + intros Hc. right. exists (VString k). unfold old_key_changes.
      rewrite elem_of_hash_keys_get by done. rewrite Hv. split; [|by eexists].
      simpl. by destruct (mapping_get new_node (VString k)).
    + destruct (mapping_get new_node (VString k)) as [w|] eqn:Hw; [|by intros ?%elem_of_nil].
      intros Hc. left. exists (VString k). unfold new_key_changes.
      rewrite elem_of_hash_keys_get by done. rewrite Hv, Hw. split; [done|by eexists].
Qed.

Lemma elem_of_changes depth old_node new_node mask c :
  value_wf (VMapping old_node) → value_wf (VMapping new_node) →
  value_size (VMapping old_node) ≤ depth →
  c ∈ changes depth old_node new_node mask ↔
  ∃ q o n k, common (VMapping old_node) (VMapping new_node) q o n ∧
    c ∈ field_changes (mask ++ q ++ [k]) (mapping_get o (VString k)) (mapping_get n (VString k)).
Proof.
  revert old_node new_node mask.
  induction depth as [|depth IH]; intros old_node new_node mask Hold Hnew Hdepth.
  { pose proof (value_size_pos (VMapping old_node)). lia. }
  cbn [changes]. rewrite elem_of_app, elem_of_node_changes, list_elem_of_bind by done. split.
  - intros [(k & Hc)|([[k no] nn] & Hc & Hchild)].
    + exists [], old_node, new_node, k. by split.
    + destruct (children_wf _ _ _ _ _ Hold Hnew Hchild) as (Hno & Hnn & Hd).
      apply IH in Hc as (q & o & n & k' & [Ho Hn] & Hc); [|done|done|lia].
      apply elem_of_children in Hchild as (key & Hkey & Hgo & Hgn); [|done].
      destruct (mapping_get_key _ _ _ Hold Hgo) as [k0 ->]. injection Hkey as ->.
      exists (k :: q), o, n, k'. rewrite <-app_assoc in Hc. split; [|done].
      split; rewrite value_at_mapping; [by rewrite Hgo|by rewrite Hgn].
  - intros (q & o & n & k & [Ho Hn] & Hc). destruct q as [|k0 q].
    { injection Ho as <-. injection Hn as <-. left. by exists k. }
    right. rewrite value_at_mapping in Ho, Hn.
    apply bind_Some in Ho as (vo & Hgo & Ho). apply bind_Some in Hn as (vn & Hgn & Hn).
    assert (∀ v m, value_wf v → value_at v q = Some (VMapping m) → ∃ m', v = VMapping m') as Hmap.
    { intros v m Hv Hm. destruct q as [|x q]; [injection Hm as ->; by eexists|].
      apply value_at_cons_mapping in Hm as (m' & _ & -> & _); [by eexists|done]. }
    destruct (Hmap vo o) as [no ->]; [by apply (mapping_get_wf old_node (VString k0))|done|].
    destruct (Hmap vn n) as [nn ->]; [by apply (mapping_get_wf new_node (VString k0))|done|].
    assert ((k0, no, nn) ∈ children old_node new_node) as Hchild
      by (apply elem_of_children; [done|]; by exists (VString k0)).
    exists (k0, no, nn). split; [|done].
    destruct (children_wf _ _ _ _ _ Hold Hnew Hchild) as (Hno & Hnn & Hd).
    apply IH; [done|done|lia|]. exists q, o, n, k. rewrite <-app_assoc. by split.
Qed.
End changes_spec.

(** ** Building the trees *)

Section trees.
Context `{YamlMapping}.

(** Inserting a list of leaves. *)
Definition inserts : Value → list (Path * Value) → option Value :=
  try_foldl (λ T '(p, v), insert_path T p v).

Lemma mapping_insert_wf m k v :
  value_wf (VMapping m) → value_wf v → value_wf (VMapping (mapping_insert (VString k) v m)).
Proof.
  intros Hm Hv. assert (NoDup m.*1) as Hnd by (by inversion Hm).
  pose proof (mapping_insert_NoDup m (VString k) v Hnd) as Hnd'. apply wf_mapping; [done|].
  intros key w Hw%mapping_get_entry; [|done]. rewrite mapping_get_insert in Hw. case_decide as Hk.
  - injection Hw as <-. eauto.
  - split; [by eapply mapping_get_key|]. apply mapping_get_entry in Hw; [|done].
    by eapply value_wf_entry.
Qed.

Lemma set_in_wf m h l v m' :
  value_wf (VMapping m) → value_wf v → set_in m h l v = Ok m' → value_wf (VMapping m').
Proof.
  intros Hm Hv. revert m m' Hm. induction h as [|x h IH]; intros m m' Hm; cbn [set_in].
  { intros [= <-]. by apply mapping_insert_wf. }
  assert (value_wf (default (VMapping []) (mapping_get m (VString x)))) as Hnext.
  { destruct (mapping_get m (VString x)) as [w|] eqn:Hw; simpl.
    - apply mapping_get_entry in Hw; [by eapply value_wf_entry|by inversion Hm].
    - apply wf_mapping; [constructor|by intros ? ? ?%elem_of_nil]. }
  destruct (default _ _) as [| | | | |next|]; try done.
  destruct (set_in next h l v) as [next'|] eqn:Hset; [|done]. intros [= <-].
  apply mapping_insert_wf; [done|]. by apply (IH next).
Qed.

Lemma object_set_wf T p v T' :
  value_wf T → value_wf v → object_set T p v = Ok T' → value_wf T'.
Proof.
  intros HT Hv. unfold object_set. destruct (split_last p) as [[h l]|]; [|done]. simpl.
  destruct T as [| | | | |m|]; try done.
  destruct (set_in m h l v) as [m'|] eqn:Hset; [|done]. intros [= <-]. by eapply set_in_wf.
Qed.

Lemma object_set_prefix T p v T' q :
  object_set T p v = Ok T' → q `prefix_of` p → q ≠ p → ∃ m, object_get T' q = Some (VMapping m).
Proof.
  unfold object_set. destruct (split_last p) as [[h l]|] eqn:Hp; [|done]. simpl.
  apply split_last_ok in Hp as ->. destruct T as [| | | | |m|]; try done.
  destruct (set_in m h l v) as [m'|] eqn:Hset; [|done]. intros [= <-] Hq Hne.
  eapply set_in_get_prefix; [done|]. destruct Hq as [r Hr].
  destruct r as [|y r _] using rev_ind; [by rewrite app_nil_r in Hr|].
  rewrite app_assoc in Hr. apply app_inj_tail in Hr as [-> _]. by eexists.
Qed.

Lemma tree_of_iff (l1 l2 : Path → Value → Prop) T :
  (∀ p v, l1 p v ↔ l2 p v) → tree_of l1 T → tree_of l2 T.
Proof.
  intros Hl [Hwf Hroot Hleaf Hnode]. split; [done|done|intros p v ?; by apply Hleaf, Hl|].
  intros q w Hq. destruct (Hnode q w Hq) as [(p & v & ? & ?)|[Hm Hor]].
  - left. exists p, v. by rewrite <-Hl.
  - right. split; [done|]. destruct Hor as [?|(p & v & ? & ?)]; [by left|].
    right. exists p, v. by rewrite <-Hl.
Qed.

Lemma tree_of_empty : tree_of (λ _ _, False) object_default.
Proof.
  split; [|by eexists|done|].
  - apply wf_mapping; [constructor|by intros ? ? ?%elem_of_nil].
  - intros [|x q] w; [intros [= <-]; right; eauto|]. unfold object_default.
    by rewrite object_get_mapping, mapping_get_nil.
Qed.

(** Leaves none of which lies below another one. *)
Definition incomparable (leaves : Path → Value → Prop) : Prop :=
  ∀ p v p' v', leaves p v → leaves p' v' → p `prefix_of` p' → p = p' ∧ v = v'.

Lemma insert_path_tree (leaves : Path → Value → Prop) T p v :
  tree_of leaves T → p ≠ [] → value_wf v →
  incomparable (λ p' v', leaves p' v' ∨ (p' = p ∧ v' = v)) →
  ∃ T', insert_path T p v = Some T' ∧ tree_of (λ p' v', leaves p' v' ∨ (p' = p ∧ v' = v)) T'.
Proof.
  intros [Hwf [m Hm] Hleaf Hnode] Hp Hv Hinc.
  assert (is_ok (object_set T p v) = true) as Hok.
  { apply object_set_correct. split; [done|]. intros q x Hq Hne Hx.
    destruct (Hnode q x Hx) as [(p0 & v0 & Hl & Hpre)|[? _]]; [|done].
    destruct (Hinc p0 v0 p v) as [-> _]; [by left|by right|by transitivity q|].
    destruct Hne. by apply (anti_symm prefix). }
  unfold insert_path. destruct p as [|x p]; [done|].
  destruct (object_set T (x :: p) v) as [T'|] eqn:Hset; [|done]. exists T'. split; [done|].
  destruct (object_set_ok _ _ _ _ Hset) as [Hget Hother]. split.
  - exact (object_set_wf _ _ _ _ Hwf Hv Hset).
  - destruct (object_set_prefix _ _ _ _ [] Hset) as [m' Hm']; [apply prefix_nil|done|].
    exists m'. by injection Hm'.
  - intros p' v' [Hl|[-> ->]]; [|done].
    destruct (decide (p' = x :: p)) as [->|Hne].
    { destruct (Hinc (x :: p) v' (x :: p) v) as [_ ->]; [by left|by right|done|done]. }
    rewrite Hother; [by apply Hleaf| |]; intros Hpre; destruct Hne.
    + destruct (Hinc (x :: p) v p' v') as [<- _]; [by right|by left|done|done].
    + destruct (Hinc p' v' (x :: p) v) as [-> _]; [by left|by right|done|done].
  - intros q w Hq. destruct (decide ((x :: p) `prefix_of` q)) as [Hpre|Hpre].
    { left. exists (x :: p), v. split; [by right|done]. }
    destruct (decide (q `prefix_of` (x :: p))) as [Hpre'|Hpre'].
    { right. destruct (object_set_prefix _ _ _ _ q Hset) as [m' Hm']; [done|by intros ->|].
      rewrite Hm' in Hq. injection Hq as <-. split; [by eexists|]. right.
      exists (x :: p), v. split; [by right|done]. }
    rewrite Hother in Hq by done. destruct (Hnode q w Hq) as [(p0 & v0 & ? & ?)|[? Hor]].
    + left. exists p0, v0. split; [by left|done].
    + right. split; [done|]. destruct Hor as [?|(p0 & v0 & ? & ?)]; [by left|].
      right. exists p0, v0. split; [by left|done].
Qed.

Lemma inserts_tree (leaves : Path → Value → Prop) l T :
  tree_of leaves T → (∀ p v, (p, v) ∈ l → p ≠ [] ∧ value_wf v) →
  incomparable (λ p v, leaves p v ∨ (p, v) ∈ l) →
  ∃ T', inserts T l = Some T' ∧ tree_of (λ p v, leaves p v ∨ (p, v) ∈ l) T'.
Proof.
  revert leaves T. induction l as [|[p v] l IH]; intros leaves T HT Hl Hinc.
  { exists T. split; [done|]. eapply tree_of_iff; [|done]. intros p v. rewrite elem_of_nil. tauto. }
  destruct (Hl p v) as [Hp Hv]; [by left|].
  destruct (insert_path_tree leaves T p v HT Hp Hv) as (T1 & HT1 & Htree1).
  { intros p1 v1 p2 v2 H1 H2. apply Hinc; rewrite elem_of_cons; [destruct H1 as [?|[-> ->]]; auto|].
    destruct H2 as [?|[-> ->]]; auto. }
  assert (∀ p' v', (leaves p' v' ∨ (p' = p ∧ v' = v)) ∨ (p', v') ∈ l ↔
    leaves p' v' ∨ (p', v') ∈ (p, v) :: l) as Hiff.
  { intros p' v'. rewrite elem_of_cons. split; [intros [[?|[-> ->]]|?]; auto|].
    intros [?|[[= -> ->]|?]]; auto. }
  destruct (IH _ T1 Htree1) as (T' & HT' & Htree').
  - intros p' v' ?. apply Hl. by right.
  - intros p1 v1 p2 v2 H1 H2. apply Hinc; by apply Hiff.
  - exists T'. split; [|eapply tree_of_iff; [exact Hiff|done]]. unfold inserts. cbn [try_foldl]. by rewrite HT1.
Qed.
End trees.

(** ** The trees of a comparison *)

Section comparison.
Context `{YamlMapping} `{KeyOrder}.

(** The copy of a value in a tree has the same keys and no data. *)
Definition copy_entries : Mapping → Mapping → Mapping :=
  foldl (λ new_map '(key, v), mapping_insert key (copy_tree_nodes_without_data v) new_map).

Lemma copy_mapping e m :
  copy_tree_nodes_without_data (VMapping (e :: m)) = VMapping (copy_entries [] (e :: m)).
Proof.
  destruct e as [k v]. cbn [copy_tree_nodes_without_data]. f_equal.
  unfold copy_entries. cbn [foldl].
  generalize (mapping_insert k (copy_tree_nodes_without_data v) []). clear k v.
  induction m as [|[k v] m IH]; intros acc; [done|]. apply IH.
Qed.

Lemma copy_entries_spec l acc :
  NoDup l.*1 →
  (∀ k v, (k, v) ∈ l → mapping_get (copy_entries acc l) k = Some (copy_tree_nodes_without_data v)) ∧
  (∀ k, k ∉ l.*1 → mapping_get (copy_entries acc l) k = mapping_get acc k).
Proof.
  revert acc. induction l as [|[k v] l IH]; intros acc Hnd; [split; [by intros ? ? ?%elem_of_nil|done]|].
  apply NoDup_cons in Hnd as [Hk Hnd]. unfold copy_entries. cbn [foldl].
  destruct (IH (mapping_insert k (copy_tree_nodes_without_data v) acc) Hnd) as [Hin Hout]. split.
  - intros k' v' [[= -> ->]|?]%elem_of_cons; [|by apply Hin].
    unfold copy_entries in Hout. by rewrite Hout, mapping_get_insert, decide_True.
  - intros k' [Hne Hk']%not_elem_of_cons. unfold copy_entries in Hout.
    by rewrite Hout, mapping_get_insert, decide_False.
Qed.

Lemma copy_entries_wf l acc :
  value_wf (VMapping acc) →
  (∀ k v, (k, v) ∈ l → (∃ s, k = VString s) ∧ value_wf (copy_tree_nodes_without_data v)) →
  value_wf (VMapping (copy_entries acc l)).
Proof.
  revert acc. induction l as [|[k v] l IH]; intros acc Hacc Hl; [done|].
  destruct (Hl k v) as [[s ->] Hv]; [by left|]. apply IH; [by apply mapping_insert_wf|].
  intros k' v' ?. apply Hl. by right.
Qed.

Lemma value_get_scalar_none v x :
  match v with VMapping _ | VTagged _ _ => False | _ => True end → value_get v x = None.
Proof. intros Hv. pose proof (value_get_scalar v x). by destruct v. Qed.

Lemma copy_spec v :
  value_wf v →
  value_wf (copy_tree_nodes_without_data v) ∧
  ∀ p, object_get (copy_tree_nodes_without_data v) p = copy_tree_nodes_without_data <$> value_at v p.
Proof.
  remember (value_size v) as n eqn:Hn. revert v Hn.
  induction (lt_wf n) as [n _ IH]. intros v -> Hwf.
  assert (value_wf (VMapping [])) as Hnil by (apply wf_mapping; [constructor|by intros ? ? ?%elem_of_nil]).
  destruct v as [|b|z|s|l|[|e m]|t v]; try (split; [by apply wf_other|intros [|x p]; [done|]; simpl;
    by rewrite value_get_scalar_none]).
  - split; [by apply wf_other|]. intros [|x p]; [done|]. simpl.
    by rewrite value_get_mapping, mapping_get_nil.
  - assert (NoDup (e :: m).*1) as Hnd by (by apply value_wf_NoDup).
    destruct (copy_entries_spec (e :: m) [] Hnd) as [Hin Hout]. rewrite copy_mapping.
    assert (∀ k v, (k, v) ∈ e :: m → value_wf (copy_tree_nodes_without_data v) ∧
      ∀ p, object_get (copy_tree_nodes_without_data v) p = copy_tree_nodes_without_data <$> value_at v p)
      as Hentry.
    { intros k v Hkv. apply (IH (value_size v)); [by eapply value_size_entry|done|].
      exact (value_wf_entry _ _ _ Hwf Hkv). }
    split.
    + apply copy_entries_wf; [done|]. intros k v Hkv. split; [|by apply (Hentry k)].
      apply mapping_get_entry in Hkv; [|done].
      exact (mapping_get_key _ _ _ Hwf Hkv).
    + intros [|x p]; [by rewrite <-copy_mapping|].
      rewrite object_get_mapping, value_at_mapping.
      destruct (mapping_get (e :: m) (VString x)) as [v|] eqn:Hv.
      * apply mapping_get_entry in Hv; [|done]. rewrite (Hin _ _ Hv). by apply (Hentry (VString x)).
      * rewrite Hout, mapping_get_nil; [done|]. intros ([k v] & Hk & Hkv)%list_elem_of_fmap.
        simpl in Hk. subst k. apply mapping_get_entry in Hkv; [|done]. congruence.
  - inversion Hwf; subst; done.
Qed.
(** One tree of the result. *)
Definition leaf_added_first (c : Change) : option (Path * Value) :=
  match c with AddedFirst p => Some (p, Null) | _ => None end.
Definition leaf_added_full (c : Change) : option (Path * Value) :=
  match c with AddedFull p v => Some (p, v) | _ => None end.
Definition leaf_removed_first (c : Change) : option (Path * Value) :=
  match c with RemovedFirst p => Some (p, Null) | _ => None end.
Definition leaf_removed_full (c : Change) : option (Path * Value) :=
  match c with RemovedFull p v => Some (p, v) | _ => None end.
Definition leaf_updated (c : Change) : option (Path * Value) :=
  match c with Updated p => Some (p, Null) | _ => None end.

Lemma apply_changes_trees t cs af al rf rl u :
  inserts (added_first_difference_tree t) (omap leaf_added_first cs) = Some af →
  inserts (added_full_difference_tree t) (omap leaf_added_full cs) = Some al →
  inserts (removed_first_difference_tree t) (omap leaf_removed_first cs) = Some rf →
  inserts (removed_full_difference_tree t) (omap leaf_removed_full cs) = Some rl →
  inserts (updated_full_difference_tree t) (omap leaf_updated cs) = Some u →
  apply_changes t cs = Some {|
    added_first_difference_tree := af; added_full_difference_tree := al;
    removed_first_difference_tree := rf; removed_full_difference_tree := rl;
    updated_full_difference_tree := u |}.
Proof.
  revert t. induction cs as [|c cs IH]; intros t.
  { intros [= <-] [= <-] [= <-] [= <-] [= <-]. by destruct t. }
  unfold inserts, apply_changes in *. cbn [try_foldl].
  destruct c as [p|p v|p|p v|p]; cbn [omap list_omap leaf_added_first leaf_added_full
    leaf_removed_first leaf_removed_full leaf_updated try_foldl apply_change];
    intros Haf Hal Hrf Hrl Hu;
    [apply bind_Some in Haf as (T & HT & Haf); unfold insert_added_first
    |apply bind_Some in Hal as (T & HT & Hal); unfold insert_added_full
    |apply bind_Some in Hrf as (T & HT & Hrf); unfold insert_removed_first
    |apply bind_Some in Hrl as (T & HT & Hrl); unfold insert_removed_full
    |apply bind_Some in Hu as (T & HT & Hu); unfold insert_updated];
    rewrite HT; cbn [mbind option_bind]; by apply IH.
Qed.

Definition leaf_of (leaf : Change → option (Path * Value)) : Prop :=
  leaf = leaf_added_first ∨ leaf = leaf_added_full ∨ leaf = leaf_removed_first ∨
  leaf = leaf_removed_full ∨ leaf = leaf_updated.

Ltac solve_leaf :=
  unfold leaf_of, field_changes, value_changes; intros;
  repeat match goal with H : _ ∨ _ |- _ => destruct H as [->|H] end; simplify_eq;
  repeat case_match; set_unfold; naive_solver.

Lemma leaf_path leaf c p old_value new_value q v :
  leaf_of leaf → c ∈ field_changes p old_value new_value → leaf c = Some (q, v) → q = p.
Proof. solve_leaf. Qed.

Lemma leaf_unique leaf c c' p old_value new_value q v v' :
  leaf_of leaf → c ∈ field_changes p old_value new_value →
  c' ∈ field_changes p old_value new_value →
  leaf c = Some (q, v) → leaf c' = Some (q, v') → v = v'.
Proof. solve_leaf. Qed.

Lemma leaf_value_wf leaf c p old_value new_value q v :
  leaf_of leaf → c ∈ field_changes p old_value new_value → leaf c = Some (q, v) →
  (∀ w, old_value = Some w ∨ new_value = Some w → value_wf w) → value_wf v.
Proof.
  assert (value_wf Null) as Hnull by (by apply wf_other).
  assert (∀ w, value_wf w → value_wf (copy_tree_nodes_without_data w)) as Hcopy
    by (intros w Hw; by apply copy_spec).
  solve_leaf.
Qed.

Section two_states.
Context (old_state new_state : Mapping).
Hypothesis Hold : value_wf (VMapping old_state).
Hypothesis Hnew : value_wf (VMapping new_state).

Abbreviation is_changed := (changed (VMapping old_state) (VMapping new_state)).

Lemma changed_leaf_incomparable leaf :
  leaf_of leaf → incomparable (λ p v, ∃ c, is_changed c ∧ leaf c = Some (p, v)).
Proof.
  intros Hleaf p v p' v' (c & (q & o & n & k & [Ho Hn] & Hc) & Hlc)
    (c' & (q' & o' & n' & k' & [Ho' Hn'] & Hc') & Hlc') Hpre.
  pose proof (leaf_path _ _ _ _ _ _ _ Hleaf Hc Hlc) as ->.
  pose proof (leaf_path _ _ _ _ _ _ _ Hleaf Hc' Hlc') as ->.
  destruct (decide (q ++ [k] = q' ++ [k'])) as [Heq|Hne].
  - split; [done|]. apply app_inj_tail in Heq as [-> ->]. simplify_eq.
    exact (leaf_unique _ _ _ _ _ _ _ _ _ Hleaf Hc Hc' Hlc Hlc').
  - destruct Hpre as [r Hr]. destruct r as [|x r _] using rev_ind; [by rewrite app_nil_r in Hr|].
    rewrite app_assoc in Hr. apply app_inj_tail in Hr as [-> _].
    rewrite !value_at_app, Ho, Hn in *. cbn [mbind option_bind] in *.
    assert (∀ m r w, value_wf (VMapping m) → (value_at (VMapping m) [k] ≫= λ v, value_at v r) = Some (VMapping w) →
      ∃ m', mapping_get m (VString k) = Some (VMapping m')) as Hmap.
    { intros m r' w Hm. rewrite value_at_mapping. intros (x1 & (x2 & Hx2 & [= <-])%bind_Some & Hw)%bind_Some.
      rewrite Hx2. destruct r' as [|y r']; [injection Hw as ->; by eexists|].
      apply value_at_cons_mapping in Hw as (m' & _ & -> & _); [by eexists|].
      by apply (mapping_get_wf m (VString k)). }
    rewrite <-!value_at_app in *.
    destruct (Hmap o r o') as [mo Hmo]; [by eapply value_at_wf; [exact Hold|]|by rewrite <-value_at_app|].
    destruct (Hmap n r n') as [mn Hmn]; [by eapply value_at_wf; [exact Hnew|]|by rewrite <-value_at_app|].
    rewrite Hmo, Hmn in Hc. by apply elem_of_nil in Hc.
Qed.

Lemma tree_of_changes leaf :
  leaf_of leaf →
  ∃ T, inserts object_default
         (omap leaf (changes (value_size (VMapping old_state)) old_state new_state [])) = Some T ∧
    tree_of (λ p v, ∃ c, is_changed c ∧ leaf c = Some (p, v)) T.
Proof.
  intros Hleaf.
  assert (∀ p v, (False ∨ (p, v) ∈ omap leaf (changes (value_size (VMapping old_state)) old_state
    new_state [])) ↔ ∃ c, is_changed c ∧ leaf c = Some (p, v)) as Hiff.
  { intros p v. rewrite list_elem_of_omap. setoid_rewrite elem_of_changes; [|done|done|done].
    split; [intros [[]|(c & Hc & Hl)]; eauto|intros (c & Hc & Hl); right; eauto]. }
  destruct (inserts_tree (λ _ _, False)
    (omap leaf (changes (value_size (VMapping old_state)) old_state new_state []))
    object_default tree_of_empty) as (T & HT & Htree).
  - intros p v Hin. destruct (proj1 (Hiff p v)) as (c & (q & o & n & k & [Ho Hn] & Hc) & Hl); [by right|].
    pose proof (leaf_path _ _ _ _ _ _ _ Hleaf Hc Hl) as ->. split; [by destruct q|].
    eapply leaf_value_wf; [done|done|done|]. intros w [Hw|Hw].
    + by apply (mapping_get_wf o (VString k)); [eapply value_at_wf; [exact Hold|]|].
    + by apply (mapping_get_wf n (VString k)); [eapply value_at_wf; [exact Hnew|]|].
  - intros p v p' v' Hp Hp'. apply Hiff in Hp, Hp'. by eapply changed_leaf_incomparable.
  - exists T. split; [done|]. by eapply tree_of_iff; [exact Hiff|].
Qed.

(** What the comparison of two states returns. *)
Lemma state_differences_trees :
  ∃ t, state_differences old_state new_state = Some t ∧
    tree_of (λ p v, v = Null ∧ is_changed (AddedFirst p)) (added_first_difference_tree t) ∧
    tree_of (λ p v, is_changed (AddedFull p v)) (added_full_difference_tree t) ∧
    tree_of (λ p v, v = Null ∧ is_changed (RemovedFirst p)) (removed_first_difference_tree t) ∧
    tree_of (λ p v, is_changed (RemovedFull p v)) (removed_full_difference_tree t) ∧
    tree_of (λ p v, v = Null ∧ is_changed (Updated p)) (updated_full_difference_tree t).
Proof.
  rewrite state_differences_changes by done.
  destruct (tree_of_changes leaf_added_first) as (af & Haf & Taf); [by left|].
  destruct (tree_of_changes leaf_added_full) as (al & Hal & Tal); [by right; left|].
  destruct (tree_of_changes leaf_removed_first) as (rf & Hrf & Trf); [by do 2 right; left|].
  destruct (tree_of_changes leaf_removed_full) as (rl & Hrl & Trl); [by do 3 right; left|].
  destruct (tree_of_changes leaf_updated) as (u & Hu & Tu); [by do 4 right|].
  eexists. split; [by eapply apply_changes_trees|]. simpl.
  split_and!; (eapply tree_of_iff; [|eassumption]); intros p v;
    (split; [intros ([] & Hc & Hl); naive_solver|]).
  - intros [-> Hc]. by exists (AddedFirst p).
  - intros Hc. by exists (AddedFull p v).
  - intros [-> Hc]. by exists (RemovedFirst p).
  - intros Hc. by exists (RemovedFull p v).
  - intros [-> Hc]. by exists (Updated p).
Qed.
End two_states.
End comparison.

(** ** Properties *)

(** The search with its explicit stack is the recursive definition: it ends, and
    what it returns, or its panic, is that of the changes the recursion over the
    common mappings lists, applied in order. *)
Theorem state_differences_reference `{YamlMapping, KeyOrder} old_state new_state :
  value_wf (VMapping old_state) → value_wf (VMapping new_state) →
  state_differences old_state new_state =
    apply_changes difference_tree_new
      (changes (value_size (VMapping old_state)) old_state new_state []).
Proof. apply state_differences_changes. Qed.

(** C9: the comparison of two states never panics, and its trees hold exactly the
    fields that were added, removed and updated: the trees of first differences
    the topmost ones, the full trees also the keys below them. *)
Theorem state_differences_spec `{YamlMapping, KeyOrder} old_state new_state :
  value_wf (VMapping old_state) → value_wf (VMapping new_state) →
  let is_changed := changed (VMapping old_state) (VMapping new_state) in
  ∃ t, state_differences old_state new_state = Some t ∧
    tree_of (λ p v, v = Null ∧ is_changed (AddedFirst p)) (added_first_difference_tree t) ∧
    tree_of (λ p v, is_changed (AddedFull p v)) (added_full_difference_tree t) ∧
    tree_of (λ p v, v = Null ∧ is_changed (RemovedFirst p)) (removed_first_difference_tree t) ∧
    tree_of (λ p v, is_changed (RemovedFull p v)) (removed_full_difference_tree t) ∧
    tree_of (λ p v, v = Null ∧ is_changed (Updated p)) (updated_full_difference_tree t).
Proof. intros Hold Hnew. by apply state_differences_trees. Qed.

(** ** Examples *)

(** A set order that visits the keys as the mapping lists them. *)
Lemma elem_of_listed_keys (m : Mapping) k : k ∈ remove_dups m.*1 ↔ k ∈ m.*1.
Proof. apply elem_of_remove_dups. Qed.
Definition listed_keys : KeyOrder := {|
  hash_keys := λ m, remove_dups m.*1;
  elem_of_hash_keys := elem_of_listed_keys;
  NoDup_hash_keys := λ m, NoDup_remove_dups m.*1
|}.

Definition example_old : Mapping :=
  [(VString "a", VMapping [(VString "x", VString "1"); (VString "y", VString "2")])].
Definition example_new : Mapping :=
  [(VString "a", VMapping [(VString "x", VString "3")]);
   (VString "b", VMapping [(VString "z", VString "4")])].

Lemma value_wf_singleton s v : value_wf v → value_wf (VMapping [(VString s, v)]).
Proof.
  intros Hv. apply wf_mapping; [apply NoDup_singleton|].
  intros k w [= -> ->]%list_elem_of_singleton. eauto.
Qed.

Lemma value_wf_pair s1 s2 v w :
  s1 ≠ s2 → value_wf v → value_wf w → value_wf (VMapping [(VString s1, v); (VString s2, w)]).
Proof.
  intros Hne Hv Hw. apply wf_mapping.
  - apply NoDup_cons. split; [intros [= ?]%list_elem_of_singleton; congruence|apply NoDup_singleton].
  - intros k x [[= -> ->]|[= -> ->]%list_elem_of_singleton]%elem_of_cons; eauto.
Qed.

Lemma example_old_wf : value_wf (VMapping example_old).
Proof. by apply value_wf_singleton, value_wf_pair; [|apply wf_other..]. Qed.
Lemma example_new_wf : value_wf (VMapping example_new).
Proof. by apply value_wf_pair; [|apply value_wf_singleton, wf_other..]. Qed.

Lemma state_differences_reference_witness :
  let Y := assoc_mapping in
  let K := listed_keys in
  is_Some (state_differences example_old example_new) ∧
  changes (value_size (VMapping example_old)) example_old example_new [] =
    [AddedFirst ["b"]; AddedFull ["b"] (VMapping [(VString "z", Null)]); Updated ["a"; "x"];
     RemovedFirst ["a"; "y"]; RemovedFull ["a"; "y"] Null].
Proof.
  intros Y K. split; [|vm_compute; reflexivity].
  rewrite (state_differences_reference example_old example_new example_old_wf example_new_wf).
  vm_compute. eexists. reflexivity.
Defined.

Lemma state_differences_spec_witness :
  let Y := assoc_mapping in
  let K := listed_keys in
  ∃ t, state_differences example_old example_new = Some t ∧
    object_get (updated_full_difference_tree t) ["a"; "x"] = Some Null.
Proof.
  intros Y K.
  destruct (state_differences_spec example_old example_new example_old_wf example_new_wf)
    as (t & Ht & _ & _ & _ & _ & Hupdated).
  exists t. split; [exact Ht|]. apply (tree_leaf _ _ Hupdated). split; [reflexivity|].
  exists ["a"], [(VString "x", VString "1"); (VString "y", VString "2")], [(VString "x", VString "3")], "x".
  split; [split; reflexivity|]. vm_compute. left.
Defined.
