(* ===== verification/EventHandler.v ===== *)
(** * Ankaios server: event subscriptions

    [server/src/ankaios_server/event_handler.rs]: the subscribers of the
    complete state, the fields of a difference that match the masks of a
    subscriber, and the events sent for them.

    The two searches use an explicit stack; they are loops with fuel, which is
    proved to be enough.  Messages sent to the channel are appended to a list. *)

From stdpp Require Import base tactics gmap strings list.
From S2P Require Import Prelude Api RequestId StateManipulation FieldMask Messages ServerState StateComparator.
From S2P Require Import StateDifferences.

Abbreviation SubscribedFieldMasks := (list Path).
Abbreviation EventHandler := (gmap RequestId SubscribedFieldMasks).

Definition all_empty (a : AlteredFields) : bool :=
  match added_fields a, removed_fields a, updated_fields a with
  | [], [], [] => true
  | _, _, _ => false
  end.

(** ** The subscriber store; [None] is the panic of the id parser *)

Definition add_subscriber (eh : EventHandler) (request_id : string)
    (field_masks : SubscribedFieldMasks) : option EventHandler :=
  id ← request_id_from request_id; Some (<[id := field_masks]> eh).

Definition remove_subscriber (eh : EventHandler) (request_id : string) : option EventHandler :=
  id ← request_id_from request_id; Some (delete id eh).

Definition of_agent (agent : string) (id : RequestId) : bool :=
  match id with
  | FromAgent r => String.eqb (request_agent_name r) agent
  | FromCli _ => false
  end.
Definition of_cli (cli_connection_name : string) (id : RequestId) : bool :=
  match id with
  | FromCli r => String.eqb (cli_name r) cli_connection_name
  | FromAgent _ => false
  end.

Definition request_id_matches_agent_and_workload_name (r : AgentRequestId) (agent wl : string) :
    bool :=
  String.eqb (request_agent_name r) agent && String.eqb (request_workload_name r) wl.
Definition of_workload (agent wl : string) (id : RequestId) : bool :=
  match id with
  | FromAgent r => request_id_matches_agent_and_workload_name r agent wl
  | FromCli _ => false
  end.

(** [subscriber_store.retain(...)]. *)
Definition retain_subscribers (keep : RequestId → bool) (eh : EventHandler) : EventHandler :=
  filter (λ p, keep p.1 = true) eh.

Definition remove_subscribers_of_agent (eh : EventHandler) (agent : string) : EventHandler :=
  retain_subscribers (λ id, negb (of_agent agent id)) eh.
Definition remove_cli_subscriber (eh : EventHandler) (cli_connection_name : string) : EventHandler :=
  retain_subscribers (λ id, negb (of_cli cli_connection_name id)) eh.
Definition remove_workload_subscriber (eh : EventHandler) (agent wl : string) : EventHandler :=
  retain_subscribers (λ id, negb (of_workload agent wl id)) eh.

Definition has_subscribers (eh : EventHandler) : bool := negb (bool_decide (eh = ∅)).

(** ** Altered fields *)

Definition update_path_with_new_key (current_path new_key : string) : string :=
  if str_is_empty current_path then new_key
  else if str_is_empty new_key then current_path
  else current_path +:+ "." +:+ new_key.

(** The entries the loop over a mapping pushes; the stack's top is the head. *)
Definition push_children (path : string) (m : Mapping) (stack : list (Value * string)) :
    list (Value * string) :=
  foldl (λ stack '(next_key, next_tree_value),
    match next_key with
    | VString key => (next_tree_value, update_path_with_new_key path key) :: stack
    | _ => stack
    end) stack m.

Fixpoint leaf_paths_loop (fuel : nat) (stack : list (Value * string)) (tree_paths : list string) :
    option (list string) :=
  match stack with
  | [] => Some tree_paths
  | (v, path) :: stack =>
    match fuel with
    | 0 => None
    | S fuel =>
      match v with
      | VMapping m => leaf_paths_loop fuel (push_children path m stack) tree_paths
      | _ => leaf_paths_loop fuel stack (tree_paths ++ [path])
      end
    end
  end.

Definition collect_all_leaf_paths_iterative (start_node : Value) : option (list string) :=
  leaf_paths_loop (value_size start_node) [(start_node, "")] [].

Section altered_fields.
Context `{YamlMapping}.

(** A stack entry: the nodes in both trees, the rest of the mask, the path so far. *)
Abbreviation mask_task := (Mapping * Mapping * list string * string)%type.

(** The match on the two nodes under one key, common to both branches. *)
Definition visit_nodes (next_node next_extended : Value) (rest : list string) (path : string)
    (stack : list mask_task) (altered : list string) : list mask_task * list string :=
  match next_node, next_extended with
  | VMapping node, VMapping extended => ((node, extended, rest, path) :: stack, altered)
  | Null, extended =>
    match rest with
    | [] => (stack, altered ++ [path])
    | _ :: _ =>
      match extended with
      | VMapping extended => (([], extended, rest, path) :: stack, altered)
      | _ => (stack, altered)
      end
    end
  | _, _ => (stack, altered)
  end.

(** The wildcard branch: all children of the extended node. *)
Definition visit_wildcard (node extended : Mapping) (rest : list string) (path : string)
    (stack : list mask_task) (altered : list string) : list mask_task * list string :=
  foldl (λ '(stack, altered) '(next_key, next_level),
    match next_key with
    | VString key =>
      visit_nodes (default Null (mapping_get node next_key)) next_level rest
        (update_path_with_new_key path key) stack altered
    | _ => (stack, altered)
    end) (stack, altered) extended.

(** The branch of a specific part. *)
Definition visit_part (node extended : Mapping) (next_part : string) (rest : list string)
    (path : string) (stack : list mask_task) (altered : list string) :
    list mask_task * list string :=
  let new_path := update_path_with_new_key path next_part in
  match mapping_get node (VString next_part), mapping_get extended (VString next_part) with
  | Some next_node, Some next_extended =>
    visit_nodes next_node next_extended rest new_path stack altered
  | None, Some next_extended =>
    match next_extended with
    | VMapping extended => (([], extended, rest, new_path) :: stack, altered)
    | Null => match rest with [] => (stack, altered ++ [new_path]) | _ :: _ => (stack, altered) end
    | _ => (stack, altered)
    end
  | _, None => (stack, altered)
  end.

Fixpoint altered_fields_loop (fuel : nat) (stack : list mask_task) (altered : list string) :
    option (list string) :=
  match stack with
  | [] => Some altered
  | (node, extended, parts, path) :: stack =>
    match fuel with
    | 0 => None
    | S fuel =>
      match parts with
      | [] =>
        paths ← collect_all_leaf_paths_iterative (VMapping node);
        altered_fields_loop fuel stack (altered ++ (update_path_with_new_key path <$> paths))
      | next_part :: rest =>
        let '(stack, altered) :=
          if String.eqb next_part WILDCARD_SYMBOL
          then visit_wildcard node extended rest path stack altered
          else visit_part node extended next_part rest path stack altered in
        altered_fields_loop fuel stack altered
      end
    end
  end.

(** The loop over the masks of the subscriber. *)
Fixpoint altered_fields_of_masks (extended_tree tree : Mapping) (masks : list Path)
    (altered : list string) : option (list string) :=
  match masks with
  | [] => Some altered
  | mask :: masks =>
    altered ← altered_fields_loop (value_size (VMapping extended_tree))
      [(tree, extended_tree, mask, "")] altered;
    altered_fields_of_masks extended_tree tree masks altered
  end.

Definition create_altered_fields_matching_subscriber_masks (extended_difference_tree
    difference_tree : Mapping) (subscriber_field_masks : list Path) : option (list string) :=
  match subscriber_field_masks with
  | [] => collect_all_leaf_paths_iterative (VMapping difference_tree)
  | _ =>
    altered_fields_of_masks extended_difference_tree difference_tree subscriber_field_masks []
  end.
End altered_fields.

(** ** Sending events *)

Section send_events.
Context `{IterOrder} `{YamlMapping} `{StateConversion}.

(** A message [complete_state(request_id, state, altered_fields)]. *)
Record Event := {
  event_request_id : string;
  event_state : CompleteState;
  event_altered_fields : AlteredFields
}.

(** The body of the loop over the subscribers. *)
Definition event_for_subscriber (server_state : ServerState)
    (workload_states_map : WorkloadStates.WorkloadStatesMap) (agent_map : AgentMap)
    (added_first added_full removed_first removed_full updated_full : Mapping)
    (subscriber : RequestId * SubscribedFieldMasks) : option (list Event) :=
  let '(request_id, masks) := subscriber in
  added ← create_altered_fields_matching_subscriber_masks added_full added_first masks;
  removed ← create_altered_fields_matching_subscriber_masks removed_full removed_first masks;
  updated ← create_altered_fields_matching_subscriber_masks updated_full updated_full masks;
  let altered := {| added_fields := added; removed_fields := removed; updated_fields := updated |} in
  let filter_masks := added ++ removed ++ updated in
  if all_empty altered then Some []
  else
    answer ← get_complete_state_by_field_mask server_state
      {| field_mask := filter_masks; subscribe_for_events := false |}
      workload_states_map agent_map;
    Some [{| event_request_id := to_string_id request_id;
             event_state :=
               match answer with Ok state => state | Err _ => complete_state_default end;
             event_altered_fields := altered |}].

Fixpoint events_for (f : RequestId * SubscribedFieldMasks → option (list Event))
    (subscribers : list (RequestId * SubscribedFieldMasks)) : option (list Event) :=
  match subscribers with
  | [] => Some []
  | s :: subscribers => e ← f s; es ← events_for f subscribers; Some (e ++ es)
  end.

Definition send_events (eh : EventHandler) (server_state : ServerState)
    (workload_states_map : WorkloadStates.WorkloadStatesMap) (agent_map : AgentMap)
    (tree : StateDifferenceTree) : option (list Event) :=
  added_first ← as_mapping (added_first_difference_tree tree);
  added_full ← as_mapping (added_full_difference_tree tree);
  removed_first ← as_mapping (removed_first_difference_tree tree);
  removed_full ← as_mapping (removed_full_difference_tree tree);
  updated_full ← as_mapping (updated_full_difference_tree tree);
  events_for (event_for_subscriber server_state workload_states_map agent_map
    added_first added_full removed_first removed_full updated_full) (map_iter eh).
End send_events.

(** ** Lemmas *)

(** The leaf paths below a node, in the order in which the search finds them. *)
Fixpoint leaf_paths (v : Value) (path : string) : list string :=
  match v with
  | VMapping m =>
    (fix children (l : list (Value * Value)) : list string :=
      match l with
      | [] => []
      | (key, w) :: l =>
        children l ++
        match key with
        | VString key => leaf_paths w (update_path_with_new_key path key)
        | _ => []
        end
      end) m
  | _ => [path]
  end.

Lemma push_children_spec path m stack :
  (push_children path m stack ≫= λ e, leaf_paths e.1 e.2) =
    leaf_paths (VMapping m) path ++ (stack ≫= λ e, leaf_paths e.1 e.2) ∧
  sum_list_with (λ e, value_size e.1) (push_children path m stack) <
    value_size (VMapping m) + sum_list_with (λ e, value_size e.1) stack.
Proof.
  revert stack. induction m as [|[key w] m IH]; intros stack; [by split; [|simpl; lia]|].
  destruct (IH stack) as [Hp Hs].
  destruct key as [| | |s| | |];
    try (change (push_children path ((?k, w) :: m) stack) with (push_children path m stack);
         split; [rewrite Hp; simpl; by rewrite app_nil_r|simpl in *; lia]).
  change (push_children path ((VString s, w) :: m) stack) with
    (push_children path m ((w, update_path_with_new_key path s) :: stack)).
  destruct (IH ((w, update_path_with_new_key path s) :: stack)) as [Hp' Hs']. split.
  - rewrite Hp'. csimpl. by rewrite <-app_assoc.
  - simpl in *. lia.
Qed.

Lemma leaf_paths_loop_spec fuel stack paths :
  sum_list_with (λ e, value_size e.1) stack ≤ fuel →
  leaf_paths_loop fuel stack paths = Some (paths ++ (stack ≫= λ e, leaf_paths e.1 e.2)).
Proof.
  revert stack paths. induction fuel as [|fuel IH]; intros [|[v path] stack] paths Hfuel;
    simpl; try (by rewrite app_nil_r); pose proof (value_size_pos v); cbn in Hfuel.
  - lia.
  - destruct v as [| | | | |m|]; try (rewrite IH by lia; by rewrite <-app_assoc).
    destruct (push_children_spec path m stack) as [Hpaths Hsize].
    rewrite IH by (cbn in *; lia). by rewrite Hpaths.
Qed.

Lemma collect_all_leaf_paths_spec v :
  collect_all_leaf_paths_iterative v = Some (leaf_paths v "").
Proof.
  unfold collect_all_leaf_paths_iterative. rewrite leaf_paths_loop_spec by (simpl; lia).
  simpl. by rewrite app_nil_r.
Qed.

Section altered_lemmas.
Context `{YamlMapping}.

Abbreviation task_size t := (value_size (VMapping t.1.1.2)).

Lemma visit_nodes_size next_node next_extended rest path stack altered :
  sum_list_with (λ t, task_size t) (visit_nodes next_node next_extended rest path stack altered).1
  ≤ value_size next_extended + sum_list_with (λ t, task_size t) stack.
Proof.
  unfold visit_nodes. destruct next_node, next_extended, rest; simpl; lia.
Qed.

Lemma visit_wildcard_size node extended rest path stack altered :
  sum_list_with (λ t, task_size t) (visit_wildcard node extended rest path stack altered).1 <
  value_size (VMapping extended) + sum_list_with (λ t, task_size t) stack.
Proof.
  unfold visit_wildcard. revert stack altered.
  induction extended as [|[key w] extended IH]; intros stack altered; [simpl; lia|].
  cbn [foldl]. destruct key as [| | |s| | |];
    try (eapply Nat.lt_le_trans; [apply IH|simpl; lia]).
  pose proof (visit_nodes_size (default Null (mapping_get node (VString s))) w rest
    (update_path_with_new_key path s) stack altered) as Hnodes.
  destruct (visit_nodes _ _ _ _ _ _) as [stack' altered'].
  eapply Nat.lt_le_trans; [apply IH|]. simpl in *. lia.
Qed.

Lemma visit_part_size node extended part rest path stack altered :
  value_wf (VMapping extended) →
  sum_list_with (λ t, task_size t) (visit_part node extended part rest path stack altered).1 <
  value_size (VMapping extended) + sum_list_with (λ t, task_size t) stack.
Proof.
  intros Hwf. unfold visit_part.
  destruct (mapping_get extended (VString part)) as [w|] eqn:Hw.
  - apply (elem_of_mapping_parts extended part w Hwf) in Hw as Hin.
    assert (value_size w < value_size (VMapping extended)) as Hlt.
    { inversion Hwf as [? Hnd _|]; subst; [|done]. apply mapping_get_entry in Hw; [|done].
      by eapply value_size_entry. }
    destruct (mapping_get node (VString part)) as [nv|].
    + pose proof (visit_nodes_size nv w rest (update_path_with_new_key path part) stack altered).
      lia.
    + destruct w, rest; simpl in *; lia.
  - destruct (mapping_get node (VString part)); simpl; lia.
Qed.

(** Every extended node on the stack is well-formed. *)
Definition tasks_wf (stack : list (Mapping * Mapping * list string * string)) : Prop :=
  ∀ t, t ∈ stack → value_wf (VMapping t.1.1.2).

Lemma visit_nodes_wf next_node next_extended rest path stack altered :
  value_wf next_extended → tasks_wf stack →
  tasks_wf (visit_nodes next_node next_extended rest path stack altered).1.
Proof.
  intros Hwf Hs. unfold visit_nodes.
  destruct next_node, next_extended, rest; simpl; try done;
    intros t [->|?]%elem_of_cons; auto.
Qed.

Lemma visit_wildcard_wf node extended rest path stack altered :
  value_wf (VMapping extended) → tasks_wf stack →
  tasks_wf (visit_wildcard node extended rest path stack altered).1.
Proof.
  intros Hwf. unfold visit_wildcard.
  assert (∀ k w, (k, w) ∈ extended → value_wf w) as Hall by (intros k w; by apply value_wf_entry).
  clear Hwf. revert stack altered.
  induction extended as [|[key w] extended IH]; intros stack altered Hs; [done|].
  cbn [foldl]. destruct key as [| | |s| | |];
    try (apply IH; [intros k w' ?; apply (Hall k); by right|done]).
  pose proof (visit_nodes_wf (default Null (mapping_get node (VString s))) w rest
    (update_path_with_new_key path s) stack altered) as Hnodes.
  destruct (visit_nodes _ _ _ _ _ _) as [stack' altered'].
  apply IH; [intros k w' ?; apply (Hall k); by right|].
  apply Hnodes; [|done]. apply (Hall (VString s)). by left.
Qed.

Lemma visit_part_wf node extended part rest path stack altered :
  value_wf (VMapping extended) → tasks_wf stack →
  tasks_wf (visit_part node extended part rest path stack altered).1.
Proof.
  intros Hwf Hs. unfold visit_part.
  destruct (mapping_get extended (VString part)) as [w|] eqn:Hw.
  - assert (value_wf w) as Hw'.
    { inversion Hwf as [? Hnd _|]; subst; [|done]. apply mapping_get_entry in Hw; [|done].
      by eapply value_wf_entry. }
    destruct (mapping_get node (VString part)); [by apply visit_nodes_wf|].
    destruct w, rest; simpl; try done; intros t [->|?]%elem_of_cons; auto.
  - by destruct (mapping_get node (VString part)).
Qed.

Lemma altered_fields_loop_total fuel stack altered :
  tasks_wf stack → sum_list_with (λ t, task_size t) stack ≤ fuel →
  is_Some (altered_fields_loop fuel stack altered).
Proof.
  revert stack altered.
  induction fuel as [|fuel IH]; intros [|[[[node extended] parts] path] stack] altered Hwf Hfuel;
    cbn [altered_fields_loop]; try by eexists.
  - simpl in Hfuel. lia.
  - assert (value_wf (VMapping extended)) as Hext by (apply (Hwf (node, extended, parts, path)); by left).
    assert (tasks_wf stack) as Hstack by (intros t ?; apply Hwf; by right).
    destruct parts as [|part rest].
    + rewrite collect_all_leaf_paths_spec. simpl. apply IH; [done|]. cbn [sum_list_with fst snd] in Hfuel. pose proof (value_size_pos (VMapping extended)). lia.
    + pose proof (visit_wildcard_size node extended rest path stack altered).
      pose proof (visit_part_size node extended part rest path stack altered Hext).
      pose proof (visit_wildcard_wf node extended rest path stack altered Hext Hstack).
      pose proof (visit_part_wf node extended part rest path stack altered Hext Hstack).
      destruct (String.eqb part WILDCARD_SYMBOL);
        [destruct (visit_wildcard _ _ _ _ _ _)|destruct (visit_part _ _ _ _ _ _ _)];
        apply IH; simpl in *; try done; lia.
Qed.

Lemma altered_fields_of_masks_total extended tree masks altered :
  value_wf (VMapping extended) → is_Some (altered_fields_of_masks extended tree masks altered).
Proof.
  intros Hwf. revert altered. induction masks as [|mask masks IH]; intros altered; [by eexists|].
  cbn [altered_fields_of_masks].
  destruct (altered_fields_loop_total (value_size (VMapping extended))
    [(tree, extended, mask, "")] altered) as [altered' ->].
  - intros t ->%list_elem_of_singleton. done.
  - simpl. lia.
  - apply IH.
Qed.
End altered_lemmas.

(** ** Properties *)

(** The search for the altered fields ends for every difference and every
    set of masks; for a subscriber without masks it gives exactly the leaves
    of the tree of first differences. *)
Theorem altered_fields_total `{YamlMapping} extended tree masks :
  value_wf (VMapping extended) →
  ∃ altered, create_altered_fields_matching_subscriber_masks extended tree masks = Some altered ∧
    (masks = [] → altered = leaf_paths (VMapping tree) "").
Proof.
  intros Hwf. unfold create_altered_fields_matching_subscriber_masks.
  destruct masks as [|mask masks].
  - rewrite collect_all_leaf_paths_spec. eauto.
  - destruct (altered_fields_of_masks_total extended tree (mask :: masks) [] Hwf) as [a ->].
    by exists a.
Qed.

Definition masked_fields (old new : Mapping) (masks : list Path) : option (list string) :=
  tree ← @state_differences assoc_mapping listed_keys old new;
  first ← as_mapping (added_first_difference_tree tree);
  full ← as_mapping (added_full_difference_tree tree);
  @create_altered_fields_matching_subscriber_masks assoc_mapping full first masks.

(** A sequence that becomes non-empty is an added field of the first
    difference tree but not of the full one, so that a subscriber without
    masks is told about it and a subscriber whose mask is that very field is
    not. *)
Theorem sequence_event_missed :
  ∃ old new : Mapping,
    masked_fields old new [] = Some ["items"] ∧ masked_fields old new [["items"]] = Some [].
Proof.
  exists [(VString "items", VSequence [])], [(VString "items", VSequence [VString "x"])].
  split; vm_compute; reflexivity.
Qed.

Lemma altered_fields_total_witness :
  ∃ altered, @create_altered_fields_matching_subscriber_masks assoc_mapping [] [] [["a"]] = Some altered.
Proof.
  destruct (@altered_fields_total assoc_mapping [] [] [["a"]]) as (altered & Ha & _).
  - apply wf_mapping; [constructor|]. by intros k v ?%elem_of_nil.
  - by exists altered.
Defined.
