(* ===== verification/Server.v ===== *)
(** * Ankaios server: the message loop

    [AnkaiosServer] of [server/src/ankaios_server.rs]: one handler per message
    of the channel to the server.  A handler returns the new state and the
    messages it sends to the agents and CLIs, in order; [None] is a panic
    (a request id that cannot be parsed, a state that does not serialize). *)

From Stdlib Require Import ZArith.
From stdpp Require Import base tactics gmap strings list.
From S2P Require Import Prelude Api WorkloadStates Validation RequestId LogCampaign.
From S2P Require Import ConfigRenderer StateManipulation Messages ServerState StateComparator.
From S2P Require Import StateDifferences EventHandler.

Record AnkaiosServer := {
  server_state : ServerState;
  workload_states_map : WorkloadStatesMap;
  agent_map : AgentMap;
  log_campaign_store : LogCampaignStore;
  event_handler : EventHandler
}.

Definition server_new : AnkaiosServer :=
  {| server_state := server_state_default; workload_states_map := ∅; agent_map := ∅;
     log_campaign_store := log_campaign_store_default; event_handler := ∅ |}.

(** Assignments to one field. *)
Definition set_server_state (s : ServerState) (sv : AnkaiosServer) : AnkaiosServer :=
  {| server_state := s; workload_states_map := workload_states_map sv; agent_map := agent_map sv;
     log_campaign_store := log_campaign_store sv; event_handler := event_handler sv |}.
Definition set_workload_states (m : WorkloadStatesMap) (sv : AnkaiosServer) : AnkaiosServer :=
  {| server_state := server_state sv; workload_states_map := m; agent_map := agent_map sv;
     log_campaign_store := log_campaign_store sv; event_handler := event_handler sv |}.
Definition set_agent_map (m : AgentMap) (sv : AnkaiosServer) : AnkaiosServer :=
  {| server_state := server_state sv; workload_states_map := workload_states_map sv;
     agent_map := m; log_campaign_store := log_campaign_store sv;
     event_handler := event_handler sv |}.
Definition set_log_campaigns (s : LogCampaignStore) (sv : AnkaiosServer) : AnkaiosServer :=
  {| server_state := server_state sv; workload_states_map := workload_states_map sv;
     agent_map := agent_map sv; log_campaign_store := s; event_handler := event_handler sv |}.
Definition set_event_handler (eh : EventHandler) (sv : AnkaiosServer) : AnkaiosServer :=
  {| server_state := server_state sv; workload_states_map := workload_states_map sv;
     agent_map := agent_map sv; log_campaign_store := log_campaign_store sv;
     event_handler := eh |}.

Section server.
Context `{IterOrder} `{Sha256} `{TemplateEngine} `{YamlMapping} `{KeyOrder} {SC : StateConversion}.

Abbreviation outbox := (list (@FromServer SC)).

(** ** Events *)

Definition state_with_agents (agents : AgentMap) : CompleteStateSpec :=
  {| desired_state := state_default; complete_workload_states := ∅; agents := agents |}.
Definition state_with_workload_states (m : WorkloadStatesMap) : CompleteStateSpec :=
  {| desired_state := state_default; complete_workload_states := m; agents := ∅ |}.

(** [StateComparator::new]. *)
Definition comparator_mapping (s : CompleteStateSpec) : option Mapping :=
  match complete_state_to_value (complete_state_of_spec s) with
  | Ok v => as_mapping v
  | Err _ => None
  end.

Definition event_message (e : Event) : FromServer :=
  complete_state (event_request_id e) (event_state e) (Some (event_altered_fields e)).

Definition nothing_to_send (only_differences : bool) (tree : StateDifferenceTree) : option bool :=
  if only_differences then difference_tree_is_empty tree else Some false.

Definition send_differences (sv : AnkaiosServer) (tree : StateDifferenceTree) : option outbox :=
  events ← send_events (event_handler sv) (server_state sv) (workload_states_map sv)
    (agent_map sv) tree;
  Some (map event_message events).

(** Compare the states and send the events; [only_differences] is the test of
    [is_empty] that some of the callers make. *)
Definition publish (sv : AnkaiosServer) (only_differences : bool)
    (old_state new_state : CompleteStateSpec) : option outbox :=
  old ← comparator_mapping old_state;
  new ← comparator_mapping new_state;
  tree ← state_differences old new;
  unchanged ← nothing_to_send only_differences tree;
  if unchanged : bool then Some [] else send_differences sv tree.

(** The guard [if self.event_handler.has_subscribers()] around the above. *)
Definition publish_if_subscribed (sv : AnkaiosServer) (only_differences : bool)
    (old_state new_state : CompleteStateSpec) : option outbox :=
  if has_subscribers (event_handler sv) then publish sv only_differences old_state new_state
  else Some [].

(** ** Agents *)

Definition handle_agent_hello (sv : AnkaiosServer) (agent : string) (tags : gmap string string) :
    option (AnkaiosServer * outbox) :=
  let workload_states := get_workload_state_excluding_agent (workload_states_map sv) agent in
  let states_message :=
    match workload_states with [] => [] | _ => [UpdateWorkloadState workload_states] end in
  let hello := ServerHello (Some agent) (get_workloads_for_agent (server_state sv) agent) in
  let old_state := state_with_agents (agent_map sv) in
  let sv := set_agent_map
    (<[agent := {| status := None; agent_tags := tags |}]> (agent_map sv)) sv in
  events ← publish_if_subscribed sv false old_state (state_with_agents (agent_map sv));
  Some (sv, states_message ++ [hello] ++ events).

Definition handle_agent_load_status (sv : AnkaiosServer) (agent : string) (cpu free_mem : N) :
    option (AnkaiosServer * outbox) :=
  let old_state := state_with_agents (agent_map sv) in
  let sv := set_agent_map
    (alter (λ e, {| status := Some {| cpu_usage := Some cpu; free_memory := Some free_mem |};
                    agent_tags := agent_tags e |}) agent (agent_map sv)) sv in
  events ← publish_if_subscribed sv false old_state (state_with_agents (agent_map sv));
  Some (sv, events).

Definition cancel_log_requests_of_disconnected_collector (request_ids : gset string) : outbox :=
  logs_cancel_request <$> set_iter request_ids.

Definition send_log_stop_response_for_disconnected_agent
    (stopped : list (string * list WorkloadInstanceNameSpec)) : outbox :=
  stopped ≫= λ '(id, names),
    (λ n, logs_stop_response id {| stopped_workload_name := Some n |}) <$> names.

Definition state_of_agents_and_workloads (sv : AnkaiosServer) : CompleteStateSpec :=
  {| desired_state := state_default; complete_workload_states := workload_states_map sv;
     agents := agent_map sv |}.

Definition handle_agent_gone (sv : AnkaiosServer) (agent : string) :
    option (AnkaiosServer * outbox) :=
  let old_state := state_of_agents_and_workloads sv in
  let sv := set_agent_map (delete agent (agent_map sv)) sv in
  let sv := set_workload_states (agent_disconnected (workload_states_map sv) agent) sv in
  let agent_workload_states := get_workload_state_for_agent (workload_states_map sv) agent in
  events ← publish_if_subscribed sv false old_state (state_of_agents_and_workloads sv);
  let sv :=
    if has_subscribers (event_handler sv)
    then set_event_handler (remove_subscribers_of_agent (event_handler sv) agent) sv else sv in
  let '(removed, campaigns) := remove_agent_log_campaign_entry (log_campaign_store sv) agent in
  Some (set_log_campaigns campaigns sv,
        events ++ [UpdateWorkloadState agent_workload_states]
        ++ cancel_log_requests_of_disconnected_collector (collector_requests removed)
        ++ send_log_stop_response_for_disconnected_agent (disconnected_log_providers removed)).

(** ** Requests *)

Definition add_subscriber_if (subscribe : bool) (eh : EventHandler) (id : string)
    (masks : list Path) : option EventHandler :=
  if subscribe then add_subscriber eh id masks else Some eh.

Definition handle_complete_state_request (sv : AnkaiosServer) (id : string)
    (r : CompleteStateRequest) : option (AnkaiosServer * outbox) :=
  answer ← get_complete_state_by_field_mask (server_state sv) r (workload_states_map sv)
             (agent_map sv);
  match answer with
  | Ok s =>
    eh ← add_subscriber_if (subscribe_for_events r) (event_handler sv) id
           (path_from <$> field_mask r);
    Some (set_event_handler eh sv, [complete_state id s None])
  | Err _ => Some (sv, [complete_state id complete_state_default None])
  end.

(** [set_agent_tags]. *)
Definition set_agent_tags (sv : AnkaiosServer) (new_agents : AgentMap) : AnkaiosServer :=
  set_agent_map
    (foldl (λ m '(agent, new_attributes),
      alter (λ existing, {| status := status existing; agent_tags := agent_tags new_attributes |})
        agent m) (agent_map sv) (map_iter new_agents)) sv.

Definition deleted_workload_never_started_on_agent (sv : AnkaiosServer) (d : DeletedWorkload) :
    bool :=
  match agent_map sv !! agent_name (deleted_instance_name d) with
  | Some _ => false
  | None =>
    match get_workload_state_for_workload (workload_states_map sv) (deleted_instance_name d) with
    | Some current_execution_state => is_pending_initial current_execution_state
    | None => false
    end
  end.

(** The body of the loop of [handle_not_started_deleted_workloads]: the server,
    the deleted workloads to send and the states of the others. *)
Definition not_started_step (acc : AnkaiosServer * list DeletedWorkload * list WorkloadStateSpec)
    (d : DeletedWorkload) : AnkaiosServer * list DeletedWorkload * list WorkloadStateSpec :=
  let '(sv, retained, deleted_states) := acc in
  if str_is_empty (agent_name (deleted_instance_name d))
     || deleted_workload_never_started_on_agent sv d then
    (set_workload_states (remove (workload_states_map sv) (deleted_instance_name d)) sv,
     retained,
     deleted_states ++ [{| state_instance_name := deleted_instance_name d;
                           execution_state := removed |}])
  else (sv, retained ++ [d], deleted_states).

Definition handle_not_started_deleted_workloads (sv : AnkaiosServer)
    (deleted : list DeletedWorkload) :
    AnkaiosServer * list DeletedWorkload * list WorkloadStateSpec :=
  foldl not_started_step (sv, [], []) deleted.

(** The loop of [cancel_log_requests_of_deleted_workloads]. *)
Definition cancel_log_requests_of_deleted_workloads (s : LogCampaignStore)
    (deleted : list DeletedWorkload) : LogCampaignStore * outbox :=
  foldl (λ '(s, msgs) d,
    let '(request_ids, s) :=
      remove_collector_campaign_entry s (workload_name (deleted_instance_name d)) in
    (s, msgs ++ (logs_cancel_request <$> set_iter request_ids))) (s, []) deleted.

Definition handle_post_update_steps (sv : AnkaiosServer) (id : string)
    (ad : AddedDeletedWorkloads) (generated : StateGenerationResult) :
    option (AnkaiosServer * outbox) :=
  let added := added_workloads ad in
  let deleted := deleted_workloads ad in
  let old_state :=
    {| desired_state := old_desired_state generated;
       complete_workload_states := workload_states_map sv; agents := ∅ |} in
  let sv := set_workload_states (initial_state (workload_states_map sv) added) sv in
  let added_names := (λ w, instance_name_to_string (instance_name w)) <$> added in
  let deleted_names := (λ d, instance_name_to_string (deleted_instance_name d)) <$> deleted in
  let '(campaigns, cancels) :=
    cancel_log_requests_of_deleted_workloads (log_campaign_store sv) deleted in
  let sv := set_log_campaigns campaigns sv in
  let '(sv, retained, deleted_states) := handle_not_started_deleted_workloads sv deleted in
  events ← publish_if_subscribed sv true old_state
                   {| desired_state := new_desired_state generated;
                      complete_workload_states := workload_states_map sv; agents := ∅ |};
  let states_message :=
    match deleted_states with [] => [] | _ => [UpdateWorkloadState deleted_states] end in
  Some (sv, cancels ++ events ++ states_message ++ [UpdateWorkload added retained]
            ++ [update_state_success id added_names deleted_names]).

Definition update_rejected_message (e : UpdateStateError) : string :=
  "Update rejected: '" +:+ update_state_error_to_string e +:+ "'".

Definition handle_update_state_request (sv : AnkaiosServer) (id : string)
    (r : UpdateStateRequest) : option (AnkaiosServer * outbox) :=
  match new_state r with
  | None => Some (sv, [error id "The UpdateStateRequest does not contain a new state"])
  | Some new_state =>
    match generate_new_state (server_state sv) new_state (update_mask r) with
    | Err e => Some (sv, [error id (update_rejected_message e)])
    | Ok generated =>
      match validate_pre_rendering (new_desired_state generated) with
      | Err error_message => Some (sv, [error id error_message])
      | Ok _ =>
        match update (server_state sv) (new_desired_state generated) with
        | (Ok (Some ad), s) =>
          handle_post_update_steps
            (set_agent_tags (set_server_state s sv) (new_agent_map generated)) id ad generated
        | (Ok None, s) =>
          let sv := set_agent_tags (set_server_state s sv) (new_agent_map generated) in
          events ← publish_if_subscribed sv true
                           {| desired_state := old_desired_state generated;
                              complete_workload_states := ∅; agents := ∅ |}
                           {| desired_state := new_desired_state generated;
                              complete_workload_states := ∅; agents := ∅ |};
          Some (sv, [update_state_success id [] []] ++ events)
        | (Err e, s) => Some (set_server_state s sv, [error id (update_rejected_message e)])
        end
      end
    end
  end.

Definition handle_logs_request (sv : AnkaiosServer) (id : string) (r : LogsRequest) :
    option (AnkaiosServer * outbox) :=
  let r :=
    {| log_workload_names :=
         filter (λ n, desired_state_contains_instance_name (server_state sv) n = true)
           (log_workload_names r);
       follow := follow r; tail_lines := tail_lines r; since := since r; until := until r |} in
  match log_workload_names r with
  | [] => Some (sv, [logs_request_accepted id r])
  | names =>
    campaigns ← insert_log_campaign (log_campaign_store sv) id names;
    Some (set_log_campaigns campaigns sv, [logs_request id r; logs_request_accepted id r])
  end.

Definition handle_logs_cancel_request (sv : AnkaiosServer) (id : string) :
    option (AnkaiosServer * outbox) :=
  campaigns ← remove_logs_request_id (log_campaign_store sv) id;
  Some (set_log_campaigns campaigns sv, [logs_cancel_request id; logs_cancel_request_accepted id]).

Definition handle_events_cancel_request (sv : AnkaiosServer) (id : string) :
    option (AnkaiosServer * outbox) :=
  eh ← remove_subscriber (event_handler sv) id;
  Some (set_event_handler eh sv, [event_cancel_request_accepted id]).

Definition handle_request (sv : AnkaiosServer) (r : Request) : option (AnkaiosServer * outbox) :=
  let id := request_id r in
  match request_content r with
  | None => Some (sv, [error id "The Request does not contain any content"])
  | Some (CompleteStateRequestContent r) => handle_complete_state_request sv id r
  | Some (UpdateStateRequestContent r) => handle_update_state_request sv id r
  | Some (LogsRequestContent r) => handle_logs_request sv id r
  | Some LogsCancelRequestContent => handle_logs_cancel_request sv id
  | Some EventsCancelRequestContent => handle_events_cancel_request sv id
  end.

(** ** Workload states *)

Definition handle_update_workload_state (sv : AnkaiosServer) (states : list WorkloadStateSpec) :
    option (AnkaiosServer * outbox) :=
  let old_state := state_with_workload_states (workload_states_map sv) in
  let sv := set_workload_states (process_new_states (workload_states_map sv) states) sv in
  let sv := set_server_state (cleanup_state (server_state sv) states) sv in
  events ← publish_if_subscribed sv false old_state (state_with_workload_states (workload_states_map sv));
  let sv :=
    if has_subscribers (event_handler sv) then
      set_event_handler
        (foldl (λ eh s,
          if is_removed (execution_state s) then
            remove_workload_subscriber eh (agent_name (state_instance_name s))
              (workload_name (state_instance_name s))
          else eh) (event_handler sv) states) sv
    else sv in
  Some (sv, events ++ [UpdateWorkloadState states]).

Definition handle_goodbye (sv : AnkaiosServer) (connection_name : string) :
    option (AnkaiosServer * outbox) :=
  let '(request_ids, campaigns) :=
    remove_cli_log_campaign_entry (log_campaign_store sv) connection_name in
  let sv := set_log_campaigns campaigns sv in
  Some (set_event_handler (remove_cli_subscriber (event_handler sv) connection_name) sv,
        cancel_log_requests_of_disconnected_collector request_ids).

(** ** The loop *)

Definition handle (sv : AnkaiosServer) (m : ToServer) : option (AnkaiosServer * outbox) :=
  match m with
  | AgentHello agent tags => handle_agent_hello sv agent tags
  | AgentLoadStatus agent cpu free_mem => handle_agent_load_status sv agent cpu free_mem
  | AgentGone agent => handle_agent_gone sv agent
  | ToServerRequest r => handle_request sv r
  | ToServerUpdateWorkloadState states => handle_update_workload_state sv states
  | ToServerLogEntriesResponse id logs => Some (sv, [log_entries_response id logs])
  | ToServerLogsStopResponse id r => Some (sv, [logs_stop_response id r])
  | Goodbye connection_name => handle_goodbye sv connection_name
  | ToServerStop => Some (sv, [])
  end.

(** The messages received until the channel is closed or [Stop] arrives. *)
Fixpoint listen_to_agents (sv : AnkaiosServer) (ms : list ToServer) :
    option (AnkaiosServer * outbox) :=
  match ms with
  | [] => Some (sv, [])
  | ToServerStop :: _ => Some (sv, [])
  | m :: ms =>
    '(sv, out) ← handle sv m;
    '(sv, out') ← listen_to_agents sv ms;
    Some (sv, out ++ out')
  end.

(** [start] up to the loop: the server and the messages of the initial state. *)
Definition start (sv : AnkaiosServer) (startup_state : option CompleteStateSpec) :
    result string (AnkaiosServer * outbox) :=
  match startup_state with
  | None => Ok (sv, [])
  | Some s =>
    _ ← validate_pre_rendering (desired_state s);
    match update (server_state sv) (desired_state s) with
    | (Ok (Some ad), s) =>
      let sv := set_server_state s sv in
      Ok (set_workload_states (initial_state (workload_states_map sv) (added_workloads ad)) sv,
          [UpdateWorkload (added_workloads ad) (deleted_workloads ad)])
    | (Ok None, s) => Ok (set_server_state s sv, [])
    | (Err e, _) => Err (update_state_error_to_string e)
    end
  end.
End server.

(** ** Lemmas *)

#[local] Arguments remove_collector_campaign_entry : simpl never.
#[local] Arguments remove_agent_log_campaign_entry : simpl never.
#[local] Arguments remove_cli_log_campaign_entry : simpl never.

Section lemmas.
Context `{IterOrder} `{Sha256} `{TemplateEngine} `{YamlMapping} `{KeyOrder} {SC : StateConversion}.
Implicit Types sv : AnkaiosServer.

(** The responses to requests; events are complete states with altered fields. *)
Definition direct_response (m : @FromServer SC) : option (@Response SC) :=
  match m with
  | FromServerResponse r =>
    match response_content r with
    | Some (CompleteStateResponseContent _ (Some _)) => None
    | _ => Some r
    end
  | _ => None
  end.
Definition direct_responses (out : list (@FromServer SC)) : list (@Response SC) :=
  omap direct_response out.

Lemma direct_responses_app out1 out2 :
  direct_responses (out1 ++ out2) = direct_responses out1 ++ direct_responses out2.
Proof. apply omap_app. Qed.

Lemma direct_responses_events events : direct_responses (map event_message events) = [].
Proof. induction events as [|e events IH]; [done|]. exact IH. Qed.

Lemma direct_responses_cancels ids : direct_responses (logs_cancel_request <$> ids) = [].
Proof. induction ids as [|id ids IH]; [done|]. exact IH. Qed.

Lemma publish_no_response sv only old new out :
  publish_if_subscribed sv only old new = Some out → direct_responses out = [].
Proof.
  unfold publish_if_subscribed, publish. destruct (has_subscribers _); [|by intros [= <-]].
  intros (? & _ & (? & _ & (tree & _ & (unchanged & _ & Hout)%bind_Some)%bind_Some)%bind_Some)%bind_Some.
  destruct unchanged; [by injection Hout as <-|].
  unfold send_differences in Hout. apply bind_Some in Hout as (events & _ & [= <-]).
  apply direct_responses_events.
Qed.

Lemma cancel_deleted_no_response s deleted :
  direct_responses (cancel_log_requests_of_deleted_workloads s deleted).2 = [].
Proof.
  unfold cancel_log_requests_of_deleted_workloads.
  assert (∀ msgs s, direct_responses msgs = [] →
    direct_responses (foldl (λ '(s, msgs) d,
      let '(request_ids, s) :=
        remove_collector_campaign_entry s (workload_name (deleted_instance_name d)) in
      (s, msgs ++ (logs_cancel_request <$> set_iter request_ids))) (s, msgs) deleted).2 = [])
    as Hloop; [|by apply Hloop].
  induction deleted as [|d deleted IH]; intros msgs s' Hm; simpl; [done|].
  apply IH. by rewrite direct_responses_app, Hm, direct_responses_cancels.
Qed.

Lemma post_update_response sv id ad generated sv' out :
  handle_post_update_steps sv id ad generated = Some (sv', out) →
  ∃ added deleted, direct_responses out =
    [{| response_request_id := id;
        response_content := Some (UpdateStateSuccessContent added deleted) |}].
Proof.
  unfold handle_post_update_steps.
  pose proof (cancel_deleted_no_response (log_campaign_store
    (set_workload_states (initial_state (workload_states_map sv) (added_workloads ad)) sv))
    (deleted_workloads ad)) as Hcancels.
  destruct (cancel_log_requests_of_deleted_workloads _ _) as [campaigns cancels].
  destruct (handle_not_started_deleted_workloads _ _) as [[sv1 retained] states].
  intros (events & Hevents%publish_no_response & [= _ <-])%bind_Some.
  rewrite !direct_responses_app. simpl in Hcancels. rewrite Hcancels, Hevents.
  destruct states; simpl; by eexists _, _.
Qed.

Lemma direct_response_in m out r :
  m ∈ out → direct_response m = Some r → r ∈ direct_responses out.
Proof. intros Hm Hr. apply list_elem_of_omap. eauto. Qed.

Lemma update_success_response id events :
  direct_responses events = [] →
  direct_responses (update_state_success id [] [] :: events) =
  [{| response_request_id := id;
      response_content := Some (UpdateStateSuccessContent [] []) |}].
Proof. intros He. unfold direct_responses in *. csimpl. by rewrite He. Qed.

Lemma server_error_response id (msg : string) :
  direct_responses [error id msg] =
  [{| response_request_id := id; response_content := Some (ErrorContent msg) |}].
Proof. done. Qed.

(** ** Invariant *)

(** The invariants of the components. *)
Record ankaios_server_wf sv : Prop := {
  wf_server_state : server_wf (server_state sv);
  wf_workload_states : states_wf (workload_states_map sv);
  wf_log_campaigns : campaign_wf (log_campaign_store sv)
}.

Lemma server_wf_new : ankaios_server_wf server_new.
Proof.
  split; simpl; [apply server_wf_default|apply map_Forall_empty|apply campaign_wf_default].
Qed.

Lemma campaign_wf_cancel_deleted s deleted :
  campaign_wf s → campaign_wf (cancel_log_requests_of_deleted_workloads s deleted).1.
Proof.
  unfold cancel_log_requests_of_deleted_workloads. generalize (@nil (@FromServer SC)).
  revert s. induction deleted as [|d deleted IH]; intros s msgs Hs; cbn [foldl]; [done|].
  pose proof (campaign_wf_remove_collector s (workload_name (deleted_instance_name d)) Hs) as Hwf.
  destruct (remove_collector_campaign_entry s _) as [ids s']. apply IH. exact Hwf.
Qed.

(** The step of the loop over the deleted workloads, and its invariant. *)
Lemma not_started_loop (P : AnkaiosServer → Prop) acc deleted :
  (∀ sv n, P sv → P (set_workload_states (remove (workload_states_map sv) n) sv)) →
  P acc.1.1 → P (foldl not_started_step acc deleted).1.1.
Proof.
  intros Hstep. revert acc.
  induction deleted as [|d deleted IH]; intros [[sv l1] l2] Hsv; simpl; [done|].
  destruct (_ || _); apply IH; [by apply Hstep|done].
Qed.

Lemma wf_post_update sv id ad generated sv' out :
  ankaios_server_wf sv → handle_post_update_steps sv id ad generated = Some (sv', out) →
  ankaios_server_wf sv'.
Proof.
  intros [Hs Hw Hc]. unfold handle_post_update_steps.
  set (sv1 := set_workload_states _ sv).
  pose proof (campaign_wf_cancel_deleted (log_campaign_store sv1) (deleted_workloads ad)) as Hcancel.
  destruct (cancel_log_requests_of_deleted_workloads _ _) as [campaigns cancels].
  pose proof (not_started_loop ankaios_server_wf (set_log_campaigns campaigns sv1, [], [])
    (deleted_workloads ad)) as Hloop. unfold handle_not_started_deleted_workloads.
  destruct (foldl not_started_step _ _) as [[sv2 retained] states].
  intros (events & _ & [= <- _])%bind_Some. apply Hloop.
  - intros sv3 n [? ? ?]. split; simpl; [done|by apply states_wf_remove|done].
  - split; simpl; [done|by apply states_wf_initial_state|by apply Hcancel].
Qed.

Lemma wf_set_agent_tags sv agents : ankaios_server_wf sv → ankaios_server_wf (set_agent_tags sv agents).
Proof. intros [? ? ?]. by split. Qed.

Lemma handle_agent_gone_effect sv agent sv' out :
  handle_agent_gone sv agent = Some (sv', out) →
  let sv1 := set_workload_states (agent_disconnected (workload_states_map sv) agent)
               (set_agent_map (delete agent (agent_map sv)) sv) in
  let gone := remove_agent_log_campaign_entry (log_campaign_store sv) agent in
  sv' = set_log_campaigns gone.2
    (set_event_handler
      (if has_subscribers (event_handler sv)
       then remove_subscribers_of_agent (event_handler sv) agent else event_handler sv) sv1) ∧
  ∃ events,
    publish_if_subscribed sv1 false (state_of_agents_and_workloads sv)
      (state_of_agents_and_workloads sv1) = Some events ∧
    out = events
      ++ [UpdateWorkloadState (get_workload_state_for_agent (workload_states_map sv1) agent)]
      ++ cancel_log_requests_of_disconnected_collector (collector_requests gone.1)
      ++ send_log_stop_response_for_disconnected_agent (disconnected_log_providers gone.1).
Proof.
  unfold handle_agent_gone. intros (events & Hevents & Hsv')%bind_Some.
  cbn [event_handler set_workload_states set_agent_map] in Hsv'.
  set (gone := remove_agent_log_campaign_entry (log_campaign_store sv) agent) in *.
  destruct (has_subscribers (event_handler sv));
    cbn [log_campaign_store set_event_handler set_workload_states set_agent_map] in Hsv';
    fold gone in Hsv'; rewrite (surjective_pairing gone) in Hsv'; injection Hsv' as <- <-;
    (split; [by destruct sv|]); by exists events.
Qed.

(** The invariant, field by field, from the lemmas of the components. *)
Ltac solve_wf :=
  split; cbn [server_state workload_states_map log_campaign_store set_server_state
    set_workload_states set_log_campaigns set_event_handler set_agent_map]; eauto with wf.

Lemma handle_wf sv m sv' out :
  ankaios_server_wf sv → handle sv m = Some (sv', out) → ankaios_server_wf sv'.
Proof.
  intros Hsv. pose proof Hsv as [Hs Hw Hc].
  destruct m as [agent tags|agent cpu mem|agent|[id [[r|r|r| |]|]]|states| |conn|id logs|id r];
    cbn [handle handle_request request_content request_id].
  - intros Hrun. unfold handle_agent_hello in Hrun. simplify_run. by split.
  - intros Hrun. unfold handle_agent_load_status in Hrun. simplify_run. by split.
  - intros [-> _]%handle_agent_gone_effect. solve_wf.
  - unfold handle_update_state_request. destruct (new_state r) as [ns|]; [|by intros [= <- _]].
    destruct (generate_new_state _ _ _) as [generated|]; [|by intros [= <- _]].
    destruct (validate_pre_rendering _); [|by intros [= <- _]].
    pose proof (server_wf_update (server_state sv) (new_desired_state generated) Hs) as Hup.
    destruct (update _ _) as [[[ad|]|e] s]; simpl in Hup; intros Hrun.
    + eapply wf_post_update, Hrun. apply wf_set_agent_tags. by split.
    + simplify_run. apply wf_set_agent_tags. by split.
    + simplify_run. by split.
  - unfold handle_complete_state_request. intros Hrun. simplify_run.
    case_match; simplify_run; by try split.
  - unfold handle_logs_request. simpl. case_match; intros Hrun; simplify_run; [done|].
    solve_wf.
  - unfold handle_logs_cancel_request. intros Hrun. simplify_run. solve_wf.
  - unfold handle_events_cancel_request. intros Hrun. simplify_run. by split.
  - by intros [= <- _].
  - unfold handle_update_workload_state. intros Hrun. simplify_run.
    case_match; solve_wf.
  - by intros [= <- _].
  - unfold handle_goodbye. pose proof (campaign_wf_remove_cli (log_campaign_store sv) conn Hc).
    destruct (remove_cli_log_campaign_entry _ _) as [ids campaigns]. intros [= <- _]. by split.
  - by intros [= <- _].
  - by intros [= <- _].
Qed.
End lemmas.

Lemma one_response `{IterOrder, Sha256, TemplateEngine, YamlMapping, KeyOrder,
    SC : StateConversion} sv (r : @Request SC) sv' out :
  handle sv (ToServerRequest r) = Some (sv', out) →
  ∃ content, direct_responses out =
    [{| response_request_id := request_id r; response_content := Some content |}].
Proof.
  destruct r as [id [content|]]; cbn [handle handle_request request_id request_content];
    [|intros [= _ <-]; by eexists].
  destruct content as [r|r|r| |].
  - unfold handle_update_state_request. destruct (new_state r) as [ns|];
      [|intros [= _ <-]; by eexists].
    destruct (generate_new_state _ _ _) as [generated|]; [|intros [= _ <-]; by eexists].
    destruct (validate_pre_rendering _); [|intros [= _ <-]; by eexists].
    destruct (update _ _) as [[[ad|]|e] s]; [| |intros [= _ <-]; by eexists].
    { intros (added & deleted & ->)%post_update_response. by eexists. }
    intros (events & Hevents%publish_no_response & [= _ <-])%bind_Some.
    rewrite update_success_response by done. by eexists.
  - unfold handle_complete_state_request. intros ([answer|] & _ & Hsv')%bind_Some.
    + apply bind_Some in Hsv' as (eh & _ & [= _ <-]). by eexists.
    + injection Hsv' as _ <-. by eexists.
  - unfold handle_logs_request. destruct (log_workload_names _) as [|n ns];
      [intros [= _ <-]; by eexists|].
    intros (campaigns & _ & [= _ <-])%bind_Some. by eexists.
  - intros (campaigns & _ & [= _ <-])%bind_Some. by eexists.
  - intros (eh & _ & [= _ <-])%bind_Some. by eexists.
Qed.

(** ** Properties *)

(** C25: the invariants of the server's components (rendered workloads,
    workload states, log campaigns) hold after every sequence of messages the
    server handles without a panic. *)
Theorem server_invariant `{IterOrder, Sha256, TemplateEngine, YamlMapping, KeyOrder, SC : StateConversion}
    ms sv out :
  listen_to_agents server_new ms = Some (sv, out) → ankaios_server_wf sv.
Proof.
  assert (∀ sv0 out, ankaios_server_wf sv0 → listen_to_agents sv0 ms = Some (sv, out) →
    ankaios_server_wf sv) as Hloop; [|by apply Hloop, server_wf_new].
  induction ms as [|m ms IH]; intros sv0 out0 Hsv0; [by intros [= <- _]|].
  assert ((('(sv1, out1) ← handle sv0 m; '(sv2, out2) ← listen_to_agents sv1 ms;
    Some (sv2, out1 ++ out2)) = Some (sv, out0)) → ankaios_server_wf sv) as Hstep.
  { intros ([sv1 out1] & Hm & ([sv2 out2] & Hms & [= <- _])%bind_Some)%bind_Some.
    eapply IH; [|done]. by eapply handle_wf. }
  destruct m; try exact Hstep. by intros [= <- _].
Qed.

(** Every request gets exactly one response, under its own id; all other
    messages that are sent while the request is handled are events, commands
    to the agents and cancelled log requests. *)
Theorem request_answered_once `{IterOrder, Sha256, TemplateEngine, YamlMapping, KeyOrder,
    SC : StateConversion} sv (r : @Request SC) sv' out :
  handle sv (ToServerRequest r) = Some (sv', out) →
  ∃ content, direct_responses out =
    [{| response_request_id := request_id r; response_content := Some content |}].
Proof. apply one_response. Qed.

(** C1: an update that is answered with an error has no effect: the state of
    the server is unchanged and nothing but the error is sent. *)
Theorem failed_update_has_no_effect `{IterOrder, Sha256, TemplateEngine, YamlMapping, KeyOrder,
    SC : StateConversion} sv id (r : @UpdateStateRequest SC) sv' out msg :
  handle_update_state_request sv id r = Some (sv', out) → error id msg ∈ out →
  sv' = sv ∧ out = [error id msg].
Proof.
  assert (∀ msg', error id msg ∈ [@error SC id msg'] → [error id msg'] = [@error SC id msg])
    as Hsingle by (by intros msg' ->%list_elem_of_singleton).
  assert (∀ l a d, direct_responses l =
      [{| response_request_id := id;
          response_content := Some (@UpdateStateSuccessContent SC a d) |}] →
      error id msg ∈ l → False) as Hsuccess.
  { intros l a d Hl Hin. eapply direct_response_in in Hin; [|done].
    rewrite Hl in Hin. by apply list_elem_of_singleton in Hin. }
  unfold handle_update_state_request. destruct (new_state r) as [ns|];
    [|intros [= <- <-]; by auto].
  destruct (generate_new_state _ _ _) as [generated|]; [|intros [= <- <-]; by auto].
  destruct (validate_pre_rendering _); [|intros [= <- <-]; by auto].
  destruct (update _ _) as [[[ad|]|e] s] eqn:Hup.
  - intros (added & deleted & Hout)%post_update_response Hin. by destruct (Hsuccess _ _ _ Hout Hin).
  - intros (events & Hevents%publish_no_response & [= _ <-])%bind_Some Hin.
    by destruct (Hsuccess _ _ _ (update_success_response id events Hevents) Hin).
  - apply update_err_unchanged in Hup as ->. intros [= <- <-] Hin.
    split; [by destruct sv|by apply Hsingle].
Qed.

(** When an agent disconnects, it is no longer listed, the states of all
    its workloads, and no others, become agent-disconnected, exactly these
    states are distributed, and no subscription of the agent is left. *)
Theorem agent_gone_spec `{IterOrder, Sha256, TemplateEngine, YamlMapping, KeyOrder,
    SC : StateConversion} sv agent sv' out :
  handle sv (AgentGone agent) = Some (sv', out) →
  agent_map sv' = delete agent (agent_map sv) ∧
  (∀ n, get_workload_state_for_workload (workload_states_map sv') n =
    if decide (agent_name n = agent)
    then (λ _, agent_disconnected_state) <$> get_workload_state_for_workload (workload_states_map sv) n
    else get_workload_state_for_workload (workload_states_map sv) n) ∧
  (∃ states, UpdateWorkloadState states ∈ out ∧
    ∀ s, s ∈ states ↔
      agent_name (state_instance_name s) = agent ∧
      get_workload_state_for_workload (workload_states_map sv') (state_instance_name s)
      = Some (execution_state s)) ∧
  ∀ id, of_agent agent id = true → event_handler sv' !! id = None.
Proof.
  intros (-> & events & _ & ->)%handle_agent_gone_effect. simpl.
  split; [done|]. split; [apply flat_agent_disconnected|]. split.
  - eexists. split; [apply elem_of_app; right; by left|]. intros s. apply elem_of_get_for_agent.
  - intros id Hid. unfold has_subscribers. case_bool_decide as Hempty; simpl.
    + by rewrite Hempty, lookup_empty.
    + unfold remove_subscribers_of_agent, retain_subscribers.
      apply map_lookup_filter_None. right. intros masks _. simpl. by rewrite Hid.
Qed.

Section not_started.
Context `{IterOrder} `{Sha256} `{TemplateEngine} `{YamlMapping} `{KeyOrder} {SC : StateConversion}.

(** A deleted workload that is not sent to the agents: it is not assigned to an
    agent, or its agent is not connected and it still waits for its start. *)
Definition never_started (sv : AnkaiosServer) (d : DeletedWorkload) : bool :=
  str_is_empty (agent_name (deleted_instance_name d))
  || deleted_workload_never_started_on_agent sv d.

Definition removed_state (d : DeletedWorkload) : WorkloadStateSpec :=
  {| state_instance_name := deleted_instance_name d; execution_state := removed |}.

(** Removing the state of another instance does not change the decision. *)
Lemma never_started_remove sv d d' :
  deleted_instance_name d ≠ deleted_instance_name d' →
  never_started (set_workload_states (remove (workload_states_map sv) (deleted_instance_name d)) sv) d'
  = never_started sv d'.
Proof.
  intros Hne. unfold never_started, deleted_workload_never_started_on_agent. simpl. f_equal.
  destruct (agent_map sv !! _); [done|].
  by rewrite flat_remove, decide_False.
Qed.

Lemma not_started_spec deleted sv l1 l2 :
  NoDup (deleted_instance_name <$> deleted) →
  let '(sv', retained, states) := foldl not_started_step (sv, l1, l2) deleted in
  retained = l1 ++ filter (λ d, never_started sv d = false) deleted ∧
  states = l2 ++ (removed_state <$> filter (λ d, never_started sv d = true) deleted) ∧
  (∀ n, flat (workload_states_map sv') n =
    if decide (Exists (λ d, deleted_instance_name d = n ∧ never_started sv d = true) deleted)
    then None else flat (workload_states_map sv) n) ∧
  agent_map sv' = agent_map sv.
Proof.
  revert sv l1 l2. induction deleted as [|d deleted IH]; intros sv l1 l2 Hnd; cbn [foldl].
  - rewrite !app_nil_r. by repeat split.
  - rewrite fmap_cons in Hnd. apply NoDup_cons in Hnd as [Hd Hnd].
    unfold not_started_step at 2. fold (never_started sv d).
    destruct (never_started sv d) eqn:Hns.
    + set (sv1 := set_workload_states (remove (workload_states_map sv) (deleted_instance_name d)) sv).
      assert (∀ d', d' ∈ deleted → never_started sv1 d' = never_started sv d') as Heq.
      { intros d' Hd'. apply never_started_remove. intros Heq. apply Hd. rewrite Heq.
        apply list_elem_of_fmap. eauto. }
      specialize (IH sv1 l1 (l2 ++ [removed_state d]) Hnd).
      destruct (foldl _ _ _) as [[sv' retained] states]. destruct IH as (-> & -> & Hflat & Hagents).
      rewrite filter_cons_False by congruence. rewrite filter_cons_True by done. repeat split.
      * f_equal. apply list_filter_iff'. intros d' Hd'. by rewrite Heq.
      * rewrite <-app_assoc. simpl. do 3 f_equal. apply list_filter_iff'.
        intros d' Hd'. by rewrite Heq.
      * intros n. rewrite Hflat.
        change (workload_states_map sv1) with
          (remove (workload_states_map sv) (deleted_instance_name d)).
        rewrite flat_remove.
        destruct (decide (Exists _ deleted)) as [Hex|Hex].
        -- rewrite decide_True; [done|]. right. apply Exists_exists in Hex as (d' & Hin & <- & Hd').
           apply Exists_exists. exists d'. rewrite (Heq d' Hin) in Hd'. done.
        -- apply decide_ext. rewrite Exists_cons. split; [by left|]. intros [[? _]|Hex']; [done|].
           destruct Hex. apply Exists_exists in Hex' as (d' & Hin & <- & Hd').
           apply Exists_exists. exists d'. rewrite (Heq d' Hin). done.
      * exact Hagents.
    + specialize (IH sv (l1 ++ [d]) l2 Hnd).
      destruct (foldl _ _ _) as [[sv' retained] states]. destruct IH as (-> & -> & Hflat & Hagents).
      rewrite filter_cons_True by done. rewrite filter_cons_False by congruence. repeat split.
      * by rewrite <-app_assoc.
      * intros n. rewrite Hflat. apply decide_ext. rewrite Exists_cons. split; [by right|].
        intros [[_ ?]|?]; [congruence|done].
      * exact Hagents.
Qed.
End not_started.

(** The deleted workloads of an update are told apart correctly: those that
    never started (not assigned, or waiting for an agent that is not connected)
    are not sent to the agents but lose their state and are reported as
    removed, in the order of the update; all others are sent, and no other
    state changes. *)
Theorem handle_not_started_spec `{IterOrder, Sha256, TemplateEngine, YamlMapping, KeyOrder,
    SC : StateConversion} sv deleted :
  NoDup (deleted_instance_name <$> deleted) →
  let '(sv', retained, states) := handle_not_started_deleted_workloads sv deleted in
  retained = filter (λ d, never_started sv d = false) deleted ∧
  states = removed_state <$> filter (λ d, never_started sv d = true) deleted ∧
  ∀ n, get_workload_state_for_workload (workload_states_map sv') n =
    if decide (Exists (λ d, deleted_instance_name d = n ∧ never_started sv d = true) deleted)
    then None else get_workload_state_for_workload (workload_states_map sv) n.
Proof.
  intros Hnd. pose proof (not_started_spec deleted sv [] [] Hnd) as Hspec.
  unfold handle_not_started_deleted_workloads.
  destruct (foldl not_started_step _ _) as [[sv' retained] states].
  by destruct Hspec as (-> & -> & ? & _).
Qed.

(** A log request is forwarded and registered for exactly those of its
    instances that are in the desired state; if there are none, it is accepted
    without effect. *)
Theorem handle_logs_request_spec `{IterOrder, Sha256, TemplateEngine, YamlMapping, KeyOrder,
    SC : StateConversion} sv id (r : LogsRequest) sv' out :
  handle_logs_request sv id r = Some (sv', out) →
  ∃ r', (∀ n, n ∈ log_workload_names r' ↔
          n ∈ log_workload_names r ∧ desired_state_contains_instance_name (server_state sv) n = true) ∧
    ((log_workload_names r' = [] ∧ sv' = sv ∧ out = [logs_request_accepted id r']) ∨
     (log_workload_names r' ≠ [] ∧ out = [logs_request id r'; logs_request_accepted id r'] ∧
      insert_log_campaign (log_campaign_store sv) id (log_workload_names r')
      = Some (log_campaign_store sv'))).
Proof.
  unfold handle_logs_request.
  set (r' := {| log_workload_names := _ |}). intros Hout. exists r'. split.
  { intros n. unfold r'. simpl. rewrite list_elem_of_filter. naive_solver. }
  destruct (log_workload_names r') as [|n ns] eqn:Hnames.
  - injection Hout as <- <-. by left.
  - apply bind_Some in Hout as (campaigns & Hins & [= <- <-]). by right.
Qed.

(** ** Examples *)

Abbreviation example_handle :=
  (@handle key_order example_sha plain_engine assoc_mapping listed_keys example_conversion).
Abbreviation example_start := (@start key_order example_sha plain_engine example_conversion).

Definition web_state (tags : gmap string string) : CompleteStateSpec :=
  {| desired_state :=
       {| api_version := CURRENT_API_VERSION;
          workloads := {["web" := set_tags (set_agent workload_default "agent_A") tags]};
          configs := ∅ |};
     complete_workload_states := ∅; agents := ∅ |}.
Definition web_name : WorkloadInstanceNameSpec :=
  {| workload_name := "web"; agent_name := "agent_A"; instance_id := "" |}.

(** An update that changes a workload which waits for its agent to connect,
    but not the workload's instance name, e.g. its tags, removes the state of
    the new workload together with that of the old one: the workload is in the
    desired state and is sent as added, and yet it has no state and is
    reported as removed. *)
Theorem update_drops_state_of_waiting_workload :
  ∃ sv1 out1 sv2 out2,
    example_start server_new (Some (web_state ∅)) = Ok (sv1, out1) ∧
    get_workload_state_for_workload (workload_states_map sv1) web_name = Some initial ∧
    example_handle sv1
      (@request_update_state example_conversion "cli-conn-1@1" (web_state {["env" := "prod"]}) [])
      = Some (sv2, out2) ∧
    desired_state_contains_instance_name (server_state sv2) web_name = true ∧
    get_workload_state_for_workload (workload_states_map sv2) web_name = None ∧
    UpdateWorkloadState [{| state_instance_name := web_name; execution_state := removed |}] ∈ out2.
Proof.
  destruct (example_start server_new (Some (web_state ∅))) as [[sv1 out1]|] eqn:H1;
    [|by vm_compute in H1].
  destruct (example_handle sv1 (@request_update_state example_conversion "cli-conn-1@1"
    (web_state {["env" := "prod"]}) [])) as [[sv2 out2]|] eqn:H2.
  - vm_compute in H1. injection H1 as <- <-. vm_compute in H2. injection H2 as <- <-.
    eexists _, _, _, _. repeat (split; [vm_compute; reflexivity|]). left.
  - vm_compute in H1. injection H1 as <- <-. by vm_compute in H2.
Qed.

Definition example_logs : LogsRequest :=
  {| log_workload_names := [web_name]; follow := None; tail_lines := None; since := None;
     until := None |}.

Lemma server_invariant_witness :
  match @listen_to_agents key_order example_sha plain_engine assoc_mapping listed_keys
    example_conversion server_new [AgentHello "agent_A" ∅; AgentGone "agent_A"] with
  | Some (sv, _) =>
    @ankaios_server_wf key_order example_sha plain_engine sv
  | None => False
  end.
Proof.
  destruct (listen_to_agents server_new _) as [[sv out]|] eqn:Hms.
  - eapply (@server_invariant key_order example_sha plain_engine assoc_mapping listed_keys
      example_conversion). exact Hms.
  - by vm_compute in Hms.
Defined.

Lemma request_answered_once_witness :
  ∃ content, direct_responses [@logs_request_accepted example_conversion "cli-conn-1@1"
      {| log_workload_names := []; follow := None; tail_lines := None; since := None;
         until := None |}] =
    [{| response_request_id := "cli-conn-1@1"; response_content := Some content |}].
Proof.
  apply (@request_answered_once key_order example_sha plain_engine assoc_mapping listed_keys
    example_conversion server_new
    {| request_id := "cli-conn-1@1"; request_content := Some (LogsRequestContent example_logs) |}
    server_new).
  vm_compute. reflexivity.
Defined.

Definition cyclic_state : @CompleteState example_conversion :=
  {| desired_state := example_cyclic_state; complete_workload_states := ∅; agents := ∅ |}.
Definition cyclic_update : @UpdateStateRequest example_conversion :=
  {| new_state := Some cyclic_state; update_mask := [] |}.

Lemma failed_update_has_no_effect_witness :
  @error example_conversion "cli-conn-1@1"
    "Update rejected: 'workload dependency 'a' is part of a cycle.'" ∈
    [@error example_conversion "cli-conn-1@1"
      "Update rejected: 'workload dependency 'a' is part of a cycle.'"] ∧ server_new = server_new.
Proof.
  split; [by left|].
  apply (@failed_update_has_no_effect key_order example_sha plain_engine assoc_mapping listed_keys
    example_conversion server_new "cli-conn-1@1" cyclic_update server_new
    [error "cli-conn-1@1" "Update rejected: 'workload dependency 'a' is part of a cycle.'"]
    "Update rejected: 'workload dependency 'a' is part of a cycle.'");
    [vm_compute; reflexivity|by left].
Defined.

Lemma agent_gone_spec_witness :
  match example_handle server_new (AgentGone "agent_A") with
  | Some (sv, _) => agent_map sv = delete "agent_A" (agent_map server_new)
  | None => False
  end.
Proof.
  destruct (example_handle server_new (AgentGone "agent_A")) as [[sv out]|] eqn:Hm.
  - exact (proj1 (@agent_gone_spec key_order example_sha plain_engine assoc_mapping listed_keys
      example_conversion _ _ _ _ Hm)).
  - by vm_compute in Hm.
Defined.

Lemma handle_not_started_spec_witness :
  (@handle_not_started_deleted_workloads server_new
    [{| deleted_instance_name := web_name; deleted_dependencies := ∅ |}]).1.2 =
  [{| deleted_instance_name := web_name; deleted_dependencies := ∅ |}].
Proof.
  pose proof (@handle_not_started_spec key_order example_sha plain_engine assoc_mapping listed_keys
    example_conversion server_new
    [{| deleted_instance_name := web_name; deleted_dependencies := ∅ |}]
    (NoDup_singleton _)) as Hspec.
  destruct (handle_not_started_deleted_workloads _ _) as [[sv retained] states].
  destruct Hspec as [-> _]. reflexivity.
Defined.

Lemma handle_logs_request_spec_witness :
  match @handle_logs_request example_conversion server_new "cli-conn-1@1" example_logs with
  | Some (sv, out) => ∃ r', log_workload_names r' = [] ∧ out = [logs_request_accepted "cli-conn-1@1" r']
  | None => False
  end.
Proof.
  destruct (handle_logs_request server_new "cli-conn-1@1" example_logs) as [[sv out]|] eqn:Hm.
  - destruct (@handle_logs_request_spec key_order example_sha plain_engine assoc_mapping listed_keys
      example_conversion _ _ _ _ _ Hm) as (r' & Hin & [(Hr & _ & ->)|(Hr & _ & _)]).
    + by exists r'.
    + exfalso. destruct (log_workload_names r') as [|n ns] eqn:Hn; [done|].
      destruct (Hin n) as [Hl _]. destruct Hl as [_ Hl]; [by left|]. by vm_compute in Hl.
  - by vm_compute in Hm.
Defined.
