(* ===== verification/ServerAnswers.v ===== *)
(** * Ankaios server: every request is answered

    The server neither panics nor hangs on any message whose request id can be
    parsed: all its searches end (with the fuel they are given), the comparison
    of states always succeeds, and so does the selection of the fields of the
    events. So each request of a connected client is answered.

    The only assumption is that the conversion of a complete state to YAML gives
    mappings with distinct string keys, as [serde] does for the generated
    messages. *)

From stdpp Require Import base tactics gmap strings list.
From S2P Require Import Prelude Api WorkloadStates RequestId LogCampaign ConfigRenderer.
From S2P Require Import StateManipulation FieldMask Messages ServerState StateComparator.
From S2P Require Import StateDifferences EventHandler Server.

Class RegularConversion (SC : StateConversion) : Prop :=
  complete_state_regular s : ∃ m,
    @complete_state_to_value SC (complete_state_of_spec s) = Ok (VMapping m) ∧ value_wf (VMapping m).

Section totality.
Context `{IterOrder, Sha256, TemplateEngine, YamlMapping, KeyOrder}.
Context {SC : StateConversion} {RC : RegularConversion SC}.
Implicit Types sv : AnkaiosServer.

Lemma comparator_mapping_total s :
  ∃ m, comparator_mapping s = Some m ∧ value_wf (VMapping m).
Proof.
  destruct (complete_state_regular s) as (m & Hm & Hwf). exists m.
  unfold comparator_mapping. by rewrite Hm.
Qed.

Lemma get_complete_state_total s r states agents :
  is_Some (get_complete_state_by_field_mask s r states agents).
Proof.
  unfold get_complete_state_by_field_mask. destruct (field_mask r) as [|mask masks]; [by eexists|].
  destruct (complete_state_regular {| desired_state := desired_state (state s);
    complete_workload_states := states; agents := agents |}) as (m & -> & Hwf).
  unfold filter_state.
  destruct (expand_wildcards_paths (VMapping m) (path_from <$> complete_filters (mask :: masks)) Hwf)
    as (paths & -> & _). by eexists.
Qed.

Lemma tree_as_mapping leaves T :
  tree_of leaves T → ∃ m, as_mapping T = Some m ∧ value_wf (VMapping m).
Proof. intros [Hwf [m ->] _ _]. by exists m. Qed.

Lemma events_for_total {f : RequestId * SubscribedFieldMasks → option (list Event)} l :
  (∀ x, is_Some (f x)) → is_Some (events_for f l).
Proof.
  intros Hf. induction l as [|x l [es IH]]; [by eexists|]. cbn [events_for].
  destruct (Hf x) as [e ->]. rewrite IH. by eexists.
Qed.

Lemma event_for_subscriber_total server_state states agents af al rf rl u subscriber :
  value_wf (VMapping al) → value_wf (VMapping rl) → value_wf (VMapping u) →
  is_Some (event_for_subscriber server_state states agents af al rf rl u subscriber).
Proof.
  intros Hal Hrl Hu. destruct subscriber as [id masks]. unfold event_for_subscriber.
  destruct (altered_fields_total al af masks Hal) as (a & -> & _).
  destruct (altered_fields_total rl rf masks Hrl) as (r & -> & _).
  destruct (altered_fields_total u u masks Hu) as (v & -> & _). cbn [mbind option_bind].
  case_match; [by eexists|]. by destruct (get_complete_state_total server_state
    {| field_mask := a ++ r ++ v; subscribe_for_events := false |} states agents) as [x ->].
Qed.

Lemma publish_total sv only_differences old_state new_state :
  is_Some (publish_if_subscribed sv only_differences old_state new_state).
Proof.
  unfold publish_if_subscribed. destruct (has_subscribers _); [|by eexists]. unfold publish.
  destruct (comparator_mapping_total old_state) as (old & -> & Hold).
  destruct (comparator_mapping_total new_state) as (new & -> & Hnew). cbn [mbind option_bind].
  destruct (state_differences_trees old new Hold Hnew) as (t & -> & Taf & Tal & Trf & Trl & Tu).
  apply tree_as_mapping in Taf as (af & Haf & _), Tal as (al & Hal & Wal), Trf as (rf & Hrf & _),
    Trl as (rl & Hrl & Wrl), Tu as (u & Hu & Wu). cbn [mbind option_bind].
  assert (is_Some (nothing_to_send only_differences t)) as [unchanged ->].
  { unfold nothing_to_send, difference_tree_is_empty, is_empty. destruct only_differences; [|by eexists].
    rewrite Haf, Hal, Hrf, Hrl, Hu. by eexists. }
  cbn [mbind option_bind]. destruct unchanged; [by eexists|].
  unfold send_differences, send_events. rewrite Haf, Hal, Hrf, Hrl, Hu. cbn [mbind option_bind].
  match goal with |- context [events_for ?f ?l] =>
    destruct (events_for_total (f := f) l) as [es ->]; [|by eexists] end.
  intros subscriber. by apply event_for_subscriber_total.
Qed.

Ltac solve_published :=
  match goal with
  | |- context [publish_if_subscribed ?sv ?only ?old ?new] =>
    destruct (publish_total sv only old new) as [? ->]; cbn [mbind option_bind]
  end; repeat case_match; by eexists.

Lemma update_state_total sv id r : is_Some (handle_update_state_request sv id r).
Proof.
  unfold handle_update_state_request. repeat case_match; try by eexists.
  - unfold handle_post_update_steps.
    destruct (cancel_log_requests_of_deleted_workloads _ _), (handle_not_started_deleted_workloads _ _)
      as [[? ?] ?]. solve_published.
  - solve_published.
Qed.

Lemma request_total sv r :
  is_Some (request_id_from (request_id r)) → is_Some (handle_request sv r).
Proof.
  intros [rid Hid]. unfold handle_request. destruct (request_content r) as [[u|c|l| |]|].
  - apply update_state_total.
  - unfold handle_complete_state_request.
    destruct (get_complete_state_total (server_state sv) c (workload_states_map sv) (agent_map sv))
      as [[s|e] ->]; cbn [mbind option_bind]; [|by eexists].
    unfold add_subscriber_if, add_subscriber. rewrite Hid. case_match; by eexists.
  - unfold handle_logs_request, insert_log_campaign. rewrite Hid. case_match; by eexists.
  - unfold handle_logs_cancel_request, remove_logs_request_id. rewrite Hid. by eexists.
  - unfold handle_events_cancel_request, remove_subscriber. rewrite Hid. by eexists.
  - by eexists.
Qed.

(** The messages on which the server does not panic. *)
Definition well_identified (m : ToServer) : Prop :=
  match m with ToServerRequest r => is_Some (request_id_from (request_id r)) | _ => True end.

Lemma handle_total sv m : well_identified m → is_Some (handle sv m).
Proof.
  destruct m as [agent tags|agent cpu mem|agent|r|states| |name|id logs|id r]; simpl; try by eexists.
  - intros _. unfold handle_agent_hello. solve_published.
  - intros _. unfold handle_agent_load_status. solve_published.
  - intros _. unfold handle_agent_gone. solve_published.
  - apply request_total.
  - intros _. unfold handle_update_workload_state. solve_published.
Qed.

Lemma listen_total sv ms :
  Forall well_identified ms → is_Some (listen_to_agents sv ms).
Proof.
  revert sv. induction ms as [|m ms IH]; intros sv Hms; [by eexists|].
  apply Forall_cons in Hms as [Hm Hms].
  assert (is_Some ('(sv, out) ← handle sv m; '(sv, out') ← listen_to_agents sv ms;
    Some (sv, out ++ out'))) as Hgo.
  { destruct (handle_total sv m Hm) as [[sv1 out1] ->]. cbn [mbind option_bind].
    destruct (IH sv1 Hms) as [[sv2 out2] ->]. by eexists. }
  by destruct m.
Qed.

(** The requests whose id is parsed. *)
Definition parses_id (sv : AnkaiosServer) (content : option RequestContent) : Prop :=
  match content with
  | Some (CompleteStateRequestContent c) =>
    subscribe_for_events c = true ∧
    ∃ s, get_complete_state_by_field_mask (server_state sv) c (workload_states_map sv) (agent_map sv)
      = Some (Ok s)
  | Some (LogsRequestContent l) =>
    ∃ n, n ∈ log_workload_names l ∧ desired_state_contains_instance_name (server_state sv) n = true
  | Some LogsCancelRequestContent | Some EventsCancelRequestContent => True
  | Some (UpdateStateRequestContent _) | None => False
  end.

Lemma request_panics sv r :
  request_id_from (request_id r) = None →
  handle_request sv r = None ↔ parses_id sv (request_content r).
Proof.
  intros Hid. unfold handle_request. destruct (request_content r) as [[u|c|l| |]|]; simpl.
  - split; [|done]. intros Hnone. by destruct (update_state_total sv (request_id r) u) as [? ?%eq_None_ne_Some_1].
  - unfold handle_complete_state_request.
    destruct (get_complete_state_total (server_state sv) c (workload_states_map sv) (agent_map sv))
      as [[s|e] Hs]; rewrite Hs; cbn [mbind option_bind].
    + unfold add_subscriber_if, add_subscriber. rewrite Hid.
      destruct (subscribe_for_events c); [|by split; [|intros []]].
      split; [|done]. intros _. split; [done|by exists s].
    + split; [done|]. by intros (_ & s & [= ?]).
  - unfold handle_logs_request, insert_log_campaign. rewrite Hid.
    destruct (filter _ (log_workload_names l)) as [|n names] eqn:Hnames; simpl.
    + split; [done|]. intros (n & Hn).
      assert (n ∈ filter (λ n, desired_state_contains_instance_name (server_state sv) n = true)
        (log_workload_names l)) as Hin by (rewrite list_elem_of_filter; naive_solver).
      rewrite Hnames in Hin. by apply elem_of_nil in Hin.
    + split; [|done]. intros _. exists n.
      assert (n ∈ filter (λ n, desired_state_contains_instance_name (server_state sv) n = true)
        (log_workload_names l)) as Hin by (rewrite Hnames; left).
      rewrite list_elem_of_filter in Hin. naive_solver.
  - unfold handle_logs_cancel_request, remove_logs_request_id. rewrite Hid. done.
  - unfold handle_events_cancel_request, remove_subscriber. rewrite Hid. done.
  - done.
Qed.
End totality.

(** ** Properties *)

(** C36: the server answers every request whose id has the form that the connections
    give it: the handler returns, and exactly one response with that id is
    sent. *)
Theorem server_answers_request `{IterOrder, Sha256, TemplateEngine, YamlMapping, KeyOrder,
    SC : StateConversion, !RegularConversion SC} sv r :
  is_Some (request_id_from (request_id r)) →
  ∃ sv' out content, handle sv (ToServerRequest r) = Some (sv', out) ∧
    direct_responses out =
      [{| response_request_id := request_id r; response_content := Some content |}].
Proof.
  intros Hid. destruct (handle_total sv (ToServerRequest r) Hid) as [[sv' out] Hout].
  destruct (one_response _ _ _ _ Hout) as [content Hcontent]. by exists sv', out, content.
Qed.

(** C10: the server panics on a message exactly when it has to parse the id of a
    request and cannot: to register a subscription or a log collection or to
    cancel one. No other message, and no contents of a request, stops it. *)
Theorem server_panics_iff `{IterOrder, Sha256, TemplateEngine, YamlMapping, KeyOrder,
    SC : StateConversion, !RegularConversion SC} sv m :
  handle sv m = None ↔
  ∃ r, m = ToServerRequest r ∧ request_id_from (request_id r) = None ∧
    parses_id sv (request_content r).
Proof.
  split.
  - intros Hnone. assert (¬ well_identified m) as Hm.
    { intros [? ?%eq_None_ne_Some_1]%(handle_total sv); congruence. }
    destruct m as [| | |r| | | | |]; try by destruct Hm.
    simpl in Hm. rewrite <-eq_None_not_Some in Hm. exists r. split; [done|]. split; [done|].
    by apply request_panics.
  - intros (r & -> & Hid & Hr). by apply request_panics.
Qed.

(** ** Examples *)

#[export] Instance example_regular : RegularConversion example_conversion.
Proof. intros s. exists []. split; [done|apply wf_mapping; [constructor|by intros ? ? ?%elem_of_nil]]. Qed.

Lemma server_answers_request_witness :
  let r := {| request_id := "agent_A@web@1"; request_content := Some LogsCancelRequestContent |} in
  ∃ sv' out content, example_handle server_new (@ToServerRequest example_conversion r) = Some (sv', out) ∧
    direct_responses out = [{| response_request_id := "agent_A@web@1"; response_content := Some content |}].
Proof.
  intros r. apply (server_answers_request (RegularConversion0 := example_regular) server_new r).
  vm_compute. eexists. reflexivity.
Defined.

Lemma server_panics_iff_witness :
  let r := {| request_id := ""; request_content := Some LogsCancelRequestContent |} in
  example_handle server_new (@ToServerRequest example_conversion r) = None.
Proof.
  intros r. apply (server_panics_iff (RegularConversion0 := example_regular) server_new).
  exists r. split; [reflexivity|]. split; [vm_compute; reflexivity|exact I].
Defined.
