(* ===== verification/Scheduler.v ===== *)
(** * Ankaios agent: workload scheduler

    [agent/src/workload_scheduler/]: operations on workloads wait in a queue,
    one entry per workload name, until the execution states of the workloads
    they depend on fulfil their conditions.  The queue is proved to refine a
    per-entry state machine ([entry_step]), whatever order the hash map is
    drained in. *)

From stdpp Require Import base tactics gmap strings list.
From S2P Require Import Prelude Api WorkloadStates.

(** ** Data ([workload_operation.rs]) *)

Record ReusableWorkload := {
  workload_named : WorkloadNamed;
  runtime_workload_id : option string
}.

Inductive WorkloadOperation :=
  | OpCreate (new_workload : ReusableWorkload)
  | OpUpdate (new_workload : WorkloadNamed) (deleted_workload : DeletedWorkload)
  | OpUpdateDeleteOnly (deleted_workload : DeletedWorkload)
  | OpDelete (deleted_workload : DeletedWorkload).

Inductive PendingEntry :=
  | PendingCreate (new_workload : ReusableWorkload)
  | PendingDelete (deleted_workload : DeletedWorkload)
  | PendingUpdateCreate (new_workload : WorkloadNamed) (deleted_workload : DeletedWorkload)
  | PendingUpdateDelete (new_workload : WorkloadNamed) (deleted_workload : DeletedWorkload).

Abbreviation WorkloadOperationQueue := (gmap string PendingEntry).

(** [workload_state_sender] is the list of the states sent on the channel. *)
Record WorkloadScheduler := {
  queue : WorkloadOperationQueue;
  workload_state_sender : list WorkloadStateSpec
}.

#[export] Instance ReusableWorkload_eq_dec : EqDecision ReusableWorkload.
Proof. solve_decision. Defined.
#[export] Instance WorkloadOperation_eq_dec : EqDecision WorkloadOperation.
Proof. solve_decision. Defined.
#[export] Instance PendingEntry_eq_dec : EqDecision PendingEntry.
Proof. solve_decision. Defined.

Definition scheduler_new : WorkloadScheduler := {| queue := ∅; workload_state_sender := [] |}.

(** ** Conditions ([dependency_state_validator.rs]) *)

Definition is_add_condition_fulfilled_by_state (add_cond : AddCondition)
    (s : ExecutionStateSpec) : bool :=
  match add_cond with
  | AddCondRunning => is_running s
  | AddCondSucceeded => is_succeeded s
  | AddCondFailed => is_failed s
  end.

Definition is_add_condition_fulfilled_by_any_state (add_cond : AddCondition)
    (states : list WorkloadStateSpec) : bool :=
  existsb (λ s, is_add_condition_fulfilled_by_state add_cond (execution_state s)) states.

Definition is_del_condition_fulfilled_by_state (del_cond : DeleteCondition)
    (s : ExecutionStateSpec) : bool :=
  if is_waiting_to_start s then true
  else
    match del_cond with
    | DelCondNotPendingNorRunning => is_not_pending_nor_running s
    | DelCondRunning => is_running s
    end.

Definition is_del_condition_fulfilled_by_any_state (del_cond : DeleteCondition)
    (states : list WorkloadStateSpec) : bool :=
  forallb (λ s, is_del_condition_fulfilled_by_state del_cond (execution_state s)) states.

Section scheduler.
Context `{IterOrder}.

Definition create_fulfilled (w : WorkloadNamed) (workload_state_db : WorkloadStatesMap) : bool :=
  forallb (λ '(dependency_name, add_condition),
      is_add_condition_fulfilled_by_any_state add_condition
        (get_states_for_workload_name workload_state_db dependency_name))
    (map_iter (dependencies (workload w))).

Definition delete_fulfilled (w : DeletedWorkload) (workload_state_db : WorkloadStatesMap) : bool :=
  forallb (λ '(dependency_name, delete_condition),
      is_del_condition_fulfilled_by_any_state delete_condition
        (get_states_for_workload_name workload_state_db dependency_name))
    (map_iter (deleted_dependencies w)).

(** ** Operations ([scheduler.rs]) *)

Definition put_on_queue (name : string) (e : PendingEntry) (s : WorkloadScheduler) :
    WorkloadScheduler :=
  {| queue := <[name := e]> (queue s); workload_state_sender := workload_state_sender s |}.

Definition report_workload_execution_state (n : WorkloadInstanceNameSpec)
    (e : ExecutionStateSpec) (s : WorkloadScheduler) : WorkloadScheduler :=
  {| queue := queue s;
     workload_state_sender := workload_state_sender s ++
       [{| state_instance_name := n; execution_state := e |}] |}.

Definition report_pending_create_state (n : WorkloadInstanceNameSpec) :=
  report_workload_execution_state n waiting_to_start.

Definition report_pending_delete_state (n : WorkloadInstanceNameSpec) :=
  report_workload_execution_state n waiting_to_stop.

Definition enqueue_pending_create (new_workload : ReusableWorkload) (db : WorkloadStatesMap)
    (notify_on_new_entry : bool) (s : WorkloadScheduler) :
    WorkloadScheduler * list WorkloadOperation :=
  if create_fulfilled (workload_named new_workload) db then (s, [OpCreate new_workload])
  else
    let n := instance_name (workload_named new_workload) in
    let s := if notify_on_new_entry then report_pending_create_state n s else s in
    (put_on_queue (workload_name n) (PendingCreate new_workload) s, []).

Definition enqueue_pending_update (new_workload : WorkloadNamed)
    (deleted_workload : DeletedWorkload) (db : WorkloadStatesMap)
    (notify_on_new_entry : bool) (s : WorkloadScheduler) :
    WorkloadScheduler * list WorkloadOperation :=
  let n := instance_name new_workload in
  if create_fulfilled new_workload db && delete_fulfilled deleted_workload db then
    (s, [OpUpdate new_workload deleted_workload])
  else if delete_fulfilled deleted_workload db then
    (put_on_queue (workload_name n) (PendingUpdateCreate new_workload deleted_workload)
       (report_pending_create_state n s),
     [OpUpdateDeleteOnly deleted_workload])
  else
    let s := if notify_on_new_entry
             then report_pending_delete_state (deleted_instance_name deleted_workload) s
             else s in
    (put_on_queue (workload_name n) (PendingUpdateDelete new_workload deleted_workload) s, []).

Definition enqueue_pending_delete (deleted_workload : DeletedWorkload) (db : WorkloadStatesMap)
    (notify_on_new_entry : bool) (s : WorkloadScheduler) :
    WorkloadScheduler * list WorkloadOperation :=
  if delete_fulfilled deleted_workload db then (s, [OpDelete deleted_workload])
  else
    let n := deleted_instance_name deleted_workload in
    let s := if notify_on_new_entry then report_pending_delete_state n s else s in
    (put_on_queue (workload_name n) (PendingDelete deleted_workload) s, []).

(** The body of the loop of [next_workload_operations]. *)
Definition next_entry (db : WorkloadStatesMap) (e : PendingEntry) (s : WorkloadScheduler) :
    WorkloadScheduler * list WorkloadOperation :=
  match e with
  | PendingCreate new_workload => enqueue_pending_create new_workload db false s
  | PendingUpdateCreate new_workload deleted_workload =>
    if create_fulfilled new_workload db then (s, [OpUpdate new_workload deleted_workload])
    else (put_on_queue (workload_name (instance_name new_workload))
            (PendingUpdateCreate new_workload deleted_workload) s, [])
  | PendingUpdateDelete new_workload deleted_workload =>
    enqueue_pending_update new_workload deleted_workload db false s
  | PendingDelete deleted_workload => enqueue_pending_delete deleted_workload db false s
  end.

(** The body of the loop of [enqueue_filtered_workload_operations]. *)
Definition enqueue_operation (db : WorkloadStatesMap) (op : WorkloadOperation)
    (s : WorkloadScheduler) : WorkloadScheduler * list WorkloadOperation :=
  match op with
  | OpCreate new_workload => enqueue_pending_create new_workload db true s
  | OpUpdate new_workload deleted_workload =>
    enqueue_pending_update new_workload deleted_workload db true s
  | OpDelete deleted_workload => enqueue_pending_delete deleted_workload db true s
  | OpUpdateDeleteOnly _ => (s, [])
  end.

(** A loop that extends [ready_workload_operations] in every iteration. *)
Definition extend_ready {A} (f : A → WorkloadScheduler → WorkloadScheduler * list WorkloadOperation)
    (acc : WorkloadScheduler * list WorkloadOperation) (x : A) :
    WorkloadScheduler * list WorkloadOperation :=
  let '(s, ops) := f x acc.1 in (s, acc.2 ++ ops).

Definition drain (s : WorkloadScheduler) : WorkloadScheduler :=
  {| queue := ∅; workload_state_sender := workload_state_sender s |}.

Definition next_workload_operations (db : WorkloadStatesMap) (s : WorkloadScheduler) :
    WorkloadScheduler * list WorkloadOperation :=
  foldl (extend_ready (next_entry db)) (drain s, []) (map_iter (queue s)).*2.

Definition enqueue_filtered_workload_operations (new_workload_operations : list WorkloadOperation)
    (db : WorkloadStatesMap) (s : WorkloadScheduler) :
    WorkloadScheduler * list WorkloadOperation :=
  let '(s, ready) := foldl (extend_ready (enqueue_operation db)) (s, []) new_workload_operations in
  let '(s, next) := next_workload_operations db s in
  (s, ready ++ next).

(** ** The state machine of one entry *)

Definition entry_name (e : PendingEntry) : string :=
  match e with
  | PendingCreate new_workload => workload_name (instance_name (workload_named new_workload))
  | PendingDelete deleted_workload => workload_name (deleted_instance_name deleted_workload)
  | PendingUpdateCreate new_workload _ | PendingUpdateDelete new_workload _ =>
    workload_name (instance_name new_workload)
  end.

(** What becomes of an entry and what it hands out. *)
Definition entry_step (db : WorkloadStatesMap) (e : PendingEntry) :
    option PendingEntry * list WorkloadOperation :=
  match e with
  | PendingCreate w =>
    if create_fulfilled (workload_named w) db then (None, [OpCreate w]) else (Some e, [])
  | PendingDelete d => if delete_fulfilled d db then (None, [OpDelete d]) else (Some e, [])
  | PendingUpdateCreate w d =>
    if create_fulfilled w db then (None, [OpUpdate w d]) else (Some e, [])
  | PendingUpdateDelete w d =>
    if delete_fulfilled d db then
      if create_fulfilled w db then (None, [OpUpdate w d])
      else (Some (PendingUpdateCreate w d), [OpUpdateDeleteOnly d])
    else (Some e, [])
  end.

(** The entry an operation would wait as. *)
Definition pending_of (op : WorkloadOperation) : option PendingEntry :=
  match op with
  | OpCreate w => Some (PendingCreate w)
  | OpUpdate w d => Some (PendingUpdateDelete w d)
  | OpDelete d => Some (PendingDelete d)
  | OpUpdateDeleteOnly _ => None
  end.

(** Every entry is stored under its own name. *)
Definition queue_wf (q : WorkloadOperationQueue) : Prop :=
  map_Forall (λ name e, entry_name e = name) q.

(** Nothing can be done about the entry at the given states. *)
Definition blocked (db : WorkloadStatesMap) (e : PendingEntry) : Prop :=
  entry_step db e = (Some e, []).
End scheduler.

(** ** Lemmas *)

Section scheduler_lemmas.
Context `{IterOrder}.
Implicit Types (db : WorkloadStatesMap) (s : WorkloadScheduler) (e : PendingEntry).

(** The conditions of a workload, in terms of the flat view of the states. *)
Lemma create_fulfilled_spec w db :
  create_fulfilled w db = true ↔
  ∀ dep cond, dependencies (workload w) !! dep = Some cond →
    ∃ n st, workload_name n = dep ∧ flat db n = Some st ∧
      is_add_condition_fulfilled_by_state cond st = true.
Proof.
  unfold create_fulfilled. rewrite forallb_forall. setoid_rewrite <-list_elem_of_In. split.
  - intros Hall dep cond Hdep. specialize (Hall (dep, cond)).
    apply elem_of_map_iter, Hall, existsb_exists in Hdep as (st & Hin & Hst).
    apply list_elem_of_In, elem_of_get_for_name in Hin as [??]. eauto.
  - intros Hall [dep cond] Hin%elem_of_map_iter. apply existsb_exists.
    destruct (Hall _ _ Hin) as (n & st & Hn & Hst & Hc).
    exists {| state_instance_name := n; execution_state := st |}. split; [|done].
    by apply list_elem_of_In, elem_of_get_for_name.
Qed.

Lemma delete_fulfilled_spec d db :
  delete_fulfilled d db = true ↔
  ∀ dep cond, deleted_dependencies d !! dep = Some cond →
    ∀ n st, workload_name n = dep → flat db n = Some st →
      is_del_condition_fulfilled_by_state cond st = true.
Proof.
  unfold delete_fulfilled. rewrite forallb_forall. setoid_rewrite <-list_elem_of_In. split.
  - intros Hall dep cond Hdep n st Hn Hst. apply elem_of_map_iter, Hall in Hdep.
    unfold is_del_condition_fulfilled_by_any_state in Hdep. rewrite forallb_forall in Hdep.
    apply (Hdep {| state_instance_name := n; execution_state := st |}).
    by apply list_elem_of_In, elem_of_get_for_name.
  - intros Hall [dep cond] Hin%elem_of_map_iter. apply forallb_forall.
    intros st [Hn Hst]%list_elem_of_In%elem_of_get_for_name. eauto.
Qed.

Definition put_entry (e : PendingEntry) (o : option PendingEntry) (q : WorkloadOperationQueue) :
    WorkloadOperationQueue :=
  match o with Some e' => <[entry_name e := e']> q | None => q end.

Lemma entry_step_name db e e' : (entry_step db e).1 = Some e' → entry_name e' = entry_name e.
Proof. destruct e; simpl; repeat case_match; naive_solver. Qed.

Lemma entry_step_blocked db e e' : (entry_step db e).1 = Some e' → blocked db e'.
Proof.
  unfold blocked. destruct e; simpl; repeat case_match; intros [= <-]; simpl;
    by repeat (case_match; simplify_eq).
Qed.

Lemma next_entry_spec db e s :
  queue (next_entry db e s).1 = put_entry e (entry_step db e).1 (queue s) ∧
  (next_entry db e s).2 = (entry_step db e).2.
Proof.
  destruct e as [w|d|w d|w d]; simpl;
    unfold enqueue_pending_create, enqueue_pending_delete, enqueue_pending_update;
    repeat case_match; simplify_eq/=; try done;
    by destruct (create_fulfilled w db), (delete_fulfilled d db).
Qed.

Lemma enqueue_operation_spec db op e s :
  pending_of op = Some e →
  queue (enqueue_operation db op s).1 = put_entry e (entry_step db e).1 (queue s) ∧
  (enqueue_operation db op s).2 = (entry_step db e).2.
Proof.
  destruct op as [w|w d|d|d]; intros [= <-]; simpl;
    unfold enqueue_pending_create, enqueue_pending_delete, enqueue_pending_update;
    repeat case_match; simplify_eq/=; try done;
    by destruct (create_fulfilled w db), (delete_fulfilled d db).
Qed.

Lemma enqueue_operation_skip db op s : pending_of op = None → enqueue_operation db op s = (s, []).
Proof. by destruct op. Qed.

Lemma extend_ready_app {A} (f : A → _ → _) l s ops :
  foldl (extend_ready f) (s, ops) l =
  ((foldl (extend_ready f) (s, []) l).1, ops ++ (foldl (extend_ready f) (s, []) l).2).
Proof.
  revert s ops. induction l as [|x l IH]; intros s ops; cbn [foldl]; [by rewrite app_nil_r|].
  unfold extend_ready at 2 4 6. simpl. destruct (f x s) as [s' ops'].
  rewrite (IH _ (ops ++ ops')), (IH _ ops'). simpl. by rewrite app_assoc.
Qed.

Lemma extend_ready_cons {A} (f : A → _ → _) x l s :
  foldl (extend_ready f) (s, []) (x :: l) =
  ((foldl (extend_ready f) ((f x s).1, []) l).1,
   (f x s).2 ++ (foldl (extend_ready f) ((f x s).1, []) l).2).
Proof.
  cbn [foldl]. unfold extend_ready at 2. simpl. destruct (f x s) as [s' ops].
  by rewrite extend_ready_app.
Qed.

Lemma foldl_next_entry db es s :
  NoDup (entry_name <$> es) →
  (∀ e, e ∈ es → queue s !! entry_name e = None) →
  let r := foldl (extend_ready (next_entry db)) (s, []) es in
  r.2 = mjoin ((λ e, (entry_step db e).2) <$> es) ∧
  ∀ name, queue r.1 !! name =
    match queue s !! name with
    | Some e => Some e
    | None => list_find (λ e, entry_name e = name) es ≫= λ p, (entry_step db p.2).1
    end.
Proof.
  revert s. induction es as [|e es IH]; intros s Hnd Hfresh.
  { split; [done|]. intros name. simpl. by case_match. }
  rewrite fmap_cons in Hnd. apply NoDup_cons in Hnd as [Hnotin Hnd].
  rewrite extend_ready_cons. cbv zeta.
  destruct (next_entry_spec db e s) as [Hq Hops].
  destruct (next_entry db e s) as [s1 ops1]. simpl in Hq, Hops |- *.
  assert (∀ name, name ≠ entry_name e → queue s1 !! name = queue s !! name) as Hother.
  { intros name Hne. rewrite Hq. unfold put_entry. case_match; [|done]. by rewrite lookup_insert_ne. }
  destruct (IH s1) as [IHops IHq]; [done| |].
  { intros e' He'. rewrite Hother; [apply Hfresh; by right|].
    intros Heq. apply Hnotin. rewrite <-Heq. by apply list_elem_of_fmap_2. }
  rewrite Hops, IHops. split; [done|]. intros name. rewrite IHq.
  destruct (decide (entry_name e = name)) as [<-|Hne].
  - rewrite (Hfresh e) by (by left). simpl. rewrite Hq. unfold put_entry.
    destruct (entry_step db e).1 as [e'|] eqn:Hstep.
    + by rewrite lookup_insert_eq.
    + rewrite (Hfresh e) by (by left).
      rewrite (proj2 (list_find_None _ _)); [done|]. apply Forall_forall.
      intros e' He' Heq. apply Hnotin. rewrite <-Heq. by apply list_elem_of_fmap_2.
  - rewrite Hother by done. case_match; [done|].
    by destruct (list_find _ es) as [[i e']|].
Qed.

Lemma queue_wf_elem q e : queue_wf q → e ∈ (map_iter q).*2 ↔ q !! entry_name e = Some e.
Proof.
  intros Hwf. rewrite list_elem_of_fmap. split.
  - intros ([name e'] & -> & Hin%elem_of_map_iter). simpl. by rewrite (Hwf _ _ Hin).
  - intros Hq. exists (entry_name e, e). by rewrite elem_of_map_iter.
Qed.

Lemma queue_wf_names q : queue_wf q → entry_name <$> (map_iter q).*2 = (map_iter q).*1.
Proof.
  intros Hwf. rewrite <-list_fmap_compose. apply list_fmap_ext. intros i [name e] Hi. simpl.
  apply (Hwf name). apply elem_of_map_iter. by apply list_elem_of_lookup_2 in Hi.
Qed.

Lemma queue_wf_find {B} q name (f : PendingEntry → option B) :
  queue_wf q →
  (list_find (λ e, entry_name e = name) (map_iter q).*2 ≫= λ p, f p.2) = q !! name ≫= f.
Proof.
  intros Hwf. destruct (list_find _ _) as [[i e]|] eqn:Hfind; simpl.
  - apply list_find_Some in Hfind as (Hi & <- & _). apply list_elem_of_lookup_2 in Hi.
    apply queue_wf_elem in Hi; [|done]. by rewrite Hi.
  - apply list_find_None in Hfind. rewrite Forall_forall in Hfind.
    destruct (q !! name) as [e|] eqn:He; [|done]. exfalso.
    apply (Hfind e); [|by apply Hwf]. apply queue_wf_elem; [done|]. by rewrite (Hwf _ _ He).
Qed.

Lemma next_operations_queue db s name :
  queue_wf (queue s) →
  queue (next_workload_operations db s).1 !! name =
  queue s !! name ≫= λ e, (entry_step db e).1.
Proof.
  intros Hwf. unfold next_workload_operations.
  destruct (foldl_next_entry db (map_iter (queue s)).*2 (drain s)) as [_ ->].
  - rewrite queue_wf_names by done. apply NoDup_fst_map_iter.
  - intros e _. apply lookup_empty.
  - simpl. rewrite lookup_empty. by apply (queue_wf_find _ _ (λ e, (entry_step db e).1)).
Qed.

Lemma next_operations_ready db s :
  queue_wf (queue s) →
  (next_workload_operations db s).2 =
  mjoin ((λ e, (entry_step db e).2) <$> (map_iter (queue s)).*2).
Proof.
  intros Hwf. unfold next_workload_operations.
  destruct (foldl_next_entry db (map_iter (queue s)).*2 (drain s)) as [-> _]; [| |done].
  - rewrite queue_wf_names by done. apply NoDup_fst_map_iter.
  - intros e _. apply lookup_empty.
Qed.

Lemma elem_of_next_operations db s op :
  queue_wf (queue s) →
  op ∈ (next_workload_operations db s).2 ↔
  ∃ name e, queue s !! name = Some e ∧ op ∈ (entry_step db e).2.
Proof.
  intros Hwf. rewrite next_operations_ready by done. rewrite list_elem_of_join. split.
  - intros (ops & Hop & Hops). apply list_elem_of_fmap in Hops as (e & -> & He).
    apply queue_wf_elem in He; [eauto|done].
  - intros (name & e & He & Hop). exists (entry_step db e).2. split; [done|].
    apply (list_elem_of_fmap_2 (λ e, (entry_step db e).2)). apply queue_wf_elem; [done|].
    by rewrite (Hwf _ _ He).
Qed.

Lemma queue_wf_put e o q :
  queue_wf q → (∀ e', o = Some e' → entry_name e' = entry_name e) → queue_wf (put_entry e o q).
Proof.
  intros Hq Ho. destruct o as [e'|]; simpl; [|done].
  apply map_Forall_insert_2; [by apply Ho|done].
Qed.

Lemma queue_wf_next db s : queue_wf (queue s) → queue_wf (queue (next_workload_operations db s).1).
Proof.
  intros Hwf name e He. rewrite next_operations_queue in He by done.
  apply bind_Some in He as (e' & He' & Hstep). rewrite (entry_step_name _ _ _ Hstep).
  by apply Hwf.
Qed.

Lemma enqueue_operation_queue_wf db op s :
  queue_wf (queue s) → queue_wf (queue (enqueue_operation db op s).1).
Proof.
  intros Hwf. destruct (pending_of op) as [e|] eqn:Hop.
  - destruct (enqueue_operation_spec db op e s Hop) as [-> _].
    apply queue_wf_put; [done|]. intros e'. apply entry_step_name.
  - by rewrite enqueue_operation_skip.
Qed.

(** An operation that is handed out at once comes from its own entry. *)
Lemma foldl_enqueue_operation db ops s :
  queue_wf (queue s) →
  let r := foldl (extend_ready (enqueue_operation db)) (s, []) ops in
  queue_wf (queue r.1) ∧
  (∀ op', op' ∈ r.2 → ∃ op e, op ∈ ops ∧ pending_of op = Some e ∧ op' ∈ (entry_step db e).2) ∧
  (∀ name e, queue r.1 !! name = Some e →
     queue s !! name = Some e ∨
     ∃ op e0, pending_of op = Some e0 ∧ (entry_step db e0).1 = Some e ∧
       (entry_step db e0).2 ⊆ r.2).
Proof.
  revert s. induction ops as [|op ops IH]; intros s Hwf.
  { split; [done|]. split; [by intros op' ?%elem_of_nil|]. auto. }
  rewrite extend_ready_cons. cbv zeta.
  destruct (IH (enqueue_operation db op s).1) as (Hwf' & Hops & Hq).
  { by apply enqueue_operation_queue_wf. }
  split; [done|]. cbv zeta in Hops, Hq. split.
  - intros op' [Hop'|Hop']%elem_of_app.
    + destruct (pending_of op) as [e|] eqn:Hop.
      * destruct (enqueue_operation_spec db op e s Hop) as [_ Heq]. rewrite Heq in Hop'.
        exists op, e. split; [by left|done].
      * rewrite enqueue_operation_skip in Hop' by done. by apply elem_of_nil in Hop'.
    + destruct (Hops _ Hop') as (op0 & e & ? & ?). exists op0, e. split; [by right|done].
  - intros name e He. destruct (Hq _ _ He) as [He'|(op0 & e0 & ? & ? & Hsub)];
      [|right; exists op0, e0; split_and!; [done..|]; intros op'; cbn [snd]; rewrite elem_of_app; auto].
    destruct (pending_of op) as [e0|] eqn:Hop;
      [|by rewrite enqueue_operation_skip in He' by done; left].
    destruct (enqueue_operation_spec db op e0 s Hop) as [Heq Hops0]. rewrite Heq in He'.
    destruct (entry_step db e0).1 as [e1|] eqn:Hstep; simpl in He'; [|by left].
    destruct (decide (entry_name e0 = name)) as [<-|Hne].
    + rewrite lookup_insert_eq in He'. simplify_eq. right. exists op, e0.
      split_and!; [done..|]. intros op'. cbn [snd]. rewrite Hops0, elem_of_app. auto.
    + rewrite lookup_insert_ne in He' by done. by left.
Qed.
End scheduler_lemmas.

#[export] Hint Resolve queue_wf_next : wf.

(** ** Histories of calls *)

Section histories.
Context `{IterOrder}.
Implicit Types (db : WorkloadStatesMap) (s : WorkloadScheduler) (e : PendingEntry).

Inductive SchedulerCall :=
  | CallEnqueue (new_workload_operations : list WorkloadOperation) (db : WorkloadStatesMap)
  | CallNext (db : WorkloadStatesMap).

Definition call_db (c : SchedulerCall) : WorkloadStatesMap :=
  match c with CallEnqueue _ db | CallNext db => db end.

Definition run_call (c : SchedulerCall) (s : WorkloadScheduler) :
    WorkloadScheduler * list WorkloadOperation :=
  match c with
  | CallEnqueue ops db => enqueue_filtered_workload_operations ops db s
  | CallNext db => next_workload_operations db s
  end.

(** The conditions under which an operation may be handed out, given the
    operations of the earlier calls: an update is only handed out when its
    old workload may be deleted now or its deletion was handed out before. *)
Definition op_allowed (earlier : list WorkloadOperation) db (op : WorkloadOperation) : Prop :=
  match op with
  | OpCreate w => create_fulfilled (workload_named w) db = true
  | OpUpdate w d =>
    create_fulfilled w db = true ∧
    (delete_fulfilled d db = true ∨ OpUpdateDeleteOnly d ∈ earlier)
  | OpUpdateDeleteOnly d | OpDelete d => delete_fulfilled d db = true
  end.

Fixpoint history_ok (earlier : list WorkloadOperation) (calls : list SchedulerCall)
    (s : WorkloadScheduler) : Prop :=
  match calls with
  | [] => True
  | c :: calls =>
    let '(s', ops) := run_call c s in
    Forall (op_allowed earlier (call_db c)) ops ∧
    map_Forall (λ _ e, blocked (call_db c) e) (queue s') ∧
    history_ok (earlier ++ ops) calls s'
  end.

(** The old workload of an update whose creation is pending was handed out
    for deletion. *)
Definition entry_ok (earlier : list WorkloadOperation) e : Prop :=
  match e with PendingUpdateCreate _ d => OpUpdateDeleteOnly d ∈ earlier | _ => True end.

Record queue_ok (earlier : list WorkloadOperation) s : Prop := {
  queue_ok_wf : queue_wf (queue s);
  queue_ok_entries : map_Forall (λ _ e, entry_ok earlier e) (queue s)
}.

Lemma entry_step_allowed earlier db e op :
  entry_ok earlier e → op ∈ (entry_step db e).2 → op_allowed earlier db op.
Proof.
  intros He Hop. destruct e; simpl in *; repeat case_match; simpl in Hop;
    try (by apply elem_of_nil in Hop); apply list_elem_of_singleton in Hop as ->; simpl; auto.
Qed.

Lemma entry_step_ok earlier db e e' :
  entry_ok earlier e → (entry_step db e).1 = Some e' → entry_ok (earlier ++ (entry_step db e).2) e'.
Proof.
  intros He Hstep. destruct e; simpl in *; repeat case_match; simplify_eq/=; try done;
    by rewrite ?app_nil_r; rewrite ?elem_of_app, ?list_elem_of_singleton; auto.
Qed.

Lemma entry_ok_mono earlier earlier' e : earlier ⊆ earlier' → entry_ok earlier e → entry_ok earlier' e.
Proof. intros Hsub. destruct e; simpl; auto. Qed.

Lemma pending_of_ok earlier op e : pending_of op = Some e → entry_ok earlier e.
Proof. by destruct op; intros [= <-]. Qed.

Lemma next_call_ok earlier db s :
  queue_ok earlier s →
  let r := next_workload_operations db s in
  Forall (op_allowed earlier db) r.2 ∧ map_Forall (λ _ e, blocked db e) (queue r.1) ∧
  queue_ok (earlier ++ r.2) r.1.
Proof.
  intros [Hwf Hok] r. subst r. split; [|split; [|split]].
  - apply Forall_forall. intros op Hop%elem_of_next_operations; [|done].
    destruct Hop as (name & e & He & Hop). eapply entry_step_allowed; [by apply (Hok name)|done].
  - intros name e He. rewrite next_operations_queue in He by done.
    apply bind_Some in He as (e' & _ & Hstep). by eapply entry_step_blocked.
  - by apply queue_wf_next.
  - intros name e He. rewrite next_operations_queue in He by done.
    apply bind_Some in He as (e' & He' & Hstep).
    eapply entry_ok_mono; [|eapply entry_step_ok; [by apply (Hok name)|done]].
    intros op [Hop|Hop]%elem_of_app; apply elem_of_app; [by left|right].
    apply elem_of_next_operations; eauto.
Qed.

(** The entries after the first loop of [enqueue_filtered_workload_operations]
    are old ones or blocked. *)
Lemma enqueue_call_ok earlier db ops s :
  queue_ok earlier s →
  let r := enqueue_filtered_workload_operations ops db s in
  Forall (op_allowed earlier db) r.2 ∧ map_Forall (λ _ e, blocked db e) (queue r.1) ∧
  queue_ok (earlier ++ r.2) r.1.
Proof.
  intros [Hwf Hok]. unfold enqueue_filtered_workload_operations.
  destruct (foldl_enqueue_operation db ops s Hwf) as (Hwf1 & Hops & Hq).
  destruct (foldl _ (s, []) ops) as [s1 ready]. simpl in Hwf1, Hops, Hq.
  assert (Forall (op_allowed earlier db) ready) as Hready.
  { apply Forall_forall. intros op' (op & e & _ & Hp & Hop')%Hops.
    eapply entry_step_allowed, Hop'. by eapply pending_of_ok. }
  assert (∀ name e, queue s1 !! name = Some e →
    (entry_ok earlier e ∨ blocked db e) ∧ entry_ok (earlier ++ ready) e) as Hs1.
  { intros name e [He|(op & e0 & Hp & Hstep & Hsub)]%Hq.
    - pose proof (Hok name e He) as He'. split; [by left|]. eapply entry_ok_mono, He'. set_solver.
    - split; [right; by eapply entry_step_blocked|].
      apply (entry_ok_mono (earlier ++ (entry_step db e0).2)); [set_solver|].
      apply entry_step_ok; [by eapply pending_of_ok|done]. }
  destruct (next_call_ok (earlier ++ ready) db s1) as (_ & Hblocked & Hok2).
  { split; [done|]. intros name e He. by apply (Hs1 name). }
  pose proof (elem_of_next_operations db s1) as Hnext.
  destruct (next_workload_operations db s1) as [s2 next]. simpl in *.
  split; [|split; [done|by rewrite app_assoc]].
  apply Forall_app. split; [done|]. apply Forall_forall.
  intros op (name & e & He & Hop)%Hnext; [|done].
  destruct (Hs1 _ _ He) as [[Hok'|Hbl] _]; [by eapply entry_step_allowed|].
  rewrite Hbl in Hop. by apply elem_of_nil in Hop.
Qed.

Lemma run_call_ok earlier c s :
  queue_ok earlier s →
  let r := run_call c s in
  Forall (op_allowed earlier (call_db c)) r.2 ∧
  map_Forall (λ _ e, blocked (call_db c) e) (queue r.1) ∧ queue_ok (earlier ++ r.2) r.1.
Proof. destruct c as [ops db|db]; [apply enqueue_call_ok|apply next_call_ok]. Qed.

Lemma history_ok_from earlier calls s : queue_ok earlier s → history_ok earlier calls s.
Proof.
  revert earlier s. induction calls as [|c calls IH]; intros earlier s Hok; simpl; [done|].
  destruct (run_call_ok earlier c s Hok) as (? & ? & ?).
  destruct (run_call c s) as [s' ops]. simpl in *. auto.
Qed.

End histories.

(** ** Properties *)

(** C12: whatever calls the scheduler gets, it never hands out an operation
    before its conditions hold: the dependencies of a created workload have the
    required states, those of a deleted one allow its deletion, and an update
    is handed out only when the creation of the new workload is allowed and
    the deletion of the old one is allowed or was handed out earlier.  After
    every call only operations that must wait are left in the queue. *)
Theorem scheduler_respects_conditions `{IterOrder} calls : history_ok [] calls scheduler_new.
Proof.
  apply history_ok_from. split; [apply map_Forall_empty|apply map_Forall_empty].
Qed.

(** One pass over the queue refines the state machine of its entries: every
    entry takes one step of its own, entries do not interfere, and the order in
    which the hash map is drained only permutes the operations handed out. *)
Theorem next_workload_operations_refines `{IterOrder} db s :
  queue_wf (queue s) →
  let r := next_workload_operations db s in
  queue_wf (queue r.1) ∧
  (∀ name, queue r.1 !! name = queue s !! name ≫= λ e, (entry_step db e).1) ∧
  r.2 ≡ₚ mjoin ((λ p, (entry_step db p.2).2) <$> map_to_list (queue s)).
Proof.
  intros Hwf r. subst r. split; [by apply queue_wf_next|].
  split; [intros name; by apply next_operations_queue|].
  rewrite next_operations_ready, <-map_iter_perm, <-list_fmap_compose by done. done.
Qed.

Definition example_waiting (dep : string) : ReusableWorkload := {|
  workload_named := {| instance_name := example_instance_name;
                       workload := set_dependencies workload_default {[dep := AddCondRunning]} |};
  runtime_workload_id := None
|}.

Lemma next_workload_operations_refines_witness :
  let I := key_order in
  let s := put_on_queue "nginx" (PendingCreate (example_waiting "db")) scheduler_new in
  queue_wf (queue (next_workload_operations ∅ s).1) ∧
  queue (next_workload_operations ∅ s).1 !! "nginx" = Some (PendingCreate (example_waiting "db")).
Proof.
  intros I s.
  assert (queue_wf (queue s)) as Hs by (by apply map_Forall_insert_2, map_Forall_empty).
  split.
  - exact (proj1 (next_workload_operations_refines ∅ s Hs)).
  - etransitivity; [exact (proj1 (proj2 (next_workload_operations_refines ∅ s Hs)) "nginx")|].
    vm_compute. reflexivity.
Defined.
