(* ===== verification/Progress.v ===== *)
(** * Ankaios agent: the queue makes progress

    The scheduler of [Scheduler.v] seen over time: the agent looks through its
    queue again and again while the states it knows change. If no operation
    waits, directly or indirectly, for itself, and the workloads whose operations
    are no longer queued reach the states the others wait for, then every
    operation is handed out after finitely many rounds: nothing starves and
    nothing deadlocks. *)

From stdpp Require Import base tactics relations gmap strings list.
From S2P Require Import Prelude Api WorkloadStates Scheduler.

(** ** Finite relations without cycles *)

Lemma acyclic_wf {A} `{Countable A} (R : relation A) (D : gset A) :
  (∀ x y, R x y → y ∈ D) → (∀ x, ¬ tc R x x) → well_founded R.
Proof.
  intros HD Hac.
  assert (∀ n (X : gset A) x, size (D ∖ X) ≤ n → (∀ y, y ∈ X → tc R x y) → Acc R x) as Hacc.
  2: { intros x. by apply (Hacc (size (D ∖ ∅)) ∅ x). }
  induction n as [|n IH]; intros X x Hn HX; constructor; intros z Hz.
  - assert (x ∈ D ∖ X) as Hx.
    { apply elem_of_difference. split; [by eapply HD|]. intros Hin. by apply (Hac x), HX. }
    assert (size (D ∖ X) = 0) as Hsize%size_empty_inv by lia. set_solver.
  - apply (IH (X ∪ {[x]})).
    + assert (x ∈ D ∖ X) as Hx.
      { apply elem_of_difference. split; [by eapply HD|]. intros Hin. by apply (Hac x), HX. }
      assert (D ∖ (X ∪ {[x]}) ⊂ D ∖ X) as Hsub by set_solver.
      apply subset_size in Hsub. lia.
    + intros y [Hy|Hy]%elem_of_union; [eapply tc_l; [done|by apply HX]|].
      apply elem_of_singleton in Hy as ->. by apply tc_once.
Qed.

(** ** What an entry waits for *)

Section progress.
Context `{IterOrder}.
Implicit Types (db : WorkloadStatesMap) (s : WorkloadScheduler) (e : PendingEntry).

Definition create_deps e : gmap string AddCondition :=
  match e with
  | PendingCreate w => dependencies (workload (workload_named w))
  | PendingUpdateCreate w _ | PendingUpdateDelete w _ => dependencies (workload w)
  | PendingDelete _ => ∅
  end.
Definition delete_deps e : gmap string DeleteCondition :=
  match e with
  | PendingDelete d | PendingUpdateDelete _ d => deleted_dependencies d
  | PendingCreate _ | PendingUpdateCreate _ _ => ∅
  end.

Definition waits_for e : gset string := dom (create_deps e) ∪ dom (delete_deps e).

(** The conditions of an entry on one workload hold. *)
Definition fulfilled_for db e (dep : string) : Prop :=
  (∀ c, create_deps e !! dep = Some c →
     is_add_condition_fulfilled_by_any_state c (get_states_for_workload_name db dep) = true) ∧
  (∀ c, delete_deps e !! dep = Some c →
     is_del_condition_fulfilled_by_any_state c (get_states_for_workload_name db dep) = true).

(** The operation an entry waits to hand out. *)
Definition awaited_operation e : WorkloadOperation :=
  match e with
  | PendingCreate w => OpCreate w
  | PendingDelete d => OpDelete d
  | PendingUpdateCreate w d | PendingUpdateDelete w d => OpUpdate w d
  end.

Lemma entry_step_fulfilled db e :
  (∀ dep, dep ∈ waits_for e → fulfilled_for db e dep) →
  entry_step db e = (None, [awaited_operation e]).
Proof.
  intros Hall.
  assert (∀ w, dependencies (workload w) = create_deps e → create_fulfilled w db = true) as Hcreate.
  { intros w Hw. unfold create_fulfilled. apply forallb_forall.
    intros [dep c] Hin%list_elem_of_In%elem_of_map_iter. rewrite Hw in Hin.
    apply Hall; [|done]. apply elem_of_union_l. by eapply elem_of_dom_2. }
  assert (∀ d, deleted_dependencies d = delete_deps e → delete_fulfilled d db = true) as Hdelete.
  { intros d Hd. unfold delete_fulfilled. apply forallb_forall.
    intros [dep c] Hin%list_elem_of_In%elem_of_map_iter. rewrite Hd in Hin.
    apply Hall; [|done]. apply elem_of_union_r. by eapply elem_of_dom_2. }
  destruct e; simpl in *; rewrite ?Hdelete, ?Hcreate; done.
Qed.

(** An entry that stays waits for nothing new. *)
Lemma entry_step_waits db e e' :
  (entry_step db e).1 = Some e' →
  create_deps e' = create_deps e ∧ delete_deps e' ⊆ delete_deps e ∧
  awaited_operation e' = awaited_operation e.
Proof.
  destruct e; simpl; repeat case_match; intros [= <-]; simpl; try done.
  split_and!; [done|apply map_empty_subseteq|done].
Qed.

(** ** Runs *)

Context (db : nat → WorkloadStatesMap) (s0 : WorkloadScheduler).

(** The scheduler after [i] rounds, and what round [i] hands out. *)
Fixpoint scheduler_at (i : nat) : WorkloadScheduler :=
  match i with
  | 0 => s0
  | S i => (next_workload_operations (db i) (scheduler_at i)).1
  end.
Definition ready_at (i : nat) : list WorkloadOperation :=
  (next_workload_operations (db i) (scheduler_at i)).2.

Hypothesis Hwf : queue_wf (queue s0).

Lemma scheduler_at_wf i : queue_wf (queue (scheduler_at i)).
Proof. induction i as [|i IH]; [done|]. by apply queue_wf_next. Qed.

Lemma scheduler_at_S i name :
  queue (scheduler_at (S i)) !! name =
  queue (scheduler_at i) !! name ≫= λ e, (entry_step (db i) e).1.
Proof. apply next_operations_queue, scheduler_at_wf. Qed.

(** Every entry comes from an entry of the first queue. *)
Lemma scheduler_at_entry i name e :
  queue (scheduler_at i) !! name = Some e →
  ∃ e0, queue s0 !! name = Some e0 ∧ create_deps e = create_deps e0 ∧
    delete_deps e ⊆ delete_deps e0 ∧ awaited_operation e = awaited_operation e0.
Proof.
  revert e. induction i as [|i IH]; intros e He; [by exists e|].
  rewrite scheduler_at_S in He. apply bind_Some in He as (e1 & He1 & Hstep).
  apply entry_step_waits in Hstep as (Hc & Hd & Ha).
  destruct (IH e1 He1) as (e0 & ? & Hc0 & Hd0 & Ha0). exists e0.
  split_and!; [done|congruence|by etrans|congruence].
Qed.

Lemma scheduler_at_gone i j name :
  i ≤ j → queue (scheduler_at i) !! name = None → queue (scheduler_at j) !! name = None.
Proof. induction 1 as [|j _ IH]; [done|]. intros Hi. rewrite scheduler_at_S, IH; done. Qed.

(** The hypotheses: nothing waits for itself, and a workload with no queued
    operation reaches, for good, the states that others wait for. *)
Definition waits (dep name : string) : Prop :=
  ∃ e, queue s0 !! name = Some e ∧ dep ∈ waits_for e.

Definition settles : Prop :=
  ∀ name e dep, queue s0 !! name = Some e → dep ∈ waits_for e →
    (∃ i, queue (scheduler_at i) !! dep = None) →
    ∃ k, ∀ j, k ≤ j → fulfilled_for (db j) e dep.

Lemma eventually_all (P : string → nat → Prop) (X : gset string) :
  (∀ x, x ∈ X → ∃ k, ∀ j, k ≤ j → P x j) → ∃ k, ∀ j, k ≤ j → ∀ x, x ∈ X → P x j.
Proof.
  induction X as [|x X Hx IH] using set_ind_L; intros Hall.
  { exists 0. intros j _ x. by rewrite elem_of_empty. }
  destruct IH as [k1 Hk1]; [intros y ?; apply Hall; set_solver|].
  destruct (Hall x) as [k2 Hk2]; [set_solver|]. exists (k1 `max` k2).
  intros j Hj y [->%elem_of_singleton|Hy]%elem_of_union; [apply Hk2; lia|by apply Hk1; [lia|]].
Qed.

Lemma entry_step_done e d : (entry_step d e).1 = None → awaited_operation e ∈ (entry_step d e).2.
Proof. destruct e; simpl; repeat case_match; try done; intros _; by left. Qed.

(** An entry only leaves the queue by being handed out. *)
Lemma gone_handed_out i name e0 :
  queue s0 !! name = Some e0 → queue (scheduler_at i) !! name = None →
  ∃ j, j < i ∧ awaited_operation e0 ∈ ready_at j.
Proof.
  intros He0. induction i as [|i IH]; [simpl; congruence|]. intros Hgone.
  destruct (queue (scheduler_at i) !! name) as [e|] eqn:He.
  - rewrite scheduler_at_S, He in Hgone. apply entry_step_done in Hgone.
    destruct (scheduler_at_entry i name e He) as (e0' & He0' & _ & _ & Ha). simplify_eq.
    exists i. split; [lia|]. rewrite <-Ha. apply elem_of_next_operations; [apply scheduler_at_wf|].
    eauto.
  - destruct IH as (j & Hj & Hop); [done|]. exists j. split; [lia|done].
Qed.

Lemma entry_leaves name :
  (∀ x, ¬ tc waits x x) → settles → ∃ i, queue (scheduler_at i) !! name = None.
Proof.
  intros Hac Hsettles.
  assert (well_founded waits) as Hwaits.
  { apply (acyclic_wf waits (dom (queue s0))); [|done].
    intros x y (e & He & _). by eapply elem_of_dom_2. }
  induction (Hwaits name) as [name _ IH].
  destruct (queue s0 !! name) as [e0|] eqn:He0; [|by exists 0].
  destruct (eventually_all (λ dep j, fulfilled_for (db j) e0 dep) (waits_for e0)) as [k Hk].
  { intros dep Hdep. eapply Hsettles; [done..|]. apply IH. by exists e0. }
  exists (S k). rewrite scheduler_at_S. destruct (queue (scheduler_at k) !! name) as [e|] eqn:He; [|done].
  destruct (scheduler_at_entry k name e He) as (e0' & He0' & Hc & Hd & _). simplify_eq.
  simpl. rewrite entry_step_fulfilled; [done|]. intros dep Hdep.
  assert (dep ∈ waits_for e0) as Hdep0.
  { unfold waits_for in *. rewrite Hc in Hdep. apply subseteq_dom in Hd. set_solver. }
  destruct (Hk k (le_n k) dep Hdep0) as [Hadd Hdel]. split.
  - intros c. rewrite Hc. apply Hadd.
  - intros c Hdc. apply Hdel. by eapply lookup_weaken.
Qed.

Lemma queue_drained :
  (∀ x, ¬ tc waits x x) → settles →
  ∃ n, (∀ m, n ≤ m → queue (scheduler_at m) = ∅) ∧
    ∀ name e, queue s0 !! name = Some e → ∃ j, j < n ∧ awaited_operation e ∈ ready_at j.
Proof.
  intros Hac Hsettles.
  destruct (eventually_all (λ name j, queue (scheduler_at j) !! name = None) (dom (queue s0))) as [n Hn].
  { intros name _. destruct (entry_leaves name Hac Hsettles) as [i Hi]. exists i.
    intros j Hj. by eapply scheduler_at_gone. }
  exists n. split.
  - intros m Hm. apply map_empty. intros name.
    destruct (queue s0 !! name) as [e|] eqn:He.
    + apply Hn; [done|by eapply elem_of_dom_2].
    + by apply (scheduler_at_gone 0); [lia|].
  - intros name e He. eapply gone_handed_out; [done|]. apply Hn; [done|by eapply elem_of_dom_2].
Qed.
End progress.

(** ** Properties *)

(** C8: no operation waits for ever. For any sequence of states that the agent
    learns: if the operations in the queue do not wait for each other in a
    cycle, and every workload others wait for reaches the awaited states once it
    has no operation in the queue any more, then after finitely many rounds the
    queue is and stays empty, and every operation that was waiting has been
    handed out. *)
Theorem queue_drains `{IterOrder} (db : nat → WorkloadStatesMap) (s : WorkloadScheduler) :
  queue_wf (queue s) → (∀ x, ¬ tc (waits s) x x) → settles db s →
  ∃ n, (∀ m, n ≤ m → queue (scheduler_at db s m) = ∅) ∧
    ∀ name e, queue s !! name = Some e → ∃ j, j < n ∧ awaited_operation e ∈ ready_at db s j.
Proof. apply queue_drained. Qed.

(** ** Example

    [web] waits for [db] and [db] for [init]; the states are reported one
    after the other. *)

Definition example_pending (name dep : string) : PendingEntry :=
  PendingCreate {| workload_named :=
    {| instance_name := {| workload_name := name; agent_name := "agent_A"; instance_id := "1" |};
       workload := set_dependencies workload_default {[dep := AddCondRunning]} |};
    runtime_workload_id := None |}.

Definition example_running (names : list string) : WorkloadStatesMap :=
  process_new_states ∅ ((λ name,
    {| state_instance_name := {| workload_name := name; agent_name := "agent_A"; instance_id := "1" |};
       execution_state := running |}) <$> names).

Definition example_states (i : nat) : WorkloadStatesMap :=
  match i with 0 => ∅ | 1 => example_running ["init"] | _ => example_running ["init"; "db"] end.

Definition example_scheduler : WorkloadScheduler :=
  {| queue := {["web" := example_pending "web" "db"; "db" := example_pending "db" "init"]};
     workload_state_sender := [] |}.

Lemma example_waits x y : waits example_scheduler x y →
  (x = "db" ∧ y = "web") ∨ (x = "init" ∧ y = "db").
Proof.
  intros (e & He & Hx). simpl in He. apply lookup_insert_Some in He as [[<- <-]|[_ He]].
  - left. split; [|done]. unfold waits_for in Hx. simpl in Hx. set_solver.
  - apply lookup_singleton_Some in He as [<- <-]. right. split; [|done]. unfold waits_for in Hx. simpl in Hx. set_solver.
Qed.

Definition example_rank (name : string) : nat :=
  if String.eqb name "web" then 2 else if String.eqb name "db" then 1 else 0.

Lemma example_ranked x y : tc (waits example_scheduler) x y → example_rank x < example_rank y.
Proof.
  assert (∀ x y, waits example_scheduler x y → example_rank x < example_rank y) as Hstep.
  { intros x' y' [[-> ->]|[-> ->]]%example_waits; vm_compute; lia. }
  induction 1 as [x y Hxy|x y z Hxy _ IH]; [by apply Hstep|]. apply Hstep in Hxy. lia.
Qed.

Lemma example_settles : @settles key_order example_states example_scheduler.
Proof.
  intros name e dep He Hdep _. destruct (example_waits dep name) as [[-> ->]|[-> ->]]; [by exists e| |];
    vm_compute in He; injection He as <-; exists 2; intros [|[|j]] Hj; try lia;
    (split; [intros c Hc; vm_compute in Hc; injection Hc as <-; vm_compute; reflexivity
            |intros c Hc; vm_compute in Hc; discriminate]).
Qed.

Lemma queue_drains_witness :
  let I := key_order in
  ∃ n, (∀ m, n ≤ m → queue (scheduler_at example_states example_scheduler m) = ∅) ∧
    ∃ j, j < n ∧ awaited_operation (example_pending "web" "db") ∈ ready_at example_states example_scheduler j.
Proof.
  intros I. destruct (queue_drains example_states example_scheduler) as (n & Hempty & Hready).
  - intros name e He. simpl in He.
    apply lookup_insert_Some in He as [[<- <-]|[_ [<- <-]%lookup_singleton_Some]]; reflexivity.
  - intros x Hx. exact (Nat.lt_irrefl _ (example_ranked x x Hx)).
  - exact example_settles.
  - exists n. split; [exact Hempty|]. apply (Hready "web"). vm_compute. reflexivity.
Defined.
