(* ===== verification/WorkloadFiles.v ===== *)
(** * Ankaios agent: workload files

    [agent/src/workload_files/]: the files of a workload are written below a
    folder of the workload, at a place derived from the mount point.  The place
    is proved to stay below that folder. *)

From Stdlib Require Import Ascii.
From stdpp Require Import base tactics gmap strings list.
From S2P Require Import Prelude Api.

(** A path of the host is the list of its components. *)
Abbreviation path := (list string).

Definition SUBFOLDER_WORKLOAD_FILES : string := "files".

Definition workload_files_base_path (run_folder : path) (n : WorkloadInstanceNameSpec) : path :=
  pipes_folder_name n run_folder ++ [SUBFOLDER_WORKLOAD_FILES].

(** ** Components of a mount point

    [std::path::Path::components] on Unix: a leading slash is the root
    directory, repeated slashes and single dots are dropped, except for a single
    dot at the front of a relative path. *)

Inductive Component := RootDir | CurDir | ParentDir | Normal (name : string).

#[export] Instance Component_eq_dec : EqDecision Component.
Proof. solve_decision. Defined.

Definition SEPARATOR : ascii := "/".

Definition component (s : string) : Component := if String.eqb s ".." then ParentDir else Normal s.

Definition names (parts : list string) : list string := filter (λ s, s ≠ "" ∧ s ≠ ".") parts.

Definition path_components (s : string) : list Component :=
  match split_on SEPARATOR s with
  | "" :: (_ :: _) as parts => RootDir :: (component <$> names parts)
  | "." :: parts => CurDir :: (component <$> names parts)
  | parts => component <$> names parts
  end.

(** ** The host path of a file *)

Record WorkloadFileHostPath := { directory : path; file_name : string }.

Definition get_absolute_file_path (p : WorkloadFileHostPath) : path := directory p ++ [file_name p].

(** The loop over the components after the first one. *)
Fixpoint host_path_from (mount_point : string) (components : list Component)
    (location : WorkloadFileHostPath) : result string WorkloadFileHostPath :=
  match components with
  | [] => Ok location
  | Normal name :: [] => Ok {| directory := directory location; file_name := name |}
  | Normal name :: components =>
    host_path_from mount_point components
      {| directory := directory location ++ [name]; file_name := file_name location |}
  | _ :: _ => Err ("path '" +:+ mount_point +:+ "' contains invalid path components")
  end.

Definition host_path_try_from (files_base_path : path) (mount_point : string) :
    result string WorkloadFileHostPath :=
  if ends_with "/" mount_point then
    Err ("'" +:+ mount_point +:+ "' is a directory, expected a file")
  else
    match path_components mount_point with
    | RootDir :: components =>
      host_path_from mount_point components {| directory := files_base_path; file_name := "" |}
    | _ => Err ("path '" +:+ mount_point +:+ "' is relative, expected absolute path")
    end.

(** ** Writing the files *)

(** The error's [Display] output is all the program uses. *)
Definition FileSystemError := string.
Definition WorkloadFileCreationError := string.

Definition workload_file_creation_error (message : string) : WorkloadFileCreationError :=
  "Failed to create workload file: '" +:+ message +:+ "'".

(** The file system calls of [io_utils/fs.rs]; they act on the state of the
    host. *)
Class FileSystem (W : Type) := {
  make_dir : path → io W FileSystemError ();
  write_file : path → string → io W FileSystemError ();
  remove_dir_all : path → io W FileSystemError ()
}.

(** [general_purpose::STANDARD.decode] of the [base64] crate. *)
Class Base64 := base64_decode : string → result string string.

(** The lines of the text, trimmed and concatenated. *)
Definition join_trimmed_lines (s : string) : string :=
  String.concat "" (trim <$> split_on "010" s).

Section workload_files.
Context {W : Type} `{FileSystem W, Base64}.

Definition write_workload_file (file_path : path) (file : FileSpec) :
    io W WorkloadFileCreationError () :=
  let write content :=
    io_map_err (λ err, workload_file_creation_error
                  ("write failed for '" +:+ mount_point file +:+ "': '" +:+ err +:+ "'"))
      (write_file file_path content) in
  match file_content file with
  | Data data => write data
  | BinaryData binary_data =>
    binary ← io_of (map_err (λ err, workload_file_creation_error
        ("invalid base64 data in '" +:+ mount_point file +:+ "': '" +:+ err +:+ "'"))
      (base64_decode (join_trimmed_lines binary_data)));
    write binary
  end.

(** The body of the loop of [create_files]. *)
Definition create_file (base_path : path) (file : FileSpec) : io W WorkloadFileCreationError path :=
  location ← io_of (map_err (λ err, workload_file_creation_error
      ("invalid mount point '" +:+ mount_point file +:+ "': '" +:+ err +:+ "'"))
    (host_path_try_from base_path (mount_point file)));
  _ ← io_map_err (λ err, workload_file_creation_error
      ("failed to create workload file directory structure for '" +:+ mount_point file +:+
       "': '" +:+ err +:+ "'"))
    (make_dir (directory location));
  _ ← write_workload_file (get_absolute_file_path location) file;
  mret (get_absolute_file_path location).

Fixpoint create_files_into (base_path : path) (workload_files : list FileSpec)
    (host_file_paths : gmap path string) : io W WorkloadFileCreationError (gmap path string) :=
  match workload_files with
  | [] => mret host_file_paths
  | file :: workload_files =>
    host_path ← create_file base_path file;
    create_files_into base_path workload_files (<[host_path := mount_point file]> host_file_paths)
  end.

Definition create_files (base_path : path) (workload_files : list FileSpec) :
    io W WorkloadFileCreationError (gmap path string) :=
  create_files_into base_path workload_files ∅.
End workload_files.

(** ** Lemmas *)

(** A path below [base]: no component leaves the folder. *)
Definition below (base p : path) : Prop :=
  ∃ rel, p = base ++ rel ∧ Forall (λ c, c ≠ ".." ∧ has_char SEPARATOR c = false) rel.

Lemma below_refl base : below base base.
Proof. exists []. by rewrite app_nil_r. Qed.

(** The last name is the file, the others are the folders below [base]. *)
Definition location_of (base : path) (ns : list string) (file : string) : WorkloadFileHostPath :=
  {| directory := base ++ removelast ns; file_name := List.last ns file |}.

Lemma component_Normal s : s ≠ ".." → component s = Normal s.
Proof. intros Hs. unfold component. by apply String.eqb_neq in Hs as ->. Qed.

Lemma host_path_from_ok mp ns base file p :
  host_path_from mp (component <$> ns) {| directory := base; file_name := file |} = Ok p ↔
  ".." ∉ ns ∧ p = location_of base ns file.
Proof.
  revert base. induction ns as [|n ns IH]; intros base; cbn [fmap list_fmap].
  { unfold location_of. simpl. rewrite app_nil_r. split; [intros [= <-]|intros [_ ->]]; [|done].
    split; [apply not_elem_of_nil|done]. }
  destruct (decide (n = "..")) as [->|Hn].
  { split; [done|]. intros [Hin _]. destruct Hin. by left. }
  rewrite component_Normal by done. rewrite not_elem_of_cons.
  destruct ns as [|n' ns].
  - unfold location_of. simpl. rewrite app_nil_r. split.
    + intros [= <-]. split_and!; [done|apply not_elem_of_nil|done].
    + by intros [_ ->].
  - cbn [host_path_from fmap list_fmap] in IH |- *. rewrite IH. unfold location_of.
    change (removelast (n :: n' :: ns)) with (n :: removelast (n' :: ns)).
    change (List.last (n :: n' :: ns) file) with (List.last (n' :: ns) file).
    rewrite <-app_assoc. simpl. naive_solver.
Qed.

Lemma elem_of_names parts s : s ∈ names parts ↔ (s ≠ "" ∧ s ≠ ".") ∧ s ∈ parts.
Proof. unfold names. by rewrite list_elem_of_filter. Qed.

Lemma starts_with_slash mp :
  starts_with "/" mp = true ↔ ∃ part parts, split_on SEPARATOR mp = "" :: part :: parts.
Proof.
  rewrite starts_with_spec. split.
  - intros [r ->]. simpl. destruct (split_on SEPARATOR r) as [|part parts] eqn:Hs; [|by eauto].
    by apply split_on_not_nil in Hs.
  - intros (part & parts & Heq). rewrite <-(join_split_on SEPARATOR mp), Heq.
    rewrite join_cons by done. by eexists.
Qed.

Lemma RootDir_not_component l cs : component <$> l ≠ RootDir :: cs.
Proof. destruct l as [|s l]; [done|]. cbn. unfold component. by case_match. Qed.

Lemma path_components_root mp cs :
  path_components mp = RootDir :: cs ↔
  starts_with "/" mp = true ∧ cs = component <$> names (split_on SEPARATOR mp).
Proof.
  rewrite starts_with_slash. unfold path_components. split.
  - intros Hcs. assert (∃ part parts, split_on SEPARATOR mp = "" :: part :: parts) as Hs.
    { destruct (split_on SEPARATOR mp) as [|p [|part parts]]; repeat case_match;
        first [by eauto | by apply RootDir_not_component in Hcs | done]. }
    split; [done|]. destruct Hs as (part & parts & Hs). rewrite Hs in Hcs |- *. by simplify_eq.
  - by intros [(part & parts & ->) ->].
Qed.

(** The names of a mount point's components, empty ones and single dots left out. *)
Definition mount_names (mp : string) : list string := names (split_on SEPARATOR mp).

Lemma host_path_try_from_ok base mp p :
  host_path_try_from base mp = Ok p ↔
  starts_with "/" mp = true ∧ ends_with "/" mp = false ∧ ".." ∉ mount_names mp ∧
  p = location_of base (mount_names mp) "".
Proof.
  unfold host_path_try_from. destruct (ends_with "/" mp); [naive_solver|].
  destruct (path_components mp) as [|c cs] eqn:Hcs.
  { split; [done|]. intros [Hroot _]. exfalso.
    pose proof (proj2 (path_components_root mp _) (conj Hroot eq_refl)). congruence. }
  destruct (decide (c = RootDir)) as [->|Hc].
  - apply path_components_root in Hcs as [Hroot ->]. rewrite host_path_from_ok. naive_solver.
  - split; [destruct c; done|]. intros [Hroot _]. exfalso. apply Hc.
    pose proof (proj2 (path_components_root mp _) (conj Hroot eq_refl)). congruence.
Qed.

Lemma mount_names_no_separator mp : Forall (λ n, has_char SEPARATOR n = false) (mount_names mp).
Proof.
  apply Forall_forall. intros n [_ Hn]%elem_of_names.
  pose proof (split_on_parts SEPARATOR mp) as Hall. rewrite Forall_forall in Hall. auto.
Qed.

Lemma elem_of_removelast {A} (l : list A) x : x ∈ removelast l → x ∈ l.
Proof.
  induction l as [|y [|z l] IH]; [done|by intros ?%elem_of_nil|].
  change (removelast (y :: z :: l)) with (y :: removelast (z :: l)).
  rewrite !(elem_of_cons _ x y). naive_solver.
Qed.

Lemma elem_of_last {A} (l : list A) d : List.last l d = d ∨ List.last l d ∈ l.
Proof.
  induction l as [|x [|y l] IH]; [by left|right; by left|].
  change (List.last (x :: y :: l) d) with (List.last (y :: l) d).
  destruct IH as [IH|IH]; [by left|right; by right].
Qed.

Lemma host_path_below base mp p :
  host_path_try_from base mp = Ok p → below base (directory p) ∧ below base (get_absolute_file_path p).
Proof.
  intros (_ & _ & Hdots & ->)%host_path_try_from_ok.
  pose proof (mount_names_no_separator mp) as Hsep. rewrite Forall_forall in Hsep.
  assert (Forall (λ c, c ≠ ".." ∧ has_char SEPARATOR c = false) (removelast (mount_names mp))) as Hdir.
  { apply Forall_forall. intros c Hc%elem_of_removelast. split; [by intros ->|auto]. }
  split; [by eexists|]. unfold get_absolute_file_path, location_of. simpl.
  exists (removelast (mount_names mp) ++ [List.last (mount_names mp) ""]).
  rewrite app_assoc. split; [done|]. apply Forall_app. split; [done|].
  apply Forall_singleton. destruct (elem_of_last (mount_names mp) "") as [->|Hin]; [done|].
  split; [by intros Heq; rewrite Heq in Hin|auto].
Qed.

(** ** Properties *)

(** A mount point is accepted exactly if it is absolute, does not end with a
    slash and has no parent directory component; the host path of the file is
    then the base folder followed by the names of the mount point, and stays
    below the base folder. *)
Theorem host_path_spec base mp p :
  host_path_try_from base mp = Ok p ↔
  (starts_with "/" mp = true ∧ ends_with "/" mp = false ∧ ".." ∉ mount_names mp ∧
   p = location_of base (mount_names mp) "") ∧
  below base (get_absolute_file_path p).
Proof.
  split.
  - intros Hp. split; [by apply host_path_try_from_ok|by eapply host_path_below].
  - intros [Hp _]. by apply host_path_try_from_ok.
Qed.

Section create_files_lemmas.
Context {W : Type} `{FileSystem W, Base64}.

(** The host paths of the files, in the order of the list. *)
Definition host_path_of (base : path) (file : FileSpec) : path :=
  get_absolute_file_path (location_of base (mount_names (mount_point file)) "").

Lemma io_of_ok {E A} (r : result E A) (w : W) a w' : io_of r w = (Ok a, w') ↔ r = Ok a ∧ w' = w.
Proof. unfold io_of. naive_solver. Qed.

Lemma create_file_ok base file w p w' :
  create_file base file w = (Ok p, w') →
  p = host_path_of base file ∧ below base p.
Proof.
  unfold create_file. rewrite io_bind_ok. intros (loc & w1 & Hloc & Hrest).
  apply io_of_ok in Hloc as [Hloc _]. apply map_err_ok in Hloc.
  apply io_bind_ok in Hrest as ([] & w2 & _ & Hrest).
  apply io_bind_ok in Hrest as ([] & w3 & _ & [= <- _]).
  split; [|by eapply host_path_below]. by apply host_path_try_from_ok in Hloc as (_ & _ & _ & ->).
Qed.

Section frame.
Context (base : path) (R : W → W → Prop) `{!Reflexive R, !Transitive R}.
Hypothesis make_dir_frame : ∀ p w, below base p → R w (make_dir p w).2.
Hypothesis write_file_frame : ∀ p c w, below base p → R w (write_file p c w).2.

Lemma write_workload_file_frame p file w : below base p → R w (write_workload_file p file w).2.
Proof using All.
  intros Hp. unfold write_workload_file. destruct (file_content file) as [data|data].
  - by apply write_file_frame.
  - unfold mbind, io_bind, io_of. destruct (map_err _ _); [by apply write_file_frame|done].
Qed.

Lemma create_file_frame file w : R w (create_file base file w).2.
Proof using All.
  unfold create_file, mbind, io_bind, io_of.
  destruct (host_path_try_from base (mount_point file)) as [loc|] eqn:Hloc; simpl; [|done].
  apply host_path_below in Hloc as [Hdir Hfile].
  pose proof (make_dir_frame (directory loc) w Hdir) as H1. unfold io_map_err.
  destruct (make_dir (directory loc) w) as [[[]|e] w1]; simpl in *; [|done].
  pose proof (write_workload_file_frame (get_absolute_file_path loc) file w1 Hfile) as H2.
  destruct (write_workload_file _ _ w1) as [[[]|e] w2]; simpl in *; by etransitivity.
Qed.

Lemma create_files_into_frame files m w : R w (create_files_into base files m w).2.
Proof using All.
  revert m w. induction files as [|file files IH]; intros m w; simpl; [done|].
  unfold mbind, io_bind. pose proof (create_file_frame file w) as H1.
  destruct (create_file base file w) as [[p|e] w1]; simpl in *; [|done].
  etransitivity; [done|]. apply IH.
Qed.
End frame.

Lemma create_files_into_ok base files m w m' w' :
  create_files_into base files m w = (Ok m', w') →
  m' = foldl (λ m file, <[host_path_of base file := mount_point file]> m) m files ∧
  (map_Forall (λ p _, below base p) m → map_Forall (λ p _, below base p) m').
Proof.
  revert m w. induction files as [|file files IH]; intros m w; simpl; [by intros [= <- _]|].
  rewrite io_bind_ok. intros (p & w1 & Hp & Hrest). apply create_file_ok in Hp as [-> Hp].
  destruct (IH _ _ Hrest) as [-> Hbelow]. split; [done|]. intros Hm.
  apply Hbelow. by apply map_Forall_insert_2.
Qed.
End create_files_lemmas.

(** Creating the files of a workload changes nothing outside of the
    workload's folder, whether it succeeds or fails: whatever relation between
    the states of the host the file operations below that folder maintain is
    maintained. On success the mapping handed to the runtime lists exactly the
    files of the workload. *)
Theorem create_files_spec {W} `{FileSystem W, Base64} base (R : W → W → Prop) files w :
  Reflexive R → Transitive R →
  (∀ p w, below base p → R w (make_dir p w).2) →
  (∀ p c w, below base p → R w (write_file p c w).2) →
  R w (create_files base files w).2 ∧
  ∀ m w', create_files base files w = (Ok m, w') →
    m = foldl (λ m file, <[host_path_of base file := mount_point file]> m) ∅ files ∧
    map_Forall (λ p _, below base p) m.
Proof.
  intros HR HT Hmake Hwrite. unfold create_files.
  split; [by apply (create_files_into_frame base R)|].
  intros m w' [-> Hbelow]%create_files_into_ok. split; [done|].
  apply Hbelow, map_Forall_empty.
Qed.

(** A host on which every operation succeeds and is logged. *)
Definition log_fs : FileSystem (list path) := {|
  make_dir := λ p w, (Ok (), w ++ [p]);
  write_file := λ p _ w, (Ok (), w ++ [p]);
  remove_dir_all := λ p w, (Ok (), w ++ [p])
|}.

(** Only paths below [base] were added to the log. *)
Definition only_below (base : path) (w w' : list path) : Prop :=
  ∃ new, w' = w ++ new ∧ Forall (below base) new.

Definition example_file (mp : string) : FileSpec :=
  {| mount_point := mp; file_content := Data "x" |}.

Lemma create_files_spec_witness :
  let F := log_fs in
  let B : Base64 := λ s, Ok s in
  only_below ["run"] [] (create_files ["run"] [example_file "/etc//app.conf"] []).2 ∧
  create_files ["run"] [example_file "/etc//app.conf"] [] =
    (Ok {[ ["run"; "etc"; "app.conf"] := "/etc//app.conf" ]},
     [["run"; "etc"]; ["run"; "etc"; "app.conf"]]).
Proof.
  intros F B. split; [|vm_compute; reflexivity].
  apply (create_files_spec ["run"] (only_below ["run"])).
  - intros w. exists []. by rewrite app_nil_r.
  - intros w1 w2 w3 (n1 & -> & H1) (n2 & -> & H2). exists (n1 ++ n2).
    rewrite app_assoc. split; [done|]. by apply Forall_app.
  - intros p w Hp. exists [p]. split; [done|]. by apply Forall_singleton.
  - intros p c w Hp. exists [p]. split; [done|]. by apply Forall_singleton.
Defined.
