(* ===== verification/RetryManager.v ===== *)
(** * Ankaios agent: retry manager

    [agent/src/workload/retry_manager.rs]: a failed creation of a workload is
    retried after a growing timeout, with a token that every other command of
    the workload invalidates.  A token and the manager share a watch channel, so
    the model keeps the channels in a store. *)

From Stdlib Require Import NArith Lia.
From stdpp Require Import base tactics list numbers.
From S2P Require Import Prelude.

Local Open Scope N_scope.

Definition BASE_BACKOFF_IN_MILLIS : N := 500.
Definition BACKOFF_MAX_IN_MILLIS : N := 300000.

(** The value of every watch channel; a channel is its index. *)
Record RetryManager := {
  channels : list bool;
  current_token_is_valid_sink : nat
}.

Record RetryToken := {
  token_counter : N;
  valid : nat
}.

#[export] Instance RetryToken_eq_dec : EqDecision RetryToken.
Proof. solve_decision. Defined.

(** [RetryManager::default()]: a channel nobody listens to. *)
Definition retry_manager_default : RetryManager :=
  {| channels := [false]; current_token_is_valid_sink := 0%nat |}.

(** Also what dropping the manager does. *)
Definition invalidate (m : RetryManager) : RetryManager :=
  {| channels := <[current_token_is_valid_sink m := false]> (channels m);
     current_token_is_valid_sink := current_token_is_valid_sink m |}.

Definition new_token (m : RetryManager) : RetryManager * RetryToken :=
  let m := invalidate m in
  ({| channels := channels m ++ [true]; current_token_is_valid_sink := length (channels m) |},
   {| token_counter := 0; valid := length (channels m) |}).

(** The counters are [u32]. *)
Definition counter_plus_1 (t : RetryToken) : N := (token_counter t + 1) mod 2 ^ 32.

Definition inc_counter (t : RetryToken) : RetryToken :=
  {| token_counter := counter_plus_1 t; valid := valid t |}.

Definition is_valid (m : RetryManager) (t : RetryToken) : bool :=
  default false (channels m !! valid t).

(** The arithmetic on [u64] with the wrap-around of a release build. *)
Definition u64_wrap (n : N) : N := n mod 2 ^ 64.

Definition calc_backoff (t : RetryToken) : N :=
  N.min (u64_wrap (u64_wrap (2 ^ token_counter t) * BASE_BACKOFF_IN_MILLIS)) BACKOFF_MAX_IN_MILLIS.

(** The same with the overflow checks of a debug build, [None] for a panic. *)
Definition u64_checked (n : N) : option N := if n <? 2 ^ 64 then Some n else None.

Definition calc_backoff_checked (t : RetryToken) : option N :=
  p ← u64_checked (2 ^ token_counter t);
  q ← u64_checked (p * BASE_BACKOFF_IN_MILLIS);
  Some (N.min q BACKOFF_MAX_IN_MILLIS).

(** [random_range m] is the number drawn from [0..=m]. *)
Definition calc_backoff_with_jitter (random_range : N → N) (t : RetryToken) : N :=
  random_range (calc_backoff t).

(** The timeout that is slept, and the token handed to the callback unless the
    channel became false in the meantime. *)
Definition call_with_backoff (random_range : N → N) (t : RetryToken) (interrupted : bool) :
    N * option RetryToken :=
  (calc_backoff_with_jitter random_range t,
   if interrupted then None else Some (inc_counter t)).

(** ** Validity of tokens *)

(** Only the channel of the current token can be true. *)
Definition retry_wf (m : RetryManager) : Prop :=
  (current_token_is_valid_sink m < length (channels m))%nat ∧
  ∀ i, channels m !! i = Some true → i = current_token_is_valid_sink m.

Lemma retry_wf_default : retry_wf retry_manager_default.
Proof. split; [simpl; lia|]. by intros [|[|i]]. Qed.

Lemma invalidate_lookup m i : retry_wf m → channels (invalidate m) !! i ≠ Some true.
Proof.
  intros [Hlt Honly]. simpl. destruct (decide (i = current_token_is_valid_sink m)) as [->|Hi].
  - by rewrite list_lookup_insert_eq.
  - rewrite list_lookup_insert_ne by done. intros Hi'. by apply Honly in Hi'.
Qed.

Lemma retry_wf_invalidate m : retry_wf m → retry_wf (invalidate m).
Proof.
  intros Hwf. split; [simpl; rewrite length_insert; apply Hwf|].
  intros i Hi. by apply invalidate_lookup in Hi.
Qed.

Lemma retry_wf_new_token m : retry_wf m → retry_wf (new_token m).1.
Proof.
  intros Hwf. split; [simpl; rewrite length_app; simpl; lia|].
  intros i. cbn [new_token fst channels current_token_is_valid_sink].
  rewrite lookup_app_Some. intros [Hi|[Hge Hi]]; [by apply invalidate_lookup in Hi|].
  apply list_lookup_singleton_Some in Hi as [Hi _]. lia.
Qed.

Lemma new_token_valid m : is_valid (new_token m).1 (new_token m).2 = true.
Proof. unfold is_valid. cbn [new_token fst snd channels valid]. by rewrite lookup_app_r, Nat.sub_diag. Qed.

Inductive RetryOp := Invalidate | NewToken.

Definition run_retry_op (m : RetryManager) (op : RetryOp) : RetryManager :=
  match op with Invalidate => invalidate m | NewToken => (new_token m).1 end.

Lemma is_valid_invalidate m t : retry_wf m → is_valid (invalidate m) t = false.
Proof.
  intros Hwf. unfold is_valid. pose proof (invalidate_lookup m (valid t) Hwf).
  by destruct (channels _ !! _) as [[]|].
Qed.

Lemma is_valid_new_token_old m t :
  retry_wf m → (valid t < length (channels m))%nat → is_valid (new_token m).1 t = false.
Proof.
  intros Hwf Hlt. rewrite <-(is_valid_invalidate m t) by done. unfold is_valid.
  cbn [new_token fst channels]. rewrite lookup_app_l; [done|]. simpl. by rewrite length_insert.
Qed.

Lemma run_retry_op_length m op : (length (channels m) ≤ length (channels (run_retry_op m op)))%nat.
Proof. destruct op; simpl; rewrite ?length_app, length_insert; lia. Qed.

Lemma run_retry_op_old m t op :
  retry_wf m → (valid t < length (channels m))%nat → is_valid (run_retry_op m op) t = false.
Proof. destruct op; [intros; by apply is_valid_invalidate|apply is_valid_new_token_old]. Qed.

Lemma run_retry_op_wf m op : retry_wf m → retry_wf (run_retry_op m op).
Proof. destruct op; [apply retry_wf_invalidate|apply retry_wf_new_token]. Qed.

Lemma run_retry_ops_old m t ops :
  retry_wf m → (valid t < length (channels m))%nat → ops ≠ [] →
  is_valid (foldl run_retry_op m ops) t = false.
Proof.
  revert m. induction ops as [|op ops IH]; intros m Hwf Hlt Hne; [done|]. simpl.
  destruct ops as [|op' ops]; [by apply run_retry_op_old|].
  apply IH; [by apply run_retry_op_wf| |done].
  pose proof (run_retry_op_length m op). lia.
Qed.

(** A retry token is valid exactly until the next token is made or the
    current one is invalidated; it never becomes valid again. *)
Theorem retry_token_valid_until_next m ops :
  retry_wf m →
  is_valid (foldl run_retry_op (new_token m).1 ops) (new_token m).2 = true ↔ ops = [].
Proof.
  intros Hwf. split; [|intros ->; apply new_token_valid].
  destruct ops as [|op ops]; [done|]. intros Hv. exfalso. revert Hv.
  rewrite run_retry_ops_old; [done|by apply retry_wf_new_token| |done].
  simpl. rewrite length_app. simpl. lia.
Qed.

Lemma retry_token_valid_until_next_witness :
  let '(m, t) := new_token retry_manager_default in
  is_valid m t = true ∧ is_valid (foldl run_retry_op m [NewToken; Invalidate]) t = false.
Proof.
  split.
  - apply (retry_token_valid_until_next retry_manager_default [] retry_wf_default). reflexivity.
  - apply not_true_is_false. intros Hv.
    pose proof (proj1 (retry_token_valid_until_next _ [NewToken; Invalidate] retry_wf_default) Hv) as Heq.
    discriminate Heq.
Defined.

#[export] Hint Resolve retry_wf_default retry_wf_invalidate retry_wf_new_token : wf.

(** ** Backoff *)

Lemma backoff_small c : c < 56 →
  u64_wrap (u64_wrap (2 ^ c) * BASE_BACKOFF_IN_MILLIS) = 2 ^ c * BASE_BACKOFF_IN_MILLIS.
Proof.
  intros Hc. unfold u64_wrap, BASE_BACKOFF_IN_MILLIS.
  assert (2 ^ c ≤ 2 ^ 55) as Hp by (apply N.pow_le_mono_r; lia).
  change (2 ^ 64) with 18446744073709551616. change (2 ^ 55) with 36028797018963968 in Hp.
  rewrite (N.mod_small (2 ^ c)) by lia. rewrite N.mod_small by lia. done.
Qed.

Lemma backoff_zero c : 62 ≤ c → u64_wrap (u64_wrap (2 ^ c) * BASE_BACKOFF_IN_MILLIS) = 0.
Proof.
  intros Hc. unfold u64_wrap, BASE_BACKOFF_IN_MILLIS.
  rewrite N.Div0.mul_mod_idemp_l.
  replace c with (62 + (c - 62)) by lia. rewrite N.pow_add_r.
  replace (2 ^ 62 * 2 ^ (c - 62) * 500) with (125 * 2 ^ (c - 62) * 2 ^ 64).
  - apply N.Div0.mod_mul.
  - change (2 ^ 64) with (4 * 2 ^ 62). lia.
Qed.

Lemma calc_backoff_bound t :
  calc_backoff t =
  if token_counter t <? 62 then N.min (2 ^ token_counter t * 500) 300000 else 0.
Proof.
  unfold calc_backoff. set (c := token_counter t). destruct (N.ltb_spec c 62) as [Hc|Hc].
  - destruct (decide (c < 56)) as [Hs|Hs]; [by rewrite backoff_small|].
    assert (c = 56 ∨ c = 57 ∨ c = 58 ∨ c = 59 ∨ c = 60 ∨ c = 61) as Hcases by lia.
    by destruct Hcases as [->|[->|[->|[->|[->| ->]]]]].
  - rewrite backoff_zero by done. done.
Qed.

Lemma calc_backoff_checked_some t :
  token_counter t < 56 → calc_backoff_checked t = Some (calc_backoff t).
Proof.
  intros Hc. unfold calc_backoff_checked, u64_checked, calc_backoff. rewrite backoff_small by done.
  assert (2 ^ token_counter t ≤ 2 ^ 55) as Hp by (apply N.pow_le_mono_r; lia).
  change (2 ^ 64) with 18446744073709551616. change (2 ^ 55) with 36028797018963968 in Hp.
  unfold BASE_BACKOFF_IN_MILLIS.
  rewrite (proj2 (N.ltb_lt _ _)) by lia. simpl. by rewrite (proj2 (N.ltb_lt _ _)) by lia.
Qed.

Lemma calc_backoff_checked_none t : 56 ≤ token_counter t → calc_backoff_checked t = None.
Proof.
  intros Hc. unfold calc_backoff_checked, u64_checked.
  destruct (_ <? _); simpl; [|done]. rewrite (proj2 (N.ltb_ge _ _)); [done|].
  assert (2 ^ 56 ≤ 2 ^ token_counter t) as Hp by (apply N.pow_le_mono_r; lia).
  change (2 ^ 64) with 18446744073709551616. change (2 ^ 56) with 72057594037927936 in Hp.
  unfold BASE_BACKOFF_IN_MILLIS. lia.
Qed.

(** C35: the upper bound of the timeout doubles from half a second up to five
    minutes and stays there, but only for the first retries: from counter 62 on
    the product wraps around to zero and a release build retries without any
    delay; a build with overflow checks panics from counter 56 on. *)
Theorem calc_backoff_spec t :
  calc_backoff t =
    (if token_counter t <? 62 then N.min (2 ^ token_counter t * 500) 300000 else 0) ∧
  calc_backoff_checked t = if token_counter t <? 56 then Some (calc_backoff t) else None.
Proof.
  split; [apply calc_backoff_bound|]. destruct (N.ltb_spec (token_counter t) 56).
  - by apply calc_backoff_checked_some.
  - by apply calc_backoff_checked_none.
Qed.
