(* ===== verification/ControlLoop.v ===== *)
(** * Ankaios agent: workload control loop

    [agent/src/workload/workload_control_loop.rs] and [control_loop_state.rs]:
    one task per workload that creates, updates, restarts and deletes it on its
    container runtime, reports its states to the agent and retries failed
    creations.

    The runtime connector is an interface ([RuntimeConnector]); the theorems
    about the workloads that exist on the runtime use its laws
    ([RuntimeLaws]). *)

From stdpp Require Import base tactics numbers gmap strings list.
From S2P Require Import Prelude Api WorkloadFiles RetryManager.

(** ** Interface of the runtime connectors ([runtime_connector.rs]) *)

Inductive RuntimeError :=
  | RuntimeErrorCreate (msg : string)
  | RuntimeErrorDelete (msg : string)
  | RuntimeErrorList (msg : string)
  | RuntimeErrorCollectLog (msg : string)
  | RuntimeErrorUnsupported (msg : string).

Definition runtime_error_to_string (e : RuntimeError) : string :=
  match e with
  | RuntimeErrorCreate msg | RuntimeErrorDelete msg | RuntimeErrorList msg
  | RuntimeErrorCollectLog msg | RuntimeErrorUnsupported msg => msg
  end.

Record LogRequestOptions := {
  follow_option : bool;
  tail_option : option Z;
  since_option : option string;
  until_option : option string
}.

Record ReusableWorkloadState := {
  reusable_state : WorkloadStateSpec;
  reusable_workload_id : option string
}.

(** Every operation acts on the state of the host: its containers and files. *)
Class RuntimeConnector := {
  World : Type;
  WorkloadId : Type;
  StChecker : Type;
  LogFetcher : Type;
  world_files :: FileSystem World;
  world_base64 :: Base64;
  runtime_create_workload : WorkloadNamed → option WorkloadId → option path →
    gmap path string → io World RuntimeError (WorkloadId * StChecker);
  runtime_get_workload_id : WorkloadInstanceNameSpec → io World RuntimeError WorkloadId;
  runtime_start_checker : WorkloadId → WorkloadNamed → io World RuntimeError StChecker;
  runtime_get_log_fetcher : WorkloadId → LogRequestOptions → World → result RuntimeError LogFetcher;
  runtime_delete_workload : WorkloadId → io World RuntimeError ();
  stop_checker : StChecker → World → World
}.

Section control_loop.
Context {RC : RuntimeConnector}.

(** ** State

    The senders are the lists of what was sent: the states reported to the
    agent and the retries handed to the retry sender. [runtime] is the state of
    the host the connector acts on. The log fetchers that were created are kept
    as well. *)
Record ControlLoopState := {
  workload_named : WorkloadNamed;
  control_interface_path : option path;
  run_folder : path;
  workload_id : option WorkloadId;
  state_checker : option StChecker;
  to_agent_workload_state_sender : list WorkloadStateSpec;
  runtime : World;
  retry_sender : list (WorkloadInstanceNameSpec * RetryToken);
  retry_manager : RetryManager;
  log_fetchers : list LogFetcher
}.

Definition loop_instance_name (s : ControlLoopState) : WorkloadInstanceNameSpec :=
  instance_name (workload_named s).

(** [ControlLoopStateBuilder::build], with every part set. *)
Definition build_control_loop_state (w : WorkloadNamed) (p : option path) (folder : path)
    (id : option WorkloadId) (sent : list WorkloadStateSpec) (rt : World) : ControlLoopState := {|
  workload_named := w; control_interface_path := p; run_folder := folder; workload_id := id;
  state_checker := None; to_agent_workload_state_sender := sent; runtime := rt;
  retry_sender := []; retry_manager := retry_manager_default; log_fetchers := []
|}.

(** Assignments to the fields. *)
Definition set_ids (id : option WorkloadId) (c : option StChecker) (s : ControlLoopState) :
    ControlLoopState := {|
  workload_named := workload_named s; control_interface_path := control_interface_path s;
  run_folder := run_folder s; workload_id := id; state_checker := c;
  to_agent_workload_state_sender := to_agent_workload_state_sender s; runtime := runtime s;
  retry_sender := retry_sender s; retry_manager := retry_manager s; log_fetchers := log_fetchers s
|}.
Definition set_runtime (rt : World) (s : ControlLoopState) : ControlLoopState := {|
  workload_named := workload_named s; control_interface_path := control_interface_path s;
  run_folder := run_folder s; workload_id := workload_id s; state_checker := state_checker s;
  to_agent_workload_state_sender := to_agent_workload_state_sender s; runtime := rt;
  retry_sender := retry_sender s; retry_manager := retry_manager s; log_fetchers := log_fetchers s
|}.
Definition set_workload (w : WorkloadNamed) (p : option path) (s : ControlLoopState) :
    ControlLoopState := {|
  workload_named := w; control_interface_path := p;
  run_folder := run_folder s; workload_id := workload_id s; state_checker := state_checker s;
  to_agent_workload_state_sender := to_agent_workload_state_sender s; runtime := runtime s;
  retry_sender := retry_sender s; retry_manager := retry_manager s; log_fetchers := log_fetchers s
|}.
Definition set_retry_manager (m : RetryManager) (s : ControlLoopState) : ControlLoopState := {|
  workload_named := workload_named s; control_interface_path := control_interface_path s;
  run_folder := run_folder s; workload_id := workload_id s; state_checker := state_checker s;
  to_agent_workload_state_sender := to_agent_workload_state_sender s; runtime := runtime s;
  retry_sender := retry_sender s; retry_manager := m; log_fetchers := log_fetchers s
|}.
Definition push_retry (n : WorkloadInstanceNameSpec) (t : RetryToken) (s : ControlLoopState) :
    ControlLoopState := {|
  workload_named := workload_named s; control_interface_path := control_interface_path s;
  run_folder := run_folder s; workload_id := workload_id s; state_checker := state_checker s;
  to_agent_workload_state_sender := to_agent_workload_state_sender s; runtime := runtime s;
  retry_sender := retry_sender s ++ [(n, t)]; retry_manager := retry_manager s;
  log_fetchers := log_fetchers s
|}.
Definition push_log_fetcher (l : LogFetcher) (s : ControlLoopState) : ControlLoopState := {|
  workload_named := workload_named s; control_interface_path := control_interface_path s;
  run_folder := run_folder s; workload_id := workload_id s; state_checker := state_checker s;
  to_agent_workload_state_sender := to_agent_workload_state_sender s; runtime := runtime s;
  retry_sender := retry_sender s; retry_manager := retry_manager s;
  log_fetchers := log_fetchers s ++ [l]
|}.

Definition send_workload_state_to_agent (n : WorkloadInstanceNameSpec) (e : ExecutionStateSpec)
    (s : ControlLoopState) : ControlLoopState := {|
  workload_named := workload_named s; control_interface_path := control_interface_path s;
  run_folder := run_folder s; workload_id := workload_id s; state_checker := state_checker s;
  to_agent_workload_state_sender := to_agent_workload_state_sender s ++
    [{| state_instance_name := n; execution_state := e |}];
  runtime := runtime s;
  retry_sender := retry_sender s; retry_manager := retry_manager s; log_fetchers := log_fetchers s
|}.

(** [state_checker.take()] followed by [stop_checker]. *)
Definition stop_old_checker (s : ControlLoopState) : ControlLoopState :=
  match state_checker s with
  | Some old_checker => set_runtime (stop_checker old_checker (runtime s)) (set_ids (workload_id s) None s)
  | None => s
  end.

Definition is_same_workload (lhs rhs : WorkloadInstanceNameSpec) : bool := bool_decide (lhs = rhs).

Definition restart_policy_matches_execution_state (p : RestartPolicy) (e : ExecutionStateSpec) : bool :=
  match p with
  | Never => false
  | OnFailure => is_failed e
  | Always => is_failed e || is_succeeded e
  end.

(** Errors are only logged. *)
Definition delete_folder (p : path) (s : ControlLoopState) : ControlLoopState :=
  set_runtime (remove_dir_all p (runtime s)).2 s.

Definition new_retry_token (s : ControlLoopState) : ControlLoopState * RetryToken :=
  let '(m, t) := new_token (retry_manager s) in (set_retry_manager m s, t).

(** ** Creation *)

(** The retry sender itself never fails: it spawns a task. *)
Definition send_retry_for_workload (s : ControlLoopState) (n : WorkloadInstanceNameSpec)
    (t : RetryToken) (error_msg : string) : ControlLoopState :=
  let s := set_ids None None s in
  let s := send_workload_state_to_agent n (retry_starting (counter_plus_1 t) error_msg) s in
  push_retry n t s.

Definition handle_mount_point_creation (s : ControlLoopState) :
    result string (gmap path string) * ControlLoopState :=
  if bool_decide (workload_files (workload (workload_named s)) = []) then (Ok ∅, s)
  else
    let base := workload_files_base_path (run_folder s) (loop_instance_name s) in
    match create_files base (workload_files (workload (workload_named s))) (runtime s) with
    | (Ok mapping, rt) => (Ok mapping, set_runtime rt s)
    | (Err err, rt) =>
      let s := delete_folder base (set_runtime rt s) in
      (Err err, send_workload_state_to_agent (loop_instance_name s) (starting_failed err) s)
    end.

Definition create_workload_on_runtime (s : ControlLoopState) (t : RetryToken)
    (func_on_recoverable_error : ControlLoopState → WorkloadInstanceNameSpec → RetryToken →
       string → ControlLoopState) : ControlLoopState :=
  match handle_mount_point_creation s with
  | (Err _, s) => s
  | (Ok mapping, s) =>
    let n := loop_instance_name s in
    match runtime_create_workload (workload_named s) (workload_id s) (control_interface_path s)
            mapping (runtime s) with
    | (Ok (new_workload_id, new_state_checker), rt) =>
      set_ids (Some new_workload_id) (Some new_state_checker) (set_runtime rt s)
    | (Err err, rt) =>
      let s := delete_folder (workload_files_base_path (run_folder s) n) (set_runtime rt s) in
      match err with
      | RuntimeErrorUnsupported msg => send_workload_state_to_agent n (starting_failed msg) s
      | _ => func_on_recoverable_error s n t (runtime_error_to_string err)
      end
    end
  end.

Definition retry_create_workload_on_runtime (s : ControlLoopState) (t : RetryToken) :
    ControlLoopState :=
  if is_valid (retry_manager s) t then create_workload_on_runtime s t send_retry_for_workload
  else s.

(** ** Deletion *)

(** A loop that goes on or that returned. *)
Inductive LoopResult :=
  | Continue (s : ControlLoopState)
  | Return (s : ControlLoopState).

(** [None] of the source is [Return]: what was sent and done up to then. *)
Definition delete_workload_on_runtime (s : ControlLoopState) : LoopResult :=
  let s := send_workload_state_to_agent (loop_instance_name s) stopping_requested s in
  let removed_on_runtime :=
    match workload_id s with
    | Some old_id =>
      match runtime_delete_workload old_id (runtime s) with
      | (Err err, rt) =>
        Err (send_workload_state_to_agent (loop_instance_name s)
               (delete_failed (runtime_error_to_string err)) (set_runtime rt s))
      | (Ok _, rt) => Ok (stop_old_checker (set_ids None (state_checker s) (set_runtime rt s)))
      end
    | None => Ok s
    end in
  match removed_on_runtime with
  | Err s => Continue s
  | Ok s =>
    let s := delete_folder (pipes_folder_name (loop_instance_name s) (run_folder s)) s in
    Return (send_workload_state_to_agent (loop_instance_name s) removed s)
  end.

(** ** Update and restart *)

(** The end of [update_workload_on_runtime] and of
    [restart_workload_with_bundle_reuse]: the new workload is created. *)
Definition create_new_workload (new_workload : option WorkloadNamed) (p : option path)
    (s : ControlLoopState) : ControlLoopState :=
  match new_workload with
  | Some named =>
    let s := set_workload named p s in
    let s := send_workload_state_to_agent (loop_instance_name s) starting_triggered s in
    let '(s, t) := new_retry_token s in
    create_workload_on_runtime s t send_retry_for_workload
  | None => s
  end.

(** The folder of the old workload goes when the instance changes. *)
Definition delete_folder_of_other_instance (new_workload : option WorkloadNamed)
    (s : ControlLoopState) : ControlLoopState :=
  match new_workload with
  | Some named =>
    if is_same_workload (loop_instance_name s) (instance_name named) then s
    else delete_folder (pipes_folder_name (loop_instance_name s) (run_folder s)) s
  | None => s
  end.

Definition update_workload_on_runtime (s : ControlLoopState) (new_workload : option WorkloadNamed)
    (p : option path) : ControlLoopState :=
  let s := send_workload_state_to_agent (loop_instance_name s) stopping_requested s in
  let removed_on_runtime :=
    match workload_id s with
    | Some old_id =>
      match runtime_delete_workload old_id (runtime s) with
      | (Err err, rt) =>
        Err (send_workload_state_to_agent (loop_instance_name s)
               (delete_failed (runtime_error_to_string err)) (set_runtime rt s))
      | (Ok _, rt) => Ok (stop_old_checker (set_ids None (state_checker s) (set_runtime rt s)))
      end
    | None => Ok s
    end in
  match removed_on_runtime with
  | Err s => s
  | Ok s =>
    let s := delete_folder (workload_files_base_path (run_folder s) (loop_instance_name s)) s in
    let s := delete_folder_of_other_instance new_workload s in
    let s := send_workload_state_to_agent (loop_instance_name s) removed s in
    create_new_workload new_workload p s
  end.

Definition restart_workload_with_bundle_reuse (s : ControlLoopState)
    (new_workload : option WorkloadNamed) (p : option path) : ControlLoopState :=
  let s := stop_old_checker s in
  let s := delete_folder_of_other_instance new_workload s in
  create_new_workload new_workload p s.

Definition restart_workload_on_runtime (s : ControlLoopState) (e : ExecutionStateSpec) :
    ControlLoopState :=
  if is_succeeded e && bool_decide (is_Some (workload_id s)) then
    restart_workload_with_bundle_reuse s (Some (workload_named s)) (control_interface_path s)
  else update_workload_on_runtime s (Some (workload_named s)) (control_interface_path s).

Definition resume_workload_on_runtime (s : ControlLoopState) : ControlLoopState :=
  match runtime_get_workload_id (loop_instance_name s) (runtime s) with
  | (Ok id, rt) =>
    match runtime_start_checker id (workload_named s) rt with
    | (Ok checker, rt) => set_ids (Some id) (Some checker) (set_runtime rt s)
    | (Err _, rt) => set_ids (Some id) None (set_runtime rt s)
    end
  | (Err _, rt) => set_ids None None (set_runtime rt s)
  end.

Definition create_log_fetcher (s : ControlLoopState) (options : LogRequestOptions) :
    result RuntimeError LogFetcher :=
  match workload_id s with
  | None => Err (RuntimeErrorCollectLog
      "Could not start collecting logs for as it has no workload ID yet.")
  | Some id => runtime_get_log_fetcher id options (runtime s)
  end.

(** ** The loop *)

Inductive WorkloadCommand :=
  | CommandDelete
  | CommandUpdate (new_workload : option WorkloadNamed) (p : option path)
  | CommandRetry (n : WorkloadInstanceNameSpec) (t : RetryToken)
  | CommandCreate
  | CommandResume
  | CommandStartLogFetcher (options : LogRequestOptions).

(** What [select!] received: a state from the state checker, or a command;
    [None] is a closed command channel. *)
Inductive LoopEvent :=
  | StateReceived (new_workload_state : WorkloadStateSpec)
  | CommandReceived (workload_command : option WorkloadCommand).

Definition invalidate_retries (s : ControlLoopState) : ControlLoopState :=
  set_retry_manager (invalidate (retry_manager s)) s.

(** When the loop returns its state is dropped, the retry manager included. *)
Definition drop_state (r : LoopResult) : LoopResult :=
  match r with Continue s => Continue s | Return s => Return (invalidate_retries s) end.

Definition handle_workload_state (new_state : WorkloadStateSpec) (s : ControlLoopState) :
    ControlLoopState :=
  if is_same_workload (loop_instance_name s) (state_instance_name new_state) then
    let s := send_workload_state_to_agent (state_instance_name new_state)
               (execution_state new_state) s in
    if restart_policy_matches_execution_state
         (restart_policy (workload (workload_named s))) (execution_state new_state)
    then restart_workload_on_runtime s (execution_state new_state)
    else s
  else s.

Definition handle_command (c : option WorkloadCommand) (s : ControlLoopState) : LoopResult :=
  match c with
  | Some CommandDelete => delete_workload_on_runtime (invalidate_retries s)
  | Some (CommandUpdate new_workload p) =>
    Continue (update_workload_on_runtime (invalidate_retries s) new_workload p)
  | Some (CommandRetry _ t) => Continue (retry_create_workload_on_runtime s t)
  | Some CommandCreate =>
    let s := send_workload_state_to_agent (loop_instance_name s) starting_triggered s in
    let '(s, t) := new_retry_token s in
    Continue (create_workload_on_runtime s t send_retry_for_workload)
  | Some CommandResume => Continue (resume_workload_on_runtime s)
  | Some (CommandStartLogFetcher options) =>
    Continue (match create_log_fetcher s options with
              | Ok logger => push_log_fetcher logger s
              | Err _ => s
              end)
  | None => Return s
  end.

Definition loop_step (e : LoopEvent) (s : ControlLoopState) : LoopResult :=
  match e with
  | StateReceived new_state => Continue (handle_workload_state new_state s)
  | CommandReceived c => drop_state (handle_command c s)
  end.

(** The loop over the events it receives. *)
Fixpoint run (events : list LoopEvent) (s : ControlLoopState) : LoopResult :=
  match events with
  | [] => Continue s
  | e :: events =>
    match loop_step e s with
    | Continue s => run events s
    | Return s => Return s
    end
  end.
End control_loop.

(** ** Laws of the runtime connectors

    What the loop relies on: [instances] are the workloads that exist on the
    runtime. A successful creation gives one new workload, in place of the one
    that was handed over for reuse; a failed one is cleaned up; a refused one
    and a failed deletion change nothing. Starting and stopping checkers and
    file operations do not touch the workloads. *)
Class RuntimeLaws (RC : RuntimeConnector) := {
  WorkloadId_eq_dec :: EqDecision WorkloadId;
  WorkloadId_countable :: Countable WorkloadId;
  instances : World → gset WorkloadId;
  create_ok w reuse p m rt id c rt' :
    runtime_create_workload w reuse p m rt = (Ok (id, c), rt') →
    id ∉ instances rt ∖ option_to_set reuse ∧
    instances rt' = {[id]} ∪ instances rt ∖ option_to_set reuse;
  create_unsupported w reuse p m rt msg rt' :
    runtime_create_workload w reuse p m rt = (Err (RuntimeErrorUnsupported msg), rt') →
    instances rt' = instances rt;
  create_failed w reuse p m rt err rt' :
    runtime_create_workload w reuse p m rt = (Err err, rt') →
    (∀ msg, err ≠ RuntimeErrorUnsupported msg) →
    instances rt' = instances rt ∖ option_to_set reuse;
  delete_ok id rt u rt' :
    runtime_delete_workload id rt = (Ok u, rt') → instances rt' = instances rt ∖ {[id]};
  delete_err id rt err rt' :
    runtime_delete_workload id rt = (Err err, rt') → instances rt' = instances rt;
  get_workload_id_instances n rt : instances (runtime_get_workload_id n rt).2 = instances rt;
  start_checker_instances id w rt : instances (runtime_start_checker id w rt).2 = instances rt;
  stop_checker_instances c rt : instances (stop_checker c rt) = instances rt;
  make_dir_instances p rt : instances (make_dir p rt).2 = instances rt;
  write_file_instances p c rt : instances (write_file p c rt).2 = instances rt;
  remove_dir_all_instances p rt : instances (remove_dir_all p rt).2 = instances rt
}.

Section ownership.
Context {RC : RuntimeConnector} {RL : RuntimeLaws RC}.
Implicit Types (s : ControlLoopState) (others : gset WorkloadId).

(** The loop owns exactly the workload whose id it holds; the others on the
    runtime belong to other loops. *)
Record owns others s : Prop := {
  owns_instances : instances (runtime s) = option_to_set (workload_id s) ∪ others;
  owns_disjoint : others ## option_to_set (workload_id s)
}.

Lemma owns_same others s s' :
  instances (runtime s') = instances (runtime s) → workload_id s' = workload_id s →
  owns others s → owns others s'.
Proof. intros Hrt Hid [H1 H2]. split; [by rewrite Hrt, Hid|by rewrite Hid]. Qed.

Lemma owns_send others n e s : owns others s → owns others (send_workload_state_to_agent n e s).
Proof. by apply owns_same. Qed.

Lemma owns_delete_folder others p s : owns others s → owns others (delete_folder p s).
Proof. apply owns_same; [apply remove_dir_all_instances|done]. Qed.

Lemma owns_stop_checker others s : owns others s → owns others (stop_old_checker s).
Proof.
  unfold stop_old_checker. case_match; [|done].
  apply owns_same; [apply stop_checker_instances|done].
Qed.

Lemma owns_other_instance others w s :
  owns others s → owns others (delete_folder_of_other_instance w s).
Proof.
  unfold delete_folder_of_other_instance. repeat case_match; auto using owns_delete_folder.
Qed.

Lemma create_files_instances base files rt :
  instances (create_files base files rt).2 = instances rt.
Proof.
  set (R rt rt' := instances rt = instances rt').
  assert (Reflexive R) by (by intros ?).
  assert (Transitive R) by (intros ???; unfold R; congruence).
  symmetry. apply (create_files_into_frame base R).
  - intros. symmetry. apply make_dir_instances.
  - intros. symmetry. apply write_file_instances.
Qed.

Lemma owns_mount_points others s r s' :
  handle_mount_point_creation s = (r, s') → owns others s → owns others s'.
Proof.
  unfold handle_mount_point_creation. case_bool_decide; [by intros [= _ <-]|].
  pose proof (create_files_instances (workload_files_base_path (run_folder s) (loop_instance_name s))
    (workload_files (workload (workload_named s))) (runtime s)) as Hrt.
  destruct (create_files _ _ _) as [[m|err] rt]; intros [= _ <-]; simpl in Hrt.
  - by apply owns_same.
  - intros Hs. apply owns_send, owns_delete_folder. by eapply owns_same, Hs.
Qed.

Lemma owns_send_retry others n t msg s :
  instances (runtime s) = others → owns others (send_retry_for_workload s n t msg).
Proof. intros Hs. split; simpl; set_solver. Qed.

Lemma owns_create others s t :
  owns others s → owns others (create_workload_on_runtime s t send_retry_for_workload).
Proof.
  intros Hs. unfold create_workload_on_runtime.
  destruct (handle_mount_point_creation s) as [[m|err] s1] eqn:Hm;
    pose proof (owns_mount_points _ _ _ _ Hm Hs) as Hs1; [|done].
  assert (instances (runtime s1) ∖ option_to_set (workload_id s1) = others) as Hothers.
  { destruct Hs1. set_solver. }
  destruct (runtime_create_workload _ _ _ _ _) as [[[id c]|err] rt] eqn:Hc.
  - apply create_ok in Hc as [Hnew Hrt]. rewrite Hothers in Hnew, Hrt.
    split; simpl; [done|set_solver].
  - assert ((∀ msg, err ≠ RuntimeErrorUnsupported msg) → instances rt = others) as Hrt.
    { intros Hne. apply create_failed in Hc; [|done]. by rewrite Hc. }
    destruct err; try (apply owns_send_retry; simpl; rewrite remove_dir_all_instances; by apply Hrt).
    apply create_unsupported in Hc. apply owns_send, owns_delete_folder. by eapply owns_same, Hs1.
Qed.

Lemma owns_create_new others w p s : owns others s → owns others (create_new_workload w p s).
Proof.
  intros Hs. destruct w as [w|]; simpl; [|done]. apply owns_create. by eapply owns_same, Hs.
Qed.

(** The common start of deletion and update. *)
Lemma owns_deleted others s id rt u :
  owns others s → workload_id s = Some id → runtime_delete_workload id (runtime s) = (Ok u, rt) →
  owns others (stop_old_checker (set_ids None (state_checker s) (set_runtime rt s))).
Proof.
  intros [H1 H2] Hid Hdel. apply owns_stop_checker. apply delete_ok in Hdel.
  rewrite Hid in *. simpl in *. split; simpl; set_solver.
Qed.

Lemma owns_not_deleted others s id rt err :
  owns others s → runtime_delete_workload id (runtime s) = (Err err, rt) →
  owns others (set_runtime rt s).
Proof. intros Hs Hdel. apply delete_err in Hdel. by eapply owns_same, Hs. Qed.

Lemma owns_update others s w p : owns others s → owns others (update_workload_on_runtime s w p).
Proof.
  intros Hs. unfold update_workload_on_runtime.
  set (s1 := send_workload_state_to_agent _ stopping_requested s).
  assert (owns others s1) as Hs1 by by apply owns_send.
  destruct (workload_id s1) as [id|] eqn:Hid.
  - destruct (runtime_delete_workload id (runtime s1)) as [[u|err] rt] eqn:Hdel.
    + apply owns_create_new, owns_send, owns_other_instance, owns_delete_folder.
      by eapply owns_deleted.
    + apply owns_send. by eapply owns_not_deleted.
  - by apply owns_create_new, owns_send, owns_other_instance, owns_delete_folder.
Qed.

Lemma owns_restart others s e : owns others s → owns others (restart_workload_on_runtime s e).
Proof.
  intros Hs. unfold restart_workload_on_runtime. case_match; [|by apply owns_update].
  by apply owns_create_new, owns_other_instance, owns_stop_checker.
Qed.

Lemma owns_handle_state others st s : owns others s → owns others (handle_workload_state st s).
Proof.
  intros Hs. unfold handle_workload_state. repeat case_match; auto using owns_send, owns_restart.
Qed.

(** What holds of the state of a loop that goes on or returned. *)
Definition result_holds (P : ControlLoopState → Prop) (r : LoopResult) : Prop :=
  match r with Continue s | Return s => P s end.

(** The loop returned because its workload is gone. *)
Definition workload_gone others (s : ControlLoopState) : Prop :=
  workload_id s = None ∧ instances (runtime s) = others ∧
  last (to_agent_workload_state_sender s) =
    Some {| state_instance_name := loop_instance_name s; execution_state := removed |}.

Lemma owns_delete others s :
  owns others s →
  match delete_workload_on_runtime s with
  | Continue s' => owns others s' ∧ workload_id s' = workload_id s
  | Return s' => owns others s' ∧ workload_gone others s'
  end.
Proof.
  intros Hs. unfold delete_workload_on_runtime.
  set (s1 := send_workload_state_to_agent _ stopping_requested s).
  assert (owns others s1) as Hs1 by by apply owns_send.
  assert (∀ s2 p, owns others s2 → workload_id s2 = None →
    let s3 := delete_folder p s2 in
    let s4 := send_workload_state_to_agent (loop_instance_name s3) removed s3 in
    owns others s4 ∧ workload_gone others s4) as Hgone.
  { intros s2 p Hs2 Hid. split; [by apply owns_send, owns_delete_folder|].
    split_and!; [done| |simpl; by rewrite last_snoc].
    destruct Hs2 as [Hrt _]. simpl. rewrite remove_dir_all_instances, Hrt, Hid. set_solver. }
  destruct (workload_id s1) as [id|] eqn:Hid.
  - destruct (runtime_delete_workload id (runtime s1)) as [[u|err] rt] eqn:Hdel.
    + apply Hgone; [by eapply owns_deleted|].
      unfold stop_old_checker. by case_match.
    + split; [|done]. apply owns_send. by eapply owns_not_deleted.
  - by apply Hgone.
Qed.

(** Resuming is the first command of a resumed workload; all other events
    keep the ownership. *)
Definition no_resume (e : LoopEvent) : Prop := e ≠ CommandReceived (Some CommandResume).

Lemma owns_handle_command others c s :
  owns others s → no_resume (CommandReceived c) → c ≠ None →
  match handle_command c s with
  | Continue s' => owns others s'
  | Return s' => owns others s' ∧ workload_gone others s'
  end.
Proof.
  intros Hs Hc Hsome. destruct c as [[| w p|n t| | |options]|]; simpl; try done.
  - assert (owns others (invalidate_retries s)) as Hs1 by (by eapply owns_same, Hs).
    apply owns_delete in Hs1. by destruct (delete_workload_on_runtime _) as [s'|s'], Hs1.
  - apply owns_update. by eapply owns_same, Hs.
  - unfold retry_create_workload_on_runtime. case_match; [by apply owns_create|done].
  - apply owns_create. by eapply owns_same, Hs.
  - case_match; [by eapply owns_same, Hs|done].
Qed.

Lemma workload_gone_drop others s : workload_gone others s → workload_gone others (invalidate_retries s).
Proof. done. Qed.

Lemma owns_run others events s :
  owns others s → Forall no_resume events →
  match run events s with
  | Continue s' => owns others s'
  | Return s' => owns others s' ∧ (CommandReceived None ∉ events → workload_gone others s')
  end.
Proof.
  intros Hs Hevents. revert s Hs. induction Hevents as [|e events He Hevents IH]; intros s Hs; [done|].
  assert (∀ s1, owns others s1 → match run events s1 with
    | Continue s' => owns others s'
    | Return s' => owns others s' ∧ (CommandReceived None ∉ e :: events → workload_gone others s')
    end) as Hrest.
  { intros s1 Hs1. specialize (IH s1 Hs1). destruct (run events s1); [done|].
    split; [apply IH|]. intros Hin. apply IH. set_solver. }
  destruct e as [st|c]; [by apply Hrest, owns_handle_state|].
  unfold run at 1. fold run. cbn [loop_step]. destruct (decide (c = None)) as [->|Hc].
  - simpl. split; [by eapply owns_same, Hs|]. intros []. by left.
  - pose proof (owns_handle_command others c s Hs He Hc) as Hstep.
    destruct (handle_command c s) as [s1|s1]; simpl; [by apply Hrest|].
    destruct Hstep as [H1 H2]. split; [by eapply owns_same, H1|].
    intros _. by apply workload_gone_drop.
Qed.
End ownership.

(** ** Retries *)

Section retries.
Context {RC : RuntimeConnector}.
Implicit Types s : ControlLoopState.

(** The retry manager after some of its operations. *)
Definition evolves (m m' : RetryManager) : Prop := ∃ ops, m' = foldl run_retry_op m ops.

#[local] Instance evolves_refl : Reflexive evolves.
Proof. intros m. by exists []. Qed.

#[local] Instance evolves_trans : Transitive evolves.
Proof. intros m1 m2 m3 [o1 ->] [o2 ->]. exists (o1 ++ o2). by rewrite foldl_app. Qed.

Lemma evolves_step m op : evolves m (run_retry_op m op).
Proof. by exists [op]. Qed.

Lemma evolves_wf m m' : evolves m m' → retry_wf m → retry_wf m'.
Proof.
  intros [ops ->]. revert m. induction ops as [|op ops IH]; intros m Hm; [done|].
  apply IH. by apply run_retry_op_wf.
Qed.

Lemma evolves_length m m' : evolves m m' → (length (channels m) ≤ length (channels m'))%nat.
Proof.
  intros [ops ->]. revert m. induction ops as [|op ops IH]; intros m; [done|]. simpl.
  etransitivity; [apply run_retry_op_length|apply IH].
Qed.

(** Once invalid, always invalid. *)
Lemma evolves_invalid m m' t :
  evolves m m' → retry_wf m → (valid t < length (channels m))%nat →
  is_valid m t = false → is_valid m' t = false.
Proof.
  intros [ops ->] Hm Ht Hv. destruct ops as [|op ops]; [done|]. by apply run_retry_ops_old.
Qed.

Lemma create_workload_retry s t :
  retry_manager (create_workload_on_runtime s t send_retry_for_workload) = retry_manager s ∧
  (retry_sender (create_workload_on_runtime s t send_retry_for_workload) = retry_sender s ∨
   ∃ n, retry_sender (create_workload_on_runtime s t send_retry_for_workload) = retry_sender s ++ [(n, t)]).
Proof.
  unfold create_workload_on_runtime.
  destruct (handle_mount_point_creation s) as [r s1] eqn:Hm.
  assert (retry_manager s1 = retry_manager s ∧ retry_sender s1 = retry_sender s) as [Hm1 Hs1].
  { revert Hm. unfold handle_mount_point_creation. case_bool_decide; [by intros [= _ <-]|].
    by destruct (create_files _ _ _) as [[]]; intros [= _ <-]. }
  destruct r as [m|err]; [|by rewrite Hm1, Hs1; auto].
  destruct (runtime_create_workload _ _ _ _ _) as [[[id c]|err] rt]; simpl; [by rewrite Hm1, Hs1; auto|].
  destruct err; simpl; rewrite Hm1, Hs1; eauto.
Qed.

(** The part of the state the retries depend on: the tokens that were handed
    to the retry sender belong to channels of the manager. *)
Definition retries_wf (m : RetryManager) (sent : list (WorkloadInstanceNameSpec * RetryToken)) : Prop :=
  retry_wf m ∧ Forall (λ p, (valid p.2 < length (channels m))%nat) sent.

Definition loop_retries_wf s : Prop := retries_wf (retry_manager s) (retry_sender s).

(** From [s] to [s'] the manager evolves and the sent tokens stay known. *)
Definition retries_ok s s' : Prop :=
  evolves (retry_manager s) (retry_manager s') ∧ (loop_retries_wf s → loop_retries_wf s').

#[local] Instance retries_ok_refl : Reflexive retries_ok.
Proof. by intros s. Qed.

#[local] Instance retries_ok_trans : Transitive retries_ok.
Proof. intros s1 s2 s3 [H1 H2] [H3 H4]. split; [by etransitivity|auto]. Qed.

Lemma retries_ok_same s s' :
  retry_manager s' = retry_manager s → retry_sender s' = retry_sender s → retries_ok s s'.
Proof. intros H1 H2. unfold retries_ok, loop_retries_wf. by rewrite H1, H2. Qed.

Lemma retries_ok_op s s' op :
  retry_manager s' = run_retry_op (retry_manager s) op → retry_sender s' = retry_sender s →
  retries_ok s s'.
Proof.
  intros Hm Hs. split; [rewrite Hm; apply evolves_step|]. unfold loop_retries_wf. rewrite Hm, Hs.
  intros [Hwf Hall]. split; [by apply run_retry_op_wf|].
  eapply Forall_impl; [exact Hall|].
  intros p Hp. pose proof (run_retry_op_length (retry_manager s) op). simpl in *. lia.
Qed.

(** A creation with a known token. *)
Lemma retries_ok_create s t :
  (loop_retries_wf s → (valid t < length (channels (retry_manager s)))%nat) →
  retries_ok s (create_workload_on_runtime s t send_retry_for_workload).
Proof.
  intros Ht. destruct (create_workload_retry s t) as [Hm Hs].
  split; [by rewrite Hm|]. unfold loop_retries_wf. rewrite Hm. intros Hwf.
  destruct Hs as [-> |[n ->]]; [done|]. split; [apply Hwf|].
  apply Forall_app. split; [apply Hwf|]. apply Forall_singleton. by apply Ht.
Qed.

Lemma new_retry_token_known s :
  retries_ok s (new_retry_token s).1 ∧
  (valid (new_retry_token s).2 < length (channels (retry_manager (new_retry_token s).1)))%nat.
Proof.
  unfold new_retry_token. destruct (new_token (retry_manager s)) as [m t] eqn:Ht. split.
  - apply (retries_ok_op _ _ NewToken); [|done].
    change (m = (new_token (retry_manager s)).1). by rewrite Ht.
  - injection Ht as <- <-. simpl. rewrite length_app. simpl. lia.
Qed.

Lemma retries_ok_create_fresh s :
  let '(s', t) := new_retry_token s in
  retries_ok s (create_workload_on_runtime s' t send_retry_for_workload).
Proof.
  destruct (new_retry_token s) as [s' t] eqn:Heq.
  pose proof (new_retry_token_known s) as [H1 H2]. rewrite Heq in H1, H2. simpl in H1, H2.
  etransitivity; [exact H1|]. by apply retries_ok_create.
Qed.

Lemma retries_ok_create_new s w p : retries_ok s (create_new_workload w p s).
Proof.
  destruct w as [w|]; [|done]. cbn [create_new_workload].
  set (s1 := send_workload_state_to_agent _ starting_triggered _).
  pose proof (retries_ok_create_fresh s1) as H.
  destruct (new_retry_token s1) as [s2 t]. etransitivity; [|exact H]. by apply retries_ok_same.
Qed.

Lemma stop_old_checker_retries s :
  retry_manager (stop_old_checker s) = retry_manager s ∧
  retry_sender (stop_old_checker s) = retry_sender s.
Proof. unfold stop_old_checker. by case_match. Qed.

Lemma other_instance_retries w s :
  retry_manager (delete_folder_of_other_instance w s) = retry_manager s ∧
  retry_sender (delete_folder_of_other_instance w s) = retry_sender s.
Proof. unfold delete_folder_of_other_instance. by repeat case_match. Qed.

Lemma retries_ok_update s w p : retries_ok s (update_workload_on_runtime s w p).
Proof.
  unfold update_workload_on_runtime.
  set (s1 := send_workload_state_to_agent _ stopping_requested s).
  assert (∀ s2, retries_ok s s2 → retries_ok s (create_new_workload w p
    (send_workload_state_to_agent (loop_instance_name (delete_folder_of_other_instance w
        (delete_folder (workload_files_base_path (run_folder s2) (loop_instance_name s2)) s2))) removed
      (delete_folder_of_other_instance w
        (delete_folder (workload_files_base_path (run_folder s2) (loop_instance_name s2)) s2))))) as Hend.
  { intros s2 Hs2. etransitivity; [exact Hs2|]. etransitivity; [|apply retries_ok_create_new].
    set (s3 := delete_folder _ s2). destruct (other_instance_retries w s3) as [H1 H2].
    apply retries_ok_same; [exact H1|exact H2]. }
  destruct (workload_id s1) as [id|].
  - destruct (runtime_delete_workload id (runtime s1)) as [[u|err] rt].
    + apply Hend. apply retries_ok_same; [|]; by rewrite ?(proj1 (stop_old_checker_retries _)), ?(proj2 (stop_old_checker_retries _)).
    + by apply retries_ok_same.
  - apply Hend. by apply retries_ok_same.
Qed.

Lemma retries_ok_restart s e : retries_ok s (restart_workload_on_runtime s e).
Proof.
  unfold restart_workload_on_runtime. case_match; [|apply retries_ok_update].
  unfold restart_workload_with_bundle_reuse. etransitivity; [|apply retries_ok_create_new].
  apply retries_ok_same.
  - by rewrite (proj1 (other_instance_retries _ _)), (proj1 (stop_old_checker_retries _)).
  - by rewrite (proj2 (other_instance_retries _ _)), (proj2 (stop_old_checker_retries _)).
Qed.

Lemma retries_ok_handle_state st s : retries_ok s (handle_workload_state st s).
Proof.
  unfold handle_workload_state. destruct (is_same_workload _ _); [|done].
  destruct (restart_policy_matches_execution_state _ _); [|by apply retries_ok_same].
  etransitivity; [|apply retries_ok_restart]. by apply retries_ok_same.
Qed.

Lemma retries_ok_delete s : result_holds (retries_ok s) (delete_workload_on_runtime s).
Proof.
  unfold delete_workload_on_runtime.
  destruct (workload_id _) as [id|]; [|by apply retries_ok_same].
  destruct (runtime_delete_workload _ _) as [[u|err] rt]; [|by apply retries_ok_same].
  destruct (stop_old_checker_retries (set_ids None (state_checker (send_workload_state_to_agent
    (loop_instance_name s) stopping_requested s)) (set_runtime rt (send_workload_state_to_agent
    (loop_instance_name s) stopping_requested s)))) as [H1 H2].
  by apply retries_ok_same.
Qed.

(** Resuming, log fetchers and the end of the loop leave the retries alone. *)
Lemma resume_retries s :
  retry_manager (resume_workload_on_runtime s) = retry_manager s ∧
  retry_sender (resume_workload_on_runtime s) = retry_sender s.
Proof.
  unfold resume_workload_on_runtime.
  destruct (runtime_get_workload_id _ _) as [[id|err] rt]; [|done].
  by destruct (runtime_start_checker _ _ _) as [[c|err] rt'].
Qed.

(** The token of a retry command was handed to the retry sender before. *)
Definition known_retry s (e : LoopEvent) : Prop :=
  match e with
  | CommandReceived (Some (CommandRetry n t)) => (valid t < length (channels (retry_manager s)))%nat
  | _ => True
  end.

Lemma retries_ok_step e s : known_retry s e → result_holds (retries_ok s) (loop_step e s).
Proof.
  intros Hknown. destruct e as [st|c]; [apply retries_ok_handle_state|].
  destruct c as [[| w p|n t| | |options]|]; cbn [loop_step handle_command].
  - assert (retries_ok s (invalidate_retries s)) as Hinv by (by apply (retries_ok_op _ _ Invalidate)).
    pose proof (retries_ok_delete (invalidate_retries s)) as Hdel.
    destruct (delete_workload_on_runtime _) as [s1|s1]; simpl in Hdel |- *;
      (etransitivity; [exact Hinv|]); [exact Hdel|].
    etransitivity; [exact Hdel|]. by apply (retries_ok_op _ _ Invalidate).
  - simpl. etransitivity; [by apply (retries_ok_op _ (invalidate_retries s) Invalidate)|].
    apply retries_ok_update.
  - simpl. unfold retry_create_workload_on_runtime. case_match; [|done].
    by apply retries_ok_create.
  - set (s1 := send_workload_state_to_agent _ starting_triggered s).
    pose proof (retries_ok_create_fresh s1) as H. destruct (new_retry_token s1) as [s2 t].
    simpl. etransitivity; [|exact H]. by apply retries_ok_same.
  - simpl. apply retries_ok_same; apply resume_retries.
  - simpl. case_match; [by apply retries_ok_same|done].
  - simpl. by apply (retries_ok_op _ _ Invalidate).
Qed.

Definition evolves_from s s' : Prop := evolves (retry_manager s) (retry_manager s').

Lemma evolves_loop_step e s : result_holds (evolves_from s) (loop_step e s).
Proof.
  assert (∀ e', known_retry s e' → result_holds (evolves_from s) (loop_step e' s)) as Hknown.
  { intros e' He'. pose proof (retries_ok_step e' s He') as H.
    destruct (loop_step e' s); apply H. }
  destruct e as [st|[[| w p|n t| | |options]|]]; try by apply Hknown.
  cbn. unfold retry_create_workload_on_runtime, evolves_from. case_match; [|done].
  by rewrite (proj1 (create_workload_retry s t)).
Qed.

Lemma evolves_run events s : result_holds (evolves_from s) (run events s).
Proof.
  revert s. induction events as [|e events IH]; intros s; cbn [run].
  { by exists []. }
  pose proof (evolves_loop_step e s) as H1.
  destruct (loop_step e s) as [s1|s1]; simpl in H1 |- *; [|done].
  pose proof (IH s1) as H2. unfold evolves_from in *.
  destruct (run events s1); simpl in *; by etransitivity.
Qed.

(** Deletion, update and creation make all earlier tokens invalid. *)
Definition voids_retries (e : LoopEvent) : Prop :=
  match e with
  | CommandReceived (Some (CommandDelete | CommandUpdate _ _ | CommandCreate)) => True
  | _ => False
  end.

Lemma voids_retries_step e s t :
  voids_retries e → retry_wf (retry_manager s) →
  (valid t < length (channels (retry_manager s)))%nat →
  result_holds (λ s', is_valid (retry_manager s') t = false) (loop_step e s).
Proof.
  intros He Hwf Ht.
  assert (∀ m', evolves (invalidate (retry_manager s)) m' → is_valid m' t = false) as Hinv.
  { intros m' Hm'. eapply evolves_invalid; [exact Hm'|by apply retry_wf_invalidate| |].
    - simpl. by rewrite length_insert.
    - by apply is_valid_invalidate. }
  destruct e as [st|[[| w p|n t'| | |options]|]]; simpl in He; try done; cbn [loop_step handle_command].
  - pose proof (retries_ok_delete (invalidate_retries s)) as H.
    destruct (delete_workload_on_runtime _) as [s1|s1]; simpl in H |- *; apply Hinv.
    + apply H.
    + etransitivity; [apply H|]. apply (evolves_step _ Invalidate).
  - simpl. apply Hinv. apply (retries_ok_update (invalidate_retries s) w p).
  - set (s1 := send_workload_state_to_agent _ starting_triggered s).
    destruct (new_retry_token s1) as [s2 t2] eqn:Heq. cbn [drop_state result_holds].
    rewrite (proj1 (create_workload_retry s2 t2)).
    change (retry_manager s2) with (retry_manager (s2, t2).1). rewrite <-Heq.
    by apply is_valid_new_token_old.
Qed.

Lemma stale_retry events s e t :
  retry_wf (retry_manager s) → (valid t < length (channels (retry_manager s)))%nat →
  voids_retries e →
  result_holds (λ s', is_valid (retry_manager s') t = false) (run (e :: events) s).
Proof.
  intros Hwf Ht He. cbn [run].
  pose proof (voids_retries_step e s t He Hwf Ht) as Hv.
  pose proof (evolves_loop_step e s) as Hev.
  destruct (loop_step e s) as [s1|s1]; simpl in Hv, Hev |- *; [|done].
  pose proof (evolves_run events s1) as H2.
  pose proof (evolves_length _ _ Hev). pose proof (evolves_wf _ _ Hev Hwf).
  destruct (run events s1); simpl in H2 |- *; (eapply evolves_invalid; [exact H2|done|lia|done]).
Qed.
End retries.

(** ** Reports *)

Section reports.
Context {RC : RuntimeConnector}.
Implicit Types s : ControlLoopState.

Definition report (n : WorkloadInstanceNameSpec) (e : ExecutionStateSpec) : WorkloadStateSpec :=
  {| state_instance_name := n; execution_state := e |}.

(** How a creation with token [t] ends, from [s] to [s']: the workload runs and
    is watched; or its files or its configuration are refused; or it is retried
    with the token. *)
Inductive creation_outcome s (t : RetryToken) s' : Prop :=
  | creation_succeeded id c :
      workload_id s' = Some id → state_checker s' = Some c →
      to_agent_workload_state_sender s' = to_agent_workload_state_sender s →
      retry_sender s' = retry_sender s → creation_outcome s t s'
  | creation_refused msg :
      workload_id s' = workload_id s →
      to_agent_workload_state_sender s' =
        to_agent_workload_state_sender s ++ [report (loop_instance_name s) (starting_failed msg)] →
      retry_sender s' = retry_sender s → creation_outcome s t s'
  | creation_retried msg :
      workload_id s' = None → state_checker s' = None →
      to_agent_workload_state_sender s' =
        to_agent_workload_state_sender s ++
        [report (loop_instance_name s) (retry_starting (counter_plus_1 t) msg)] →
      retry_sender s' = retry_sender s ++ [(loop_instance_name s, t)] → creation_outcome s t s'.

Lemma handle_mount_points_outcome s r s1 :
  handle_mount_point_creation s = (r, s1) →
  workload_named s1 = workload_named s ∧ control_interface_path s1 = control_interface_path s ∧
  workload_id s1 = workload_id s ∧ retry_sender s1 = retry_sender s ∧
  to_agent_workload_state_sender s1 = to_agent_workload_state_sender s ++
    match r with Ok _ => [] | Err err => [report (loop_instance_name s) (starting_failed err)] end.
Proof.
  unfold handle_mount_point_creation.
  case_bool_decide; [by intros [= <- <-]; rewrite app_nil_r|].
  destruct (create_files _ _ _) as [[m|err] rt]; intros [= <- <-]; simpl; by rewrite ?app_nil_r.
Qed.

Lemma create_workload_outcome s t :
  let s' := create_workload_on_runtime s t send_retry_for_workload in
  creation_outcome s t s' ∧ workload_named s' = workload_named s ∧
  control_interface_path s' = control_interface_path s.
Proof.
  unfold create_workload_on_runtime.
  destruct (handle_mount_point_creation s) as [r s1] eqn:Hm.
  apply handle_mount_points_outcome in Hm as (Hw & Hp & Hid & Hretry & Hsent).
  assert (loop_instance_name s1 = loop_instance_name s) as Hn by (unfold loop_instance_name; by rewrite Hw).
  destruct r as [m|err]; [|split; [by eapply creation_refused|done]]. rewrite app_nil_r in Hsent.
  destruct (runtime_create_workload _ _ _ _ _) as [[[id c]|err] rt]; cbv zeta.
  - split; [|done]. by eapply creation_succeeded.
  - destruct err; (split; [|done]); try (eapply creation_retried; simpl; by rewrite ?Hsent, ?Hn, ?Hretry).
    eapply creation_refused; simpl; by rewrite ?Hsent, ?Hn.
Qed.

(** What [create_new_workload] does for a new workload. *)
Lemma create_new_outcome s w p :
  let s' := create_new_workload (Some w) p s in
  workload_named s' = w ∧ control_interface_path s' = p ∧
  ∃ s1 t, token_counter t = 0%N ∧ is_valid (retry_manager s') t = true ∧
    loop_instance_name s1 = instance_name w ∧ workload_id s1 = workload_id s ∧
    to_agent_workload_state_sender s1 =
      to_agent_workload_state_sender s ++ [report (instance_name w) starting_triggered] ∧
    creation_outcome s1 t s'.
Proof.
  cbn [create_new_workload].
  set (s0 := send_workload_state_to_agent _ starting_triggered _).
  destruct (new_retry_token s0) as [s1 t] eqn:Ht.
  destruct (create_workload_outcome s1 t) as (Hout & Hw & Hp). cbv zeta in Hout, Hw, Hp |- *.
  pose proof (new_token_valid (retry_manager s0)) as Hvalid.
  unfold new_retry_token in Ht. destruct (new_token (retry_manager s0)) as [m t0] eqn:Hm.
  injection Ht as <- <-. rewrite Hw, Hp. split_and!; [done..|].
  exists (set_retry_manager m s0), t0. split_and!; try done.
  - by injection Hm as _ <-.
  - by rewrite (proj1 (create_workload_retry _ _)).
Qed.

(** The old workload of a deletion or update cannot be deleted. *)
Definition deletion_fails s err rt : Prop :=
  ∃ id, workload_id s = Some id ∧ runtime_delete_workload id (runtime s) = (Err err, rt).

Lemma stop_old_checker_same s :
  loop_instance_name (stop_old_checker s) = loop_instance_name s ∧
  to_agent_workload_state_sender (stop_old_checker s) = to_agent_workload_state_sender s ∧
  workload_id (stop_old_checker s) = workload_id s ∧
  workload_named (stop_old_checker s) = workload_named s.
Proof. unfold stop_old_checker. by case_match. Qed.

Lemma other_instance_same w s :
  loop_instance_name (delete_folder_of_other_instance w s) = loop_instance_name s ∧
  to_agent_workload_state_sender (delete_folder_of_other_instance w s) =
    to_agent_workload_state_sender s ∧
  workload_id (delete_folder_of_other_instance w s) = workload_id s ∧
  workload_named (delete_folder_of_other_instance w s) = workload_named s.
Proof. unfold delete_folder_of_other_instance. by repeat case_match. Qed.

(** An update whose deletion does not fail: the old workload is reported
    stopped and removed before anything is said about the new one. *)
Lemma update_deleted s w p :
  (∀ err rt, ¬ deletion_fails s err rt) →
  ∃ s1, update_workload_on_runtime s w p = create_new_workload w p s1 ∧
    workload_id s1 = None ∧ workload_named s1 = workload_named s ∧
    to_agent_workload_state_sender s1 = to_agent_workload_state_sender s ++
      [report (loop_instance_name s) stopping_requested; report (loop_instance_name s) removed].
Proof.
  intros Hok. unfold update_workload_on_runtime.
  set (s1 := send_workload_state_to_agent _ stopping_requested s).
  assert (∀ s2, loop_instance_name s2 = loop_instance_name s → workload_id s2 = None →
    workload_named s2 = workload_named s →
    to_agent_workload_state_sender s2 = to_agent_workload_state_sender s1 →
    let s3 := delete_folder_of_other_instance w
      (delete_folder (workload_files_base_path (run_folder s2) (loop_instance_name s2)) s2) in
    let s4 := send_workload_state_to_agent (loop_instance_name s3) removed s3 in
    workload_id s4 = None ∧ workload_named s4 = workload_named s ∧
    to_agent_workload_state_sender s4 = to_agent_workload_state_sender s ++
      [report (loop_instance_name s) stopping_requested; report (loop_instance_name s) removed])
    as Hend.
  { intros s2 Hn Hid Hw Hsent. cbv zeta. set (s2' := delete_folder _ s2).
    destruct (other_instance_same w s2') as (Hn' & Hsent' & Hid' & Hw'). simpl.
    rewrite Hn', Hsent', Hid', Hw'. change (loop_instance_name s2') with (loop_instance_name s2).
    change (to_agent_workload_state_sender s2') with (to_agent_workload_state_sender s2).
    change (workload_id s2') with (workload_id s2). change (workload_named s2') with (workload_named s2).
    rewrite Hn, Hsent, Hid, Hw. simpl. by rewrite <-app_assoc. }
  destruct (workload_id s1) as [id|] eqn:Hid.
  - destruct (runtime_delete_workload id (runtime s1)) as [[u|err] rt] eqn:Hdel.
    + eexists. split; [done|].
      destruct (stop_old_checker_same (set_ids None (state_checker s1) (set_runtime rt s1)))
        as (H1 & H2 & H3 & H4). by apply Hend.
    + exfalso. apply (Hok err rt). by exists id.
  - eexists. split; [done|]. by apply Hend.
Qed.
End reports.

(** ** The path of the control interface *)

Section interface_path.
Context {RC : RuntimeConnector}.
Implicit Types s : ControlLoopState.

Lemma create_new_path s w p : control_interface_path (create_new_workload (Some w) p s) = p.
Proof. by destruct (create_new_outcome s w p) as (_ & ? & _). Qed.

Lemma deletion_fails_or_not s :
  (∃ err rt, deletion_fails s err rt) ∨ (∀ err rt, ¬ deletion_fails s err rt).
Proof.
  unfold deletion_fails. destruct (workload_id s) as [id|]; [|right; naive_solver].
  destruct (runtime_delete_workload id (runtime s)) as [[u|err] rt] eqn:Hdel; [right|left; eauto].
  intros err rt' (id' & [= <-] & Hdel'). congruence.
Qed.

Lemma update_path s w :
  control_interface_path
    (update_workload_on_runtime s (Some w) (control_interface_path s)) = control_interface_path s.
Proof.
  destruct (deletion_fails_or_not s) as [(err & rt & id & Hid & Hdel)|Hok].
  - unfold update_workload_on_runtime. simpl. by rewrite Hid, Hdel.
  - destruct (update_deleted s (Some w) (control_interface_path s) Hok) as (s1 & -> & _).
    apply create_new_path.
Qed.

Lemma restart_path s e :
  control_interface_path (restart_workload_on_runtime s e) = control_interface_path s.
Proof.
  unfold restart_workload_on_runtime. case_match; [apply create_new_path|apply update_path].
Qed.

Definition is_update (e : LoopEvent) : Prop :=
  match e with CommandReceived (Some (CommandUpdate _ _)) => True | _ => False end.

(** Only an update changes the path of the control interface. *)
Lemma loop_step_path e s s' :
  ¬ is_update e → loop_step e s = Continue s' → control_interface_path s' = control_interface_path s.
Proof.
  intros He. destruct e as [st|[[| w p|n t| | |options]|]]; try done; cbn [loop_step handle_command].
  - intros [= <-]. unfold handle_workload_state. repeat case_match; try done. by rewrite restart_path.
  - unfold delete_workload_on_runtime. simpl. destruct (workload_id s) as [id|]; [|done].
    destruct (runtime_delete_workload id (runtime s)) as [[|] rt]; [done|]. by intros [= <-].
  - simpl. intros [= <-]. unfold retry_create_workload_on_runtime. case_match; [|done].
    apply create_workload_outcome.
  - destruct (new_retry_token _) as [s1 t] eqn:Ht. simpl. intros [= <-].
    rewrite (proj2 (proj2 (create_workload_outcome s1 t))).
    unfold new_retry_token in Ht. destruct (new_token _). by injection Ht as <- _.
  - simpl. intros [= <-]. unfold resume_workload_on_runtime.
    destruct (runtime_get_workload_id _ _) as [[id|err] rt]; [|done].
    by destruct (runtime_start_checker _ _ _) as [[c|err] rt'].
  - simpl. intros [= <-]. by case_match.
Qed.

Lemma run_path events s s' :
  Forall (λ e, ¬ is_update e) events → run events s = Continue s' →
  control_interface_path s' = control_interface_path s.
Proof.
  intros Hall. revert s. induction Hall as [|e events He Hall IH]; intros s; cbn [run].
  { by intros [= <-]. }
  destruct (loop_step e s) as [s1|s1] eqn:Hstep; [|done]. intros Hrun.
  rewrite (IH _ Hrun). by eapply loop_step_path.
Qed.

(** The events at which the loop may end. *)
Definition ends_loop (e : LoopEvent) : Prop :=
  match e with CommandReceived (None | Some CommandDelete) => True | _ => False end.

Lemma run_goes_on events s :
  Forall (λ e, ¬ ends_loop e) events → ∃ s', run events s = Continue s'.
Proof.
  intros Hall. revert s. induction Hall as [|e events He Hall IH]; intros s; cbn [run]; [eauto|].
  assert (∃ s1, loop_step e s = Continue s1) as (s1 & ->); [|apply IH].
  destruct e as [st|[[| w p|n t| | |options]|]]; simpl in He; try by destruct He.
  all: cbn [loop_step handle_command drop_state]; eauto.
Qed.
End interface_path.

(** ** A connector for the examples

    The host is the set of its workloads, numbered; the runtime configuration
    decides how creations end. Workload 0 cannot be deleted. *)

Definition example_fs : FileSystem (gset nat) := {|
  make_dir := λ _ rt, (Ok (), rt);
  write_file := λ _ _ rt, (Ok (), rt);
  remove_dir_all := λ _ rt, (Ok (), rt)
|}.

Definition example_create (w : WorkloadNamed) (reuse : option nat) (rt : gset nat) :
    result RuntimeError (nat * ()) * gset nat :=
  if String.eqb (runtime_config (workload w)) "unsupported" then
    (Err (RuntimeErrorUnsupported "Unsupported"), rt)
  else if String.eqb (runtime_config (workload w)) "broken" then
    (Err (RuntimeErrorCreate "broken"), rt ∖ option_to_set reuse)
  else
    let rt := rt ∖ option_to_set reuse in
    let id := fresh rt in
    (Ok (id, ()), {[id]} ∪ rt).

Definition example_delete (id : nat) (rt : gset nat) : result RuntimeError () * gset nat :=
  if Nat.eqb id 0 then (Err (RuntimeErrorDelete "busy"), rt) else (Ok (), rt ∖ {[id]}).

Definition example_connector : RuntimeConnector := {|
  World := gset nat; WorkloadId := nat; StChecker := (); LogFetcher := ();
  world_files := example_fs;
  world_base64 := λ s, Ok s;
  runtime_create_workload := λ w reuse _ _, example_create w reuse;
  runtime_get_workload_id := λ _ rt, (Err (RuntimeErrorList "unknown"), rt);
  runtime_start_checker := λ _ _ rt, (Ok (), rt);
  runtime_get_log_fetcher := λ _ _ _, Ok ();
  runtime_delete_workload := example_delete;
  stop_checker := λ _ rt, rt
|}.

Definition example_laws : RuntimeLaws example_connector.
Proof.
  unshelve refine (@Build_RuntimeLaws example_connector (_ : EqDecision nat) (_ : Countable nat)
    (λ rt : gset nat, rt) _ _ _ _ _ _ _ _ _ _ _); try done.
  - intros w reuse p m rt id c rt'. simpl. unfold example_create.
    repeat case_match; intros [= <- _ <-]. split; [apply is_fresh|done].
  - intros w reuse p m rt msg rt'. simpl. unfold example_create. by repeat case_match; intros [= _ <-].
  - intros w reuse p m rt err rt'. simpl. unfold example_create.
    repeat case_match; intros [= <- <-] Hne; [by destruct (Hne "Unsupported")|done].
  - intros id rt u rt'. simpl. unfold example_delete. by case_match; intros [= _ <-].
  - intros id rt err rt'. simpl. unfold example_delete. by case_match; intros [= _ <-].
Defined.

Definition example_loop (w : WorkloadNamed) (id : option nat) (rt : gset nat) :
    @ControlLoopState example_connector :=
  @build_control_loop_state example_connector w None ["run"] id [] rt.

Definition example_named (id config : string) (policy : RestartPolicy) : WorkloadNamed := {|
  instance_name := {| workload_name := "nginx"; agent_name := "agent_A"; instance_id := id |};
  workload := {|
    agent := "agent_A"; restart_policy := policy; dependencies := ∅; tags := ∅; Api.runtime := "podman";
    runtime_config := config; control_interface_access := control_interface_access workload_default;
    workload_configs := ∅; workload_files := [] |}
|}.

(** ** Properties *)



(** A retry that is still on its way when its workload is deleted, updated or
    created anew has no effect any more, no matter what happens in between. *)
Theorem stale_retry_ignored {RC : RuntimeConnector} events s e n t s' :
  loop_retries_wf s → (n, t) ∈ retry_sender s → voids_retries e →
  run (e :: events) s = Continue s' →
  loop_step (CommandReceived (Some (CommandRetry n (inc_counter t)))) s' = Continue s'.
Proof.
  intros [Hwf Hall] Hin He Hrun. rewrite Forall_forall in Hall.
  pose proof (stale_retry events s e t Hwf (Hall _ Hin) He) as Hv. rewrite Hrun in Hv.
  simpl in *. unfold retry_create_workload_on_runtime.
  change (is_valid (retry_manager s') (inc_counter t)) with (is_valid (retry_manager s') t).
  by rewrite Hv.
Qed.

Lemma stale_retry_ignored_witness :
  let RC := example_connector in
  let w := example_named "1" "broken" Never in
  let s := create_workload_on_runtime (new_retry_token (example_loop w None ∅)).1
             {| token_counter := 0; valid := 1 |} send_retry_for_workload in
  let update := CommandReceived (Some (CommandUpdate (Some w) None)) in
  loop_retries_wf s ∧ (instance_name w, {| token_counter := 0; valid := 1 |}) ∈ retry_sender s ∧
  match run [update] s with
  | Continue s' => loop_step (CommandReceived (Some (CommandRetry (instance_name w)
      (inc_counter {| token_counter := 0; valid := 1 |})))) s' = Continue s'
  | Return _ => False
  end.
Proof.
  intros RC w s update.
  assert (loop_retries_wf s) as Hwf.
  { split; [apply (retry_wf_new_token retry_manager_default), retry_wf_default|].
    apply Forall_singleton. simpl. lia. }
  assert ((instance_name w, {| token_counter := 0; valid := 1 |}) ∈ retry_sender s) as Hin by (left).
  split; [exact Hwf|]. split; [exact Hin|].
  destruct (run [update] s) as [s'|s'] eqn:Hrun.
  - exact (stale_retry_ignored [] s update _ _ s' Hwf Hin I Hrun).
  - discriminate Hrun.
Defined.

(** An update first reports that the old instance is being stopped. If its
    workload cannot be deleted, the failure is reported and the loop keeps
    everything as it was. Otherwise the old instance is reported removed before
    the new one is reported and created, with a fresh retry token, and the
    creation ends in one of three ways; without a new workload the loop stays
    without a workload. *)
Theorem update_workload_spec {RC : RuntimeConnector} s w p :
  (∀ err rt, deletion_fails s err rt →
     update_workload_on_runtime s w p =
     send_workload_state_to_agent (loop_instance_name s) (delete_failed (runtime_error_to_string err))
       (set_runtime rt (send_workload_state_to_agent (loop_instance_name s) stopping_requested s))) ∧
  ((∀ err rt, ¬ deletion_fails s err rt) →
     let s' := update_workload_on_runtime s w p in
     let sent := to_agent_workload_state_sender s ++
       [report (loop_instance_name s) stopping_requested; report (loop_instance_name s) removed] in
     match w with
     | None => workload_id s' = None ∧ to_agent_workload_state_sender s' = sent ∧
               workload_named s' = workload_named s
     | Some named =>
       workload_named s' = named ∧ control_interface_path s' = p ∧
       ∃ s1 t, token_counter t = 0%N ∧ is_valid (retry_manager s') t = true ∧
         loop_instance_name s1 = instance_name named ∧ workload_id s1 = None ∧
         to_agent_workload_state_sender s1 = sent ++ [report (instance_name named) starting_triggered] ∧
         creation_outcome s1 t s'
     end).
Proof.
  split.
  - intros err rt (id & Hid & Hdel). unfold update_workload_on_runtime. simpl. by rewrite Hid, Hdel.
  - intros Hok s' sent. destruct (update_deleted s w p Hok) as (s1 & Hs' & Hid & Hw & Hsent).
    subst s' sent. rewrite Hs'. destruct w as [named|]; [|done].
    destruct (create_new_outcome s1 named p) as (H1 & H2 & s2 & t & H3 & H4 & H5 & H6 & H7 & H8).
    split_and!; [done..|]. exists s2, t. rewrite H6, Hid, H7, Hsent. by split_and!.
Qed.

Lemma update_workload_spec_witness :
  let RC := example_connector in
  let s := example_loop (example_named "1" "ok" Never) (Some 0) {[0]} in
  deletion_fails s (RuntimeErrorDelete "busy") ({[0]} : gset nat) ∧
  workload_id (update_workload_on_runtime s (Some (example_named "2" "ok" Never)) None) = Some 0.
Proof.
  intros RC s.
  assert (deletion_fails s (RuntimeErrorDelete "busy") ({[0]} : gset nat)) as Hdel by (by exists 0).
  split; [exact Hdel|].
  rewrite (proj1 (update_workload_spec s (Some (example_named "2" "ok" Never)) None) _ _ Hdel).
  reflexivity.
Defined.
