(* ===== verification/CliCommand.v ===== *)
(** * Ankaios agent: commands of the container tools

    [agent/src/runtime_connectors/cli_command.rs]: a tool is started with its
    arguments, gets its input and is waited for.  The cache of the states that
    [podman ps] and [nerdctl ps] report, which [podman_cli.rs] and
    [nerdctl_cli.rs] both have, is defined here once; what it holds and how it
    is read from the tool are its parameters. *)

From Stdlib Require Import Ascii.
From stdpp Require Import base tactics numbers gmap strings list pretty.
From S2P Require Import Prelude Utf8 Api WorkloadFiles.

(** ** The host *)

(** What came of a process: it could not be started, its input could not be
    written, or it ended with a status and its output. *)
Inductive ProcessOutcome :=
  | SpawnFailed (err : string)
  | StdinFailed (err : string)
  | Finished (success : bool) (stdout stderr : string).

(** The operating system: it runs a program on the state of the host, tells the
    time in nanoseconds and prints a command. *)
Class Host (W : Type) := {
  run_process : string → list string → option string → W → ProcessOutcome * W;
  clock : W → N;
  command_debug : string → list string → string
}.

(** ** [CliCommand] *)

Record CliCommand := {
  program : string;
  args : list string;
  stdin : option string
}.

Definition get_quoted_args (c : CliCommand) : string :=
  join " " (in_quotes <$> args c).

Section cli_command.
Context {W : Type} `{Host W}.

Definition exec (c : CliCommand) : io W string string := λ w,
  let (outcome, w) := run_process (program c) (args c) (stdin c) w in
  (match outcome with
   | SpawnFailed err =>
     Err ("Error: '" +:+ err +:+ "'. Could not spawn command '" +:+
          command_debug (program c) (args c) +:+ "'.")
   | StdinFailed err => Err ("Could write stdin data to command: '" +:+ err +:+ "'")
   | Finished true stdout _ =>
     map_err (λ err, "Could not decode command's output as UTF8: '" +:+ err +:+ "'")
       (from_utf8 stdout)
   | Finished false _ stderr =>
     let stderr :=
       match from_utf8 stderr with
       | Ok s => s
       | Err err => "Could not decode command's stderr as UTF8: '" +:+ err +:+ "'"
       end in
     Err (trim stderr +:+ ". Execution of '" +:+ program c +:+ " " +:+ get_quoted_args c +:+ "'")
   end, w).
End cli_command.

(** [CliCommand::new(program).args(args).exec()], with and without input. *)
Definition run_tool {W} `{Host W} (program : string) (args : list string) : io W string string :=
  exec {| program := program; args := args; stdin := None |}.
Definition run_tool_with_input {W} `{Host W} (program : string) (args : list string) (input : string) :
    io W string string :=
  exec {| program := program; args := args; stdin := Some input |}.

(** ** The cached result of [ps] *)

(** [PODMAN_PS_CACHE_MAX_AGE] and [NERDCTL_PS_CACHE_MAX_AGE]: a second. *)
Definition PS_CACHE_MAX_AGE : N := 1000 * 1000000.

Record PsCache (R : Type) := { last_update : N; cache : R }.
Arguments last_update {R} _.
Arguments cache {R} _.

(** The host together with the static variable that holds the cache. *)
Record Cached (W R : Type) := { host : W; last_ps_result : option (PsCache R) }.
Arguments host {W R} _.
Arguments last_ps_result {W R} _.

Section ps_cache.
Context {W R E Info : Type} `{Host W}.
Variable list_states_internal : io W E Info.
Variable ps_result_from : result E Info → R.

(** A computation on the host in the presence of the cache. *)
Definition on_host {A F} (m : io W F A) : io (Cached W R) F A := λ s,
  let (r, w) := m (host s) in (r, {| host := w; last_ps_result := last_ps_result s |}).

Definition reset_ps_cache (s : Cached W R) : Cached W R :=
  {| host := host s; last_ps_result := None |}.

(** The tool is asked a second time when it fails. *)
Definition new_inner (w : W) : PsCache R * W :=
  let (res, w) := list_states_internal w in
  let (res, w) := if is_ok res then (res, w) else list_states_internal w in
  ({| last_update := clock w; cache := ps_result_from res |}, w).

Definition elapsed (c : PsCache R) (w : W) : N := clock w - last_update c.

Definition get_ps_result (s : Cached W R) : R * Cached W R :=
  match last_ps_result s with
  | Some value =>
    if (PS_CACHE_MAX_AGE <? elapsed value (host s))%N then
      let (value, w) := new_inner (host s) in
      (cache value, {| host := w; last_ps_result := Some value |})
    else (cache value, s)
  | None =>
    let (value, w) := new_inner (host s) in
    (cache value, {| host := w; last_ps_result := Some value |})
  end.
End ps_cache.

(** ** Freshness *)

Section freshness.
Context {W R E Info : Type} `{Host W}.
Variable list_states_internal : io W E Info.
Variable ps_result_from : result E Info → R.

(** The cache holds what the tool reported, and when. *)
Definition sampled (c : PsCache R) : Prop :=
  ∃ w r w', list_states_internal w = (r, w') ∧
    cache c = ps_result_from r ∧ last_update c = clock w'.

Definition cache_sampled (s : Cached W R) : Prop :=
  ∀ c, last_ps_result s = Some c → sampled c.

Lemma new_inner_sampled w :
  sampled (new_inner list_states_internal ps_result_from w).1 ∧
  elapsed (new_inner list_states_internal ps_result_from w).1
          (new_inner list_states_internal ps_result_from w).2 = 0%N.
Proof.
  unfold new_inner, elapsed. destruct (list_states_internal w) as [r w1] eqn:H1.
  destruct (is_ok r); [|destruct (list_states_internal w1) as [r' w2] eqn:H2]; simpl.
  - split; [by exists w, r, w1|lia].
  - split; [by exists w1, r', w2|lia].
Qed.

(** What is read from the cache was reported by the tool at most a second ago. *)
Lemma get_ps_result_fresh s :
  cache_sampled s →
  ∃ c s', get_ps_result list_states_internal ps_result_from s = (cache c, s') ∧
    last_ps_result s' = Some c ∧ sampled c ∧ (elapsed c (host s') ≤ PS_CACHE_MAX_AGE)%N.
Proof.
  intros Hs. unfold get_ps_result.
  destruct (new_inner_sampled (host s)) as [Hnew Hage].
  destruct (new_inner list_states_internal ps_result_from (host s)) as [c w]. simpl in *.
  assert (elapsed c w ≤ PS_CACHE_MAX_AGE)%N as Hfresh by (rewrite Hage; apply N.le_0_l).
  destruct (last_ps_result s) as [c0|] eqn:Hc; [|by exists c; eexists].
  destruct (N.ltb_spec PS_CACHE_MAX_AGE (elapsed c0 (host s))) as [_|Hold]; [by exists c; eexists|].
  exists c0, s. auto.
Qed.

Lemma get_ps_result_cache_sampled s :
  cache_sampled s → cache_sampled (get_ps_result list_states_internal ps_result_from s).2.
Proof.
  intros Hs. destruct (get_ps_result_fresh s Hs) as (c & s' & -> & Hc & Hsampled & _).
  intros c' Hc'. simpl in Hc'. by simplify_eq.
Qed.

Lemma reset_ps_cache_sampled s : cache_sampled (reset_ps_cache s).
Proof. done. Qed.
End freshness.

(** ** Running and starting a container

    The structures and the arguments that [podman_cli.rs] and [nerdctl_cli.rs]
    have in common. *)

Definition API_PIPES_MOUNT_POINT : string := "/run/ankaios/control_interface".

Record RunConfig := {
  general_options : list string;
  command_options : list string;
  image : string;
  command_args : list string
}.

Record StartConfig := {
  start_general_options : list string;
  container_id : string
}.

(** [Path::to_string_lossy] of an absolute path. *)
Definition path_text (p : path) : string :=
  match p with [] => "/" | _ => String.concat "" ((λ part, "/" +:+ part) <$> p) end.

Section arguments.
Context `{IterOrder}.

Definition run_arguments (run_config : RunConfig) (workload_name agent : string)
    (control_interface_path : option path) (workload_file_path_mappings : gmap path string) :
    list string :=
  general_options run_config ++ ["run"; "--detach"] ++ ["--name"; workload_name] ++
  command_options run_config ++
  match control_interface_path with
  | Some p =>
    ["--mount=type=bind,source=" +:+ path_text p +:+ ",destination=" +:+ API_PIPES_MOUNT_POINT]
  | None => []
  end ++
  ((λ m : path * string, "--mount=type=bind,source=" +:+ path_text m.1 +:+ ",destination=" +:+
     m.2 +:+ ",readonly=true") <$> map_iter workload_file_path_mappings) ++
  ["--label=name=" +:+ workload_name; "--label=agent=" +:+ agent; image run_config] ++
  command_args run_config.

Definition start_arguments (start_config : StartConfig) : list string :=
  start_general_options start_config ++ ["start"; container_id start_config].
End arguments.
