(* ===== verification/PodmanCli.v ===== *)
(** * Ankaios agent: podman

    [agent/src/runtime_connectors/podman_cli.rs]: the calls of the [podman]
    command and the evaluation of its output.  The command itself, the JSON
    decoder and Base64 are parameters. *)

From Stdlib Require Import Ascii.
From stdpp Require Import base tactics numbers gmap strings list pretty.
From S2P Require Import Prelude Utf8 Api WorkloadFiles CliCommand.

Definition PODMAN_CMD : string := "podman".

(** ** What [podman ps] reports *)

Record PodmanContainerInfo := {
  container_state : string;
  exit_code : N;
  labels : gmap string string;
  container_info_id : string;
  pod : string
}.

(** The entry as it stands in the JSON document, where some fields can be null. *)
Record ContainerInfoJson := {
  json_state : string;
  json_exit_code : N;
  json_labels : option (gmap string string);
  json_id : option string;
  json_pod : option string
}.

Definition nullable_labels {V} (default_value : V) (opt : option V) : V := default default_value opt.

Definition container_info_from_json (j : ContainerInfoJson) : PodmanContainerInfo := {|
  container_state := json_state j;
  exit_code := json_exit_code j;
  labels := nullable_labels ∅ (json_labels j);
  container_info_id := nullable_labels "" (json_id j);
  pod := nullable_labels "" (json_pod j)
|}.

(** A volume, of which only the label [data] is read. *)
Record Volume := { volume_data : string }.

(** [serde_json::from_str] and the [base64] crate without padding. *)
Class PodmanDecoder := {
  containers_from_json : string → result string (list ContainerInfoJson);
  volumes_from_json : string → result string (list Volume);
  base64_no_pad_encode : string → string;
  base64_no_pad_decode : string → result string string
}.

(** ** States *)

Inductive ContainerState :=
  | CStarting | CExited (code : N) | CPaused | CRunning | CUnknown | CStopping.

#[export] Instance ContainerState_eq_dec : EqDecision ContainerState.
Proof. solve_decision. Defined.

Definition container_state_from (value : PodmanContainerInfo) : ContainerState :=
  match to_lowercase (container_state value) with
  | "created" | "configured" | "initialized" => CStarting
  | "exited" => CExited (exit_code value)
  | "paused" => CPaused
  | "running" => CRunning
  | "stopping" | "stopped" | "removing" => CStopping
  | "unknown" => CUnknown
  | _ => CUnknown
  end.

Definition execution_state_from (value : PodmanContainerInfo) : ExecutionStateSpec :=
  match to_lowercase (container_state value) with
  | "created" | "configured" | "initialized" => starting (container_state value)
  | "exited" =>
    if (exit_code value =? 0)%N then succeeded
    else failed ("Exit code: '" +:+ pretty (exit_code value) +:+ "'")
  | "running" => running
  | "stopping" | "stopped" | "removing" => stopping (container_state value)
  | "unknown" => unknown (container_state value)
  | state => unknown state
  end.

(** ** The cached result of [podman ps] *)

Record PodmanPsResult := {
  container_states : result string (gmap string ExecutionStateSpec);
  pod_states : result string (gmap string (list ContainerState))
}.

Definition add_container (states : gmap string ExecutionStateSpec * gmap string (list ContainerState))
    (container_entry : PodmanContainerInfo) :
    gmap string ExecutionStateSpec * gmap string (list ContainerState) :=
  (<[container_info_id container_entry := execution_state_from container_entry]> states.1,
   <[pod container_entry :=
       default [] (states.2 !! pod container_entry) ++ [container_state_from container_entry]]>
     states.2).

Definition podman_ps_result_from (value : result string (list PodmanContainerInfo)) :
    PodmanPsResult :=
  match value with
  | Ok container_infos =>
    let states := foldl add_container (∅, ∅) container_infos in
    {| container_states := Ok states.1; pod_states := Ok states.2 |}
  | Err err => {| container_states := Err err; pod_states := Err err |}
  end.

Section podman_cli.
Context {W : Type} `{Host W, PodmanDecoder, IterOrder}.

Abbreviation PodmanHost := (Cached W PodmanPsResult).

Definition podman (args : list string) : io PodmanHost string string :=
  on_host (run_tool PODMAN_CMD args).

(** The containers a [ps] prints. *)
Definition decode_containers (output : string) : result string (list PodmanContainerInfo) :=
  map container_info_from_json <$> containers_from_json output.

Definition podman_list_states_internal : io W string (list PodmanContainerInfo) :=
  output ← run_tool PODMAN_CMD ["ps"; "--all"; "--format=json"];
  io_of (map_err (λ err, "Could not parse podman output:" +:+ err) (decode_containers output)).

Definition podman_reset_ps_cache : PodmanHost → PodmanHost := reset_ps_cache.

Definition podman_get_ps_result : PodmanHost → PodmanPsResult * PodmanHost :=
  get_ps_result podman_list_states_internal podman_ps_result_from.

Definition podman_list_states_by_id (workload_id : string) :
    io PodmanHost string (option ExecutionStateSpec) := λ s,
  let (ps_result, s) := podman_get_ps_result s in
  (match container_states ps_result with
   | Ok all_containers_states => Ok (all_containers_states !! workload_id)
   | Err err => Err err
   end, s).

Definition list_states_from_pods (pods : list string) : io PodmanHost string (list ContainerState) := λ s,
  let (ps_result, s) := podman_get_ps_result s in
  (match pod_states ps_result with
   | Ok all_pod_states => Ok (pods ≫= λ key, default [CUnknown] (all_pod_states !! key))
   | Err err => Err err
   end, s).

(** ** Containers by their labels *)

Definition label_filter (key value : string) : string := "label=" +:+ key +:+ "=" +:+ value.

Definition podman_list_by_label (key value : string) : io PodmanHost string (list PodmanContainerInfo) :=
  output ← podman ["ps"; "--all"; "--filter"; label_filter key value; "--format=json"];
  io_of (map_err (λ err, "Could not parse podman output: '" +:+ err +:+ "'")
           (decode_containers output)).

Definition podman_list_container_ids_by_label (key value : string) :
    io PodmanHost string (list string) :=
  res ← podman_list_by_label key value;
  mret (container_info_id <$> res).

Definition podman_list_workload_names_by_label (key value : string) :
    io PodmanHost string (list string) :=
  res ← podman_list_by_label key value;
  mret (omap (λ podman_info, labels podman_info !! "name") res).

(** ** Containers *)

Definition podman_run (run_config : RunConfig) (workload_name agent : string)
    (control_interface_path : option path) (workload_file_path_mappings : gmap path string) :
    io PodmanHost string string :=
  output ← podman (run_arguments run_config workload_name agent control_interface_path
                     workload_file_path_mappings);
  mret (trim output).

Definition podman_start (start_config : StartConfig) (workload_name : string) :
    io PodmanHost string string :=
  output ← podman (start_arguments start_config);
  mret (trim output).

Definition podman_remove_workloads_by_id (workload_id : string) : io PodmanHost string () :=
  _ ← podman ["stop"; "--ignore"; workload_id];
  _ ← podman ["rm"; "--ignore"; workload_id];
  mret ().

(** ** Pods *)

Definition pod_line (state : list string * bool) (line : string) : list string * bool :=
  let (res, is_pod) := state in
  let line := trim line in
  if String.eqb line "Pod:" then (res, true)
  else if ends_with ":" line then (res, false)
  else if is_pod && negb (str_is_empty line) then (res ++ [line], is_pod)
  else (res, is_pod).

Definition parse_pods_from_output (input : string) : list string :=
  (foldl pod_line ([], false) (split_on "010" input)).1.

Definition play_kube (general_options play_options : list string) (kube_yml : string) :
    io PodmanHost string (list string) :=
  output ← on_host (run_tool_with_input PODMAN_CMD
    (general_options ++ ["kube"; "play"; "--quiet"] ++ play_options ++ ["-"]) kube_yml);
  mret (parse_pods_from_output output).

Definition down_kube (down_options : list string) (kube_yml : string) : io PodmanHost string () :=
  _ ← on_host (run_tool_with_input PODMAN_CMD (["kube"; "down"] ++ down_options ++ ["-"]) kube_yml);
  mret ().

(** ** Volumes *)

Definition list_volumes_by_name (name : string) : io PodmanHost string (list string) :=
  output ← podman ["volume"; "ls"; "--filter"; "name=" +:+ name; "--format={{.Name}}"];
  mret (filter (λ x, str_is_empty x = false) (trim <$> split_on "010" output)).

Definition remove_volume (volume_name : string) : io PodmanHost string () :=
  _ ← podman ["volume"; "rm"; volume_name];
  mret ().

Definition store_data_as_volume (volume_name data : string) : io PodmanHost string () := λ s,
  let (_, s) := remove_volume volume_name s in
  (_ ← podman ["volume"; "create"; "--label=data=" +:+ base64_no_pad_encode data; volume_name];
   mret ()) s.

Definition volume_text (output : string) : result string string :=
  res ← map_err (λ err, "Could not decoded volume information as JSON: " +:+ err)
          (volumes_from_json output);
  volume ← match head res with Some volume => Ok volume | None => Err "No volume returned" end;
  res ← map_err (λ err, "Could not base64 decoded volume's data label: " +:+ err)
          (base64_no_pad_decode (volume_data volume));
  map_err (λ err, "Could not decode data stored in volume: " +:+ err) (from_utf8 res).

Definition read_data_from_volume (volume_name : string) : io PodmanHost string string :=
  output ← podman ["volume"; "inspect"; volume_name];
  io_of (volume_text output).
End podman_cli.

(** ** What the cached result says *)

(** The last entry with an id, and the entries of a pod. *)
Definition info_by_id (id : string) (infos : list PodmanContainerInfo) : option PodmanContainerInfo :=
  last (filter (λ i, container_info_id i = id) infos).
Definition infos_of_pod (p : string) (infos : list PodmanContainerInfo) : list PodmanContainerInfo :=
  filter (λ i, pod i = p) infos.

Lemma add_container_states infos id :
  (foldl add_container (∅, ∅) infos).1 !! id = execution_state_from <$> info_by_id id infos.
Proof.
  unfold info_by_id. induction infos as [|i infos IH] using rev_ind; [done|].
  rewrite foldl_app, filter_app, filter_cons, filter_nil. simpl. case_decide as Hi.
  - subst. by rewrite lookup_insert_eq, last_snoc.
  - rewrite lookup_insert_ne by done. by rewrite app_nil_r.
Qed.

Lemma add_container_pods infos p :
  (foldl add_container (∅, ∅) infos).2 !! p =
  match infos_of_pod p infos with
  | [] => None
  | l => Some (container_state_from <$> l)
  end.
Proof.
  unfold infos_of_pod. induction infos as [|i infos IH] using rev_ind; [done|].
  rewrite foldl_app, filter_app, filter_cons, filter_nil. simpl. case_decide as Hi.
  - subst p. rewrite lookup_insert_eq, IH.
    destruct (filter _ infos) as [|j l]; simpl; [done|]. by rewrite fmap_app.
  - rewrite lookup_insert_ne by done. by rewrite app_nil_r.
Qed.

(** ** States of containers and pods *)

Section podman_states.
Context {W : Type} `{Host W, PodmanDecoder, IterOrder}.

(** A [podman ps] that ended at most a second before the host's present time. *)
Definition recent_ps (infos : result string (list PodmanContainerInfo)) (w : W) : Prop :=
  ∃ w0 w1, podman_list_states_internal w0 = (infos, w1) ∧ (clock w - clock w1 ≤ PS_CACHE_MAX_AGE)%N.

Definition podman_cache_sampled : Cached W PodmanPsResult → Prop :=
  cache_sampled podman_list_states_internal podman_ps_result_from.

Lemma podman_get_ps_result_recent s :
  podman_cache_sampled s →
  ∃ infos s', podman_get_ps_result s = (podman_ps_result_from infos, s') ∧
    recent_ps infos (host s') ∧ podman_cache_sampled s'.
Proof.
  intros Hs. destruct (get_ps_result_fresh _ _ _ Hs) as (c & s' & Hget & Hc & Hsampled & Hage).
  destruct Hsampled as (w & r & w' & Hr & Hcache & Htime).
  exists r, s'. unfold podman_get_ps_result. rewrite Hget, Hcache. split; [done|].
  split; [exists w, w'; split; [done|]; by rewrite <-Htime|].
  intros c' Hc'. simplify_eq. by exists w, r, w'.
Qed.

(** The states podman reports.  The state of a container and the states
    of the containers of a list of pods are read from a [podman ps] that ended
    at most a second ago: the state of the last entry with the id, the states
    of the entries of each pod in order, and an unknown state for a pod without
    a container; a failed [ps] is the error. *)
Theorem podman_states_recent s :
  podman_cache_sampled s →
  (∀ id, ∃ infos s', podman_list_states_by_id id s =
     (match infos with
      | Ok infos => Ok (execution_state_from <$> info_by_id id infos)
      | Err err => Err err
      end, s') ∧ recent_ps infos (host s') ∧ podman_cache_sampled s') ∧
  (∀ pods, ∃ infos s', list_states_from_pods pods s =
     (match infos with
      | Ok infos =>
        Ok (pods ≫= λ p, match infos_of_pod p infos with
                         | [] => [CUnknown]
                         | l => container_state_from <$> l
                         end)
      | Err err => Err err
      end, s') ∧ recent_ps infos (host s') ∧ podman_cache_sampled s').
Proof.
  intros Hs. destruct (podman_get_ps_result_recent s Hs) as (infos & s' & Hget & Hrecent & Hs').
  split; [intros id|intros pods]; exists infos, s'; (split; [|done]).
  - unfold podman_list_states_by_id. rewrite Hget. destruct infos as [infos|err]; simpl; [|done].
    by rewrite add_container_states.
  - unfold list_states_from_pods. rewrite Hget. destruct infos as [infos|err]; cbn [podman_ps_result_from pod_states]; [|done].
    do 2 f_equal. apply list_bind_ext; [|done]. intros p. rewrite add_container_pods.
    by destruct (infos_of_pod p infos).
Qed.
End podman_states.

(** ** Volumes *)

(** What podman documents about volumes: creation with a label, and the label
    in the output of the inspection; and the two directions of Base64. *)
Class VolumeLaws (W : Type) `{Host W, PodmanDecoder} := {
  volumes : W → gmap string string;
  volume_create name data w out err w' :
    run_process PODMAN_CMD ["volume"; "create"; "--label=data=" +:+ data; name] None w =
      (Finished true out err, w') →
    volumes w' !! name = Some data;
  volume_inspect name data w out err w' :
    run_process PODMAN_CMD ["volume"; "inspect"; name] None w = (Finished true out err, w') →
    volumes w !! name = Some data →
    from_utf8 out = Ok out ∧ volumes_from_json out = Ok [{| volume_data := data |}];
  base64_no_pad_roundtrip data : base64_no_pad_decode (base64_no_pad_encode data) = Ok data
}.

Section volumes.
Context {W : Type} `{VL : VolumeLaws W}.

Lemma run_tool_ok args (w : W) out w' :
  run_tool PODMAN_CMD args w = (Ok out, w') →
  ∃ err, run_process PODMAN_CMD args None w = (Finished true out err, w').
Proof.
  unfold run_tool, exec. simpl.
  destruct (run_process PODMAN_CMD args None w) as [[e|e|[|] o err] w1]; try done.
  destruct (from_utf8 o) as [s|e] eqn:Ho; simpl; [|done]. intros [= <- <-].
  destruct (from_utf8_lossy_valid _ _ Ho) as [-> _]. by exists err.
Qed.

Lemma store_data_as_volume_ok name data (s s' : Cached W PodmanPsResult) :
  store_data_as_volume name data s = (Ok (), s') →
  volumes (host s') !! name = Some (base64_no_pad_encode data).
Proof.
  unfold store_data_as_volume. destruct (remove_volume name s) as [r s1].
  cbv [mbind io_bind podman on_host mret io_ret].
  destruct (run_tool PODMAN_CMD _ (host s1)) as [[out|e] w] eqn:Hrun; [|done].
  intros [= <-]. simpl. destruct (run_tool_ok _ _ _ _ Hrun) as [err Hproc].
  exact (volume_create _ _ _ _ _ _ Hproc).
Qed.

(** Data kept in a volume.  What was stored under a name is read back
    unchanged once podman inspects the volume, provided that it is valid
    UTF-8, as every Rust string is. *)
Theorem volume_roundtrip name data (s s1 : Cached W PodmanPsResult) :
  from_utf8 data = Ok data →
  store_data_as_volume name data s = (Ok (), s1) →
  (∀ out err w2,
     run_process PODMAN_CMD ["volume"; "inspect"; name] None (host s1) = (Finished true out err, w2) →
     read_data_from_volume name s1 =
       (Ok data, {| host := w2; last_ps_result := last_ps_result s1 |})) ∧
  (∀ d s2, read_data_from_volume name s1 = (Ok d, s2) → d = data).
Proof.
  intros Hutf Hstore. pose proof (store_data_as_volume_ok _ _ _ _ Hstore) as Hvol.
  assert (∀ out err w2,
    run_process PODMAN_CMD ["volume"; "inspect"; name] None (host s1) = (Finished true out err, w2) →
    read_data_from_volume name s1 =
      (Ok data, {| host := w2; last_ps_result := last_ps_result s1 |})) as Hread.
  { intros out err w2 Hproc. destruct (volume_inspect _ _ _ _ _ _ Hproc Hvol) as [Hout Hjson].
    cbv [read_data_from_volume mbind io_bind podman on_host run_tool exec io_of program args stdin].
    rewrite Hproc, Hout. simpl. unfold volume_text. rewrite Hjson. simpl.
    by rewrite base64_no_pad_roundtrip; simpl; rewrite Hutf. }
  split; [done|]. intros d s2 Hd.
  destruct (run_tool PODMAN_CMD ["volume"; "inspect"; name] (host s1)) as [[out|e] w2] eqn:Hrun.
  - destruct (run_tool_ok _ _ _ _ Hrun) as [err Hproc]. rewrite (Hread _ _ _ Hproc) in Hd.
    by simplify_eq.
  - cbv [read_data_from_volume mbind io_bind podman on_host] in Hd. by rewrite Hrun in Hd.
Qed.
End volumes.

(** ** A podman that satisfies the laws *)

Section examples.

(** The volumes with their data; [ps] prints one container. *)
Definition example_process (program : string) (args : list string) (stdin : option string)
    (w : gmap string string) : ProcessOutcome * gmap string string :=
  match args with
  | ["volume"; "create"; label; name] =>
    (Finished true name "", <[name := str_drop 13 label]> w)
  | ["volume"; "rm"; name] => (Finished true name "", delete name w)
  | ["volume"; "inspect"; name] =>
    match w !! name with
    | Some data => (if is_ok (from_utf8 data) then Finished true data "" else Finished false "" "", w)
    | None => (Finished false "" "no such volume", w)
    end
  | ["ps"; "--all"; "--format=json"] => (Finished true "containers" "", w)
  | _ => (Finished false "" "unknown command", w)
  end.

Definition example_host : Host (gmap string string) :=
  {| run_process := example_process; clock := λ _, 0%N; command_debug := λ p _, p |}.

Definition example_json : ContainerInfoJson :=
  {| json_state := "Exited"; json_exit_code := 1; json_labels := None; json_id := Some "id1";
     json_pod := Some "pod1" |}.

Definition example_decoder : PodmanDecoder := {|
  containers_from_json := λ _, Ok [example_json];
  volumes_from_json := λ s, Ok [{| volume_data := s |}];
  base64_no_pad_encode := λ s, s;
  base64_no_pad_decode := Ok
|}.

#[local] Existing Instance example_host.
#[local] Existing Instance example_decoder.

Program Definition example_volume_laws : VolumeLaws (gmap string string) :=
  {| volumes := λ w, w |}.
Next Obligation.
  intros name data w out err w'. cbn [run_process example_host example_process]. intros [= <- <- <-].
  by rewrite lookup_insert_eq.
Qed.
Next Obligation.
  intros name data w out err w'. cbn [run_process example_host example_process].
  intros Hproc Hdata. rewrite Hdata in Hproc.
  destruct (from_utf8 data) as [s|] eqn:Hutf; [|done]. simpl in Hproc.
  destruct (from_utf8_lossy_valid _ _ Hutf) as [-> _]. by simplify_eq.
Qed.
Next Obligation. done. Qed.

#[local] Existing Instance example_volume_laws.

Definition example_state : Cached (gmap string string) PodmanPsResult :=
  {| host := ∅; last_ps_result := None |}.

Lemma volume_roundtrip_witness :
  (read_data_from_volume "v" (store_data_as_volume "v" "data" example_state).2).1 = Ok "data".
Proof.
  destruct (volume_roundtrip "v" "data" example_state (store_data_as_volume "v" "data" example_state).2)
    as [Hread _].
  - reflexivity.
  - vm_compute. reflexivity.
  - rewrite (Hread "data" "" {["v" := "data"]}); [reflexivity|vm_compute; reflexivity].
Defined.

Lemma podman_states_recent_witness :
  ∃ infos s', podman_list_states_by_id "id1" example_state =
    (match infos with
     | Ok infos => Ok (execution_state_from <$> info_by_id "id1" infos)
     | Err err => Err err
     end, s') ∧ recent_ps infos (host s') ∧ podman_cache_sampled s'.
Proof.
  destruct (podman_states_recent example_state) as [Hstates _]; [intros c Hc; discriminate Hc|].
  exact (Hstates "id1").
Defined.
End examples.
