(* ===== verification/LogFetching.v ===== *)
(** * Ankaios agent: log fetching

    [agent/src/runtime_connectors/log_fetching/]: the output streams of a
    [logs] command are read in chunks and cut into lines, both streams of a
    workload are merged, and a task forwards the lines to the collector of the
    agent.

    A stream is the list of the results its reads will give. Which stream makes
    progress next is an input, so the theorems hold for every interleaving. *)

From Stdlib Require Import Ascii.
From stdpp Require Import base tactics numbers strings list pretty.
From S2P Require Import Prelude Utf8 Api WorkloadFiles RetryManager ControlLoop.

(** ** The commands that are read ([podman_log_fetcher.rs], [containerd_log_fetcher.rs]) *)

Definition log_arguments (id : string) (options : LogRequestOptions) : list string :=
  ["logs"] ++
  (if follow_option options then ["-f"] else []) ++
  match since_option options with Some since => ["--since"; since] | None => [] end ++
  match until_option options with Some until => ["--until"; until] | None => [] end ++
  match tail_option options with Some tail => ["--tail"; pretty tail] | None => [] end ++
  [id].

(** ** One stream ([GenericSingleLogFetcher]) *)

Definition LINE_FEED : ascii := "010".
Definition LOG_SIZE_LIMIT_MB : N := 50.

(** What a read gives: bytes, none at the end of the stream, or an error. *)
Inductive ReadResult := ReadData (chunk : string) | ReadError.

Record GenericSingleLogFetcher := {
  reader : list ReadResult;
  limit_exceeded : bool;
  read_data : string
}.

Definition single_log_fetcher_new (read : list ReadResult) : GenericSingleLogFetcher :=
  {| reader := read; limit_exceeded := false; read_data := "" |}.

Definition convert_to_string (v : string) : string :=
  match from_utf8 v with
  | Ok res => res
  | Err _ => from_utf8_lossy v
  end.

(** The loop that takes the lines out of the data; the bytes before
    [start_byte] are not searched. *)
Fixpoint take_lines (fuel start_byte : nat) (data : string) : option (list string * string) :=
  match str_find LINE_FEED (str_drop start_byte data) with
  | None => Some ([], data)
  | Some pos =>
    match fuel with
    | 0 => None
    | S fuel =>
      let line := str_pop (convert_to_string (str_take (start_byte + pos + 1) data)) in
      '(res, data) ← take_lines fuel 0 (str_drop (start_byte + pos + 1) data);
      Some (line :: res, data)
    end
  end.

(** The lines a future gives, [Pending] while it waits for the next read. *)
Inductive Poll (A : Type) := Pending | Returns (a : A).
Arguments Pending {A}.
Arguments Returns {A} a.

Definition limit_message : string :=
  "The previous log message exceeded the maximum " +:+ pretty LOG_SIZE_LIMIT_MB +:+
  " MB size. Closing the log campaign.".

Definition exceeds_limit (data : string) : bool :=
  (LOG_SIZE_LIMIT_MB * 1024 * 1024 <? N.of_nat (String.length data))%N.

(** [next_lines] up to its next read; [None] stands for a loop that runs out of
    fuel, which it never does ([poll_single_total]). *)
Definition poll_single (f : GenericSingleLogFetcher) :
    option (Poll (option (list string)) * GenericSingleLogFetcher) :=
  if limit_exceeded f then Some (Returns None, f)
  else
    let start_byte := String.length (read_data f) in
    let rest := tail (reader f) in
    match head (reader f) with
    | None | Some (ReadData "") =>
      if start_byte =? 0 then
        Some (Returns None, {| reader := rest; limit_exceeded := false; read_data := "" |})
      else
        Some (Returns (Some [convert_to_string (read_data f)]),
              {| reader := rest; limit_exceeded := false; read_data := "" |})
    | Some ReadError =>
      Some (Returns None, {| reader := rest; limit_exceeded := false; read_data := read_data f |})
    | Some (ReadData chunk) =>
      let data := read_data f +:+ chunk in
      if exceeds_limit data then
        Some (Returns (Some [limit_message]),
              {| reader := rest; limit_exceeded := true; read_data := "" |})
      else
        '(res, data) ← take_lines (String.length data) start_byte data;
        Some (match res with [] => Pending | _ => Returns (Some res) end,
              {| reader := rest; limit_exceeded := false; read_data := data |})
    end.

(** ** Both streams ([GenericLogFetcher]) *)

Inductive NextLinesResult :=
  | Stdout (lines : list string)
  | Stderr (lines : list string)
  | EoF.

Inductive Stream := OfStdout | OfStderr.

Record GenericLogFetcher := {
  stdout : option GenericSingleLogFetcher;
  stderr : option GenericSingleLogFetcher
}.

(** [GenericLogFetcher::new], with the streams of the child process. *)
Definition generic_log_fetcher_new (out err : option (list ReadResult)) : GenericLogFetcher :=
  {| stdout := single_log_fetcher_new <$> out; stderr := single_log_fetcher_new <$> err |}.

(** The loop of [next_lines] up to the next read of the stream that makes
    progress.  A stream that is closed makes none. *)
Definition poll_fetcher (progress : Stream) (f : GenericLogFetcher) :
    option (Poll NextLinesResult * GenericLogFetcher) :=
  match stdout f, stderr f, progress with
  | Some out, Some err, OfStdout =>
    '(lines, out) ← poll_single out;
    Some match lines with
         | Returns (Some lines) => (Returns (Stdout lines), {| stdout := Some out; stderr := Some err |})
         | Returns None => (Pending, {| stdout := None; stderr := Some err |})
         | Pending => (Pending, {| stdout := Some out; stderr := Some err |})
         end
  | Some out, Some err, OfStderr =>
    '(lines, err) ← poll_single err;
    Some match lines with
         | Returns (Some lines) => (Returns (Stderr lines), {| stdout := Some out; stderr := Some err |})
         | Returns None => (Pending, {| stdout := Some out; stderr := None |})
         | Pending => (Pending, {| stdout := Some out; stderr := Some err |})
         end
  | Some out, None, OfStdout =>
    '(lines, out) ← poll_single out;
    let f := {| stdout := Some out; stderr := None |} in
    Some match lines with
         | Returns (Some lines) => (Returns (Stdout lines), f)
         | Returns None => (Returns EoF, f)
         | Pending => (Pending, f)
         end
  | None, Some err, OfStderr =>
    '(lines, err) ← poll_single err;
    let f := {| stdout := None; stderr := Some err |} in
    Some match lines with
         | Returns (Some lines) => (Returns (Stderr lines), f)
         | Returns None => (Returns EoF, f)
         | Pending => (Pending, f)
         end
  | None, None, _ => Some (Returns EoF, f)
  | Some _, None, OfStderr | None, Some _, OfStdout => Some (Pending, f)
  end.

(** ** The task that forwards the lines ([log_fetcher::run], [log_channel]) *)

(** The receiver is dropped when the log campaign ends; the task then either
    notices it or fails to send. *)
Inductive LogEvent := Progress (s : Stream) | DropReceiver | NoticeDrop.

Record LogTask := {
  log_fetcher : GenericLogFetcher;
  log_lines_sent : list NextLinesResult;
  receiver_dropped : bool;
  task_ended : bool
}.

Definition log_task_new (f : GenericLogFetcher) : LogTask :=
  {| log_fetcher := f; log_lines_sent := []; receiver_dropped := false; task_ended := false |}.

Definition end_task (t : LogTask) : LogTask :=
  {| log_fetcher := log_fetcher t; log_lines_sent := log_lines_sent t;
     receiver_dropped := receiver_dropped t; task_ended := true |}.

(** [sender.send_log_lines] and the handling of its result. *)
Definition forward_lines (r : NextLinesResult) (t : LogTask) : LogTask :=
  if receiver_dropped t then end_task t
  else {| log_fetcher := log_fetcher t; log_lines_sent := log_lines_sent t ++ [r];
          receiver_dropped := receiver_dropped t; task_ended := task_ended t |}.

Definition log_task_step (e : LogEvent) (t : LogTask) : option LogTask :=
  if task_ended t then Some t
  else
    match e with
    | Progress s =>
      '(lines, f) ← poll_fetcher s (log_fetcher t);
      let t := {| log_fetcher := f; log_lines_sent := log_lines_sent t;
                  receiver_dropped := receiver_dropped t; task_ended := task_ended t |} in
      Some match lines with
           | Pending => t
           | Returns EoF => end_task t
           | Returns r => forward_lines r t
           end
    | DropReceiver =>
      Some {| log_fetcher := log_fetcher t; log_lines_sent := log_lines_sent t;
              receiver_dropped := true; task_ended := task_ended t |}
    | NoticeDrop => Some (if receiver_dropped t then end_task t else t)
    end.

Fixpoint run_log_task (events : list LogEvent) (t : LogTask) : option LogTask :=
  match events with
  | [] => Some t
  | e :: events => t ← log_task_step e t; run_log_task events t
  end.

(** ** The lines of a text

    The reference: a text is cut at its line feeds; what follows the last one
    is a line of its own unless it is empty. *)

Definition complete_lines (s : string) : list string := removelast (split_on LINE_FEED s).
Definition pending_line (s : string) : string := List.last (split_on LINE_FEED s) "".

Definition text_lines (s : string) : list string :=
  (convert_to_string <$> complete_lines s) ++
  (if str_is_empty (pending_line s) then [] else [convert_to_string (pending_line s)]).

Lemma convert_to_string_lossy s : convert_to_string s = from_utf8_lossy s.
Proof.
  unfold convert_to_string. destruct (from_utf8 s) as [t|] eqn:Hs; [|done].
  by destruct (from_utf8_lossy_valid _ _ Hs) as [-> ->].
Qed.

Lemma convert_line s :
  str_pop (convert_to_string (s +:+ String LINE_FEED "")) = convert_to_string s.
Proof.
  rewrite !convert_to_string_lossy, from_utf8_lossy_app by done. apply str_pop_app.
Qed.

Lemma split_on_lines s : split_on LINE_FEED s = complete_lines s ++ [pending_line s].
Proof. apply app_removelast_last, split_on_not_nil. Qed.

(** Splitting goes on from the last part. *)
Lemma split_on_app c s t :
  split_on c (s +:+ t) =
  removelast (split_on c s) ++ split_on c (List.last (split_on c s) "" +:+ t).
Proof.
  induction s as [|a s IH]; [done|]. simpl. case_decide as Ha.
  - rewrite IH. pose proof (split_on_not_nil c s). by destruct (split_on c s).
  - rewrite IH. pose proof (split_on_not_nil c s) as Hne.
    destruct (split_on c s) as [|p ps]; [done|]. destruct ps as [|q ps]; [|done].
    simpl. by rewrite decide_False.
Qed.

Lemma complete_lines_app s t :
  complete_lines (s +:+ t) = complete_lines s ++ complete_lines (pending_line s +:+ t).
Proof.
  unfold complete_lines. rewrite split_on_app.
  rewrite removelast_app by apply split_on_not_nil. done.
Qed.

Lemma pending_line_app s t : pending_line (s +:+ t) = pending_line (pending_line s +:+ t).
Proof.
  unfold pending_line at 1. rewrite split_on_app.
  rewrite (split_on_lines (List.last (split_on LINE_FEED s) "" +:+ t)), app_assoc.
  apply last_last.
Qed.

Lemma text_lines_app s t :
  text_lines (s +:+ t) = (convert_to_string <$> complete_lines s) ++ text_lines (pending_line s +:+ t).
Proof.
  unfold text_lines. by rewrite complete_lines_app, pending_line_app, fmap_app, app_assoc.
Qed.

Lemma pending_line_no_feed s : has_char LINE_FEED (pending_line s) = false.
Proof.
  pose proof (split_on_parts LINE_FEED s) as Hparts. rewrite split_on_lines in Hparts.
  rewrite Forall_app, Forall_singleton in Hparts. apply Hparts.
Qed.

Lemma text_lines_pending s :
  has_char LINE_FEED s = false → text_lines s = if str_is_empty s then [] else [convert_to_string s].
Proof.
  intros Hs. unfold text_lines, complete_lines, pending_line.
  by rewrite (split_on_no_char _ _ Hs).
Qed.

(** ** Taking lines out of the buffer *)

Lemma take_lines_spec fuel old new :
  String.length (old +:+ new) ≤ fuel → has_char LINE_FEED old = false →
  take_lines fuel (String.length old) (old +:+ new) =
  Some (convert_to_string <$> complete_lines (old +:+ new), pending_line (old +:+ new)).
Proof.
  revert old new. induction fuel as [|fuel IH]; intros old new Hfuel Hold;
    cbn [take_lines]; rewrite str_drop_app.
  - destruct old, new; simpl in *; [done|lia..].
  - destruct (str_find LINE_FEED new) as [pos|] eqn:Hfind.
    + destruct (str_find_Some _ _ _ Hfind) as (p & r & -> & Hp & <-).
      assert (String.length old + String.length p + 1 =
              String.length ((old +:+ p) +:+ String LINE_FEED "")) as ->.
      { rewrite !str_length_app. simpl. lia. }
      assert (old +:+ p +:+ String LINE_FEED r = ((old +:+ p) +:+ String LINE_FEED "") +:+ r) as ->.
      { by rewrite <-!str_app_assoc. }
      rewrite str_take_app, str_drop_app, convert_line.
      assert (has_char LINE_FEED (old +:+ p) = false) as Hop by (by rewrite has_char_app, Hold, Hp).
      assert (take_lines fuel 0 r =
              Some (convert_to_string <$> complete_lines r, pending_line r)) as ->.
      { apply (IH "" r); [|done]. rewrite str_length_app in Hfuel. simpl in *.
        rewrite str_length_app in Hfuel. simpl in Hfuel. lia. }
      cbn [mbind option_bind]. rewrite <-str_app_assoc. cbn [String.append].
      unfold complete_lines, pending_line. rewrite split_on_app_sep by done.
      pose proof (split_on_not_nil LINE_FEED r) as Hne. cbn [String.append].
      by destruct (split_on LINE_FEED r).
    + apply str_find_None in Hfind.
      assert (has_char LINE_FEED (old +:+ new) = false) as Hno by (by rewrite has_char_app, Hold, Hfind).
      unfold complete_lines, pending_line. by rewrite (split_on_no_char _ _ Hno).
Qed.

(** ** One stream gives the lines of its text *)

Definition chunk_text (r : ReadResult) : string :=
  match r with ReadData chunk => chunk | ReadError => "" end.
Definition content (read : list ReadResult) : string := String.concat "" (chunk_text <$> read).

(** The reads succeed and no line grows beyond the limit; [pending] is the line
    that was started. *)
Fixpoint chunks_fit (pending : string) (read : list ReadResult) : bool :=
  match read with
  | [] => true
  | ReadData chunk :: read =>
    negb (str_is_empty chunk) && negb (exceeds_limit (pending +:+ chunk)) &&
    chunks_fit (pending_line (pending +:+ chunk)) read
  | ReadError :: _ => false
  end.

Record single_clean (f : GenericSingleLogFetcher) : Prop := {
  clean_limit : limit_exceeded f = false;
  clean_pending : has_char LINE_FEED (read_data f) = false;
  clean_reader : chunks_fit (read_data f) (reader f) = true
}.

(** The lines that are still to come. *)
Definition remaining (f : GenericSingleLogFetcher) : list string :=
  text_lines (read_data f +:+ content (reader f)).

Definition lines_of (r : Poll (option (list string))) : list string :=
  match r with Returns (Some lines) => lines | _ => [] end.

Lemma content_cons r read : content (r :: read) = chunk_text r +:+ content read.
Proof.
  unfold content. rewrite fmap_cons. destruct read as [|r' read]; simpl; [by rewrite str_app_nil_r|done].
Qed.

Lemma text_lines_nil : text_lines "" = [].
Proof. done. Qed.

Lemma single_new_clean read :
  chunks_fit "" read = true → single_clean (single_log_fetcher_new read).
Proof. by split. Qed.

Lemma single_new_remaining read :
  remaining (single_log_fetcher_new read) = text_lines (content read).
Proof. done. Qed.

Lemma poll_single_clean f :
  single_clean f →
  ∃ r f', poll_single f = Some (r, f') ∧ single_clean f' ∧
    remaining f = lines_of r ++ remaining f' ∧ (r = Returns None → remaining f = []).
Proof.
  destruct f as [read limit data]. intros [Hlimit Hpending Hread]. simpl in *. subst limit.
  unfold poll_single, remaining. simpl. destruct read as [|[chunk|] read]; [| |done].
  - rewrite str_app_nil_r, text_lines_pending by done. destruct data as [|c data]; simpl.
    + by eexists _, _.
    + by eexists _, _.
  - cbn [chunks_fit] in Hread. rewrite !andb_true_iff, !negb_true_iff in Hread.
    destruct Hread as [[Hchunk Hfit] Hread]. destruct chunk as [|c chunk]; [done|].
    cbn [head tail]. rewrite Hfit, take_lines_spec by done. cbn [mbind option_bind].
    rewrite content_cons. cbn [chunk_text]. rewrite str_app_assoc, text_lines_app.
    set (all := data +:+ String c chunk) in *.
    eexists _, _. split; [done|]. split.
    { split; [done|apply pending_line_no_feed|done]. }
    split; [|by destruct (convert_to_string <$> complete_lines all)].
    simpl. by destruct (convert_to_string <$> complete_lines all).
Qed.

(** ** Every poll makes progress *)

Definition single_work (f : GenericSingleLogFetcher) : nat :=
  if limit_exceeded f then 1
  else match reader f, read_data f with
       | [], "" => 1
       | read, _ => S (S (length read))
       end.

Lemma take_lines_total fuel start data :
  String.length data ≤ fuel → is_Some (take_lines fuel start data).
Proof.
  revert start data. induction fuel as [|fuel IH]; intros start data Hfuel; cbn [take_lines].
  - destruct data; [|simpl in Hfuel; lia]. by destruct start.
  - destruct (str_find _ _) as [pos|] eqn:Hfind; [|done].
    destruct (str_find_Some _ _ _ Hfind) as (p & r & Hsplit & _ & Hpos).
    destruct (IH 0 (str_drop (start + pos + 1) data)) as [[res rest] ->]; [|done].
    assert (String.length (str_drop (start + pos + 1) data) < String.length data); [|lia].
    pose proof (str_take_drop (start + pos + 1) data) as Hd.
    apply (f_equal String.length) in Hd. rewrite str_length_app in Hd.
    destruct data as [|a data]; [by destruct start|].
    rewrite (Nat.add_1_r (start + pos)) in *. simpl in *. lia.
Qed.

Lemma poll_single_total f :
  ∃ r f', poll_single f = Some (r, f') ∧ (r ≠ Returns None → single_work f' < single_work f).
Proof.
  destruct f as [read limit data]. unfold poll_single, single_work. simpl.
  destruct limit; [by eexists _, _|].
  destruct read as [|[chunk|] read]; simpl.
  - destruct data as [|c data]; simpl; eexists _, _; (split; [done|]); simpl; [done|lia].
  - destruct chunk as [|a chunk].
    + destruct data as [|c data]; simpl; eexists _, _; (split; [done|]); [done|].
      intros _. simpl. destruct read; simpl; lia.
    + destruct (exceeds_limit _); [eexists _, _; split; [done|]; simpl; lia|].
      destruct (take_lines_total (String.length (data +:+ String a chunk)) (String.length data)
        (data +:+ String a chunk)) as [[res rest] ->]; [done|].
      cbn [mbind option_bind]. eexists _, _; split; [done|]. intros _. simpl.
      destruct read, rest; simpl; lia.
  - eexists _, _. split; [done|]. done.
Qed.

(** ** Both streams *)

Definition stream (s : Stream) (f : GenericLogFetcher) : option GenericSingleLogFetcher :=
  match s with OfStdout => stdout f | OfStderr => stderr f end.

Definition stream_lines (s : Stream) (r : NextLinesResult) : list string :=
  match s, r with
  | OfStdout, Stdout lines | OfStderr, Stderr lines => lines
  | _, _ => []
  end.

Definition poll_lines (s : Stream) (r : Poll NextLinesResult) : list string :=
  match r with Returns r => stream_lines s r | Pending => [] end.

Definition fetcher_clean (f : GenericLogFetcher) : Prop :=
  ∀ s g, stream s f = Some g → single_clean g.

Definition fetcher_remaining (s : Stream) (f : GenericLogFetcher) : list string :=
  from_option remaining [] (stream s f).

Lemma fetcher_clean_intro out err :
  (∀ g, out = Some g → single_clean g) → (∀ g, err = Some g → single_clean g) →
  fetcher_clean {| stdout := out; stderr := err |}.
Proof. by intros ? ? [] g; simpl; auto. Qed.

(** One outcome of the stream that was polled. *)
Ltac poll_outcome Hend :=
  eexists _, _; split; [done|]; split; [apply fetcher_clean_intro; naive_solver|];
  unfold fetcher_remaining; simpl in *;
  split; [intros []; simpl; solve [done|by apply Hend]|];
  solve [done|intros _ []; simpl; solve [done|by apply Hend]].

Lemma poll_fetcher_clean p f :
  fetcher_clean f →
  ∃ r f', poll_fetcher p f = Some (r, f') ∧ fetcher_clean f' ∧
    (∀ s, fetcher_remaining s f = poll_lines s r ++ fetcher_remaining s f') ∧
    (r = Returns EoF → ∀ s, fetcher_remaining s f = []).
Proof.
  intros Hclean. pose proof (Hclean OfStdout) as Hout. pose proof (Hclean OfStderr) as Herr.
  destruct f as [[out|] [err|]], p; simpl in *; unfold poll_fetcher; simpl;
    try (by eexists _, _);
    try (destruct (poll_single_clean out) as (r & out' & -> & Hout' & Hrem & Hend); [by apply Hout|]);
    try (destruct (poll_single_clean err) as (r & err' & -> & Herr' & Hrem & Hend); [by apply Herr|]);
    cbn [mbind option_bind].
  1-4: destruct r as [|[lines|]]; poll_outcome Hend.
  all: eexists _, _; split; [done|]; split; [done|]; by split; intros; destruct s.
Qed.

(** ** The task *)

Definition sent_lines (s : Stream) (t : LogTask) : list string :=
  log_lines_sent t ≫= stream_lines s.

(** Nothing is lost on the way to the receiver: while the task runs, the lines
    sent and those that remain are the wanted ones; a task that ended has sent
    all of them unless its receiver is gone. *)
Record delivers (want : Stream → list string) (t : LogTask) : Prop := {
  delivers_running : task_ended t = false →
    fetcher_clean (log_fetcher t) ∧
    ∀ s, sent_lines s t ++ fetcher_remaining s (log_fetcher t) = want s;
  delivers_prefix s : sent_lines s t `prefix_of` want s;
  delivers_ended : task_ended t = true → receiver_dropped t = false →
    ∀ s, sent_lines s t = want s
}.

Lemma forward_lines_delivers want r f t :
  fetcher_clean f → task_ended t = false → log_fetcher t = f →
  (∀ s, sent_lines s t `prefix_of` want s) →
  (∀ s, sent_lines s t ++ stream_lines s r ++ fetcher_remaining s f = want s) →
  delivers want (forward_lines r t).
Proof.
  intros Hclean Hended <- Hprefix Hwant. unfold forward_lines.
  destruct (receiver_dropped t) eqn:Hdrop; split; simpl; try congruence; try done.
  - intros _. split; [done|]. intros s. rewrite <-Hwant. unfold sent_lines; simpl.
    rewrite bind_app. simpl. by rewrite app_nil_r, <-app_assoc.
  - intros s. unfold sent_lines; simpl. rewrite bind_app. simpl. rewrite app_nil_r.
    exists (fetcher_remaining s (log_fetcher t)). rewrite <-Hwant. by rewrite app_assoc.
Qed.

Lemma log_task_step_delivers want e t :
  delivers want t → ∃ t', log_task_step e t = Some t' ∧ delivers want t'.
Proof.
  intros [Hrun Hprefix Hend]. unfold log_task_step.
  destruct (task_ended t) eqn:Hended; [by eexists; split; [done|split; rewrite ?Hended]|].
  destruct (Hrun eq_refl) as [Hclean Hwant]. destruct e as [p| |].
  - destruct (poll_fetcher_clean p (log_fetcher t)) as (r & f' & -> & Hclean' & Hrem & Heof); [done|].
    cbn [mbind option_bind]. eexists; split; [done|].
    assert (∀ s, sent_lines s t ++ poll_lines s r ++ fetcher_remaining s f' = want s) as Hnext.
    { intros s. by rewrite <-Hrem. }
    destruct r as [|[lines|lines|]]; simpl.
    + split; simpl; [intros _; split; [done|intros s; by rewrite <-Hnext]|done|congruence].
    + by apply (forward_lines_delivers want _ f').
    + by apply (forward_lines_delivers want _ f').
    + split; simpl; [done|done|]. intros _ _ s. rewrite <-Hwant, Heof by done.
      by rewrite app_nil_r.
  - eexists; split; [done|]. split; simpl; [done|done|]. done.
  - eexists; split; [done|]. destruct (receiver_dropped t) eqn:Hdrop; split; simpl; try done; congruence.
Qed.

Lemma run_log_task_delivers want events t :
  delivers want t → ∃ t', run_log_task events t = Some t' ∧ delivers want t'.
Proof.
  revert t. induction events as [|e events IH]; intros t Ht; simpl; [by exists t|].
  destruct (log_task_step_delivers want e t Ht) as (t' & -> & Ht'). by apply IH.
Qed.

(** ** Termination *)

Definition stream_work (s : Stream) (f : GenericLogFetcher) : nat :=
  from_option single_work 0 (stream s f).

Definition Stream_eq_dec : EqDecision Stream := ltac:(solve_decision).
#[export] Existing Instance Stream_eq_dec.

Fixpoint progress_count (s : Stream) (events : list LogEvent) : nat :=
  match events with
  | [] => 0
  | Progress s' :: events => (if decide (s' = s) then 1 else 0) + progress_count s events
  | _ :: events => progress_count s events
  end.

(** The streams get as many turns as they have reads, and two more: one for
    the text after the last line feed, one for the end. *)
Definition enough_turns (events : list LogEvent) (f : GenericLogFetcher) : Prop :=
  (∀ s, stream_work s f ≤ progress_count s events) ∧
  1 ≤ progress_count OfStdout events + progress_count OfStderr events.

Lemma single_work_pos f : 1 ≤ single_work f.
Proof. unfold single_work. repeat case_match; lia. Qed.

(** A turn of a stream takes some of its work, unless the task ends with it. *)
Lemma poll_fetcher_total p f :
  ∃ r f', poll_fetcher p f = Some (r, f') ∧
    (r = Returns EoF ∨
     (∃ s, stream s f' ≠ None) ∧
     ∀ s, stream_work s f' ≤ stream_work s f - (if decide (p = s) then 1 else 0)).
Proof.
  destruct f as [[out|] [err|]], p; unfold poll_fetcher; simpl;
    try (by eexists _, _; split; [done|left]);
    try (destruct (poll_single_total out) as (r & g & -> & Hwork));
    try (destruct (poll_single_total err) as (r & g & -> & Hwork));
    cbn [mbind option_bind].
  all: try (destruct r as [|[lines|]]; eexists _, _; (split; [done|]); [right|right|by left]).
  all: try (destruct r as [|[lines|]]; eexists _, _; (split; [done|]); right).
  all: try (eexists _, _; split; [done|]; right).
  all: (split; [by (exists OfStdout + exists OfStderr)|]).
  all: intros []; unfold stream_work; simpl; try lia.
  all: pose proof (Hwork ltac:(done)); lia.
Qed.

Lemma run_log_task_ended events t : task_ended t = true → run_log_task events t = Some t.
Proof.
  intros Ht. induction events as [|e events IH]; simpl; [done|].
  unfold log_task_step. by rewrite Ht.
Qed.

Lemma forward_lines_fetcher r t : log_fetcher (forward_lines r t) = log_fetcher t.
Proof. unfold forward_lines. by destruct (receiver_dropped t). Qed.

Lemma log_task_step_turns e events t :
  enough_turns (e :: events) (log_fetcher t) →
  ∃ t', log_task_step e t = Some t' ∧
    (task_ended t' = true ∨ enough_turns events (log_fetcher t')).
Proof.
  intros [Hwork Hsome]. unfold log_task_step.
  destruct (task_ended t) eqn:Hended; [by eexists; split; [|left]|].
  destruct e as [p| |]; [|by eexists; split; [|right]|].
  - destruct (poll_fetcher_total p (log_fetcher t)) as (r & f' & -> & Hf').
    cbn [mbind option_bind]. eexists; split; [done|].
    destruct Hf' as [->|[[s Hs] Hf']]; [by left|].
    assert (enough_turns events f') as Hturns.
    { assert (∀ s, stream_work s f' ≤ progress_count s events) as Hcount.
      { intros s'. specialize (Hwork s'). specialize (Hf' s'). simpl in Hwork.
        destruct (decide (p = s')); lia. }
      split; [done|]. specialize (Hcount s). unfold stream_work in Hcount.
      destruct (stream s f') as [g|]; [|done]. simpl in Hcount.
      pose proof (single_work_pos g). destruct s; lia. }
    destruct r as [|[| |]]; [right| | |left]; try done; right; by rewrite forward_lines_fetcher.
  - eexists; split; [done|]. destruct (receiver_dropped t); [by left|by right].
Qed.

Lemma run_log_task_ends events t :
  enough_turns events (log_fetcher t) →
  ∃ t', run_log_task events t = Some t' ∧ task_ended t' = true.
Proof.
  revert t. induction events as [|e events IH]; intros t Hturns.
  - destruct Hturns as [_ Hsome]. simpl in Hsome. lia.
  - simpl. destruct (log_task_step_turns _ _ _ Hturns) as (t' & -> & [Hended|Hturns']).
    + exists t'. split; [by apply run_log_task_ended|done].
    + by apply IH.
Qed.

(** What the streams of a fetcher will read. *)
Definition stream_reads (s : Stream) (out err : option (list ReadResult)) : list ReadResult :=
  default [] (match s with OfStdout => out | OfStderr => err end).

Lemma new_task_delivers out err :
  (∀ s, chunks_fit "" (stream_reads s out err) = true) →
  delivers (λ s, text_lines (content (stream_reads s out err)))
           (log_task_new (generic_log_fetcher_new out err)).
Proof.
  intros Hfit. split; simpl; [|by intros; exists (text_lines (content (stream_reads s out err)))|done].
  intros _. split.
  - intros s g Hg. pose proof (Hfit s) as Hs.
    destruct s; simpl in Hg, Hs; [destruct out|destruct err]; simplify_eq/=;
      by apply single_new_clean.
  - intros []; simpl; [destruct out|destruct err]; done.
Qed.

(** C15: the log lines of a workload.  However the reads cut the output of the
    [logs] command into chunks, and in whatever order the two streams make
    progress, the lines that are forwarded for a stream are a prefix of the
    lines of its text, in order; a task that ends while its receiver listens
    has forwarded all of them.  The reads succeed and no line is larger than the
    limit. *)
Theorem log_lines_complete out err events :
  (∀ s, chunks_fit "" (stream_reads s out err) = true) →
  ∃ t, run_log_task events (log_task_new (generic_log_fetcher_new out err)) = Some t ∧
  (∀ s, sent_lines s t `prefix_of` text_lines (content (stream_reads s out err))) ∧
  (task_ended t = true → receiver_dropped t = false →
   ∀ s, sent_lines s t = text_lines (content (stream_reads s out err))).
Proof.
  intros Hfit. destruct (run_log_task_delivers _ events _ (new_task_delivers _ _ Hfit)) as (t & Ht & Hd).
  exists t. split; [done|]. split; [apply Hd|by apply Hd].
Qed.

Definition example_stdout : list ReadResult :=
  [ReadData ("one" +:+ String LINE_FEED "tw"); ReadData ("o" +:+ String LINE_FEED "three")].

Lemma log_lines_complete_witness :
  sent_lines OfStdout (default (log_task_new (generic_log_fetcher_new None None))
    (run_log_task (replicate 4 (Progress OfStdout) ++ replicate 2 (Progress OfStderr))
       (log_task_new (generic_log_fetcher_new (Some example_stdout) (Some [])))))
  = ["one"; "two"; "three"].
Proof.
  destruct (log_lines_complete (Some example_stdout) (Some [])
    (replicate 4 (Progress OfStdout) ++ replicate 2 (Progress OfStderr)))
    as (t & Ht & _ & Hall).
  { intros []; vm_compute; reflexivity. }
  rewrite Ht. simpl. rewrite Hall.
  - vm_compute. reflexivity.
  - assert (Some (task_ended t) = Some true) as [= ->]; [|reflexivity].
    change (Some (task_ended t)) with (task_ended <$> Some t). rewrite <-Ht.
    vm_compute. reflexivity.
  - assert (Some (receiver_dropped t) = Some false) as [= ->]; [|reflexivity].
    change (Some (receiver_dropped t)) with (receiver_dropped <$> Some t). rewrite <-Ht.
    vm_compute. reflexivity.
Defined.

(** A log task ends, whatever its streams hold: once each stream had a
    turn for each of its reads and two more, the task is over, also after read
    errors, lines beyond the limit and the loss of the receiver. *)
Theorem log_task_ends f events :
  enough_turns events f →
  ∃ t, run_log_task events (log_task_new f) = Some t ∧ task_ended t = true.
Proof. intros Hturns. by apply run_log_task_ends. Qed.

Lemma log_task_ends_witness :
  ∃ t, run_log_task (replicate 4 (Progress OfStdout) ++ [DropReceiver] ++
                     replicate 2 (Progress OfStderr))
         (log_task_new (generic_log_fetcher_new (Some example_stdout) (Some []))) = Some t ∧
       task_ended t = true.
Proof.
  apply log_task_ends. split; [intros []; vm_compute; lia|vm_compute; lia].
Defined.
