(* ===== verification/LogProcess.v ===== *)
(** * Ankaios agent: the processes of the log fetchers

    [agent/src/runtime_connectors/podman/podman_log_fetcher.rs] and
    [containerd/containerd_log_fetcher.rs], which only differ in the program they
    start: the process that prints the log of a workload, whose output streams
    the fetcher of [LogFetching.v] takes, and which is killed with the fetcher. *)

From stdpp Require Import base tactics gmap strings list.
From S2P Require Import Prelude Api WorkloadFiles RetryManager ControlLoop LogFetching.

(** ** The processes of the host *)

Record Child := {
  pid : nat;
  child_stdout : option (list ReadResult);
  child_stderr : option (list ReadResult)
}.

(** A process is started with both outputs piped. *)
Class ProcessTable (W : Type) := {
  spawn_piped : string → list string → io W string Child;
  start_kill : nat → io W string ()
}.

(** [running] are the processes that were not killed. *)
Class ProcessLaws (W : Type) `{ProcessTable W} := {
  running : W → gset nat;
  spawn_ok program args w child w' :
    spawn_piped program args w = (Ok child, w') →
    pid child ∉ running w ∧ running w' = {[pid child]} ∪ running w;
  spawn_failed program args w err w' :
    spawn_piped program args w = (Err err, w') → running w' = running w;
  kill_removes n w : running (start_kill n w).2 = running w ∖ {[n]}
}.

(** ** The fetcher of a tool *)

Section log_process.
Context {W : Type} `{ProcessTable W}.
Implicit Types w : W.

Record ToolLogFetcher := { child : option Child }.

(** [new]; that the process cannot be started is only logged. *)
Definition tool_log_fetcher_new (program id : string) (options : LogRequestOptions) (w : W) :
    ToolLogFetcher * W :=
  match spawn_piped program (log_arguments id options) w with
  | (Ok c, w) => ({| child := Some c |}, w)
  | (Err _, w) => ({| child := None |}, w)
  end.

(** The streams are taken out of the child. *)
Definition get_output_streams (f : ToolLogFetcher) :
    (option (list ReadResult) * option (list ReadResult)) * ToolLogFetcher :=
  match child f with
  | Some c => ((child_stdout c, child_stderr c),
      {| child := Some {| pid := pid c; child_stdout := None; child_stderr := None |} |})
  | None => ((None, None), f)
  end.

Definition tool_log_fetcher_drop (f : ToolLogFetcher) (w : W) : W :=
  match child f with Some c => (start_kill (pid c) w).2 | None => w end.

(** [GenericLogFetcher], which keeps the fetcher of the tool as long as it lives. *)
Definition start_log_fetcher (program id : string) (options : LogRequestOptions) (w : W) :
    (GenericLogFetcher * ToolLogFetcher) * W :=
  let (f, w) := tool_log_fetcher_new program id options w in
  let '((out, err), f) := get_output_streams f in
  ((generic_log_fetcher_new out err, f), w).

(** ** Properties *)

(** A log fetcher takes the outputs of its process, which leaves none to take,
    and with the fetcher goes the process. Without a process the log ends at
    once. *)
Theorem log_process_ends_with_fetcher {PL : ProcessLaws W} program id options w g f w' :
  start_log_fetcher program id options w = ((g, f), w') →
  running (tool_log_fetcher_drop f w') = running w ∧
  (get_output_streams f).1 = (None, None) ∧
  (child f = None → running w' = running w ∧ ∀ s, poll_fetcher s g = Some (Returns EoF, g)).
Proof.
  unfold start_log_fetcher, tool_log_fetcher_new.
  destruct (spawn_piped _ _ w) as [[c|err] w1] eqn:Hspawn; simpl; intros [= <- <- <-].
  - apply spawn_ok in Hspawn as [Hnew Hrun]. unfold tool_log_fetcher_drop. simpl.
    rewrite kill_removes, Hrun. split_and!; [set_solver|done|done].
  - apply spawn_failed in Hspawn. split_and!; [done..|]. intros _. split; [done|]. by intros [].
Qed.
End log_process.

(** ** Example *)

(** A host whose processes are numbered; only podman and nerdctl can be started. *)
Definition example_table : ProcessTable (gset nat) := {|
  spawn_piped program _ w :=
    if bool_decide (program = "podman" ∨ program = "nerdctl") then
      (Ok {| pid := fresh w; child_stdout := Some [ReadData "started"]; child_stderr := Some [] |},
       {[fresh w]} ∪ w)
    else (Err "No such file or directory", w);
  start_kill n w := (Ok (), w ∖ {[n]})
|}.
#[local] Existing Instance example_table.

Definition example_processes : ProcessLaws (gset nat).
Proof.
  refine {| running := λ w : gset nat, w |}; simpl.
  - intros program args w child w'. case_bool_decide; [|done]. intros [= <- <-].
    split; [apply is_fresh|done].
  - intros program args w err w'. case_bool_decide; [done|]. by intros [= _ <-].
  - done.
Defined.

Lemma log_process_ends_with_fetcher_witness :
  let options := {| follow_option := true; tail_option := None; since_option := None; until_option := None |} in
  let '((g, f), w) := start_log_fetcher "docker" "17" options ({[3]} : gset nat) in
  w = {[3]} ∧ poll_fetcher OfStdout g = Some (Returns EoF, g).
Proof.
  simpl.
  destruct (log_process_ends_with_fetcher (PL := example_processes) "docker" "17"
    {| follow_option := true; tail_option := None; since_option := None; until_option := None |}
    {[3]} _ _ _ eq_refl) as (_ & _ & Hnone).
  destruct (Hnone eq_refl) as [Hrun Hpoll]. split; [exact Hrun|exact (Hpoll OfStdout)].
Defined.
