(* ===== verification/StateChecker.v ===== *)
(** * Ankaios agent: polling state checker

    [agent/src/generic_polling_state_checker.rs]: a task per workload asks the
    runtime for the state of the workload twice a second and reports every
    change. *)

From stdpp Require Import base tactics numbers strings list.
From S2P Require Import Prelude Api.

(** The checker a control loop holds: what its task polls, and whether the task
    was aborted. *)
Record GenericPollingStateChecker (Id : Type) := {
  checked_instance_name : WorkloadInstanceNameSpec;
  checked_id : Id
}.
Arguments Build_GenericPollingStateChecker {Id} _ _.
Arguments checked_instance_name {Id} _.
Arguments checked_id {Id} _.

Definition start_polling {Id} (w : WorkloadNamed) (id : Id) : GenericPollingStateChecker Id :=
  {| checked_instance_name := instance_name w; checked_id := id |}.

(** The task: the last state and the states it sent. *)
Record PollingTask := {
  last_state : ExecutionStateSpec;
  sent_states : list WorkloadStateSpec;
  polling : bool
}.

Definition polling_task_start : PollingTask := {|
  last_state := unknown "Never received an execution state.";
  sent_states := [];
  polling := true
|}.

(** One round of the loop with the state the runtime gives. *)
Definition polling_round (n : WorkloadInstanceNameSpec) (t : PollingTask)
    (current_state : ExecutionStateSpec) : PollingTask :=
  if negb (polling t) then t
  else if decide (current_state = last_state t) then t
  else {|
    last_state := current_state;
    sent_states := sent_states t ++
      [{| state_instance_name := n; execution_state := current_state |}];
    polling := negb (is_removed current_state)
  |}.

Definition run_polling (n : WorkloadInstanceNameSpec) (states : list ExecutionStateSpec) :
    PollingTask :=
  foldl (polling_round n) polling_task_start states.

(** ** What is reported *)

(** The changes in a sequence of states, up to the first removal: the
    reference. *)
Fixpoint state_changes (last : ExecutionStateSpec) (states : list ExecutionStateSpec) :
    list ExecutionStateSpec :=
  match states with
  | [] => []
  | s :: states =>
    if decide (s = last) then state_changes last states
    else s :: (if is_removed s then [] else state_changes s states)
  end.

Lemma polling_round_stopped n t states :
  polling t = false → foldl (polling_round n) t states = t.
Proof.
  intros Ht. induction states as [|s states IH]; simpl; [done|].
  unfold polling_round at 2. by rewrite Ht.
Qed.

Lemma polling_sends_changes n t states :
  polling t = true →
  sent_states (foldl (polling_round n) t states) =
  sent_states t ++ (Build_WorkloadStateSpec n <$> state_changes (last_state t) states).
Proof.
  revert t. induction states as [|s states IH]; intros t Ht; simpl; [by rewrite app_nil_r|].
  unfold polling_round at 2. rewrite Ht. simpl. case_decide as Hs; [by apply IH|].
  destruct (is_removed s) eqn:Hr.
  - by rewrite polling_round_stopped.
  - rewrite IH by done. simpl. by rewrite <-app_assoc.
Qed.

Lemma state_changes_last default_state states :
  Forall (λ s, is_removed s = false) states →
  List.last (default_state :: state_changes default_state states) default_state =
  List.last (default_state :: states) default_state.
Proof.
  revert default_state. induction states as [|s states IH]; intros d Hs; [done|].
  inversion Hs as [|?? Hr Hs']; subst. cbn [state_changes].
  assert (∀ l : list ExecutionStateSpec, List.last (s :: l) d = List.last (s :: l) s) as Hlast.
  { clear. intros l. revert s d. induction l as [|x l IHl]; intros s d; [done|].
    change (List.last (s :: x :: l) d) with (List.last (x :: l) d).
    change (List.last (s :: x :: l) s) with (List.last (x :: l) s).
    by rewrite (IHl x d), (IHl x s). }
  case_decide as Hd; [subst d|rewrite Hr].
  - rewrite IH by done. by destruct states.
  - change (List.last (d :: s :: ?l) d) with (List.last (s :: l) d).
    rewrite !Hlast. by apply IH.
Qed.

(** The reports of a state checker.  The states that are sent are exactly
    the changes in the sequence of states the runtime gave, in order; while the
    workload is not removed the last report is the last state of the runtime. *)
Theorem polling_reports n states :
  sent_states (run_polling n states) =
    Build_WorkloadStateSpec n <$> state_changes (last_state polling_task_start) states ∧
  (Forall (λ s, is_removed s = false) states →
   List.last (last_state polling_task_start ::
              (execution_state <$> sent_states (run_polling n states)))
             (last_state polling_task_start) =
   List.last (last_state polling_task_start :: states) (last_state polling_task_start)).
Proof.
  assert (sent_states (run_polling n states) =
    Build_WorkloadStateSpec n <$> state_changes (last_state polling_task_start) states) as Hsent.
  { unfold run_polling. by rewrite polling_sends_changes. }
  split; [done|]. intros Hs. rewrite Hsent, <-list_fmap_compose.
  rewrite (list_fmap_ext _ id) by done. rewrite list_fmap_id. by apply state_changes_last.
Qed.

Lemma polling_reports_witness :
  execution_state <$> sent_states (run_polling example_instance_name [running; running; succeeded]) =
    [running; succeeded] ∧
  List.last (last_state polling_task_start ::
     (execution_state <$> sent_states (run_polling example_instance_name [running; succeeded])))
     (last_state polling_task_start) = succeeded.
Proof.
  destruct (polling_reports example_instance_name [running; running; succeeded]) as [-> _].
  destruct (polling_reports example_instance_name [running; succeeded]) as [_ ->].
  - split; vm_compute; reflexivity.
  - repeat constructor.
Defined.
