(* ===== verification/ContainerRuntime.v ===== *)
(** * Ankaios agent: runtime of containers

    [agent/src/runtime_connectors/podman/podman_runtime.rs] and
    [containerd/containerd_runtime.rs], which differ only in the tool they call:
    the runtime connector is written against an interface of the tool
    ([ContainerCli]) and instantiated for both in [PodmanRuntime] and
    [ContainerdRuntime].  The theorems use what the tools document about
    containers, names and labels ([ContainerCliLaws]). *)

From Stdlib Require Import Ascii.
From stdpp Require Import base tactics numbers gmap strings list pretty.
From S2P Require Import Prelude Api WorkloadFiles RetryManager ControlLoop CliCommand LogFetching StateChecker.

(** ** Interface of the tool *)

Class ContainerCli := {
  CliHost : Type;
  runtime_name : string;
  parse_config : string → result string RunConfig;
  list_container_ids_by_label : string → string → io CliHost string (list string);
  list_workload_names_by_label : string → string → io CliHost string (list string);
  run_container : RunConfig → string → string → option path → gmap path string →
    io CliHost string string;
  start_container : StartConfig → string → io CliHost string string;
  remove_workloads_by_id : string → io CliHost string ();
  list_states_by_id : string → io CliHost string (option ExecutionStateSpec);
  reset_cache : CliHost → CliHost;
  get_state_error : string;
  log_program : string;
  (** The output streams of a child process, if it could be started. *)
  spawn_output : string → list string → CliHost → option (list ReadResult * list ReadResult)
}.

Section container_runtime.
Context {CC : ContainerCli}.

(** [Display] and [FromStr] of a workload id: the id itself. *)
Definition ContainerId := string.
Definition workload_id_from_str (s : string) : result string ContainerId := Ok s.

(** ** Configuration *)

Definition config_try_from (workload_spec : WorkloadSpec) : result string RunConfig :=
  if negb (String.eqb runtime_name (Api.runtime workload_spec)) then
    Err ("Received a workload for the wrong runtime: '" +:+ Api.runtime workload_spec +:+ "'")
  else parse_config (runtime_config workload_spec).

(** ** States *)

Definition get_state (workload_id : ContainerId) (h : CliHost) : ExecutionStateSpec * CliHost :=
  let (r, h) := list_states_by_id workload_id h in
  (match r with
   | Ok (Some state) => state
   | Ok None => lost
   | Err _ => unknown get_state_error
   end, h).

Definition get_workload_id (n : WorkloadInstanceNameSpec) : io CliHost RuntimeError ContainerId :=
  res ← io_map_err RuntimeErrorList (list_container_ids_by_label "name" (instance_name_to_string n));
  io_of match res with
        | [id] => Ok id
        | _ => Err (RuntimeErrorList "Unexpected number of workloads")
        end.

Definition reusable_workload_state_new (n : WorkloadInstanceNameSpec) (e : ExecutionStateSpec)
    (id : option string) : ReusableWorkloadState :=
  {| reusable_state := {| state_instance_name := n; execution_state := e |};
     reusable_workload_id := id |}.

Fixpoint sample_workload_states (workload_instance_names : list WorkloadInstanceNameSpec) :
    io CliHost RuntimeError (list ReusableWorkloadState) :=
  match workload_instance_names with
  | [] => mret []
  | n :: names =>
    workload_id ← get_workload_id n;
    state ← io_map_err RuntimeErrorList (list_states_by_id workload_id);
    match state with
    | Some execution_state =>
      states ← sample_workload_states names;
      mret (reusable_workload_state_new n execution_state (Some workload_id) :: states)
    | None =>
      io_of (Err (RuntimeErrorList
        ("Could not get execution state for workload '" +:+ instance_name_to_string n +:+ "'")))
    end
  end.

(** The names that can be parsed. *)
Definition decodable_names (names : list string) : list WorkloadInstanceNameSpec :=
  omap (λ x, match instance_name_try_from x with Ok n => Some n | Err _ => None end) names.

Definition get_reusable_workloads (agent_name : string) :
    io CliHost RuntimeError (list ReusableWorkloadState) :=
  res ← io_map_err RuntimeErrorList (list_workload_names_by_label "agent" agent_name);
  sample_workload_states (decodable_names res).

(** ** Creation and deletion *)

Definition ContainerChecker := GenericPollingStateChecker ContainerId.

Definition start_checker (workload_id : ContainerId) (w : WorkloadNamed) :
    io CliHost RuntimeError ContainerChecker := λ h,
  (Ok (start_polling w workload_id), reset_cache h).

(** The container is started again, or created. *)
Definition start_or_run (workload_cfg : RunConfig) (w : WorkloadNamed)
    (reusable_workload_id : option ContainerId) (control_interface_path : option path)
    (workload_file_path_mappings : gmap path string) : io CliHost string string :=
  let name := instance_name_to_string (instance_name w) in
  match reusable_workload_id with
  | Some workload_id =>
    start_container {| start_general_options := general_options workload_cfg;
                       container_id := workload_id |} name
  | None =>
    run_container workload_cfg name (agent_name (instance_name w)) control_interface_path
      workload_file_path_mappings
  end.

Definition create_workload (w : WorkloadNamed) (reusable_workload_id : option ContainerId)
    (control_interface_path : option path) (workload_file_path_mappings : gmap path string) :
    io CliHost RuntimeError (ContainerId * ContainerChecker) := λ h,
  match config_try_from (workload w) with
  | Err err => (Err (RuntimeErrorUnsupported err), h)
  | Ok workload_cfg =>
    let (cli_result, h) :=
      start_or_run workload_cfg w reusable_workload_id control_interface_path
        workload_file_path_mappings h in
    match cli_result with
    | Ok workload_id =>
      (state_checker ← start_checker workload_id w; mret (workload_id, state_checker)) h
    | Err err =>
      let (_, h) := remove_workloads_by_id (instance_name_to_string (instance_name w)) h in
      (Err (RuntimeErrorCreate err), h)
    end
  end.

Definition delete_workload (workload_id : ContainerId) : io CliHost RuntimeError () :=
  io_map_err RuntimeErrorDelete (remove_workloads_by_id workload_id).

Definition get_log_fetcher (workload_id : ContainerId) (options : LogRequestOptions) (h : CliHost) :
    result RuntimeError GenericLogFetcher :=
  Ok match spawn_output log_program (log_arguments workload_id options) h with
     | Some (out, err) => generic_log_fetcher_new (Some out) (Some err)
     | None => generic_log_fetcher_new None None
     end.

(** ** The connector the control loop uses *)

Definition container_connector `{FileSystem CliHost, Base64} : RuntimeConnector := {|
  World := CliHost;
  WorkloadId := ContainerId;
  StChecker := ContainerChecker;
  LogFetcher := GenericLogFetcher;
  runtime_create_workload := create_workload;
  runtime_get_workload_id := get_workload_id;
  runtime_start_checker := start_checker;
  runtime_get_log_fetcher := get_log_fetcher;
  runtime_delete_workload := delete_workload;
  stop_checker := λ _ h, h
|}.
End container_runtime.

(** ** Laws of the tools

    What podman and nerdctl document: [containers] are the containers that
    exist, with their names and labels.  Listing changes nothing and shows the
    containers with a label.  Running a container adds one under a fresh id; a
    failed run can leave a container that was created and did not start.  A
    container is removed by its id or by its name.  The configuration is regular
    when its options neither replace the name and the labels nor make the tool
    remove the container by itself. *)

Record Container := { container_name : string; container_labels : gmap string string }.

Class ContainerCliLaws (CC : ContainerCli) := {
  containers : CliHost → gmap string Container;
  regular_config : RunConfig → Prop;
  ids_by_label k v h ids h' :
    list_container_ids_by_label k v h = (Ok ids, h') →
    NoDup ids ∧
    ∀ id, id ∈ ids ↔ ∃ c, containers h !! id = Some c ∧ container_labels c !! k = Some v;
  ids_by_label_containers k v h : containers (list_container_ids_by_label k v h).2 = containers h;
  names_by_label k v h names h' :
    list_workload_names_by_label k v h = (Ok names, h') →
    ∀ name, name ∈ names ↔ ∃ id c, containers h !! id = Some c ∧
      container_labels c !! k = Some v ∧ container_labels c !! "name" = Some name;
  names_by_label_containers k v h : containers (list_workload_names_by_label k v h).2 = containers h;
  states_containers id h : containers (list_states_by_id id h).2 = containers h;
  reset_containers h : containers (reset_cache h) = containers h;
  run_ok cfg name agent p m h id h' :
    regular_config cfg → run_container cfg name agent p m h = (Ok id, h') →
    containers h !! id = None ∧
    ∃ c, containers h' = <[id := c]> (containers h) ∧
      container_labels c !! "name" = Some name ∧ container_labels c !! "agent" = Some agent;
  run_failed cfg name agent p m h e h' :
    regular_config cfg → run_container cfg name agent p m h = (Err e, h') →
    containers h' = containers h ∨
    ∃ id c, containers h !! id = None ∧ containers h' = <[id := c]> (containers h) ∧
      container_name c = name;
  remove_ok x h h' :
    remove_workloads_by_id x h = (Ok (), h') →
    containers h' = filter (λ ic, ic.1 ≠ x ∧ container_name ic.2 ≠ x) (containers h)
}.

Section laws.
Context {CC : ContainerCli} {CL : ContainerCliLaws CC}.

(** The containers that carry the name of a workload. *)
Definition named_containers (n : WorkloadInstanceNameSpec) (h : CliHost) : gmap string Container :=
  filter (λ ic, container_labels ic.2 !! "name" = Some (instance_name_to_string n)) (containers h).

Lemma get_workload_id_spec n h ids h' :
  list_container_ids_by_label "name" (instance_name_to_string n) h = (Ok ids, h') →
  get_workload_id n h =
    (match ids with
     | [id] => Ok id
     | _ => Err (RuntimeErrorList "Unexpected number of workloads")
     end, h') ∧
  (∀ id, id ∈ ids ↔ is_Some (named_containers n h !! id)).
Proof.
  intros Hlist. split.
  - unfold get_workload_id, io_map_err. cbv [mbind io_bind]. rewrite Hlist. simpl.
    by destruct ids as [|? []].
  - intros id. destruct (ids_by_label _ _ _ _ _ Hlist) as [_ ->]. unfold named_containers.
    split; [intros (c & Hc & Hl); exists c; by apply map_lookup_filter_Some|].
    intros [c Hc]. exists c. by apply map_lookup_filter_Some in Hc.
Qed.

Lemma get_workload_id_ok n h id h' :
  get_workload_id n h = (Ok id, h') →
  containers h' = containers h ∧ ∀ id', is_Some (named_containers n h !! id') ↔ id' = id.
Proof.
  destruct (list_container_ids_by_label "name" (instance_name_to_string n) h) as [r h1] eqn:Hlist.
  destruct r as [ids|err].
  - destruct (get_workload_id_spec n h ids h1 Hlist) as [-> Hids].
    destruct ids as [|id0 []]; intros [= <- <-]. split.
    + pose proof (ids_by_label_containers "name" (instance_name_to_string n) h) as Hc.
      by rewrite Hlist in Hc.
    + intros id'. rewrite <-Hids. apply list_elem_of_singleton.
  - unfold get_workload_id, io_map_err. cbv [mbind io_bind]. by rewrite Hlist.
Qed.

(** The workload that is reported as reusable is the only one of its name. *)
Definition reusable_found (h : CliHost) (n : WorkloadInstanceNameSpec) (r : ReusableWorkloadState) :
    Prop :=
  state_instance_name (reusable_state r) = n ∧
  ∃ id, reusable_workload_id r = Some id ∧ ∀ id', is_Some (named_containers n h !! id') ↔ id' = id.

Lemma named_containers_eq n h h' :
  containers h' = containers h → named_containers n h' = named_containers n h.
Proof. unfold named_containers. by intros ->. Qed.

Lemma sample_workload_states_ok names h l h' :
  sample_workload_states names h = (Ok l, h') →
  containers h' = containers h ∧ Forall2 (reusable_found h) names l.
Proof.
  revert h l. induction names as [|n names IH]; intros h l; cbn [sample_workload_states].
  { intros [= <- <-]. by split. }
  cbv [mbind io_bind mret io_ret io_map_err].
  destruct (get_workload_id n h) as [[id|err] h1] eqn:Hid; [|done].
  destruct (get_workload_id_ok _ _ _ _ Hid) as [Hsame Hnamed].
  pose proof (states_containers id h1) as Hstates.
  destruct (list_states_by_id id h1) as [[[e|]|err] h2]; simpl in *; [|done..].
  destruct (sample_workload_states names h2) as [[states|err] h3] eqn:Hrest; [|done].
  intros [= <- <-]. destruct (IH _ _ Hrest) as [Hh3 Hfound].
  assert (containers h2 = containers h) as Hh2 by congruence.
  split; [congruence|]. constructor; [by split; [|exists id]|].
  eapply Forall2_impl; [exact Hfound|]. intros m r (Hm & i & Hi & Hnm).
  split; [done|]. exists i. split; [done|]. intros i'. by rewrite <-(named_containers_eq m h h2).
Qed.

Lemma reusable_found_names h names l :
  Forall2 (reusable_found h) names l →
  (λ r, state_instance_name (reusable_state r)) <$> l = names.
Proof.
  induction 1 as [|n r names l [Hn _] _ IH]; [done|]. rewrite fmap_cons. by rewrite Hn, IH.
Qed.

Lemma elem_of_decodable_names n names :
  n ∈ decodable_names names ↔ ∃ x, x ∈ names ∧ instance_name_try_from x = Ok n.
Proof.
  unfold decodable_names. rewrite list_elem_of_omap. split.
  - intros (x & Hx & Hn). exists x. by destruct (instance_name_try_from x); simplify_eq.
  - intros (x & Hx & Hn). exists x. by rewrite Hn.
Qed.


(** ** The life of a container *)

Lemma create_workload_ok w cfg p m h id c h' :
  config_try_from (workload w) = Ok cfg → regular_config cfg →
  create_workload w None p m h = (Ok (id, c), h') →
  checked_id c = id ∧ containers h !! id = None ∧
  ∃ k, containers h' = <[id := k]> (containers h) ∧
    container_labels k !! "name" = Some (instance_name_to_string (instance_name w)) ∧
    container_labels k !! "agent" = Some (agent_name (instance_name w)).
Proof.
  intros Hcfg Hregular. unfold create_workload. rewrite Hcfg. unfold start_or_run.
  destruct (run_container _ _ _ _ _ h) as [[id0|err] h1] eqn:Hrun.
  - cbv [mbind io_bind mret io_ret start_checker]. intros [= <- <- <-].
    destruct (run_ok _ _ _ _ _ _ _ _ Hregular Hrun) as (Hnew & k & Hk & Hname & Hagent).
    split; [done|]. split; [done|]. exists k. by rewrite reset_containers.
  - by destruct (remove_workloads_by_id _ h1).
Qed.


(** The clean-up after a failed creation.  When the removal by name
    succeeds, no container of the failed workload is left and no other one is
    touched. *)
Theorem failed_creation_cleaned w cfg p m h err h' :
  config_try_from (workload w) = Ok cfg → regular_config cfg →
  create_workload w None p m h = (Err err, h') →
  let name := instance_name_to_string (instance_name w) in
  is_ok (remove_workloads_by_id name
    (run_container cfg name (agent_name (instance_name w)) p m h).2).1 = true →
  containers h' = filter (λ ic, ic.1 ≠ name ∧ container_name ic.2 ≠ name) (containers h).
Proof.
  intros Hcfg Hregular. unfold create_workload. rewrite Hcfg. unfold start_or_run.
  set (name := instance_name_to_string (instance_name w)).
  destruct (run_container cfg name (agent_name (instance_name w)) p m h) as [[id0|err0] h1] eqn:Hrun.
  - by cbv [mbind io_bind mret io_ret start_checker].
  - simpl. destruct (remove_workloads_by_id name h1) as [[[]|err1] h2] eqn:Hrm; [|done].
    intros [= <- <-] _. rewrite (remove_ok _ _ _ Hrm).
    destruct (run_failed _ _ _ _ _ _ _ _ Hregular Hrun) as [->|(id & k & Hnew & -> & Hk)]; [done|].
    rewrite map_filter_insert_False by (simpl; naive_solver).
    by rewrite delete_id.
Qed.
End laws.

(** ** A tool that satisfies the laws *)

Section examples.

Definition example_container (name agent : string) : Container :=
  {| container_name := name; container_labels := {["name" := name; "agent" := agent]} |}.

Definition labelled (k v : string) (h : gmap string Container) : gmap string Container :=
  filter (λ ic, container_labels ic.2 !! k = Some v) h.

Definition example_run (name agent : string) (h : gmap string Container) :
    result string string * gmap string Container :=
  let id := "id of " +:+ name in
  match h !! id with
  | Some _ => (Err "the name is in use", h)
  | None => (Ok id, <[id := example_container name agent]> h)
  end.

(** The containers are a map; every container is running. *)
Definition example_cli : ContainerCli := {|
  CliHost := gmap string Container;
  runtime_name := "podman";
  parse_config := λ s,
    Ok {| general_options := []; command_options := []; image := s; command_args := [] |};
  list_container_ids_by_label := λ k v h, (Ok (map_to_list (labelled k v h)).*1, h);
  list_workload_names_by_label := λ k v h,
    (Ok (omap (λ ic, container_labels ic.2 !! "name") (map_to_list (labelled k v h))), h);
  run_container := λ _ name agent _ _, example_run name agent;
  start_container := λ c _ h,
    (match h !! container_id c with Some _ => Ok (container_id c) | None => Err "no container" end, h);
  remove_workloads_by_id := λ x h, (Ok (), filter (λ ic, ic.1 ≠ x ∧ container_name ic.2 ≠ x) h);
  list_states_by_id := λ id h, (Ok ((λ _, running) <$> h !! id), h);
  reset_cache := λ h, h;
  get_state_error := "";
  log_program := "podman";
  spawn_output := λ _ _ _, None
|}.

Lemma example_run_ok name agent h id h' :
  example_run name agent h = (Ok id, h') →
  h !! id = None ∧ h' = <[id := example_container name agent]> h.
Proof. unfold example_run. case_match; intros; by simplify_eq. Qed.

Lemma example_run_failed name agent h e h' : example_run name agent h = (Err e, h') → h' = h.
Proof. unfold example_run. case_match; intros; by simplify_eq. Qed.

Program Definition example_laws : ContainerCliLaws example_cli := {|
  containers := λ h : gmap string Container, h;
  regular_config := λ _, True
|}.
Next Obligation.
  intros k v h ids h' [= <- <-]. split; [apply NoDup_fst_map_to_list|].
  intros id. rewrite list_elem_of_fmap. split.
  - intros ([id' c] & -> & Hc). apply elem_of_map_to_list in Hc. exists c.
    by apply map_lookup_filter_Some in Hc.
  - intros (c & Hc & Hl). exists (id, c). split; [done|]. apply elem_of_map_to_list.
    by apply map_lookup_filter_Some.
Qed.
Next Obligation. done. Qed.
Next Obligation.
  intros k v h names h' [= <- <-] name. rewrite list_elem_of_omap. split.
  - intros ([id c] & Hc & Hname). apply elem_of_map_to_list, map_lookup_filter_Some in Hc as [Hc Hl].
    by exists id, c.
  - intros (id & c & Hc & Hl & Hname). exists (id, c). split; [|exact Hname].
    by apply elem_of_map_to_list, map_lookup_filter_Some.
Qed.
Next Obligation. done. Qed.
Next Obligation. done. Qed.
Next Obligation. done. Qed.
Next Obligation.
  intros cfg name agent p m h id h' _ Hrun.
  destruct (example_run_ok _ _ _ _ _ Hrun) as [Hid ->].
  split; [done|]. by exists (example_container name agent).
Qed.
Next Obligation.
  intros cfg name agent p m h e h' _ Hrun. left. exact (example_run_failed _ _ _ _ _ Hrun).
Qed.
Next Obligation. by intros x h h' [= <-]. Qed.

#[local] Existing Instance example_cli.
#[local] Existing Instance example_laws.

Definition example_workload_named : WorkloadNamed := {|
  instance_name := example_instance_name;
  workload := {|
    agent := "agent_A"; restart_policy := Never; dependencies := ∅; tags := ∅;
    Api.runtime := "podman"; runtime_config := "image";
    control_interface_access := {| allow_rules := []; deny_rules := [] |};
    workload_configs := ∅; workload_files := [] |}
|}.

Definition example_empty : CliHost := (∅ : gmap string Container).
Definition example_created : CliHost :=
  (create_workload example_workload_named None None ∅ example_empty).2.

Definition example_reusable : ReusableWorkloadState :=
  reusable_workload_state_new example_instance_name running (Some "id of nginx.abc.agent_A").



Definition example_create_again : CliHost :=
  (create_workload example_workload_named None None ∅ example_created).2.

Lemma failed_creation_cleaned_witness : containers example_create_again = ∅.
Proof.
  rewrite (failed_creation_cleaned example_workload_named
    {| general_options := []; command_options := []; image := "image"; command_args := [] |}
    None ∅ example_created (RuntimeErrorCreate "the name is in use") example_create_again).
  - vm_compute. reflexivity.
  - reflexivity.
  - exact I.
  - vm_compute. reflexivity.
  - vm_compute. reflexivity.
Defined.
End examples.
