(* ===== verification/PodmanRuntime.v ===== *)
(** * Ankaios agent: podman runtime

    [agent/src/runtime_connectors/podman/podman_runtime.rs] and
    [podman_runtime_config.rs]: the runtime of containers with [podman] as its
    tool. *)

From stdpp Require Import base tactics numbers gmap strings list.
From S2P Require Import Prelude Api WorkloadFiles ControlLoop CliCommand PodmanCli LogFetching StateChecker ContainerRuntime.

Definition PODMAN_RUNTIME_NAME : string := "podman".

(** [serde_yaml::from_str] for the runtime configuration, and the start of a
    process whose output streams are read. *)
Class ToolConfig (W : Type) := {
  config_from_yaml : string → result string RunConfig;
  spawn : string → list string → W → option (list ReadResult * list ReadResult)
}.

Section podman_runtime.
Context {W : Type} `{Host W, PodmanDecoder, IterOrder, ToolConfig W}.

Definition podman_container_cli : ContainerCli := {|
  CliHost := Cached W PodmanPsResult;
  runtime_name := PODMAN_RUNTIME_NAME;
  parse_config := config_from_yaml;
  list_container_ids_by_label := podman_list_container_ids_by_label;
  list_workload_names_by_label := podman_list_workload_names_by_label;
  run_container := podman_run;
  start_container := podman_start;
  remove_workloads_by_id := podman_remove_workloads_by_id;
  list_states_by_id := podman_list_states_by_id;
  reset_cache := podman_reset_ps_cache;
  get_state_error := "Error getting state from Podman.";
  log_program := PODMAN_CMD;
  spawn_output := λ p args s, spawn p args (host s)
|}.

Definition podman_get_state := get_state (CC := podman_container_cli).
Definition podman_sample_workload_states := sample_workload_states (CC := podman_container_cli).
Definition podman_get_reusable_workloads := get_reusable_workloads (CC := podman_container_cli).
Definition podman_create_workload := create_workload (CC := podman_container_cli).
Definition podman_get_workload_id := get_workload_id (CC := podman_container_cli).
Definition podman_start_checker := start_checker (CC := podman_container_cli).
Definition podman_get_log_fetcher := get_log_fetcher (CC := podman_container_cli).
Definition podman_delete_workload := delete_workload (CC := podman_container_cli).
Definition podman_config_try_from := config_try_from (CC := podman_container_cli).

(** A workload whose state podman reports is never taken for removed: the
    checker of a podman workload does not end by itself. *)
Lemma execution_state_from_not_removed i : is_removed (execution_state_from i) = false.
Proof. unfold execution_state_from. repeat case_match; done. Qed.

(** The state of a podman workload.  It is the state that the last entry
    with its id has in a [podman ps] that ended at most a second ago, the lost
    state when there is no entry, and an unknown state when podman failed twice;
    it is never the removed state. *)
Theorem podman_get_state_spec id s :
  podman_cache_sampled s →
  ∃ infos s', podman_get_state id s =
    (match infos with
     | Ok infos => default lost (execution_state_from <$> info_by_id id infos)
     | Err _ => unknown "Error getting state from Podman."
     end, s') ∧ recent_ps infos (host s') ∧
    is_removed (podman_get_state id s).1 = false.
Proof.
  intros Hs. destruct (podman_get_ps_result_recent s Hs) as (infos & s' & Hget & Hrecent & _).
  assert (podman_get_state id s =
    (match infos with
     | Ok infos => default lost (execution_state_from <$> info_by_id id infos)
     | Err _ => unknown "Error getting state from Podman."
     end, s')) as Hstate.
  { unfold podman_get_state, get_state. cbn [list_states_by_id podman_container_cli].
    unfold podman_list_states_by_id. rewrite Hget. destruct infos as [infos|err]; simpl; [|done].
    rewrite add_container_states. by destruct (info_by_id id infos). }
  exists infos, s'. rewrite Hstate. split_and!; [done|done|].
  destruct infos as [infos|err]; simpl; [|done].
  destruct (info_by_id id infos); simpl; [apply execution_state_from_not_removed|done].
Qed.
End podman_runtime.

Section examples.
#[local] Existing Instance PodmanCli.example_host.
#[local] Existing Instance PodmanCli.example_decoder.

Definition example_tool_config : ToolConfig (gmap string string) := {|
  config_from_yaml := λ _, Err "no configuration";
  spawn := λ _ _ _, None
|}.

Lemma podman_get_state_spec_witness :
  is_removed (podman_get_state (H2 := example_tool_config) (H1 := key_order) "id1"
    PodmanCli.example_state).1 = false.
Proof.
  destruct (podman_get_state_spec (H2 := example_tool_config) (H1 := key_order) "id1"
    PodmanCli.example_state) as (infos & s' & _ & _ & Hstate).
  - intros c Hc. discriminate Hc.
  - exact Hstate.
Defined.
End examples.
