(* ===== verification/NerdctlCli.v ===== *)
(** * Ankaios agent: nerdctl

    [agent/src/runtime_connectors/containerd/nerdctl_cli.rs]: the calls of the
    [nerdctl] command and the evaluation of its output, a JSON document per
    line. *)

From Stdlib Require Import Ascii.
From stdpp Require Import base tactics numbers gmap strings list pretty.
From S2P Require Import Prelude Utf8 Api WorkloadFiles CliCommand.

Definition NERDCTL_CMD : string := "nerdctl".

Record NerdctlContainerInfo := {
  status : string;
  status_exit_code : N;
  nerdctl_id : string
}.

(** [serde_json::from_str] for a line with an id, a line with the labels as one
    text, and the output of [inspect]. *)
Class NerdctlDecoder := {
  container_id_from_json : string → result string string;
  raw_labels_from_json : string → result string string;
  inspect_from_json : string → result string (list NerdctlContainerInfo)
}.

Definition nerdctl_execution_state_from (value : NerdctlContainerInfo) : ExecutionStateSpec :=
  match to_lowercase (status value) with
  | "created" => starting (status value)
  | "exited" =>
    if (status_exit_code value =? 0)%N then succeeded
    else failed ("Exit code: '" +:+ pretty (status_exit_code value) +:+ "'")
  | "running" => running
  | "removing" => stopping (status value)
  | "paused" => unknown (status value)
  | "restarting" => starting (status value)
  | "dead" => failed ("Exit code: '" +:+ pretty (status_exit_code value) +:+ "'")
  | state => unknown state
  end.

Definition NerdctlPsResult := result string (gmap string ExecutionStateSpec).

Definition nerdctl_ps_result_from (value : result string (list NerdctlContainerInfo)) :
    NerdctlPsResult :=
  match value with
  | Ok container_infos =>
    Ok (foldl (λ m i, <[nerdctl_id i := nerdctl_execution_state_from i]> m) ∅ container_infos)
  | Err err => Err err
  end.

(** Labels are printed as [key=value], separated by commas. *)
Definition parse_labels (raw_labels : string) : gmap string string :=
  foldl (λ labels part,
    match split_once "=" part with
    | Some (key, value) => <[key := value]> labels
    | None => labels
    end) ∅ (split_on "," raw_labels).

(** [str::lines], without the lines that are blank: a carriage return before the
    line feed belongs to the line's end. *)
Definition strip_carriage_return (l : string) : string :=
  if ends_with (String "013" "") l then str_pop l else l.
Definition json_lines (output : string) : list string :=
  filter (λ l, str_is_empty (trim l) = false) (strip_carriage_return <$> split_on "010" output).

Section nerdctl_cli.
Context {W : Type} `{Host W, NerdctlDecoder, IterOrder}.

Abbreviation NerdctlHost := (Cached W NerdctlPsResult).

Definition nerdctl (args : list string) : io NerdctlHost string string :=
  on_host (run_tool NERDCTL_CMD args).

Definition nerdctl_list_states_internal : io W string (list NerdctlContainerInfo) :=
  output ← run_tool NERDCTL_CMD ["ps"; "--all"; "--no-trunc"; "--format=json"];
  container_ids ← io_of (try_collect (λ line,
    map_err (λ err, "Could not parse nerdctl ps output: '" +:+ err +:+ "'")
      (container_id_from_json line)) (json_lines output));
  match container_ids with
  | [] => mret []
  | _ =>
    output ← run_tool NERDCTL_CMD ("inspect" :: container_ids);
    io_of (map_err (λ err, "Could not parse nerdctl inspect output: '" +:+ err +:+
                           "', output: " +:+ output) (inspect_from_json output))
  end.

Definition nerdctl_reset_ps_cache : NerdctlHost → NerdctlHost := reset_ps_cache.

Definition nerdctl_get_ps_result : NerdctlHost → NerdctlPsResult * NerdctlHost :=
  get_ps_result nerdctl_list_states_internal nerdctl_ps_result_from.

Definition nerdctl_list_states_by_id (workload_id : string) :
    io NerdctlHost string (option ExecutionStateSpec) := λ s,
  let (ps_result, s) := nerdctl_get_ps_result s in
  (match ps_result with
   | Ok all_containers_states => Ok (all_containers_states !! workload_id)
   | Err err => Err err
   end, s).

Definition filter_container_ids_by_label (key value : string) : io NerdctlHost string string :=
  nerdctl ["ps"; "--all"; "--no-trunc"; "--filter"; "label=" +:+ key +:+ "=" +:+ value; "--format=json"].

Definition nerdctl_parse_error (err : string) : string :=
  "Could not parse nerdctl output: '" +:+ err +:+ "'".

Definition nerdctl_list_container_ids_by_label (key value : string) :
    io NerdctlHost string (list string) :=
  output ← filter_container_ids_by_label key value;
  io_of (try_collect (λ line, map_err nerdctl_parse_error (container_id_from_json line))
           (json_lines output)).

Definition nerdctl_list_workload_names_by_label (key value : string) :
    io NerdctlHost string (list string) :=
  output ← filter_container_ids_by_label key value;
  container_labels ← io_of (try_collect
    (λ line, map_err nerdctl_parse_error (parse_labels <$> raw_labels_from_json line))
    (json_lines output));
  mret (omap (λ labels : gmap string string, labels !! "name") container_labels).

Definition nerdctl_run (run_config : RunConfig) (workload_name agent : string)
    (control_interface_path : option path) (workload_file_path_mappings : gmap path string) :
    io NerdctlHost string string :=
  output ← nerdctl (run_arguments run_config workload_name agent control_interface_path
                      workload_file_path_mappings);
  mret (trim output).

Definition nerdctl_start (start_config : StartConfig) (workload_name : string) :
    io NerdctlHost string string :=
  output ← nerdctl (start_arguments start_config);
  mret (trim output).

Definition CONTAINER_NOT_EXISTING : string := "no such container".

(** A container that does not exist is as good as one that was removed. *)
Definition ignore_missing (r : result string string) : result string () :=
  match r with
  | Ok _ => Ok ()
  | Err err => if str_contains CONTAINER_NOT_EXISTING err then Ok () else Err err
  end.

Definition nerdctl_remove_workloads_by_id (workload_id : string) : io NerdctlHost string () := λ s,
  let (r, s) := nerdctl ["stop"; workload_id] s in
  match ignore_missing r with
  | Err err => (Err err, s)
  | Ok _ =>
    let (r, s) := nerdctl ["rm"; workload_id] s in
    (ignore_missing r, s)
  end.
End nerdctl_cli.

(** ** Labels *)

(** The text of labels, as [nerdctl ps] prints them. *)
Definition print_labels (labels : list (string * string)) : string :=
  join "," ((λ kv : string * string, kv.1 +:+ "=" +:+ kv.2) <$> labels).

Lemma parse_labels_parts parts :
  foldl (λ (labels : gmap string string) part,
    match split_once "=" part with
    | Some (key, value) => <[key := value]> labels
    | None => labels
    end) ∅ parts =
  list_to_map (reverse (omap (split_once "=") parts)).
Proof.
  induction parts as [|part parts IH] using rev_ind; [done|].
  rewrite foldl_app, omap_app. simpl. rewrite IH.
  destruct (split_once "=" part) as [[key value]|]; simpl.
  - by rewrite reverse_snoc.
  - by rewrite app_nil_r.
Qed.

(** The labels of a container are read back as they were given, provided
    that no key holds an equals sign or a comma and no value holds a comma. *)
Theorem labels_roundtrip (labels : gmap string string) l :
  l ≠ [] → NoDup l.*1 → list_to_map l = labels →
  Forall (λ kv, has_char "=" kv.1 = false ∧ has_char "," kv.1 = false ∧ has_char "," kv.2 = false) l →
  parse_labels (print_labels l) = labels.
Proof.
  intros Hne Hnodup <- Hl. unfold parse_labels, print_labels.
  change (join "," ?l) with (join (String ","%char "") l). rewrite split_on_join.
  - rewrite parse_labels_parts.
    assert (omap (split_once "=") ((λ kv : string * string, kv.1 +:+ "=" +:+ kv.2) <$> l) = l) as ->.
    { clear Hne Hnodup. induction Hl as [|[k v] l (Hk & _) Hl IH]; [done|]. rewrite fmap_cons.
      simpl. change ("=" +:+ v) with (String "="%char v). rewrite split_once_app by done.
      exact (f_equal (cons (k, v)) IH). }
    apply list_to_map_proper; [|apply reverse_Permutation].
    eapply NoDup_Permutation_proper; [|exact Hnodup]. apply fmap_Permutation, reverse_Permutation.
  - by destruct l.
  - apply Forall_fmap. eapply Forall_impl; [exact Hl|]. intros [k v] (Hk & Hk' & Hv). simpl.
    simpl in *. rewrite has_char_app, Hk'. simpl. by rewrite has_char_cons, Hv.
Qed.

Lemma labels_roundtrip_witness :
  parse_labels (print_labels [("name", "nginx.abc.agent_A"); ("agent", "agent_A")]) =
  {["name" := "nginx.abc.agent_A"; "agent" := "agent_A"]}.
Proof.
  apply labels_roundtrip.
  - discriminate.
  - apply (bool_decide_unpack _). vm_compute. exact I.
  - vm_compute. reflexivity.
  - repeat constructor.
Defined.
