(* ===== verification/ContainerdRuntime.v ===== *)
(** * Ankaios agent: containerd runtime

    [agent/src/runtime_connectors/containerd/containerd_runtime.rs] and
    [containerd_runtime_config.rs]: the runtime of containers with [nerdctl] as
    its tool. *)

From stdpp Require Import base tactics numbers gmap strings list.
From S2P Require Import Prelude Api WorkloadFiles ControlLoop CliCommand NerdctlCli LogFetching StateChecker ContainerRuntime PodmanRuntime.

Definition CONTAINERD_RUNTIME_NAME : string := "containerd".

Section containerd_runtime.
Context {W : Type} `{Host W, NerdctlDecoder, IterOrder, ToolConfig W}.

Definition nerdctl_container_cli : ContainerCli := {|
  CliHost := Cached W NerdctlPsResult;
  runtime_name := CONTAINERD_RUNTIME_NAME;
  parse_config := config_from_yaml;
  list_container_ids_by_label := nerdctl_list_container_ids_by_label;
  list_workload_names_by_label := nerdctl_list_workload_names_by_label;
  run_container := nerdctl_run;
  start_container := nerdctl_start;
  remove_workloads_by_id := nerdctl_remove_workloads_by_id;
  list_states_by_id := nerdctl_list_states_by_id;
  reset_cache := nerdctl_reset_ps_cache;
  get_state_error := "Error getting state from Nerdctl.";
  log_program := NERDCTL_CMD;
  spawn_output := λ p args s, spawn p args (host s)
|}.

Definition containerd_get_state := get_state (CC := nerdctl_container_cli).
Definition containerd_sample_workload_states := sample_workload_states (CC := nerdctl_container_cli).
Definition containerd_get_reusable_workloads := get_reusable_workloads (CC := nerdctl_container_cli).
Definition containerd_create_workload := create_workload (CC := nerdctl_container_cli).
Definition containerd_get_workload_id := get_workload_id (CC := nerdctl_container_cli).
Definition containerd_start_checker := start_checker (CC := nerdctl_container_cli).
Definition containerd_get_log_fetcher := get_log_fetcher (CC := nerdctl_container_cli).
Definition containerd_delete_workload := delete_workload (CC := nerdctl_container_cli).
Definition containerd_config_try_from := config_try_from (CC := nerdctl_container_cli).

(** The cache holds what [nerdctl ps] and [nerdctl inspect] reported. *)
Definition nerdctl_cache_sampled : Cached W NerdctlPsResult → Prop :=
  cache_sampled nerdctl_list_states_internal nerdctl_ps_result_from.

Lemma nerdctl_states_lookup infos id :
  foldl (λ (m : gmap string ExecutionStateSpec) i,
    <[nerdctl_id i := nerdctl_execution_state_from i]> m) ∅ infos !! id =
  nerdctl_execution_state_from <$> last (filter (λ i, nerdctl_id i = id) infos).
Proof.
  induction infos as [|i infos IH] using rev_ind; [done|].
  rewrite foldl_app, filter_app, filter_cons, filter_nil. simpl. case_decide as Hi.
  - subst. by rewrite lookup_insert_eq, last_snoc.
  - rewrite lookup_insert_ne by done. by rewrite app_nil_r.
Qed.

(** The state of a containerd workload is taken from an inspection of all
    containers that ended at most a second ago; a workload that is not in it is
    lost, and after two failures its state is unknown. *)
Theorem containerd_get_state_spec id s :
  nerdctl_cache_sampled s →
  ∃ w0 infos w1 s', containerd_get_state id s =
    (match infos with
     | Ok infos =>
       default lost (nerdctl_execution_state_from <$> last (filter (λ i, nerdctl_id i = id) infos))
     | Err _ => unknown "Error getting state from Nerdctl."
     end, s') ∧
    nerdctl_list_states_internal w0 = (infos, w1) ∧
    (clock (host s') - clock w1 ≤ PS_CACHE_MAX_AGE)%N ∧ nerdctl_cache_sampled s'.
Proof.
  intros Hs. destruct (get_ps_result_fresh _ _ _ Hs) as (c & s' & Hget & Hc & Hsampled & Hage).
  destruct Hsampled as (w & infos & w' & Hr & Hcache & Htime).
  exists w, infos, w', s'. split_and!.
  - unfold containerd_get_state, get_state. cbn [list_states_by_id nerdctl_container_cli].
    unfold nerdctl_list_states_by_id, nerdctl_get_ps_result. rewrite Hget, Hcache.
    destruct infos as [infos|err]; simpl; [|done]. rewrite nerdctl_states_lookup.
    by destruct (last _).
  - done.
  - by rewrite <-Htime.
  - intros c' Hc'. simplify_eq. by exists w, infos, w'.
Qed.
End containerd_runtime.

Section examples.
#[local] Existing Instance PodmanCli.example_host.

Definition example_nerdctl_decoder : NerdctlDecoder := {|
  container_id_from_json := Ok;
  raw_labels_from_json := Ok;
  inspect_from_json := λ _, Ok []
|}.

Definition example_nerdctl_state : Cached (gmap string string) NerdctlPsResult :=
  {| host := ∅; last_ps_result := None |}.

Lemma containerd_get_state_spec_witness :
  (containerd_get_state (H0 := example_nerdctl_decoder) (H1 := key_order)
     (H2 := example_tool_config) "id1" example_nerdctl_state).1 =
  unknown "Error getting state from Nerdctl.".
Proof.
  destruct (containerd_get_state_spec (H0 := example_nerdctl_decoder) (H1 := key_order)
    (H2 := example_tool_config) "id1" example_nerdctl_state)
    as (w0 & infos & w1 & s' & Hstate & Hps & _).
  - intros c Hc. discriminate Hc.
  - rewrite Hstate. destruct infos as [infos|err]; [vm_compute in Hps; discriminate Hps|reflexivity].
Defined.
End examples.
