(* ===== verification/KubeManifest.v ===== *)
(** * Ankaios agent: control interface of podman-kube workloads

    [agent/src/runtime_connectors/podman_kube/podman_kube_control_interface.rs]:
    the folder with the pipes is mounted into one container of a Kubernetes
    manifest.  The manifest is a list of YAML documents; a volume is added to
    the specification of the target pod and a mount to its target container.

    A mutable reference into a document is the path of keys it was found by. *)

From Stdlib Require Import Ascii.
From stdpp Require Import base tactics numbers gmap strings list.
From S2P Require Import Prelude Api StateManipulation WorkloadFiles ControlLoop CliCommand.

(** ** The configuration ([podman_kube_runtime_config.rs]) *)

Record PodmanKubeRuntimeConfig := {
  kube_general_options : list string;
  play_options : list string;
  down_options : list string;
  control_interface_target : option string;
  manifest : string
}.

Definition set_manifest (m : string) (c : PodmanKubeRuntimeConfig) : PodmanKubeRuntimeConfig := {|
  kube_general_options := kube_general_options c; play_options := play_options c;
  down_options := down_options c; control_interface_target := control_interface_target c;
  manifest := m
|}.

Record ControlInterfaceTarget := { target_pod : string; target_container : string }.

Definition TARGET_PATH_LENGTH : nat := 2.

Definition from_podman_kube_runtime_config (config : PodmanKubeRuntimeConfig) :
    result RuntimeError (option ControlInterfaceTarget) :=
  match control_interface_target config with
  | None => Ok None
  | Some target_path =>
    match split_on "/" target_path with
    | [pod; container] => Ok (Some {| target_pod := pod; target_container := container |})
    | _ =>
      Err (RuntimeErrorUnsupported ("Invalid control interface target format: '" +:+ target_path +:+
             "'. Expected format: '<pod_name>/<container_name>'"))
    end
  end.

(** ** YAML documents

    The accessors of [serde_yaml::Value] look through tags ([untag]). *)

(** [as_sequence_mut] and the assignment of the sequence. *)
Fixpoint set_sequence (v : Value) (l : list Value) : Value :=
  match v with VTagged t v => VTagged t (set_sequence v l) | _ => VSequence l end.

(** A step that can fail and that can panic; the panic is [None]. *)
Definition on_ok {E A B} (f : A → B) (r : option (result E A)) : option (result E B) :=
  match r with
  | Some (Ok a) => Some (Ok (f a))
  | Some (Err e) => Some (Err e)
  | None => None
  end.

Section manifest.
Context `{YamlMapping}.

Definition get_key (v : Value) (key : string) : option Value :=
  match untag v with VMapping m => mapping_get m (VString key) | _ => None end.

Fixpoint set_key (v : Value) (key : string) (x : Value) : Value :=
  match v with
  | VTagged t v => VTagged t (set_key v key x)
  | VMapping m => VMapping (mapping_insert (VString key) x m)
  | v => v
  end.

Fixpoint get_path (v : Value) (p : list string) : option Value :=
  match p with
  | [] => Some v
  | key :: p => w ← get_key v key; get_path w p
  end.

Fixpoint set_path (v : Value) (p : list string) (x : Value) : Value :=
  match p with
  | [] => x
  | key :: p => match get_key v key with Some w => set_key v key (set_path w p x) | None => v end
  end.

(** ** The target *)

Definition get_metadata_name (manifest : Value) : result RuntimeError string :=
  match m ← get_key manifest "metadata"; n ← get_key m "name"; as_str n with
  | Some name => Ok name
  | None => Err (RuntimeErrorUnsupported "Manifest missing metadata.name")
  end.

Definition should_inject_control_interface (manifest : Value) (target_pod_name : string) :
    result RuntimeError bool :=
  kind ← match k ← get_key manifest "kind"; as_str k with
         | Some kind => Ok kind
         | None => Err (RuntimeErrorUnsupported "Manifest missing 'kind' field")
         end;
  manifest_name ← get_metadata_name manifest;
  if String.eqb kind "Pod" then Ok (String.eqb manifest_name target_pod_name)
  else if String.eqb kind "Deployment" then
    Ok (String.eqb (manifest_name +:+ "-pod") target_pod_name)
  else Ok false.

(** The containers of a pod stand in its specification, those of a deployment in
    the specification of its template. *)
Definition find_containers_spec (value : Value) : option (list string) :=
  spec ← get_key value "spec";
  match get_key spec "containers" with
  | Some _ => Some ["spec"]
  | None =>
    template ← get_key spec "template";
    _ ← get_key template "spec";
    Some ["spec"; "template"; "spec"]
  end.

(** ** The mount *)

Definition control_interface_mount : Value :=
  VMapping (mapping_insert (VString "mountPath") (VString API_PIPES_MOUNT_POINT)
    (mapping_insert (VString "name") (VString "control-interface-volume") [])).

(** The sequence under a key gets one more element; an absent key counts as an
    empty sequence.  [None] if there is no sequence. *)
Definition push_under (v : Value) (key : string) (x : Value) : option Value :=
  if is_mapping v then
    let entry := default (VSequence []) (get_key v key) in
    l ← as_sequence entry;
    Some (set_key v key (set_sequence entry (l ++ [x])))
  else None.

(** [None] is the panic of the two [unwrap]s. *)
Definition add_control_interface_mount (container : Value) : option Value :=
  push_under container "volumeMounts" control_interface_mount.

(** The loop over the containers; the outer [None] is the panic. *)
Fixpoint mount_in_containers (containers : list Value) (target_container_name : string) :
    option (result RuntimeError (list Value)) :=
  match containers with
  | [] =>
    Some (Err (RuntimeErrorUnsupported
      ("Cannot add Control Interface. Target container '" +:+ target_container_name +:+
       "' not found.")))
  | container :: containers =>
    match n ← get_key container "name"; as_str n with
    | None => Some (Err (RuntimeErrorUnsupported "Container missing name field"))
    | Some container_name =>
      if String.eqb container_name target_container_name then
        container ← add_control_interface_mount container;
        Some (Ok (container :: containers))
      else
        on_ok (cons container) (mount_in_containers containers target_container_name)
    end
  end.

Definition inject_volume_mount (manifest : Value) (target_container_name : string) :
    option (result RuntimeError Value) :=
  match p ← find_containers_spec manifest; spec ← get_path manifest p;
        entry ← get_key spec "containers"; containers ← as_sequence entry;
        Some (p, spec, entry, containers) with
  | None => Some (Err (RuntimeErrorUnsupported "Manifest missing spec.containers"))
  | Some (p, spec, entry, containers) =>
    on_ok (λ containers, set_path manifest p
             (set_key spec "containers" (set_sequence entry containers)))
      (mount_in_containers containers target_container_name)
  end.

(** ** The volume *)

Definition create_control_interface_volume (control_interface_path : path) : Value :=
  VMapping (mapping_insert (VString "hostPath")
    (VMapping (mapping_insert (VString "type") (VString "Directory")
       (mapping_insert (VString "path") (VString (path_text control_interface_path)) [])))
    (mapping_insert (VString "name") (VString "control-interface-volume") [])).

Definition inject_control_volume (manifest : Value) (control_interface_path : path) :
    result RuntimeError Value :=
  match p ← find_containers_spec manifest; spec ← get_path manifest p;
        if is_mapping spec then Some (p, spec) else None with
  | None => Err (RuntimeErrorUnsupported "Manifest missing spec")
  | Some (p, spec) =>
    match push_under spec "volumes" (create_control_interface_volume control_interface_path) with
    | None => Err (RuntimeErrorUnsupported "Manifest missing spec.volumes")
    | Some spec => Ok (set_path manifest p spec)
    end
  end.

Definition inject_control_interface (manifest : Value) (container_name : string)
    (control_interface_path : path) : option (result RuntimeError Value) :=
  r ← inject_volume_mount manifest container_name;
  Some match r with
       | Ok manifest => inject_control_volume manifest control_interface_path
       | Err e => Err e
       end.

Fixpoint add_control_interface_in_correct_manifest (manifests : list Value)
    (target : ControlInterfaceTarget) (control_interface_path : path) :
    option (result RuntimeError (list Value)) :=
  match manifests with
  | [] =>
    Some (Err (RuntimeErrorUnsupported
      ("Cannot add Control Interface. Target pod not found '" +:+ target_pod target +:+ "'")))
  | manifest :: manifests =>
    match should_inject_control_interface manifest (target_pod target) with
    | Err e => Some (Err e)
    | Ok true =>
      on_ok (λ m, m :: manifests)
        (inject_control_interface manifest (target_container target) control_interface_path)
    | Ok false =>
      on_ok (cons manifest)
        (add_control_interface_in_correct_manifest manifests target control_interface_path)
    end
  end.
End manifest.

(** The YAML parser and printer for a manifest of several documents. *)
Class YamlDocuments := {
  documents_from_str : string → result string (list Value);
  document_to_string : Value → result string string
}.

Section add_control_interface.
Context `{YamlMapping, YamlDocuments}.

Definition parse_yaml_manifests (manifest_str : string) : result RuntimeError (list Value) :=
  map_err (λ e, RuntimeErrorUnsupported ("Failed to parse YAML manifest: " +:+ e))
    (documents_from_str manifest_str).

Definition serialize_yaml_manifest (manifest : Value) : result RuntimeError string :=
  map_err (λ e, RuntimeErrorUnsupported ("Failed to serialize manifest: " +:+ e))
    (document_to_string manifest).

(** [None] is a panic. *)
Definition add_control_interface (workload_config : PodmanKubeRuntimeConfig)
    (target : ControlInterfaceTarget) (control_interface_path : path) :
    option (result RuntimeError PodmanKubeRuntimeConfig) :=
  match parse_yaml_manifests (manifest workload_config) with
  | Err e => Some (Err e)
  | Ok manifests =>
    r ← add_control_interface_in_correct_manifest manifests target control_interface_path;
    Some match r with
         | Ok manifests =>
           texts ← try_collect serialize_yaml_manifest manifests;
           Ok (set_manifest (join ("---" +:+ String "010" "") texts) workload_config)
         | Err e => Err e
         end
  end.
End add_control_interface.

(** ** What is changed *)

(** Induction over the tags around a value. *)
Lemma tag_ind (P : Value → Prop) :
  (∀ v, (∀ t w, v ≠ VTagged t w) → P v) → (∀ t v, P v → P (VTagged t v)) → ∀ v, P v.
Proof. intros Hbase Htag. fix IH 1. intros []; try (apply Hbase; discriminate). apply Htag, IH. Qed.

Section injection.
Context `{YamlMapping}.

Lemma get_key_mapping v k w : get_key v k = Some w → is_mapping v = true.
Proof. unfold get_key, is_mapping. by destruct (untag v). Qed.

Lemma get_set_key v k x k' :
  is_mapping v = true →
  get_key (set_key v k x) k' = if decide (k' = k) then Some x else get_key v k'.
Proof.
  unfold get_key, is_mapping. induction v as [v Hv|t v IH] using tag_ind; [|exact IH].
  destruct v; simpl; try done; [|by destruct (Hv tag v)]. intros _.
  rewrite mapping_get_insert. by repeat case_decide; simplify_eq.
Qed.

Lemma is_mapping_set_key v k x : is_mapping (set_key v k x) = is_mapping v.
Proof.
  unfold is_mapping. induction v as [v Hv|t v IH] using tag_ind; [|exact IH].
  destruct v; try done. by destruct (Hv tag v).
Qed.

Lemma as_sequence_set v l : as_sequence (set_sequence v l) = Some l.
Proof.
  unfold as_sequence. induction v as [v Hv|t v IH] using tag_ind; [|exact IH].
  destruct v; try done. by destruct (Hv tag v).
Qed.

Lemma get_set_path v p w x : get_path v p = Some w → get_path (set_path v p x) p = Some x.
Proof.
  revert v. induction p as [|k p IH]; intros v; simpl; [done|].
  destruct (get_key v k) as [u|] eqn:Hk; simpl; [|done]. intros Hp.
  rewrite get_set_key by (by eapply get_key_mapping). rewrite decide_True by done. simpl. by apply IH.
Qed.

(** The other parts of the document. *)
Lemma get_set_path_other v p x q :
  ¬ p `prefix_of` q → ¬ q `prefix_of` p → get_path (set_path v p x) q = get_path v q.
Proof.
  revert v q. induction p as [|k p IH]; intros v q Hp Hq; simpl; [by destruct Hp; apply prefix_nil|].
  destruct (get_key v k) as [u|] eqn:Hk; [|done].
  destruct q as [|k' q]; [by destruct Hq; apply prefix_nil|]. simpl.
  rewrite get_set_key by (by eapply get_key_mapping). case_decide as Hkk; [subst k'|done].
  rewrite Hk. simpl. apply IH; intros Hpre; [apply Hp|apply Hq]; by apply prefix_cons.
Qed.

Lemma find_containers_spec_path m p :
  find_containers_spec m = Some p → is_Some (get_path m p).
Proof.
  unfold find_containers_spec. destruct (get_key m "spec") as [spec|] eqn:Hspec; simpl; [|done].
  destruct (get_key spec "containers"); [intros [= <-]; simpl; by rewrite Hspec|].
  destruct (get_key spec "template") as [t|] eqn:Ht; simpl; [|done].
  destruct (get_key t "spec") as [s|] eqn:Hs; simpl; [|done]. intros [= <-]. simpl.
  rewrite Hspec. simpl. rewrite Ht. simpl. by rewrite Hs.
Qed.

(** The specification is found again at its place while it has containers. *)
Lemma find_containers_spec_set m p spec :
  find_containers_spec m = Some p → is_Some (get_key spec "containers") →
  find_containers_spec (set_path m p spec) = Some p.
Proof.
  intros Hfind [cs Hcs]. pose proof Hfind as Hfind'. unfold find_containers_spec in Hfind.
  destruct (get_key m "spec") as [s|] eqn:Hspec; simpl in Hfind; [|done].
  pose proof (get_key_mapping _ _ _ Hspec) as Hm.
  destruct (get_key s "containers") as [c|] eqn:Hc.
  - injection Hfind as <-. unfold find_containers_spec. simpl. rewrite Hspec.
    rewrite get_set_key by done. simpl. by rewrite Hcs.
  - destruct (get_key s "template") as [t|] eqn:Ht; simpl in Hfind; [|done].
    destruct (get_key t "spec") as [u|] eqn:Hu; simpl in Hfind; [|done]. injection Hfind as <-.
    unfold find_containers_spec. simpl. rewrite Hspec, Ht, Hu.
    rewrite get_set_key by done. simpl.
    rewrite !get_set_key by (by eapply get_key_mapping). simpl. rewrite Hc.
    rewrite get_set_key by (by eapply get_key_mapping). done.
Qed.

(** The elements under a key, none when the key is absent. *)
Definition sequence_under (v : Value) (key : string) : option (list Value) :=
  as_sequence (default (VSequence []) (get_key v key)).

Lemma push_under_Some v k x v' :
  push_under v k x = Some v' →
  (∃ l, sequence_under v k = Some l ∧ sequence_under v' k = Some (l ++ [x])) ∧
  ∀ k', k' ≠ k → get_key v' k' = get_key v k'.
Proof.
  unfold push_under, sequence_under. destruct (is_mapping v) eqn:Hm; [|done].
  destruct (as_sequence _) as [l|] eqn:Hl; simpl; [|done]. intros [= <-]. split.
  - exists l. split; [done|]. rewrite get_set_key, decide_True by done. simpl. apply as_sequence_set.
  - intros k' Hk. by rewrite get_set_key, decide_False.
Qed.

Lemma push_under_None v k x :
  push_under v k x = None → is_mapping v = true → sequence_under v k = None.
Proof.
  unfold push_under, sequence_under. intros Hp Hm. rewrite Hm in Hp. by destruct (as_sequence _).
Qed.

Definition container_named (name : string) (c : Value) : Prop :=
  (n ← get_key c "name"; as_str n) = Some name.

(** The container the control interface is mounted into: the first of its name. *)
Definition target_at (name : string) (cs before : list Value) (c : Value) (after : list Value) : Prop :=
  cs = before ++ c :: after ∧ container_named name c ∧ Forall (λ b, ¬ container_named name b) before.

Lemma mount_in_containers_spec cs name :
  match mount_in_containers cs name with
  | Some (Ok cs') => ∃ before c after c', target_at name cs before c after ∧
      add_control_interface_mount c = Some c' ∧ cs' = before ++ c' :: after
  | Some (Err e) => ∃ msg, e = RuntimeErrorUnsupported msg
  | None => ∃ before c after, target_at name cs before c after ∧ sequence_under c "volumeMounts" = None
  end.
Proof.
  induction cs as [|c cs IH]; cbn [mount_in_containers]; [by eexists|].
  destruct (n ← get_key c "name"; as_str n) as [n|] eqn:Hn; [|by eexists].
  destruct (String.eqb_spec n name) as [->|Hne].
  - assert (target_at name (c :: cs) [] c cs) as Htarget by done.
    destruct (add_control_interface_mount c) as [c'|] eqn:Hc; simpl.
    + by exists [], c, cs, c'.
    + exists [], c, cs. split; [done|]. apply (push_under_None _ _ _ Hc).
      destruct (get_key c "name") as [v|] eqn:Hv; [|done]. by eapply get_key_mapping.
  - assert (¬ container_named name c) as Hc by (unfold container_named; rewrite Hn; congruence).
    destruct (mount_in_containers cs name) as [[cs'|e]|]; simpl; [|done|].
    + destruct IH as (before & d & after & d' & (-> & Hd & Hbefore) & Hmount & ->).
      exists (c :: before), d, after, d'. split; [|done]. split; [done|]. split; [done|by constructor].
    + destruct IH as (before & d & after & (-> & Hd & Hbefore) & Hseq).
      exists (c :: before), d, after. split; [|done]. split; [done|]. split; [done|by constructor].
Qed.

(** The document with the control interface: the first container of the name
    has one more mount, the specification one more volume, and nothing else is
    different. *)
Definition with_control_interface (name : string) (control_interface_path : path) (m m' : Value) :
    Prop :=
  ∃ p spec spec', find_containers_spec m = Some p ∧ get_path m p = Some spec ∧
    get_path m' p = Some spec' ∧
    (∀ q, ¬ p `prefix_of` q → ¬ q `prefix_of` p → get_path m' q = get_path m q) ∧
    (∃ cs cs' before c after c' mounts, sequence_under spec "containers" = Some cs ∧
       sequence_under spec' "containers" = Some cs' ∧
       target_at name cs before c after ∧ cs' = before ++ c' :: after ∧
       sequence_under c "volumeMounts" = Some mounts ∧
       sequence_under c' "volumeMounts" = Some (mounts ++ [control_interface_mount]) ∧
       ∀ k, k ≠ "volumeMounts" → get_key c' k = get_key c k) ∧
    (∃ vs, sequence_under spec "volumes" = Some vs ∧
       sequence_under spec' "volumes" =
         Some (vs ++ [create_control_interface_volume control_interface_path])) ∧
    ∀ k, k ≠ "containers" → k ≠ "volumes" → get_key spec' k = get_key spec k.

Definition mounts_not_a_sequence (name : string) (m : Value) : Prop :=
  ∃ p spec cs before c after, find_containers_spec m = Some p ∧ get_path m p = Some spec ∧
    sequence_under spec "containers" = Some cs ∧ target_at name cs before c after ∧
    sequence_under c "volumeMounts" = None.

Lemma inject_volume_mount_spec m name :
  match inject_volume_mount m name with
  | Some (Ok m1) => ∃ p spec entry cs before c after c',
      find_containers_spec m = Some p ∧ get_path m p = Some spec ∧
      get_key spec "containers" = Some entry ∧ as_sequence entry = Some cs ∧
      target_at name cs before c after ∧ add_control_interface_mount c = Some c' ∧
      m1 = set_path m p (set_key spec "containers" (set_sequence entry (before ++ c' :: after)))
  | Some (Err e) => ∃ msg, e = RuntimeErrorUnsupported msg
  | None => mounts_not_a_sequence name m
  end.
Proof.
  unfold inject_volume_mount.
  destruct (find_containers_spec m) as [p|] eqn:Hp; simpl; [|by eexists].
  destruct (get_path m p) as [spec|] eqn:Hspec; simpl; [|by eexists].
  destruct (get_key spec "containers") as [entry|] eqn:Hentry; simpl; [|by eexists].
  destruct (as_sequence entry) as [cs|] eqn:Hcs; simpl; [|by eexists].
  pose proof (mount_in_containers_spec cs name) as Hmount.
  destruct (mount_in_containers cs name) as [[cs'|e]|]; simpl; [|done|].
  - destruct Hmount as (before & c & after & c' & Htarget & Hc & ->).
    by exists p, spec, entry, cs, before, c, after, c'.
  - destruct Hmount as (before & c & after & Htarget & Hc).
    exists p, spec, cs, before, c, after. unfold sequence_under at 1. by rewrite Hentry.
Qed.

Lemma inject_control_interface_spec m name control_interface_path :
  match inject_control_interface m name control_interface_path with
  | Some (Ok m') => with_control_interface name control_interface_path m m'
  | Some (Err e) => ∃ msg, e = RuntimeErrorUnsupported msg
  | None => mounts_not_a_sequence name m
  end.
Proof.
  unfold inject_control_interface. pose proof (inject_volume_mount_spec m name) as Hmount.
  destruct (inject_volume_mount m name) as [[m1|e]|]; simpl; [|done|done].
  destruct Hmount as (p & spec & entry & cs & before & c & after & c' & Hp & Hspec & Hentry & Hcs & Htarget & Hc & ->).
  set (spec1 := set_key spec "containers" _).
  pose proof (get_key_mapping _ _ _ Hentry) as Hm.
  assert (∀ k, get_key spec1 k = if decide (k = "containers")
            then Some (set_sequence entry (before ++ c' :: after)) else get_key spec k) as Hspec1.
  { intros k. by apply get_set_key. }
  unfold inject_control_volume.
  rewrite find_containers_spec_set by (done || by rewrite Hspec1; eexists). simpl.
  rewrite (get_set_path _ _ _ _ Hspec). simpl. unfold spec1 at 1. rewrite is_mapping_set_key, Hm. simpl.
  destruct (push_under spec1 "volumes" _) as [spec2|] eqn:Hpush; [|by eexists].
  destruct (push_under_Some _ _ _ _ Hpush) as [(vs & Hvs & Hvs') Hother].
  destruct (push_under_Some _ _ _ _ Hc) as [(ms & Hms & Hms') Hcother].
  exists p, spec, spec2. split_and!; [done|done| | | | |].
  - by apply (get_set_path _ _ spec1), (get_set_path _ _ spec).
  - intros q Hq Hq'. by rewrite !get_set_path_other.
  - exists cs, (before ++ c' :: after), before, c, after, c', ms.
    unfold sequence_under at 1 2. rewrite Hother, Hspec1, Hentry by done. simpl.
    by rewrite as_sequence_set.
  - exists vs. split; [|done]. unfold sequence_under in *. by rewrite Hspec1 in Hvs.
  - intros k Hk Hk'. rewrite Hother, Hspec1 by done. by rewrite decide_False.
Qed.

Lemma should_inject_error m pod e :
  should_inject_control_interface m pod = Err e → ∃ msg, e = RuntimeErrorUnsupported msg.
Proof.
  unfold should_inject_control_interface, get_metadata_name.
  repeat (case_match; simpl; try (intros [= <-]; by eexists)); intros; naive_solver.
Qed.

End injection.

Section examples.
#[local] Existing Instance assoc_mapping.

(** A pod whose container has the key [volumeMounts] without a value. *)
Definition example_manifest (volume_mounts : Value) : Value :=
  VMapping [(VString "kind", VString "Pod");
            (VString "metadata", VMapping [(VString "name", VString "pod")]);
            (VString "spec", VMapping [(VString "containers", VSequence
               [VMapping [(VString "name", VString "web"); (VString "volumeMounts", volume_mounts)]])])].

Definition example_target : ControlInterfaceTarget :=
  {| target_pod := "pod"; target_container := "web" |}.

(** A key [volumeMounts] without a value, which Kubernetes accepts, makes the
    creation of the workload panic, whereas the same mistake at [volumes] is
    reported. *)
Lemma empty_volume_mounts_panic :
  add_control_interface_in_correct_manifest [example_manifest Null] example_target [] = None ∧
  ∃ m, add_control_interface_in_correct_manifest [example_manifest (VSequence [])] example_target [] =
       Some (Ok [m]).
Proof. split; [|eexists]; vm_compute; reflexivity. Qed.
End examples.
