(* ===== verification/PodmanKube.v ===== *)
(** * Ankaios agent: podman-kube runtime

    [agent/src/runtime_connectors/podman_kube/podman_kube_runtime.rs] and
    [podman_kube_runtime_config.rs]: workloads that are Kubernetes manifests,
    played by podman.  The manifest and the pods of a workload are kept in two
    volumes, from which the workload is found again after a restart of the
    agent. *)

From Stdlib Require Import Ascii.
From stdpp Require Import base tactics numbers gmap strings list pretty.
From S2P Require Import Prelude Utf8 Api StateManipulation WorkloadFiles RetryManager ControlLoop CliCommand.
From S2P Require Import PodmanCli LogFetching StateChecker ContainerRuntime KubeManifest.

Definition PODMAN_KUBE_RUNTIME_NAME : string := "podman-kube".
Definition CONFIG_VOLUME_SUFFIX : string := ".config".
Definition PODS_VOLUME_SUFFIX : string := ".pods".

Record PodmanKubeWorkloadId := {
  kube_name : WorkloadInstanceNameSpec;
  pods : option (list string);
  kube_manifest : string;
  kube_down_options : list string
}.

(** [Display]: the digest of the pods, nothing without pods. *)
Definition kube_id_to_string `{Sha256} (id : PodmanKubeWorkloadId) : string :=
  match pods id with
  | Some pods => sha256_digest (join "" pods)
  | None => ""
  end.

Definition kube_id_from_str (s : string) : result string PodmanKubeWorkloadId :=
  Err "Not supported for PodmanKubeWorkloadId".

(** ** States *)

Inductive OrderedExecutionState :=
  | OFailed (msg : string) | OStarting | OUnknown | ORunning | OStopping | OSucceeded | OLost.

#[export] Instance OrderedExecutionState_eq_dec : EqDecision OrderedExecutionState.
Proof. solve_decision. Defined.

Definition ordered_state_from (value : ContainerState) : OrderedExecutionState :=
  match value with
  | CStarting => OStarting
  | CExited 0 => OSucceeded
  | CExited value => OFailed ("Exit code: '" +:+ pretty value +:+ "'")
  | CPaused => OUnknown
  | CRunning => ORunning
  | CStopping => OStopping
  | CUnknown => OUnknown
  end.

Definition ordered_state_to_execution_state (value : OrderedExecutionState) : ExecutionStateSpec :=
  match value with
  | OFailed value => failed value
  | OStarting => starting "starting container"
  | OUnknown => unknown "unknown container state"
  | ORunning => running
  | OStopping => stopping "stopping container"
  | OSucceeded => succeeded
  | OLost => lost
  end.

(** The derived [Ord]: the order of the variants, and of the messages of two
    failures. *)
Definition ordered_rank (s : OrderedExecutionState) : nat :=
  match s with
  | OFailed _ => 0 | OStarting => 1 | OUnknown => 2 | ORunning => 3 | OStopping => 4
  | OSucceeded => 5 | OLost => 6
  end.

Definition ordered_ltb (a b : OrderedExecutionState) : bool :=
  match a, b with
  | OFailed m, OFailed n => String.ltb m n
  | _, _ => ordered_rank a <? ordered_rank b
  end.

(** [std::cmp::min]: the first one of two equal values. *)
Definition ordered_min (a b : OrderedExecutionState) : OrderedExecutionState :=
  if ordered_ltb b a then b else a.

Definition combine_states (container_states : list ContainerState) : OrderedExecutionState :=
  foldl ordered_min OLost (ordered_state_from <$> container_states).

(** ** The runtime *)

Record SerdeError := { error_display : string; error_debug : string }.

(** [serde_yaml] and [serde_json] for the configuration and the list of pods,
    and the debug output of a text. *)
Class KubeDecoder := {
  kube_config_from_yaml : string → result SerdeError PodmanKubeRuntimeConfig;
  pods_to_json : list string → result SerdeError string;
  pods_from_json : string → result SerdeError (list string);
  text_debug : string → string
}.

Definition kube_config_try_from `{KubeDecoder} (w : WorkloadSpec) :
    result string PodmanKubeRuntimeConfig :=
  if negb (String.eqb PODMAN_KUBE_RUNTIME_NAME (Api.runtime w)) then
    Err ("Received a manifest for the wrong runtime: '" +:+ Api.runtime w +:+ "'")
  else if negb (match workload_files w with [] => true | _ => false end) then
    Err ("Workload files are not supported for runtime " +:+ PODMAN_KUBE_RUNTIME_NAME +:+
         ". Use ConfigMaps instead.")
  else map_err error_display (kube_config_from_yaml (runtime_config w)).

Section podman_kube.
Context {W : Type} `{Host W, PodmanDecoder, IterOrder, YamlMapping, YamlDocuments, KubeDecoder}.

Abbreviation PodmanHost := (Cached W PodmanPsResult).

Definition kube_get_state (id : PodmanKubeWorkloadId) (h : PodmanHost) :
    ExecutionStateSpec * PodmanHost :=
  match pods id with
  | Some pods =>
    let (r, h) := list_states_from_pods pods h in
    (match r with
     | Ok container_states => ordered_state_to_execution_state (combine_states container_states)
     | Err _ => unknown "Error getting state from pods."
     end, h)
  | None => (succeeded, h)
  end.

Definition config_volume (n : WorkloadInstanceNameSpec) : string :=
  instance_name_to_string n +:+ CONFIG_VOLUME_SUFFIX.
Definition pods_volume (n : WorkloadInstanceNameSpec) : string :=
  instance_name_to_string n +:+ PODS_VOLUME_SUFFIX.

(** The configuration a volume holds. *)
Definition config_in_volume (r : result string string) : result string PodmanKubeRuntimeConfig :=
  json ← map_err (λ err, "Could not read config from volume: " +:+ text_debug err) r;
  map_err (λ err, "Could not parse config read from volume: " +:+ error_debug err)
    (kube_config_from_yaml json).

(** The pods a volume holds; any problem with them is only logged. *)
Definition pods_in_volume (r : result string string) : option (list string) :=
  match r with
  | Ok json => match pods_from_json json with Ok pods => Some pods | Err _ => None end
  | Err _ => None
  end.

Definition kube_get_workload_id (n : WorkloadInstanceNameSpec) :
    io PodmanHost RuntimeError PodmanKubeWorkloadId := λ h,
  let (config, h) := read_data_from_volume (config_volume n) h in
  match config_in_volume config with
  | Err err => (Err (RuntimeErrorCreate err), h)
  | Ok runtime_config =>
    let (pods, h) := read_data_from_volume (pods_volume n) h in
    (Ok {| kube_name := n; pods := pods_in_volume pods; kube_manifest := manifest runtime_config;
           kube_down_options := down_options runtime_config |}, h)
  end.

Fixpoint kube_sample_workload_states (names : list WorkloadInstanceNameSpec) :
    io PodmanHost RuntimeError (list ReusableWorkloadState) := λ h,
  match names with
  | [] => (Ok [], h)
  | n :: names =>
    match kube_get_workload_id n h with
    | (Err e, h) => (Err e, h)
    | (Ok id, h) =>
      let (execution_state, h) := kube_get_state id h in
      (states ← kube_sample_workload_states names;
       mret (reusable_workload_state_new n execution_state None :: states)) h
    end
  end.

(** [AgentName::get_filter_suffix]. *)
Definition get_filter_suffix (agent_name : string) : string :=
  String INSTANCE_NAME_SEPARATOR agent_name.

Definition strip_config_suffix (volume_name : string) : string :=
  str_take (String.length volume_name - String.length CONFIG_VOLUME_SUFFIX) volume_name.

Definition kube_get_reusable_workloads (agent_name : string) :
    io PodmanHost RuntimeError (list ReusableWorkloadState) :=
  volumes ← io_map_err
    (λ err, RuntimeErrorCreate ("Could not list volume containing config: '" +:+ err +:+ "'"))
    (list_volumes_by_name (get_filter_suffix agent_name +:+ CONFIG_VOLUME_SUFFIX +:+ "$"));
  kube_sample_workload_states (decodable_names (strip_config_suffix <$> volumes)).

Definition kube_start_checker (id : PodmanKubeWorkloadId) (w : WorkloadNamed) :
    io PodmanHost RuntimeError (GenericPollingStateChecker PodmanKubeWorkloadId) := λ h,
  (Ok (start_polling w id), podman_reset_ps_cache h).

(** The configuration with the control interface; [None] is a panic. *)
Definition kube_workload_config (w : WorkloadNamed) (control_interface_path : option path) :
    option (result RuntimeError PodmanKubeRuntimeConfig) :=
  if negb (match workload_files (workload w) with [] => true | _ => false end) then
    Some (Err (RuntimeErrorUnsupported
      "Workload files are not supported for podman-kube runtime. Use ConfigMaps instead."))
  else
    match kube_config_try_from (workload w), control_interface_path with
    | Err e, _ => Some (Err (RuntimeErrorUnsupported e))
    | Ok workload_config, None => Some (Ok workload_config)
    | Ok workload_config, Some control_interface_path =>
      match from_podman_kube_runtime_config workload_config with
      | Err e => Some (Err e)
      | Ok (Some target) => add_control_interface workload_config target control_interface_path
      | Ok None =>
        Some (Err (RuntimeErrorUnsupported "Control interface target not specified in runtime config."))
      end
    end.

(** The volumes are written on a best effort basis: their errors are logged. *)
Definition store_pods (n : WorkloadInstanceNameSpec) (created_pods : list string) (h : PodmanHost) :
    PodmanHost :=
  match pods_to_json created_pods with
  | Ok pods_as_json => (store_data_as_volume (pods_volume n) pods_as_json h).2
  | Err _ => h
  end.

Definition kube_create_workload (w : WorkloadNamed)
    (reusable_workload_id : option PodmanKubeWorkloadId) (control_interface_path : option path)
    (workload_file_path_mapping : gmap path string) (h : PodmanHost) :
    option (result RuntimeError (PodmanKubeWorkloadId * GenericPollingStateChecker PodmanKubeWorkloadId)
            * PodmanHost) :=
  let n := instance_name w in
  match kube_workload_config w control_interface_path with
  | None => None
  | Some (Err e) => Some (Err e, h)
  | Some (Ok workload_config) =>
    let (_, h) := store_data_as_volume (config_volume n) (runtime_config (workload w)) h in
    let (r, h) := play_kube (kube_general_options workload_config) (play_options workload_config)
                    (manifest workload_config) h in
    match r with
    | Err err => Some (Err (RuntimeErrorCreate err), h)
    | Ok created_pods =>
      let h := store_pods n created_pods h in
      let workload_id := {|
        kube_name := n; pods := Some created_pods; kube_manifest := manifest workload_config;
        kube_down_options := down_options workload_config |} in
      Some ((state_checker ← kube_start_checker workload_id w; mret (workload_id, state_checker)) h)
    end
  end.

Definition kube_get_log_fetcher (id : PodmanKubeWorkloadId) (options : LogRequestOptions)
    (h : PodmanHost) : result RuntimeError GenericLogFetcher :=
  Ok (generic_log_fetcher_new None None).

Definition kube_delete_workload (id : PodmanKubeWorkloadId) : io PodmanHost RuntimeError () := λ h,
  let (r, h) := down_kube (kube_down_options id) (kube_manifest id) h in
  match r with
  | Err err => (Err (RuntimeErrorDelete err), h)
  | Ok _ =>
    let (_, h) := remove_volume (pods_volume (kube_name id)) h in
    let (_, h) := remove_volume (config_volume (kube_name id)) h in
    (Ok (), h)
  end.
End podman_kube.

(** ** The state of a workload with many containers *)

Lemma foldr_min_min n m (l : list nat) :
  foldr Nat.min (n `min` m) l = m `min` foldr Nat.min n l.
Proof. induction l as [|x l IH]; simpl; lia. Qed.

Lemma ordered_min_rank a b : ordered_rank (ordered_min a b) = ordered_rank a `min` ordered_rank b.
Proof.
  unfold ordered_min. destruct a, b; try reflexivity. simpl. by destruct (String.ltb _ _).
Qed.

Lemma ordered_min_cases a b : ordered_min a b = a ∨ ordered_min a b = b.
Proof. unfold ordered_min. destruct (ordered_ltb b a); auto. Qed.

Lemma foldl_min_rank init l :
  ordered_rank (foldl ordered_min init l) = foldr Nat.min (ordered_rank init) (ordered_rank <$> l).
Proof.
  revert init. induction l as [|s l IH]; intros init; simpl; [done|].
  by rewrite IH, ordered_min_rank, foldr_min_min.
Qed.

Lemma foldl_min_elem init l :
  foldl ordered_min init l = init ∨ foldl ordered_min init l ∈ l.
Proof.
  revert init. induction l as [|s l IH]; intros init; simpl; [by left|].
  destruct (IH (ordered_min init s)) as [->|Hin]; [|right; by right].
  destruct (ordered_min_cases init s) as [->| ->]; [by left|right; by left].
Qed.

Lemma foldr_min_le n (l : list nat) m : m ≤ foldr Nat.min n l ↔ m ≤ n ∧ ∀ x, x ∈ l → m ≤ x.
Proof.
  induction l as [|x l IH]; simpl; [split; [intros; split; [done|]; by intros ? ?%elem_of_nil|by intros []]|].
  rewrite Nat.min_glb_iff, IH. setoid_rewrite elem_of_cons. naive_solver.
Qed.

Lemma combine_states_rank cs m :
  m ≤ ordered_rank (combine_states cs) ↔
  m ≤ 6 ∧ ∀ c, c ∈ cs → m ≤ ordered_rank (ordered_state_from c).
Proof.
  unfold combine_states. rewrite foldl_min_rank, foldr_min_le. simpl. split; intros [Hm Hl]; (split; [done|]).
  - intros c Hc. apply Hl. rewrite <-list_fmap_compose. apply list_elem_of_fmap. by exists c.
  - intros x Hx. rewrite <-list_fmap_compose in Hx. apply list_elem_of_fmap in Hx as (c & -> & Hc). by apply Hl.
Qed.

Lemma combine_states_elem cs :
  combine_states cs = OLost ∧ cs = [] ∨ ∃ c, c ∈ cs ∧ combine_states cs = ordered_state_from c.
Proof.
  destruct (foldl_min_elem OLost (ordered_state_from <$> cs)) as [Hl|Hin].
  - destruct cs as [|c cs]; [by left|].
    assert (7 ≤ 6 ∨ ordered_rank (combine_states (c :: cs)) < 6) as [?|Hlt]; [|lia|].
    + right. destruct (decide (6 ≤ ordered_rank (combine_states (c :: cs)))) as [H6|]; [|lia].
      apply combine_states_rank in H6 as [_ H6]. specialize (H6 c ltac:(left)).
      destruct c as [|[]| | | |]; simpl in H6; lia.
    + unfold combine_states in Hlt. rewrite Hl in Hlt. simpl in Hlt. lia.
  - right. apply list_elem_of_fmap in Hin as (c & Hc & Hcs). by exists c.
Qed.

(** The state of a podman-kube workload is that of its worst container, in
    the order failed, starting, unknown, running, stopping, succeeded; without
    containers it is lost.  So it runs exactly when some container runs and the
    others run, stop or have succeeded, it has succeeded exactly when all its
    containers have, and it has failed as soon as one of them has. *)
Theorem combined_state_worst cs :
  let state := ordered_state_to_execution_state (combine_states cs) in
  (∀ c, c ∈ cs → ordered_rank (combine_states cs) ≤ ordered_rank (ordered_state_from c)) ∧
  (state = lost ↔ cs = []) ∧
  (state = running ↔
     CRunning ∈ cs ∧ ∀ c, c ∈ cs → c = CRunning ∨ c = CStopping ∨ c = CExited 0) ∧
  (state = succeeded ↔ cs ≠ [] ∧ ∀ c, c ∈ cs → c = CExited 0) ∧
  ((∃ msg, state = failed msg) ↔ ∃ code, CExited code ∈ cs ∧ code ≠ 0%N).
Proof.
  intros state. subst state.
  assert (∀ c, c ∈ cs → ordered_rank (combine_states cs) ≤ ordered_rank (ordered_state_from c)) as Hle.
  { intros c. by apply (combine_states_rank cs (ordered_rank (combine_states cs))). }
  destruct (combine_states_elem cs) as [[Hs ->]|(c & Hc & Hs)].
  { split_and!; [done|done|split; [done|by intros [?%elem_of_nil _]]|by split; [|intros []]|].
    rewrite Hs. split; [by intros [? ?]|by intros (? & ?%elem_of_nil & _)]. }
  assert (cs ≠ []) as Hne by (by intros ->; apply elem_of_nil in Hc).
  rewrite Hs in *. split_and!; [done|..].
  - split; [|done]. destruct c as [|[]| | | |]; done.
  - split.
    + intros Hrun. destruct c as [|[]| | | |]; try done. split; [done|].
      intros d Hd. specialize (Hle d Hd). destruct d as [|[]| | | |]; simpl in Hle; try lia; auto.
    + intros [Hrun Hall]. specialize (Hle _ Hrun).
      destruct (Hall c Hc) as [->|[->| ->]]; simpl in Hle; try lia; done.
  - split.
    + intros Hsucc. destruct c as [|[]| | | |]; try done. split; [done|].
      intros d Hd. specialize (Hle d Hd). destruct d as [|[]| | | |]; simpl in Hle; try lia; done.
    + intros [_ Hall]. by rewrite (Hall c Hc).
  - split.
    + intros [msg Hf]. destruct c as [|code| | | |]; try done. exists code. split; [done|].
      by destruct code.
    + intros (code & Hcode & Hz). specialize (Hle _ Hcode). destruct code as [|code]; [done|].
      simpl in Hle. destruct c as [|[]| | | |]; simpl in Hle; try lia. by eexists.
Qed.
