(* ===== verification/RuntimeFacade.v ===== *)
(** * Ankaios agent: deletion by the runtime facade, unsupported runtimes

    [GenericRuntimeFacade::delete_workload_non_blocking] of
    [agent/src/runtime_connectors/runtime_facade.rs], the task that deletes a
    workload for which no control loop runs, and
    [unsupported_runtime.rs], the connector for runtimes the agent does not
    know. *)

From stdpp Require Import base tactics numbers gmap strings list.
From S2P Require Import Prelude Api WorkloadFiles RetryManager ControlLoop.
From S2P Require Import CliCommand LogFetching StateChecker ContainerRuntime.

(** ** The deletion task *)

Section facade.
Context {RC : RuntimeConnector}.

(** The states that were reported, and the host. *)
Record DeletionTask := { reported_states : list WorkloadStateSpec; deletion_host : World }.

Definition report_deletion (n : WorkloadInstanceNameSpec) (e : ExecutionStateSpec) (t : DeletionTask) :
    DeletionTask :=
  {| reported_states := reported_states t ++ [{| state_instance_name := n; execution_state := e |}];
     deletion_host := deletion_host t |}.

Definition on_deletion_host {E A} (m : io World E A) (t : DeletionTask) : result E A * DeletionTask :=
  let (r, rt) := m (deletion_host t) in
  (r, {| reported_states := reported_states t; deletion_host := rt |}).

(** The folder of the workload goes, whatever comes of it, and the workload is
    reported as removed. *)
Definition finish_deletion (n : WorkloadInstanceNameSpec) (run_folder : path) (t : DeletionTask) :
    DeletionTask :=
  let (_, t) := on_deletion_host (remove_dir_all (pipes_folder_name n run_folder)) t in
  report_deletion n removed t.

Definition delete_workload_non_blocking (n : WorkloadInstanceNameSpec) (run_folder : path)
    (t : DeletionTask) : DeletionTask :=
  let t := report_deletion n stopping_requested t in
  let (id, t) := on_deletion_host (runtime_get_workload_id n) t in
  match id with
  | Ok id =>
    let (deleted, t) := on_deletion_host (runtime_delete_workload id) t in
    match deleted with
    | Err err => report_deletion n (delete_failed (runtime_error_to_string err)) t
    | Ok _ => finish_deletion n run_folder t
    end
  | Err _ => finish_deletion n run_folder t
  end.

(** Any failure of the search counts as "already gone": the workload is reported
    as removed although nothing was deleted. *)
Lemma failed_search_reports_removed n run_folder t err rt :
  runtime_get_workload_id n (deletion_host t) = (Err err, rt) →
  reported_states (delete_workload_non_blocking n run_folder t) =
    reported_states t ++ [{| state_instance_name := n; execution_state := stopping_requested |};
                          {| state_instance_name := n; execution_state := removed |}] ∧
  deletion_host (delete_workload_non_blocking n run_folder t) =
    (remove_dir_all (pipes_folder_name n run_folder) rt).2.
Proof.
  intros Hid. unfold delete_workload_non_blocking, finish_deletion, on_deletion_host. simpl.
  rewrite Hid. simpl. destruct (remove_dir_all (pipes_folder_name n run_folder) rt) as [r rt']. simpl. by rewrite <-app_assoc.
Qed.

Context {RL : RuntimeLaws RC}.

(** The deletion of a workload without a control loop.  It is announced by
    a stopping state; when the workload is found, either it is deleted and
    reported as removed, or it is untouched and its deletion is reported as
    failed; when the search fails, nothing is deleted and the workload is
    reported as removed. *)
Theorem facade_deletion_spec n run_folder t :
  let t' := delete_workload_non_blocking n run_folder t in
  let state e := {| state_instance_name := n; execution_state := e |} in
  ∃ e, reported_states t' = reported_states t ++ [state stopping_requested; state e] ∧
  match (runtime_get_workload_id n (deletion_host t)).1 with
  | Ok id =>
    e = removed ∧ instances (deletion_host t') = instances (deletion_host t) ∖ {[id]} ∨
    (∃ msg, e = delete_failed msg) ∧ instances (deletion_host t') = instances (deletion_host t)
  | Err _ => e = removed ∧ instances (deletion_host t') = instances (deletion_host t)
  end.
Proof.
  simpl. unfold delete_workload_non_blocking, finish_deletion, on_deletion_host. simpl.
  pose proof (get_workload_id_instances n (deletion_host t)) as Hget.
  destruct (runtime_get_workload_id n (deletion_host t)) as [[id|err] rt]; simpl in *.
  - pose proof (remove_dir_all_instances (pipes_folder_name n run_folder)) as Hdir.
    destruct (runtime_delete_workload id rt) as [[u|err] rt1] eqn:Hdel.
    + specialize (Hdir rt1). simpl in *. destruct (remove_dir_all (pipes_folder_name n run_folder) rt1) as [r rt2]. simpl in *.
      exists removed. split; [by rewrite <-app_assoc|]. left. split; [done|].
      by rewrite Hdir, (delete_ok _ _ _ _ Hdel), Hget.
    + eexists. simpl. split; [by rewrite <-app_assoc|]. right. split; [by eexists|].
      by rewrite (delete_err _ _ _ _ Hdel), Hget.
  - pose proof (remove_dir_all_instances (pipes_folder_name n run_folder) rt) as Hdir.
    simpl in *. destruct (remove_dir_all (pipes_folder_name n run_folder) rt) as [r rt2]. simpl in *.
    exists removed. split; [by rewrite <-app_assoc|]. split; [done|]. by rewrite Hdir.
Qed.
End facade.

(** ** Unsupported runtimes *)

Section unsupported.
Context {W : Type} `{FileSystem W, Base64}.
Variable name : string.

Definition unsupported_create_workload (w : WorkloadNamed) (reusable_workload_id : option string)
    (control_interface_path : option path) (mappings : gmap path string) :
    io W RuntimeError (string * ()) := λ rt,
  (if String.eqb (Api.runtime (workload w)) name then
     Err (RuntimeErrorUnsupported "Unsupported Runtime")
   else
     Err (RuntimeErrorUnsupported ("Received a manifest for the wrong runtime: '" +:+
            Api.runtime (workload w) +:+ "'")), rt).

Definition unsupported_get_workload_id (n : WorkloadInstanceNameSpec) : io W RuntimeError string :=
  λ rt, (Err (RuntimeErrorList "Cannot get information about workload with unsupported runtime"), rt).

Definition unsupported_start_checker (id : string) (w : WorkloadNamed) : io W RuntimeError () :=
  λ rt, (Ok (), rt).

Definition unsupported_get_log_fetcher (id : string) (options : LogRequestOptions) (rt : W) :
    result RuntimeError GenericLogFetcher :=
  Err (RuntimeErrorUnsupported "Cannot collect logs for workload with unsupported runtime").

Definition unsupported_delete_workload (id : string) : io W RuntimeError () := λ rt, (Ok (), rt).

(** [DummyStateChecker] has no state. *)
Definition unsupported_runtime : RuntimeConnector := {|
  World := W; WorkloadId := string; StChecker := (); LogFetcher := GenericLogFetcher;
  runtime_create_workload := unsupported_create_workload;
  runtime_get_workload_id := unsupported_get_workload_id;
  runtime_start_checker := unsupported_start_checker;
  runtime_get_log_fetcher := unsupported_get_log_fetcher;
  runtime_delete_workload := unsupported_delete_workload;
  stop_checker := λ _ rt, rt
|}.

(** The connector keeps the laws of the interface: there are no workloads. *)
Program Definition unsupported_runtime_laws : RuntimeLaws unsupported_runtime :=
  {| instances := λ _, ∅ |}.
Next Obligation.
  intros w reuse p m rt id c rt'. simpl. unfold unsupported_create_workload. by case_match.
Qed.
Next Obligation. done. Qed.
Next Obligation. intros w reuse p m rt err rt' _ _. simpl. set_solver. Qed.
Next Obligation. intros. simpl. set_solver. Qed.
Next Obligation. done. Qed.
Next Obligation. done. Qed.
Next Obligation. done. Qed.
Next Obligation. done. Qed.
Next Obligation. done. Qed.
Next Obligation. done. Qed.
Next Obligation. done. Qed.
End unsupported.
