(* ===== verification/Authorizer.v ===== *)
(** * Ankaios agent: authorizer of the control interface

    [agent/src/control_interface/authorizer.rs] and its submodules [path.rs],
    [path_pattern.rs] and [rules.rs]: the requests of a workload are checked
    against its allow and deny rules. The theorems relate the check to the
    fields of the complete state a request reaches. *)

From Stdlib Require Import Ascii.
From stdpp Require Import base tactics gmap strings list.
From S2P Require Import Prelude Api StateManipulation Messages.

(** ** Paths and patterns ([path.rs], [path_pattern.rs]) *)

(** The sections of a request's mask; the empty mask has none. *)
Definition auth_path_from (value : string) : list string :=
  if str_is_empty value then [] else split_on PATH_SEPARATOR value.

Inductive PathPatternSection := Wildcard | SectionString (s : string).

#[export] Instance PathPatternSection_eq_dec : EqDecision PathPatternSection.
Proof. solve_decision. Defined.

Definition section_from (value : string) : PathPatternSection :=
  if String.eqb value WILDCARD_SYMBOL then Wildcard else SectionString value.

Definition section_to_string (s : PathPatternSection) : string :=
  match s with Wildcard => "*" | SectionString s => s end.

Definition section_matches (self : PathPatternSection) (other : string) : bool :=
  match self with Wildcard => true | SectionString s => String.eqb s other end.

Definition pattern_sections_from (value : string) : list PathPatternSection :=
  section_from <$> auth_path_from value.

(** A match comes with a reason for the log. *)
Definition match_rule_with_path (sections : list PathPatternSection) (other : list string) :
    bool * string :=
  match sections with
  | [] => (false, "Empty filter masks in rules never match.")
  | _ =>
    if forallb (λ '(a, b), section_matches a b) (zip sections other)
    then (true, join "." (section_to_string <$> sections))
    else (false, "")
  end.

(** The trait of the two kinds of patterns. *)
Class PathPattern (P : Type) := {
  pattern_from : string → P;
  pattern_sections : P → list PathPatternSection;
  pattern_matches : P → list string → bool * string
}.

Record AllowPathPattern := { allow_sections : list PathPatternSection }.
Record DenyPathPattern := { deny_sections : list PathPatternSection }.

Definition allow_matches (p : AllowPathPattern) (other : list string) : bool * string :=
  if (length other <? length (allow_sections p)) &&
     negb (bool_decide (head (allow_sections p) = Some Wildcard))
  then (false, "")
  else match_rule_with_path (allow_sections p) other.

Definition deny_matches (p : DenyPathPattern) (other : list string) : bool * string :=
  match_rule_with_path (deny_sections p) other.

#[export] Instance AllowPathPattern_pattern : PathPattern AllowPathPattern := {|
  pattern_from := λ value, {| allow_sections := pattern_sections_from value |};
  pattern_sections := allow_sections;
  pattern_matches := allow_matches
|}.

#[export] Instance DenyPathPattern_pattern : PathPattern DenyPathPattern := {|
  pattern_from := λ value, {| deny_sections := pattern_sections_from value |};
  pattern_sections := deny_sections;
  pattern_matches := deny_matches
|}.

(** ** Rules ([rules.rs]) *)

Record StateRule (P : Type) := { patterns : list P }.
Arguments patterns {P}.
Record LogRule := { log_patterns : list string }.

(** The first match in a list, [find_map] of the source. *)
Fixpoint first_match {A} (f : A → bool * string) (l : list A) : bool * string :=
  match l with
  | [] => (false, "")
  | x :: l => match f x with (true, reason) => (true, reason) | _ => first_match f l end
  end.

Definition rule_matches `{PathPattern P} (r : StateRule P) (path : list string) : bool * string :=
  first_match (λ p, pattern_matches p path) (patterns r).

Definition rules_match `{PathPattern P} (rules : list (StateRule P)) (path : list string) :
    bool * string :=
  first_match (λ r, rule_matches r path) rules.

(** One pattern with a wildcard in it. *)
Definition log_pattern_matches (pattern workload_name : string) : bool :=
  match split_once WILDCARD_CHAR pattern with
  | Some (prefix, suffix) =>
    starts_with prefix workload_name && ends_with suffix workload_name &&
    (String.length prefix + String.length suffix <=? String.length workload_name)
  | None => false
  end.

(** The loop returns at the first pattern with a wildcard. *)
Fixpoint log_patterns_match (l : list string) (workload_name : string) : bool :=
  match l with
  | [] => false
  | pattern :: l =>
    if String.eqb pattern workload_name || String.eqb pattern WILDCARD_SYMBOL then true
    else if has_char WILDCARD_CHAR pattern then log_pattern_matches pattern workload_name
    else log_patterns_match l workload_name
  end.

Definition log_rule_matches (r : LogRule) (workload_name : string) : bool :=
  log_patterns_match (log_patterns r) workload_name.

(** ** The authorizer ([authorizer.rs]) *)

Record Authorizer := {
  state_allow_write : list (StateRule AllowPathPattern);
  state_allow_read : list (StateRule AllowPathPattern);
  state_deny_write : list (StateRule DenyPathPattern);
  state_deny_read : list (StateRule DenyPathPattern);
  log_allow : list LogRule;
  log_deny : list LogRule
}.

Definition check_state_rules (state_request_mask : list string)
    (allow : list (StateRule AllowPathPattern)) (deny : list (StateRule DenyPathPattern)) : bool :=
  let request_mask := match state_request_mask with [] => [""] | _ => state_request_mask end in
  forallb (λ path_string,
      let path := auth_path_from path_string in
      if (rules_match allow path).1 then negb (rules_match deny path).1 else false)
    request_mask.

Section authorize.
Context `{StateConversion}.

Definition authorize_logs (a : Authorizer) (logs_request : LogsRequest) : bool :=
  let names := workload_name <$> log_workload_names logs_request in
  if existsb (λ name, negb (existsb (λ r, log_rule_matches r name) (log_allow a))) names then false
  else if existsb (λ name, existsb (λ r, log_rule_matches r name) (log_deny a)) names then false
  else true.

Definition authorize (a : Authorizer) (request : Request) : bool :=
  match request_content request with
  | None => false
  | Some (CompleteStateRequestContent r) =>
    check_state_rules (field_mask r) (state_allow_read a) (state_deny_read a)
  | Some (UpdateStateRequestContent r) =>
    check_state_rules (update_mask r) (state_allow_write a) (state_deny_write a)
  | Some (LogsRequestContent logs_request) => authorize_logs a logs_request
  | Some LogsCancelRequestContent => true
  | Some EventsCancelRequestContent => true
  end.
End authorize.

(** ** Building it from the access rules of a workload *)

Record ReadWriteFiltered (P : Type) := {
  state_read : list (StateRule P);
  state_write : list (StateRule P);
  log_rules : list LogRule
}.
Arguments state_read {P}. Arguments state_write {P}. Arguments log_rules {P}.

(** The body of the loop of [split_rules]. *)
Definition split_rule `{PathPattern P} (res : ReadWriteFiltered P) (r : AccessRightsRuleEnumSpec) :
    ReadWriteFiltered P :=
  match r with
  | StateRuleSpec operation filter_masks =>
    let rule := {| patterns := pattern_from <$> filter_masks |} in
    match operation with
    | RwRead => {| state_read := state_read res ++ [rule]; state_write := state_write res;
                   log_rules := log_rules res |}
    | RwWrite => {| state_read := state_read res; state_write := state_write res ++ [rule];
                    log_rules := log_rules res |}
    | RwReadWrite => {| state_read := state_read res ++ [rule];
                        state_write := state_write res ++ [rule]; log_rules := log_rules res |}
    | RwNothing => res
    end
  | LogRuleSpec workload_names =>
    {| state_read := state_read res; state_write := state_write res;
       log_rules := log_rules res ++ [{| log_patterns := workload_names |}] |}
  end.

Definition split_rules `{PathPattern P} (rule_list : list AccessRightsRuleEnumSpec) :
    ReadWriteFiltered P :=
  foldl split_rule {| state_read := []; state_write := []; log_rules := [] |} rule_list.

Definition authorizer_from (value : ControlInterfaceAccessSpec) : Authorizer :=
  let allow := split_rules (P := AllowPathPattern) (allow_rules value) in
  let deny := split_rules (P := DenyPathPattern) (deny_rules value) in
  {| state_allow_write := state_write allow; state_allow_read := state_read allow;
     state_deny_write := state_write deny; state_deny_read := state_read deny;
     log_allow := log_rules allow; log_deny := log_rules deny |}.

(** ** Lemmas *)

(** The state rules for an operation, as lists of their filter masks. *)
Definition op_covers (rule_op op : ReadWriteEnum) : bool :=
  match rule_op, op with
  | RwRead, RwRead | RwWrite, RwWrite | RwReadWrite, (RwRead | RwWrite) => true
  | _, _ => false
  end.

Definition rule_masks (op : ReadWriteEnum) (rules : list AccessRightsRuleEnumSpec) : list string :=
  r ← rules;
  match r with
  | StateRuleSpec rule_op filter_masks => if op_covers rule_op op then filter_masks else []
  | LogRuleSpec _ => []
  end.

(** The fields a filter mask stands for: those below a path it matches section
    by section. *)
Definition covers (filter : string) (q : list string) : Prop :=
  auth_path_from filter ≠ [] ∧
  ∃ p, p `prefix_of` q ∧ Forall2 (λ s x, section_matches s x = true) (pattern_sections_from filter) p.

Lemma first_match_true {A} (f : A → bool * string) l :
  (first_match f l).1 = true ↔ ∃ x, x ∈ l ∧ (f x).1 = true.
Proof.
  induction l as [|x l IH]; simpl; [split; [done|by intros (? & ?%elem_of_nil & _)]|].
  setoid_rewrite elem_of_cons. destruct (f x) as [[] reason] eqn:Hx.
  - simpl. split; [|done]. intros _. exists x. by rewrite Hx; auto.
  - rewrite IH. split; [naive_solver|]. intros (y & [-> |Hy] & Hf); [by rewrite Hx in Hf|eauto].
Qed.

Section split_lemmas.
Context `{PathPattern P}.

Definition rules_of (masks : list (list string)) : list (StateRule P) :=
  (λ filter_masks, {| patterns := pattern_from <$> filter_masks |}) <$> masks.

Definition masks_of (op : ReadWriteEnum) (r : AccessRightsRuleEnumSpec) : list (list string) :=
  match r with
  | StateRuleSpec rule_op filter_masks => if op_covers rule_op op then [filter_masks] else []
  | LogRuleSpec _ => []
  end.

Lemma split_rules_spec rule_list :
  state_read (split_rules rule_list) = rules_of (rule_list ≫= masks_of RwRead) ∧
  state_write (split_rules rule_list) = rules_of (rule_list ≫= masks_of RwWrite).
Proof.
  unfold split_rules.
  assert (∀ res : ReadWriteFiltered P,
    state_read (foldl split_rule res rule_list) =
      state_read res ++ rules_of (rule_list ≫= masks_of RwRead) ∧
    state_write (foldl split_rule res rule_list) =
      state_write res ++ rules_of (rule_list ≫= masks_of RwWrite)) as Hall.
  { induction rule_list as [|r rule_list IH]; intros res; cbn [foldl];
      [by rewrite !app_nil_r|].
    destruct (IH (split_rule res r)) as [-> ->]. rewrite !bind_cons. unfold rules_of.
    destruct r as [[]|]; simpl; by rewrite <-?app_assoc. }
  apply (Hall {| state_read := []; state_write := []; log_rules := [] |}).
Qed.

Lemma rules_match_spec op rules path :
  (rules_match (rules_of (rules ≫= masks_of op)) path).1 = true ↔
  ∃ f, f ∈ rule_masks op rules ∧ (pattern_matches (pattern_from f) path).1 = true.
Proof.
  unfold rules_match, rules_of. rewrite first_match_true. split.
  - intros (r & (masks & -> & Hin)%list_elem_of_fmap & Hr).
    unfold rule_matches in Hr. apply first_match_true in Hr as (p & Hp & Hm). simpl in Hp.
    apply list_elem_of_fmap in Hp as (f & -> & Hf). exists f. split; [|done].
    apply list_elem_of_bind in Hin as (r & Hmasks & Hr). apply list_elem_of_bind. exists r.
    split; [|done]. destruct r as [rop fs|]; simpl in *; [|by apply elem_of_nil in Hmasks].
    destruct (op_covers rop op); [|by apply elem_of_nil in Hmasks].
    by apply list_elem_of_singleton in Hmasks as ->.
  - intros (f & (r & Hf & Hr)%list_elem_of_bind & Hm).
    destruct r as [rop fs|]; [|by apply elem_of_nil in Hf].
    destruct (op_covers rop op) eqn:Hop; [|by apply elem_of_nil in Hf].
    exists {| patterns := pattern_from <$> fs |}. split.
    + apply (list_elem_of_fmap_2 (λ fs, {| patterns := pattern_from <$> fs |})).
      apply list_elem_of_bind. exists (StateRuleSpec rop fs). split; [|done]. simpl. rewrite Hop. by left.
    + unfold rule_matches. apply first_match_true. simpl. exists (pattern_from f).
      split; [by apply list_elem_of_fmap_2|done].
Qed.
End split_lemmas.

(** A state request is authorized if every mask is allowed and none is denied. *)
Lemma check_state_rules_spec op masks allow deny :
  check_state_rules masks (rules_of (P := AllowPathPattern) (allow ≫= masks_of op))
    (rules_of (P := DenyPathPattern) (deny ≫= masks_of op)) = true ↔
  ∀ mask, mask ∈ (match masks with [] => [""] | _ => masks end) →
    (∃ f, f ∈ rule_masks op allow ∧
       (allow_matches (pattern_from f) (auth_path_from mask)).1 = true) ∧
    ¬ (∃ f, f ∈ rule_masks op deny ∧
       (deny_matches (pattern_from f) (auth_path_from mask)).1 = true).
Proof.
  unfold check_state_rules. rewrite forallb_forall. setoid_rewrite <-list_elem_of_In.
  assert (∀ path, (rules_match (rules_of (P := AllowPathPattern) (allow ≫= masks_of op)) path).1 = true ↔
    ∃ f, f ∈ rule_masks op allow ∧ (allow_matches (pattern_from f) path).1 = true) as Hallow
    by exact (rules_match_spec (P := AllowPathPattern) op allow).
  assert (∀ path, (rules_match (rules_of (P := DenyPathPattern) (deny ≫= masks_of op)) path).1 = true ↔
    ∃ f, f ∈ rule_masks op deny ∧ (deny_matches (pattern_from f) path).1 = true) as Hdeny
    by exact (rules_match_spec (P := DenyPathPattern) op deny).
  split; intros Hall mask Hmask; specialize (Hall mask Hmask); revert Hall;
    rewrite <-Hallow, <-Hdeny;
    destruct (rules_match (rules_of (P := AllowPathPattern) _) _).1,
      (rules_match (rules_of (P := DenyPathPattern) _) _).1; naive_solver.
Qed.

Lemma zip_forallb sections path :
  forallb (λ '(a, b), section_matches a b) (zip sections path) = true ↔
  Forall2 (λ s x, section_matches s x = true) (take (length path) sections) (take (length sections) path).
Proof.
  revert path. induction sections as [|s sections IH]; intros [|x path]; simpl;
    try (split; [by constructor|done]).
  rewrite andb_true_iff, IH. split; [intros []; by constructor|by inversion 1].
Qed.

Lemma Forall2_prefix {A B} (R : A → B → Prop) l k p q :
  Forall2 R l p → p `prefix_of` q → k `prefix_of` q →
  Forall2 R (take (length k) l) (take (length l) k).
Proof.
  intros Hl [q1 Hq1] [q2 Hq2]. apply Forall2_same_length_lookup. split.
  - apply Forall2_length in Hl. rewrite !length_take. lia.
  - intros i x y [Hx Hi]%lookup_take_Some [Hy Hi']%lookup_take_Some.
    assert (q !! i = Some y) as Hqy by (rewrite Hq2; by apply lookup_app_l_Some).
    destruct (Forall2_lookup_l _ _ _ _ _ Hl Hx) as (y' & Hy' & HR).
    assert (q !! i = Some y') as Hqy' by (rewrite Hq1; by apply lookup_app_l_Some).
    congruence.
Qed.

(** A deny rule that covers a field below the mask matches the mask. *)
Lemma deny_matches_covers f k q :
  covers f q → k `prefix_of` q → (deny_matches (pattern_from f) k).1 = true.
Proof.
  intros (Hne & p & Hp & Hall) Hk.
  unfold deny_matches, match_rule_with_path. simpl. unfold pattern_sections_from in *.
  destruct (section_from <$> auth_path_from f) as [|s ss] eqn:Hss.
  { by destruct (auth_path_from f). }
  rewrite (proj2 (zip_forallb _ _)); [done|]. by eapply Forall2_prefix.
Qed.

(** An allow rule that matches a mask covers the fields below it, unless it is
    longer than the mask. *)
Lemma allow_matches_covers f k q :
  (allow_matches (pattern_from f) k).1 = true →
  length (auth_path_from f) ≤ length k → k `prefix_of` q → covers f q.
Proof.
  intros Hm Hlen Hk. unfold allow_matches in Hm.
  case_match; [done|]. unfold match_rule_with_path in Hm. simpl in Hm.
  assert (length (pattern_sections_from f) = length (auth_path_from f)) as Hl
    by apply length_fmap.
  unfold covers. split; [intros Heq; unfold pattern_sections_from in Hm; by rewrite Heq in Hm|].
  destruct (forallb _ _) eqn:Hall; [|by destruct (pattern_sections_from f)].
  apply zip_forallb in Hall. rewrite Hl, (take_ge (pattern_sections_from f)) in Hall by lia.
  exists (take (length (auth_path_from f)) k). split; [|done].
  destruct Hk as [r ->]. exists (drop (length (auth_path_from f)) k ++ r).
  by rewrite app_assoc, take_drop.
Qed.

Lemma mask_matches_no_wildcard mask p :
  WILDCARD_SYMBOL ∉ mask → mask_matches mask p → p = mask.
Proof.
  intros Hno Hm. unfold mask_matches in Hm. induction Hm as [|m x mask p Hx Hm IH]; [done|].
  apply not_elem_of_cons in Hno as [Hne Hno]. f_equal; [naive_solver|auto].
Qed.

(** The operation and the masks of a request that reads or writes the state;
    the empty list of masks stands for the whole state. *)
Definition state_request `{StateConversion} (c : RequestContent) :
    option (ReadWriteEnum * list string) :=
  let masks l := match l with [] => [""] | _ => l end in
  match c with
  | CompleteStateRequestContent r => Some (RwRead, masks (field_mask r))
  | UpdateStateRequestContent r => Some (RwWrite, masks (update_mask r))
  | _ => None
  end.

(** Rules that start with a wildcard have no other section. *)
Definition no_long_wildcard_rule (op : ReadWriteEnum) (rules : list AccessRightsRuleEnumSpec) : Prop :=
  ∀ f, f ∈ rule_masks op rules → head (auth_path_from f) = Some WILDCARD_SYMBOL →
    auth_path_from f = [WILDCARD_SYMBOL].

Lemma authorize_state_spec `{StateConversion} access id c op masks :
  state_request c = Some (op, masks) →
  authorize (authorizer_from access) {| request_id := id; request_content := Some c |} = true →
  ∀ mask, mask ∈ masks →
    (∃ f, f ∈ rule_masks op (allow_rules access) ∧
       (allow_matches (pattern_from f) (auth_path_from mask)).1 = true) ∧
    ¬ (∃ f, f ∈ rule_masks op (deny_rules access) ∧
       (deny_matches (pattern_from f) (auth_path_from mask)).1 = true).
Proof.
  destruct (split_rules_spec (P := AllowPathPattern) (allow_rules access)) as [Har Haw].
  destruct (split_rules_spec (P := DenyPathPattern) (deny_rules access)) as [Hdr Hdw].
  destruct c as [r|r|r| |]; intros [= <- <-] Hauth;
    unfold authorize, authorizer_from in Hauth;
    cbn [request_content state_allow_write state_allow_read state_deny_write state_deny_read] in Hauth.
  - rewrite Haw, Hdw in Hauth. by apply check_state_rules_spec.
  - rewrite Har, Hdr in Hauth. by apply check_state_rules_spec.
Qed.

Lemma allow_wildcard_head f :
  head (allow_sections (pattern_from f)) = Some Wildcard → head (auth_path_from f) = Some WILDCARD_SYMBOL.
Proof.
  simpl. unfold pattern_sections_from. destruct (auth_path_from f) as [|s ss]; [done|]. simpl.
  unfold section_from. by destruct (String.eqb_spec s WILDCARD_SYMBOL) as [->|].
Qed.

(** ** Properties *)


(** The access rules of the examples. *)
Definition example_access (allow deny : list AccessRightsRuleEnumSpec) : ControlInterfaceAccessSpec :=
  {| allow_rules := allow; deny_rules := deny |}.

Definition read_request (masks : list string) : @RequestContent example_conversion :=
  @CompleteStateRequestContent example_conversion
    {| field_mask := masks; subscribe_for_events := false |}.

Definition example_authorize (access : ControlInterfaceAccessSpec)
    (c : @RequestContent example_conversion) : bool :=
  authorize (authorizer_from access)
    (@Build_Request example_conversion "1" (Some c)).

(** Everything may be read but one workload. *)
Definition secret_access : ControlInterfaceAccessSpec :=
  example_access [StateRuleSpec RwReadWrite ["desiredState"]]
                 [StateRuleSpec RwRead ["desiredState.workloads.secret"]].


(** A deny rule is no protection against a mask with a wildcard: reading one
    denied workload is refused, but reading all workloads is authorized, and
    the server expands that mask to the denied workload as well. *)
Theorem wildcard_mask_bypasses_deny_rule :
  example_authorize secret_access (read_request ["desiredState.workloads.secret"]) = false ∧
  example_authorize secret_access (read_request ["desiredState.workloads.*"]) = true ∧
  let current := VMapping [(VString "desiredState", VMapping [(VString "workloads",
    VMapping [(VString "secret", VString "data")])])] in
  let q := ["desiredState"; "workloads"; "secret"] in
  (∃ f, f ∈ rule_masks RwRead (deny_rules secret_access) ∧ covers f q) ∧
  @expand_wildcards assoc_mapping current [auth_path_from "desiredState.workloads.*"] = Some [q].
Proof.
  split; [vm_compute; reflexivity|]. split; [vm_compute; reflexivity|].
  intros current q. split; [|vm_compute; reflexivity].
  exists "desiredState.workloads.secret". split; [by left|]. split; [done|].
  exists q. split; [done|]. vm_compute. repeat constructor.
Qed.

(** An allow rule that continues after a leading wildcard authorizes reading
    the whole state, although it covers only a part of it. *)
Theorem long_wildcard_rule_allows_everything :
  let access := example_access [StateRuleSpec RwRead ["*.workloads.nginx"]] [] in
  example_authorize access (read_request []) = true ∧
  example_authorize access (read_request ["desiredState"]) = true ∧
  example_authorize access (read_request ["desiredState.configs"]) = false ∧
  (∀ f, f ∈ rule_masks RwRead (allow_rules access) → ¬ covers f ["desiredState"; "configs"]).
Proof.
  intros access. split_and!; try (vm_compute; reflexivity).
  intros f Hf. apply list_elem_of_singleton in Hf as ->.
  intros (_ & p & [r Hr] & Hall%Forall2_length). apply (f_equal length) in Hr.
  rewrite length_app in Hr. simpl in *. lia.
Qed.

(** ** Log rules *)

(** The names a pattern of a log rule stands for: itself, or any name with the
    prefix and the suffix around its wildcard. *)
Definition log_pattern_covers (pattern name : string) : Prop :=
  pattern = name ∨
  ∃ prefix suffix middle, split_once WILDCARD_CHAR pattern = Some (prefix, suffix) ∧
    name = prefix +:+ middle +:+ suffix.

Lemma log_pattern_matches_spec pattern name :
  log_pattern_matches pattern name = true ↔
  ∃ prefix suffix middle, split_once WILDCARD_CHAR pattern = Some (prefix, suffix) ∧
    name = prefix +:+ middle +:+ suffix.
Proof.
  unfold log_pattern_matches. destruct (split_once WILDCARD_CHAR pattern) as [[pre suf]|]; [|naive_solver].
  rewrite !andb_true_iff, starts_with_spec, ends_with_spec, Nat.leb_le. split.
  - intros [[[r1 ->] [r2 Hr2]] Hlen]. pose proof (f_equal String.length Hr2) as Hl.
    rewrite !str_length_app in *.
    destruct (str_app_split _ _ _ _ Hr2) as (m & -> & ->); [lia|]. by exists pre, suf, m.
  - intros (? & ? & m & [= <- <-] & ->). rewrite !str_length_app. split; [split|lia].
    + by eexists.
    + exists (pre +:+ m). by rewrite str_app_assoc.
Qed.

Lemma log_pattern_plain pattern name :
  has_char WILDCARD_CHAR pattern = false → log_pattern_covers pattern name ↔ pattern = name.
Proof.
  intros Hno%split_once_None. unfold log_pattern_covers. rewrite Hno. naive_solver.
Qed.

Lemma log_pattern_wildcard pattern name :
  has_char WILDCARD_CHAR pattern = true →
  String.eqb pattern name || String.eqb pattern WILDCARD_SYMBOL || log_pattern_matches pattern name = true ↔
  log_pattern_covers pattern name.
Proof.
  intros Hw. unfold log_pattern_covers.
  rewrite !orb_true_iff, !String.eqb_eq, log_pattern_matches_spec. split; [|naive_solver].
  intros [[->| ->]|?]; [by left| |by right]. right. exists "", "", name.
  split; [done|]. simpl. by rewrite str_app_nil_r.
Qed.

(** A log rule matches exactly the workload names covered by one of its
    patterns up to and including the first pattern with a wildcard; the
    patterns after that one are ignored. *)
Theorem log_rule_matches_spec r name :
  log_rule_matches r name = true ↔
  ∃ l1 pattern l2, log_patterns r = l1 ++ pattern :: l2 ∧
    Forall (λ p, has_char WILDCARD_CHAR p = false) l1 ∧ log_pattern_covers pattern name.
Proof.
  unfold log_rule_matches. generalize (log_patterns r) as l. clear r.
  induction l as [|pattern l IH]; simpl.
  { split; [done|]. by intros ([] & ? & ? & ? & _). }
  destruct (has_char WILDCARD_CHAR pattern) eqn:Hw.
  - transitivity (log_pattern_covers pattern name).
    { rewrite <-log_pattern_wildcard by done. by destruct (_ || _). }
    split; [intros Hc; by exists [], pattern, l|].
    intros ([|p l1] & p' & l2 & [= -> Hl] & Hall & Hc); [done|].
    apply Forall_cons in Hall as [Hp _]. congruence.
  - destruct (String.eqb_spec pattern name) as [->|Hne].
    { simpl. split; [|done]. intros _. exists [], name, l. split_and!; [done..|]. by left. }
    destruct (String.eqb_spec pattern WILDCARD_SYMBOL) as [->|_]; [done|]. simpl. rewrite IH. split.
    + intros (l1 & p & l2 & -> & Hall & Hc). exists (pattern :: l1), p, l2. by rewrite Forall_cons.
    + intros ([|p l1] & p' & l2 & [= -> Hl] & Hall & Hc).
      { by apply log_pattern_plain in Hc. }
      apply Forall_cons in Hall as [_ Hall]. by exists l1, p', l2.
Qed.

(** A name that is denied literally is not denied when a pattern with a
    wildcard comes before it in the rule. *)
Theorem log_rule_ignores_patterns_after_wildcard :
  let logs n := @LogsRequestContent example_conversion
    {| log_workload_names := [{| workload_name := n; agent_name := "a"; instance_id := "1" |}];
       follow := None; tail_lines := None; since := None; until := None |} in
  example_authorize (example_access [LogRuleSpec ["*"]] [LogRuleSpec ["secret"; "tmp_*"]])
    (logs "secret") = false ∧
  example_authorize (example_access [LogRuleSpec ["*"]] [LogRuleSpec ["tmp_*"; "secret"]])
    (logs "secret") = true.
Proof. split; vm_compute; reflexivity. Qed.
