(* ===== verification/ControlInterface.v ===== *)
(** * Ankaios agent: control interface

    [agent/src/control_interface.rs], [control_interface_info.rs],
    [control_interface_task.rs] and
    [common/src/request_id_prepending.rs]: the task that reads the requests of
    a workload from its pipe, authorizes them and sends them to the server under
    an id that names the workload, and the way responses find back.

    Writing to the workload's pipe is an operation on the host; what is read from
    the other pipe, already decoded, is the input of the task. *)

From Stdlib Require Import Ascii NArith.
From stdpp Require Import base tactics gmap strings list.
From S2P Require Import Prelude Api WorkloadFiles StateManipulation Messages Authorizer.

(** ** Request ids *)

Definition ID_SEPARATOR : ascii := "@".

Definition prepend_request_id (request_id agent_name : string) : string :=
  if str_is_empty request_id then ""
  else if str_is_empty agent_name then request_id
  else agent_name +:+ String ID_SEPARATOR request_id.

Definition detach_prefix_from_request_id (request_id : string) : string * string :=
  if str_is_empty request_id then ("", "")
  else
    match splitn 2 ID_SEPARATOR request_id with
    | prefix :: raw_request_id :: _ => (prefix, raw_request_id)
    | prefix :: [] => ("", prefix)
    | [] => ("", "")
    end.

Definition prefix_id (prefix request_id : string) : string := prefix +:+ request_id.

(** [[workload_name, ""].join("@")]. *)
Definition request_id_prefix (workload_name : string) : string := join "@" [workload_name; ""].

(** ** Versions ([common/src/helpers.rs])

    [Version::parse] of the [semver] crate, as far as it is used: major and
    minor version; and the version of the build. *)
Class Versions := {
  version_parse : string → option (N * N);
  ank_version : N * N;
  version_number_to_string : N → string
}.

Definition check_version_compatibility `{Versions} (version : string) : result string () :=
  let unsupported :=
    let '(major, minor) := ank_version in
    let supported_version :=
      if (0 <? major)%N then version_number_to_string major
      else version_number_to_string major +:+ "." +:+ version_number_to_string minor in
    Err ("Unsupported protocol version '" +:+ version +:+ "'. Currently supported '" +:+
         supported_version +:+ "'") in
  match version_parse version with
  | Some (major, _) => if (ank_version.1 =? major)%N then Ok () else unsupported
  | None => unsupported
  end.

Section control_interface.
Context {SC : StateConversion}.

(** ** The control interface of a workload *)

Definition SUBFOLDER_CONTROL_INTERFACE : string := "control_interface".

Definition control_interface_path_from (run_folder : path) (n : WorkloadInstanceNameSpec) : path :=
  pipes_folder_name n run_folder ++ [SUBFOLDER_CONTROL_INTERFACE].

Record ControlInterfaceInfo := {
  info_path : path;
  info_instance_name : WorkloadInstanceNameSpec;
  info_authorizer : Authorizer
}.

(** The running interface; [input_pipe_sender] is what was sent to its task. *)
Record ControlInterface := {
  api_location : path;
  interface_authorizer : Authorizer;
  input_pipe_sender : list Response
}.

#[export] Instance AllowPathPattern_eq_dec : EqDecision AllowPathPattern.
Proof. solve_decision. Defined.
#[export] Instance DenyPathPattern_eq_dec : EqDecision DenyPathPattern.
Proof. solve_decision. Defined.
#[export] Instance StateRule_eq_dec `{EqDecision P} : EqDecision (StateRule P).
Proof. solve_decision. Defined.
#[export] Instance LogRule_eq_dec : EqDecision LogRule.
Proof. solve_decision. Defined.
#[export] Instance Authorizer_eq_dec : EqDecision Authorizer.
Proof. solve_decision. Defined.

Definition has_same_configuration (self : ControlInterfaceInfo) (other : ControlInterface) : bool :=
  if bool_decide (info_path self ≠ api_location other) then false
  else bool_decide (info_authorizer self = interface_authorizer other).

(** ** The task *)

Inductive FromAnkaios :=
  | FromAnkaiosResponse (r : Response)
  | ControlInterfaceAccepted
  | ConnectionClosed (reason : string).

Inductive ToAnkaios :=
  | ToAnkaiosRequest (r : Request)
  | ToAnkaiosHello (protocol_version : string).

Inductive OutputPipeError := ReceiverGone | OutputPipeIo.

(** Writing a message to the pipe of the workload. *)
Class OutputPipe (W : Type) := send_message : FromAnkaios → io W OutputPipeError ().

Inductive DeliveryError := DeliveryIo | NoReader (r : Response).

Definition INITIAL_HELLO_MISSING_MSG : string := "Initial Hello missing!".
Definition PROTOBUF_DECODE_ERROR_MSG : string := "Could not decode protobuf data".

Context {W : Type} {OP : OutputPipe W} {V : Versions}.

Record ControlInterfaceTask := {
  output_stream : W;
  to_server_sender : list ToServer;
  task_request_id_prefix : string;
  authorizer : Authorizer
}.

Definition with_output (t : ControlInterfaceTask) (w : W) : ControlInterfaceTask :=
  {| output_stream := w; to_server_sender := to_server_sender t;
     task_request_id_prefix := task_request_id_prefix t; authorizer := authorizer t |}.

Definition send_to_server (m : ToServer) (t : ControlInterfaceTask) : ControlInterfaceTask :=
  {| output_stream := output_stream t; to_server_sender := to_server_sender t ++ [m];
     task_request_id_prefix := task_request_id_prefix t; authorizer := authorizer t |}.

(** Sends a message and ignores the result. *)
Definition send_ignoring (m : FromAnkaios) (t : ControlInterfaceTask) : ControlInterfaceTask :=
  with_output t (send_message m (output_stream t)).2.

Definition send_connection_closed (reason : string) := send_ignoring (ConnectionClosed reason).

Definition forward_from_server (r : Response) (t : ControlInterfaceTask) :
    result DeliveryError () * ControlInterfaceTask :=
  let '(res, w) := send_message (FromAnkaiosResponse r) (output_stream t) in
  (map_err (λ e, match e with ReceiverGone => NoReader r | OutputPipeIo => DeliveryIo end) res,
   with_output t w).

(** A decoded input of the workload: [None] if the data is no message, an error
    if the message is empty. *)
Abbreviation Input := (option (result string ToAnkaios)).

Definition check_initial_hello (input : Input) : result string () :=
  match input with
  | None => Err PROTOBUF_DECODE_ERROR_MSG
  | Some (Ok (ToAnkaiosHello protocol_version)) => check_version_compatibility protocol_version
  | Some _ => Err INITIAL_HELLO_MISSING_MSG
  end.

(** A response whose reader is gone cancels the collection of its logs. *)
Definition handle_from_server (msg : option FromServer) (t : ControlInterfaceTask) :
    ControlInterfaceTask :=
  match msg with
  | Some (FromServerResponse r) =>
    match forward_from_server r t with
    | (Err (NoReader r), t) =>
      match response_content r with
      | Some (LogEntriesResponseContent _) =>
        send_to_server (request_logs_cancel
          (prefix_id (task_request_id_prefix t) (response_request_id r))) t
      | _ => t
      end
    | (_, t) => t
    end
  | _ => t
  end.

Definition access_denied (request_id : string) : Response :=
  {| response_request_id := request_id; response_content := Some (ErrorContent "Access denied") |}.

Definition prefix_request_id (prefix : string) (r : Request) : Request :=
  {| request_id := prefix_id prefix (request_id r); request_content := request_content r |}.

(** The task goes on or returns. *)
Definition handle_input (input : Input) (t : ControlInterfaceTask) : bool * ControlInterfaceTask :=
  match input with
  | Some (Ok (ToAnkaiosRequest request)) =>
    if authorize (authorizer t) request then
      (true, send_to_server (ToServerRequest (prefix_request_id (task_request_id_prefix t) request)) t)
    else (true, (forward_from_server (access_denied (request_id request)) t).2)
  | Some (Ok (ToAnkaiosHello protocol_version)) =>
    match check_version_compatibility protocol_version with
    | Err message => (false, send_connection_closed message t)
    | Ok _ => (true, t)
    end
  | Some (Err _) => (true, t)
  | None => (true, t)
  end.

Inductive TaskEvent :=
  | ReceivedFromServer (msg : option FromServer)
  | ReceivedInput (input : Input).

Definition task_step (e : TaskEvent) (t : ControlInterfaceTask) : bool * ControlInterfaceTask :=
  match e with
  | ReceivedFromServer msg => (true, handle_from_server msg t)
  | ReceivedInput input => handle_input input t
  end.

Fixpoint task_loop (events : list TaskEvent) (t : ControlInterfaceTask) : ControlInterfaceTask :=
  match events with
  | [] => t
  | e :: events => let '(go_on, t) := task_step e t in if go_on then task_loop events t else t
  end.

Definition run_control_interface (first : Input) (events : list TaskEvent)
    (t : ControlInterfaceTask) : ControlInterfaceTask :=
  match check_initial_hello first with
  | Ok _ =>
    match send_message ControlInterfaceAccepted (output_stream t) with
    | (Ok _, w) => task_loop events (with_output t w)
    | (Err _, w) => with_output t w
    end
  | Err message => send_connection_closed message t
  end.
End control_interface.

(** ** Lemmas *)

Section control_interface_lemmas.
Context {SC : StateConversion} {W : Type} {OP : OutputPipe W} {V : Versions}.
Implicit Types t : ControlInterfaceTask (W := W).

(** Why the task may send a message to the server. *)
Inductive sendable (prefix : string) (a : Authorizer) (events : list TaskEvent) : ToServer → Prop :=
  | sendable_request r :
      ReceivedInput (Some (Ok (ToAnkaiosRequest r))) ∈ events → authorize a r = true →
      sendable prefix a events (ToServerRequest (prefix_request_id prefix r))
  | sendable_cancel r logs :
      ReceivedFromServer (Some (FromServerResponse r)) ∈ events →
      response_content r = Some (LogEntriesResponseContent logs) →
      sendable prefix a events (request_logs_cancel (prefix_id prefix (response_request_id r))).

Lemma sendable_mono prefix a e events m : sendable prefix a events m → sendable prefix a (e :: events) m.
Proof.
  intros [r Hin Ha|r logs Hin Hr]; [by apply sendable_request; [right|]|].
  by eapply sendable_cancel; [right|].
Qed.

(** What a step keeps and what it sends. *)
Definition sends (t t' : ControlInterfaceTask (W := W)) (ms : list ToServer) : Prop :=
  to_server_sender t' = to_server_sender t ++ ms ∧
  task_request_id_prefix t' = task_request_id_prefix t ∧ authorizer t' = authorizer t.

Lemma sends_output t w : sends t (with_output t w) [].
Proof. split; [by rewrite app_nil_r|done]. Qed.

Lemma forward_from_server_same r t : sends t (forward_from_server r t).2 [].
Proof. unfold forward_from_server. destruct (send_message _ _) as [res w]. apply sends_output. Qed.

Lemma forward_no_reader r t r' t' : forward_from_server r t = (Err (NoReader r'), t') → r' = r.
Proof.
  unfold forward_from_server. destruct (send_message _ _) as [[|[]] w]; simpl; by intros [= <- _].
Qed.

Lemma task_step_sends e t :
  ∃ ms, sends t (task_step e t).2 ms ∧
    Forall (sendable (task_request_id_prefix t) (authorizer t) [e]) ms.
Proof.
  destruct e as [msg|input]; simpl.
  - destruct msg as [[]|]; simpl; try (exists []; by split; [split; [rewrite app_nil_r|]|]).
    pose proof (forward_from_server_same r t) as Hf. pose proof (forward_no_reader r t) as Hr.
    destruct (forward_from_server r t) as [[|[|r']] t1] eqn:Heq; simpl in Hf; try (by exists []).
    destruct (response_content r') as [[]|] eqn:Hc; try (by exists []).
    exists [request_logs_cancel (prefix_id (task_request_id_prefix t1) (response_request_id r'))].
    destruct Hf as (Hs & Hp & Ha). split; [split; [|done]|].
    + simpl. by rewrite Hs, app_nil_r.
    + rewrite Forall_singleton, Hp. rewrite (Hr _ _ eq_refl) in *.
      eapply sendable_cancel; [by left|done].
  - destruct input as [[[r|v]|err]|]; simpl; try (exists []; by split; [split; [rewrite app_nil_r|]|]).
    + destruct (authorize (authorizer t) r) eqn:Ha.
      * exists [ToServerRequest (prefix_request_id (task_request_id_prefix t) r)].
        split; [done|]. apply Forall_singleton. apply sendable_request; [by left|done].
      * exists []. split; [apply forward_from_server_same|done].
    + destruct (check_version_compatibility v); exists []; (split; [|done]); [|apply sends_output].
      split; [by rewrite app_nil_r|done].
Qed.

Lemma task_loop_sends events t :
  ∃ ms, sends t (task_loop events t) ms ∧
    Forall (sendable (task_request_id_prefix t) (authorizer t) events) ms.
Proof.
  revert t. induction events as [|e events IH]; intros t; simpl.
  { exists []. split; [split; [by rewrite app_nil_r|done]|done]. }
  destruct (task_step_sends e t) as (ms1 & (Hs1 & Hp1 & Ha1) & Hms1).
  assert (Forall (sendable (task_request_id_prefix t) (authorizer t) (e :: events)) ms1) as Hall1.
  { eapply Forall_impl; [exact Hms1|]. intros m [r Hin Ha|r logs Hin Hr].
    - apply list_elem_of_singleton in Hin as <-. apply sendable_request; [by left|done].
    - apply list_elem_of_singleton in Hin as <-. eapply sendable_cancel; [by left|done]. }
  destruct (task_step e t) as [[] t1]; simpl in *; [|by exists ms1].
  destruct (IH t1) as (ms2 & (Hs2 & Hp2 & Ha2) & Hms2). exists (ms1 ++ ms2).
  split; [split; [by rewrite Hs2, Hs1, app_assoc|split; congruence]|].
  apply Forall_app. split; [done|]. rewrite Hp1, Ha1 in Hms2.
  eapply Forall_impl; [exact Hms2|]. intros m. apply sendable_mono.
Qed.
End control_interface_lemmas.

Lemma detach_prefix_prefixed name id :
  has_char ID_SEPARATOR name = false →
  detach_prefix_from_request_id (name +:+ String ID_SEPARATOR id) = (name, id).
Proof.
  intros Hname. unfold detach_prefix_from_request_id.
  destruct (str_is_empty _) eqn:He.
  { apply str_is_empty_true in He. by destruct name. }
  unfold splitn. by rewrite split_once_app.
Qed.

Lemma request_id_prefixed name id :
  prefix_id (request_id_prefix name) id = name +:+ String ID_SEPARATOR id.
Proof. unfold prefix_id, request_id_prefix, join. simpl. by rewrite <-str_app_assoc. Qed.

Lemma detach_request_prefix name id :
  has_char ID_SEPARATOR name = false →
  detach_prefix_from_request_id (prefix_id (request_id_prefix name) id) = (name, id).
Proof. intros Hname. rewrite request_id_prefixed. by apply detach_prefix_prefixed. Qed.

(** ** Properties *)


Definition example_versions : Versions := {|
  version_parse := λ s, if String.eqb s "1.0.0" then Some (1, 0)%N else None;
  ank_version := (1, 2)%N;
  version_number_to_string := λ n, if (n =? 1)%N then "1" else ""
|}.

(** The output pipe of the examples keeps what was written. *)
Definition example_pipe : @OutputPipe example_conversion (list (@FromAnkaios example_conversion)) :=
  λ m w, (Ok (), w ++ [m]).


(** The prefix a request gets on its way to the server is taken off the
    response again: the response finds the workload, and the workload its own
    request id, for all ids, as long as the workload's name has no separator. *)
Theorem response_finds_workload name id :
  has_char ID_SEPARATOR name = false →
  detach_prefix_from_request_id (prefix_id (request_id_prefix name) id) = (name, id).
Proof. apply detach_request_prefix. Qed.

Lemma response_finds_workload_witness :
  detach_prefix_from_request_id (prefix_id (request_id_prefix "nginx") "a@b") = ("nginx", "a@b").
Proof. apply (response_finds_workload "nginx" "a@b"). reflexivity. Defined.
