(* ===== verification/Pipes.v ===== *)
(** * Ankaios: the pipes of a workload

    [agent/src/control_interface/input_pipe.rs] and [output_pipe.rs]: messages of
    a workload travel through two fifos as length-delimited protobuf. What a
    fifo does is an explicit sequence: the bytes, ends of file and errors that
    arrive at the reading side, and what becomes of every attempt to write.
    Every definition that reads is a step of a parser that consumes events, so
    lost data shows in the model as consumed events. *)

From Stdlib Require Import Lia NArith.
From stdpp Require Import base tactics numbers strings list.
From S2P Require Import Prelude.
Local Open Scope N_scope.

(** A byte. *)
Abbreviation u8 := N.

(** [std::io::Error]: its kind and, for an error of the operating system, its
    number. *)
Inductive ErrorKind :=
  | UnexpectedEof | BrokenPipe | TimedOut | InvalidData | NotFound | OtherError (what : string).

#[export] Instance ErrorKind_eq_dec : EqDecision ErrorKind.
Proof. solve_decision. Defined.

Record IoError := { kind : ErrorKind; raw_os_error : option Z }.

Definition io_error (k : ErrorKind) : IoError := {| kind := k; raw_os_error := None |}.

(** The variable-length integers of the [prost] crate with what the wire
    format promises: seven bits per byte, the high bit set in all bytes but
    the last, at most ten bytes, and what follows the number is not looked at.
    [decode_varint] fails if the number is not complete or too large. *)
Class Varint := {
  encode_varint : N → list u8;
  decode_varint : list u8 → option N;
  encode_varint_bytes n : n < 2 ^ 64 → ∃ init last, encode_varint n = init ++ [last] ∧
    Forall (λ b, N.land b 128 ≠ 0) init ∧ N.land last 128 = 0 ∧ (length init < 10)%nat;
  decode_encode n rest : n < 2 ^ 64 → decode_varint (encode_varint n ++ rest) = Some n
}.

(** How much memory a buffer may take; Rust's vectors never hold more than
    [isize::MAX] bytes. *)
Definition ISIZE_MAX : N := 2 ^ 63 - 1.

Class Memory := {
  allocatable : N → bool;
  allocatable_zero : allocatable 0 = true;
  allocatable_max n : allocatable n = true → n ≤ ISIZE_MAX
}.

Module InputPipe.

(** What happens at the reading end. [Cancelled] stands for the [select!] of the
    control interface task, which drops a read that is still waiting. *)
Inductive PipeEvent :=
  | Byte (b : u8)
  | EndOfFile
  | ReadFailed (err : IoError)
  | Cancelled.

(** The end of a read: a value, an error of the read, more input is needed, the
    read was dropped, or the buffer could not be allocated and the task
    (or the process) is gone. *)
Inductive Outcome (A : Type) :=
  | Done (a : A)
  | Failed (err : IoError)
  | Waiting
  | Dropped
  | Died.
Arguments Done {A} a.
Arguments Failed {A} err.
Arguments Waiting {A}.
Arguments Dropped {A}.
Arguments Died {A}.

Definition reader (A : Type) : Type := list PipeEvent → Outcome A * list PipeEvent.

#[local] Instance reader_ret : MRet reader := λ A a file, (Done a, file).
#[local] Instance reader_bind : MBind reader := λ A B k m file,
  match m file with
  | (Done a, file) => k a file
  | (Failed err, file) => (Failed err, file)
  | (Waiting, file) => (Waiting, file)
  | (Dropped, file) => (Dropped, file)
  | (Died, file) => (Died, file)
  end.

Definition read_u8 : reader u8 := λ file,
  match file with
  | [] => (Waiting, [])
  | Byte b :: file => (Done b, file)
  | EndOfFile :: file => (Failed (io_error UnexpectedEof), file)
  | ReadFailed err :: file => (Failed err, file)
  | Cancelled :: file => (Dropped, file)
  end.

(** [read_exact] of a buffer of [size] bytes; the read bytes come newest first. *)
Fixpoint read_exact_into (buf : list u8) (size : N) (file : list PipeEvent) :
    Outcome (list u8) * list PipeEvent :=
  if size =? 0 then (Done (reverse buf), file)
  else
    match file with
    | [] => (Waiting, [])
    | Byte b :: file => read_exact_into (b :: buf) (size - 1) file
    | EndOfFile :: file => (Failed (io_error UnexpectedEof), file)
    | ReadFailed err :: file => (Failed err, file)
    | Cancelled :: file => (Dropped, file)
    end.

Definition read_exact (size : N) : reader (list u8) := read_exact_into [] size.

Definition MAX_VARINT_SIZE : nat := 19.
Definition VARINT_STOP_MASK : u8 := 128.

(** The loop over the [n] remaining items of the array, which is zero at first. *)
Fixpoint read_varint_items (n : nat) : reader (list u8) :=
  match n with
  | O => mret []
  | S n =>
    item ← read_u8;
    if N.land item VARINT_STOP_MASK =? 0 then mret (item :: replicate n 0)
    else items ← read_varint_items n; mret (item :: items)
  end.

Definition try_read_varint_data : reader (list u8) := read_varint_items MAX_VARINT_SIZE.

Section input_pipe.
Context `{Varint, Memory}.

Definition try_read_protobuf_data : reader (list u8) :=
  varint_data ← try_read_varint_data;
  match decode_varint varint_data with
  | None => λ file, (Failed (io_error InvalidData), file)
  | Some size => if allocatable size then read_exact size else λ file, (Died, file)
  end.

(** The open file, and what the next attempts to open the fifo lead to; after
    these, opening succeeds and nothing arrives. *)
Record InputPipe := {
  file : option (list PipeEvent);
  reopens : list (result IoError (list PipeEvent))
}.

Definition open_receiver (opens : list (result IoError (list PipeEvent))) :
    result IoError (list PipeEvent) * list (result IoError (list PipeEvent)) :=
  match opens with [] => (Ok [], []) | r :: opens => (r, opens) end.

Definition open (opens : list (result IoError (list PipeEvent))) : InputPipe :=
  match open_receiver opens with
  | (Ok f, opens) => {| file := Some f; reopens := opens |}
  | (Err _, opens) => {| file := None; reopens := opens |}
  end.

Definition ensure_file (p : InputPipe) : result IoError (list PipeEvent) * InputPipe :=
  match file p with
  | Some f => (Ok f, p)
  | None =>
    match open_receiver (reopens p) with
    | (Ok f, opens) => (Ok f, {| file := Some f; reopens := opens |})
    | (Err err, opens) => (Err err, {| file := None; reopens := opens |})
    end
  end.

Definition set_file (f : option (list PipeEvent)) (p : InputPipe) : InputPipe :=
  {| file := f; reopens := reopens p |}.

(** The loop; [fuel] bounds how often the file is opened again. *)
Fixpoint read_loop (fuel : nat) (p : InputPipe) : Outcome (list u8) * InputPipe :=
  match ensure_file p with
  | (Err err, p) => (Failed err, p)
  | (Ok f, p) =>
    match try_read_protobuf_data f with
    | (Failed err, f) =>
      if bool_decide (kind err = UnexpectedEof) then
        match fuel with
        | O => (Waiting, set_file None p)
        | S fuel => read_loop fuel (set_file None p)
        end
      else (Failed err, set_file (Some f) p)
    | (outcome, f) => (outcome, set_file (Some f) p)
    end
  end.

Definition read_protobuf_data (p : InputPipe) : Outcome (list u8) * InputPipe :=
  read_loop (S (length (reopens p))) p.

(** The inputs the task gets from its reads, one after the other. *)
Fixpoint read_inputs (n : nat) (p : InputPipe) : list (result IoError (list u8)) :=
  match n with
  | O => []
  | S n =>
    match read_protobuf_data p with
    | (Done data, p) => Ok data :: read_inputs n p
    | (Failed err, p) => Err err :: read_inputs n p
    | (Dropped, p) => read_inputs n p
    | (Waiting, _) | (Died, _) => []
    end
  end.

Definition events_left (f : result IoError (list PipeEvent)) : nat :=
  match f with Ok f => S (length f) | Err _ => 1 end.

(** Every read takes an event or opens the fifo. *)
Definition work (p : InputPipe) : nat :=
  from_option length 0%nat (file p) + sum_list (events_left <$> reopens p).

Definition inputs (p : InputPipe) : list (result IoError (list u8)) := read_inputs (S (work p)) p.
End input_pipe.
End InputPipe.

Module OutputPipe.

(** [OutputPipeError]. *)
Inductive OutputPipeError :=
  | ReceiverGone (err : IoError)
  | Io (err : IoError).

Definition AGENT_RECONNECT_INTERVAL_MS : N := 100.
Definition OUTPUT_PIPE_WRITE_TIMEOUT_MS : N := 500.
Definition CONTROL_INTERFACE_MAX_RETRIES : nat := 5.
Definition ENXIO : Z := 6.

(** What becomes of an attempt to write: the time for it elapses, or writing and
    flushing end. *)
Inductive Ended := Flushed | WriteError (err : IoError) | Elapsed.

Record Attempt := {
  opened : result IoError ();
  accepted : nat;
  ended : Ended
}.

(** The open file is the last of the connections; each is the bytes written to
    it. After the given attempts nobody reads any more. *)
Record OutputPipe := {
  file : bool;
  connections : list (list u8);
  attempts : list Attempt;
  slept_ms : N
}.

Definition no_reader : Attempt := {| opened := Ok (); accepted := 0; ended := Elapsed |}.

Definition next_attempt (p : OutputPipe) : Attempt * OutputPipe :=
  (default no_reader (head (attempts p)),
   {| file := file p; connections := connections p; attempts := tail (attempts p);
      slept_ms := slept_ms p |}).

Definition close (p : OutputPipe) : OutputPipe :=
  {| file := false; connections := connections p; attempts := attempts p; slept_ms := slept_ms p |}.

Definition sleep (ms : N) (p : OutputPipe) : OutputPipe :=
  {| file := file p; connections := connections p; attempts := attempts p;
     slept_ms := slept_ms p + ms |}.

Definition open_sender (a : Attempt) : io OutputPipe IoError () := λ p,
  match opened a with
  | Ok _ => (Ok (), {| file := true; connections := connections p ++ [[]];
                       attempts := attempts p; slept_ms := slept_ms p |})
  | Err err => (Err err, p)
  end.

Definition ensure_file (a : Attempt) : io OutputPipe IoError () := λ p,
  if file p then (Ok (), p) else open_sender a p.

(** The bytes go to the open file. *)
Fixpoint append_last (l : list (list u8)) (data : list u8) : list (list u8) :=
  match l with
  | [] => []
  | [c] => [c ++ data]
  | c :: l => c :: append_last l data
  end.

Definition write (data : list u8) (p : OutputPipe) : OutputPipe :=
  {| file := file p; connections := append_last (connections p) data;
     attempts := attempts p; slept_ms := slept_ms p |}.

(** [file.write_all(buf)] and [flush]: as long as this is not done at least a byte
    is left. [None] stands for the elapsed timeout. *)
Definition write_and_flush (a : Attempt) (buf : list u8) (p : OutputPipe) :
    option (result IoError ()) * OutputPipe :=
  let partly := take (Nat.min (accepted a) (pred (length buf))) buf in
  match ended a with
  | Flushed => (Some (Ok ()), write buf p)
  | WriteError err => (Some (Err err), write partly p)
  | Elapsed => (None, write partly p)
  end.

Definition try_write_all (buf : list u8) (p : OutputPipe) :
    option (result IoError ()) * OutputPipe :=
  let '(a, p) := next_attempt p in
  match ensure_file a p with
  | (Ok _, p) => write_and_flush a buf p
  | (Err err, p) => (Some (Err err), p)
  end.

Definition receiver_gone (err : IoError) : bool :=
  bool_decide (kind err = BrokenPipe) || bool_decide (raw_os_error err = Some ENXIO).

(** The loop with the number of retries that are left. *)
Fixpoint write_loop (retries_left : nat) (buf : list u8) (p : OutputPipe) :
    result OutputPipeError () * OutputPipe :=
  let '(write_result, p) := try_write_all buf p in
  match write_result with
  | None => (Err (ReceiverGone (io_error TimedOut)), p)
  | Some (Ok _) => (Ok (), p)
  | Some (Err err) =>
    if receiver_gone err then
      match retries_left with
      | S retries_left => write_loop retries_left buf (sleep AGENT_RECONNECT_INTERVAL_MS (close p))
      | O => (Err (ReceiverGone err), p)
      end
    else (Err (Io err), p)
  end.

Definition write_all (buf : list u8) : io OutputPipe OutputPipeError () := λ p,
  match buf with
  | [] => (Ok (), p)
  | _ => write_loop CONTROL_INTERFACE_MAX_RETRIES buf p
  end.

(** [open]: opening fails silently. *)
Definition open (r : result IoError ()) (attempts : list Attempt) : OutputPipe :=
  match r with
  | Ok _ => {| file := true; connections := [[]]; attempts := attempts; slept_ms := 0 |}
  | Err _ => {| file := false; connections := []; attempts := attempts; slept_ms := 0 |}
  end.

Section output_pipe.
Context `{Varint}.

(** [encode_length_delimited_to_vec] of an encoded message. *)
Definition frame (message : list u8) : list u8 :=
  encode_varint (N.of_nat (length message)) ++ message.

(** [send_message] of the control interface task. *)
Definition send_message (message : list u8) : io OutputPipe OutputPipeError () :=
  write_all (frame message).

Fixpoint send_messages (messages : list (list u8)) (p : OutputPipe) :
    list (result OutputPipeError ()) * OutputPipe :=
  match messages with
  | [] => ([], p)
  | m :: messages =>
    let '(r, p) := send_message m p in
    let '(rs, p) := send_messages messages p in (r :: rs, p)
  end.
End output_pipe.
End OutputPipe.

(** ** Reading *)

Section input_lemmas.
Import InputPipe.
Context `{V : Varint, M : Memory}.
Local Existing Instances InputPipe.reader_ret InputPipe.reader_bind.

Definition bytes (data : list u8) : list PipeEvent := Byte <$> data.

Lemma read_varint_items_whole init last n f :
  Forall (λ b, N.land b 128 ≠ 0) init → N.land last 128 = 0 → (length init < n)%nat →
  ∃ pad, read_varint_items n (bytes (init ++ [last]) ++ f) = (Done ((init ++ [last]) ++ pad), f).
Proof.
  intros Hinit Hlast. revert n. induction Hinit as [|b init Hb Hinit IH]; intros [|n] Hn;
    simpl in *; try lia.
  - exists (replicate n 0). unfold mbind, reader_bind. simpl.
    unfold VARINT_STOP_MASK. by rewrite Hlast.
  - destruct (IH n) as [pad Hpad]; [lia|]. exists pad.
    unfold mbind at 1, reader_bind at 1. simpl. unfold VARINT_STOP_MASK.
    rewrite (proj2 (N.eqb_neq _ _) Hb). unfold mbind, reader_bind. by rewrite Hpad.
Qed.

Lemma read_varint_items_cut init n f :
  Forall (λ b, N.land b 128 ≠ 0) init → (length init < n)%nat →
  read_varint_items n (bytes init ++ EndOfFile :: f) = (Failed (io_error UnexpectedEof), f).
Proof.
  intros Hinit. revert n. induction Hinit as [|b init Hb Hinit IH]; intros [|n] Hn;
    simpl in *; try lia; [done|].
  unfold mbind at 1, reader_bind at 1. simpl. unfold VARINT_STOP_MASK.
  rewrite (proj2 (N.eqb_neq _ _) Hb). unfold mbind, reader_bind. rewrite IH; [done|lia].
Qed.

Lemma read_exact_into_whole data buf f :
  read_exact_into buf (N.of_nat (length data)) (bytes data ++ f) = (Done (reverse buf ++ data), f).
Proof.
  revert buf. induction data as [|b data IH]; intros buf.
  - rewrite app_nil_r. by destruct f.
  - cbn [bytes fmap list_fmap app read_exact_into length].
    destruct (N.eqb_spec (N.of_nat (S (length data))) 0); [lia|].
    replace (N.of_nat (S (length data)) - 1) with (N.of_nat (length data)) by lia.
    fold (bytes data). rewrite IH, reverse_cons, <-app_assoc. done.
Qed.

Lemma read_exact_into_cut data buf size f :
  N.of_nat (length data) < size →
  read_exact_into buf size (bytes data ++ EndOfFile :: f) = (Failed (io_error UnexpectedEof), f).
Proof.
  revert buf size. induction data as [|b data IH]; intros buf size Hsize.
  - simpl in *. by destruct (N.eqb_spec size 0); [lia|].
  - cbn [bytes fmap list_fmap app read_exact_into length] in *.
    destruct (N.eqb_spec size 0); [lia|]. apply IH. lia.
Qed.

Definition readable (m : list u8) : Prop := allocatable (N.of_nat (length m)) = true.

Lemma readable_small m : readable m → N.of_nat (length m) < 2 ^ 64.
Proof. intros Hm%allocatable_max. unfold ISIZE_MAX in Hm. lia. Qed.

Lemma try_read_whole m f :
  readable m → try_read_protobuf_data (bytes (OutputPipe.frame m) ++ f) = (Done m, f).
Proof.
  intros Hm. pose proof (readable_small m Hm) as Hsmall.
  destruct (encode_varint_bytes _ Hsmall) as (init & last & Heq & Hinit & Hlast & Hlen).
  unfold OutputPipe.frame, bytes. rewrite fmap_app, <-app_assoc, Heq.
  destruct (read_varint_items_whole init last MAX_VARINT_SIZE (bytes m ++ f) Hinit Hlast)
    as [pad Hpad]; [unfold MAX_VARINT_SIZE; lia|].
  unfold try_read_protobuf_data, try_read_varint_data, mbind, reader_bind.
  fold (bytes (init ++ [last])) (bytes m). rewrite Hpad, <-Heq, decode_encode, Hm by done.
  unfold read_exact. by rewrite read_exact_into_whole.
Qed.

Lemma try_read_cut m tl f :
  readable m → tl `prefix_of` OutputPipe.frame m → tl ≠ OutputPipe.frame m →
  try_read_protobuf_data (bytes tl ++ EndOfFile :: f) = (Failed (io_error UnexpectedEof), f).
Proof.
  intros Hm Hpre Hne. pose proof (readable_small m Hm) as Hsmall.
  destruct (encode_varint_bytes _ Hsmall) as (init & last & Heq & Hinit & Hlast & Hlen).
  unfold try_read_protobuf_data, try_read_varint_data, mbind, reader_bind.
  destruct Hpre as [rest Hrest]. unfold OutputPipe.frame in Hrest, Hne.
  destruct (app_eq_inv _ _ _ _ Hrest) as [(k & Hk & ->)|(k & -> & Hk)].
  - destruct k as [|b k].
    + rewrite app_nil_r in Hk. subst tl.
      rewrite Heq in Hne |- *. pose proof (read_varint_items_whole init last MAX_VARINT_SIZE
        (EndOfFile :: f) Hinit Hlast) as [pad Hpad]; [unfold MAX_VARINT_SIZE; lia|].
      rewrite Hpad, <-Heq, decode_encode, Hm by done.
      apply (read_exact_into_cut []). destruct m; simpl; [|lia].
      by rewrite app_nil_r in Hne.
    + assert (tl `prefix_of` init) as [init' ->].
      { rewrite Heq in Hk. destruct (app_eq_inv _ _ _ _ Hk) as [(k' & Hk' & ?)|(k' & -> & Hk')].
        - exists k'. done.
        - destruct k' as [|? k']; simpl in *; [exists []; by rewrite !app_nil_r|].
          by destruct k'. }
      rewrite read_varint_items_cut; [done|by apply Forall_app in Hinit as [? ?]|].
      rewrite length_app in Hlen. unfold MAX_VARINT_SIZE. lia.
  - unfold bytes. rewrite fmap_app, <-app_assoc, Heq.
    pose proof (read_varint_items_whole init last MAX_VARINT_SIZE
      (bytes k ++ EndOfFile :: f) Hinit Hlast) as [pad Hpad]; [unfold MAX_VARINT_SIZE; lia|].
    fold (bytes (init ++ [last])) (bytes k). rewrite Hpad, <-Heq, decode_encode, Hm by done.
    apply read_exact_into_cut. subst m. rewrite length_app.
    destruct rest; simpl; [|lia]. by rewrite app_nil_r in Hne.
Qed.

(** *** The loop *)

Lemma open_receiver_nil : open_receiver [] = (Ok [], []).
Proof. done. Qed.

Lemma try_read_nil : try_read_protobuf_data [] = (Waiting, []).
Proof. done. Qed.

Lemma read_loop_fuel rs n n' :
  (length rs ≤ n)%nat → (length rs ≤ n')%nat →
  read_loop n {| file := None; reopens := rs |} = read_loop n' {| file := None; reopens := rs |}.
Proof.
  revert n n'. induction rs as [|[f|err] rs IH]; intros [|n] [|n'] Hn Hn'; simpl in Hn, Hn';
    try lia; cbn [read_loop ensure_file file reopens open_receiver]; rewrite ?try_read_nil; try done.
  destruct (try_read_protobuf_data f) as [[| | | |] f']; try done.
  destruct (bool_decide _); [|done]. apply IH; lia.
Qed.

Lemma read_eof f err f' rs :
  try_read_protobuf_data f = (Failed err, f') → kind err = UnexpectedEof →
  read_protobuf_data {| file := Some f; reopens := rs |} =
  read_protobuf_data {| file := None; reopens := rs |}.
Proof.
  intros Hf Herr. unfold read_protobuf_data at 1. cbn [read_loop ensure_file file reopens].
  rewrite Hf, bool_decide_true by done.
  exact (read_loop_fuel rs (length rs) (S (length rs)) ltac:(lia) ltac:(lia)).
Qed.

Lemma read_reopen f rs :
  read_protobuf_data {| file := None; reopens := Ok f :: rs |} =
  read_protobuf_data {| file := Some f; reopens := rs |}.
Proof.
  unfold read_protobuf_data. cbn [read_loop ensure_file file reopens open_receiver length].
  destruct (try_read_protobuf_data f) as [[| | | |] f']; try done.
  destruct (bool_decide _); [|done].
  exact (read_loop_fuel rs (S (length rs)) (length rs) ltac:(lia) ltac:(lia)).
Qed.

Lemma read_ends f o f' rs :
  try_read_protobuf_data f = (o, f') →
  match o with Failed err => kind err ≠ UnexpectedEof | _ => True end →
  read_protobuf_data {| file := Some f; reopens := rs |} =
  (o, {| file := Some f'; reopens := rs |}).
Proof.
  intros Hf Ho. unfold read_protobuf_data. cbn [read_loop ensure_file file reopens]. rewrite Hf.
  destruct o; try done. by rewrite bool_decide_false.
Qed.

(** *** Every read makes progress *)

Definition progress {A} (f : list PipeEvent) (r : Outcome A * list PipeEvent) : Prop :=
  match r with
  | (Waiting, f') | (Died, f') => (length f' ≤ length f)%nat
  | (_, f') => (length f' < length f)%nat
  end.

Lemma progress_bind {A B} (m : reader A) (k : A → reader B) f :
  progress f (m f) → (∀ a f', (length (k a f').2 ≤ length f')%nat) → progress f ((m ≫= k) f).
Proof.
  intros Hm Hk. unfold mbind, reader_bind. destruct (m f) as [[a| | | |] f']; try done.
  specialize (Hk a f'). simpl in Hm. destruct (k a f') as [[| | | |] f'']; simpl in *; lia.
Qed.

Lemma progress_weaken {A} f (r : Outcome A * list PipeEvent) :
  progress f r → (length r.2 ≤ length f)%nat.
Proof. destruct r as [[| | | |] f']; simpl; lia. Qed.

Lemma read_u8_progress f : progress f (read_u8 f).
Proof. destruct f as [|[] f]; simpl; lia. Qed.

Lemma read_varint_items_progress n f : progress f (read_varint_items (S n) f).
Proof.
  revert f. induction n as [|n IH]; intros f; (apply progress_bind; [apply read_u8_progress|]);
    intros b f'; destruct (_ =? 0); simpl; try lia.
  apply progress_weaken, progress_bind; [apply IH|]. simpl. lia.
Qed.

Lemma read_exact_into_shrinks f buf size :
  (length (read_exact_into buf size f).2 ≤ length f)%nat.
Proof.
  revert buf size. induction f as [|[] f IH]; intros buf size; simpl;
    destruct (size =? 0); simpl; try lia. specialize (IH (b :: buf) (size - 1)). lia.
Qed.

Lemma try_read_progress f : progress f (try_read_protobuf_data f).
Proof.
  apply progress_bind; [apply read_varint_items_progress|].
  intros data f'. destruct (decode_varint data) as [size|]; [|done].
  destruct (allocatable size); [apply read_exact_into_shrinks|done].
Qed.

Definition reads_on {A} (o : Outcome A) : Prop := match o with Waiting | Died => False | _ => True end.

Lemma read_open_work f rs o p' :
  (∀ o p', read_protobuf_data {| file := None; reopens := rs |} = (o, p') → reads_on o →
    (work p' < work {| file := None; reopens := rs |})%nat) →
  read_protobuf_data {| file := Some f; reopens := rs |} = (o, p') → reads_on o →
  (work p' < work {| file := Some f; reopens := rs |})%nat.
Proof.
  intros IH. pose proof (try_read_progress f) as Hp.
  destruct (try_read_protobuf_data f) as [o1 f'] eqn:Hf.
  assert ((∃ err, o1 = Failed err ∧ kind err = UnexpectedEof) ∨
    match o1 with Failed err => kind err ≠ UnexpectedEof | _ => True end)
    as [(err & -> & Herr)|Hne].
  { destruct o1 as [|err| | |]; auto. destruct (decide (kind err = UnexpectedEof)); eauto. }
  - rewrite (read_eof _ _ _ _ Hf Herr). intros Hr Ho. specialize (IH _ _ Hr Ho).
    unfold work in *. simpl in *. lia.
  - rewrite (read_ends _ _ _ _ Hf Hne).
    intros [= <- <-]. unfold work. destruct o1; simpl in *; try done; lia.
Qed.

Lemma read_closed_work rs o p' :
  read_protobuf_data {| file := None; reopens := rs |} = (o, p') → reads_on o →
  (work p' < work {| file := None; reopens := rs |})%nat.
Proof.
  revert o p'. induction rs as [|[f|err] rs IH]; intros o p'.
  - by intros [= <- <-].
  - rewrite read_reopen. intros Hr Ho. pose proof (read_open_work f rs _ _ IH Hr Ho) as Hw.
    assert (work {| file := None; reopens := Ok f :: rs |} =
      S (work {| file := Some f; reopens := rs |})) as -> by done. lia.
  - intros [= <- <-] _. apply Nat.lt_succ_diag_r.
Qed.

Lemma read_work p o p' :
  read_protobuf_data p = (o, p') → reads_on o → (work p' < work p)%nat.
Proof.
  destruct p as [[f|] rs]; [|apply read_closed_work].
  apply read_open_work, read_closed_work.
Qed.

Lemma read_inputs_enough n p : (work p < n)%nat → read_inputs n p = inputs p.
Proof.
  unfold inputs. intros Hn.
  enough (∀ n n' p, (work p < n)%nat → (work p < n')%nat → read_inputs n p = read_inputs n' p)
    as Hall by (apply Hall; lia).
  clear n p Hn. induction n as [|n IH]; intros [|n'] p Hn Hn'; try lia. cbn [read_inputs].
  pose proof (read_work p) as Hw. destruct (read_protobuf_data p) as [o p'].
  specialize (Hw o p' eq_refl).
  destruct o; try done; rewrite (IH n' p'); try done; specialize (Hw I); lia.
Qed.

Lemma inputs_unfold p :
  inputs p =
    match read_protobuf_data p with
    | (Done data, p) => Ok data :: inputs p
    | (Failed err, p) => Err err :: inputs p
    | (Dropped, p) => inputs p
    | (Waiting, _) | (Died, _) => []
    end.
Proof.
  unfold inputs at 1. cbn [read_inputs]. pose proof (read_work p) as Hw.
  destruct (read_protobuf_data p) as [o p']. specialize (Hw o p' eq_refl).
  destruct o; try done; rewrite read_inputs_enough; try done; specialize (Hw I); lia.
Qed.

(** *** Sessions of a workload

    While the workload has the fifo open it writes messages; between messages a
    read may be dropped ([None]). It may be gone before its last message is
    complete. *)
Record Session := { items : list (option (list u8)); torn : list u8 }.

Definition item_events (item : option (list u8)) : list PipeEvent :=
  match item with Some m => bytes (OutputPipe.frame m) | None => [Cancelled] end.

Definition session_events (s : Session) : list PipeEvent :=
  mjoin (item_events <$> items s) ++ bytes (torn s) ++ [EndOfFile].

Definition cut (P : list u8 → Prop) (t : list u8) : Prop :=
  ∃ m, P m ∧ t `prefix_of` OutputPipe.frame m ∧ t ≠ OutputPipe.frame m.

Definition session_ok (s : Session) : Prop :=
  (∀ m, Some m ∈ items s → readable m) ∧ cut readable (torn s).

Lemma inputs_session s rs :
  session_ok s →
  inputs {| file := Some (session_events s); reopens := rs |} =
  (Ok <$> omap id (items s)) ++ inputs {| file := None; reopens := rs |}.
Proof.
  intros [Hitems (m & Hm & Hpre & Hne)]. unfold session_events.
  induction (items s) as [|[d|] its IH]; cbn [fmap list_fmap mjoin list_join app item_events].
  - rewrite inputs_unfold, (inputs_unfold {| file := None; reopens := rs |}).
    by rewrite (read_eof _ _ _ _ (try_read_cut m (torn s) [] Hm Hpre Hne) eq_refl).
  - rewrite inputs_unfold, <-app_assoc.
    rewrite (read_ends _ _ _ rs (try_read_whole d _ (Hitems d (list_elem_of_here _ _))) I).
    cbn [omap list_omap id fmap list_fmap app]. f_equal. apply IH. intros m' Hm'. apply Hitems. by right.
  - rewrite inputs_unfold.
    rewrite (read_ends _ Dropped (mjoin (item_events <$> its) ++ bytes (torn s) ++ [EndOfFile]) rs);
      [|done..].
    apply IH. intros m' Hm'. apply Hitems. by right.
Qed.

Lemma inputs_reopen f rs :
  inputs {| file := None; reopens := Ok f :: rs |} = inputs {| file := Some f; reopens := rs |}.
Proof. by rewrite inputs_unfold, read_reopen, <-inputs_unfold. Qed.

Lemma inputs_sessions sessions :
  Forall session_ok sessions →
  inputs {| file := None; reopens := (λ s, Ok (session_events s)) <$> sessions |} =
  Ok <$> (sessions ≫= λ s, omap id (items s)).
Proof.
  induction 1 as [|s sessions Hs _ IH]; [done|].
  cbn [fmap list_fmap mbind list_bind]. by rewrite inputs_reopen, inputs_session, IH, fmap_app.
Qed.

Lemma inputs_open opens :
  Forall (λ r : result IoError (list PipeEvent), is_ok r = true) opens →
  inputs (open opens) = inputs {| file := None; reopens := opens |}.
Proof. intros [|[f|err] rs [=] _]; [done|]. symmetry. apply inputs_reopen. Qed.

Lemma open_sessions_ok sessions :
  Forall (λ r : result IoError (list PipeEvent), is_ok r = true)
    ((λ s, Ok (session_events s)) <$> sessions).
Proof. by apply Forall_fmap, Forall_true. Qed.
End input_lemmas.

(** ** Writing *)

Section output_lemmas.
Import OutputPipe.
Context `{V : Varint, M : Memory}.

Lemma append_last_snoc l c d : append_last (l ++ [c]) d = l ++ [c ++ d].
Proof.
  induction l as [|c' l IH]; [done|]. cbn [app append_last]. rewrite IH.
  by destruct (l ++ [c]) eqn:Hl; [by apply app_nil in Hl as [_ ?]|].
Qed.

(** A connection that was closed carried whole messages and then possibly a part
    of one. *)
Definition connection (part : list (list u8) * list u8) : list u8 :=
  mjoin (frame <$> part.1) ++ part.2.

(** [ms] were sent so far: the closed connections carry all but those of the open
    one, which carries whole messages. *)
Definition carries (p : OutputPipe) (ms : list (list u8)) : Prop :=
  ∃ parts, Forall (λ part, cut readable part.2) parts ∧
    if file p then
      ∃ l, connections p = (connection <$> parts) ++ [mjoin (frame <$> l)] ∧ ms = mjoin parts.*1 ++ l
    else connections p = connection <$> parts ∧ ms = mjoin parts.*1.

Lemma frame_nonempty m : readable m → frame m ≠ [].
Proof.
  intros Hm%readable_small. destruct (encode_varint_bytes _ Hm) as (init & last & Heq & _).
  unfold frame. rewrite Heq. by destruct init.
Qed.

Lemma cut_nil : cut readable [].
Proof.
  exists []. split; [apply allocatable_zero|]. split; [apply prefix_nil|].
  intros Heq. by apply (frame_nonempty [] allocatable_zero).
Qed.

Lemma cut_take k m : readable m →
  cut readable (take (Nat.min k (pred (length (frame m)))) (frame m)).
Proof.
  intros Hm. exists m. split; [done|]. split; [apply prefix_take|].
  intros Heq%(f_equal length). rewrite length_take in Heq.
  pose proof (frame_nonempty m Hm). destruct (frame m); simpl in *; [done|lia].
Qed.

Lemma carries_close p ms : carries p ms → carries (close p) ms.
Proof.
  intros (parts & Hparts & Hp). destruct (file p).
  - destruct Hp as (l & Hc & ->). exists (parts ++ [(l, [])]). split.
    + apply Forall_app_2; [done|]. constructor; [apply cut_nil|done].
    + cbn [file close connections]. rewrite Hc, !fmap_app, join_app. unfold connection. simpl.
      by rewrite !app_nil_r.
  - exists parts. split; [done|]. done.
Qed.

Lemma carries_open_sender a p ms p' :
  file p = false → carries p ms → open_sender a p = (Ok (), p') → carries p' ms ∧ file p' = true.
Proof.
  intros Hf (parts & Hparts & Hp). rewrite Hf in Hp. destruct Hp as [Hc ->].
  unfold open_sender. destruct (opened a); intros [= <-]. split; [|done].
  exists parts. split; [done|]. exists []. cbn. by rewrite Hc, app_nil_r.
Qed.

Lemma carries_write m p ms :
  file p = true → carries p ms → carries (write (frame m) p) (ms ++ [m]).
Proof.
  intros Hf (parts & Hparts & Hp). rewrite Hf in Hp. destruct Hp as (l & Hc & ->).
  exists parts. split; [done|]. cbn. rewrite Hf. exists (l ++ [m]).
  rewrite Hc, append_last_snoc, fmap_app, join_app, app_assoc. simpl. by rewrite app_nil_r.
Qed.

Lemma carries_torn t p ms :
  cut readable t → file p = true → carries p ms → carries (close (write t p)) ms.
Proof.
  intros Ht Hf (parts & Hparts & Hp). rewrite Hf in Hp. destruct Hp as (l & Hc & ->).
  exists (parts ++ [(l, t)]). split; [by apply Forall_app_2; [|constructor]|].
  cbn. rewrite Hc, append_last_snoc, !fmap_app, join_app. simpl. by rewrite app_nil_r.
Qed.

Lemma carries_next p ms : carries p ms → carries (next_attempt p).2 ms.
Proof. done. Qed.

Lemma ensure_file_carries a p ms r p' :
  carries p ms → ensure_file a p = (r, p') →
  match r with Ok _ => carries p' ms ∧ file p' = true | Err _ => carries p' ms end.
Proof.
  intros Hp. unfold ensure_file. destruct (file p) eqn:Hf; [by intros [= <- <-]|].
  unfold open_sender. destruct (opened a) as [[]|err] eqn:Ha.
  - intros [= <- <-]. eapply (carries_open_sender a p); [done..|]. unfold open_sender. by rewrite Ha.
  - by intros [= <- <-].
Qed.

Lemma try_write_all_carries m p ms w p' :
  readable m → carries p ms → try_write_all (frame m) p = (w, p') →
  match w with Some (Ok _) => carries p' (ms ++ [m]) | _ => carries (close p') ms end.
Proof.
  intros Hm Hp. unfold try_write_all. pose proof (carries_next p ms Hp) as Hn.
  destruct (next_attempt p) as [a p1]. simpl in Hn.
  destruct (ensure_file a p1) as [r p2] eqn:He. pose proof (ensure_file_carries _ _ _ _ _ Hn He) as Hr.
  destruct r as [[]|err].
  - destruct Hr as [Hr Hf]. unfold write_and_flush.
    destruct (ended a); intros [= <- <-]; [by apply carries_write|apply carries_torn; try done..];
      by apply cut_take.
  - intros [= <- <-]. by apply carries_close.
Qed.

Lemma write_loop_carries n m p ms p' :
  readable m → carries p ms → write_loop n (frame m) p = (Ok (), p') → carries p' (ms ++ [m]).
Proof.
  intros Hm. revert p. induction n as [|n IH]; intros p Hp; cbn [write_loop];
    (destruct (try_write_all (frame m) p) as [w p1] eqn:Hw;
     pose proof (try_write_all_carries _ _ _ _ _ Hm Hp Hw) as H1;
     destruct w as [[[]|err]|]; [by intros [= <-]| |done]; destruct (receiver_gone err); [|done]);
    [done|].
  apply IH. done.
Qed.

Lemma send_message_carries m p ms p' :
  readable m → carries p ms → send_message m p = (Ok (), p') → carries p' (ms ++ [m]).
Proof.
  intros Hm Hp. unfold send_message, write_all. pose proof (frame_nonempty m Hm) as Hne.
  destruct (frame m) as [|b f] eqn:Hf; [done|]. rewrite <-Hf. by apply write_loop_carries.
Qed.

Lemma send_messages_carries messages p ms rs p' :
  Forall readable messages → carries p ms → send_messages messages p = (rs, p') →
  Forall (λ r, is_ok r = true) rs → carries p' (ms ++ messages).
Proof.
  intros Hms. revert p ms rs. induction Hms as [|m messages Hm _ IH]; intros p ms rs Hp; simpl.
  - intros [= <- <-] _. by rewrite app_nil_r.
  - destruct (send_message m p) as [r p1] eqn:Hr.
    destruct (send_messages messages p1) as [rs1 p2] eqn:Hrs. intros [= <- <-] [Hok Hoks]%Forall_cons.
    destruct r as [[]|]; [|done]. rewrite (app_assoc ms [m] messages : ms ++ m :: messages = _).
    eapply IH; [|done..]. by eapply send_message_carries.
Qed.

Lemma carries_start r attempts : carries (open r attempts) [].
Proof.
  exists []. split; [done|]. destruct r as [[]|err]; cbn; [|done]. by exists [].
Qed.

(** What the other end sees: the bytes of the connections and then the end of the
    file. *)
Definition received (p : OutputPipe) : list (result IoError (list InputPipe.PipeEvent)) :=
  (λ c, Ok (bytes c ++ [InputPipe.EndOfFile])) <$> connections p.

Definition part_session (part : list (list u8) * list u8) : Session :=
  {| items := Some <$> part.1; torn := part.2 |}.

Lemma part_session_events part :
  session_events (part_session part) = bytes (connection part) ++ [InputPipe.EndOfFile].
Proof.
  destruct part as [l t]. unfold session_events, connection, bytes. simpl.
  rewrite fmap_app, <-!app_assoc. f_equal. induction l as [|m l IH]; [done|].
  cbn [fmap list_fmap mjoin list_join]. rewrite fmap_app. by f_equal.
Qed.

Lemma part_session_items part : omap id (items (part_session part)) = part.1.
Proof. destruct part as [l t]. simpl. induction l as [|m l IH]; [done|]. simpl. by f_equal. Qed.

Lemma part_sessions_ok parts :
  Forall readable (mjoin parts.*1) → Forall (λ part, cut readable part.2) parts →
  Forall session_ok (part_session <$> parts).
Proof.
  intros Hms. induction 1 as [|part parts Hcut _ IH]; [constructor|].
  simpl in Hms. apply Forall_app in Hms as [Hl Hms]. constructor; [|by apply IH].
  split; [|done]. intros m Hm. apply list_elem_of_fmap in Hm as (m' & [= <-] & Hm).
  by apply (proj1 (Forall_forall _ _) Hl).
Qed.

Lemma carries_closed p ms : carries p ms →
  ∃ parts, Forall (λ part, cut readable part.2) parts ∧ connections p = connection <$> parts ∧
    ms = mjoin parts.*1.
Proof. intros Hp%carries_close. by destruct Hp as (parts & Hparts & Hc & ->); exists parts. Qed.

Lemma received_messages p ms :
  carries p ms → Forall readable ms →
  InputPipe.inputs (InputPipe.open (received p)) = Ok <$> ms.
Proof.
  intros (parts & Hparts & Hc & ->)%carries_closed Hms. unfold received. rewrite Hc, <-list_fmap_compose.
  assert ((λ s, Ok (session_events s)) <$> (part_session <$> parts) =
    (λ c, Ok (bytes c ++ [InputPipe.EndOfFile])) ∘ connection <$> parts :> list (result IoError _)) as <-.
  { rewrite <-list_fmap_compose. apply list_fmap_ext. intros _ part _. simpl.
    by rewrite part_session_events. }
  rewrite inputs_open, inputs_sessions by eauto using part_sessions_ok, open_sessions_ok. f_equal.
  clear. induction parts as [|part parts IH]; [done|].
  cbn [fmap list_fmap mbind list_bind mjoin list_join].
  by rewrite part_session_items, IH.
Qed.

(** A message is tried at most six times, with half a second of sleep in between. *)
Lemma write_loop_bounds n buf p r p' :
  write_loop n buf p = (r, p') →
  slept_ms p' ≤ slept_ms p + N.of_nat n * AGENT_RECONNECT_INTERVAL_MS ∧
  (length (attempts p) ≤ length (attempts p') + S n)%nat.
Proof.
  assert (∀ q w q', try_write_all buf q = (w, q') →
    slept_ms q' = slept_ms q ∧ attempts q' = tail (attempts q)) as Htry.
  { intros q w q'. unfold try_write_all, next_attempt, ensure_file, open_sender, write_and_flush.
    simpl. repeat case_match; simplify_eq/=; intros; simplify_eq/=; done. }
  assert (∀ A (l : list A), length l ≤ S (length (tail l)))%nat as Htail by (intros ? []; simpl; lia).
  unfold AGENT_RECONNECT_INTERVAL_MS. revert p. induction n as [|n IH]; intros p; cbn [write_loop];
    destruct (try_write_all buf p) as [w p1] eqn:Hw; destruct (Htry _ _ _ Hw) as [Hs Ha];
    pose proof (Htail _ (attempts p)) as Hl; rewrite <-Ha in Hl;
    (destruct w as [[[]|err]|]; [by intros [= _ <-]; lia| |by intros [= _ <-]; lia];
     destruct (receiver_gone err); [|by intros [= _ <-]; lia]); [by intros [= _ <-]; lia|].
  intros [Hms Hatt]%IH. simpl in Hms, Hatt. unfold AGENT_RECONNECT_INTERVAL_MS in Hms. lia.
Qed.
End output_lemmas.

(** Whatever sessions a workload has with its fifo, also when it goes away in
    the middle of a message and when reads are dropped between messages, the
    task gets exactly its complete messages, in order. *)
Theorem sessions_read_back `{V : Varint, M : Memory} (sessions : list Session) :
  Forall session_ok sessions →
  InputPipe.inputs (InputPipe.open ((λ s, Ok (session_events s)) <$> sessions)) =
  Ok <$> (sessions ≫= λ s, omap id (items s)).
Proof.
  intros Hs. rewrite inputs_open by apply open_sessions_ok. by apply inputs_sessions.
Qed.


(** ** Concrete instances *)

Module Leb128.
Fixpoint encode (fuel : nat) (n : N) : list u8 :=
  if n <? 128 then [n]
  else match fuel with O => [] | S fuel => (128 + n mod 128) :: encode fuel (n / 128) end.

Fixpoint decode (fuel : nat) (l : list u8) : option N :=
  match fuel, l with
  | S fuel, b :: l =>
    if N.land b 128 =? 0 then Some b else (λ n, b mod 128 + 128 * n) <$> decode fuel l
  | _, _ => None
  end.

Definition decode_u64 (l : list u8) : option N :=
  n ← decode 10 l; if n <? 2 ^ 64 then Some n else None.

Lemma below_128 (P : N → bool) : forallb (λ k, P (N.of_nat k)) (seq 0 128) = true →
  ∀ n, n < 128 → P n = true.
Proof.
  intros Hall n Hn. rewrite <-(N2Nat.id n).
  apply (proj1 (forallb_forall _ _) Hall). apply in_seq. lia.
Qed.

Lemma low_byte n : n < 128 → N.land n 128 = 0.
Proof. intros Hn. by apply N.eqb_eq, (below_128 (λ n, N.land n 128 =? 0)). Qed.

Lemma high_byte n : n < 128 → N.land (128 + n) 128 = 128.
Proof. intros Hn. by apply N.eqb_eq, (below_128 (λ n, N.land (128 + n) 128 =? 128)). Qed.

Lemma div_128 fuel n : n < 128 ^ (N.of_nat (S fuel) + 1) → n / 128 < 128 ^ (N.of_nat fuel + 1).
Proof.
  intros Hn. apply N.Div0.div_lt_upper_bound. rewrite <-N.pow_succ_r'.
  by replace (N.succ (N.of_nat fuel + 1)) with (N.of_nat (S fuel) + 1) by lia.
Qed.

Lemma encode_bytes fuel n : n < 128 ^ (N.of_nat fuel + 1) →
  ∃ init last, encode fuel n = init ++ [last] ∧ Forall (λ b, N.land b 128 ≠ 0) init ∧
    N.land last 128 = 0 ∧ (length init ≤ fuel)%nat.
Proof.
  revert n. induction fuel as [|fuel IH]; intros n Hn; cbn [encode];
    (destruct (N.ltb_spec n 128); [exists [], n; split_and!; [done..|by apply low_byte|simpl; lia]|]).
  - simpl in Hn. lia.
  - destruct (IH (n / 128)) as (init & last & -> & Hinit & Hlast & Hlen); [by apply div_128|].
    exists ((128 + n mod 128) :: init), last. split_and!; [done| |done|simpl; lia].
    constructor; [|done]. rewrite high_byte by (apply N.mod_lt; lia). done.
Qed.

Lemma decode_encode_bytes fuel n rest : n < 128 ^ (N.of_nat fuel + 1) →
  decode (S fuel) (encode fuel n ++ rest) = Some n.
Proof.
  revert n. induction fuel as [|fuel IH]; intros n Hn; cbn [encode];
    (destruct (N.ltb_spec n 128); [cbn; by rewrite low_byte|]).
  - simpl in Hn. lia.
  - assert (n mod 128 < 128) as Hmod by (apply N.mod_lt; lia).
    cbn [app]. remember (S fuel) as fuel'. cbn [decode]. subst fuel'. rewrite high_byte by done.
    rewrite IH by by apply div_128. simpl. f_equal.
    rewrite (N.Div0.add_mod 128 (n mod 128)), N.Div0.mod_same, N.add_0_l, !N.Div0.mod_mod.
    pose proof (N.div_mod n 128). lia.
Qed.
End Leb128.

Lemma u64_small n : n < 2 ^ 64 → n < 128 ^ (N.of_nat 9 + 1).
Proof. intros Hn. change (128 ^ (N.of_nat 9 + 1)) with (2 ^ 70). lia. Qed.

Definition leb128 : Varint.
Proof.
  refine {| encode_varint := Leb128.encode 9; decode_varint := Leb128.decode_u64 |}.
  - intros n Hn%u64_small. destruct (Leb128.encode_bytes 9 n Hn) as (init & last & ? & ? & ? & ?).
    exists init, last. split_and!; [done..|lia].
  - intros n rest Hn. unfold Leb128.decode_u64.
    rewrite Leb128.decode_encode_bytes by by apply u64_small. simpl.
    by rewrite (proj2 (N.ltb_lt _ _) Hn).
Defined.

Definition megabyte : Memory.
Proof.
  refine {| allocatable n := n <=? 2 ^ 20 |}; [done|].
  intros n Hn%N.leb_le. unfold ISIZE_MAX. lia.
Defined.

Definition opened_ok (accepted : nat) (ended : OutputPipe.Ended) : OutputPipe.Attempt :=
  {| OutputPipe.opened := Ok (); OutputPipe.accepted := accepted; OutputPipe.ended := ended |}.

(** ** Where the framing is lost *)

(** A read that is dropped in the middle of a message: the first bytes are gone
    and the rest is taken for the start of a message. *)
Lemma dropped_read_loses_framing :
  let V := leb128 in let M := megabyte in
  let f1 := OutputPipe.frame [1; 2; 3] in let f2 := OutputPipe.frame [5] in
  InputPipe.inputs (InputPipe.open
    [Ok (bytes (take 2 f1) ++ [InputPipe.Cancelled] ++ bytes (drop 2 f1) ++ bytes f2)]) =
  [Ok [3; 1]].
Proof. by vm_compute. Qed.

(** A write whose time elapsed leaves a part of its message in the pipe, and the
    next message goes behind it, although its sender is told that it was sent. *)
Lemma elapsed_write_loses_framing :
  let V := leb128 in let M := megabyte in
  let '(rs, p) := OutputPipe.send_messages [[1; 2]; [3]]
    (OutputPipe.open (Ok ()) [opened_ok 1 OutputPipe.Elapsed; opened_ok 0 OutputPipe.Flushed]) in
  rs = [Err (OutputPipe.ReceiverGone (io_error TimedOut)); Ok ()] ∧
  InputPipe.inputs (InputPipe.open (received p)) = [Ok [1; 3]].
Proof. by vm_compute. Qed.

(** The length comes from the workload: one that cannot be allocated ends the task
    of the control interface, or the agent. *)
Lemma huge_length_kills `{V : Varint, M : Memory} (size : N) (f : list InputPipe.PipeEvent) :
  size < 2 ^ 64 → ISIZE_MAX < size →
  (InputPipe.try_read_protobuf_data (bytes (encode_varint size) ++ f)).1 = InputPipe.Died.
Proof.
  intros Hsize Hmax. destruct (encode_varint_bytes _ Hsize) as (init & last & Heq & Hinit & Hlast & Hlen).
  destruct (read_varint_items_whole init last InputPipe.MAX_VARINT_SIZE f Hinit Hlast) as [pad Hpad];
    [unfold InputPipe.MAX_VARINT_SIZE; lia|].
  unfold InputPipe.try_read_protobuf_data, InputPipe.try_read_varint_data, mbind, InputPipe.reader_bind.
  rewrite Heq, Hpad, <-Heq, decode_encode by done.
  destruct (allocatable size) eqn:Ha; [|done]. apply allocatable_max in Ha. lia.
Qed.

(** ** Witnesses *)

Lemma sessions_read_back_witness :
  let V := leb128 in let M := megabyte in
  let sessions := [{| items := [Some [1; 2]; None; Some []]; torn := [3; 7] |};
                   {| items := [Some [9]]; torn := [] |}] in
  InputPipe.inputs (InputPipe.open ((λ s, Ok (session_events s)) <$> sessions)) =
    [Ok [1; 2]; Ok []; Ok [9]].
Proof.
  intros V M sessions. apply (sessions_read_back sessions).
  assert (cut readable [] ∧ cut readable [3; 7]) as [Hnil Hcut].
  { split; [apply cut_nil|]. exists [7; 8; 9]. split; [by vm_compute|].
    split; [by exists [8; 9]|by vm_compute]. }
  assert (∀ m, (length m < 10)%nat → readable m) as Hr
    by (intros m Hm; apply N.leb_le; simpl; lia).
  repeat constructor; try done; intros m Hm; cbn [items] in Hm;
    rewrite !elem_of_cons, elem_of_nil in Hm; apply Hr;
    destruct_or?; simplify_eq; simpl; try lia; done.
Defined.

