(* ===== verification/AgentFiles.v ===== *)
(** * Ankaios: files and directories of the agent

    [agent/src/io_utils] ([fs.rs], [directory.rs], [dir_utils.rs]) and the parts
    of [agent/src/control_interface] that own files: [fifo.rs],
    [input_output.rs] and [control_interface.rs] with [new] and [drop]. The
    operating system is a class with its documented effects on the nodes of the
    file system. Values that own a file remove it when they are dropped; the
    drops are written out where Rust inserts them. *)

From Stdlib Require Import Lia.
From stdpp Require Import base tactics strings list.
From S2P Require Import Prelude Api WorkloadFiles StateManipulation.

(** An error of the operating system as the messages show it. *)
Record OsError := { display_error : string; debug_error : string; is_not_found : bool }.

Inductive Node := DirectoryNode | FifoNode | OtherNode.

(** [std::fs], [tokio::fs] and [nix::unistd::mkfifo]. *)
Class HostFs (W : Type) := {
  node_at : W → path → option Node;
  os_create_dir_all : path → io W OsError ();
  os_set_permissions : path → N → io W OsError ();
  os_mkfifo : path → io W OsError ();
  os_remove_file : path → io W OsError ();
  os_remove_dir_all : path → io W OsError ();
  os_write : path → string → io W OsError ();
  debug_path : path → string;
  mkfifo_ok p w w' : os_mkfifo p w = (Ok (), w') → node_at w' p = Some FifoNode;
  mkfifo_frame p w q : q ≠ p → node_at (os_mkfifo p w).2 q = node_at w q;
  create_dir_all_ok p w w' : os_create_dir_all p w = (Ok (), w') → node_at w' p ≠ None;
  create_dir_all_frame p w q : node_at w q ≠ None → node_at (os_create_dir_all p w).2 q = node_at w q;
  create_dir_all_outside p w q : ¬ q `prefix_of` p →
    node_at (os_create_dir_all p w).2 q = node_at w q;
  set_permissions_frame p m w q : node_at (os_set_permissions p m w).2 q = node_at w q;
  remove_file_frame p w q : q ≠ p → node_at (os_remove_file p w).2 q = node_at w q;
  remove_dir_all_ok p w w' q :
    os_remove_dir_all p w = (Ok (), w') → p `prefix_of` q → node_at w' q = None;
  remove_dir_all_frame p w q : ¬ p `prefix_of` q → node_at (os_remove_dir_all p w).2 q = node_at w q
}.

(** ** [fs.rs] *)

Module Fs.
Inductive FileSystemError :=
  | CreateDirectory (p : path) (err : OsError)
  | NotFoundDirectory (p : path)
  | CreateFifo (p : path) (err : OsError)
  | RemoveFifo (p : path) (err : OsError)
  | RemoveDirectory (p : path) (err : OsError)
  | Permissions (p : path) (err : OsError)
  | Write (p : path) (err : OsError).

Section fs.
Context {W : Type} `{HostFs W}.

(** [Display]. *)
Definition file_system_error_display (e : FileSystemError) : string :=
  match e with
  | CreateDirectory p err =>
    "Could not create directory " +:+ debug_path p +:+ ": " +:+ display_error err
  | CreateFifo p err => "Could not create fifo " +:+ debug_path p +:+ ": " +:+ display_error err
  | RemoveFifo p err => "Could not remove fifo " +:+ debug_path p +:+ " " +:+ debug_error err
  | RemoveDirectory p err =>
    "Could not remove directory " +:+ debug_path p +:+ " " +:+ debug_error err
  | NotFoundDirectory p => "Could not find directory " +:+ debug_path p
  | Permissions p err =>
    "Could not set permissions to " +:+ debug_path p +:+ "  " +:+ debug_error err
  | Write p err => "Could not write to " +:+ debug_path p +:+ "  " +:+ debug_error err
  end.

Definition exists_ (p : path) (w : W) : bool := bool_decide (node_at w p ≠ None).

Definition set_permissions (p : path) (mode : N) : io W FileSystemError () :=
  io_map_err (Permissions p) (os_set_permissions p mode).

Definition is_fifo (p : path) (w : W) : bool :=
  match node_at w p with Some FifoNode => true | _ => false end.

Definition make_fifo (p : path) : io W FileSystemError () := io_map_err (CreateFifo p) (os_mkfifo p).

Definition remove_fifo (p : path) : io W FileSystemError () :=
  io_map_err (RemoveFifo p) (os_remove_file p).

Definition make_dir (p : path) : io W FileSystemError () :=
  io_map_err (CreateDirectory p) (os_create_dir_all p).

Definition remove_dir_all (p : path) : io W FileSystemError () :=
  io_map_err (RemoveDirectory p) (os_remove_dir_all p).

(** [filesystem_async]. *)
Definition write_file (p : path) (content : string) : io W FileSystemError () :=
  io_map_err (Write p) (os_write p content).

Definition remove_dir_all_async (p : path) : io W FileSystemError () :=
  io_map_err (λ err, if is_not_found err then NotFoundDirectory p else RemoveDirectory p err)
    (os_remove_dir_all p).
End fs.
End Fs.

(** The file system the creation of workload files works with. *)
#[export] Instance host_file_system {W} `{HostFs W} : FileSystem W := {|
  make_dir := λ p, io_map_err Fs.file_system_error_display (Fs.make_dir p);
  write_file := λ p c, io_map_err Fs.file_system_error_display (Fs.write_file p c);
  remove_dir_all := λ p, io_map_err Fs.file_system_error_display (Fs.remove_dir_all_async p)
|}.

Section agent_files.
Context {W : Type} `{HostFs W}.

(** ** [directory.rs] *)

Definition Directory : Type := path.

Definition directory_new (p : path) : io W Fs.FileSystemError Directory := λ w,
  if Fs.exists_ p w then (Ok p, w)
  else (_ ← Fs.make_dir p; mret p) w.

(** A failure is only logged. *)
Definition directory_drop (d : Directory) (w : W) : W := (Fs.remove_dir_all d w).2.

(** ** [fifo.rs] *)

Definition Fifo : Type := path.

Definition fifo_new (p : path) : io W Fs.FileSystemError Fifo := λ w,
  if Fs.is_fifo p w then (Ok p, w)
  else (_ ← Fs.make_fifo p; mret p) w.

Definition fifo_drop (f : Fifo) (w : W) : W := (Fs.remove_fifo f w).2.

(** ** [input_output.rs] *)

Record InputOutput := { input : Fifo; output : Fifo; base_dir : Directory }.

(** What was created before an error is dropped, newest first. *)
Definition input_output_create (p : path) : io W Fs.FileSystemError InputOutput := λ w,
  let input_path := p ++ ["input"] in
  let output_path := p ++ ["output"] in
  match directory_new p w with
  | (Err err, w) => (Err err, w)
  | (Ok base_dir, w) =>
    match fifo_new input_path w with
    | (Err err, w) => (Err err, directory_drop base_dir w)
    | (Ok input, w) =>
      match fifo_new output_path w with
      | (Err err, w) => (Err err, directory_drop base_dir (fifo_drop input w))
      | (Ok output, w) => (Ok {| input := input; output := output; base_dir := base_dir |}, w)
      end
    end
  end.

(** The fields are dropped in the order of their declaration. *)
Definition input_output_drop (io : InputOutput) (w : W) : W :=
  directory_drop (base_dir io) (fifo_drop (output io) (fifo_drop (input io) w)).

(** ** [control_interface.rs]: the files of a control interface *)

Inductive ControlInterfaceError := CouldNotCreateFifo (message : string).

Definition control_interface_create (base_path : path) : io W ControlInterfaceError InputOutput :=
  io_map_err (λ e, CouldNotCreateFifo (Fs.file_system_error_display e))
    (input_output_create base_path).

(** [Workload::exchange_control_interface]: the old one is dropped first. *)
Definition exchange_files (old : option InputOutput) (info : option path)
    (control_interface_access : bool) (w : W) : option InputOutput * W :=
  let w := match old with Some io => input_output_drop io w | None => w end in
  if control_interface_access then (None, w)
  else
    match info with
    | None => (None, w)
    | Some p =>
      match control_interface_create p w with
      | (Ok io, w) => (Some io, w)
      | (Err _, w) => (None, w)
      end
    end.

(** ** [dir_utils.rs] *)

Definition RUNFOLDER_SUFFIX : string := "_io".

Definition prepare_agent_run_directory (default_base_path base_path : path) (agent_name : string) :
    io W Fs.FileSystemError Directory := λ w,
  let agent_run_folder := base_path ++ [agent_name +:+ RUNFOLDER_SUFFIX] in
  if Fs.exists_ base_path w then directory_new agent_run_folder w
  else if bool_decide (base_path = default_base_path) then
    (_ ← Fs.make_dir base_path;
     _ ← Fs.set_permissions base_path 511%N;
     directory_new agent_run_folder) w
  else (Err (Fs.NotFoundDirectory base_path), w).
End agent_files.

(** ** Lemmas *)

Section agent_files_lemmas.
Context {W : Type} {F : HostFs W}.

(** The files of the pipes exist. *)
Definition present (io : InputOutput) (w : W) : Prop :=
  Fs.is_fifo (input io) w = true ∧ Fs.is_fifo (output io) w = true ∧
  Fs.exists_ (base_dir io) w = true.

Lemma is_fifo_true p w : Fs.is_fifo p w = true ↔ node_at w p = Some FifoNode.
Proof. unfold Fs.is_fifo. destruct (node_at w p) as [[]|]; naive_solver. Qed.

Lemma exists_true p w : Fs.exists_ p w = true ↔ node_at w p ≠ None.
Proof. apply bool_decide_eq_true. Qed.

Lemma directory_new_ok p w d w' : directory_new p w = (Ok d, w') → d = p ∧ node_at w' p ≠ None.
Proof.
  unfold directory_new. destruct (Fs.exists_ p w) eqn:He.
  - intros [= <- <-]. by apply exists_true in He.
  - intros (? & w1 & H1 & [= <- <-])%io_bind_ok. split; [done|].
    unfold Fs.make_dir, io_map_err in H1. destruct (os_create_dir_all p w) as [[[]|] w2] eqn:Hc; [|done].
    simplify_eq/=. by eapply create_dir_all_ok.
Qed.

Lemma fifo_new_node p w q : q ≠ p → node_at (fifo_new p w).2 q = node_at w q.
Proof.
  intros Hq. unfold fifo_new. destruct (Fs.is_fifo p w); [done|].
  unfold mbind, io_bind, Fs.make_fifo, io_map_err. pose proof (mkfifo_frame p w q Hq) as Hf.
  by destruct (os_mkfifo p w) as [[[]|] w1].
Qed.

Lemma fifo_new_ok p w f w' : fifo_new p w = (Ok f, w') → f = p ∧ node_at w' p = Some FifoNode.
Proof.
  unfold fifo_new. destruct (Fs.is_fifo p w) eqn:He.
  - intros [= <- <-]. by apply is_fifo_true in He.
  - intros (? & w1 & H1 & [= <- <-])%io_bind_ok. split; [done|].
    unfold Fs.make_fifo, io_map_err in H1. destruct (os_mkfifo p w) as [[[]|] w2] eqn:Hc; [|done].
    simplify_eq/=. by eapply mkfifo_ok.
Qed.

Lemma below_differs (p : path) (s : string) : p ≠ p ++ [s].
Proof. intros Heq%(f_equal length). rewrite length_app in Heq. simpl in Heq. lia. Qed.

Lemma input_output_create_ok p w io w' :
  input_output_create p w = (Ok io, w') →
  io = {| input := p ++ ["input"]; output := p ++ ["output"]; base_dir := p |} ∧ present io w'.
Proof.
  unfold input_output_create.
  destruct (directory_new p w) as [[d|] w1] eqn:Hd; [|done].
  destruct (fifo_new (p ++ ["input"]) w1) as [[i|] w2] eqn:Hi; [|done].
  destruct (fifo_new (p ++ ["output"]) w2) as [[o|] w3] eqn:Ho; [|done].
  intros [= <- <-].
  apply directory_new_ok in Hd as [-> Hd].
  assert (node_at w3 p = node_at w1 p) as Hp.
  { pose proof (fifo_new_node (p ++ ["output"]) w2 p (below_differs p "output")) as H3. rewrite Ho in H3.
    pose proof (fifo_new_node (p ++ ["input"]) w1 p (below_differs p "input")) as H2. rewrite Hi in H2.
    simpl in *. congruence. }
  pose proof (fifo_new_node (p ++ ["output"]) w2 (p ++ ["input"])) as H3. rewrite Ho in H3. simpl in H3.
  apply fifo_new_ok in Hi as [-> Hi]. apply fifo_new_ok in Ho as [-> Ho].
  split; [done|]. split_and!; simpl.
  - apply is_fifo_true. rewrite H3; [done|]. by intros [= ?]%app_inv_head.
  - by apply is_fifo_true.
  - apply exists_true. congruence.
Qed.

(** Only nodes below [p] or directories above it are touched. *)
Definition outside (p q : path) : Prop := ¬ q `prefix_of` p ∧ ¬ p `prefix_of` q.

Lemma outside_child p q s : outside p q → q ≠ p ++ [s].
Proof. intros [_ Hq] ->. apply Hq. by exists [s]. Qed.

Lemma drop_dir_outside p w q : outside p q → node_at (directory_drop p w) q = node_at w q.
Proof. intros [_ Hq]. apply (remove_dir_all_frame p w q Hq). Qed.

Lemma drop_fifo_outside p s w q : outside p q → node_at (fifo_drop (p ++ [s]) w) q = node_at w q.
Proof. intros Hq. apply (remove_file_frame (p ++ [s]) w q). by apply outside_child. Qed.

Lemma directory_new_outside p w q : outside p q → node_at (directory_new p w).2 q = node_at w q.
Proof.
  intros [Hq _]. unfold directory_new. destruct (Fs.exists_ p w); [done|].
  unfold mbind, io_bind, Fs.make_dir, io_map_err. pose proof (create_dir_all_outside p w q Hq) as Hf.
  by destruct (os_create_dir_all p w) as [[[]|] w1].
Qed.

Lemma input_output_create_outside p w q :
  outside p q → node_at (input_output_create p w).2 q = node_at w q.
Proof.
  intros Hq. unfold input_output_create.
  pose proof (directory_new_outside p w q Hq) as Hd. pose proof (directory_new_ok p w) as Hok.
  destruct (directory_new p w) as [[d|] w1]; [|done]. destruct (Hok d w1 eq_refl) as [-> _].
  pose proof (fifo_new_node (p ++ ["input"]) w1 q (outside_child _ _ _ Hq)) as Hi.
  pose proof (fifo_new_ok (p ++ ["input"]) w1) as Hiok.
  destruct (fifo_new (p ++ ["input"]) w1) as [[i|] w2]; simpl in *;
    [|by rewrite drop_dir_outside, Hi].
  destruct (Hiok i w2 eq_refl) as [-> _].
  pose proof (fifo_new_node (p ++ ["output"]) w2 q (outside_child _ _ _ Hq)) as Ho.
  destruct (fifo_new (p ++ ["output"]) w2) as [[o|] w3]; simpl in *; [congruence|].
  rewrite drop_dir_outside, drop_fifo_outside by done. congruence.
Qed.

(** What is dropped is gone. *)
Lemma directory_drop_gone p w q :
  (∀ p w, is_ok (os_remove_dir_all p w).1 = true) → p `prefix_of` q →
  node_at (directory_drop p w) q = None.
Proof.
  intros Hall. specialize (Hall p w). unfold directory_drop, Fs.remove_dir_all, io_map_err.
  destruct (os_remove_dir_all p w) as [[[]|] w1] eqn:Hr; [|done]. by eapply remove_dir_all_ok.
Qed.

(** A control interface that could not be created leaves no files. *)
Lemma input_output_create_err p w err w' q :
  (∀ p w, is_ok (os_remove_dir_all p w).1 = true) →
  input_output_create p w = (Err err, w') → p `prefix_of` q →
  (∃ os_err, err = Fs.CreateDirectory p os_err) ∨ node_at w' q = None.
Proof.
  intros Hall. unfold input_output_create.
  destruct (directory_new p w) as [[d|e] w1] eqn:Hd.
  - apply directory_new_ok in Hd as [-> _].
    destruct (fifo_new (p ++ ["input"]) w1) as [[i|] w2].
    + destruct (fifo_new (p ++ ["output"]) w2) as [[o|] w3]; [done|].
      intros [= <- <-] Hq. right. by apply directory_drop_gone.
    + intros [= <- <-] Hq. right. by apply directory_drop_gone.
  - intros [= <- <-] _. left. unfold directory_new in Hd.
    destruct (Fs.exists_ p w); [done|]. unfold mbind, io_bind, Fs.make_dir, io_map_err in Hd.
    destruct (os_create_dir_all p w) as [[[]|os_err] w2]; simplify_eq/=. by exists os_err.
Qed.
End agent_files_lemmas.


(** A run folder that is not the default one is never created. *)
Lemma prepare_agent_run_directory_spec {W} {F : HostFs W} default_base_path base_path agent_name w r w' :
  prepare_agent_run_directory default_base_path base_path agent_name w = (r, w') →
  (node_at w base_path = None → base_path ≠ default_base_path →
    r = Err (Fs.NotFoundDirectory base_path) ∧ w' = w) ∧
  (∀ d, r = Ok d → d = base_path ++ [agent_name +:+ RUNFOLDER_SUFFIX] ∧ node_at w' d ≠ None).
Proof.
  unfold prepare_agent_run_directory. destruct (Fs.exists_ base_path w) eqn:He.
  - apply exists_true in He. intros Hr. split; [done|]. intros d ->.
    by apply directory_new_ok in Hr as [-> ?].
  - case_bool_decide as Hd.
    + intros Hr. split; [done|]. intros d ->.
      apply io_bind_ok in Hr as (? & w1 & _ & (? & w2 & _ & Hr)%io_bind_ok).
      by apply directory_new_ok in Hr as [-> ?].
    + intros [= <- <-]. split; done.
Qed.

(** ** A concrete file system: the nodes of the paths *)

Definition Nodes : Type := path → option Node.

Definition no_such_file : OsError :=
  {| display_error := "entity not found"; debug_error := "NotFound"; is_not_found := true |}.
Definition already_exists : OsError :=
  {| display_error := "entity already exists"; debug_error := "AlreadyExists"; is_not_found := false |}.

Definition set_node (p : path) (n : option Node) (w : Nodes) : Nodes :=
  λ q, if bool_decide (q = p) then n else w q.

Definition nodes_fs : HostFs Nodes.
Proof.
  refine {|
    node_at w p := w p;
    os_create_dir_all p w :=
      (Ok (), λ q, match w q with
                   | Some n => Some n
                   | None => if bool_decide (q `prefix_of` p) then Some DirectoryNode else None
                   end);
    os_set_permissions p m w := (Ok (), w);
    os_mkfifo p w :=
      match w p with Some _ => (Err already_exists, w) | None => (Ok (), set_node p (Some FifoNode) w) end;
    os_remove_file p w :=
      match w p with Some _ => (Ok (), set_node p None w) | None => (Err no_such_file, w) end;
    os_remove_dir_all p w := (Ok (), λ q, if bool_decide (p `prefix_of` q) then None else w q);
    os_write p c w := (Ok (), set_node p (Some OtherNode) w);
    debug_path p := String.concat "/" p
  |}.
  - intros p w w'. destruct (w p); intros [= <-]. unfold set_node. by rewrite bool_decide_true.
  - intros p w q Hq. destruct (w p); [done|]. simpl. unfold set_node. by rewrite bool_decide_false.
  - intros p w w' [= <-]. destruct (w p); [done|]. by rewrite bool_decide_true.
  - intros p w q Hq. simpl. by destruct (w q).
  - intros p w q Hq. simpl. rewrite bool_decide_false by done. by destruct (w q).
  - done.
  - intros p w q Hq. destruct (w p); [|done]. simpl. unfold set_node. by rewrite bool_decide_false.
  - intros p w w' q [= <-] Hq. by rewrite bool_decide_true.
  - intros p w q Hq. simpl. by rewrite bool_decide_false.
Defined.

