(* ===== verification/ControlTask.v ===== *)
(** * Ankaios: the task of a control interface on its pipes

    The composition of [control_interface_task.rs] with [input_pipe.rs],
    [output_pipe.rs] and [to_ankaios.rs]: the task of ControlInterface.v gets its
    inputs from the pipe of Pipes.v and writes its messages to the other one.
    The encoding of the protobuf messages is a parameter; the messages a theorem
    speaks of are those that are decoded to themselves. *)

From Stdlib Require Import NArith Lia.
From stdpp Require Import base tactics gmap numbers strings list.
From S2P Require Import Prelude Api StateManipulation Messages Authorizer ControlInterface Pipes.

Section control_task.
Context {SC : StateConversion}.

(** [prost]'s encoding of [control_api::ToAnkaios], which may be empty, and of
    [control_api::FromAnkaios]. *)
Class ControlApi := {
  encode_to_ankaios : option ToAnkaios → list u8;
  decode_to_ankaios : list u8 → option (option ToAnkaios);
  encode_from_ankaios : FromAnkaios → list u8
}.

Context `{ControlApi, Varint, Memory, Versions}.

(** [TryFrom<control_api::ToAnkaios>]. *)
Definition to_ankaios_try_from (item : option ToAnkaios) : result string ToAnkaios :=
  match item with Some to_ankaios => Ok to_ankaios | None => Err "ToAnkaios is None." end.

(** [decode_to_server] and the conversion; errors of the pipe and of the decoding are
    the same to the task. *)
Definition decode_to_server (protobuf_data : result IoError (list u8)) :
    option (result string ToAnkaios) :=
  match protobuf_data with
  | Ok data => item ← decode_to_ankaios data; Some (to_ankaios_try_from item)
  | Err _ => None
  end.

(** [send_message]; only the kind of the error matters to the task. *)
#[export] Instance pipe_output : ControlInterface.OutputPipe OutputPipe.OutputPipe := λ m,
  io_map_err (λ e, match e with
                   | OutputPipe.ReceiverGone _ => ReceiverGone
                   | OutputPipe.Io _ => OutputPipeIo
                   end)
    (OutputPipe.send_message (encode_from_ankaios m)).

(** The inputs among the events of the task. *)
Definition inputs_of (events : list TaskEvent) : list (option (result string ToAnkaios)) :=
  omap (λ e, match e with ReceivedInput i => Some i | ReceivedFromServer _ => None end) events.

(** A run of the task whose reads are those of the pipe, in any order with the
    messages of the server. *)
Definition reads_from (pipe : InputPipe.InputPipe) (first : option (result string ToAnkaios))
    (events : list TaskEvent) : Prop :=
  first :: inputs_of events = decode_to_server <$> InputPipe.inputs pipe.

(** The same for the messages of the server: nothing but what is no response with
    log entries, whose delivery may fail. *)
Definition no_logs (e : TaskEvent) : Prop :=
  match e with
  | ReceivedFromServer (Some (FromServerResponse r)) =>
    match response_content r with Some (LogEntriesResponseContent _) => False | _ => True end
  | _ => True
  end.

(** ** Lemmas *)

(** The requests among the inputs that the task passes on. *)
Definition passed_on (prefix : string) (a : Authorizer) (inputs : list (option (result string ToAnkaios))) :
    list ToServer :=
  omap (λ i, match i with
             | Some (Ok (ToAnkaiosRequest r)) =>
               if authorize a r then Some (ToServerRequest (prefix_request_id prefix r)) else None
             | _ => None
             end) inputs.

Definition accepts (i : option (result string ToAnkaios)) : Prop :=
  match i with
  | Some (Ok (ToAnkaiosHello v)) => check_version_compatibility v = Ok ()
  | _ => True
  end.

Context {W : Type} {OP : ControlInterface.OutputPipe W}.
Implicit Types t : ControlInterfaceTask (W := W).

Lemma forward_sends_nothing r t : sends t (forward_from_server r t).2 [].
Proof. apply forward_from_server_same. Qed.

Lemma task_step_passes e t :
  no_logs e → Forall accepts (inputs_of [e]) →
  (task_step e t).1 = true ∧
  sends t (task_step e t).2 (passed_on (task_request_id_prefix t) (authorizer t) (inputs_of [e])).
Proof.
  destruct e as [msg|input]; simpl; intros Hlogs Hacc.
  - split; [done|]. destruct msg as [[]|]; simpl; try (by split; [rewrite app_nil_r|]).
    pose proof (forward_from_server_same r t) as Hf. pose proof (forward_no_reader r t) as Hr.
    destruct (forward_from_server r t) as [[|[|r']] t1]; simpl in *; try done.
    rewrite <-(Hr r' t1 eq_refl) in Hlogs. by destruct (response_content r') as [[]|].
  - rewrite Forall_singleton in Hacc.
    destruct input as [[[r|v]|err]|]; simpl; try (by split; [|split; [rewrite app_nil_r|]]).
    + destruct (authorize (authorizer t) r); (split; [done|]); [done|apply forward_from_server_same].
    + unfold accepts in Hacc. rewrite Hacc. split; [done|]. split; [by rewrite app_nil_r|done].
Qed.

Lemma task_loop_passes events t :
  Forall no_logs events → Forall accepts (inputs_of events) →
  sends t (task_loop events t) (passed_on (task_request_id_prefix t) (authorizer t) (inputs_of events)).
Proof.
  intros Hlogs. revert t. induction Hlogs as [|e events He Hlogs IH]; intros t Hacc.
  { split; [by rewrite app_nil_r|done]. }
  assert (inputs_of (e :: events) = inputs_of [e] ++ inputs_of events) as Heq by (by destruct e).
  rewrite Heq in Hacc |- *. apply Forall_app in Hacc as [Hacc1 Hacc2].
  destruct (task_step_passes e t He Hacc1) as [Hgo (Hs1 & Hp1 & Ha1)]. cbn [task_loop].
  destruct (task_step e t) as [go_on t1]. simpl in *. subst go_on.
  destruct (IH t1 Hacc2) as (Hs2 & Hp2 & Ha2). rewrite Hp1, Ha1 in *.
  split; [|done]. unfold passed_on. rewrite omap_app, Hs2, Hs1, <-app_assoc. done.
Qed.

(** What a workload says: its hello and then requests. *)
Definition said (version : string) (requests : list Request) : list (list u8) :=
  encode_to_ankaios (Some (ToAnkaiosHello version)) ::
  ((λ r, encode_to_ankaios (Some (ToAnkaiosRequest r))) <$> requests).

(** The round trip of the encoding. *)
Definition decoded (m : ToAnkaios) : Prop :=
  decode_to_ankaios (encode_to_ankaios (Some m)) = Some (Some m).

Lemma decode_said version requests :
  decoded (ToAnkaiosHello version) → (∀ r, r ∈ requests → decoded (ToAnkaiosRequest r)) →
  decode_to_server <$> (Ok <$> said version requests) =
  Some (Ok (ToAnkaiosHello version)) :: ((λ r, Some (Ok (ToAnkaiosRequest r))) <$> requests).
Proof.
  unfold said. intros Hhello Hreqs. cbn [fmap list_fmap decode_to_server].
  rewrite Hhello. simpl. f_equal. rewrite <-!list_fmap_compose.
  apply list_fmap_ext. intros i r Hr. simpl. by rewrite (Hreqs r) by by eapply list_elem_of_lookup_2.
Qed.

Lemma passed_on_requests prefix a requests :
  passed_on prefix a ((λ r, Some (Ok (ToAnkaiosRequest r))) <$> requests) =
  (λ r, ToServerRequest (prefix_request_id prefix r)) <$> filter (λ r, authorize a r = true) requests.
Proof.
  induction requests as [|r requests IH]; [done|]. unfold passed_on in *. simpl.
  destruct (authorize a r) eqn:Ha.
  - rewrite filter_cons_True by done. simpl. by f_equal.
  - rewrite filter_cons_False by congruence. done.
Qed.

Lemma accepts_requests requests : Forall accepts ((λ r, Some (Ok (ToAnkaiosRequest r))) <$> requests).
Proof. apply Forall_fmap, Forall_true. done. Qed.

Lemma run_passes version requests events t :
  check_version_compatibility version = Ok () →
  (send_message ControlInterfaceAccepted (output_stream t)).1 = Ok () →
  Forall no_logs events → inputs_of events = (λ r, Some (Ok (ToAnkaiosRequest r))) <$> requests →
  to_server_sender (run_control_interface (Some (Ok (ToAnkaiosHello version))) events t) =
  to_server_sender t ++ ((λ r, ToServerRequest (prefix_request_id (task_request_id_prefix t) r)) <$>
    filter (λ r, authorize (authorizer t) r = true) requests).
Proof.
  intros Hv Hsend Hlogs Hin. unfold run_control_interface. cbn [check_initial_hello]. rewrite Hv.
  destruct (send_message _ _) as [[[]|err] w]; [|done].
  destruct (task_loop_passes events (with_output t w) Hlogs) as (-> & _).
  { rewrite Hin. apply accepts_requests. }
  by rewrite Hin, passed_on_requests.
Qed.
End control_task.


(** ** Witness *)

Definition example_request : @Request example_conversion :=
  {| request_id := "1"; request_content := Some (read_request ["desiredState.workloads.nginx"]) |}.
Definition denied_request : @Request example_conversion :=
  {| request_id := "2"; request_content := Some (read_request ["desiredState.workloads.secret"]) |}.

(** A byte tells the messages of the example apart. *)
Definition example_codec : @ControlApi example_conversion := {|
  encode_to_ankaios m :=
    match m with
    | Some (ToAnkaiosHello _) => [1%N]
    | Some (ToAnkaiosRequest r) => if authorize (authorizer_from secret_access) r then [2%N] else [3%N]
    | None => []
    end;
  decode_to_ankaios data :=
    match data with
    | [1%N] => Some (Some (ToAnkaiosHello "1.0.0"))
    | [2%N] => Some (Some (ToAnkaiosRequest example_request))
    | [3%N] => Some (Some (ToAnkaiosRequest denied_request))
    | [] => Some None
    | _ => None
    end;
  encode_from_ankaios _ := [0%N]
|}.

