(* ===== verification/RuntimeManager.v ===== *)
(** * Ankaios agent: runtime manager

    [agent/src/runtime_manager.rs], [workload.rs] and
    [runtime_connectors/runtime_facade.rs]: the workloads the agent knows, the
    control loops it starts for them and the commands it sends to those loops.

    A control loop is a task: how it was started and the commands sent to it, in
    order (a created task sends itself the first command; the model has it sent
    when the task is spawned).  The loop itself is in [ControlLoop.v]; sending to
    a loop that has returned only logs a warning, so it is not distinguished. *)

From stdpp Require Import base tactics numbers gmap strings list.
From S2P Require Import Prelude Api WorkloadStates StateManipulation Messages Scheduler.
From S2P Require Import WorkloadFiles RetryManager ControlLoop Authorizer ControlInterface.

(** ** Interface of the runtimes and the host *)

(** Calls of the runtime facades by runtime name, and the pipes of a control
    interface. *)
Class RuntimeHost (Host : Type) := {
  get_reusable_workloads : string → string → io Host RuntimeError (list ReusableWorkloadState);
  workload_id_decodes : string → string → bool;
  input_output_new : path → io Host string ()
}.

Section runtime_manager.
Context `{IterOrder} {SC : StateConversion} {Host : Type} {RH : RuntimeHost Host}.

(** ** State *)

Record ControlLoopTask := {
  task_runtime : string;
  task_supported : bool;
  task_workload : WorkloadNamed;
  task_workload_id : option string;
  task_control_interface_path : option path;
  task_commands : list WorkloadCommand
}.

(** [channel] is the index of the task that receives the commands. *)
Record Workload := {
  channel : nat;
  control_interface : option ControlInterface
}.

Record RuntimeManager := {
  rm_agent_name : string;
  rm_run_folder : path;
  workloads : gmap string Workload;
  runtime_map : gset string;
  workload_queue : WorkloadScheduler;
  tasks : list ControlLoopTask;
  delete_tasks : list (string * WorkloadInstanceNameSpec);
  host : Host
}.

Definition runtime_manager_new (agent_name : string) (folder : path) (runtimes : gset string)
    (h : Host) : RuntimeManager := {|
  rm_agent_name := agent_name; rm_run_folder := folder; workloads := ∅; runtime_map := runtimes;
  workload_queue := scheduler_new; tasks := []; delete_tasks := []; host := h
|}.

(** Assignments to the fields. *)
Definition set_workloads (ws : gmap string Workload) (rm : RuntimeManager) : RuntimeManager := {|
  rm_agent_name := rm_agent_name rm; rm_run_folder := rm_run_folder rm; workloads := ws;
  runtime_map := runtime_map rm; workload_queue := workload_queue rm; tasks := tasks rm;
  delete_tasks := delete_tasks rm; host := host rm |}.
Definition set_queue (q : WorkloadScheduler) (rm : RuntimeManager) : RuntimeManager := {|
  rm_agent_name := rm_agent_name rm; rm_run_folder := rm_run_folder rm; workloads := workloads rm;
  runtime_map := runtime_map rm; workload_queue := q; tasks := tasks rm;
  delete_tasks := delete_tasks rm; host := host rm |}.
Definition set_tasks (ts : list ControlLoopTask) (rm : RuntimeManager) : RuntimeManager := {|
  rm_agent_name := rm_agent_name rm; rm_run_folder := rm_run_folder rm; workloads := workloads rm;
  runtime_map := runtime_map rm; workload_queue := workload_queue rm; tasks := ts;
  delete_tasks := delete_tasks rm; host := host rm |}.
Definition push_delete_task (d : string * WorkloadInstanceNameSpec) (rm : RuntimeManager) :
    RuntimeManager := {|
  rm_agent_name := rm_agent_name rm; rm_run_folder := rm_run_folder rm; workloads := workloads rm;
  runtime_map := runtime_map rm; workload_queue := workload_queue rm; tasks := tasks rm;
  delete_tasks := delete_tasks rm ++ [d]; host := host rm |}.
Definition set_host (h : Host) (rm : RuntimeManager) : RuntimeManager := {|
  rm_agent_name := rm_agent_name rm; rm_run_folder := rm_run_folder rm; workloads := workloads rm;
  runtime_map := runtime_map rm; workload_queue := workload_queue rm; tasks := tasks rm;
  delete_tasks := delete_tasks rm; host := h |}.

(** The states reported so far: the scheduler and the manager send on one
    channel. *)
Definition reported (rm : RuntimeManager) : list WorkloadStateSpec :=
  workload_state_sender (workload_queue rm).

(** ** Control interfaces *)

Definition control_interface_info_for (rm : RuntimeManager) (w : WorkloadNamed) :
    option ControlInterfaceInfo :=
  if needs_control_interface (workload w) then
    Some {| info_path := control_interface_path_from (rm_run_folder rm) (instance_name w);
            info_instance_name := instance_name w;
            info_authorizer := authorizer_from (control_interface_access (workload w)) |}
  else None.

(** [ControlInterface::new]; a failure is only logged by all callers. *)
Definition control_interface_new (info : ControlInterfaceInfo) (rm : RuntimeManager) :
    option ControlInterface * RuntimeManager :=
  match input_output_new (info_path info) (host rm) with
  | (Ok _, h) => (Some {| api_location := info_path info;
                          interface_authorizer := info_authorizer info;
                          input_pipe_sender := [] |}, set_host h rm)
  | (Err _, h) => (None, set_host h rm)
  end.

Definition open_control_interface (info : option ControlInterfaceInfo) (rm : RuntimeManager) :
    option ControlInterface * RuntimeManager :=
  match info with Some info => control_interface_new info rm | None => (None, rm) end.

(** ** Facade *)

Definition send_command (ch : nat) (c : WorkloadCommand) (rm : RuntimeManager) : RuntimeManager :=
  set_tasks (alter (λ t, {|
    task_runtime := task_runtime t; task_supported := task_supported t;
    task_workload := task_workload t; task_workload_id := task_workload_id t;
    task_control_interface_path := task_control_interface_path t;
    task_commands := task_commands t ++ [c] |}) ch (tasks rm)) rm.

Definition spawn (t : ControlLoopTask) (rm : RuntimeManager) : nat * RuntimeManager :=
  (length (tasks rm), set_tasks (tasks rm ++ [t]) rm).

(** [create_workload_non_blocking]. An id that cannot be decoded is dropped. *)
Definition create_workload (runtime_name : string) (r : ReusableWorkload)
    (info : option ControlInterfaceInfo) (rm : RuntimeManager) : Workload * RuntimeManager :=
  let id := match runtime_workload_id r with
            | Some id => if workload_id_decodes runtime_name id then Some id else None
            | None => None
            end in
  let '(ci, rm) := open_control_interface info rm in
  let '(ch, rm) := spawn {|
    task_runtime := runtime_name; task_supported := bool_decide (runtime_name ∈ runtime_map rm);
    task_workload := Scheduler.workload_named r; task_workload_id := id;
    task_control_interface_path := api_location <$> ci; task_commands := [CommandCreate] |} rm in
  ({| channel := ch; control_interface := ci |}, rm).

(** [resume_workload_non_blocking]: the loop gets no path of the control
    interface. *)
Definition resume_workload (runtime_name : string) (w : WorkloadNamed)
    (info : option ControlInterfaceInfo) (rm : RuntimeManager) : Workload * RuntimeManager :=
  let '(ci, rm) := open_control_interface info rm in
  let '(ch, rm) := spawn {|
    task_runtime := runtime_name; task_supported := bool_decide (runtime_name ∈ runtime_map rm);
    task_workload := w; task_workload_id := None;
    task_control_interface_path := None; task_commands := [CommandResume] |} rm in
  ({| channel := ch; control_interface := ci |}, rm).

(** ** Workload objects ([workload.rs])

    A control interface that is replaced or dropped is aborted. *)

Definition is_control_interface_changed (ci : option ControlInterface)
    (info : option ControlInterfaceInfo) : bool :=
  match ci, info with
  | None, None => false
  | Some current, Some new_context => negb (has_same_configuration new_context current)
  | _, _ => true
  end.

Definition exchange_control_interface (info : option ControlInterfaceInfo)
    (control_interface_access : bool) (rm : RuntimeManager) :
    option ControlInterface * RuntimeManager :=
  if control_interface_access then (None, rm) else open_control_interface info rm.

Definition workload_update (wl : Workload) (w : option WorkloadNamed)
    (info : option ControlInterfaceInfo) (rm : RuntimeManager) : Workload * RuntimeManager :=
  let '(ci, rm) :=
    if is_control_interface_changed (control_interface wl) info then
      exchange_control_interface info
        (match w with Some w => negb (needs_control_interface (workload w)) | None => false end) rm
    else (control_interface wl, rm) in
  ({| channel := channel wl; control_interface := ci |},
   send_command (channel wl) (CommandUpdate w (api_location <$> ci)) rm).

(** ** Operations on workloads *)

(** An unknown runtime gives a task that supports nothing. *)
Definition add_workload (r : ReusableWorkload) (rm : RuntimeManager) : RuntimeManager :=
  let w := Scheduler.workload_named r in
  let '(wl, rm) := create_workload (Api.runtime (workload w)) r (control_interface_info_for rm w) rm in
  set_workloads (<[workload_name (instance_name w) := wl]> (workloads rm)) rm.

Definition delete_workload (d : DeletedWorkload) (rm : RuntimeManager) : RuntimeManager :=
  let name := workload_name (deleted_instance_name d) in
  match workloads rm !! name with
  | Some wl => send_command (channel wl) CommandDelete (set_workloads (delete name (workloads rm)) rm)
  | None => set_queue (report_workload_execution_state (deleted_instance_name d) removed
              (workload_queue rm)) rm
  end.

Definition update_workload (w : WorkloadNamed) (rm : RuntimeManager) : RuntimeManager :=
  let name := workload_name (instance_name w) in
  match workloads rm !! name with
  | Some wl =>
    let '(wl, rm) := workload_update wl (Some w) (control_interface_info_for rm w) rm in
    set_workloads (<[name := wl]> (workloads rm)) rm
  | None => add_workload {| Scheduler.workload_named := w; runtime_workload_id := None |} rm
  end.

Definition update_delete_only (d : DeletedWorkload) (rm : RuntimeManager) : RuntimeManager :=
  let name := workload_name (deleted_instance_name d) in
  match workloads rm !! name with
  | Some wl =>
    let '(wl, rm) := workload_update wl None None rm in
    set_workloads (<[name := wl]> (workloads rm)) rm
  | None => rm
  end.

Definition execute_workload_operation (rm : RuntimeManager) (op : WorkloadOperation) :
    RuntimeManager :=
  match op with
  | OpCreate r => add_workload r rm
  | OpUpdate w _ => update_workload w rm
  | OpUpdateDeleteOnly d => update_delete_only d rm
  | OpDelete d => delete_workload d rm
  end.

Definition execute_workload_operations (ops : list WorkloadOperation) (rm : RuntimeManager) :
    RuntimeManager := foldl execute_workload_operation rm ops.

(** ** From messages to operations *)

Definition reusable_name (r : ReusableWorkload) : string :=
  workload_name (instance_name (Scheduler.workload_named r)).

Definition added_by_name (added : list ReusableWorkload) : gmap string ReusableWorkload :=
  foldl (λ m r, <[reusable_name r := r]> m) ∅ added.

(** The body of the loop over the deleted workloads. *)
Definition transform_deleted (acc : gmap string ReusableWorkload * list WorkloadOperation)
    (d : DeletedWorkload) : gmap string ReusableWorkload * list WorkloadOperation :=
  let name := workload_name (deleted_instance_name d) in
  match acc.1 !! name with
  | Some r => (delete name acc.1, acc.2 ++ [OpUpdate (Scheduler.workload_named r) d])
  | None => (acc.1, acc.2 ++ [OpDelete d])
  end.

(** The body of the loop over the remaining added workloads. *)
Definition transform_added (rm : RuntimeManager) (r : ReusableWorkload) : WorkloadOperation :=
  if bool_decide (is_Some (workloads rm !! reusable_name r)) then
    OpUpdate (Scheduler.workload_named r)
      {| deleted_instance_name := instance_name (Scheduler.workload_named r);
         deleted_dependencies := ∅ |}
  else OpCreate r.

Definition transform_into_workload_operations (rm : RuntimeManager)
    (added : list ReusableWorkload) (deleted : list DeletedWorkload) : list WorkloadOperation :=
  let '(added, ops) := foldl transform_deleted (added_by_name added, []) deleted in
  ops ++ (transform_added rm <$> (map_iter added).*2).

Definition update_workloads_on_fulfilled_dependencies (db : WorkloadStatesMap)
    (rm : RuntimeManager) : RuntimeManager :=
  let '(q, ops) := next_workload_operations db (workload_queue rm) in
  execute_workload_operations ops (set_queue q rm).

Definition execute_workloads (added : list ReusableWorkload) (deleted : list DeletedWorkload)
    (db : WorkloadStatesMap) (rm : RuntimeManager) : RuntimeManager :=
  let ops := transform_into_workload_operations rm added deleted in
  let '(q, ready) := enqueue_filtered_workload_operations ops db (workload_queue rm) in
  execute_workload_operations ready (set_queue q rm).

Definition into_reusable_workloads (l : list WorkloadNamed) : list ReusableWorkload :=
  (λ w, {| Scheduler.workload_named := w; runtime_workload_id := None |}) <$> l.

Definition handle_update_workload (added : list WorkloadNamed) (deleted : list DeletedWorkload)
    (db : WorkloadStatesMap) (rm : RuntimeManager) : RuntimeManager :=
  execute_workloads (into_reusable_workloads added) deleted db rm.

(** ** Existing workloads *)

Definition is_resumable_workload (existing : WorkloadStateSpec) (n : WorkloadInstanceNameSpec) : bool :=
  is_running (execution_state existing) && bool_decide (state_instance_name existing = n).

Definition is_reusable_workload (existing : WorkloadStateSpec) (id : option string)
    (n : WorkloadInstanceNameSpec) : bool :=
  is_succeeded (execution_state existing) && bool_decide (is_Some id) &&
  bool_decide (state_instance_name existing = n).

(** The workload that stands for one that is replaced: only its name is known. *)
Definition old_workload_of (n : WorkloadInstanceNameSpec) : WorkloadNamed :=
  {| instance_name := n; workload := workload_default |}.

Definition runtime_lists := gmap string (list WorkloadNamed).

Definition added_per_runtime (added : list WorkloadNamed) : runtime_lists :=
  foldl (λ m w,
    match m !! Api.runtime (workload w) with
    | Some l => <[Api.runtime (workload w) := l ++ [w]]> m
    | None => <[Api.runtime (workload w) := [w]]> m
    end) ∅ added.

(** [position] and [remove]: the first workload with the name and the list
    without it. *)
Fixpoint take_named (name : string) (l : list WorkloadNamed) : option (WorkloadNamed * list WorkloadNamed) :=
  match l with
  | [] => None
  | w :: l =>
    if String.eqb (workload_name (instance_name w)) name then Some (w, l)
    else '(w', l') ← take_named name l; Some (w', w :: l')
  end.

(** What the search for existing workloads carries along: the manager, the
    workloads per runtime, the added and the deleted ones. *)
Record ResumeState := {
  resume_manager : RuntimeManager;
  per_runtime : runtime_lists;
  new_added_workloads : list ReusableWorkload;
  resume_deleted_workloads : list DeletedWorkload
}.

(** An existing workload whose name is among the added ones. *)
Definition resume_added (runtime_name : string) (existing : ReusableWorkloadState)
    (w : WorkloadNamed) (s : ResumeState) : ResumeState :=
  let st := reusable_state existing in
  let rm := resume_manager s in
  let n := instance_name w in
  if is_resumable_workload st n then
    let '(wl, rm) := resume_workload runtime_name w (control_interface_info_for rm w) rm in
    {| resume_manager := set_workloads (<[workload_name n := wl]> (workloads rm)) rm;
       per_runtime := per_runtime s; new_added_workloads := new_added_workloads s;
       resume_deleted_workloads := resume_deleted_workloads s |}
  else if is_reusable_workload st (reusable_workload_id existing) n then
    {| resume_manager := rm; per_runtime := per_runtime s;
       new_added_workloads := new_added_workloads s ++
         [{| Scheduler.workload_named := w; runtime_workload_id := reusable_workload_id existing |}];
       resume_deleted_workloads := resume_deleted_workloads s |}
  else
    let rm :=
      match workloads rm !! workload_name (state_instance_name st) with
      | Some _ => rm
      | None =>
        let '(wl, rm) := resume_workload runtime_name (old_workload_of (state_instance_name st)) None rm in
        set_workloads (<[workload_name n := wl]> (workloads rm)) rm
      end in
    {| resume_manager := rm; per_runtime := per_runtime s;
       new_added_workloads := new_added_workloads s ++
         [{| Scheduler.workload_named := w; runtime_workload_id := None |}];
       resume_deleted_workloads := resume_deleted_workloads s ++
         [{| deleted_instance_name := state_instance_name st; deleted_dependencies := ∅ |}] |}.

(** An existing workload that is not needed. *)
Definition resume_unneeded (runtime_name : string) (st : WorkloadStateSpec) (rm : RuntimeManager) :
    RuntimeManager :=
  let name := workload_name (state_instance_name st) in
  match workloads rm !! name with
  | Some wl => send_command (channel wl) CommandDelete (set_workloads (delete name (workloads rm)) rm)
  | None => push_delete_task (runtime_name, state_instance_name st) rm
  end.

(** The body of the loop over the existing workloads of a runtime. *)
Definition resume_existing (runtime_name : string) (s : ResumeState)
    (existing : ReusableWorkloadState) : ResumeState :=
  let st := reusable_state existing in
  match l ← per_runtime s !! runtime_name; take_named (workload_name (state_instance_name st)) l with
  | Some (w, l) =>
    resume_added runtime_name existing w
      {| resume_manager := resume_manager s; per_runtime := <[runtime_name := l]> (per_runtime s);
         new_added_workloads := new_added_workloads s;
         resume_deleted_workloads := resume_deleted_workloads s |}
  | None =>
    {| resume_manager := resume_unneeded runtime_name st (resume_manager s);
       per_runtime := per_runtime s; new_added_workloads := new_added_workloads s;
       resume_deleted_workloads := resume_deleted_workloads s |}
  end.

(** The body of the loop over the runtimes. *)
Definition resume_runtime (s : ResumeState) (runtime_name : string) : ResumeState :=
  let rm := resume_manager s in
  let '(res, h) := get_reusable_workloads runtime_name (rm_agent_name rm) (host rm) in
  let s := {| resume_manager := set_host h rm; per_runtime := per_runtime s;
              new_added_workloads := new_added_workloads s;
              resume_deleted_workloads := resume_deleted_workloads s |} in
  match res with
  | Ok existing => foldl (resume_existing runtime_name) s existing
  | Err _ => s
  end.

Definition flatten (m : runtime_lists) : list ReusableWorkload :=
  '(_, l) ← map_iter m; into_reusable_workloads l.

Definition resume_and_remove_from_added_workloads (added : list WorkloadNamed) (rm : RuntimeManager) :
    RuntimeManager * list ReusableWorkload * list DeletedWorkload :=
  let s := foldl resume_runtime
    {| resume_manager := rm; per_runtime := added_per_runtime added;
       new_added_workloads := []; resume_deleted_workloads := [] |} (set_iter (runtime_map rm)) in
  (resume_manager s, new_added_workloads s ++ flatten (per_runtime s), resume_deleted_workloads s).

Definition handle_server_hello (added : list WorkloadNamed) (db : WorkloadStatesMap)
    (rm : RuntimeManager) : RuntimeManager :=
  let '(rm, new_added, deleted) := resume_and_remove_from_added_workloads added rm in
  execute_workloads new_added deleted db rm.

(** ** Responses and logs *)

Definition forward_response (r : Response) (rm : RuntimeManager) : RuntimeManager :=
  let '(name, id) := detach_prefix_from_request_id (response_request_id r) in
  match workloads rm !! name with
  | Some wl =>
    match control_interface wl with
    | Some ci =>
      let r := {| response_request_id := id; response_content := response_content r |} in
      let ci := {| api_location := api_location ci; interface_authorizer := interface_authorizer ci;
                   input_pipe_sender := input_pipe_sender ci ++ [r] |} in
      set_workloads (<[name := {| channel := channel wl; control_interface := Some ci |}]>
        (workloads rm)) rm
    | None => rm
    end
  | None => rm
  end.

Definition log_request_options (r : LogsRequest) : LogRequestOptions := {|
  follow_option := default false (follow r); tail_option := tail_lines r;
  since_option := since r; until_option := until r |}.

(** The workloads that are asked for a log fetcher, in order; whether each of
    them answers with one is up to its control loop. *)
Definition get_log_fetchers (answers : nat → bool) (r : LogsRequest) (rm : RuntimeManager) :
    RuntimeManager * list WorkloadInstanceNameSpec :=
  foldl (λ acc n,
    match workloads rm !! workload_name n with
    | None => acc
    | Some wl =>
      (send_command (channel wl) (CommandStartLogFetcher (log_request_options r)) acc.1,
       if answers (channel wl) then acc.2 ++ [n] else acc.2)
    end) (rm, []) (log_workload_names r).
End runtime_manager.

(** ** The registry of workloads *)

Section registry.
Context `{IterOrder} {SC : StateConversion} {Host : Type} {RH : RuntimeHost Host}.
Implicit Types rm : RuntimeManager (Host := Host).

(** Every known workload has a control loop of its own that was not told to
    delete it, and no loop is told anything after its deletion. *)
Record rm_wf rm : Prop := {
  wf_channel name wl :
    workloads rm !! name = Some wl →
    ∃ t, tasks rm !! channel wl = Some t ∧ CommandDelete ∉ task_commands t;
  wf_distinct name1 name2 wl1 wl2 :
    workloads rm !! name1 = Some wl1 → workloads rm !! name2 = Some wl2 →
    channel wl1 = channel wl2 → name1 = name2;
  wf_deleted_last i t c1 c2 :
    tasks rm !! i = Some t → task_commands t = c1 ++ CommandDelete :: c2 → c2 = []
}.

Lemma rm_wf_same rm rm' :
  workloads rm' = workloads rm → tasks rm' = tasks rm → rm_wf rm → rm_wf rm'.
Proof. intros Hw Ht [H1 H2 H3]. split; rewrite ?Hw, ?Ht; auto. Qed.

Lemma send_command_tasks ch c rm i :
  tasks (send_command ch c rm) !! i =
  if decide (i = ch) then
    (λ t, {| task_runtime := task_runtime t; task_supported := task_supported t;
             task_workload := task_workload t; task_workload_id := task_workload_id t;
             task_control_interface_path := task_control_interface_path t;
             task_commands := task_commands t ++ [c] |}) <$> tasks rm !! i
  else tasks rm !! i.
Proof.
  unfold send_command. simpl. case_decide as Hi; [subst; apply list_lookup_alter_eq|].
  by apply list_lookup_alter_ne.
Qed.

Lemma delete_last_snoc (l : list WorkloadCommand) c c1 c2 :
  CommandDelete ∉ l → l ++ [c] = c1 ++ CommandDelete :: c2 → c2 = [].
Proof.
  intros Hl Heq. destruct c2 as [|c' c2 _] using rev_ind; [done|]. exfalso. apply Hl.
  rewrite app_comm_cons, app_assoc in Heq. apply app_inj_tail in Heq as [-> _].
  apply elem_of_app. right. by left.
Qed.

Lemma rm_wf_send name wl c rm :
  workloads rm !! name = Some wl → c ≠ CommandDelete → rm_wf rm →
  rm_wf (send_command (channel wl) c rm).
Proof.
  intros Hwl Hc Hwf. destruct (wf_channel _ Hwf _ _ Hwl) as (t0 & Ht0 & Hno0). split.
  - intros name' wl' Hwl'. destruct (wf_channel _ Hwf _ _ Hwl') as (t & Ht & Hno).
    rewrite send_command_tasks, Ht. case_decide; simpl; [|by eauto].
    eexists. split; [done|]. simpl. rewrite elem_of_app, list_elem_of_singleton. naive_solver.
  - apply (wf_distinct _ Hwf).
  - intros i t c1 c2. rewrite send_command_tasks. case_decide as Hi.
    + subst. rewrite Ht0. simpl. intros [= <-] Heq. simpl in Heq.
      by eapply delete_last_snoc.
    + apply (wf_deleted_last _ Hwf).
Qed.

Lemma rm_wf_delete name wl rm :
  workloads rm !! name = Some wl → rm_wf rm →
  rm_wf (send_command (channel wl) CommandDelete (set_workloads (delete name (workloads rm)) rm)).
Proof.
  intros Hwl Hwf. destruct (wf_channel _ Hwf _ _ Hwl) as (t0 & Ht0 & Hno0). split.
  - intros name' wl'. simpl. intros [Hne Hwl']%lookup_delete_Some.
    destruct (wf_channel _ Hwf _ _ Hwl') as (t & Ht & Hno).
    change (tasks rm) with (tasks (set_workloads (delete name (workloads rm)) rm)) in Ht.
    exists t. split; [|done].
    etransitivity; [apply (send_command_tasks _ CommandDelete)|]. rewrite decide_False; [done|].
    intros Hch. apply Hne. by eapply wf_distinct.
  - simpl. intros n1 n2 w1 w2 [_ H1]%lookup_delete_Some [_ H2]%lookup_delete_Some.
    by eapply wf_distinct.
  - intros i t c1 c2. rewrite send_command_tasks. simpl. case_decide as Hi.
    + subst. rewrite Ht0. simpl. intros [= <-] Heq. simpl in Heq. by eapply delete_last_snoc.
    + apply (wf_deleted_last _ Hwf).
Qed.

Lemma rm_wf_replace name wl wl' rm :
  workloads rm !! name = Some wl → channel wl' = channel wl → rm_wf rm →
  rm_wf (set_workloads (<[name := wl']> (workloads rm)) rm).
Proof.
  intros Hwl Hch Hwf.
  assert (∀ n w, <[name := wl']> (workloads rm) !! n = Some w →
    ∃ w0, workloads rm !! n = Some w0 ∧ channel w = channel w0) as Hold.
  { intros n w [[<- <-]|[_ Hn]]%lookup_insert_Some; eauto. }
  split; simpl.
  - intros n w (w0 & Hw0 & ->)%Hold. by eapply wf_channel.
  - intros n1 n2 w1 w2 (w1' & H1 & ->)%Hold (w2' & H2 & ->)%Hold. by eapply wf_distinct.
  - apply (wf_deleted_last _ Hwf).
Qed.

Lemma rm_wf_spawn name t ci rm :
  CommandDelete ∉ task_commands t → rm_wf rm →
  rm_wf (set_workloads (<[name := {| channel := (spawn t rm).1; control_interface := ci |}]>
    (workloads (spawn t rm).2)) (spawn t rm).2).
Proof.
  intros Hno Hwf. unfold spawn. simpl. split; simpl.
  - intros n w [[<- <-]|[_ Hn]]%lookup_insert_Some; simpl.
    + exists t. by rewrite lookup_app_r, Nat.sub_diag.
    + destruct (wf_channel _ Hwf _ _ Hn) as (t' & Ht' & ?). exists t'.
      by rewrite (lookup_app_l_Some _ _ _ _ Ht').
  - assert (∀ n w, workloads rm !! n = Some w → channel w ≠ length (tasks rm)) as Hlt.
    { intros n w Hw. destruct (wf_channel _ Hwf _ _ Hw) as (t' & Ht' & _).
      apply lookup_lt_Some in Ht'. lia. }
    intros n1 n2 w1 w2 [[<- <-]|[_ H1]]%lookup_insert_Some [[<- <-]|[_ H2]]%lookup_insert_Some;
      simpl; intros Hch; [done|by destruct (Hlt _ _ H2)|by destruct (Hlt _ _ H1)|by eapply wf_distinct].
  - intros i t' c1 c2 [Ht'|[_ Ht']]%lookup_app_Some; [by eapply wf_deleted_last|].
    apply list_lookup_singleton_Some in Ht' as [_ <-]. intros Heq. exfalso. apply Hno.
    rewrite Heq. apply elem_of_app. right. by left.
Qed.

Lemma open_control_interface_same info rm ci rm' :
  open_control_interface info rm = (ci, rm') →
  workloads rm' = workloads rm ∧ tasks rm' = tasks rm ∧ workload_queue rm' = workload_queue rm.
Proof.
  destruct info as [info|]; simpl; [|by intros [= _ <-]].
  unfold control_interface_new. by destruct (input_output_new _ _) as [[|] h]; intros [= _ <-].
Qed.

(** Creating or resuming a workload and registering it. *)
Lemma rm_wf_create name runtime_name r info rm :
  rm_wf rm →
  let '(wl, rm') := create_workload runtime_name r info rm in
  rm_wf (set_workloads (<[name := wl]> (workloads rm')) rm').
Proof.
  intros Hwf. unfold create_workload.
  destruct (open_control_interface info rm) as [ci rm1] eqn:Hopen.
  apply open_control_interface_same in Hopen as (Hw & Ht & _).
  apply rm_wf_spawn; [|by eapply rm_wf_same, Hwf]. simpl.
  apply not_elem_of_cons. split; [done|apply not_elem_of_nil].
Qed.

Lemma rm_wf_resume name runtime_name w info rm :
  rm_wf rm →
  let '(wl, rm') := resume_workload runtime_name w info rm in
  rm_wf (set_workloads (<[name := wl]> (workloads rm')) rm').
Proof.
  intros Hwf. unfold resume_workload.
  destruct (open_control_interface info rm) as [ci rm1] eqn:Hopen.
  apply open_control_interface_same in Hopen as (Hw & Ht & _).
  apply rm_wf_spawn; [|by eapply rm_wf_same, Hwf]. simpl.
  apply not_elem_of_cons. split; [done|apply not_elem_of_nil].
Qed.

(** ** The operations keep the registry *)

Lemma workload_update_spec wl w info rm :
  let '(wl', rm') := workload_update wl w info rm in
  channel wl' = channel wl ∧ workloads rm' = workloads rm ∧
  workload_queue rm' = workload_queue rm ∧
  ∃ rm1, workloads rm1 = workloads rm ∧ tasks rm1 = tasks rm ∧
    rm' = send_command (channel wl) (CommandUpdate w (api_location <$> control_interface wl')) rm1.
Proof.
  unfold workload_update. destruct (is_control_interface_changed _ _).
  - unfold exchange_control_interface.
    set (b := match w with Some w => _ | None => false end). destruct b.
    + split_and!; [done..|]. by exists rm.
    + destruct (open_control_interface info rm) as [ci rm1] eqn:Hopen.
      apply open_control_interface_same in Hopen as (Hw & Ht & Hq). split_and!; [done..|].
      by exists rm1.
  - split_and!; [done..|]. by exists rm.
Qed.

Lemma rm_wf_workload_update name wl w info rm :
  workloads rm !! name = Some wl → rm_wf rm →
  let '(wl', rm') := workload_update wl w info rm in
  rm_wf (set_workloads (<[name := wl']> (workloads rm')) rm').
Proof.
  intros Hwl Hwf. pose proof (workload_update_spec wl w info rm) as Hspec.
  destruct (workload_update wl w info rm) as [wl' rm'].
  destruct Hspec as (Hch & Hw & _ & rm1 & Hw1 & Ht1 & ->).
  apply (rm_wf_replace name wl); [by rewrite Hw|done|].
  apply (rm_wf_send name); [by rewrite Hw1|done|]. by eapply rm_wf_same, Hwf.
Qed.

Lemma rm_wf_add r rm : rm_wf rm → rm_wf (add_workload r rm).
Proof.
  intros Hwf. unfold add_workload.
  pose proof (rm_wf_create (workload_name (instance_name (Scheduler.workload_named r)))
    (Api.runtime (workload (Scheduler.workload_named r))) r
    (control_interface_info_for rm (Scheduler.workload_named r)) rm Hwf) as H1.
  by destruct (create_workload _ _ _ _).
Qed.

Lemma rm_wf_execute op rm : rm_wf rm → rm_wf (execute_workload_operation rm op).
Proof.
  intros Hwf. destruct op as [r|w d|d|d]; simpl.
  - by apply rm_wf_add.
  - unfold update_workload. destruct (workloads rm !! _) as [wl|] eqn:Hwl; [|by apply rm_wf_add].
    pose proof (rm_wf_workload_update _ wl (Some w) (control_interface_info_for rm w) rm Hwl Hwf) as H1.
    by destruct (workload_update _ _ _ _).
  - unfold update_delete_only. destruct (workloads rm !! _) as [wl|] eqn:Hwl; [|done].
    pose proof (rm_wf_workload_update _ wl None None rm Hwl Hwf) as H1.
    by destruct (workload_update _ _ _ _).
  - unfold delete_workload. destruct (workloads rm !! _) as [wl|] eqn:Hwl; [by apply rm_wf_delete|].
    by eapply rm_wf_same, Hwf.
Qed.

Lemma rm_wf_execute_all ops rm : rm_wf rm → rm_wf (execute_workload_operations ops rm).
Proof.
  apply foldl_preserves. intros rm' op. apply rm_wf_execute.
Qed.

Lemma rm_wf_execute_workloads added deleted db rm :
  rm_wf rm → rm_wf (execute_workloads added deleted db rm).
Proof.
  intros Hwf. unfold execute_workloads. destruct (enqueue_filtered_workload_operations _ _ _).
  apply rm_wf_execute_all. by eapply rm_wf_same, Hwf.
Qed.

Lemma rm_wf_resume_added runtime_name existing w s :
  rm_wf (resume_manager s) → rm_wf (resume_manager (resume_added runtime_name existing w s)).
Proof.
  intros Hwf. unfold resume_added. case_match; [|case_match; [done|]].
  - pose proof (rm_wf_resume (workload_name (instance_name w)) runtime_name w
      (control_interface_info_for (resume_manager s) w) _ Hwf) as Hres.
    by destruct (resume_workload _ _ _ _).
  - cbn [resume_manager]. case_match; [done|].
    pose proof (rm_wf_resume (workload_name (instance_name w)) runtime_name
      (old_workload_of (state_instance_name (reusable_state existing))) None _ Hwf) as Hres.
    by destruct (resume_workload _ _ _ _).
Qed.

Lemma rm_wf_resume_existing runtime_name s existing :
  rm_wf (resume_manager s) → rm_wf (resume_manager (resume_existing runtime_name s existing)).
Proof.
  intros Hwf. unfold resume_existing.
  destruct (_ ≫= _) as [[w l]|]; [by apply rm_wf_resume_added|]. simpl.
  unfold resume_unneeded. destruct (workloads _ !! _) as [wl|] eqn:Hwl; [by apply rm_wf_delete|].
  by eapply rm_wf_same, Hwf.
Qed.

Lemma rm_wf_resume_runtime s runtime_name :
  rm_wf (resume_manager s) → rm_wf (resume_manager (resume_runtime s runtime_name)).
Proof.
  intros Hwf. unfold resume_runtime. destruct (get_reusable_workloads _ _ _) as [[existing|err] h];
    [|by eapply rm_wf_same, Hwf].
  apply (foldl_preserves (λ s, rm_wf (resume_manager s)));
    [intros s' e; apply rm_wf_resume_existing|by eapply rm_wf_same, Hwf].
Qed.

Lemma rm_wf_server_hello added db rm : rm_wf rm → rm_wf (handle_server_hello added db rm).
Proof.
  intros Hwf. unfold handle_server_hello, resume_and_remove_from_added_workloads. cbv zeta.
  apply rm_wf_execute_workloads.
  apply (foldl_preserves (λ s, rm_wf (resume_manager s))); [apply rm_wf_resume_runtime|done].
Qed.

Lemma rm_wf_forward r rm : rm_wf rm → rm_wf (forward_response r rm).
Proof.
  intros Hwf. unfold forward_response. destruct (detach_prefix_from_request_id _) as [name id].
  destruct (workloads rm !! name) as [wl|] eqn:Hwl; [|done].
  destruct (control_interface wl); [|done]. by eapply rm_wf_replace.
Qed.

Lemma rm_wf_log_fetchers answers r rm : rm_wf rm → rm_wf (get_log_fetchers answers r rm).1.
Proof.
  intros Hwf. unfold get_log_fetchers.
  assert (∀ acc, rm_wf acc.1 → workloads acc.1 = workloads rm →
    rm_wf (foldl (λ (acc : RuntimeManager * list WorkloadInstanceNameSpec) n,
      match workloads rm !! workload_name n with
      | None => acc
      | Some wl =>
        (send_command (channel wl) (CommandStartLogFetcher (log_request_options r)) acc.1,
         if answers (channel wl) then acc.2 ++ [n] else acc.2)
      end) acc (log_workload_names r)).1) as Hfold; [|by apply Hfold].
  induction (log_workload_names r) as [|n l IH]; intros acc Hacc Hw; [done|]. simpl.
  apply IH; destruct (workloads rm !! workload_name n) as [wl|] eqn:Hwl; try done.
  apply (rm_wf_send (workload_name n)); [by rewrite Hw|done..].
Qed.

Lemma rm_wf_fulfilled db rm : rm_wf rm → rm_wf (update_workloads_on_fulfilled_dependencies db rm).
Proof.
  intros Hwf. unfold update_workloads_on_fulfilled_dependencies.
  destruct (next_workload_operations _ _). apply rm_wf_execute_all. by eapply rm_wf_same, Hwf.
Qed.
End registry.

#[export] Hint Resolve rm_wf_server_hello rm_wf_execute_workloads rm_wf_fulfilled : wf.
#[export] Hint Resolve rm_wf_forward rm_wf_log_fetchers : wf.

(** ** From messages to operations *)

Section transform.
Context `{IterOrder} {SC : StateConversion} {Host : Type} {RH : RuntimeHost Host}.
Implicit Types rm : RuntimeManager (Host := Host).

Definition deleted_name (d : DeletedWorkload) : string := workload_name (deleted_instance_name d).

Definition op_name (op : WorkloadOperation) : string :=
  match op with
  | OpCreate r => reusable_name r
  | OpUpdate w _ => workload_name (instance_name w)
  | OpUpdateDeleteOnly d | OpDelete d => deleted_name d
  end.

Definition deletion_op (added : gmap string ReusableWorkload) (d : DeletedWorkload) : WorkloadOperation :=
  match added !! deleted_name d with
  | Some r => OpUpdate (Scheduler.workload_named r) d
  | None => OpDelete d
  end.

Lemma added_by_name_key added n r : added_by_name added !! n = Some r → reusable_name r = n ∧ r ∈ added.
Proof.
  unfold added_by_name.
  assert (∀ m : gmap string ReusableWorkload, (∀ n r, m !! n = Some r → reusable_name r = n) →
    foldl (λ m r, <[reusable_name r := r]> m) m added !! n = Some r →
    reusable_name r = n ∧ (m !! n = Some r ∨ r ∈ added)) as Hgen.
  { clear. induction added as [|r0 added IH]; intros m Hm; simpl; [intros ?; split; auto|].
    intros [Hr Hin]%IH.
    - split; [done|]. destruct Hin as [[[_ <-]|[_ Hin]]%lookup_insert_Some|Hin];
        [right; by left|by left|right; by right].
    - intros n' r' [[<- <-]|[_ Hin]]%lookup_insert_Some; auto. }
  intros Hr. apply Hgen in Hr as [? [Hin|]]; [by rewrite lookup_empty in Hin|done|].
  intros n' r'. by rewrite lookup_empty.
Qed.

Lemma transform_deleted_spec deleted m ops :
  NoDup (deleted_name <$> deleted) →
  let r := foldl transform_deleted (m, ops) deleted in
  (∀ n, r.1 !! n = if decide (n ∈ deleted_name <$> deleted) then None else m !! n) ∧
  r.2 = ops ++ (deletion_op m <$> deleted).
Proof.
  revert m ops. induction deleted as [|d deleted IH]; intros m ops Hnd.
  { simpl. rewrite app_nil_r. done. }
  rewrite fmap_cons in Hnd. apply NoDup_cons in Hnd as [Hnotin Hnd].
  set (m' := match m !! deleted_name d with Some _ => delete (deleted_name d) m | None => m end).
  assert (transform_deleted (m, ops) d = (m', ops ++ [deletion_op m d])) as Hstep.
  { unfold transform_deleted, m', deletion_op, deleted_name. simpl. by case_match. }
  assert (∀ n, m' !! n = if decide (n = deleted_name d) then None else m !! n) as Hm'.
  { intros n. unfold m'. case_decide as Hn; [subst|].
    - destruct (m !! deleted_name d) eqn:Hd; [apply lookup_delete_eq|done].
    - case_match; [by apply lookup_delete_ne|done]. }
  cbn [foldl]. rewrite Hstep. destruct (IH m' (ops ++ [deletion_op m d]) Hnd) as [H1 H2].
  cbv zeta in *. rewrite H2. split.
  - intros n. rewrite H1, Hm'. rewrite fmap_cons.
    destruct (decide (n ∈ deleted_name <$> deleted)) as [Hin|Hin], (decide (n = deleted_name d)) as [->|Hn];
      case_decide as Hc; try done; set_solver.
  - rewrite <-app_assoc. simpl. do 2 f_equal. apply list_fmap_ext. intros i d' Hd'.
    unfold deletion_op. rewrite Hm', decide_False; [done|]. intros Heq. apply Hnotin.
    rewrite <-Heq. apply list_elem_of_fmap_2. by eapply list_elem_of_lookup_2.
Qed.

Lemma transform_added_name rm r : op_name (transform_added rm r) = reusable_name r.
Proof. unfold transform_added. by case_bool_decide. Qed.

Lemma deletion_op_name added d : op_name (deletion_op (added_by_name added) d) = deleted_name d.
Proof.
  unfold deletion_op. destruct (_ !! _) as [r|] eqn:Hr; [|done].
  by apply added_by_name_key in Hr as [? _].
Qed.

Lemma transform_eq rm added deleted :
  NoDup (deleted_name <$> deleted) →
  ∃ rest, transform_into_workload_operations rm added deleted =
      (deletion_op (added_by_name added) <$> deleted) ++ (transform_added rm <$> (map_iter rest).*2) ∧
    ∀ n, rest !! n = if decide (n ∈ deleted_name <$> deleted) then None else added_by_name added !! n.
Proof.
  intros Hnd. unfold transform_into_workload_operations.
  destruct (transform_deleted_spec deleted (added_by_name added) [] Hnd) as [H1 H2].
  destruct (foldl transform_deleted _ deleted) as [rest ops]. simpl in H1, H2. subst.
  by exists rest.
Qed.

Lemma transform_spec rm added deleted :
  NoDup (deleted_name <$> deleted) →
  let ops := transform_into_workload_operations rm added deleted in
  NoDup (op_name <$> ops) ∧
  ∀ op, op ∈ ops ↔
    (∃ d, d ∈ deleted ∧ op = deletion_op (added_by_name added) d) ∨
    (∃ r, added_by_name added !! reusable_name r = Some r ∧
       reusable_name r ∉ deleted_name <$> deleted ∧ op = transform_added rm r).
Proof.
  intros Hnd ops. subst ops. destruct (transform_eq rm added deleted Hnd) as (rest & -> & Hrest).
  assert (∀ n r, (n, r) ∈ map_iter rest → reusable_name r = n ∧
    added_by_name added !! n = Some r ∧ n ∉ deleted_name <$> deleted) as Hin.
  { intros n r Hr%elem_of_map_iter. rewrite Hrest in Hr. case_decide; [done|].
    by apply added_by_name_key in Hr as Hkey; destruct Hkey. }
  split.
  - rewrite fmap_app, NoDup_app, <-!list_fmap_compose.
    rewrite (list_fmap_ext _ deleted_name deleted) by (intros; apply deletion_op_name).
    rewrite (list_fmap_ext _ fst (map_iter rest)); [split_and!; [done| |apply NoDup_fst_map_iter]|].
    + intros n Hn [[n' r] [-> Hr]]%list_elem_of_fmap. by apply Hin in Hr as (_ & _ & ?).
    + intros i [n r] Hr. simpl. rewrite transform_added_name. apply list_elem_of_lookup_2 in Hr.
      by apply Hin in Hr as [? _].
  - intros op. rewrite elem_of_app, !list_elem_of_fmap.
    split; (intros [Hop|Hop]; [left; naive_solver|right; revert Hop]).
    + intros (r & -> & [[n r'] [-> Hr]]%list_elem_of_fmap). exists r'. simpl.
      apply Hin in Hr as (<- & ? & ?). done.
    + intros (r & Hr & Hno & ->). exists r. split; [done|]. apply list_elem_of_fmap.
      exists (reusable_name r, r). split; [done|]. apply elem_of_map_iter. by rewrite Hrest, decide_False.
Qed.

Lemma added_by_name_is_some added r : r ∈ added → is_Some (added_by_name added !! reusable_name r).
Proof.
  unfold added_by_name.
  assert (∀ m : gmap string ReusableWorkload, is_Some (m !! reusable_name r) ∨ r ∈ added →
    is_Some (foldl (λ m r, <[reusable_name r := r]> m) m added !! reusable_name r)) as Hgen.
  { induction added as [|r0 added IH]; intros m Hm; simpl.
    - destruct Hm as [?|Hin]; [done|by apply elem_of_nil in Hin].
    - apply IH. destruct Hm as [Hm|[->|Hin]%elem_of_cons]; [left|left|by right].
      + destruct (decide (reusable_name r0 = reusable_name r)) as [->|];
          [by rewrite lookup_insert_eq|by rewrite lookup_insert_ne].
      + by rewrite lookup_insert_eq. }
  intros Hr. apply Hgen. by right.
Qed.
End transform.

(** ** Histories of calls *)

Section manager_calls.
Context `{IterOrder} {SC : StateConversion} {Host : Type} {RH : RuntimeHost Host}.

Inductive ManagerCall :=
  | CallServerHello (added : list WorkloadNamed) (db : WorkloadStatesMap)
  | CallUpdateWorkload (added : list WorkloadNamed) (deleted : list DeletedWorkload)
      (db : WorkloadStatesMap)
  | CallFulfilledDependencies (db : WorkloadStatesMap)
  | CallForwardResponse (r : Response)
  | CallGetLogFetchers (answers : nat → bool) (r : LogsRequest).

Definition manager_call (rm : RuntimeManager (Host := Host)) (c : ManagerCall) : RuntimeManager :=
  match c with
  | CallServerHello added db => handle_server_hello added db rm
  | CallUpdateWorkload added deleted db => handle_update_workload added deleted db rm
  | CallFulfilledDependencies db => update_workloads_on_fulfilled_dependencies db rm
  | CallForwardResponse r => forward_response r rm
  | CallGetLogFetchers answers r => (get_log_fetchers answers r rm).1
  end.

Lemma rm_wf_call c rm : rm_wf rm → rm_wf (manager_call rm c).
Proof.
  intros Hwf. destruct c; simpl; eauto with wf.
Qed.

Lemma rm_wf_calls calls rm : rm_wf rm → rm_wf (foldl manager_call rm calls).
Proof. apply foldl_preserves. intros rm' c. apply rm_wf_call. Qed.

Lemma rm_wf_new agent_name folder runtimes (h : Host) : rm_wf (runtime_manager_new agent_name folder runtimes h).
Proof. by split; intros *; rewrite ?lookup_empty, ?lookup_nil. Qed.
End manager_calls.

(** ** Properties *)

(** C30: along every history of calls the registry is sound: every workload the
    agent knows has exactly one control loop, different workloads have
    different loops, and a loop that was told to delete its workload gets no
    further command. *)
Theorem registry_invariant `{IterOrder} {SC : StateConversion} {Host} {RH : RuntimeHost Host}
    agent_name folder runtimes (h : Host) calls :
  rm_wf (foldl manager_call (runtime_manager_new agent_name folder runtimes h) calls).
Proof. apply rm_wf_calls, rm_wf_new. Qed.

(** The operations for an update message: every deleted workload becomes an
    update if a workload of its name is added as well and a deletion otherwise,
    every other added workload an update if the agent knows its name and a
    creation otherwise; every workload gets at most one operation. *)
Theorem transform_into_workload_operations_spec `{IterOrder} {SC : StateConversion} {Host}
    {RH : RuntimeHost Host} (rm : RuntimeManager (Host := Host)) added deleted :
  NoDup (deleted_name <$> deleted) →
  let ops := transform_into_workload_operations rm added deleted in
  NoDup (op_name <$> ops) ∧
  ∀ op, op ∈ ops ↔
    (∃ d, d ∈ deleted ∧ op = deletion_op (added_by_name added) d) ∨
    (∃ r, added_by_name added !! reusable_name r = Some r ∧
       reusable_name r ∉ deleted_name <$> deleted ∧ op = transform_added rm r).
Proof. apply transform_spec. Qed.

(** ** A host for the examples *)

(** The host of the examples is the list of the workloads that exist on it. *)
Definition example_host : RuntimeHost (list ReusableWorkloadState) := {|
  get_reusable_workloads := λ name _ h, (Ok (if String.eqb name "podman" then h else []), h);
  workload_id_decodes := λ _ _, true;
  input_output_new := λ _ h, (Ok (), h)
|}.

Abbreviation ExampleManager := (@RuntimeManager example_conversion (list ReusableWorkloadState)).

Definition example_manager (existing : list ReusableWorkloadState) : ExampleManager :=
  runtime_manager_new "agent_A" ["run"] {["podman"]} existing.

Definition example_update (added : list WorkloadNamed) (deleted : list DeletedWorkload)
    (db : WorkloadStatesMap) (rm : ExampleManager) : ExampleManager :=
  @handle_update_workload key_order example_conversion _ example_host added deleted db rm.

Definition example_fulfilled (db : WorkloadStatesMap) (rm : ExampleManager) : ExampleManager :=
  @update_workloads_on_fulfilled_dependencies key_order example_conversion _ example_host db rm.

Definition example_workload (name id : string) (deps : gmap string AddCondition) : WorkloadNamed :=
  {| instance_name := {| workload_name := name; agent_name := "agent_A"; instance_id := id |};
     workload := {| agent := "agent_A"; restart_policy := Never; dependencies := deps; tags := ∅;
       Api.runtime := "podman"; runtime_config := "";
       control_interface_access := {| allow_rules := []; deny_rules := [] |};
       workload_configs := ∅; workload_files := [] |} |}.

Definition example_deleted (name id : string) (deps : gmap string DeleteCondition) : DeletedWorkload :=
  {| deleted_instance_name := {| workload_name := name; agent_name := "agent_A"; instance_id := id |};
     deleted_dependencies := deps |}.

Definition example_db (name : string) (e : ExecutionStateSpec) : WorkloadStatesMap :=
  process_new_states ∅ [{| state_instance_name :=
    {| workload_name := name; agent_name := "agent_B"; instance_id := "1" |}; execution_state := e |}].

Lemma transform_into_workload_operations_spec_witness :
  let I := key_order in
  let RH := example_host in
  let SC := example_conversion in
  let added := into_reusable_workloads [example_workload "web" "2" ∅] in
  let ops := transform_into_workload_operations (example_manager []) added
               [example_deleted "web" "1" ∅] in
  NoDup (op_name <$> ops) ∧
  ops = [OpUpdate (example_workload "web" "2" ∅) (example_deleted "web" "1" ∅)].
Proof.
  intros I RH SC added ops. split; [|vm_compute; reflexivity].
  refine (proj1 (transform_into_workload_operations_spec (example_manager []) added
    [example_deleted "web" "1" ∅] _)).
  apply NoDup_singleton.
Defined.

(** ** What goes wrong *)

(** A workload that waits for its dependencies and is deleted is reported
    removed, but its creation stays in the queue: once the dependencies are
    fulfilled the deleted workload is started. *)
Theorem deleted_waiting_workload_is_started :
  let w := example_workload "web" "1" {["db" := AddCondRunning]} in
  let rm1 := example_update [w] [] ∅ (example_manager []) in
  let rm2 := example_update [] [example_deleted "web" "1" ∅] ∅ rm1 in
  let rm3 := example_fulfilled (example_db "db" running) rm2 in
  reported rm2 = [report (instance_name w) waiting_to_start; report (instance_name w) removed] ∧
  tasks rm2 = [] ∧
  (λ t, (task_workload t, task_commands t)) <$> tasks rm3 = [(w, [CommandCreate])].
Proof. split_and!; vm_compute; reflexivity. Qed.

(** A deletion that waits for another workload is not forgotten when a new
    workload of the same name is added in the meantime: the new workload
    replaces the old one at once, and is deleted when the other workload is
    gone. *)
Theorem stale_deletion_removes_new_workload :
  let w1 := example_workload "web" "1" ∅ in
  let w2 := example_workload "web" "2" ∅ in
  let client := example_db "client" running in
  let rm1 := example_update [w1] [] client (example_manager []) in
  let rm2 := example_update [] [example_deleted "web" "1" {["client" := DelCondNotPendingNorRunning]}]
               client rm1 in
  let rm3 := example_update [w2] [] client rm2 in
  let rm4 := example_fulfilled ∅ rm3 in
  task_commands <$> tasks rm3 = [[CommandCreate; CommandUpdate (Some w2) None]] ∧
  task_commands <$> tasks rm4 = [[CommandCreate; CommandUpdate (Some w2) None; CommandDelete]] ∧
  workloads rm4 = ∅.
Proof. split_and!; vm_compute; reflexivity. Qed.

(** A running workload with a control interface that the agent finds after a
    restart is resumed with its control interface opened, but its control loop
    does not know the path: until the next update every restart creates the
    workload without its control interface. *)
Theorem resumed_workload_restarts_without_control_interface :
  let n := {| workload_name := "web"; agent_name := "agent_A"; instance_id := "1" |} in
  let w := {| instance_name := n; workload :=
    {| agent := "agent_A"; restart_policy := Always; dependencies := ∅; tags := ∅;
       Api.runtime := "podman"; runtime_config := "";
       control_interface_access :=
         {| allow_rules := [StateRuleSpec RwRead ["desiredState"]]; deny_rules := [] |};
       workload_configs := ∅; workload_files := [] |} |} in
  let existing := {| reusable_state := report n running; reusable_workload_id := Some "17" |} in
  let rm := @handle_server_hello key_order example_conversion _ example_host [w] ∅
              (example_manager [existing]) in
  (option_map api_location ∘ control_interface) <$> workloads rm !! "web" =
    Some (Some ["run"; "web.1"; "control_interface"]) ∧
  (λ t, (task_workload t, task_control_interface_path t, task_commands t)) <$> tasks rm =
    [(w, None, [CommandResume])] ∧
  ∀ (RC : RuntimeConnector) (s s' : ControlLoopState) events,
    control_interface_path s = None → Forall (λ e, ¬ is_update e) events →
    run (CommandReceived (Some CommandResume) :: events) s = Continue s' →
    control_interface_path s' = None.
Proof.
  split_and!; [vm_compute; reflexivity..|]. intros RC s s' events Hs Hall Hrun.
  rewrite <-Hs. eapply run_path, Hrun. by constructor; [intros []|].
Qed.

(** When the server is restarted, every running workload is resumed by a second
    control loop: the agent talks to the new one only, but the loop from before
    goes on, because it is not told to delete the workload and its channel
    never closes (it holds a sender of its own for retries). *)
Theorem reconnect_leaves_second_control_loop :
  let w := example_workload "web" "1" ∅ in
  let rm1 := example_update [w] [] ∅ (example_manager
    [{| reusable_state := report (instance_name w) running; reusable_workload_id := Some "17" |}]) in
  let rm2 := @handle_server_hello key_order example_conversion _ example_host [w] ∅ rm1 in
  let rm3 := example_update [] [example_deleted "web" "1" ∅] ∅ rm2 in
  (λ t, (task_workload t, task_commands t)) <$> tasks rm3 =
    [(w, [CommandCreate]); (w, [CommandResume; CommandDelete])] ∧
  workloads rm3 = ∅ ∧
  ∀ (RC : RuntimeConnector) events (s : ControlLoopState),
    Forall (λ e, ¬ ends_loop e) events → ∃ s', run events s = Continue s'.
Proof.
  split_and!; [vm_compute; reflexivity..|]. intros RC events s. apply run_goes_on.
Qed.

(** A failed deletion cannot be tried again: the control loop goes on with its
    workload, but the agent no longer knows it. A second deletion of the same
    workload sends no command to the loop and is answered with removed at
    once. *)
Theorem failed_deletion_is_forgotten {SC : StateConversion} {Host}
    (rm : RuntimeManager (Host := Host)) d wl {RC : RuntimeConnector} (s : ControlLoopState) err rt :
  workloads rm !! deleted_name d = Some wl → deletion_fails s err rt →
  (∃ s', run [CommandReceived (Some CommandDelete)] s = Continue s' ∧ workload_id s' = workload_id s) ∧
  let rm1 := delete_workload d rm in
  let rm2 := delete_workload d rm1 in
  workloads rm1 !! deleted_name d = None ∧ reported rm1 = reported rm ∧
  tasks rm2 = tasks rm1 ∧ reported rm2 = reported rm ++ [report (deleted_instance_name d) removed].
Proof.
  intros Hwl (id & Hid & Hdel). split.
  - simpl. unfold delete_workload_on_runtime. simpl. rewrite Hid, Hdel. by eexists.
  - unfold deleted_name in *. cbv zeta. unfold delete_workload at 1 2 3 5. rewrite Hwl. cbn.
    rewrite lookup_delete_eq. split_and!; try done.
    + unfold delete_workload. rewrite Hwl. cbn. by rewrite lookup_delete_eq.
    + unfold delete_workload. rewrite Hwl. cbn. by rewrite lookup_delete_eq.
Qed.

Lemma failed_deletion_is_forgotten_witness :
  let rm := example_update [example_workload "web" "1" ∅] [] ∅ (example_manager []) in
  let d := example_deleted "web" "1" ∅ in
  reported (delete_workload d (delete_workload d rm)) = [report (deleted_instance_name d) removed].
Proof.
  intros rm d.
  assert (workloads rm !! deleted_name d = Some {| channel := 0; control_interface := None |}) as Hwl
    by (vm_compute; reflexivity).
  assert (@deletion_fails example_connector
    (example_loop (example_named "1" "ok" Never) (Some 0) {[0]}) (RuntimeErrorDelete "busy")
    ({[0]} : gset nat)) as Hdel by (exists 0; split; reflexivity).
  pose proof (@failed_deletion_is_forgotten example_conversion _ rm d _ example_connector _ _ _ Hwl Hdel)
    as (_ & _ & _ & _ & Hrep).
  etransitivity; [exact Hrep|]. vm_compute. reflexivity.
Defined.

(** ** Updates without waiting *)

Section convergence.
Context `{IterOrder} {SC : StateConversion} {Host : Type} {RH : RuntimeHost Host}.
Implicit Types rm : RuntimeManager (Host := Host).

(** An operation that need not wait is handed out as it is. *)
Definition ready_now (db : WorkloadStatesMap) (op : WorkloadOperation) : Prop :=
  ∃ e, pending_of op = Some e ∧ entry_step db e = (None, [op]).

Lemma enqueue_ready_now db ops s :
  Forall (ready_now db) ops →
  ∃ s', foldl (extend_ready (enqueue_operation db)) (s, []) ops = (s', ops) ∧ queue s' = queue s.
Proof.
  intros Hall. revert s. induction Hall as [|op ops (e & Hp & He) Hall IH]; intros s; [by exists s|].
  rewrite extend_ready_cons.
  destruct (enqueue_operation_spec db op e s Hp) as [Hq Hops]. rewrite He in Hq, Hops. simpl in Hq, Hops.
  destruct (IH (enqueue_operation db op s).1) as (s' & -> & Hs'). exists s'.
  simpl. by rewrite Hops, Hs', Hq.
Qed.

Lemma enqueue_filtered_ready_now db ops s :
  queue s = ∅ → Forall (ready_now db) ops →
  ∃ s', enqueue_filtered_workload_operations ops db s = (s', ops) ∧ queue s' = ∅.
Proof.
  intros Hs Hall. unfold enqueue_filtered_workload_operations.
  destruct (enqueue_ready_now db ops s Hall) as (s1 & -> & Hs1). rewrite Hs in Hs1.
  unfold next_workload_operations. rewrite Hs1, (proj2 (map_iter_nil _)) by done. simpl.
  exists (drain s1). by rewrite app_nil_r.
Qed.

(** Whether the workload is known after the operation. *)
Definition op_keeps (op : WorkloadOperation) : bool :=
  match op with OpCreate _ | OpUpdate _ _ => true | OpUpdateDeleteOnly _ | OpDelete _ => false end.

Lemma create_workload_workloads runtime_name r info rm :
  workloads (create_workload runtime_name r info rm).2 = workloads rm.
Proof.
  unfold create_workload. destruct (open_control_interface info rm) as [ci rm1] eqn:Hopen.
  by apply open_control_interface_same in Hopen as (? & _).
Qed.

Lemma dom_add r rm : dom (workloads (add_workload r rm)) = {[reusable_name r]} ∪ dom (workloads rm).
Proof.
  unfold add_workload.
  pose proof (create_workload_workloads (Api.runtime (workload (Scheduler.workload_named r))) r
    (control_interface_info_for rm (Scheduler.workload_named r)) rm) as Hw.
  destruct (create_workload _ _ _ _) as [wl rm1]. simpl in *. rewrite Hw. apply dom_insert_L.
Qed.

Lemma dom_execute op rm n :
  (∀ d, op ≠ OpUpdateDeleteOnly d) →
  n ∈ dom (workloads (execute_workload_operation rm op)) ↔
  if decide (op_name op = n) then op_keeps op = true else n ∈ dom (workloads rm).
Proof.
  intros Hop. destruct op as [r|w d|d|d]; simpl; [| |by destruct (Hop d)|].
  - rewrite dom_add. case_decide; set_solver.
  - unfold update_workload. destruct (workloads rm !! _) as [wl|] eqn:Hwl.
    + pose proof (workload_update_spec wl (Some w) (control_interface_info_for rm w) rm) as Hspec.
      destruct (workload_update _ _ _ _) as [wl' rm1]. destruct Hspec as (_ & Hw & _). simpl.
      rewrite Hw, dom_insert_L. case_decide; set_solver.
    + rewrite dom_add. unfold reusable_name. simpl. case_decide; set_solver.
  - unfold delete_workload. fold (deleted_name d). destruct (workloads rm !! _) as [wl|] eqn:Hwl; simpl.
    + rewrite dom_delete_L. case_decide; set_solver.
    + apply not_elem_of_dom in Hwl. case_decide; set_solver.
Qed.

Lemma dom_execute_all ops rm n :
  NoDup (op_name <$> ops) → Forall (λ op, ∀ d, op ≠ OpUpdateDeleteOnly d) ops →
  n ∈ dom (workloads (execute_workload_operations ops rm)) ↔
  (∃ op, op ∈ ops ∧ op_name op = n ∧ op_keeps op = true) ∨
  (n ∉ op_name <$> ops ∧ n ∈ dom (workloads rm)).
Proof.
  unfold execute_workload_operations. intros Hnd Hall. revert rm.
  induction Hall as [|op ops Hop Hall IH]; intros rm; simpl.
  { split; [intros Hn; right; split; [apply not_elem_of_nil|done]|].
    intros [(op & Hin & _)|[_ Hn]]; [by apply elem_of_nil in Hin|done]. }
  rewrite fmap_cons in Hnd. apply NoDup_cons in Hnd as [Hnotin Hnd].
  rewrite IH, dom_execute by done. rewrite not_elem_of_cons. setoid_rewrite elem_of_cons.
  case_decide as Hn.
  - subst. split.
    + intros [(op' & Hin & Heq & _)|[_ Hk]]; [|left; eauto].
      destruct Hnotin. rewrite <-Heq. by apply list_elem_of_fmap_2.
    + intros [(op' & [->|Hin] & Heq & Hk)|[[Hne _] _]]; [by right|left; eauto|by destruct Hne].
  - split.
    + intros [(op' & ?)|[??]]; [left; exists op'; naive_solver|right; done].
    + intros [(op' & [->|Hin] & Heq & Hk)|[[_ ?] ?]]; [done|left; eauto|by right].
Qed.

Lemma transform_ready_now rm added deleted db op :
  NoDup (deleted_name <$> deleted) →
  (∀ r, r ∈ added → create_fulfilled (Scheduler.workload_named r) db = true) →
  (∀ d, d ∈ deleted → delete_fulfilled d db = true) →
  op ∈ transform_into_workload_operations rm added deleted → ready_now db op.
Proof.
  intros Hnd Hadd Hdel Hop. destruct (transform_eq rm added deleted Hnd) as (rest & Heq & Hrest).
  rewrite Heq in Hop. apply elem_of_app in Hop as [Hop|Hop].
  - apply list_elem_of_fmap in Hop as (d & -> & Hd). unfold deletion_op.
    destruct (_ !! deleted_name d) as [r|] eqn:Hr; eexists; (split; [done|]); simpl;
      rewrite Hdel by done; [|done].
    apply added_by_name_key in Hr as [_ Hr]. by rewrite Hadd.
  - apply list_elem_of_fmap in Hop as (r & -> & ([n r'] & -> & Hr)%list_elem_of_fmap).
    apply elem_of_map_iter in Hr. rewrite Hrest in Hr. case_decide; [done|].
    apply added_by_name_key in Hr as [_ Hr]. unfold transform_added. simpl.
    case_bool_decide; eexists; (split; [done|]); simpl; rewrite (Hadd r') by done; [|done].
    rewrite (proj2 (delete_fulfilled_spec _ db)); [done|]. intros dep cond Hdep. simpl in Hdep.
    by rewrite lookup_empty in Hdep.
Qed.

Lemma added_names added n :
  n ∈ (λ w, workload_name (instance_name w)) <$> added ↔
  ∃ r, added_by_name (into_reusable_workloads added) !! n = Some r.
Proof.
  split.
  - intros (w & -> & Hw)%list_elem_of_fmap.
    apply (added_by_name_is_some _ {| Scheduler.workload_named := w; runtime_workload_id := None |}).
    by apply (list_elem_of_fmap_2 (λ w, {| Scheduler.workload_named := w; runtime_workload_id := None |})).
  - intros (r & [<- Hr]%added_by_name_key). apply list_elem_of_fmap in Hr as (w & -> & Hw).
    by apply (list_elem_of_fmap_2 (λ w, workload_name (instance_name w))).
Qed.

(** The operation of an added workload. *)
Lemma transform_has_op rm added deleted r :
  NoDup (deleted_name <$> deleted) → added_by_name added !! reusable_name r = Some r →
  ∃ op, op ∈ transform_into_workload_operations rm added deleted ∧
    op_name op = reusable_name r ∧ op_keeps op = true.
Proof.
  intros Hnd Hr. destruct (transform_spec rm added deleted Hnd) as [_ Hops]. cbv zeta in Hops.
  destruct (decide (reusable_name r ∈ deleted_name <$> deleted)) as [Hd|Hd].
  - apply list_elem_of_fmap in Hd as (d & Heq & Hd). exists (deletion_op (added_by_name added) d).
    split; [apply Hops; left; eauto|]. rewrite deletion_op_name. split; [done|].
    unfold deletion_op. by rewrite <-Heq, Hr.
  - exists (transform_added rm r). split; [apply Hops; right; eauto|].
    rewrite transform_added_name. split; [done|]. unfold transform_added. by case_bool_decide.
Qed.

Lemma transform_keeps rm added deleted n :
  NoDup (deleted_name <$> deleted) →
  (∃ op, op ∈ transform_into_workload_operations rm (into_reusable_workloads added) deleted ∧
     op_name op = n ∧ op_keeps op = true) ↔
  n ∈ (λ w, workload_name (instance_name w)) <$> added.
Proof.
  intros Hnd. rewrite added_names. split.
  - intros (op & Hop & <- & Hk). apply (transform_spec rm _ deleted Hnd) in Hop
      as [(d & Hd & ->)|(r & Hr & _ & ->)].
    + rewrite deletion_op_name. unfold deletion_op in Hk. case_match; [eauto|done].
    + rewrite transform_added_name. eauto.
  - intros (r & Hr). apply added_by_name_key in Hr as Hkey. destruct Hkey as [<- _].
    by apply transform_has_op.
Qed.

Lemma transform_op_names rm added deleted n :
  NoDup (deleted_name <$> deleted) →
  n ∈ op_name <$> transform_into_workload_operations rm (into_reusable_workloads added) deleted ↔
  n ∈ deleted_name <$> deleted ∨ n ∈ (λ w, workload_name (instance_name w)) <$> added.
Proof.
  intros Hnd. rewrite list_elem_of_fmap. split.
  - intros (op & -> & Hop). apply (transform_spec rm _ deleted Hnd) in Hop
      as [(d & Hd & ->)|(r & Hr & _ & ->)].
    + left. rewrite deletion_op_name. by apply list_elem_of_fmap_2.
    + right. rewrite transform_added_name. apply added_names. eauto.
  - intros [Hd|Ha].
    + apply list_elem_of_fmap in Hd as (d & -> & Hd).
      exists (deletion_op (added_by_name (into_reusable_workloads added)) d).
      rewrite deletion_op_name. split; [done|]. apply (transform_spec rm _ deleted Hnd). left. eauto.
    + apply (transform_keeps rm added deleted n Hnd) in Ha as (op & ? & ? & _). eauto.
Qed.
End convergence.

(** When nothing is waiting and the dependencies of all workloads of an update
    message are fulfilled, the message is carried out at once: the agent then
    knows exactly the added workloads and those it knew before that are not
    deleted, and still nothing is waiting. *)
Theorem update_workload_carried_out `{IterOrder} {SC : StateConversion} {Host} {RH : RuntimeHost Host}
    added deleted db (rm : RuntimeManager (Host := Host)) :
  queue (workload_queue rm) = ∅ → NoDup (deleted_name <$> deleted) →
  (∀ w, w ∈ added → create_fulfilled w db = true) →
  (∀ d, d ∈ deleted → delete_fulfilled d db = true) →
  let rm' := handle_update_workload added deleted db rm in
  ∀ n, n ∈ dom (workloads rm') ↔
    n ∈ (λ w, workload_name (instance_name w)) <$> added ∨
    (n ∉ deleted_name <$> deleted ∧ n ∈ dom (workloads rm)).
Proof.
  intros Hq Hnd Hadd Hdel rm' n. subst rm'. unfold handle_update_workload, execute_workloads.
  set (reusable := into_reusable_workloads added).
  assert (∀ r, r ∈ reusable → create_fulfilled (Scheduler.workload_named r) db = true) as Hadd'.
  { intros r (w & -> & Hw)%list_elem_of_fmap. by apply Hadd. }
  destruct (enqueue_filtered_ready_now db (transform_into_workload_operations rm reusable deleted)
    (workload_queue rm) Hq) as (q & -> & _).
  { apply Forall_forall. intros op. by apply transform_ready_now. }
  destruct (transform_spec rm reusable deleted Hnd) as [Hnames Hops]. cbv zeta in Hnames, Hops.
  set (ops := transform_into_workload_operations rm reusable deleted) in *.
  rewrite dom_execute_all; [|done|].
  2:{ apply Forall_forall. intros op [(d & _ & ->)|(r & _ & _ & ->)]%Hops d'.
      - unfold deletion_op. by case_match.
      - unfold transform_added. by case_bool_decide. }
  change (workloads (set_queue q rm)) with (workloads rm). subst ops reusable.
  rewrite (transform_op_names rm added deleted n Hnd), (transform_keeps rm added deleted n Hnd).
  destruct (decide (n ∈ (λ w, workload_name (instance_name w)) <$> added)); tauto.
Qed.

Lemma update_workload_carried_out_witness :
  let I := key_order in
  let rm := example_update [example_workload "web" "1" ∅] [] ∅ (example_manager []) in
  let rm' := example_update [example_workload "db" "1" ∅] [example_deleted "web" "1" ∅] ∅ rm in
  "db" ∈ dom (workloads rm') ∧ "web" ∉ dom (workloads rm').
Proof.
  intros I rm rm'.
  assert (∀ n, n ∈ dom (workloads rm') ↔
    n ∈ (λ w, workload_name (instance_name w)) <$> [example_workload "db" "1" ∅] ∨
    (n ∉ deleted_name <$> [example_deleted "web" "1" ∅] ∧ n ∈ dom (workloads rm))) as Hdom.
  { apply (@update_workload_carried_out key_order example_conversion _ example_host).
    - vm_compute. reflexivity.
    - apply NoDup_singleton.
    - intros w Hw. apply list_elem_of_singleton in Hw as ->. vm_compute. reflexivity.
    - intros d Hd. apply list_elem_of_singleton in Hd as ->. vm_compute. reflexivity. }
  split.
  - apply Hdom. left. left.
  - intros Hin. apply Hdom in Hin as [Hin|[Hno _]].
    + apply list_elem_of_singleton in Hin. discriminate Hin.
    + apply Hno. left.
Defined.

(** A workload that gets another runtime is sent as an update to the control
    loop it has, which acts on the old runtime: the podman connectors delete the
    old container and refuse to create one of another runtime. *)
Theorem changed_runtime_stays_on_old_runtime :
  let w1 := example_workload "web" "1" ∅ in
  let w2 := {| instance_name := instance_name (example_workload "web" "2" ∅);
    workload :=
    {| agent := "agent_A"; restart_policy := Never; dependencies := ∅; tags := ∅;
       Api.runtime := "podman-kube"; runtime_config := "";
       control_interface_access := {| allow_rules := []; deny_rules := [] |};
       workload_configs := ∅; workload_files := [] |} |} in
  let rm0 : ExampleManager := runtime_manager_new "agent_A" ["run"] {["podman"; "podman-kube"]} [] in
  let rm1 := example_update [w1] [] ∅ rm0 in
  let rm2 := example_update [w2] [example_deleted "web" "1" ∅] ∅ rm1 in
  (λ t, (task_runtime t, task_commands t)) <$> tasks rm2 =
    [("podman", [CommandCreate; CommandUpdate (Some w2) None])].
Proof. vm_compute. reflexivity. Qed.
