(* ===== verification/AgentManager.v ===== *)
(** * Ankaios agent: agent manager

    [agent/src/agent_manager.rs], [subscription_store.rs] and
    [workload_log_facade.rs]: the loop that handles the messages of the server,
    the states its own workloads report and the regular resource measurements.

    The main theorem is the invariant of that loop: whenever it waits for the
    next event, every queued operation really has to wait. *)

From stdpp Require Import base tactics gmap strings list.
From S2P Require Import Prelude Api WorkloadStates StateManipulation Messages MessageSize.
From S2P Require Import Scheduler.
From S2P Require Import WorkloadFiles RetryManager ControlLoop Authorizer ControlInterface.
From S2P Require Import RuntimeManager.

Section agent_manager.
Context `{IterOrder} {SC : StateConversion} {Host : Type} {RH : RuntimeHost Host} {LE : LogEncoding}.

(** ** State

    A subscription is the log collection that was spawned for it: the workloads
    whose logs are still collected. [to_server] is what was sent. *)

Abbreviation SubscriptionStore := (gmap string (list WorkloadInstanceNameSpec)).

Record AgentManager := {
  am_agent_name : string;
  runtime_manager : RuntimeManager (Host := Host);
  to_server : list ToServer;
  workload_state_store : WorkloadStatesMap;
  subscription_store : SubscriptionStore
}.

Definition agent_manager_new (agent_name : string) (rm : RuntimeManager) : AgentManager := {|
  am_agent_name := agent_name; runtime_manager := rm; to_server := [];
  workload_state_store := ∅; subscription_store := ∅
|}.

Definition set_runtime_manager (rm : RuntimeManager) (am : AgentManager) : AgentManager := {|
  am_agent_name := am_agent_name am; runtime_manager := rm; to_server := to_server am;
  workload_state_store := workload_state_store am; subscription_store := subscription_store am |}.
Definition set_store (db : WorkloadStatesMap) (am : AgentManager) : AgentManager := {|
  am_agent_name := am_agent_name am; runtime_manager := runtime_manager am; to_server := to_server am;
  workload_state_store := db; subscription_store := subscription_store am |}.
Definition set_subscriptions (subs : SubscriptionStore) (am : AgentManager) : AgentManager := {|
  am_agent_name := am_agent_name am; runtime_manager := runtime_manager am; to_server := to_server am;
  workload_state_store := workload_state_store am; subscription_store := subs |}.
Definition push_to_server (ms : list ToServer) (am : AgentManager) : AgentManager := {|
  am_agent_name := am_agent_name am; runtime_manager := runtime_manager am;
  to_server := to_server am ++ ms;
  workload_state_store := workload_state_store am; subscription_store := subscription_store am |}.

(** ** Subscriptions ([subscription_store.rs])

    An entry that is dropped aborts its log collection. *)

Definition add_subscription (id : string) (e : list WorkloadInstanceNameSpec)
    (subs : SubscriptionStore) : SubscriptionStore := <[id := e]> subs.
Definition delete_subscription (id : string) (subs : SubscriptionStore) : SubscriptionStore :=
  delete id subs.
Definition delete_all_subscriptions (subs : SubscriptionStore) : SubscriptionStore := ∅.

(** ** Log collection ([workload_log_facade.rs]) *)

Definition spawn_log_collection (answers : nat → bool) (request_id : string) (r : LogsRequest)
    (am : AgentManager) : AgentManager :=
  let '(rm, names) := get_log_fetchers answers r (runtime_manager am) in
  set_subscriptions (add_subscription request_id names (subscription_store am))
    (set_runtime_manager rm am).

(** The reader of one workload is gone; a workload that was requested twice has
    two. *)
Fixpoint remove_reader (n : WorkloadInstanceNameSpec) (active : list WorkloadInstanceNameSpec) :
    list WorkloadInstanceNameSpec :=
  match active with
  | [] => []
  | n' :: active => if decide (n' = n) then active else n' :: remove_reader n active
  end.

(** One completed read of the collection for a request: lines of a workload are
    forwarded and reading goes on; the end of its log is reported and the
    workload is not read again. *)
Definition consume_log (request_id : string) (n : WorkloadInstanceNameSpec)
    (log_lines : option (list string)) (active : list WorkloadInstanceNameSpec) :
    list WorkloadInstanceNameSpec * list ToServer :=
  match log_lines with
  | Some lines =>
    (active, to_server_log_entries_response request_id
       ((λ line, {| log_workload_name := Some n; log_message := line |}) <$> lines))
  | None =>
    (remove_reader n active,
     [ToServerLogsStopResponse request_id {| stopped_workload_name := Some n |}])
  end.

(** A read of the collection for [request_id] completes. *)
Definition log_lines_received (request_id : string) (n : WorkloadInstanceNameSpec)
    (log_lines : option (list string)) (am : AgentManager) : AgentManager :=
  match subscription_store am !! request_id with
  | Some active =>
    if bool_decide (n ∈ active) then
      let '(active, ms) := consume_log request_id n log_lines active in
      set_subscriptions (<[request_id := active]> (subscription_store am)) (push_to_server ms am)
    else am
  | None => am
  end.

(** The end of the task of a log collection: all its logs have ended. *)
Definition log_collection_finished (request_id : string) (am : AgentManager) : AgentManager :=
  match subscription_store am !! request_id with
  | Some [] => set_subscriptions (delete_subscription request_id (subscription_store am)) am
  | _ => am
  end.

(** ** Handlers *)

(** [true] unless the server told the agent to stop. The answers say which
    control loops return a log fetcher. *)
Definition execute_from_server_command (answers : nat → bool) (msg : FromServer)
    (am : AgentManager) : bool * AgentManager :=
  match msg with
  | ServerHello _ added =>
    (true, set_runtime_manager
       (handle_server_hello added (workload_state_store am) (runtime_manager am)) am)
  | UpdateWorkload added deleted =>
    (true, set_runtime_manager
       (handle_update_workload added deleted (workload_state_store am) (runtime_manager am)) am)
  | UpdateWorkloadState new_workload_states =>
    match new_workload_states with
    | [] => (true, am)
    | _ =>
      let am := set_store (foldl (λ db s, process_new_states db [s]) (workload_state_store am)
                             new_workload_states) am in
      (true, set_runtime_manager (update_workloads_on_fulfilled_dependencies
         (workload_state_store am) (runtime_manager am)) am)
    end
  | FromServerResponse r => (true, set_runtime_manager (forward_response r (runtime_manager am)) am)
  | FromServerStop => (false, am)
  | FromServerLogsRequest id r => (true, spawn_log_collection answers id r am)
  | FromServerLogsCancelRequest id =>
    (true, set_subscriptions (delete_subscription id (subscription_store am)) am)
  | ServerGone => (true, set_subscriptions (delete_all_subscriptions (subscription_store am)) am)
  end.

(** The new state after the hysteresis. *)
Definition own_state (db : WorkloadStatesMap) (s : WorkloadStateSpec) : WorkloadStateSpec :=
  match get_workload_state_for_workload db (state_instance_name s) with
  | Some old => {| state_instance_name := state_instance_name s;
                   execution_state := transition old (execution_state s) |}
  | None => s
  end.

Definition store_and_forward_own_workload_states (new_state : WorkloadStateSpec) (am : AgentManager) :
    AgentManager :=
  let new_state := own_state (workload_state_store am) new_state in
  let am := set_store (process_new_states (workload_state_store am) [new_state]) am in
  let am := set_runtime_manager (update_workloads_on_fulfilled_dependencies
              (workload_state_store am) (runtime_manager am)) am in
  push_to_server [ToServerUpdateWorkloadState [new_state]] am.

Definition measure_and_forward_resource_availability (cpu free_mem : N) (am : AgentManager) :
    AgentManager :=
  push_to_server [AgentLoadStatus (am_agent_name am) cpu free_mem] am.

(** ** The loop *)

Inductive AgentEvent :=
  | FromServerMsg (answers : nat → bool) (msg : FromServer)
  | OwnWorkloadState (s : WorkloadStateSpec)
  | ResourceTick (cpu free_mem : N)
  | LogLines (request_id : string) (n : WorkloadInstanceNameSpec) (lines : option (list string))
  | LogCollectionFinished (request_id : string).

Definition agent_step (e : AgentEvent) (am : AgentManager) : bool * AgentManager :=
  match e with
  | FromServerMsg answers msg => execute_from_server_command answers msg am
  | OwnWorkloadState s => (true, store_and_forward_own_workload_states s am)
  | ResourceTick cpu free_mem => (true, measure_and_forward_resource_availability cpu free_mem am)
  | LogLines id n lines => (true, log_lines_received id n lines am)
  | LogCollectionFinished id => (true, log_collection_finished id am)
  end.

(** [start]: until a stop message. *)
Fixpoint agent_start (events : list AgentEvent) (am : AgentManager) : AgentManager :=
  match events with
  | [] => am
  | e :: events => let '(go_on, am) := agent_step e am in if go_on then agent_start events am else am
  end.
End agent_manager.

(** ** Lemmas *)

Section agent_lemmas.
Context `{IterOrder} {SC : StateConversion} {Host : Type} {RH : RuntimeHost Host} {LE : LogEncoding}.
Implicit Types (rm : RuntimeManager (Host := Host)) (am : AgentManager (Host := Host)).

(** Executing operations only reports states: the queue stays. *)
Lemma add_workload_queue r rm : workload_queue (add_workload r rm) = workload_queue rm.
Proof.
  unfold add_workload, create_workload.
  destruct (open_control_interface _ rm) as [ci rm1] eqn:Hopen.
  by apply open_control_interface_same in Hopen as (_ & _ & ?).
Qed.

Lemma execute_operation_queue rm op :
  queue (workload_queue (execute_workload_operation rm op)) = queue (workload_queue rm).
Proof.
  destruct op as [r|w d|d|d]; simpl.
  - by rewrite add_workload_queue.
  - unfold update_workload. case_match; [|by rewrite add_workload_queue].
    pose proof (workload_update_spec w0 (Some w) (control_interface_info_for rm w) rm) as Hspec.
    destruct (workload_update _ _ _ _) as [wl rm1]. destruct Hspec as (_ & _ & Hq & _). simpl. by rewrite Hq.
  - unfold update_delete_only. case_match; [|done].
    pose proof (workload_update_spec w None None rm) as Hspec.
    destruct (workload_update _ _ _ _) as [wl rm1]. destruct Hspec as (_ & _ & Hq & _). simpl. by rewrite Hq.
  - unfold delete_workload. by case_match.
Qed.

Lemma execute_operations_queue ops rm :
  queue (workload_queue (execute_workload_operations ops rm)) = queue (workload_queue rm).
Proof.
  apply (foldl_same (λ rm, queue (workload_queue rm))), execute_operation_queue.
Qed.

(** The queue of the scheduler: sound, and blocked at the given states. *)
Definition queue_blocked (db : WorkloadStatesMap) (q : WorkloadOperationQueue) : Prop :=
  queue_wf q ∧ map_Forall (λ _ e, blocked db e) q.

Lemma queue_blocked_next db rm :
  queue_wf (queue (workload_queue rm)) →
  queue_blocked db (queue (workload_queue (update_workloads_on_fulfilled_dependencies db rm))).
Proof.
  intros Hwf. unfold update_workloads_on_fulfilled_dependencies.
  pose proof (queue_wf_next db (workload_queue rm) Hwf) as Hwf'.
  pose proof (λ name, next_operations_queue db (workload_queue rm) name Hwf) as Hq.
  destruct (next_workload_operations db (workload_queue rm)) as [q ops]. simpl in *.
  rewrite execute_operations_queue. split; [done|]. simpl. intros name e He.
  rewrite Hq in He. apply bind_Some in He as (e' & _ & Hstep). by eapply entry_step_blocked.
Qed.

Lemma queue_blocked_execute db added deleted rm :
  queue_blocked db (queue (workload_queue rm)) →
  queue_blocked db (queue (workload_queue (execute_workloads added deleted db rm))).
Proof.
  intros [Hwf Hb]. unfold execute_workloads, enqueue_filtered_workload_operations.
  set (ops := transform_into_workload_operations rm added deleted).
  destruct (foldl_enqueue_operation db ops (workload_queue rm) Hwf) as (Hwf1 & _ & _).
  destruct (foldl _ (workload_queue rm, []) ops) as [q1 ready]. simpl in Hwf1.
  pose proof (queue_blocked_next db (set_queue q1 rm) Hwf1) as Hn.
  unfold update_workloads_on_fulfilled_dependencies in Hn. simpl in Hn.
  destruct (next_workload_operations db q1) as [q2 next].
  rewrite execute_operations_queue in Hn |- *. exact Hn.
Qed.

Lemma resume_workload_queue runtime_name w info rm :
  workload_queue (resume_workload runtime_name w info rm).2 = workload_queue rm.
Proof.
  unfold resume_workload. destruct (open_control_interface info rm) as [ci rm1] eqn:Hopen.
  by apply open_control_interface_same in Hopen as (_ & _ & ?).
Qed.

Lemma resume_existing_queue runtime_name s existing :
  workload_queue (resume_manager (resume_existing runtime_name s existing)) =
  workload_queue (resume_manager s).
Proof.
  unfold resume_existing. destruct (_ ≫= _) as [[w l]|]; simpl.
  - unfold resume_added. cbn [resume_manager].
    pose proof (resume_workload_queue runtime_name w
      (control_interface_info_for (resume_manager s) w) (resume_manager s)) as H1.
    pose proof (resume_workload_queue runtime_name
      (old_workload_of (state_instance_name (reusable_state existing))) None (resume_manager s)) as H2.
    destruct (resume_workload _ w _ _), (resume_workload _ (old_workload_of _) _ _).
    repeat case_match; simpl in *; congruence.
  - unfold resume_unneeded. by case_match.
Qed.

Lemma resume_runtime_queue s runtime_name :
  workload_queue (resume_manager (resume_runtime s runtime_name)) = workload_queue (resume_manager s).
Proof.
  unfold resume_runtime. destruct (get_reusable_workloads _ _ _) as [[existing|err] h]; [|done].
  rewrite (foldl_same (λ s, workload_queue (resume_manager s))); [done|apply resume_existing_queue].
Qed.

Lemma queue_blocked_hello db added rm :
  queue_blocked db (queue (workload_queue rm)) →
  queue_blocked db (queue (workload_queue (handle_server_hello added db rm))).
Proof.
  intros Hb. unfold handle_server_hello, resume_and_remove_from_added_workloads. cbv zeta.
  apply queue_blocked_execute.
  by rewrite (foldl_same (λ s, workload_queue (resume_manager s)) resume_runtime);
    [|apply resume_runtime_queue].
Qed.

Lemma forward_response_queue r rm : workload_queue (forward_response r rm) = workload_queue rm.
Proof. unfold forward_response. destruct (detach_prefix_from_request_id _). by repeat case_match. Qed.

Lemma get_log_fetchers_queue answers r rm :
  workload_queue (get_log_fetchers answers r rm).1 = workload_queue rm.
Proof.
  unfold get_log_fetchers.
  apply (foldl_same (λ acc, workload_queue acc.1) _ _ (rm, [])). intros acc n. by case_match.
Qed.

(** ** Invariant *)

Record agent_wf am : Prop := {
  agent_states_wf : states_wf (workload_state_store am);
  agent_registry_wf : rm_wf (runtime_manager am);
  agent_queue_blocked :
    queue_blocked (workload_state_store am) (queue (workload_queue (runtime_manager am)))
}.

Lemma agent_wf_new agent_name folder runtimes (h : Host) :
  agent_wf (agent_manager_new agent_name (runtime_manager_new agent_name folder runtimes h)).
Proof.
  split; [apply states_wf_empty|apply rm_wf_new|split; apply map_Forall_empty].
Qed.

(** A change of the states after which the queue is looked through. *)
Lemma agent_wf_new_states db am :
  states_wf db → agent_wf am →
  agent_wf (set_runtime_manager (update_workloads_on_fulfilled_dependencies db (runtime_manager am))
    (set_store db am)).
Proof.
  intros Hdb [_ Hrm [Hq _]]. split; simpl; [done| |by apply queue_blocked_next].
  apply (rm_wf_call (CallFulfilledDependencies db)), Hrm.
Qed.

Lemma states_wf_process_all db l :
  states_wf db → states_wf (foldl (λ db s, process_new_states db [s]) db l).
Proof.
  apply foldl_preserves. intros db' s. apply (states_wf_process_new_states db' [s]).
Qed.

(** A change of the manager that leaves its queue alone. *)
Lemma agent_wf_manager rm am :
  rm_wf rm → queue_blocked (workload_state_store am) (queue (workload_queue rm)) →
  agent_wf am → agent_wf (set_runtime_manager rm am).
Proof. intros Hrm Hq [Hs _ _]. by split. Qed.

Lemma agent_wf_log_lines id n lines am : agent_wf am → agent_wf (log_lines_received id n lines am).
Proof.
  intros [? ? ?]. unfold log_lines_received. case_match; [|done]. case_bool_decide; [|done].
  destruct (consume_log _ _ _ _). by split.
Qed.

Lemma agent_wf_from_server answers msg am :
  agent_wf am → agent_wf (execute_from_server_command answers msg am).2.
Proof.
  intros Hwf. pose proof Hwf as [Hs Hrm Hq]. destruct msg as [? added|added deleted|states|r| |id r|id|];
    cbn [execute_from_server_command snd]; try done; try by split.
  - apply agent_wf_manager; [by apply rm_wf_server_hello|by apply queue_blocked_hello|done].
  - apply agent_wf_manager; [by apply rm_wf_execute_workloads|by apply queue_blocked_execute|done].
  - destruct states as [|s states]; [done|].
    exact (agent_wf_new_states _ am (states_wf_process_all _ (s :: states) Hs) Hwf).
  - apply agent_wf_manager; [by apply rm_wf_forward|by rewrite forward_response_queue|done].
  - unfold spawn_log_collection. pose proof (rm_wf_log_fetchers answers r _ Hrm) as H1.
    pose proof (get_log_fetchers_queue answers r (runtime_manager am)) as H2.
    destruct (get_log_fetchers _ _ _) as [rm names]. simpl in H1, H2. split; simpl; [done..|].
    by rewrite H2.
Qed.

Lemma agent_wf_step e am : agent_wf am → agent_wf (agent_step e am).2.
Proof.
  intros Hwf. destruct e as [answers msg|s|cpu mem|id n lines|id]; simpl.
  - by apply agent_wf_from_server.
  - destruct (agent_wf_new_states (process_new_states (workload_state_store am)
      [own_state (workload_state_store am) s]) am) as [? ? ?];
      [apply states_wf_process_new_states, Hwf|done|by split].
  - by destruct Hwf; split.
  - by apply agent_wf_log_lines.
  - unfold log_collection_finished. case_match; [|done]. case_match; [|done].
    by destruct Hwf; split.
Qed.

Lemma agent_wf_start events am : agent_wf am → agent_wf (agent_start events am).
Proof.
  revert am. induction events as [|e events IH]; intros am Hwf; simpl; [done|].
  pose proof (agent_wf_step e am Hwf) as Hstep. destruct (agent_step e am) as [[] am']; auto.
Qed.
End agent_lemmas.

(** ** Properties *)

(** C11: whatever an agent receives, whenever it waits for the next event: its
    states and its registry of workloads are well-formed, and every operation
    in its queue has to wait, because its dependencies are not fulfilled by the
    states the agent knows. *)
Theorem agent_invariant `{IterOrder} {SC : StateConversion} {Host} {RH : RuntimeHost Host}
    {LE : LogEncoding}    agent_name folder runtimes (h : Host) events :
  agent_wf (agent_start events
    (agent_manager_new agent_name (runtime_manager_new agent_name folder runtimes h))).
Proof. apply agent_wf_start, agent_wf_new. Qed.

(** What an agent tells the server about a workload of its own is what it
    stores: after a report the state of the workload is the transition of the
    stored state by the reported one, the states of all other workloads are as
    before, and exactly that new state is sent to the server. *)
Theorem own_state_stored_and_forwarded `{IterOrder} {SC : StateConversion} {Host}
    {RH : RuntimeHost Host} (s : WorkloadStateSpec) (am : AgentManager (Host := Host)) :
  let n := state_instance_name s in
  let new_state :=
    match get_workload_state_for_workload (workload_state_store am) n with
    | Some old => transition old (execution_state s)
    | None => execution_state s
    end in
  let am' := store_and_forward_own_workload_states s am in
  to_server am' = to_server am ++ [ToServerUpdateWorkloadState
    [{| state_instance_name := n; execution_state := new_state |}]] ∧
  (∀ n', get_workload_state_for_workload (workload_state_store am') n' =
     if decide (n = n') then if is_removed new_state then None else Some new_state
     else get_workload_state_for_workload (workload_state_store am) n').
Proof.
  intros n new_state am'.
  assert (own_state (workload_state_store am) s = {| state_instance_name := n; execution_state := new_state |})
    as Hown.
  { unfold own_state, new_state, n. case_match; [done|]. by destruct s. }
  subst am'. unfold store_and_forward_own_workload_states. rewrite Hown. split; [done|].
  intros n'. simpl. rewrite flat_process_new_state. simpl. done.
Qed.
