(* ===== verification/ResourceMonitor.v ===== *)
(** * Ankaios agent: resource monitor

    [agent/src/resource_monitor.rs]: the load the agent reports regularly. The
    measurement is that of the crate sysinfo, a parameter; the processor usage is
    a number of type [f32], here by sign, mantissa and exponent, that is rounded
    and cast to [u32]. *)

From Stdlib Require Import SpecFloat ZArith.
From stdpp Require Import base tactics numbers strings list.
From S2P Require Import Prelude Api WorkloadStates StateManipulation Messages MessageSize.
From S2P Require Import WorkloadFiles ControlLoop RuntimeManager AgentManager.

(** ** The crate sysinfo *)

Class SysInfo (System : Type) := {
  new_with_specifics : System;
  refresh_specifics : System → System;
  global_cpu_usage : System → spec_float;
  sys_free_memory : System → N
}.

(** ** [f32::round] and the cast to [u32] *)

Definition u32_max : Z := 2 ^ 32 - 1.

(** The value [m * 2 ^ e], rounded half away from zero. *)
Definition round_magnitude (m : positive) (e : Z) : Z :=
  if Z.leb 0 e then Z.pos m * 2 ^ e else (2 * Z.pos m + 2 ^ (- e)) / 2 ^ (1 - e).

(** The cast saturates; what is not a number becomes zero. *)
Definition round_to_u32 (f : spec_float) : Z :=
  match f with
  | S754_zero _ | S754_nan | S754_infinity true | S754_finite true _ _ => 0
  | S754_infinity false => u32_max
  | S754_finite false m e => Z.min (round_magnitude m e) u32_max
  end.

(** ** The monitor *)

Section resource_monitor.
Context {System : Type} `{SysInfo System}.

Record ResourceMonitor := { sys : System }.

Definition resource_monitor_new : ResourceMonitor := {| sys := new_with_specifics |}.

Definition sample_resource_usage (r : ResourceMonitor) : (N * N) * ResourceMonitor :=
  let sys := refresh_specifics (sys r) in
  ((Z.to_N (round_to_u32 (global_cpu_usage sys)), sys_free_memory sys), {| sys := sys |}).

(** [measure_and_forward_resource_availability]: a tick of the loop of the agent
    manager. *)
Definition resource_tick `{IterOrder} {SC : StateConversion} {Host} {RH : RuntimeHost Host}
    (r : ResourceMonitor) (am : AgentManager (Host := Host)) :
    AgentManager (Host := Host) * ResourceMonitor :=
  let '((cpu, free_mem), r) := sample_resource_usage r in
  (measure_and_forward_resource_availability cpu free_mem am, r).
End resource_monitor.

(** ** Lemmas *)

Lemma round_magnitude_nonneg m e : (0 ≤ round_magnitude m e)%Z.
Proof.
  unfold round_magnitude. case_match; [lia|].
  apply Z.div_pos; [|lia]. pose proof (Z.pow_nonneg 2 (- e)). lia.
Qed.

Lemma round_to_u32_range f : (0 ≤ round_to_u32 f ≤ u32_max)%Z.
Proof.
  unfold round_to_u32, u32_max. destruct f as [?|[]| |[] m e]; try lia.
  pose proof (round_magnitude_nonneg m e). lia.
Qed.

(** A fraction is rounded to the nearest integer, and up from a half. *)
Lemma round_fraction m e :
  (e < 0)%Z → (2 ^ (- e) * (2 * round_magnitude m e - 1) ≤ 2 * Z.pos m <
    2 ^ (- e) * (2 * round_magnitude m e + 1))%Z.
Proof.
  intros He. unfold round_magnitude. destruct (Z.leb_spec 0 e); [lia|].
  assert (2 ^ (1 - e) = 2 * 2 ^ (- e))%Z as -> by (rewrite <-Z.pow_succ_r by lia; f_equal; lia).
  assert (0 < 2 ^ (- e))%Z as Hpos by (apply Z.pow_pos_nonneg; lia).
  set (k := (2 ^ (- e))%Z) in *.
  pose proof (Z.div_mod (2 * Z.pos m + k) (2 * k) ltac:(lia)) as Hdiv.
  pose proof (Z.mod_pos_bound (2 * Z.pos m + k) (2 * k) ltac:(lia)). nia.
Qed.

(** ** Properties *)

(** The load that is reported is always a number of 32 bits: a usage between
    integers is rounded to the nearest, up from a half, an integral one that fits
    is exact, and what is negative, too large or not a number ends at a bound. *)
Theorem cpu_usage_rounded f :
  let cpu := round_to_u32 f in
  (0 ≤ cpu ≤ u32_max)%Z ∧
  match f with
  | S754_finite false m e =>
    (if Z.leb 0 e then cpu = Z.min (Z.pos m * 2 ^ e) u32_max
     else cpu = u32_max ∨
       2 ^ (- e) * (2 * cpu - 1) ≤ 2 * Z.pos m < 2 ^ (- e) * (2 * cpu + 1))%Z
  | S754_infinity false => cpu = u32_max
  | _ => cpu = 0%Z
  end.
Proof.
  cbv zeta. split; [apply round_to_u32_range|]. destruct f as [?|[]| |[] m e]; try done.
  unfold round_to_u32. destruct (Z.leb_spec 0 e) as [He|He].
  - unfold round_magnitude. by destruct (Z.leb_spec 0 e); [|lia].
  - destruct (Z.min_spec (round_magnitude m e) u32_max) as [[_ ->]|[_ ->]]; [right|by left].
    by apply round_fraction.
Qed.

(** 12.5 and 0.25 percent. *)
Example round_half : round_to_u32 (S754_finite false 13107200 (-20)) = 13%Z.
Proof. reflexivity. Qed.
Example round_quarter : round_to_u32 (S754_finite false 8388608 (-25)) = 0%Z.
Proof. reflexivity. Qed.
