(* ===== verification/Grpc.v ===== *)
(** * Ankaios: gRPC middleware

    [grpc/src]: the messages on the wire and their conversion
    ([grpc_api.rs]), the proxies that forward messages between the channels of
    the server or an agent and a connection ([from_server_proxy.rs],
    [to_server_proxy.rs]), the senders of the connected clients
    ([agent_senders_map.rs]) and the connections of agents and command line
    clients ([grpc_agent_connection.rs], [grpc_cli_connection.rs]).

    A connection, inside tonic, is the list of messages sent on it, and what is
    received from clients, including the end of a stream
    and its errors, is an event. The parsed subject alternative names of a
    client certificate are an input, and so is the unique name of a command
    line connection. *)

From Stdlib Require Import ZArith.
From stdpp Require Import base tactics gmap strings list.
From S2P Require Import Prelude Api StateManipulation Messages MessageSize.
From S2P Require Import ControlInterface.

(** ** Messages on the wire ([grpc_api.proto], [grpc_api.rs]) *)

(** Generated message types and their generated conversions, where what was
    converted to a message can be converted back; and the debug output of a list
    of names. *)
Class WireConversion := {
  WireWorkload : Type;
  workload_to_wire : WorkloadSpec → WireWorkload;
  workload_of_wire : WireWorkload → result string WorkloadSpec;
  WireWorkloadState : Type;
  state_to_wire : WorkloadStateSpec → WireWorkloadState;
  state_of_wire : WireWorkloadState → result string WorkloadStateSpec;
  unknown_enum_value : Z → string;
  debug_names : list string → string;
  workload_wire_roundtrip w : workload_of_wire (workload_to_wire w) = Ok w;
  state_wire_roundtrip s : state_of_wire (state_to_wire s) = Ok s
}.

Section wire.
Context `{IterOrder} {SC : StateConversion} {WC : WireConversion}.

Record AddedWorkload := {
  added_instance_name : option WorkloadInstanceNameSpec;
  added_workload : option WireWorkload
}.

Record WireDeletedWorkload := {
  wire_deleted_instance_name : option WorkloadInstanceNameSpec;
  wire_deleted_dependencies : gmap string Z
}.

Inductive WireFromServer :=
  | WireServerHello (added_workloads : list AddedWorkload)
  | WireUpdateWorkload (added_workloads : list AddedWorkload)
      (deleted_workloads : list WireDeletedWorkload)
  | WireUpdateWorkloadState (workload_states : list WireWorkloadState)
  | WireResponse (r : Response)
  | WireLogsRequest (request_id : string) (logs_request : option LogsRequest)
  | WireLogsCancelRequest (request_id : string).

Inductive WireToServer :=
  | WireAgentHello (agent_name protocol_version : string) (tags : option (gmap string string))
  | WireCommanderHello (protocol_version : string)
  | WireRequest (r : Request)
  | WireStates (workload_states : list WireWorkloadState)
  | WireGoodbye
  | WireAgentLoadStatus (agent_name : string) (cpu_usage free_memory : option N)
  | WireLogEntriesResponse (request_id : string) (logs : option LogEntriesResponse)
  | WireLogsStopResponse (request_id : string) (r : option LogsStopResponse).

Definition delete_condition_to_i32 (c : DeleteCondition) : Z :=
  match c with DelCondRunning => 0 | DelCondNotPendingNorRunning => 1 end.

Definition delete_condition_of_i32 (v : Z) : result string DeleteCondition :=
  match v with
  | 0%Z => Ok DelCondRunning
  | 1%Z => Ok DelCondNotPendingNorRunning
  | _ => Err (unknown_enum_value v)
  end.

Definition added_workload_from (w : WorkloadNamed) : AddedWorkload :=
  {| added_instance_name := Some (instance_name w);
     added_workload := Some (workload_to_wire (workload w)) |}.

Definition workload_named_try_from (w : AddedWorkload) : result string WorkloadNamed :=
  match added_instance_name w with
  | None => Err "No instance name"
  | Some n =>
    match added_workload w with
    | None => Err "No workload"
    | Some wire => spec ← workload_of_wire wire; Ok {| instance_name := n; workload := spec |}
    end
  end.

Definition deleted_workload_from (d : DeletedWorkload) : WireDeletedWorkload :=
  {| wire_deleted_instance_name := Some (deleted_instance_name d);
     wire_deleted_dependencies := delete_condition_to_i32 <$> deleted_dependencies d |}.

Definition deleted_workload_try_from (d : WireDeletedWorkload) : result string DeletedWorkload :=
  match wire_deleted_instance_name d with
  | None => Err "No instance name"
  | Some n =>
    deps ← try_traverse (λ _ v, delete_condition_of_i32 v) (wire_deleted_dependencies d);
    Ok {| deleted_instance_name := n; deleted_dependencies := deps |}
  end.
End wire.

Inductive GrpcMiddlewareError :=
  | StartError (msg : string)
  | ReceiveError (msg : string)
  | SendError (msg : string)
  | ConversionError (msg : string)
  | ServerNotAvailable (msg : string)
  | ConnectionInterrupted (msg : string)
  | CertificateError (msg : string)
  | TLSError (msg : string)
  | VersionMismatch (msg : string).

(** Errors of a call, as far as the code distinguishes them. *)
Inductive Status :=
  | Unauthenticated (msg : string)
  | InvalidArgument (msg : string)
  | FailedPrecondition (msg : string).

(** ** The proxies of the client ([forward_*] at the agent) *)

Section client.
Context `{IterOrder} {SC : StateConversion} {WC : WireConversion}.

(** One received message: what is sent to the agent's channel. An error is
    logged and the next message is read. *)
Definition from_proto_to_agent (value : option WireFromServer) : result GrpcMiddlewareError (list FromServer) :=
  match value with
  | None => Err (ReceiveError "Missing AgentReply.")
  | Some (WireServerHello added) =>
    added ← map_err ConversionError (try_collect workload_named_try_from added);
    Ok [ServerHello None added]
  | Some (WireUpdateWorkload added deleted) =>
    added ← map_err ConversionError (try_collect workload_named_try_from added);
    deleted ← map_err ConversionError (try_collect deleted_workload_try_from deleted);
    Ok [UpdateWorkload added deleted]
  | Some (WireUpdateWorkloadState states) =>
    states ← map_err ConversionError (try_collect state_of_wire states);
    Ok [UpdateWorkloadState states]
  | Some (WireResponse response) => Ok [FromServerResponse response]
  | Some (WireLogsRequest _ None) => Ok []
  | Some (WireLogsRequest request_id (Some r)) => Ok [FromServerLogsRequest request_id r]
  | Some (WireLogsCancelRequest request_id) => Ok [FromServerLogsCancelRequest request_id]
  end.

Definition received_by_agent (sent : list WireFromServer) : list FromServer :=
  value ← sent;
  match from_proto_to_agent (Some value) with Ok ms => ms | Err _ => [] end.

(** One message of the agent's channel to the server: sent, the end of the loop
    or a panic. *)
Inductive ClientSend := SendToServer (m : WireToServer) | StopSending | SendPanics.

Definition from_agent_to_proto (m : ToServer) : ClientSend :=
  match m with
  | ToServerRequest request => SendToServer (WireRequest request)
  | ToServerUpdateWorkloadState states => SendToServer (WireStates (state_to_wire <$> states))
  | ToServerStop => StopSending
  | AgentHello _ _ => SendPanics
  | AgentLoadStatus agent cpu free_mem =>
    SendToServer (WireAgentLoadStatus agent (Some cpu) (Some free_mem))
  | AgentGone _ => SendPanics
  | ToServerLogEntriesResponse id logs => SendToServer (WireLogEntriesResponse id (Some logs))
  | ToServerLogsStopResponse id r => SendToServer (WireLogsStopResponse id (Some r))
  | Goodbye _ => SendPanics
  end.

(** The loop over the channel; goodbye is sent at its end. *)
Fixpoint sent_to_server (l : list ToServer) : option (list WireToServer) :=
  match l with
  | [] => Some [WireGoodbye]
  | m :: l =>
    match from_agent_to_proto m with
    | SendToServer m => l ← sent_to_server l; Some (m :: l)
    | StopSending => Some [WireGoodbye]
    | SendPanics => None
    end
  end.
End client.

(** ** The server's side *)

Record Connection := { connection_name : string; is_cli : bool; connection_running : bool }.

Section server_side.
Context `{IterOrder} {SC : StateConversion} {WC : WireConversion} {V : Versions} {LE : LogEncoding}.

(** [sent] holds per connection what was sent on it. *)
Record GrpcServer := {
  agent_senders : gmap string nat;
  connections : list Connection;
  sent : list (list WireFromServer);
  to_ankaios_server : list ToServer
}.

Definition grpc_server_new : GrpcServer :=
  {| agent_senders := ∅; connections := []; sent := []; to_ankaios_server := [] |}.

Definition set_senders (m : gmap string nat) (g : GrpcServer) : GrpcServer := {|
  agent_senders := m; connections := connections g; sent := sent g;
  to_ankaios_server := to_ankaios_server g |}.
Definition send_on (c : nat) (m : WireFromServer) (g : GrpcServer) : GrpcServer := {|
  agent_senders := agent_senders g; connections := connections g;
  sent := alter (λ l, l ++ [m]) c (sent g); to_ankaios_server := to_ankaios_server g |}.
Definition push_to_ankaios (ms : list ToServer) (g : GrpcServer) : GrpcServer := {|
  agent_senders := agent_senders g; connections := connections g; sent := sent g;
  to_ankaios_server := to_ankaios_server g ++ ms |}.
Definition stop_connection (c : nat) (g : GrpcServer) : GrpcServer := {|
  agent_senders := agent_senders g;
  connections := alter (λ conn, {| connection_name := connection_name conn;
    is_cli := is_cli conn; connection_running := false |}) c (connections g);
  sent := sent g; to_ankaios_server := to_ankaios_server g |}.

(** [AgentSendersMap::insert] of the sender of a new connection. *)
Definition insert_sender (name : string) (cli : bool) (g : GrpcServer) : GrpcServer := {|
  agent_senders := <[name := length (connections g)]> (agent_senders g);
  connections := connections g ++
    [{| connection_name := name; is_cli := cli; connection_running := true |}];
  sent := sent g ++ [[]]; to_ankaios_server := to_ankaios_server g |}.

(** Sends to the connection of a name, if there is one. *)
Definition send_to (name : string) (m : WireFromServer) (g : GrpcServer) : GrpcServer :=
  match agent_senders g !! name with Some c => send_on c m g | None => g end.

(** *** Distribution of the server's messages ([from_server_proxy.rs]) *)

Definition distribute_workload_states_to_agents (states : list WorkloadStateSpec) (g : GrpcServer) :
    GrpcServer :=
  foldl (λ g name,
    let filtered := filter (λ s, agent_name (state_instance_name s) ≠ name) states in
    match filtered with
    | [] => g
    | _ => send_to name (WireUpdateWorkloadState (state_to_wire <$> filtered)) g
    end) g (map_iter (agent_senders g)).*1.

Record UpdatedWorkloads := {
  updated_added : list WorkloadNamed;
  updated_deleted : list DeletedWorkload
}.

Definition updated_default : UpdatedWorkloads := {| updated_added := []; updated_deleted := [] |}.

Abbreviation AgentWorkloadMap := (gmap string UpdatedWorkloads).

Definition push_added (m : AgentWorkloadMap) (w : WorkloadNamed) : AgentWorkloadMap :=
  let name := agent_name (instance_name w) in
  let u := default updated_default (m !! name) in
  <[name := {| updated_added := updated_added u ++ [w]; updated_deleted := updated_deleted u |}]> m.

Definition push_deleted (m : AgentWorkloadMap) (d : DeletedWorkload) : AgentWorkloadMap :=
  let name := agent_name (deleted_instance_name d) in
  let u := default updated_default (m !! name) in
  <[name := {| updated_added := updated_added u; updated_deleted := updated_deleted u ++ [d] |}]> m.

Definition get_workloads_per_agent (added : list WorkloadNamed) (deleted : list DeletedWorkload) :
    AgentWorkloadMap :=
  foldl push_deleted (foldl push_added ∅ added) deleted.

Definition distribute_workloads_to_agents (added : list WorkloadNamed)
    (deleted : list DeletedWorkload) (g : GrpcServer) : GrpcServer :=
  foldl (λ g '(name, u),
    send_to name (WireUpdateWorkload (added_workload_from <$> updated_added u)
                    (deleted_workload_from <$> updated_deleted u)) g)
    g (map_iter (get_workloads_per_agent added deleted)).

Definition group_workload_instance_names_by_agent (l : list WorkloadInstanceNameSpec) :
    gmap string (list WorkloadInstanceNameSpec) :=
  foldl (λ m w, <[agent_name w := default [] (m !! agent_name w) ++ [w]]> m) ∅ l.

Definition distribute_log_requests_to_agent (request_id : string) (r : LogsRequest) (g : GrpcServer) :
    GrpcServer :=
  foldl (λ g '(name, names),
    send_to name (WireLogsRequest request_id (Some {| log_workload_names := names;
      follow := follow r; tail_lines := tail_lines r; since := since r; until := until r |})) g)
    g (map_iter (group_workload_instance_names_by_agent (log_workload_names r))).

Definition distribute_log_cancel_requests_to_agent (request_id : string) (g : GrpcServer) :
    GrpcServer :=
  foldl (λ g name, send_to name (WireLogsCancelRequest request_id) g)
    g (map_iter (agent_senders g)).*1.

(** One message of the channel from the server; the loop ends at a stop. *)
Definition forward_from_ankaios (m : FromServer) (g : GrpcServer) : bool * GrpcServer :=
  match m with
  | ServerHello name added =>
    (true, send_to (default "" name) (WireServerHello (added_workload_from <$> added)) g)
  | UpdateWorkload added deleted => (true, distribute_workloads_to_agents added deleted g)
  | UpdateWorkloadState states => (true, distribute_workload_states_to_agents states g)
  | FromServerResponse r =>
    let '(name, id) := detach_prefix_from_request_id (response_request_id r) in
    (true, send_to name (WireResponse
       {| response_request_id := id; response_content := response_content r |}) g)
  | FromServerLogsRequest id r => (true, distribute_log_requests_to_agent id r g)
  | FromServerLogsCancelRequest id => (true, distribute_log_cancel_requests_to_agent id g)
  | ServerGone => (true, g)
  | FromServerStop => (false, g)
  end.

Fixpoint forward_all_from_ankaios (ms : list FromServer) (g : GrpcServer) : GrpcServer :=
  match ms with
  | [] => g
  | m :: ms =>
    let '(go_on, g) := forward_from_ankaios m g in
    if go_on then forward_all_from_ankaios ms g else g
  end.

(** *** Messages of the clients ([to_server_proxy.rs]) *)

(** The messages for the server and whether the loop goes on. *)
Definition to_ankaios (agent_name : string) (message : option WireToServer) :
    result GrpcMiddlewareError (bool * list ToServer) :=
  match message with
  | None => Err (ReceiveError "Missing to_server")
  | Some (WireRequest r) =>
    let id := prepend_request_id (request_id r) agent_name in
    match request_content r with
    | None => Err (ConversionError ("Request content empty for request ID: '" +:+ id +:+ "'"))
    | Some (UpdateStateRequestContent u) =>
      match new_state u with
      | Some s => Ok (true, [request_update_state id s (update_mask u)])
      | None => Err (ConversionError "No CompleteState for forwarding.")
      end
    | Some (CompleteStateRequestContent c) => Ok (true, [request_complete_state id c])
    | Some (LogsRequestContent l) => Ok (true, [request_logs id l])
    | Some LogsCancelRequestContent => Ok (true, [request_logs_cancel id])
    | Some EventsCancelRequestContent => Ok (true, [request_events_cancel id])
    end
  | Some (WireStates states) =>
    Ok (true, [ToServerUpdateWorkloadState
      (omap (λ x, match state_of_wire x with Ok s => Some s | Err _ => None end) states)])
  | Some WireGoodbye => Ok (false, [Goodbye agent_name])
  | Some (WireAgentLoadStatus name cpu free_mem) =>
    Ok (true, [AgentLoadStatus name (default 0%N cpu) (default 0%N free_mem)])
  | Some (WireLogEntriesResponse id (Some logs)) => Ok (true, to_server_log_entries_response id logs)
  | Some (WireLogEntriesResponse _ None) => Ok (true, [])
  | Some (WireLogsStopResponse id (Some r)) => Ok (true, [ToServerLogsStopResponse id r])
  | Some (WireLogsStopResponse _ None) => Ok (true, [])
  | Some (WireAgentHello _ _ _) => Ok (true, [])
  | Some (WireCommanderHello _) => Ok (true, [])
  end.

(** *** Connections *)

(** The subject alternative names a client may use. Without TLS there are no
    certificates; with TLS the list is not empty, and a certificate that cannot
    be parsed ends the server, so each is given by its DNS names, if it has
    subject alternative names at all. *)
Definition certificate_names (peer_certs : option (list (option (list string)))) :
    result Status (list string) :=
  match peer_certs with
  | None => Ok []
  | Some peer_certs =>
    if 1 <? length peer_certs then Err (Unauthenticated "Ambiguous agent certificates provided!")
    else
      match peer_certs with
      | Some sans :: _ => Ok sans
      | _ => Err (Unauthenticated "No subject alt names found in agent certificates!")
      end
  end.

Definition connect_agent (peer_certs : option (list (option (list string))))
    (first_message : option (option WireToServer)) (g : GrpcServer) : result Status GrpcServer :=
  sans ← certificate_names peer_certs;
  match first_message with
  | None | Some None => Err (InvalidArgument "Empty")
  | Some (Some (WireAgentHello agent_name protocol_version tags)) =>
    _ ← map_err FailedPrecondition (check_version_compatibility protocol_version);
    if bool_decide (sans = []) || bool_decide (agent_name ∈ sans) || bool_decide ("*" ∈ sans)
    then Ok (push_to_ankaios [AgentHello agent_name (default ∅ tags)]
               (insert_sender agent_name false g))
    else Err (Unauthenticated ("Agent name '" +:+ agent_name +:+ "' does not match SAN " +:+
                debug_names sans +:+ " in agent certificates!"))
  | Some (Some _) => Err (InvalidArgument "No AgentHello received.")
  end.

Definition connect_cli (cli_connection_name : string) (first_message : option (option WireToServer))
    (g : GrpcServer) : result Status GrpcServer :=
  match first_message with
  | None | Some None => Err (InvalidArgument "Empty")
  | Some (Some (WireCommanderHello protocol_version)) =>
    _ ← map_err FailedPrecondition (check_version_compatibility protocol_version);
    Ok (insert_sender cli_connection_name true g)
  | Some (Some _) => Err (InvalidArgument "No CommanderHello received.")
  end.

(** The end of the task of a connection. *)
Definition end_connection (c : nat) (conn : Connection) (failed : bool) (g : GrpcServer) : GrpcServer :=
  let g := stop_connection c g in
  if is_cli conn then set_senders (delete (connection_name conn) (agent_senders g)) g
  else if failed then
    push_to_ankaios [AgentGone (connection_name conn)]
      (set_senders (delete (connection_name conn) (agent_senders g)) g)
  else g.

(** What the task of a connection reads: a message, an error or the end. *)
Inductive StreamItem :=
  | StreamMessage (m : option WireToServer)
  | StreamError
  | StreamEnd.

Definition connection_step (c : nat) (item : StreamItem) (g : GrpcServer) : GrpcServer :=
  match connections g !! c with
  | Some conn =>
    if connection_running conn then
      match item with
      | StreamMessage m =>
        match to_ankaios (connection_name conn) m with
        | Ok (go_on, ms) =>
          let g := push_to_ankaios ms g in
          if go_on then g else end_connection c conn false g
        | Err _ => end_connection c conn true g
        end
      | StreamError => end_connection c conn true g
      | StreamEnd => end_connection c conn false g
      end
    else g
  | None => g
  end.

Inductive GrpcEvent :=
  | ConnectAgent (peer_certs : option (list (option (list string))))
      (first_message : option (option WireToServer))
  | ConnectCli (cli_connection_name : string) (first_message : option (option WireToServer))
  | FromClient (c : nat) (item : StreamItem)
  | FromAnkaiosServer (m : FromServer).

(** A refused connection changes nothing. *)
Definition grpc_step (g : GrpcServer) (e : GrpcEvent) : GrpcServer :=
  match e with
  | ConnectAgent peer_certs first_message =>
    match connect_agent peer_certs first_message g with Ok g => g | Err _ => g end
  | ConnectCli name first_message =>
    match connect_cli name first_message g with Ok g => g | Err _ => g end
  | FromClient c item => connection_step c item g
  | FromAnkaiosServer m => (forward_from_ankaios m g).2
  end.
End server_side.

(** ** Specification of the distribution *)

Section deliver.
Context {SC : StateConversion}.

(** What an agent is to receive for a message of the server: workloads of its
    own, states of the others' workloads, responses to its own requests. *)
Definition deliver (name : string) (m : FromServer) : list FromServer :=
  match m with
  | ServerHello n added => if decide (default "" n = name) then [ServerHello None added] else []
  | UpdateWorkload added deleted =>
    match filter (λ w, agent_name (instance_name w) = name) added,
          filter (λ d, agent_name (deleted_instance_name d) = name) deleted with
    | [], [] => []
    | a, d => [UpdateWorkload a d]
    end
  | UpdateWorkloadState states =>
    match filter (λ s, agent_name (state_instance_name s) ≠ name) states with
    | [] => []
    | states => [UpdateWorkloadState states]
    end
  | FromServerResponse r =>
    let '(n, id) := detach_prefix_from_request_id (response_request_id r) in
    if decide (n = name)
    then [FromServerResponse {| response_request_id := id; response_content := response_content r |}]
    else []
  | FromServerLogsRequest id r =>
    match filter (λ n, agent_name n = name) (log_workload_names r) with
    | [] => []
    | names => [FromServerLogsRequest id {| log_workload_names := names; follow := follow r;
        tail_lines := tail_lines r; since := since r; until := until r |}]
    end
  | FromServerLogsCancelRequest id => [FromServerLogsCancelRequest id]
  | FromServerStop | ServerGone => []
  end.
End deliver.

(** ** Lemmas *)

Section wire_lemmas.
Context `{IterOrder} {SC : StateConversion} {WC : WireConversion}.

Lemma workload_named_wire w : workload_named_try_from (added_workload_from w) = Ok w.
Proof. unfold workload_named_try_from. simpl. rewrite workload_wire_roundtrip. by destruct w. Qed.

Lemma deleted_workload_wire d : deleted_workload_try_from (deleted_workload_from d) = Ok d.
Proof.
  unfold deleted_workload_try_from. simpl. destruct d as [n deps]. simpl.
  assert (try_traverse (λ _ v, delete_condition_of_i32 v) (delete_condition_to_i32 <$> deps) = Ok deps)
    as ->; [|done].
  apply try_traverse_ok. intros k. rewrite lookup_fmap. destruct (deps !! k) as [c|]; [|done].
  exists c. split; [by destruct c|done].
Qed.

Lemma try_collect_inverse {E A B} (f : A → result E B) (h : B → A) l :
  (∀ x, f (h x) = Ok x) → try_collect f (h <$> l) = Ok l.
Proof.
  intros Hf. apply try_collect_ok. induction l; simpl; constructor; [apply Hf|done].
Qed.

Lemma received_app l1 l2 : received_by_agent (l1 ++ l2) = received_by_agent l1 ++ received_by_agent l2.
Proof. apply bind_app. Qed.

Lemma received_update added deleted :
  received_by_agent [WireUpdateWorkload (added_workload_from <$> added) (deleted_workload_from <$> deleted)] =
  [UpdateWorkload added deleted].
Proof.
  simpl. rewrite (try_collect_inverse _ _ added) by apply workload_named_wire. simpl.
  by rewrite (try_collect_inverse _ _ deleted) by apply deleted_workload_wire.
Qed.

Lemma received_hello added :
  received_by_agent [WireServerHello (added_workload_from <$> added)] = [ServerHello None added].
Proof. simpl. by rewrite (try_collect_inverse _ _ added) by apply workload_named_wire. Qed.

Lemma received_states states :
  received_by_agent [WireUpdateWorkloadState (state_to_wire <$> states)] = [UpdateWorkloadState states].
Proof. simpl. by rewrite (try_collect_inverse _ _ states) by apply state_wire_roundtrip. Qed.
End wire_lemmas.

Section distribution.
Context `{IterOrder} {SC : StateConversion} {WC : WireConversion}.
Implicit Types g : GrpcServer.

Definition sent_of g (c : nat) : list WireFromServer := default [] (sent g !! c).

(** Every sender belongs to a connection of its name. *)
Record grpc_wf g : Prop := {
  senders_known name c : agent_senders g !! name = Some c →
    ∃ conn, connections g !! c = Some conn ∧ connection_name conn = name;
  sent_length : length (sent g) = length (connections g)
}.

Lemma senders_inj g name1 name2 c :
  grpc_wf g → agent_senders g !! name1 = Some c → agent_senders g !! name2 = Some c → name1 = name2.
Proof.
  intros Hwf (c1 & H1 & <-)%(senders_known g Hwf) (c2 & H2 & <-)%(senders_known g Hwf). congruence.
Qed.

(** Sending a list of addressed messages. *)
Definition send_all (l : list (string * WireFromServer)) g : GrpcServer :=
  foldl (λ g '(name, m), send_to name m g) g l.

Definition same_but_sent g g' : Prop :=
  agent_senders g' = agent_senders g ∧ connections g' = connections g ∧
  to_ankaios_server g' = to_ankaios_server g ∧ length (sent g') = length (sent g).

#[local] Instance same_but_sent_preorder : PreOrder same_but_sent.
Proof.
  split; [done|]. intros g1 g2 g3 (? & ? & ? & ?) (? & ? & ? & ?). split_and!; congruence.
Qed.

Lemma send_to_same name m g : same_but_sent g (send_to name m g).
Proof. unfold send_to. case_match; split_and!; try done. apply length_alter. Qed.

Lemma send_all_same l g : same_but_sent g (send_all l g).
Proof.
  revert g. induction l as [|[name m] l IH]; intros g; [done|]. simpl.
  etrans; [apply (send_to_same name m)|apply IH].
Qed.

Lemma grpc_wf_same g g' : same_but_sent g g' → grpc_wf g → grpc_wf g'.
Proof. intros (Hs & Hc & _ & Hl) [Hk Hlen]. split; [by rewrite Hs, Hc|by rewrite Hl, Hc]. Qed.

Lemma sent_of_send_to name m g c :
  grpc_wf g →
  sent_of (send_to name m g) c = sent_of g c ++ (if decide (agent_senders g !! name = Some c) then [m] else []).
Proof.
  intros Hwf. unfold send_to, sent_of. destruct (agent_senders g !! name) as [c'|] eqn:Hc.
  2:{ rewrite decide_False by done. by rewrite app_nil_r. }
  simpl. destruct (decide (c' = c)) as [->|Hne].
  - rewrite decide_True by done. rewrite list_lookup_alter_eq.
    apply (senders_known g Hwf) in Hc as (conn & Hconn & _).
    apply lookup_lt_Some in Hconn. rewrite <-(sent_length g Hwf) in Hconn.
    apply lookup_lt_is_Some in Hconn as [l Hl]. by rewrite Hl.
  - rewrite decide_False by congruence. by rewrite list_lookup_alter_ne, app_nil_r.
Qed.

Lemma sent_of_send_all l g c :
  grpc_wf g →
  sent_of (send_all l g) c = sent_of g c ++
    (l ≫= λ '(name, m), if decide (agent_senders g !! name = Some c) then [m] else []).
Proof.
  revert g. induction l as [|[name m] l IH]; intros g Hwf; simpl; [by rewrite app_nil_r|].
  pose proof (send_to_same name m g) as Hsame. rewrite IH by by eapply grpc_wf_same.
  destruct Hsame as (-> & _). by rewrite sent_of_send_to, app_assoc by done.
Qed.

(** A loop that sends is a list of messages. *)
Lemma foldl_send_all {B} (step : GrpcServer → B → GrpcServer) (out : B → list (string * WireFromServer)) l g :
  (∀ g b, step g b = send_all (out b) g) → foldl step g l = send_all (l ≫= out) g.
Proof.
  intros Hstep. revert g. induction l as [|b l IH]; intros g; [done|].
  simpl. rewrite IH, Hstep. unfold send_all. by rewrite foldl_app.
Qed.

(** The entry of one key among all entries. *)
Lemma select_key {K} `{EqDecision K} {A B} (f : K → A → list B) (l : list (K * A)) k :
  NoDup l.*1 →
  (l ≫= λ '(k', v), if decide (k' = k) then f k' v else []) =
  match list_find (λ p, p.1 = k) l with Some (_, (_, v)) => f k v | None => [] end.
Proof.
  induction l as [|[k' v] l IH]; intros Hnd; [done|]. rewrite fmap_cons in Hnd.
  apply NoDup_cons in Hnd as [Hnot Hnd]. rewrite bind_cons, IH by done. simpl in *.
  case_decide as Hk.
  - subst. destruct (list_find _ l) as [[i [k2 v2]]|] eqn:Hfind; [|by rewrite app_nil_r].
    apply list_find_Some in Hfind as (Hi & Heq & _). simpl in Heq. subst.
    destruct Hnot. apply list_elem_of_fmap. exists (k, v2). split; [done|]. by eapply list_elem_of_lookup_2.
  - by destruct (list_find _ l) as [[i [k2 v2]]|].
Qed.

Lemma select_map_iter {A B} (f : string → A → list B) (m : gmap string A) k :
  (map_iter m ≫= λ '(k', v), if decide (k' = k) then f k' v else []) =
  match m !! k with Some v => f k v | None => [] end.
Proof.
  etrans; [apply (select_key f (map_iter m) k (NoDup_fst_map_iter m))|].
  destruct (list_find _ (map_iter m)) as [[i [k' v]]|] eqn:Hfind.
  - apply list_find_Some in Hfind as (Hi%list_elem_of_lookup_2 & Heq & _). simpl in Heq. subst.
    apply elem_of_map_iter in Hi. by rewrite Hi.
  - apply list_find_None in Hfind. destruct (m !! k) as [v|] eqn:Hv; [|done].
    apply elem_of_map_iter in Hv. rewrite Forall_forall in Hfind. by destruct (Hfind _ Hv).
Qed.

Lemma bind_bind {A B C} (f : A → list B) (h : B → list C) l :
  (l ≫= f) ≫= h = l ≫= λ x, f x ≫= h.
Proof. induction l as [|x l IH]; [done|]. by rewrite !bind_cons, bind_app, IH. Qed.

(** What a loop over a map that sends to its keys adds to a connection. *)
Lemma sent_of_map_loop {A} (step : GrpcServer → string * A → GrpcServer)
    (msgs : string → A → list WireFromServer) (m : gmap string A) g name c :
  grpc_wf g → agent_senders g !! name = Some c →
  (∀ g n v, step g (n, v) = send_all ((λ w, (n, w)) <$> msgs n v) g) →
  sent_of (foldl step g (map_iter m)) c = sent_of g c ++
    match m !! name with Some v => msgs name v | None => [] end.
Proof.
  intros Hwf Hc Hstep.
  rewrite (foldl_send_all step (λ '(n, v), (λ w, (n, w)) <$> msgs n v)) by (intros g' [n v]; apply Hstep).
  rewrite sent_of_send_all, bind_bind by done. f_equal. etrans; [|apply (select_map_iter msgs m name)].
  apply list_bind_ext; [|done]. intros [n v]. generalize (msgs n v) as l. intros l.
  destruct (decide (n = name)) as [->|Hne].
  - induction l as [|w l IH]; [done|]. rewrite fmap_cons, bind_cons, IH. by rewrite decide_True.
  - induction l as [|w l IH]; [done|]. rewrite fmap_cons, bind_cons, IH, decide_False; [done|].
    intros Hn. apply Hne. by eapply senders_inj.
Qed.

Lemma loop_same {B} (step : GrpcServer → B → GrpcServer) (out : B → list (string * WireFromServer)) l g :
  (∀ g b, step g b = send_all (out b) g) → same_but_sent g (foldl step g l).
Proof. intros Hstep. rewrite (foldl_send_all step out) by done. apply send_all_same. Qed.

(** *** Workloads per agent *)

Lemma push_added_spec m added name :
  foldl push_added m added !! name =
  match filter (λ w, agent_name (instance_name w) = name) added with
  | [] => m !! name
  | a => let u := default updated_default (m !! name) in
    Some {| updated_added := updated_added u ++ a; updated_deleted := updated_deleted u |}
  end.
Proof.
  revert m. induction added as [|w added IH]; intros m; [done|]. simpl foldl. rewrite IH, filter_cons.
  unfold push_added. case_decide as Hw.
  - rewrite Hw, lookup_insert_eq. simpl. destruct (filter _ added) as [|w' a]; [done|].
    by rewrite <-app_assoc.
  - by rewrite lookup_insert_ne.
Qed.

Lemma push_deleted_spec m deleted name :
  foldl push_deleted m deleted !! name =
  match filter (λ d, agent_name (deleted_instance_name d) = name) deleted with
  | [] => m !! name
  | d => let u := default updated_default (m !! name) in
    Some {| updated_added := updated_added u; updated_deleted := updated_deleted u ++ d |}
  end.
Proof.
  revert m. induction deleted as [|d deleted IH]; intros m; [done|]. simpl foldl. rewrite IH, filter_cons.
  unfold push_deleted. case_decide as Hw.
  - rewrite Hw, lookup_insert_eq. simpl. destruct (filter _ deleted) as [|d' l]; [done|].
    by rewrite <-app_assoc.
  - by rewrite lookup_insert_ne.
Qed.

Lemma workloads_per_agent_spec added deleted name :
  get_workloads_per_agent added deleted !! name =
  match filter (λ w, agent_name (instance_name w) = name) added,
        filter (λ d, agent_name (deleted_instance_name d) = name) deleted with
  | [], [] => None
  | a, d => Some {| updated_added := a; updated_deleted := d |}
  end.
Proof.
  unfold get_workloads_per_agent. rewrite push_deleted_spec, push_added_spec, lookup_empty.
  by destruct (filter _ added), (filter _ deleted).
Qed.

Lemma group_names_spec l name :
  group_workload_instance_names_by_agent l !! name =
  match filter (λ n, agent_name n = name) l with [] => None | names => Some names end.
Proof.
  unfold group_workload_instance_names_by_agent.
  assert (∀ m : gmap string (list WorkloadInstanceNameSpec),
    foldl (λ m w, <[agent_name w := default [] (m !! agent_name w) ++ [w]]> m) m l !! name =
    match filter (λ n, agent_name n = name) l with
    | [] => m !! name
    | names => Some (default [] (m !! name) ++ names)
    end) as Hgen; [|by rewrite Hgen, lookup_empty; destruct (filter _ l)].
  induction l as [|w l IH]; intros m; [done|]. simpl foldl. rewrite IH, filter_cons. case_decide as Hw.
  - rewrite Hw, lookup_insert_eq. simpl. destruct (filter _ l) as [|w' a]; [done|]. by rewrite <-app_assoc.
  - by rewrite lookup_insert_ne.
Qed.

(** *** One message *)

Lemma send_to_all name m g : send_to name m g = send_all [(name, m)] g.
Proof. done. Qed.

Lemma states_step states g name :
  (let filtered := filter (λ s, agent_name (state_instance_name s) ≠ name) states in
   match filtered with
   | [] => g
   | _ => send_to name (WireUpdateWorkloadState (state_to_wire <$> filtered)) g
   end) =
  send_all (match filter (λ s, agent_name (state_instance_name s) ≠ name) states with
            | [] => []
            | filtered => [(name, WireUpdateWorkloadState (state_to_wire <$> filtered))]
            end) g.
Proof. cbv zeta. by destruct (filter _ states). Qed.

Lemma forward_same m g : same_but_sent g (forward_from_ankaios m g).2.
Proof.
  destruct m as [n added|added deleted|states|r| |id r|id|]; cbn [forward_from_ankaios snd];
    try apply send_to_same; try done.
  - apply (loop_same _ (λ '(name, u), [(name, WireUpdateWorkload (added_workload_from <$> updated_added u)
      (deleted_workload_from <$> updated_deleted u))])). by intros g' [name u].
  - eapply loop_same. intros g' name. apply states_step.
  - destruct (detach_prefix_from_request_id _). apply send_to_same.
  - eapply (loop_same _ (λ '(name, names), [(name, WireLogsRequest id (Some _))])).
    by intros g' [name names].
  - apply (loop_same _ (λ name, [(name, WireLogsCancelRequest id)])). done.
Qed.

Lemma send_to_new name m g n c :
  grpc_wf g → agent_senders g !! name = Some c →
  sent_of (send_to n m g) c = sent_of g c ++ (if decide (n = name) then [m] else []).
Proof.
  intros Hwf Hc. rewrite sent_of_send_to by done. f_equal.
  destruct (decide (n = name)) as [->|Hne]; [by rewrite decide_True|].
  rewrite decide_False; [done|]. intros Hn. apply Hne. by eapply senders_inj.
Qed.

(** The message the agent gets is the one the specification delivers. *)
Lemma forward_delivers m g name c :
  grpc_wf g → agent_senders g !! name = Some c →
  ∃ new, sent_of (forward_from_ankaios m g).2 c = sent_of g c ++ new ∧
    received_by_agent new = deliver name m.
Proof.
  intros Hwf Hc. destruct m as [n added|added deleted|states|r| |id r|id|];
    cbn [forward_from_ankaios snd deliver].
  - rewrite (send_to_new name) by done. eexists. split; [done|].
    case_decide; [apply received_hello|done].
  - unfold distribute_workloads_to_agents.
    rewrite (sent_of_map_loop _ (λ _ u, [WireUpdateWorkload (added_workload_from <$> updated_added u)
      (deleted_workload_from <$> updated_deleted u)]) _ _ name) by done.
    eexists. split; [done|]. rewrite workloads_per_agent_spec.
    repeat case_match; simplify_eq; try done; apply received_update.
  - unfold distribute_workload_states_to_agents. rewrite foldl_fmap.
    rewrite (sent_of_map_loop _ (λ n _,
      match filter (λ s, agent_name (state_instance_name s) ≠ n) states with
      | [] => []
      | filtered => [WireUpdateWorkloadState (state_to_wire <$> filtered)]
      end) _ _ name) by (done || by intros g' n v; simpl; destruct (filter _ states)).
    eexists. split; [done|]. rewrite Hc. destruct (filter _ states); [done|apply received_states].
  - destruct (detach_prefix_from_request_id _) as [n id]. cbn [snd]. rewrite (send_to_new name) by done.
    eexists. split; [done|]. by case_decide.
  - exists []. by rewrite app_nil_r.
  - unfold distribute_log_requests_to_agent.
    rewrite (sent_of_map_loop _ (λ _ names, [WireLogsRequest id (Some {| log_workload_names := names;
      follow := follow r; tail_lines := tail_lines r; since := since r; until := until r |})]) _ _ name) by done.
    eexists. split; [done|]. rewrite group_names_spec. by destruct (filter _ _).
  - unfold distribute_log_cancel_requests_to_agent. rewrite foldl_fmap.
    rewrite (sent_of_map_loop _ (λ _ _, [WireLogsCancelRequest id]) _ _ name) by done.
    eexists. split; [done|]. by rewrite Hc.
  - exists []. by rewrite app_nil_r.
Qed.
End distribution.

Section grpc_invariant.
Context `{IterOrder} {SC : StateConversion} {WC : WireConversion} {V : Versions} {LE : LogEncoding}.
Implicit Types g : GrpcServer.

Lemma grpc_wf_new : grpc_wf grpc_server_new.
Proof. by split. Qed.

Lemma grpc_wf_push ms g : grpc_wf g → grpc_wf (push_to_ankaios ms g).
Proof. intros [? ?]. by split. Qed.

Lemma grpc_wf_insert name cli g : grpc_wf g → grpc_wf (insert_sender name cli g).
Proof.
  intros [Hk Hlen]. split; simpl; [|by rewrite !length_app, Hlen].
  intros n c. rewrite lookup_insert_Some. intros [[<- <-]|[Hne (conn & Hc & Hn)%Hk]].
  - eexists. split; [by apply list_lookup_middle|done].
  - exists conn. split; [|done]. rewrite lookup_app_l; [done|by eapply lookup_lt_Some].
Qed.

Lemma grpc_wf_stop c g : grpc_wf g → grpc_wf (stop_connection c g).
Proof.
  intros [Hk Hlen]. split; simpl; [|by rewrite length_alter].
  intros n c' (conn & Hc & Hn)%Hk. destruct (decide (c = c')) as [->|Hne].
  - rewrite list_lookup_alter_eq, Hc. by eexists.
  - rewrite list_lookup_alter_ne by done. eauto.
Qed.

Lemma grpc_wf_delete name g : grpc_wf g → grpc_wf (set_senders (delete name (agent_senders g)) g).
Proof. intros [Hk Hlen]. split; simpl; [|done]. intros n c [_ Hc]%lookup_delete_Some. by apply Hk. Qed.

Lemma grpc_wf_end c conn failed g : grpc_wf g → grpc_wf (end_connection c conn failed g).
Proof.
  intros Hwf. unfold end_connection. repeat case_match;
    repeat first [apply grpc_wf_push|apply grpc_wf_delete|by apply grpc_wf_stop].
Qed.

Lemma grpc_wf_connection c item g : grpc_wf g → grpc_wf (connection_step c item g).
Proof.
  intros Hwf. unfold connection_step.
  repeat case_match; auto using grpc_wf_end, grpc_wf_push.
Qed.

Lemma grpc_wf_step g e : grpc_wf g → grpc_wf (grpc_step g e).
Proof.
  intros Hwf. destruct e as [certs first|name first|c item|m]; cbn [grpc_step].
  - unfold connect_agent. destruct (certificate_names certs) as [sans|]; [|done]. simpl.
    destruct first as [[[agent version tags| | | | | | |]|]|]; try done.
    destruct (check_version_compatibility version); [|done]. simpl.
    destruct (_ || _); [|done]. by apply grpc_wf_push, grpc_wf_insert.
  - unfold connect_cli. destruct first as [[[|version| | | | | |]|]|]; try done.
    destruct (check_version_compatibility version); [|done]. simpl. by apply grpc_wf_insert.
  - by apply grpc_wf_connection.
  - eapply grpc_wf_same, Hwf. apply forward_same.
Qed.

Lemma grpc_wf_events events : grpc_wf (foldl grpc_step grpc_server_new events).
Proof. apply foldl_preserves, grpc_wf_new. intros g e. apply grpc_wf_step. Qed.

(** Where the requests that reach the server come from. *)
Definition request_of_connection g (m : ToServer) : Prop :=
  match m with
  | ToServerRequest r => ∃ conn id, conn ∈ connections g ∧
      request_id r = prepend_request_id id (connection_name conn) ∧ request_content r ≠ None
  | _ => True
  end.

Definition requests_named g : Prop := Forall (request_of_connection g) (to_ankaios_server g).

Lemma request_of_connection_mono g g' m :
  (∀ conn, conn ∈ connections g → ∃ conn', conn' ∈ connections g' ∧
     connection_name conn' = connection_name conn) →
  request_of_connection g m → request_of_connection g' m.
Proof.
  intros Hconn. destruct m; simpl; try done. intros (conn & id & (conn' & Hin & Hn)%Hconn & Hid & ?).
  exists conn', id. by rewrite Hn.
Qed.

Lemma to_ankaios_requests g conn m go_on ms :
  conn ∈ connections g → to_ankaios (connection_name conn) m = Ok (go_on, ms) →
  Forall (request_of_connection g) ms.
Proof.
  intros Hin. assert (∀ m : ToServer, (∀ r, m ≠ ToServerRequest r) → request_of_connection g m) as Hother.
  { intros m' Hm. destruct m'; try done. by destruct (Hm r). }
  unfold to_ankaios. destruct m as [[]|]; [..|done]; intros Hres; simplify_run.
  - constructor.
  - constructor.
  - destruct r as [id [[[[s|] mask]|c|l| |]|]]; simpl in *; simplify_run;
      (apply Forall_singleton; exists conn, id; split_and!; done).
  - apply Forall_singleton. by apply Hother.
  - apply Forall_singleton. by apply Hother.
  - apply Forall_singleton. by apply Hother.
  - destruct logs as [logs|]; simplify_run; [|constructor].
    apply Forall_fmap, Forall_true. intros l. by apply Hother.
  - destruct r as [r|]; simplify_run; [|constructor]. apply Forall_singleton. by apply Hother.
Qed.

Lemma stop_connection_names c g conn :
  conn ∈ connections g → ∃ conn', conn' ∈ connections (stop_connection c g) ∧
    connection_name conn' = connection_name conn.
Proof.
  intros (i & Hi)%list_elem_of_lookup_1. simpl. destruct (decide (c = i)) as [->|Hne].
  - eexists. split; [apply (list_elem_of_lookup_2 _ i); by rewrite list_lookup_alter_eq, Hi|done].
  - exists conn. split; [|done]. apply (list_elem_of_lookup_2 _ i). by rewrite list_lookup_alter_ne.
Qed.

Lemma requests_named_same g g' :
  connections g' = connections g → to_ankaios_server g' = to_ankaios_server g →
  requests_named g → requests_named g'.
Proof.
  intros Hc Ht Hall. unfold requests_named. rewrite Ht. eapply Forall_impl; [exact Hall|].
  intros m. apply request_of_connection_mono. rewrite Hc. eauto.
Qed.

Lemma requests_named_push g ms :
  requests_named g → Forall (request_of_connection g) ms → requests_named (push_to_ankaios ms g).
Proof. intros Hall Hms. by apply Forall_app. Qed.

Lemma requests_named_end c conn failed g :
  requests_named g → requests_named (end_connection c conn failed g).
Proof.
  intros Hall. assert (requests_named (stop_connection c g)) as Hstop.
  { eapply Forall_impl; [exact Hall|]. intros m. apply request_of_connection_mono, stop_connection_names. }
  unfold end_connection. repeat case_match; [by eapply requests_named_same| |done].
  apply requests_named_push; [by eapply requests_named_same|by apply Forall_singleton].
Qed.

Lemma requests_named_step g e : requests_named g → requests_named (grpc_step g e).
Proof.
  intros Hall.
  assert (∀ name cli, requests_named (insert_sender name cli g)) as Hinsert.
  { intros name cli. eapply Forall_impl; [exact Hall|]. intros m. apply request_of_connection_mono.
    intros conn Hconn. exists conn. split; [|done]. apply elem_of_app. by left. }
  destruct e as [certs first|name first|c item|m]; cbn [grpc_step].
  - unfold connect_agent. destruct (certificate_names certs) as [sans|]; [|done]. simpl.
    destruct first as [[[agent version tags| | | | | | |]|]|]; try done.
    destruct (check_version_compatibility version); [|done]. simpl.
    destruct (_ || _); [|done]. apply requests_named_push; [done|by apply Forall_singleton].
  - unfold connect_cli. destruct first as [[[|version| | | | | |]|]|]; try done.
    destruct (check_version_compatibility version); [apply Hinsert|done].
  - unfold connection_step. destruct (connections g !! c) as [conn|] eqn:Hc; [|done].
    destruct (connection_running conn); [|done]. apply list_elem_of_lookup_2 in Hc.
    destruct item as [m| |]; [|by apply requests_named_end..].
    destruct (to_ankaios (connection_name conn) m) as [[go_on ms]|] eqn:Hm; [|by apply requests_named_end].
    assert (requests_named (push_to_ankaios ms g)) as Hpush.
    { apply requests_named_push; [done|]. by eapply to_ankaios_requests. }
    destruct go_on; [done|by apply requests_named_end].
  - destruct (forward_same m g) as (_ & Hc & Ht & _). by eapply requests_named_same.
Qed.
End grpc_invariant.

#[export] Hint Resolve grpc_wf_new grpc_wf_step grpc_wf_events : wf.

(** ** Properties *)

(** C39: the connections of the middleware are sound whatever happens: the sender
    that is used for a name always belongs to a connection that was opened under
    that name, so no message is sent to a client of another name. *)
Theorem grpc_invariant `{IterOrder} {SC : StateConversion} {WC : WireConversion} {V : Versions}
    {LE : LogEncoding} events :
  grpc_wf (foldl grpc_step grpc_server_new events).
Proof. apply grpc_wf_events. Qed.

(** C37: while an agent is connected it receives, in order, exactly its share of
    what the server sends: the workloads to be added and deleted on it, the
    states of the workloads of other agents, the responses to its own requests
    and the log requests for its workloads; nothing is lost by the conversion to
    messages and back. *)
Theorem agent_receives_its_share `{IterOrder} {SC : StateConversion} {WC : WireConversion} ms g name c :
  grpc_wf g → agent_senders g !! name = Some c → FromServerStop ∉ ms →
  ∃ new, sent_of (forward_all_from_ankaios ms g) c = sent_of g c ++ new ∧
    received_by_agent new = ms ≫= deliver name.
Proof.
  revert g. induction ms as [|m ms IH]; intros g Hwf Hc Hstop.
  { exists []. by rewrite app_nil_r. }
  apply not_elem_of_cons in Hstop as [Hm Hstop].
  destruct (forward_delivers m g name c Hwf Hc) as (new1 & Hnew1 & Hd1).
  pose proof (forward_same m g) as Hsame. simpl forward_all_from_ankaios.
  assert ((forward_from_ankaios m g).1 = true) as Hgo.
  { destruct m as [| | |r| | | |]; try done. simpl. by destruct (detach_prefix_from_request_id _). }
  destruct (forward_from_ankaios m g) as [go_on g1]. simpl in *. subst go_on.
  destruct (IH g1) as (new2 & Hnew2 & Hd2); [by eapply grpc_wf_same|by destruct Hsame as (-> & _)|done|].
  exists (new1 ++ new2). rewrite Hnew2, Hnew1, app_assoc. split; [done|].
  by rewrite received_app, Hd1, Hd2.
Qed.

(** Every request that reaches the server carries the name of the connection it
    came from as the prefix of its id, whatever id the client chose, and has a
    content. *)
Theorem requests_carry_connection_name `{IterOrder} {SC : StateConversion} {WC : WireConversion}
    {V : Versions} {LE : LogEncoding} events r :
  let g := foldl grpc_step grpc_server_new events in
  ToServerRequest r ∈ to_ankaios_server g →
  ∃ conn id, conn ∈ connections g ∧
    request_id r = prepend_request_id id (connection_name conn) ∧ request_content r ≠ None.
Proof.
  intros g Hr. assert (requests_named g) as Hall.
  { apply foldl_preserves; [intros g' e; apply requests_named_step|constructor]. }
  unfold requests_named in Hall. rewrite Forall_forall in Hall. by apply Hall in Hr.
Qed.

(** ** Examples *)

Definition example_wire : WireConversion := {|
  WireWorkload := WorkloadSpec;
  workload_to_wire := λ w, w;
  workload_of_wire := λ w, Ok w;
  WireWorkloadState := WorkloadStateSpec;
  state_to_wire := λ s, s;
  state_of_wire := λ s, Ok s;
  unknown_enum_value := λ _, "unknown";
  debug_names := λ l, "[" +:+ String.concat ", " l +:+ "]";
  workload_wire_roundtrip := λ w, eq_refl;
  state_wire_roundtrip := λ s, eq_refl
|}.

Abbreviation ExampleEvent := (@GrpcEvent example_conversion example_wire).

Definition example_grpc (events : list ExampleEvent) : @GrpcServer example_conversion example_wire :=
  foldl (@grpc_step key_order example_conversion example_wire example_versions
    (example_encoding (λ _, 0%N))) grpc_server_new events.

(** An agent that connects without certificates. *)
Definition example_connect (name : string) : ExampleEvent :=
  @ConnectAgent example_conversion example_wire None
    (Some (Some (@WireAgentHello example_conversion example_wire name "1.0.0" None))).

Definition example_added (agent name : string) : WorkloadNamed :=
  {| instance_name := {| workload_name := name; agent_name := agent; instance_id := "1" |};
     workload := workload_default |}.

Lemma agent_receives_its_share_witness :
  let I := key_order in
  let SC := example_conversion in
  let WC := example_wire in
  let g := example_grpc [example_connect "agent_A"; example_connect "agent_B"] in
  let m := UpdateWorkload [example_added "agent_A" "web"; example_added "agent_B" "db"] [] in
  ∃ new, sent_of (forward_all_from_ankaios [m] g) 0 = sent_of g 0 ++ new ∧
    received_by_agent new = [UpdateWorkload [example_added "agent_A" "web"] []].
Proof.
  intros I SC WC g m.
  destruct (agent_receives_its_share [m] g "agent_A" 0) as (new & Hnew & Hreceived).
  - apply (grpc_wf_events (V := example_versions) (LE := example_encoding (λ _, 0%N))).
  - vm_compute. reflexivity.
  - intros Hin%list_elem_of_singleton. discriminate.
  - exists new. split; [exact Hnew|]. rewrite Hreceived. vm_compute. reflexivity.
Defined.

Lemma requests_carry_connection_name_witness :
  let r := {| request_id := "agent_B@web@1";
              request_content := Some (@LogsCancelRequestContent example_conversion) |} in
  let g := example_grpc [example_connect "agent_A";
    @FromClient example_conversion example_wire 0 (@StreamMessage example_conversion example_wire (Some (@WireRequest example_conversion example_wire r)))] in
  to_ankaios_server g = [AgentHello "agent_A" ∅; request_logs_cancel "agent_A@agent_B@web@1"] ∧
  ∃ conn id, conn ∈ connections g ∧
    "agent_A@agent_B@web@1" = prepend_request_id id (connection_name conn).
Proof.
  intros r g. split; [vm_compute; reflexivity|].
  destruct (@requests_carry_connection_name key_order example_conversion example_wire example_versions
    (example_encoding (λ _, 0%N)) [example_connect "agent_A";
    @FromClient example_conversion example_wire 0 (@StreamMessage example_conversion example_wire (Some (@WireRequest example_conversion example_wire r)))]
    {| request_id := "agent_A@agent_B@web@1"; request_content := Some LogsCancelRequestContent |})
    as (conn & id & Hin & Hid & _).
  - vm_compute. right. left.
  - exists conn, id. split; [exact Hin|exact Hid].
Defined.

(** ** What goes wrong *)

(** An agent that connects anew before its old connection is found to be broken
    loses its new connection: when the error of the old one is noticed, the
    sender of the new one is removed and the server is told that the agent is
    gone, although it is connected. *)
Theorem late_error_removes_new_connection :
  let g1 := example_grpc [example_connect "agent_A"; example_connect "agent_A"] in
  let g2 := example_grpc [example_connect "agent_A"; example_connect "agent_A";
              @FromClient example_conversion example_wire 0 StreamError] in
  agent_senders g1 = {["agent_A" := 1]} ∧
  connection_running <$> connections g2 !! 1 = Some true ∧ agent_senders g2 = ∅ ∧
  to_ankaios_server g2 = [AgentHello "agent_A" ∅; AgentHello "agent_A" ∅; AgentGone "agent_A"].
Proof. split_and!; vm_compute; reflexivity. Qed.

(** An update request without a state, which a workload can send through its
    control interface, ends the connection of its agent. *)
Theorem malformed_request_disconnects_agent :
  let r := {| request_id := "web@1"; request_content := Some (@UpdateStateRequestContent
    example_conversion {| new_state := None; update_mask := ["desiredState.workloads.web"] |}) |} in
  let g := example_grpc [example_connect "agent_A";
    @FromClient example_conversion example_wire 0 (@StreamMessage example_conversion example_wire (Some (@WireRequest example_conversion example_wire r)))] in
  from_agent_to_proto (WC := example_wire) (ToServerRequest r) = SendToServer (WireRequest r) ∧
  agent_senders g = ∅ ∧ to_ankaios_server g = [AgentHello "agent_A" ∅; AgentGone "agent_A"].
Proof. split_and!; vm_compute; reflexivity. Qed.

(** A client certificate whose subject alternative names hold no DNS name lets
    its owner connect under the name of any agent. *)
Theorem certificate_without_names_allows_any_agent `{SC : StateConversion, WC : WireConversion, V : Versions}
    (g : GrpcServer) agent version tags :
  check_version_compatibility version = Ok () →
  connect_agent (Some [Some []]) (Some (Some (WireAgentHello agent version tags))) g =
  Ok (push_to_ankaios [AgentHello agent (default ∅ tags)] (insert_sender agent false g)).
Proof. intros Hv. unfold connect_agent. simpl. by rewrite Hv. Qed.
