(* ===== verification/Security.v ===== *)
(** * Ankaios: certificates and keys

    The [security] module of [grpc/src/lib.rs]: which configurations of mutual
    TLS are accepted, and the check of the permissions of the files that hold
    certificates and private keys. The files are a parameter. *)

From Stdlib Require Import NArith Lia Ascii.
From stdpp Require Import base tactics numbers strings list.
From S2P Require Import Prelude Grpc.

Record TLSConfig := { ca_pem : string; crt_pem : string; key_pem : string }.

Definition is_config_conflicting (insecure : bool) (ca_pem crt_pem key_pem : option string) :
    result string () :=
  if insecure && (bool_decide (is_Some ca_pem) || bool_decide (is_Some crt_pem) ||
                  bool_decide (is_Some key_pem))
  then Err "Insecure and secure flags specified at the same time. Defaulting to secure communication."
  else Ok ().

Definition tls_config_new (insecure : bool) (ca_pem crt_pem key_pem : option string) :
    result string (option TLSConfig) :=
  match insecure, ca_pem, crt_pem, key_pem with
  | _, Some ca_pem, Some crt_pem, Some key_pem =>
    Ok (Some {| ca_pem := ca_pem; crt_pem := crt_pem; key_pem := key_pem |})
  | true, None, None, None => Ok None
  | _, ca_pem, crt_pem, key_pem =>
    let unwrap_or_empty s := default (in_quotes "") s in
    Err ("Either provide mTLS config via the '--ca_pem " +:+ unwrap_or_empty ca_pem +:+
         "', '--crt_pem " +:+ unwrap_or_empty crt_pem +:+ "' and '--key_pem " +:+
         unwrap_or_empty key_pem +:+
         "' options or deactivate mTLS with the '--insecure' option!")
  end.

(** ** Reading *)

Inductive PemFileType := PrivateKey | Certificate.

(** An open file: its permissions and what reading it gives. *)
Record OpenFile := { permissions : result string N; contents : result string string }.

(** The files, and how a path is printed for debugging. *)
Class PemFiles := {
  file_open : string → result string OpenFile;
  debug_file_path : string → string
}.

(** [{:o}]; the modes have three digits. *)
Fixpoint octal (fuel : nat) (n : N) : string :=
  let digit := String (ascii_of_N (48 + n mod 8)) "" in
  match fuel with
  | O => digit
  | S fuel => if (n <? 8)%N then digit else octal fuel (n / 8) +:+ digit
  end.

Section read_pem_file.
Context `{PemFiles}.
Local Open Scope N_scope.

Definition certificate_error {A} (r : result string A) (what path : string) :
    result GrpcMiddlewareError A :=
  map_err (λ err, CertificateError ("Error during " +:+ what +:+ " the given file " +:+
    debug_file_path path +:+ ": " +:+ err)) r.

(** 384 and 256 are 0o600 and 0o400; 18 is 0o022 and 73 is 0o111. *)
Definition check_permissions (path : string) (mode : N) (file_type : PemFileType) :
    result GrpcMiddlewareError () :=
  match file_type with
  | PrivateKey =>
    if negb (mode =? 384) && negb (mode =? 256) then
      Err (CertificateError ("Private key file " +:+ debug_file_path path +:+
        " has insecure permissions " +:+ octal 3 mode +:+
        ". Private keys must have permissions 0600 or 0400. Use 'chmod 0600 <file>' to fix this."))
    else Ok ()
  | Certificate =>
    if (N.land mode 256 =? 0) || negb (N.land mode 18 =? 0) || negb (N.land mode 73 =? 0) then
      Err (CertificateError ("Certificate file " +:+ debug_file_path path +:+
        " has insecure permissions " +:+ octal 3 mode +:+
        ". Certificates must have permissions 0600 or 0400. Use 'chmod 0600 <file>' to fix this."))
    else Ok ()
  end.

Definition read_pem_file (pem_file_path : string) (file_type : PemFileType) :
    result GrpcMiddlewareError string :=
  file ← certificate_error (file_open pem_file_path) "opening" pem_file_path;
  permissions ← certificate_error (permissions file) "getting permissions of" pem_file_path;
  let mode := N.land permissions 511 in
  _ ← check_permissions pem_file_path mode file_type;
  certificate_error (contents file) "reading" pem_file_path.
End read_pem_file.

(** ** Lemmas *)

(** Communication is insecure exactly if this was asked for and no certificate
    or key was given. *)
Lemma tls_config_new_spec insecure ca crt key r :
  tls_config_new insecure ca crt key = Ok r →
  match r with
  | None => insecure = true ∧ ca = None ∧ crt = None ∧ key = None
  | Some c => ca = Some (ca_pem c) ∧ crt = Some (crt_pem c) ∧
              key = Some (key_pem c)
  end.
Proof. destruct insecure, ca, crt, key; intros [= <-]; done. Qed.

(** A warned conflict ends in secure communication or an error. *)
Lemma conflict_is_secure insecure ca_pem crt_pem key_pem e :
  is_config_conflicting insecure ca_pem crt_pem key_pem = Err e →
  tls_config_new insecure ca_pem crt_pem key_pem ≠ Ok None.
Proof. by destruct insecure, ca_pem, crt_pem, key_pem. Qed.

(** With an incomplete configuration the error shows the private key: the code
    passes the contents of the files, not their paths. *)
Lemma private_key_in_message insecure crt_pem key :
  ∃ before after,
    tls_config_new insecure None crt_pem (Some key) = Err (before +:+ key +:+ after).
Proof.
  exists ("Either provide mTLS config via the '--ca_pem " +:+ in_quotes "" +:+ "', '--crt_pem " +:+
    default (in_quotes "") crt_pem +:+ "' and '--key_pem "),
    "' options or deactivate mTLS with the '--insecure' option!".
  destruct insecure, crt_pem as [crt|]; unfold tls_config_new, default;
    cbn [from_option id]; f_equal; by rewrite <-!str_app_assoc.
Qed.

Section read_lemmas.
Context `{PemFiles}.

(** A private key is only read if nobody but its owner has access. *)
Lemma private_key_protected pem_file_path s :
  read_pem_file pem_file_path PrivateKey = Ok s →
  ∃ file p, file_open pem_file_path = Ok file ∧ permissions file = Ok p ∧ contents file = Ok s ∧
    N.land p 63 = 0%N.
Proof.
  unfold read_pem_file, certificate_error. intros (file & ->%map_err_ok & Hr)%bind_ok.
  apply bind_ok in Hr as (p & Hp%map_err_ok & (? & Hmode & Hs%map_err_ok)%bind_ok).
  exists file, p. split_and!; [done..|]. simpl in Hmode.
  assert (N.land p 63 = N.land (N.land p 511) 63) as ->
    by (by rewrite <-N.land_assoc).
  destruct (N.eqb_spec (N.land p 511) 384) as [->|]; [done|].
  destruct (N.eqb_spec (N.land p 511) 256) as [->|]; [done|]. done.
Qed.
End read_lemmas.
