(* ===== verification/GrpcClient.v ===== *)
(** * Ankaios: client of the gRPC middleware

    [grpc/src/client.rs] with the loops of [from_server_proxy.rs] and
    [to_server_proxy.rs] it runs against each other: an agent or the command
    line connects to the server, says hello first and then passes messages on in
    both directions until the connection ends. What the transport does is an
    explicit sequence: a list of connection attempts, each with what happens on
    the connection. *)

From Stdlib Require Import Ascii NArith Lia.
From stdpp Require Import base tactics gmap numbers strings list.
From S2P Require Import Prelude Api StateManipulation Messages MessageSize ControlInterface Grpc Security.

(** ** Server addresses *)

(** [s.replace(from, to)] with [skip] bytes of a match left to pass. *)
Fixpoint replace_from (skip : nat) (from to s : string) : string :=
  match s with
  | "" => ""
  | String c s' =>
    match skip with
    | S skip => replace_from skip from to s'
    | O =>
      if starts_with from s then to +:+ replace_from (pred (String.length from)) from to s'
      else String c (replace_from 0 from to s')
    end
  end.

Definition str_replace_all (from to s : string) : string := replace_from 0 from to s.

Definition get_server_url (server_address : string) (tls_config : option TLSConfig) : string :=
  match tls_config with
  | None => str_replace_all "https:" "http:" server_address
  | Some _ => server_address
  end.

(** [.+]: a first character that is no newline. *)
Definition some_char (s : string) : bool :=
  match s with "" => false | String c _ => negb (Ascii.eqb c "010") end.

(** The regular expression: http, an optional s, a colon, two slashes and at
    least one more character on the line. *)
Definition is_server_address (s : string) : bool :=
  (starts_with "http://" s && some_char (str_drop 7 s)) ||
  (starts_with "https://" s && some_char (str_drop 8 s)).

Definition verify_address_format (server_address : string) : result string () :=
  if is_server_address server_address then Ok ()
  else Err ("Wrong server address format: '" +:+ server_address +:+ "'.").

(** ** Clients *)

Inductive ConnectionType := AgentConnection | CliConnection.

Record GRPCCommunicationsClient := {
  client_name : string;
  server_address : string;
  connection_type : ConnectionType;
  client_tags : gmap string string;
  tls_config : option TLSConfig
}.

Definition new_agent_communication (name server_address : string) (tags : gmap string string)
    (tls_config : option TLSConfig) : result string GRPCCommunicationsClient :=
  _ ← verify_address_format server_address;
  Ok {| client_name := name; server_address := get_server_url server_address tls_config;
        connection_type := AgentConnection; client_tags := tags; tls_config := tls_config |}.

Definition new_cli_communication (name server_address : string)
    (tls_config : option TLSConfig) : result string GRPCCommunicationsClient :=
  _ ← verify_address_format server_address;
  Ok {| client_name := name; server_address := get_server_url server_address tls_config;
        connection_type := CliConnection; client_tags := ∅; tls_config := tls_config |}.

(** The errors of the transport: a status the server answers with and a failure
    to reach it. *)
Definition error_of_status (failed_precondition : bool) (err : string) : GrpcMiddlewareError :=
  if failed_precondition then VersionMismatch err else ConnectionInterrupted err.

Definition error_of_transport (err : string) : GrpcMiddlewareError := ServerNotAvailable err.

(** How a part of the program ends: with a result, with a panic, or not within the
    events. *)
Inductive Run (A : Type) := Ended (a : A) | Panics | Running.
Arguments Ended {A} a.
Arguments Panics {A}.
Arguments Running {A}.

Section client.
Context `{IterOrder} {SC : StateConversion} {WC : WireConversion}.

(** The version both sides compare; a constant of the build. *)
Variable ANKAIOS_VERSION : string.

(** What happens on a connection: messages for the server are queued and taken
    by the sending loop; messages of the server arrive; the stream ends or
    fails, perhaps while the sending loop has a message that is not handed on
    yet; handing on fails; the queue is closed; the connection is dropped after
    the goodbye. *)
Inductive LinkEvent :=
  | Queued (m : ToServer)
  | Forwarded
  | Arrived (value : option WireFromServer)
  | StreamEnded (in_flight : bool)
  | StreamFailed (in_flight failed_precondition : bool) (err : string)
  | SendFailed
  | QueueClosed
  | Dropped.

Record Link := {
  connected : result GrpcMiddlewareError ();
  link_events : list LinkEvent
}.

(** [server_rx] with what was taken from it so far, [agent_tx], and what was handed
    to each connection. *)
Record ClientState := {
  taken : list ToServer;
  server_rx : list ToServer;
  agent_tx : list FromServer;
  outgoing : list (list WireToServer)
}.

Definition push_server_rx (m : ToServer) (c : ClientState) : ClientState :=
  {| taken := taken c; server_rx := server_rx c ++ [m]; agent_tx := agent_tx c;
     outgoing := outgoing c |}.
Definition take_message (c : ClientState) : option ToServer * ClientState :=
  match server_rx c with
  | [] => (None, c)
  | m :: ms => (Some m, {| taken := taken c ++ [m]; server_rx := ms; agent_tx := agent_tx c;
                           outgoing := outgoing c |})
  end.
Definition push_agent_tx (ms : list FromServer) (c : ClientState) : ClientState :=
  {| taken := taken c; server_rx := server_rx c; agent_tx := agent_tx c ++ ms;
     outgoing := outgoing c |}.

(** The bytes of a connection go to the last one. *)
Fixpoint push_last {A} (l : list (list A)) (x : A) : list (list A) :=
  match l with
  | [] => []
  | [c] => [c ++ [x]]
  | c :: l => c :: push_last l x
  end.

Definition grpc_send (m : WireToServer) (c : ClientState) : ClientState :=
  {| taken := taken c; server_rx := server_rx c; agent_tx := agent_tx c;
     outgoing := push_last (outgoing c) m |}.

Definition queued (events : list LinkEvent) : list ToServer :=
  omap (λ e, match e with Queued m => Some m | _ => None end) events.

(** When a connection is over, messages are still queued until the next one. *)
Definition queue_rest (events : list LinkEvent) (c : ClientState) : ClientState :=
  {| taken := taken c; server_rx := server_rx c ++ queued events; agent_tx := agent_tx c;
     outgoing := outgoing c |}.

(** A message that is taken but not handed on is lost with the connection. *)
Definition lose (in_flight : bool) (c : ClientState) : ClientState :=
  if in_flight then (take_message c).2 else c.

(** The two loops; [goodbye_sent] when the sending loop waits for the connection to
    be dropped. *)
Fixpoint link_loop (events : list LinkEvent) (goodbye_sent : bool) (c : ClientState) :
    Run () * ClientState :=
  match events with
  | [] => (Running, c)
  | Queued m :: events => link_loop events goodbye_sent (push_server_rx m c)
  | Forwarded :: events =>
    if goodbye_sent then link_loop events goodbye_sent c
    else
      match take_message c with
      | (None, c) => link_loop events goodbye_sent c
      | (Some m, c) =>
        match from_agent_to_proto m with
        | SendToServer w => link_loop events false (grpc_send w c)
        | StopSending => link_loop events true (grpc_send WireGoodbye c)
        | SendPanics => (Panics, queue_rest events c)
        end
      end
  | Arrived value :: events =>
    link_loop events goodbye_sent
      (match from_proto_to_agent value with Ok ms => push_agent_tx ms c | Err _ => c end)
  | StreamEnded in_flight :: events =>
    (Ended (), queue_rest events (lose (in_flight && negb goodbye_sent) c))
  | StreamFailed in_flight failed_precondition err :: events =>
    let c := queue_rest events (lose (in_flight && negb goodbye_sent) c) in
    (Ended (),
     match error_of_status failed_precondition err with
     | ConnectionInterrupted _ => push_agent_tx [ServerGone] c
     | _ => c
     end)
  | SendFailed :: events =>
    if goodbye_sent then link_loop events goodbye_sent c else (Ended (), queue_rest events (lose true c))
  | QueueClosed :: events =>
    if goodbye_sent then link_loop events goodbye_sent c
    else if bool_decide (length (server_rx c) = 0) then link_loop events true (grpc_send WireGoodbye c)
    else link_loop events goodbye_sent c
  | Dropped :: events =>
    if goodbye_sent then (Ended (), queue_rest events c) else link_loop events goodbye_sent c
  end.

Definition hello (self : GRPCCommunicationsClient) : WireToServer :=
  match connection_type self with
  | AgentConnection => WireAgentHello (client_name self) ANKAIOS_VERSION (Some (client_tags self))
  | CliConnection => WireCommanderHello ANKAIOS_VERSION
  end.

(** The hello is the first message in the new channel; it is gone if there is no
    connection. *)
Definition run_internal (self : GRPCCommunicationsClient) (l : Link) (c : ClientState) :
    Run (result GrpcMiddlewareError ()) * ClientState :=
  match connected l with
  | Err err => (Ended (Err err), queue_rest (link_events l) c)
  | Ok _ =>
    let c := {| taken := taken c; server_rx := server_rx c; agent_tx := agent_tx c;
                outgoing := outgoing c ++ [[hello self]] |} in
    match link_loop (link_events l) false c with
    | (Ended _, c) => (Ended (Ok ()), c)
    | (Panics, c) => (Panics, c)
    | (Running, c) => (Running, c)
    end
  end.

Definition cli_result (self : GRPCCommunicationsClient) (res : result GrpcMiddlewareError ()) :
    result string () :=
  match res with
  | Err (ServerNotAvailable _) =>
    Err ("Could not connect to Ankaios server on '" +:+ server_address self +:+ "'.")
  | Err (CertificateError err) => Err ("Certificate error: '" +:+ err +:+ "'.")
  | _ => Ok ()
  end.

Fixpoint run (self : GRPCCommunicationsClient) (links : list Link) (c : ClientState) :
    Run (result string ()) * ClientState :=
  match links with
  | [] => (Running, c)
  | l :: links =>
    match run_internal self l c with
    | (Ended (Err (VersionMismatch err)), c) =>
      (Ended (Err ("Ankaios version mismatch: '" +:+ err +:+ "'.")), c)
    | (Ended res, c) =>
      match connection_type self with
      | AgentConnection => run self links c
      | CliConnection => (Ended (cli_result self res), c)
      end
    | (Panics, c) => (Panics, c)
    | (Running, c) => (Running, c)
    end
  end.
End client.

(** ** The server's side of the transport ([server.rs])

    The service of the transport runs until it ends or until the forwarding of
    the server's messages ends. *)

(** [Display] of the errors. *)
Definition grpc_middleware_error_display (e : GrpcMiddlewareError) : string :=
  match e with
  | StartError message => "StartError: '" +:+ message +:+ "'"
  | ReceiveError message => "ReceiveError: '" +:+ message +:+ "'"
  | SendError message => "SendError: '" +:+ message +:+ "'"
  | ConversionError message => "ConversionError: '" +:+ message +:+ "'"
  | ServerNotAvailable message => "Could not connect to the server: '" +:+ message +:+ "'"
  | ConnectionInterrupted message => "Connection interrupted: '" +:+ message +:+ "'"
  | CertificateError message => "Certificate error: '" +:+ message +:+ "'"
  | TLSError message => "TLS error: '" +:+ message +:+ "'"
  | VersionMismatch message => "Version mismatch: '" +:+ message +:+ "'"
  end.

Inductive ServerEvent :=
  | ServiceEnded (res : result string ())
  | ForwardingEnded.

(** [tls] is the result of setting up TLS, if there is a configuration for it. *)
Definition server_start (tls : option (result string ())) (first : ServerEvent) : result string () :=
  match tls with
  | Some (Err err) => Err err
  | _ =>
    match first with
    | ServiceEnded res => map_err (λ err, grpc_middleware_error_display (StartError err)) res
    | ForwardingEnded => Err (grpc_middleware_error_display (ConnectionInterrupted
        "Connection between Ankaios server and the communication middleware dropped."))
    end
  end.

(** ** Lemmas *)

Section address_lemmas.

Lemma verified_address s : verify_address_format s = Ok () → is_server_address s = true.
Proof. unfold verify_address_format. by destruct (is_server_address s). Qed.

Lemma replace_from_none from to s :
  starts_with from s = false → replace_from 0 from to s =
    match s with "" => "" | String c s => String c (replace_from 0 from to s) end.
Proof. destruct s as [|c s]; [done|]. cbn [replace_from]. by intros ->. Qed.

(** Without certificates the scheme of an accepted address is plain HTTP. *)
Lemma insecure_url_is_http s :
  is_server_address s = true → starts_with "http:" (get_server_url s None) = true.
Proof.
  unfold is_server_address, get_server_url, str_replace_all. intros Hs.
  apply orb_true_iff in Hs as [[Hs _]%andb_true_iff|[Hs _]%andb_true_iff];
    apply starts_with_spec in Hs as [r ->]; done.
Qed.
End address_lemmas.

Section client_lemmas.
Context `{IterOrder} {SC : StateConversion} {WC : WireConversion} (ANKAIOS_VERSION : string).

Lemma push_last_snoc {A} (l : list (list A)) c x : push_last (l ++ [c]) x = l ++ [c ++ [x]].
Proof.
  induction l as [|c' l IH]; [done|]. cbn [app push_last]. rewrite IH.
  by destruct (l ++ [c]) eqn:Hl; [by apply app_nil in Hl as [_ ?]|].
Qed.

(** What a message of the channel becomes on the wire. *)
Definition wire_of (m : ToServer) : list WireToServer :=
  match from_agent_to_proto m with
  | SendToServer w => [w]
  | StopSending => [WireGoodbye]
  | SendPanics => []
  end.

(** A connection got a hello, then the messages that were taken from the channel
    for it but for at most one, in order, and perhaps a goodbye. *)
Definition carries (first : WireToServer) (connection : list WireToServer) (part : list ToServer) : Prop :=
  ∃ sent lost bye, part = sent ++ lost ∧ length lost ≤ 1 ∧
    connection = first :: (sent ≫= wire_of) ++ bye ∧ (bye = [] ∨ bye = [WireGoodbye]).

(** The channel is a queue. *)
Lemma take_message_queue c :
  taken (take_message c).2 ++ server_rx (take_message c).2 = taken c ++ server_rx c.
Proof. unfold take_message. destruct (server_rx c) as [|m ms] eqn:Hms; simpl; [by rewrite Hms|].
  by rewrite <-app_assoc. Qed.

Lemma lose_taken b c :
  ∃ lost, taken (lose b c) = taken c ++ lost ∧ length lost ≤ 1 ∧ outgoing (lose b c) = outgoing c ∧
    taken (lose b c) ++ server_rx (lose b c) = taken c ++ server_rx c ∧
    agent_tx (lose b c) = agent_tx c.
Proof.
  unfold lose. destruct b; [|exists []; rewrite app_nil_r; split_and!; try done; apply Nat.le_0_l].
  pose proof (take_message_queue c) as Hq. unfold take_message in *.
  destruct (server_rx c) as [|m ms] eqn:Hms; cbn in *.
  - exists []. rewrite app_nil_r in *. split_and!; try done; apply Nat.le_0_l.
  - exists [m]. by split_and!.
Qed.

(** What a run of the loops adds to the state. *)
Record link_result (cs : list (list WireToServer)) (conn : list WireToServer)
    (bye_sent : bool) (events : list LinkEvent) (c c' : ClientState) : Prop := {
  link_outgoing : ∃ sent lost bye,
    taken c' = taken c ++ sent ++ lost ∧ length lost ≤ 1 ∧
    outgoing c' = cs ++ [conn ++ (sent ≫= wire_of) ++ bye] ∧ (bye = [] ∨ bye = [WireGoodbye]) ∧
    (bye_sent = true → sent = [] ∧ lost = [] ∧ bye = []);
  link_queue : taken c' ++ server_rx c' = taken c ++ server_rx c ++ queued events
}.

Lemma link_result_ends cs conn g events c b :
  outgoing c = cs ++ [conn] → (g = true → b = false) →
  link_result cs conn g events c (queue_rest events (lose b c)).
Proof.
  intros Hc Hg. destruct (lose_taken b c) as (lost & Ht & Hlen & Ho & Hq & _). split.
  - exists [], lost, []. simpl. rewrite Ht, Ho, Hc, app_nil_r. split_and!; [done..|by left|].
    intros Hb. specialize (Hg Hb). subst b. simpl in Ht. split; [done|]. split; [|done].
    by apply (app_inv_head (taken c)); rewrite app_nil_r.
  - simpl. by rewrite app_assoc, Hq, <-app_assoc.
Qed.

Lemma link_result_step cs conn g g' e events c c1 c' sent1 bye1 :
  taken c1 = taken c ++ sent1 → outgoing c1 = cs ++ [conn ++ (sent1 ≫= wire_of) ++ bye1] →
  taken c1 ++ server_rx c1 = taken c ++ server_rx c ++ queued [e] →
  (bye1 = [] ∨ (bye1 = [WireGoodbye] ∧ g' = true)) →
  (g = true → g' = true ∧ sent1 = [] ∧ bye1 = []) →
  link_result cs (conn ++ (sent1 ≫= wire_of) ++ bye1) g' events c1 c' →
  link_result cs conn g (e :: events) c c'.
Proof.
  intros Ht Ho Hq Hbye Hg [(sent & lost & bye & Ht' & Hlen & Ho' & Hb & Hg') Hq']. split.
  - exists (sent1 ++ sent), lost, (bye1 ++ bye). rewrite Ht', Ht, Ho', bind_app, !app_assoc.
    split_and!; [done..| | |].
    + destruct Hbye as [->|[-> ->]]; [by rewrite !app_nil_r|].
      destruct (Hg' eq_refl) as (-> & -> & ->). simpl. by rewrite !app_nil_r.
    + destruct Hbye as [->|[-> ->]]; [done|]. destruct (Hg' eq_refl) as (_ & _ & ->). by right.
    + intros Hgt. destruct (Hg Hgt) as (-> & -> & ->). destruct (Hg' eq_refl) as (-> & -> & ->). done.
  - rewrite app_assoc, Hq, <-!app_assoc in Hq'. by destruct e.
Qed.

(** A step that changes nothing of this. *)
Lemma link_result_skip cs conn g e events c c1 c' :
  taken c1 = taken c → outgoing c1 = cs ++ [conn] →
  taken c1 ++ server_rx c1 = taken c ++ server_rx c ++ queued [e] →
  link_result cs conn g events c1 c' → link_result cs conn g (e :: events) c c'.
Proof.
  intros Ht Ho Hq Hr.
  apply (link_result_step cs conn g g e events c c1 c' [] []); simpl; rewrite ?app_nil_r; auto.
Qed.

Lemma link_result_refl cs conn g events c :
  outgoing c = cs ++ [conn] → link_result cs conn g events c (queue_rest events c).
Proof. intros Hc. by apply (link_result_ends cs conn g events c false). Qed.

Lemma queue_rest_nil c : queue_rest [] c = c.
Proof. destruct c. unfold queue_rest. simpl. by rewrite app_nil_r. Qed.

Definition loops_ok (events : list LinkEvent) : Prop :=
  ∀ g cs conn c o c', outgoing c = cs ++ [conn] → link_loop events g c = (o, c') →
    link_result cs conn g events c c'.

Lemma link_idle e events g cs conn c c1 o c' :
  loops_ok events → queued [e] = [] →
  taken c1 = taken c ∧ outgoing c1 = outgoing c ∧ server_rx c1 = server_rx c →
  outgoing c = cs ++ [conn] → link_loop events g c1 = (o, c') →
  link_result cs conn g (e :: events) c c'.
Proof.
  intros IH He (H1 & H2 & H3) Hc Hr. apply (link_result_skip _ _ _ _ _ _ c1); [done|congruence| |].
  - by rewrite He, H1, H3, app_nil_r.
  - by eapply IH; [congruence|].
Qed.

Lemma link_sends m w g events cs conn c ms o c' :
  loops_ok events → outgoing c = cs ++ [conn] → server_rx c = m :: ms → wire_of m = [w] →
  link_loop events g (grpc_send w (take_message c).2) = (o, c') →
  link_result cs conn false (Forwarded :: events) c c'.
Proof.
  intros IH Hc Hms Hw Hr. unfold take_message in Hr. rewrite Hms in Hr.
  assert (conn ++ ([m] ≫= wire_of) ++ [] = conn ++ [w]) as Heq
    by (simpl; by rewrite Hw, app_nil_r).
  set (c1 := grpc_send w _) in Hr.
  apply (link_result_step cs conn false g Forwarded events c c1 c' [m] []); [done| | |by left|done|].
  - rewrite Heq. simpl. by rewrite Hc, push_last_snoc.
  - simpl. by rewrite Hms, app_nil_r, <-app_assoc.
  - rewrite Heq. eapply IH; [|done]. simpl. by rewrite Hc, push_last_snoc.
Qed.

Lemma link_forwards events : loops_ok events → loops_ok (Forwarded :: events).
Proof.
  intros IH [] cs conn c o c' Hc; cbn [link_loop]; [by apply (link_idle _ _ _ _ _ c c)|].
  destruct (server_rx c) as [|m ms] eqn:Hms.
  - unfold take_message. rewrite Hms. by apply (link_idle _ _ _ _ _ c c).
  - assert (take_message c = (Some m, (take_message c).2)) as Ht by (unfold take_message; by rewrite Hms).
    rewrite Ht. destruct (from_agent_to_proto m) as [w| |] eqn:Hw.
    + apply (link_sends m w false events cs conn c ms); try done. unfold wire_of. by rewrite Hw.
    + apply (link_sends m WireGoodbye true events cs conn c ms); try done. unfold wire_of. by rewrite Hw.
    + intros [= <- <-].
      assert (queue_rest events (take_message c).2 = queue_rest (Forwarded :: events) (lose true c))
        as -> by done. by apply link_result_ends.
Qed.

Lemma link_queue_closed events : loops_ok events → loops_ok (QueueClosed :: events).
Proof.
  intros IH [] cs conn c o c' Hc; cbn [link_loop]; [by apply (link_idle _ _ _ _ _ c c)|].
  case_bool_decide; [|by apply (link_idle _ _ _ _ _ c c)]. intros Hr.
  apply (link_result_step cs conn false true QueueClosed events c (grpc_send WireGoodbye c) c' [] [WireGoodbye]);
    [| | |by right|done|].
  - simpl. by rewrite app_nil_r.
  - simpl. by rewrite Hc, push_last_snoc.
  - simpl. by rewrite app_nil_r.
  - eapply IH; [|done]. simpl. by rewrite Hc, push_last_snoc.
Qed.

Lemma link_stream_failed b f err events : loops_ok (StreamFailed b f err :: events).
Proof.
  intros g cs conn c o c' Hc. cbn [link_loop].
  assert (link_result cs conn g (StreamFailed b f err :: events) c
    (queue_rest events (lose (b && negb g) c))) as [H1 H2].
  { apply (link_result_ends cs conn g (StreamFailed b f err :: events)); [done|].
    intros ->. by rewrite andb_false_r. }
  by destruct f; intros [= <- <-]; split.
Qed.

Lemma link_loop_result events : loops_ok events.
Proof.
  induction events as [|e events IH]; [
    by intros g cs conn c o c' Hc [= <- <-]; rewrite <-(queue_rest_nil c) at 2; apply link_result_refl|].
  destruct e as [m| |v|b|b f err| | |]; [|by apply link_forwards| | |apply link_stream_failed| |
    by apply link_queue_closed|]; intros g cs conn c o c' Hc; cbn [link_loop].
  - intros Hr. apply (link_result_skip _ _ _ _ _ _ (push_server_rx m c));
      [done|done|by simpl; rewrite app_assoc|]. by eapply IH.
  - apply link_idle; [done|done| |done]. by destruct (from_proto_to_agent v).
  - intros [= <- <-]. apply (link_result_ends cs conn g (StreamEnded b :: events)); [done|].
    intros ->. by rewrite andb_false_r.
  - destruct g; [by apply (link_idle _ _ _ _ _ c c)|].
    intros [= <- <-]. by apply (link_result_ends cs conn false (SendFailed :: events) c true).
  - destruct g; [|by apply (link_idle _ _ _ _ _ c c)].
    intros [= <- <-]. by apply (link_result_refl _ _ _ (Dropped :: events)).
Qed.

Lemma run_internal_result self l c o c' :
  run_internal ANKAIOS_VERSION self l c = (o, c') →
  (c' = queue_rest (link_events l) c ∧ ∃ err, connected l = Err err ∧ o = Ended (Err err)) ∨
  (link_result (outgoing c) [hello ANKAIOS_VERSION self] false (link_events l)
     {| taken := taken c; server_rx := server_rx c; agent_tx := agent_tx c;
        outgoing := outgoing c ++ [[hello ANKAIOS_VERSION self]] |} c' ∧
   (∀ r, o = Ended r → r = Ok ())).
Proof.
  unfold run_internal. destruct (connected l) as [[]|err].
  - destruct (link_loop _ _ _) as [o1 c1] eqn:Hl. intros Hr. right.
    split; [eapply link_loop_result; [|by rewrite Hl; destruct o1; simplify_eq]; done|].
    destruct o1; naive_solver.
  - intros [= <- <-]. left. eauto.
Qed.

(** The connections that [run] adds, and what was taken for them. *)
Definition run_result (self : GRPCCommunicationsClient) (ms : list ToServer)
    (c c' : ClientState) : Prop :=
  (∃ new parts, outgoing c' = outgoing c ++ new ∧ taken c' = taken c ++ mjoin parts ∧
    Forall2 (carries (hello ANKAIOS_VERSION self)) new parts) ∧
  taken c' ++ server_rx c' = taken c ++ server_rx c ++ ms.

Lemma run_internal_run_result self l c o c' :
  run_internal ANKAIOS_VERSION self l c = (o, c') → run_result self (queued (link_events l)) c c'.
Proof.
  intros [[-> _]|[[(sent & lost & bye & Ht & Hlen & Ho & Hbye & _) Hq] _]]%run_internal_result;
    simpl in *; (split; [|done]).
  - exists [], []. rewrite !app_nil_r. split_and!; [done..|constructor].
  - exists [hello ANKAIOS_VERSION self :: (sent ≫= wire_of) ++ bye], [sent ++ lost].
    simpl. rewrite app_nil_r. split_and!; [done..|].
    constructor; [|constructor]. by exists sent, lost, bye.
Qed.

Lemma run_result_trans self m1 m2 c c1 c' :
  run_result self m1 c c1 → run_result self m2 c1 c' → run_result self (m1 ++ m2) c c'.
Proof.
  intros [(n1 & p1 & Ho1 & Ht1 & Hc1) Hq1] [(n2 & p2 & Ho2 & Ht2 & Hc2) Hq2]. split.
  - exists (n1 ++ n2), (p1 ++ p2). rewrite Ho2, Ho1, Ht2, Ht1, join_app, <-!app_assoc.
    split_and!; [done..|by apply Forall2_app].
  - by rewrite Hq2, app_assoc, Hq1, <-!app_assoc.
Qed.

Definition all_queued (links : list Link) : list ToServer := links ≫= (λ l, queued (link_events l)).

Lemma run_run_result self links c o c' :
  run ANKAIOS_VERSION self links c = (o, c') →
  ∃ ms, ms `prefix_of` all_queued links ∧ run_result self ms c c'.
Proof.
  revert c o. induction links as [|l links IH]; intros c o; cbn [run].
  { intros [= <- <-]. exists []. split; [done|]. split; [|by rewrite !app_nil_r].
    exists [], []. rewrite !app_nil_r. split_and!; [done..|constructor]. }
  destruct (run_internal ANKAIOS_VERSION self l c) as [o1 c1] eqn:Hl.
  apply run_internal_run_result in Hl.
  assert (∃ ms, ms `prefix_of` all_queued (l :: links) ∧ run_result self ms c c1) as Hend.
  { exists (queued (link_events l)). split; [by apply prefix_app_r|done]. }
  assert (∀ o, run ANKAIOS_VERSION self links c1 = (o, c') →
    ∃ ms, ms `prefix_of` all_queued (l :: links) ∧ run_result self ms c c') as Hgo.
  { intros o2 (ms & Hms & Hr)%IH. exists (queued (link_events l) ++ ms).
    split; [by apply prefix_app|by eapply run_result_trans]. }
  destruct o1 as [[[]|[]]| |]; try (by intros [= <- <-]);
    destruct (connection_type self); eauto; by intros [= <- <-].
Qed.

(** An agent never gives up, unless the server has another version. *)
Lemma agent_run_ends self links c r c' :
  connection_type self = AgentConnection →
  run ANKAIOS_VERSION self links c = (Ended r, c') →
  ∃ l err, l ∈ links ∧ connected l = Err (VersionMismatch err) ∧
    r = Err ("Ankaios version mismatch: '" +:+ err +:+ "'.").
Proof.
  intros Hself. revert c. induction links as [|l links IH]; intros c; cbn [run]; [done|].
  assert (∀ c, run ANKAIOS_VERSION self links c = (Ended r, c') →
    ∃ l0 err, l0 ∈ l :: links ∧ connected l0 = Err (VersionMismatch err) ∧
      r = Err ("Ankaios version mismatch: '" +:+ err +:+ "'.")) as Hgo.
  { intros c1 (l' & err & Hin & Hl' & ->)%IH. exists l', err. split; [by right|done]. }
  destruct (run_internal ANKAIOS_VERSION self l c) as [o1 c1] eqn:Hl.
  apply run_internal_result in Hl. rewrite Hself.
  destruct o1 as [res| |]; [|done..].
  destruct Hl as [[_ (err & Hl & [= ->])]|[_ Hl]].
  - destruct err; eauto. intros [= <- <-]. exists l. eexists. split; [by left|done].
  - rewrite (Hl res eq_refl). eauto.
Qed.

(** The command line connects once. *)
Lemma cli_run_once self l links c :
  connection_type self = CliConnection →
  run ANKAIOS_VERSION self (l :: links) c = run ANKAIOS_VERSION self [l] c.
Proof.
  intros Hself. cbn [run]. destruct (run_internal _ self l c) as [[[[]|[]]| |] c1]; rewrite ?Hself; done.
Qed.

(** A server of the same version accepts the hello. *)
Lemma hello_accepted `{V : Versions} self certs sans g :
  version_parse ANKAIOS_VERSION = Some ank_version →
  connection_type self = AgentConnection →
  certificate_names certs = Ok sans → sans = [] ∨ client_name self ∈ sans ∨ "*" ∈ sans →
  is_ok (connect_agent certs (Some (Some (hello ANKAIOS_VERSION self))) g) = true.
Proof.
  intros Hv Hself Hc Hsans. unfold connect_agent, hello. rewrite Hc, Hself. simpl.
  assert (check_version_compatibility ANKAIOS_VERSION = Ok ()) as ->.
  { unfold check_version_compatibility. rewrite Hv. destruct ank_version as [major minor]. by rewrite N.eqb_refl. }
  simpl. rewrite <-!bool_decide_or, bool_decide_true by tauto. done.
Qed.
End client_lemmas.


(** A clean end of the stream, and an end that the sending loop sees first, are not
    reported: the agent keeps the log collections of the server that is gone. *)
Lemma clean_end_not_reported `{IterOrder} {SC : StateConversion} {WC : WireConversion} e events c :
  e = StreamEnded false ∨ e = SendFailed →
  agent_tx (link_loop (e :: events) false c).2 = agent_tx c.
Proof.
  intros [->| ->]; [done|]. cbn [link_loop snd]. by destruct (lose_taken true c) as (? & _ & _ & _ & _ & ?).
Qed.

(** ** Witness *)

