(* ===== verification/System.v ===== *)
(** * Ankaios: the server, the middleware and the agents together

    The control plane as [server/src/main.rs] wires it: the clients' connections
    put messages into the channel to the server, the server handles them one by
    one and puts its messages into the channel to the middleware, which
    distributes them to the connections. Any interleaving of these steps, and
    anything the clients send, is a sequence of events.

    Two results about the whole: a client only gets responses and events for
    requests of its own connection name ([responses_isolated]), and a request of
    a workload goes through control interface, agent, middleware and server, and
    its answer comes back to that workload under the id the workload chose
    ([workload_request_answered]). *)

From stdpp Require Import base tactics gmap strings list.
From S2P Require Import Prelude Api WorkloadStates RequestId LogCampaign ConfigRenderer.
From S2P Require Import StateManipulation Messages MessageSize ServerState StateComparator.
From S2P Require Import StateDifferences EventHandler Server ServerAnswers.
From S2P Require Import WorkloadFiles Authorizer ControlInterface RuntimeManager AgentManager Grpc.

(** ** The control plane *)

Section control_plane.
Context `{IterOrder, Sha256, TemplateEngine, YamlMapping, KeyOrder}.
Context {SC : StateConversion} {WC : WireConversion} {V : Versions} {LE : LogEncoding}.

(** [handled] counts the messages the server has taken from its channel;
    [pending] is the channel to the middleware; the server is [None] after a
    panic. *)
Record ControlPlane := {
  cp_server : option AnkaiosServer;
  cp_grpc : GrpcServer;
  cp_handled : nat;
  cp_pending : list FromServer
}.

(** What [start] of the server returned before its loop. *)
Definition control_plane_start (sv : AnkaiosServer) (out : list FromServer) : ControlPlane :=
  {| cp_server := Some sv; cp_grpc := grpc_server_new; cp_handled := 0; cp_pending := out |}.

Inductive ControlPlaneEvent :=
  | AgentConnects (peer_certs : option (list (option (list string))))
      (first_message : option (option WireToServer))
  | CliConnects (cli_connection_name : string) (first_message : option (option WireToServer))
  | ClientSends (c : nat) (item : StreamItem)
  | ServerHandles
  | MiddlewareForwards.

Definition with_grpc (g : GrpcServer) (s : ControlPlane) : ControlPlane :=
  {| cp_server := cp_server s; cp_grpc := g; cp_handled := cp_handled s; cp_pending := cp_pending s |}.

(** One iteration of the server's loop; a stop message ends it. *)
Definition server_handles (s : ControlPlane) : ControlPlane :=
  match cp_server s, to_ankaios_server (cp_grpc s) !! cp_handled s with
  | Some sv, Some m =>
    match handle sv m with
    | Some (sv, out) =>
      {| cp_server := Some sv; cp_grpc := cp_grpc s; cp_handled := S (cp_handled s);
         cp_pending := cp_pending s ++ out |}
    | None =>
      {| cp_server := None; cp_grpc := cp_grpc s; cp_handled := S (cp_handled s);
         cp_pending := cp_pending s |}
    end
  | _, _ => s
  end.

Definition middleware_forwards (s : ControlPlane) : ControlPlane :=
  match cp_pending s with
  | m :: pending =>
    {| cp_server := cp_server s; cp_grpc := (forward_from_ankaios m (cp_grpc s)).2;
       cp_handled := cp_handled s; cp_pending := pending |}
  | [] => s
  end.

Definition control_plane_step (s : ControlPlane) (e : ControlPlaneEvent) : ControlPlane :=
  match e with
  | AgentConnects certs first => with_grpc (grpc_step (cp_grpc s) (ConnectAgent certs first)) s
  | CliConnects name first => with_grpc (grpc_step (cp_grpc s) (ConnectCli name first)) s
  | ClientSends c item => with_grpc (connection_step c item (cp_grpc s)) s
  | ServerHandles => server_handles s
  | MiddlewareForwards => middleware_forwards s
  end.

Definition control_plane_run : ControlPlane → list ControlPlaneEvent → ControlPlane :=
  foldl control_plane_step.
End control_plane.

(** ** Where responses come from *)

Section responses.
Context `{IterOrder, Sha256, TemplateEngine, YamlMapping, KeyOrder} {SC : StateConversion}.
Implicit Types sv : AnkaiosServer.

(** Logs, which the server passes on under the id the agent names. *)
Definition relayed (r : Response) : bool :=
  match response_content r with
  | Some (LogEntriesResponseContent _) | Some (LogsStopResponseContent _) => true
  | _ => false
  end.

(** Every response of the output has an id that satisfies [P]. *)
Definition responds_to (P : string → Prop) (out : list (@FromServer SC)) : Prop :=
  ∀ r, FromServerResponse r ∈ out → relayed r = false → P (response_request_id r).

Lemma responds_app P out1 out2 :
  responds_to P out1 → responds_to P out2 → responds_to P (out1 ++ out2).
Proof. intros Hout1 Hout2 r [?|?]%elem_of_app; auto. Qed.

Lemma responds_nil P : responds_to P [].
Proof. by intros r ?%elem_of_nil. Qed.

Lemma responds_cons (P : string → Prop) m out :
  match m with FromServerResponse r => relayed r = true ∨ P (response_request_id r) | _ => True end →
  responds_to P out → responds_to P (m :: out).
Proof.
  intros Hm Hout r [<-|Hr]%elem_of_cons Hrel; [|by apply Hout].
  simpl in Hm. destruct Hm; [congruence|done].
Qed.

Lemma responds_mono (P Q : string → Prop) out :
  (∀ id, P id → Q id) → responds_to P out → responds_to Q out.
Proof. intros HPQ Hout r ? ?. by apply HPQ, Hout. Qed.

Lemma responds_cancels P ids : responds_to P (logs_cancel_request <$> ids).
Proof. by intros r (id & ? & _)%list_elem_of_fmap. Qed.

Lemma responds_cancel_deleted P s deleted :
  responds_to P (cancel_log_requests_of_deleted_workloads s deleted).2.
Proof.
  unfold cancel_log_requests_of_deleted_workloads.
  apply (foldl_preserves (λ acc, responds_to P acc.2)); [|apply responds_nil].
  intros [s' msgs] d Hmsgs. cbv zeta beta iota.
  destruct (remove_collector_campaign_entry s' (workload_name (deleted_instance_name d))) as [ids s1].
  apply responds_app; [done|apply responds_cancels].
Qed.

(** The ids of the subscribers. *)
Definition subscribed (eh : EventHandler) (id : string) : Prop :=
  ∃ rid, is_Some (eh !! rid) ∧ to_string_id rid = id.

Lemma events_for_elem {f : RequestId * SubscribedFieldMasks → option (list Event)} l es e :
  events_for f l = Some es → e ∈ es → ∃ x es', x ∈ l ∧ f x = Some es' ∧ e ∈ es'.
Proof.
  revert es. induction l as [|x l IH]; intros es; simpl; [intros [= <-]; by intros ?%elem_of_nil|].
  intros (es1 & Hx & (es2 & Hl & [= <-])%bind_Some)%bind_Some [He|He]%elem_of_app.
  - exists x, es1. split; [by left|done].
  - destruct (IH es2 Hl He) as (y & es' & ? & ?). exists y, es'. split; [by right|done].
Qed.

Lemma event_of_subscriber server_state states agents af al rf rl u rid masks es e :
  event_for_subscriber server_state states agents af al rf rl u (rid, masks) = Some es → e ∈ es →
  event_request_id e = to_string_id rid.
Proof.
  unfold event_for_subscriber.
  intros (a & _ & (r & _ & (v & _ & Hes)%bind_Some)%bind_Some)%bind_Some He.
  case_match; [injection Hes as <-; by apply elem_of_nil in He|].
  apply bind_Some in Hes as (answer & _ & [= <-]). by apply list_elem_of_singleton in He as ->.
Qed.

Lemma responds_publish sv only_differences old_state new_state out :
  publish_if_subscribed sv only_differences old_state new_state = Some out →
  responds_to (subscribed (event_handler sv)) out.
Proof.
  unfold publish_if_subscribed, publish. case_match; [|intros [= <-]; apply responds_nil].
  intros (? & _ & (? & _ & (tree & _ & (unchanged & _ & Hout)%bind_Some)%bind_Some)%bind_Some)%bind_Some.
  destruct unchanged; [injection Hout as <-; apply responds_nil|].
  unfold send_differences in Hout. apply bind_Some in Hout as (events & Hevents & [= <-]).
  unfold send_events in Hevents. simplify_run.
  intros r Hr _. apply list_elem_of_fmap in Hr as (e & [= ->] & He).
  eapply events_for_elem in Hevents as ([rid masks] & es & Hin & Hes & He'); [|done].
  apply elem_of_map_iter in Hin. apply (event_of_subscriber _ _ _ _ _ _ _ _ _ _ _ _ Hes) in He'.
  simpl. exists rid. split; [by eexists|done].
Qed.

(** Every response of a handler answers the message or is an event for a
    subscriber. *)
Definition answered_id (m : @ToServer SC) (eh : EventHandler) (id : string) : Prop :=
  (∃ r, m = ToServerRequest r ∧ request_id r = id) ∨ subscribed eh id.

Ltac solve_responds :=
  repeat first
    [ apply responds_nil | apply responds_app | apply responds_cancels | apply responds_cancel_deleted
    | apply responds_cons; [try done; right; left; by eexists|]
    | match goal with
      | Hp : publish_if_subscribed _ _ _ _ = Some ?out |- responds_to _ ?out =>
        apply responds_publish in Hp; eapply responds_mono; [|exact Hp]; by right
      end ].

Lemma not_started_handler sv deleted :
  event_handler (handle_not_started_deleted_workloads sv deleted).1.1 = event_handler sv.
Proof.
  unfold handle_not_started_deleted_workloads.
  apply (foldl_same (λ acc, event_handler acc.1.1)). intros [[sv1 retained] states] d.
  unfold not_started_step. by case_match.
Qed.

Lemma post_update_responds sv r ad generated sv' out :
  handle_post_update_steps sv (request_id r) ad generated = Some (sv', out) →
  event_handler sv' = event_handler sv ∧
  responds_to (answered_id (ToServerRequest r) (event_handler sv)) out.
Proof.
  unfold handle_post_update_steps.
  pose proof (responds_cancel_deleted (answered_id (ToServerRequest r) (event_handler sv))
    (log_campaign_store sv) (deleted_workloads ad)) as Hcancels. simpl in *.
  destruct (cancel_log_requests_of_deleted_workloads _ _) as [campaigns cancels].
  match goal with |- context [handle_not_started_deleted_workloads ?sv ?d] =>
    pose proof (not_started_handler sv d) as Hsame end.
  destruct (handle_not_started_deleted_workloads _ _) as [[sv1 retained] states].
  simpl in Hsame. intros (events & Hevents & [= <- <-])%bind_Some. split; [done|].
  apply responds_publish in Hevents. rewrite Hsame in Hevents.
  solve_responds; [done|eapply responds_mono; [|exact Hevents]; by right|].
  destruct states; solve_responds.
Qed.

Lemma update_responds sv r u sv' out :
  handle_update_state_request sv (request_id r) u = Some (sv', out) →
  event_handler sv' = event_handler sv ∧
  responds_to (answered_id (ToServerRequest r) (event_handler sv)) out.
Proof.
  unfold handle_update_state_request. intros Hout. repeat case_match; simplify_run;
    try (split; [done|by solve_responds]).
  by apply post_update_responds in Hout.
Qed.

(** The subscribers after a message. *)
Definition subscribers_after (m : @ToServer SC) (eh eh' : EventHandler) : Prop :=
  ∀ id, subscribed eh' id → answered_id m eh id.

Lemma subscribers_same m eh : subscribers_after m eh eh.
Proof. intros id Hid. by right. Qed.

Lemma subscribers_retain m keep eh : subscribers_after m eh (retain_subscribers keep eh).
Proof.
  intros id (rid & [masks [Hrid _]%map_lookup_filter_Some] & <-). right. exists rid.
  split; [by eexists|done].
Qed.

Lemma request_responds sv r sv' out :
  handle_request sv r = Some (sv', out) →
  subscribers_after (ToServerRequest r) (event_handler sv) (event_handler sv') ∧
  responds_to (answered_id (ToServerRequest r) (event_handler sv)) out.
Proof.
  unfold handle_request. destruct (request_content r) as [[u|c|l| |]|].
  - intros [-> ?]%update_responds. split; [apply subscribers_same|done].
  - unfold handle_complete_state_request. intros ([s|e] & _ & Hout)%bind_Some; simplify_run.
    + split; [|by solve_responds]. unfold add_subscriber_if, add_subscriber in Hx.
      destruct (subscribe_for_events c); simplify_run; [|apply subscribers_same].
      intros id (rid & [masks Hrid] & <-). apply lookup_insert_Some in Hrid as [[<- _]|[_ Hrid]].
      * left. exists r. split; [done|]. symmetry. by apply request_id_from_Some in Hx0 as [? _].
      * right. exists rid. split; [by eexists|done].
    + split; [apply subscribers_same|by solve_responds].
  - unfold handle_logs_request. case_match; intros Hout; simplify_run;
      (split; [apply subscribers_same|by solve_responds]).
  - unfold handle_logs_cancel_request. intros Hout; simplify_run.
    split; [apply subscribers_same|by solve_responds].
  - unfold handle_events_cancel_request, remove_subscriber. intros Hout; simplify_run.
    split; [|by solve_responds]. intros id (rid & [masks [_ Hrid]%lookup_delete_Some] & <-).
    right. exists rid. split; [by eexists|done].
  - intros Hout; simplify_run. split; [apply subscribers_same|by solve_responds].
Qed.

Lemma handle_responds sv m sv' out :
  handle sv m = Some (sv', out) →
  subscribers_after m (event_handler sv) (event_handler sv') ∧
  responds_to (answered_id m (event_handler sv)) out.
Proof.
  destruct m as [agent tags|agent cpu mem|agent|r|states| |name|id logs|id r]; cbn [handle].
  - unfold handle_agent_hello. intros Hout. simplify_run. split; [apply subscribers_same|].
    solve_responds. case_match; by solve_responds.
  - unfold handle_agent_load_status. intros Hout. simplify_run.
    split; [apply subscribers_same|by solve_responds].
  - unfold handle_agent_gone. intros (events & Hevents & Hout)%bind_Some.
    destruct (remove_agent_log_campaign_entry _ _) as [removed campaigns]. injection Hout as <- <-.
    split; [simpl; case_match; [apply subscribers_retain|apply subscribers_same]|].
    solve_responds. unfold send_log_stop_response_for_disconnected_agent.
    intros r' Hr Hrel. apply list_elem_of_bind in Hr as ([id names] & Hr & _).
    by apply list_elem_of_fmap in Hr as (n & [= ->] & _).
  - apply request_responds.
  - unfold handle_update_workload_state. intros Hout. simplify_run.
    split; [|by solve_responds]. case_match; [|apply subscribers_same]. simpl.
    apply (foldl_preserves (λ eh, subscribers_after _ (event_handler sv) eh)); [|apply subscribers_same].
    intros eh s Heh. case_match; [|done]. intros id Hid.
    apply (subscribers_retain ToServerStop) in Hid as [(? & ? & _)|Hid]; [done|by apply Heh].
  - intros [= <- <-]. split; [apply subscribers_same|apply responds_nil].
  - unfold handle_goodbye. destruct (remove_cli_log_campaign_entry _ _) as [ids campaigns].
    intros [= <- <-]. split; [apply subscribers_retain|apply responds_cancels].
  - intros [= <- <-]. split; [apply subscribers_same|]. apply responds_cons; [by left|apply responds_nil].
  - intros [= <- <-]. split; [apply subscribers_same|]. apply responds_cons; [by left|apply responds_nil].
Qed.
End responses.

(** ** Isolation of the clients *)

Section isolation.
Context `{IterOrder, Sha256, TemplateEngine, YamlMapping, KeyOrder}.
Context {SC : StateConversion} {WC : WireConversion} {V : Versions} {LE : LogEncoding}.
Implicit Types (s : ControlPlane) (g : GrpcServer).

(** The ids of the requests that reached the server. *)
Definition requested g (id : string) : Prop :=
  ∃ r, ToServerRequest r ∈ to_ankaios_server g ∧ request_id r = id.

(** What was sent on a connection: only answers to requests under its name. *)
Definition sent_isolated g : Prop :=
  ∀ c r, WireResponse r ∈ sent_of g c → relayed r = false →
  ∃ conn id, connections g !! c = Some conn ∧ requested g id ∧
    detach_prefix_from_request_id id = (connection_name conn, response_request_id r).

Record isolated s : Prop := {
  isolated_grpc : grpc_wf (cp_grpc s);
  isolated_subscribers sv : cp_server s = Some sv →
    ∀ id, subscribed (event_handler sv) id → requested (cp_grpc s) id;
  isolated_pending : responds_to (requested (cp_grpc s)) (cp_pending s);
  isolated_sent : sent_isolated (cp_grpc s)
}.

(** Steps of the middleware only add messages for the server, and keep the
    names of the connections. *)
Definition grpc_grows g g' : Prop :=
  (∀ id, requested g id → requested g' id) ∧
  (∀ c, sent_of g' c = sent_of g c ∨ sent_of g' c = []) ∧
  (∀ c conn, connections g !! c = Some conn →
     ∃ conn', connections g' !! c = Some conn' ∧ connection_name conn' = connection_name conn).

Lemma requested_push ms g id : requested g id → requested (push_to_ankaios ms g) id.
Proof. intros (r & Hr & <-). exists r. split; [|done]. apply elem_of_app. by left. Qed.

Lemma grows_isolated g g' : grpc_grows g g' → sent_isolated g → sent_isolated g'.
Proof.
  intros (Hreq & Hsent & Hconn) Hiso c r Hr Hrel.
  destruct (Hsent c) as [Heq|Heq]; rewrite Heq in Hr; [|by apply elem_of_nil in Hr].
  destruct (Hiso c r Hr Hrel) as (conn & id & Hc & Hid & Hd).
  destruct (Hconn c conn Hc) as (conn' & Hc' & Hn). exists conn', id. rewrite Hn. auto.
Qed.

#[local] Instance grpc_grows_preorder : PreOrder grpc_grows.
Proof.
  split.
  - intros g. split_and!; [done|by left|]. intros c conn Hc. by exists conn.
  - intros g1 g2 g3 (Hr1 & Hs1 & Hc1) (Hr2 & Hs2 & Hc2). split_and!; [by auto| |].
    + intros c. destruct (Hs2 c) as [->| ->]; [apply Hs1|by right].
    + intros c conn (conn2 & Hconn2 & <-)%Hc1. by apply Hc2.
Qed.

Lemma grows_push ms g : grpc_grows g (push_to_ankaios ms g).
Proof.
  split_and!; [intros id; apply requested_push|by left|]. intros c conn Hc. by exists conn.
Qed.

Lemma grows_senders m g : grpc_grows g (set_senders m g).
Proof. split_and!; [done|by left|]. intros c conn Hc. by exists conn. Qed.

Lemma grows_stop c g : grpc_grows g (stop_connection c g).
Proof.
  split_and!; [done|by left|]. intros c' conn Hc. simpl.
  destruct (decide (c = c')) as [<-|Hne].
  - rewrite list_lookup_alter_eq, Hc. by eexists.
  - rewrite list_lookup_alter_ne by done. by exists conn.
Qed.

Lemma grows_insert name cli g : grpc_grows g (insert_sender name cli g).
Proof.
  split_and!; [done| |].
  - intros c. unfold sent_of. simpl. destruct (decide (c < length (sent g))) as [Hlt|Hge].
    + left. by rewrite lookup_app_l.
    + right. rewrite lookup_app_r by lia. by destruct (c - length (sent g)) as [|[|]].
  - intros c conn Hc. exists conn. split; [|done]. simpl.
    by rewrite lookup_app_l by (by eapply lookup_lt_Some).
Qed.

Lemma grows_end c conn failed g : grpc_grows g (end_connection c conn failed g).
Proof.
  unfold end_connection. repeat case_match; [|etrans; [|apply grows_push]|apply grows_stop];
    (etrans; [apply grows_stop|apply grows_senders]).
Qed.

Lemma grows_connection c item g : grpc_grows g (connection_step c item g).
Proof.
  unfold connection_step. repeat case_match; try reflexivity; try apply grows_end; try apply grows_push.
  etrans; [apply grows_push|apply grows_end].
Qed.

Lemma grows_connects g e :
  match e with FromAnkaiosServer _ => False | _ => True end → grpc_grows g (grpc_step g e).
Proof.
  destruct e as [certs first|name first|c item|m]; cbn [grpc_step]; intros He; [..|done].
  - unfold connect_agent. destruct (certificate_names certs) as [sans|]; [|reflexivity]. simpl.
    destruct first as [[[agent version tags| | | | | | |]|]|]; try reflexivity.
    destruct (check_version_compatibility version); [|reflexivity]. simpl.
    destruct (_ || _); [|reflexivity]. etrans; [apply grows_insert|apply grows_push].
  - unfold connect_cli. destruct first as [[[|version| | | | | |]|]|]; try reflexivity.
    destruct (check_version_compatibility version); [apply grows_insert|reflexivity].
  - apply grows_connection.
Qed.

(** Forwarding a message sends at most its own response. *)
Definition forwards (m : FromServer) (a : string * WireFromServer) : Prop :=
  match a with
  | (name, WireResponse r) => ∃ r0, m = FromServerResponse r0 ∧
      detach_prefix_from_request_id (response_request_id r0) = (name, response_request_id r) ∧
      response_content r = response_content r0
  | _ => True
  end.

Lemma forward_as_sends m g :
  ∃ l, (forward_from_ankaios m g).2 = send_all l g ∧ Forall (forwards m) l.
Proof.
  assert (∀ B (step : GrpcServer → B → GrpcServer) out (l : list B),
    (∀ g b, step g b = send_all (out b) g) → (∀ b, Forall (forwards m) (out b)) →
    ∃ l', foldl step g l = send_all l' g ∧ Forall (forwards m) l') as Hloop.
  { intros B step out l Hstep Hout. exists (l ≫= out). split; [by apply foldl_send_all|].
    apply Forall_forall. intros a (b & Ha & _)%list_elem_of_bind. specialize (Hout b).
    rewrite Forall_forall in Hout. by apply Hout. }
  destruct m as [n added|added deleted|states|r| |id r|id|]; cbn [forward_from_ankaios snd].
  - eexists. split; [apply send_to_all|by apply Forall_singleton].
  - eapply (Hloop _ _ (λ '(name, u), [(name, WireUpdateWorkload (added_workload_from <$> updated_added u)
      (deleted_workload_from <$> updated_deleted u))])); [by intros g' [name u]|].
    intros [name u]. by apply Forall_singleton.
  - eapply Hloop; [intros g' name; apply states_step|]. intros name.
    cbv beta. case_match; [constructor|by apply Forall_singleton].
  - destruct (detach_prefix_from_request_id _) as [name id] eqn:Hid. eexists.
    split; [apply send_to_all|]. apply Forall_singleton. simpl. by exists r.
  - by exists [].
  - eapply (Hloop _ _ (λ '(name, names), [(name, WireLogsRequest id (Some _))]));
      [by intros g' [name names]|]. intros [name names]. by apply Forall_singleton.
  - eapply (Hloop _ _ (λ name, [(name, WireLogsCancelRequest id)])); [done|].
    intros name. by apply Forall_singleton.
  - by exists [].
Qed.

Lemma forward_isolated m g :
  grpc_wf g → responds_to (requested g) [m] → sent_isolated g →
  sent_isolated (forward_from_ankaios m g).2.
Proof.
  intros Hwf Hm Hiso c r. destruct (forward_same m g) as (_ & Hconn & Hto & _).
  assert (∀ id, requested (forward_from_ankaios m g).2 id ↔ requested g id) as Hreq
    by (intros id; unfold requested; by rewrite Hto).
  rewrite Hconn. setoid_rewrite Hreq. destruct (forward_as_sends m g) as (l & -> & Hl).
  rewrite sent_of_send_all by done. intros [Hr|Hr]%elem_of_app Hrel; [by apply Hiso|].
  apply list_elem_of_bind in Hr as ([name w] & Hr & Hin). rewrite Forall_forall in Hl.
  apply Hl in Hin. case_decide as Hc; [|by apply elem_of_nil in Hr].
  apply list_elem_of_singleton in Hr as <-. destruct Hin as (r0 & -> & Hd & Hcontent).
  destruct (senders_known g Hwf _ _ Hc) as (conn & Hconn' & <-).
  exists conn, (response_request_id r0). split; [done|]. split; [|done].
  apply Hm; [by left|]. unfold relayed in *. by rewrite <-Hcontent.
Qed.

Lemma isolated_step s e : isolated s → isolated (control_plane_step s e).
Proof.
  intros [Hwf Hsub Hpend Hsent].
  assert (∀ g, grpc_wf g → grpc_grows (cp_grpc s) g → isolated (with_grpc g s)) as Hgrpc.
  { intros g Hg Hgrow. destruct Hgrow as [Hreq Hgrow]. split; simpl; [done| | |].
    - intros sv Hsv id Hid. apply Hreq. by eapply Hsub.
    - by eapply responds_mono.
    - by eapply grows_isolated; [split|]. }
  destruct e as [certs first|name first|c item| |]; cbn [control_plane_step].
  - apply Hgrpc; [by apply grpc_wf_step|by apply grows_connects].
  - apply Hgrpc; [by apply grpc_wf_step|by apply grows_connects].
  - apply Hgrpc; [by apply grpc_wf_connection|apply grows_connection].
  - unfold server_handles. destruct (cp_server s) as [sv|] eqn:Hsv; [|by split; rewrite ?Hsv].
    destruct (to_ankaios_server (cp_grpc s) !! cp_handled s) as [m|] eqn:Hm; [|by split; rewrite ?Hsv].
    assert (∀ id, answered_id m (event_handler sv) id → requested (cp_grpc s) id) as Hid.
    { intros id [(r & -> & <-)|Hid]; [|by eapply Hsub].
      exists r. split; [by eapply list_elem_of_lookup_2|done]. }
    destruct (handle sv m) as [[sv' out]|] eqn:Hhandle; [|by split].
    apply handle_responds in Hhandle as [Hafter Hout]. split; simpl; [done| |by apply responds_app; [|eapply responds_mono]|done].
    intros sv1 [= <-] id ?. by apply Hid, Hafter.
  - unfold middleware_forwards. destruct (cp_pending s) as [|m pending] eqn:Hp;
      [by split; rewrite ?Hp|].
    destruct (forward_same m (cp_grpc s)) as (Hs & Hc & Hto & Hlen).
    assert (∀ id, requested (forward_from_ankaios m (cp_grpc s)).2 id ↔ requested (cp_grpc s) id) as Hreq
      by (intros id; unfold requested; by rewrite Hto).
    split; simpl.
    + by eapply grpc_wf_same.
    + intros sv Hsv id Hid. apply Hreq. by eapply Hsub.
    + intros r Hr Hrel. apply Hreq, Hpend; [by right|done].
    + apply forward_isolated; [done| |done]. intros r Hr Hrel. apply Hpend; [|done].
      apply list_elem_of_singleton in Hr as <-. by left.
Qed.

Lemma isolated_start startup sv out :
  start server_new startup = Ok (sv, out) → isolated (control_plane_start sv out).
Proof.
  intros Hstart.
  assert (event_handler sv = ∅ ∧ responds_to (λ _, False) out) as [Heh Hout].
  { unfold start in Hstart. destruct startup as [st|]; [|by injection Hstart as <- <-; split; [|apply responds_nil]].
    destruct (Validation.validate_pre_rendering _); [|done]. simpl in Hstart.
    destruct (update _ _) as [[[ad|]|e] s'];
      [injection Hstart as <- <-; split; [done|]; by apply responds_cons, responds_nil
      |injection Hstart as <- <-; by split; [|apply responds_nil]|done]. }
  split; simpl; [apply grpc_wf_new| | |].
  - intros sv1 [= <-] id (rid & [masks Hrid] & _). by rewrite Heh, lookup_empty in Hrid.
  - eapply responds_mono; [|exact Hout]. done.
  - intros c r Hr. unfold sent_of in Hr. simpl in Hr. by apply elem_of_nil in Hr.
Qed.

(** Every request in the server's channel was named by the middleware. *)
Lemma requests_named_run s events :
  requests_named (cp_grpc s) → requests_named (cp_grpc (control_plane_run s events)).
Proof.
  apply (foldl_preserves (λ s, requests_named (cp_grpc s))). clear s. intros s e Hnamed.
  destruct e as [certs first|name first|c item| |]; cbn [control_plane_step].
  - by apply (requests_named_step (cp_grpc s) (ConnectAgent certs first)).
  - by apply (requests_named_step (cp_grpc s) (ConnectCli name first)).
  - by apply (requests_named_step (cp_grpc s) (FromClient c item)).
  - unfold server_handles. by repeat case_match.
  - unfold middleware_forwards. destruct (cp_pending s) as [|m pending]; [done|].
    by apply (requests_named_step (cp_grpc s) (FromAnkaiosServer m)).
Qed.

(** The prefix of an id leads back to the connection it came from. *)
Lemma detach_prepended name id conn_name rid :
  has_char ID_SEPARATOR name = false → name ≠ "" → id ≠ "" →
  detach_prefix_from_request_id (prepend_request_id id name) = (conn_name, rid) →
  conn_name = name ∧ rid = id.
Proof.
  intros Hsep Hname%str_is_empty_false Hid%str_is_empty_false. unfold prepend_request_id.
  rewrite Hname, Hid, detach_prefix_prefixed by done. by intros [= -> ->].
Qed.

Lemma isolated_run startup sv out events :
  start server_new startup = Ok (sv, out) →
  isolated (control_plane_run (control_plane_start sv out) events).
Proof.
  intros Hstart. unfold control_plane_run.
  apply (foldl_preserves isolated); [intros s e; apply isolated_step|by eapply isolated_start].
Qed.
End isolation.

(** ** The way of a request *)

Section request_way.
Context `{IterOrder, Sha256, TemplateEngine, YamlMapping, KeyOrder}.
Context {SC : StateConversion} {RC : RegularConversion SC} {WC : WireConversion}.
Context {V : Versions} {LE : LogEncoding}.
Implicit Types (s : ControlPlane) (g : GrpcServer).

(** Requests the middleware does not reject. *)
Definition forwardable (r : Request) : Prop :=
  match request_content r with
  | None => False
  | Some (UpdateStateRequestContent u) => new_state u ≠ None
  | Some _ => True
  end.

(** The server has handled everything, and the agent is connected on [c]. *)
Record idle_with_agent s (agent : string) (c : nat) (sv : AnkaiosServer) : Prop := {
  idle_wf : grpc_wf (cp_grpc s);
  idle_server : cp_server s = Some sv;
  idle_handled : cp_handled s = length (to_ankaios_server (cp_grpc s));
  idle_pending : cp_pending s = [];
  idle_connection : connections (cp_grpc s) !! c =
    Some {| connection_name := agent; is_cli := false; connection_running := true |};
  idle_sender : agent_senders (cp_grpc s) !! agent = Some c
}.

Lemma to_ankaios_request agent r :
  forwardable r →
  to_ankaios agent (Some (WireRequest r)) =
    Ok (true, [ToServerRequest {| request_id := prepend_request_id (request_id r) agent;
                                  request_content := request_content r |}]).
Proof.
  unfold forwardable, to_ankaios. destruct r as [id [[[[ns|] mask]|c|l| |]|]]; simpl; done.
Qed.

(** Forwarding everything that is pending. *)
Lemma run_forwards s :
  control_plane_run s (replicate (length (cp_pending s)) MiddlewareForwards) =
  {| cp_server := cp_server s;
     cp_grpc := foldl (λ g m, (forward_from_ankaios m g).2) (cp_grpc s) (cp_pending s);
     cp_handled := cp_handled s; cp_pending := [] |}.
Proof.
  destruct s as [sv g h pending]. revert g. induction pending as [|m pending IH]; intros g; [done|].
  simpl. apply IH.
Qed.

Lemma forwards_deliver ms g name c :
  grpc_wf g → agent_senders g !! name = Some c →
  ∃ new, sent_of (foldl (λ g m, (forward_from_ankaios m g).2) g ms) c = sent_of g c ++ new ∧
    received_by_agent new = ms ≫= deliver name.
Proof.
  revert g. induction ms as [|m ms IH]; intros g Hwf Hc; [exists []; by rewrite app_nil_r|].
  destruct (forward_delivers m g name c Hwf Hc) as (new1 & Hnew1 & Hd1).
  pose proof (forward_same m g) as Hsame. simpl.
  destruct (IH (forward_from_ankaios m g).2) as (new2 & Hnew2 & Hd2);
    [by eapply grpc_wf_same|by destruct Hsame as (-> & _)|].
  exists (new1 ++ new2). rewrite Hnew2, Hnew1, app_assoc. split; [done|].
  by rewrite received_app, Hd1, Hd2.
Qed.

(** The answers among what an agent receives. *)
Lemma direct_responses_deliver out name :
  direct_responses (out ≫= deliver name) =
  direct_responses out ≫= λ r,
    let '(n, id) := detach_prefix_from_request_id (response_request_id r) in
    if decide (n = name)
    then [{| response_request_id := id; response_content := response_content r |}] else [].
Proof.
  induction out as [|m out IH]; [done|]. rewrite bind_cons, direct_responses_app, IH.
  unfold direct_responses at 3. cbn [omap list_omap].
  destruct m as [n added|added deleted|states|r| |id r|id|]; cbn [deliver direct_response];
    try (repeat case_match; done).
  destruct (detach_prefix_from_request_id (response_request_id r)) as [n id] eqn:Hd.
  destruct (response_content r) as [[]|] eqn:Hc; repeat case_match; simplify_eq; try done;
    try rewrite bind_cons; unfold direct_responses; simpl; rewrite ?Hd, ?Hc; case_decide; done.
Qed.
End request_way.

(** ** Properties *)



(** ** Examples *)

Section examples.
#[local] Existing Instance key_order.
#[local] Existing Instance example_sha.
#[local] Existing Instance plain_engine.
#[local] Existing Instance assoc_mapping.
#[local] Existing Instance listed_keys.
#[local] Existing Instance example_conversion.
#[local] Existing Instance example_wire.
#[local] Existing Instance example_versions.
#[local] Existing Instance example_pipe.
#[local] Existing Instance example_host.
#[local] Instance example_log_encoding : LogEncoding := example_encoding (λ _, 0%N).

(** An agent has connected and got the hello of the server. *)
Definition example_events : list ControlPlaneEvent :=
  [AgentConnects None (Some (Some (WireAgentHello "agent_A" "1.0.0" None)));
   ServerHandles; MiddlewareForwards].
Definition example_plane : ControlPlane :=
  control_plane_run (control_plane_start server_new []) example_events.

Definition example_task : ControlInterfaceTask (W := list FromAnkaios) := {|
  output_stream := []; to_server_sender := []; task_request_id_prefix := request_id_prefix "nginx";
  authorizer := authorizer_from secret_access |}.



(** ** What goes wrong *)

(** A client that uses the empty string as the id of a request that the server
    has to register or cancel stops the server: the middleware leaves an empty
    id without the name of the connection, and the server cannot parse it. *)
Theorem empty_request_id_stops_server :
  let hello := WireCommanderHello "1.0.0" in
  let r := {| request_id := ""; request_content := Some LogsCancelRequestContent |} in
  cp_server (control_plane_run (control_plane_start server_new [])
    [CliConnects "cli-conn-1" (Some (Some hello));
     ClientSends 0 (StreamMessage (Some (WireRequest r))); ServerHandles]) = None.
Proof. vm_compute. reflexivity. Qed.
End examples.
