(* ===== verification/Convergence.v ===== *)
(** * Ankaios: the agents learn the desired workloads

    An agent knows what it has to run from the messages [ServerHello] and
    [UpdateWorkload] only. Replaying the messages that have arrived at an agent
    gives the workloads it was told to run; here they are compared with the
    rendered workloads of the server, in any interleaving of the control plane
    of [System.v], with lost connections, agents that connect again and updates
    that move workloads between agents. *)

From stdpp Require Import base tactics gmap strings list sets.
From S2P Require Import Prelude Api WorkloadStates RequestId LogCampaign ConfigRenderer.
From S2P Require Import DeleteGraph StateManipulation Messages MessageSize ServerState StateComparator.
From S2P Require Import StateDifferences EventHandler Server ServerAnswers.
From S2P Require Import ControlInterface RuntimeManager Grpc System.

(** ** Replaying messages *)

Section replay.
Context {SC : StateConversion}.
Implicit Types (m R : RenderedWorkloads) (msg : FromServer).

(** The workloads an agent is to run after a message: the hello of the server
    replaces what the agent was told before. *)
Definition replay_step m msg : RenderedWorkloads :=
  match msg with
  | ServerHello _ added =>
    apply_difference ∅ {| added_workloads := added; deleted_workloads := [] |}
  | UpdateWorkload added deleted =>
    apply_difference m {| added_workloads := added; deleted_workloads := deleted |}
  | _ => m
  end.

Definition replay : RenderedWorkloads → list FromServer → RenderedWorkloads := foldl replay_step.

Definition workloads_of (agent : string) m : RenderedWorkloads :=
  filter (λ p, agent_name (instance_name p.2) = agent) m.

Definition is_hello msg : bool := match msg with ServerHello _ _ => true | _ => false end.

(** Messages that do not say what to run. *)
Definition quiet msg : bool :=
  match msg with ServerHello _ _ | UpdateWorkload _ _ => false | _ => true end.

Definition has_hello (msgs : list FromServer) : Prop := ∃ msg, msg ∈ msgs ∧ is_hello msg = true.

Lemma has_hello_app l1 l2 : has_hello (l1 ++ l2) ↔ has_hello l1 ∨ has_hello l2.
Proof. unfold has_hello. setoid_rewrite elem_of_app. naive_solver. Qed.

(** What was told before a hello does not matter. *)
Lemma replay_after_hello l m m' : has_hello l → replay m l = replay m' l.
Proof.
  revert m m'. induction l as [|msg l IH]; intros m m' (h & Hin & Hh); [by apply elem_of_nil in Hin|].
  destruct (is_hello msg) eqn:Hmsg; [by destruct msg|].
  apply elem_of_cons in Hin as [->|Hin]; [congruence|]. simpl. apply IH. by exists h.
Qed.

Lemma replay_app m l1 l2 : replay m (l1 ++ l2) = replay (replay m l1) l2.
Proof. apply foldl_app. Qed.

Lemma replay_quiet l m : Forall (λ msg, quiet msg = true) l → replay m l = m.
Proof.
  revert m. induction l as [|msg l IH]; intros m Hl; [done|]. apply Forall_cons in Hl as [Hq Hl].
  simpl. rewrite IH by done. by destruct msg.
Qed.

Lemma deliver_quiet agent msg :
  quiet msg = true → Forall (λ msg, quiet msg = true) (deliver agent msg).
Proof.
  destruct msg as [| |states|r| |id r|id|]; try done; intros _; simpl.
  - case_match; by repeat constructor.
  - destruct (detach_prefix_from_request_id _). case_decide; by repeat constructor.
  - case_match; by repeat constructor.
  - by repeat constructor.
Qed.

Lemma deliver_all_quiet agent l :
  Forall (λ msg, quiet msg = true) l → Forall (λ msg, quiet msg = true) (l ≫= deliver agent).
Proof.
  rewrite !Forall_forall. intros Hl msg (msg' & Hin & Hmsg')%list_elem_of_bind.
  pose proof (deliver_quiet agent msg' (Hl _ Hmsg')) as Hq. rewrite Forall_forall in Hq. auto.
Qed.

(** ** One update seen by an agent *)

Lemma workloads_of_Some agent m n w :
  workloads_of agent m !! n = Some w ↔ m !! n = Some w ∧ agent_name (instance_name w) = agent.
Proof. apply map_lookup_filter_Some. Qed.

Lemma hello_tells agent R added :
  keyed R → (∀ w, w ∈ added ↔ ∃ n, workloads_of agent R !! n = Some w) →
  apply_difference ∅ {| added_workloads := added; deleted_workloads := [] |} = workloads_of agent R.
Proof.
  intros Hkeyed Hadded. apply map_eq. intros n. unfold apply_difference. simpl.
  assert (∀ w, w ∈ added → workload_name (instance_name w) = n → workloads_of agent R !! n = Some w)
    as Hname.
  { intros w (n' & Hw)%Hadded <-. pose proof Hw as [Hn' _]%workloads_of_Some.
    by rewrite (Hkeyed _ _ Hn'). }
  destruct (workloads_of agent R !! n) as [w|] eqn:Hn.
  - pose proof Hn as [HR _]%workloads_of_Some.
    apply lookup_insert_all_in; [apply Hadded; eauto|by apply Hkeyed|].
    intros w' Hw' Hn'. specialize (Hname w' Hw' Hn'). congruence.
  - rewrite lookup_insert_all_out; [done|]. intros w Hw Hn'. by specialize (Hname w Hw Hn').
Qed.

(** [added] and [deleted] are what an update sends: the deletions may lack
    workloads that never started, but none of this agent. *)
Record update_sent (agent : string) R R' (added : list WorkloadNamed) (deleted : list DeletedWorkload) :
    Prop := {
  sent_added w : w ∈ added ↔ ∃ n, R' !! n = Some w ∧ R !! n ≠ Some w;
  sent_deleted d : d ∈ deleted →
    ∃ n w, R !! n = Some w ∧ R' !! n ≠ Some w ∧ deleted_instance_name d = instance_name w;
  sent_own_deleted n w : R !! n = Some w → R' !! n ≠ Some w → agent_name (instance_name w) = agent →
    ∃ d, d ∈ deleted ∧ deleted_instance_name d = instance_name w
}.

Lemma update_tells agent R R' added deleted :
  keyed R → keyed R' → update_sent agent R R' added deleted →
  apply_difference (workloads_of agent R)
    {| added_workloads := filter (λ w, agent_name (instance_name w) = agent) added;
       deleted_workloads := filter (λ d, agent_name (deleted_instance_name d) = agent) deleted |} =
  workloads_of agent R'.
Proof.
  intros HR HR' [Hadd Hdel Hown]. apply map_eq. intros n. unfold apply_difference. cbn.
  set (add := filter _ added). set (del := filter _ deleted).
  assert (∀ w, w ∈ add → workload_name (instance_name w) = n →
    R' !! n = Some w ∧ R !! n ≠ Some w ∧ agent_name (instance_name w) = agent) as Hadd_n.
  { intros w [Ha (n' & Hw & Hw')%Hadd]%list_elem_of_filter <-.
    by rewrite (HR' _ _ Hw). }
  assert (n ∈ workload_name ∘ deleted_instance_name <$> del ↔
    ∃ w, R !! n = Some w ∧ R' !! n ≠ Some w ∧ agent_name (instance_name w) = agent) as Hdel_n.
  { rewrite list_elem_of_fmap. split.
    - intros (d & -> & [Ha (n' & w & Hw & Hw' & Hd)%Hdel]%list_elem_of_filter). exists w. simpl.
      rewrite Hd in *. by rewrite (HR _ _ Hw).
    - intros (w & Hw & Hw' & Ha). destruct (Hown n w Hw Hw' Ha) as (d & Hin & Hd).
      exists d. simpl. rewrite Hd. split; [by rewrite (HR _ _ Hw)|].
      apply list_elem_of_filter. by rewrite Hd. }
  destruct (decide (Exists (λ w, workload_name (instance_name w) = n) add)) as [Hex|Hno].
  - apply Exists_exists in Hex as (w & Hin & Hn). destruct (Hadd_n w Hin Hn) as (Hw & _ & Ha).
    rewrite (proj2 (workloads_of_Some agent R' n w)) by done.
    apply lookup_insert_all_in; [done..|]. intros w2 Hin2 Hn2.
    destruct (Hadd_n w2 Hin2 Hn2) as [? _]. congruence.
  - assert (∀ w, R' !! n = Some w → agent_name (instance_name w) = agent → R !! n = Some w) as Hold.
    { intros w Hw Ha. destruct (decide (R !! n = Some w)) as [|Hne]; [done|]. destruct Hno.
      apply Exists_exists. exists w. split; [|by apply HR'].
      apply list_elem_of_filter. split; [done|]. apply Hadd. eauto. }
    rewrite lookup_insert_all_out by (intros w Hin Hn; apply Hno, Exists_exists; eauto).
    rewrite lookup_delete_all. apply option_eq. intros w. rewrite workloads_of_Some.
    destruct (decide _) as [Hd|Hd].
    + split; [done|]. intros [Hw Ha]. apply Hdel_n in Hd as (w' & Hw' & Hne & _).
      specialize (Hold w Hw Ha). congruence.
    + rewrite workloads_of_Some. split; intros [Hw Ha]; (split; [|done]); [|by apply Hold].
      destruct (decide (R' !! n = Some w)) as [|Hne]; [done|]. destruct Hd. apply Hdel_n. eauto.
Qed.
End replay.

(** ** What the server sends *)

Section server_tells.
Context `{IterOrder, Sha256, TemplateEngine, YamlMapping, KeyOrder} {SC : StateConversion}.
Implicit Types (sv : AnkaiosServer) (R : RenderedWorkloads) (out : list (@FromServer SC)).

Definition rendered sv : RenderedWorkloads := rendered_workloads (server_state sv).

(** The agent has said hello and was not reported as gone since. *)
Definition known (agent : string) sv : Prop := is_Some (agent_map sv !! agent).

(** The messages lead the agent from the workloads in [R] to those in [R'],
    without a new hello. *)
Definition tells (agent : string) R out R' : Prop :=
  ¬ has_hello (out ≫= deliver agent) ∧
  replay (workloads_of agent R) (out ≫= deliver agent) = workloads_of agent R'.

Lemma tells_quiet agent R out : Forall (λ msg, quiet msg = true) out → tells agent R out R.
Proof.
  intros Hout. pose proof (deliver_all_quiet agent out Hout) as Hd.
  split; [|by apply replay_quiet]. intros (msg & Hmsg & Hhello). rewrite Forall_forall in Hd.
  specialize (Hd msg Hmsg). by destruct msg.
Qed.

Lemma tells_app agent R1 R2 R3 out1 out2 :
  tells agent R1 out1 R2 → tells agent R2 out2 R3 → tells agent R1 (out1 ++ out2) R3.
Proof.
  unfold tells. intros [Hno1 <-] [Hno2 <-]. rewrite bind_app, replay_app, has_hello_app. tauto.
Qed.

Lemma update_accepted_sent s ds o s' :
  server_wf s → update s ds = (Ok o, s') →
  match o with
  | None => rendered_workloads s' = rendered_workloads s
  | Some ad => ∀ agent, update_sent agent (rendered_workloads s) (rendered_workloads s')
                 (added_workloads ad) (deleted_workloads ad)
  end.
Proof.
  intros Hs. unfold update. destruct (prepare_update s ds) as [[r o']|e] eqn:Hprep; [|done].
  apply prepare_update_ok in Hprep as (_ & _ & Ho & _). symmetry in Ho.
  destruct o' as [ad|]; intros [= <- <-]; simpl; [|by apply extract_None in Ho].
  intros agent. apply extract_Some in Ho as ->. simpl. split.
  - apply elem_of_all_added.
  - intros d (d' & -> & (n & w & ? & ? & ->)%elem_of_all_deleted)%list_elem_of_fmap.
    exists n, w. by rewrite apply_delete_conditions_name.
  - intros n w Hw Hw' _.
    eexists. split.
    + apply list_elem_of_fmap. eexists. split; [done|]. apply elem_of_all_deleted. eauto.
    + by rewrite apply_delete_conditions_name.
Qed.

Lemma update_keyed s ds o s' :
  server_wf s → update s ds = (o, s') → keyed (rendered_workloads s').
Proof.
  intros Hs Hup. pose proof (server_wf_update s ds Hs) as Hs'. rewrite Hup in Hs'.
  eapply render_workloads_keyed, (wf_rendered _ Hs').
Qed.

Lemma rendered_keyed sv : ankaios_server_wf sv → keyed (rendered sv).
Proof. intros [Hs _ _]. eapply render_workloads_keyed, (wf_rendered _ Hs). Qed.
(** *** Outputs without workloads *)

Notation all_quiet := (Forall (λ msg, quiet msg = true)).

Lemma quiet_map {A} (f : A → FromServer) l :
  (∀ x, quiet (f x) = true) → all_quiet (f <$> l).
Proof. intros Hf. apply Forall_fmap, Forall_true. apply Hf. Qed.

Lemma quiet_publish sv only_differences old_state new_state out :
  publish_if_subscribed sv only_differences old_state new_state = Some out → all_quiet out.
Proof.
  unfold publish_if_subscribed, publish. case_match; [|intros [= <-]; constructor].
  intros (? & _ & (? & _ & (tree & _ & (unchanged & _ & Hout)%bind_Some)%bind_Some)%bind_Some)%bind_Some.
  destruct unchanged; [injection Hout as <-; constructor|].
  unfold send_differences in Hout. apply bind_Some in Hout as (events & _ & [= <-]).
  by apply quiet_map.
Qed.

Lemma quiet_cancel_deleted s deleted :
  all_quiet (cancel_log_requests_of_deleted_workloads s deleted).2.
Proof.
  unfold cancel_log_requests_of_deleted_workloads.
  apply (foldl_preserves (λ acc, all_quiet acc.2)); [|constructor].
  intros [s' msgs] d Hmsgs. cbv zeta beta iota.
  destruct (remove_collector_campaign_entry s' (workload_name (deleted_instance_name d))) as [ids s1].
  apply Forall_app. split; [done|by apply quiet_map].
Qed.

Lemma quiet_stopped stopped : all_quiet (send_log_stop_response_for_disconnected_agent stopped).
Proof.
  unfold send_log_stop_response_for_disconnected_agent. apply Forall_bind, Forall_true.
  intros [id names]. by apply quiet_map.
Qed.

Ltac solve_quiet :=
  repeat first
    [ assumption | apply Forall_nil_2 | apply Forall_cons; split; [done|] | apply Forall_app; split
    | by apply quiet_map | by apply quiet_cancel_deleted | by apply quiet_stopped
    | by eapply quiet_publish ].

(** *** The messages of an update *)

Lemma replay_update agent m added deleted :
  replay m (deliver agent (UpdateWorkload added deleted)) =
  apply_difference m
    {| added_workloads := filter (λ w, agent_name (instance_name w) = agent) added;
       deleted_workloads := filter (λ d, agent_name (deleted_instance_name d) = agent) deleted |}.
Proof. simpl. by destruct (filter _ added), (filter _ deleted). Qed.

Lemma deliver_update_no_hello agent added deleted :
  ¬ has_hello ([UpdateWorkload added deleted] ≫= deliver agent).
Proof.
  intros (msg & Hmsg & Hhello). apply list_elem_of_bind in Hmsg as (msg' & Hmsg & Hin).
  apply list_elem_of_singleton in Hin as ->. simpl in Hmsg.
  destruct (filter _ added), (filter _ deleted); [by apply elem_of_nil in Hmsg|..];
    by apply list_elem_of_singleton in Hmsg as ->.
Qed.

Lemma not_started_keeps sv deleted :
  let '(sv', retained, _) := handle_not_started_deleted_workloads sv deleted in
  server_state sv' = server_state sv ∧ agent_map sv' = agent_map sv ∧
  (∀ d, d ∈ retained → d ∈ deleted) ∧
  (∀ d, d ∈ deleted → agent_name (deleted_instance_name d) ≠ "" →
     known (agent_name (deleted_instance_name d)) sv → d ∈ retained).
Proof.
  unfold handle_not_started_deleted_workloads. generalize (@nil WorkloadStateSpec) at 1.
  assert (∀ (l1 : list DeletedWorkload) l2 sv0, server_state sv0 = server_state sv →
    agent_map sv0 = agent_map sv →
    let '(sv', retained, _) := foldl not_started_step (sv0, l1, l2) deleted in
    server_state sv' = server_state sv ∧ agent_map sv' = agent_map sv ∧
    (∀ d, d ∈ retained → d ∈ l1 ∨ d ∈ deleted) ∧
    (∀ d, d ∈ l1 ∨ d ∈ deleted ∧ agent_name (deleted_instance_name d) ≠ "" ∧
       known (agent_name (deleted_instance_name d)) sv → d ∈ retained)) as Hloop.
  { induction deleted as [|d deleted IH]; intros l1 l2 sv0 Hs Ha; cbn [foldl].
    - split_and!; [done..|by left|]. intros d [?|[?%elem_of_nil _]]; done.
    - unfold not_started_step at 2.
      destruct (str_is_empty _ || _) eqn:Hd.
      + specialize (IH l1 (l2 ++ [{| state_instance_name := deleted_instance_name d;
          execution_state := removed |}])
          (set_workload_states (remove (workload_states_map sv0) (deleted_instance_name d)) sv0) Hs Ha).
        destruct (foldl _ _ _) as [[sv' retained] states]. destruct IH as (? & ? & Hsub & Hin).
        split_and!; [done..| |].
        * intros d' [?|?]%Hsub; [by left|right; by right].
        * intros d' [?|[[->|?]%elem_of_cons [Hne Hk]]]; apply Hin; [by left| |by right].
          apply orb_true_iff in Hd as [Hd%str_is_empty_true|Hd]; [done|].
          unfold deleted_workload_never_started_on_agent in Hd. rewrite Ha in Hd.
          destruct Hk as [e He]. by rewrite He in Hd.
      + specialize (IH (l1 ++ [d]) l2 sv0 Hs Ha).
        destruct (foldl _ _ _) as [[sv' retained] states]. destruct IH as (? & ? & Hsub & Hin).
        split_and!; [done..| |].
        * intros d' [[?|Hd1]%elem_of_app|?]%Hsub;
            [by left|right; apply list_elem_of_singleton in Hd1 as ->; by left|right; by right].
        * intros d' [?|[[->|?]%elem_of_cons [Hne Hk]]]; apply Hin;
            [left; apply elem_of_app; by left|left; apply elem_of_app; right; by left|by right]. }
  intros l2. specialize (Hloop [] l2 sv eq_refl eq_refl).
  destruct (foldl _ _ _) as [[sv' retained] states]. destruct Hloop as (? & ? & Hsub & Hin).
  split_and!; [done..| |].
  - intros d [?%elem_of_nil|?]%Hsub; done.
  - intros d ? ? ?. apply Hin. by right.
Qed.

Lemma post_update_tells agent R sv id ad generated sv' out :
  agent ≠ "" → known agent sv → keyed R → keyed (rendered sv) →
  update_sent agent R (rendered sv) (added_workloads ad) (deleted_workloads ad) →
  handle_post_update_steps sv id ad generated = Some (sv', out) →
  tells agent R out (rendered sv).
Proof.
  intros Hne Hknown HR HR' [Hadd Hdel Hown]. unfold handle_post_update_steps.
  match goal with |- context [cancel_log_requests_of_deleted_workloads ?s ?d] =>
    pose proof (quiet_cancel_deleted s d) as Hcancels end.
  destruct (cancel_log_requests_of_deleted_workloads _ _) as [campaigns cancels].
  match goal with |- context [handle_not_started_deleted_workloads ?sv ?d] =>
    pose proof (not_started_keeps sv d) as Hkeep end.
  destruct (handle_not_started_deleted_workloads _ _) as [[sv1 retained] states].
  destruct Hkeep as (_ & _ & Hsub & Hin).
  intros (events & Hevents%quiet_publish & [= _ <-])%bind_Some.
  apply (tells_app _ _ R); [by apply tells_quiet|].
  apply (tells_app _ _ R); [by apply tells_quiet|].
  apply (tells_app _ _ R); [apply tells_quiet; destruct states; solve_quiet|].
  apply (tells_app agent R (rendered sv) (rendered sv) [UpdateWorkload _ _] [_]);
    [|apply tells_quiet; solve_quiet].
  split; [apply deliver_update_no_hello|].
  cbn [mbind list_bind]. rewrite app_nil_r, replay_update. apply update_tells; [done..|]. split.
  - done.
  - intros d ?%Hsub. auto.
  - intros n w Hw Hw' Ha. destruct (Hown n w Hw Hw' Ha) as (d & Hd & Hname).
    exists d. split; [|done]. apply Hin; [done| |]; rewrite Hname, Ha; done.
Qed.
(** *** The handlers *)

Lemma post_update_keeps sv id ad generated sv' out :
  handle_post_update_steps sv id ad generated = Some (sv', out) →
  server_state sv' = server_state sv ∧ agent_map sv' = agent_map sv.
Proof.
  unfold handle_post_update_steps.
  destruct (cancel_log_requests_of_deleted_workloads _ _) as [campaigns cancels].
  match goal with |- context [handle_not_started_deleted_workloads ?sv ?d] =>
    pose proof (not_started_keeps sv d) as Hkeep end.
  destruct (handle_not_started_deleted_workloads _ _) as [[sv1 retained] states].
  destruct Hkeep as (Hs & Ha & _). by intros (events & _ & [= <- _])%bind_Some.
Qed.

Lemma known_set_agent_tags agent sv agents :
  known agent (set_agent_tags sv agents) ↔ known agent sv.
Proof.
  unfold known, set_agent_tags. simpl.
  apply (foldl_preserves (λ m : AgentMap, is_Some (m !! agent) ↔ is_Some (agent_map sv !! agent)));
    [|done].
  intros m [a attributes] <-. by rewrite lookup_alter_is_Some.
Qed.

(** A rejected request. *)
Lemma rejected_tells agent sv id msg :
  (known agent sv ↔ known agent sv) ∧
  (known agent sv → tells agent (rendered sv) [error id msg] (rendered sv)).
Proof. split; [done|]. intros _. apply tells_quiet. solve_quiet. Qed.

Lemma agent_hello_tells sv agent tags sv' out :
  ankaios_server_wf sv → handle_agent_hello sv agent tags = Some (sv', out) →
  known agent sv' ∧ has_hello (out ≫= deliver agent) ∧
  ∀ m, replay m (out ≫= deliver agent) = workloads_of agent (rendered sv').
Proof.
  intros Hwf Hrun. unfold handle_agent_hello in Hrun. simplify_run.
  match goal with H : publish_if_subscribed _ _ _ _ = _ |- _ => apply quiet_publish in H as Hq end.
  split; [by eexists; apply lookup_insert_eq|].
  assert (deliver agent (ServerHello (Some agent) (get_workloads_for_agent (server_state sv) agent)) =
    [ServerHello None (get_workloads_for_agent (server_state sv) agent)]) as Hdeliver
    by (simpl; by rewrite decide_True).
  rewrite bind_app, bind_cons, Hdeliver. split.
  - apply has_hello_app. right. eexists. by split; [left|].
  - intros m. pose proof (deliver_all_quiet agent _ Hq) as Hd.
    rewrite !replay_app, (replay_quiet _ _ Hd).
    apply (hello_tells agent (rendered sv)); [by apply rendered_keyed|]. intros w. unfold get_workloads_for_agent.
    rewrite list_elem_of_fmap. setoid_rewrite workloads_of_Some. split.
    + intros ([n w'] & -> & [Ha Hin%elem_of_map_iter]%list_elem_of_filter). by exists n.
    + intros (n & Hw & Ha). exists (n, w). split; [done|]. apply list_elem_of_filter.
      split; [done|]. by apply elem_of_map_iter.
Qed.

Lemma other_hello_tells sv agent a tags sv' out :
  a ≠ agent → handle_agent_hello sv a tags = Some (sv', out) →
  tells agent (rendered sv) out (rendered sv').
Proof.
  intros Hne Hrun. unfold handle_agent_hello in Hrun. simplify_run.
  match goal with H : publish_if_subscribed _ _ _ _ = _ |- _ => apply quiet_publish in H as Hq end.
  apply (tells_app _ _ (rendered sv)); [apply tells_quiet; case_match; solve_quiet|].
  apply (tells_app agent (rendered sv) (rendered sv) (rendered sv) [ServerHello _ _]);
    [|by apply tells_quiet].
  unfold tells. simpl. rewrite decide_False by done. split; [|done].
  by intros (msg & ?%elem_of_nil & _).
Qed.

Lemma update_request_tells sv id r sv' out agent :
  ankaios_server_wf sv → agent ≠ "" → handle_update_state_request sv id r = Some (sv', out) →
  (known agent sv' ↔ known agent sv) ∧ (known agent sv → tells agent (rendered sv) out (rendered sv')).
Proof.
  intros Hwf Hne. unfold handle_update_state_request.
  destruct (new_state r) as [ns|]; [|intros [= <- <-]; apply rejected_tells].
  destruct (generate_new_state _ _ _) as [generated|];
    [|intros [= <- <-]; apply rejected_tells].
  destruct (Validation.validate_pre_rendering _);
    [|intros [= <- <-]; apply rejected_tells].
  destruct (update (server_state sv) (new_desired_state generated)) as [[[ad|]|e] s] eqn:Hup.
  - intros Hpost. pose proof (post_update_keeps _ _ _ _ _ _ Hpost) as [Hs Ha].
    assert (known agent sv' ↔ known agent sv) as Hknown.
    { unfold known at 1. rewrite Ha. apply (known_set_agent_tags agent (set_server_state s sv)). }
    split; [done|]. intros Hk. unfold rendered at 2. rewrite Hs.
    eapply post_update_tells; [done| | | | |exact Hpost].
    + by apply (known_set_agent_tags agent (set_server_state s sv)).
    + by apply rendered_keyed.
    + by apply (update_keyed _ _ _ _ (wf_server_state _ Hwf) Hup).
    + apply (update_accepted_sent _ _ _ _ (wf_server_state _ Hwf) Hup).
  - intros (events & Hq%quiet_publish & [= <- <-])%bind_Some.
    split; [apply (known_set_agent_tags agent (set_server_state s sv))|].
    intros _. unfold rendered at 2. simpl.
    rewrite (update_accepted_sent _ _ _ _ (wf_server_state _ Hwf) Hup).
    apply tells_quiet. solve_quiet.
  - intros [= <- <-]. split; [done|]. intros _. unfold rendered at 2. simpl.
    assert (s = server_state sv) as ->
      by (unfold update in Hup; by destruct (prepare_update _ _) as [[? [?|]]|]; simplify_eq).
    apply tells_quiet. solve_quiet.
Qed.
(** The two messages that change whether the agent is known. *)
Definition registers (agent : string) (m : @ToServer SC) : bool :=
  match m with AgentHello a _ => bool_decide (a = agent) | _ => false end.
Definition unregisters (agent : string) (m : @ToServer SC) : bool :=
  match m with AgentGone a => bool_decide (a = agent) | _ => false end.

Lemma handle_registers agent sv m sv' out :
  ankaios_server_wf sv → registers agent m = true → handle sv m = Some (sv', out) →
  known agent sv' ∧ has_hello (out ≫= deliver agent) ∧
  ∀ m0, replay m0 (out ≫= deliver agent) = workloads_of agent (rendered sv').
Proof.
  destruct m; try done. intros Hwf ->%bool_decide_eq_true Hrun. by eapply agent_hello_tells.
Qed.

Lemma handle_tells agent sv m sv' out :
  ankaios_server_wf sv → agent ≠ "" → handle sv m = Some (sv', out) →
  registers agent m = false → unregisters agent m = false →
  (known agent sv' ↔ known agent sv) ∧ (known agent sv → tells agent (rendered sv) out (rendered sv')).
Proof.
  intros Hwf Hne.
  assert (∀ sv' out, server_state sv' = server_state sv → agent_map sv' = agent_map sv →
    all_quiet out →
    (known agent sv' ↔ known agent sv) ∧ (known agent sv → tells agent (rendered sv) out (rendered sv')))
    as Hsame.
  { intros sv1 out1 Hs Ha Hq. unfold known, rendered. rewrite Hs, Ha.
    split; [done|]. intros _. by apply tells_quiet. }
  destruct m as [a tags|a cpu mem|a|[id [[r|r|r| |]|]]|states| |conn|id logs|id r];
    cbn [handle handle_request request_content request_id registers unregisters]; intros Hrun Hreg Hun.
  - apply bool_decide_eq_false in Hreg. split; [|intros _; by eapply other_hello_tells].
    unfold handle_agent_hello in Hrun. simplify_run. unfold known. simpl.
    by rewrite lookup_insert_ne.
  - unfold handle_agent_load_status in Hrun. simplify_run. split.
    + unfold known. simpl. by rewrite lookup_alter_is_Some.
    + intros _. apply tells_quiet. solve_quiet.
  - apply bool_decide_eq_false in Hun.
    apply handle_agent_gone_effect in Hrun as [-> (events & Hq%quiet_publish & ->)]. split.
    + unfold known. simpl. by rewrite lookup_delete_ne.
    + intros _. apply tells_quiet. solve_quiet.
  - by apply (update_request_tells sv id r).
  - unfold handle_complete_state_request in Hrun. simplify_run.
    case_match; simplify_run; apply Hsame; try done; solve_quiet.
  - unfold handle_logs_request in Hrun. case_match; simplify_run; apply Hsame; try done; solve_quiet.
  - unfold handle_logs_cancel_request in Hrun. simplify_run. apply Hsame; try done; solve_quiet.
  - unfold handle_events_cancel_request in Hrun. simplify_run. apply Hsame; try done; solve_quiet.
  - simplify_run. apply Hsame; try done; solve_quiet.
  - unfold handle_update_workload_state in Hrun. simplify_run. split.
    + by case_match.
    + intros _. case_match; apply (tells_quiet agent (rendered sv)); solve_quiet.
  - simplify_run. by apply Hsame.
  - unfold handle_goodbye in Hrun. destruct (remove_cli_log_campaign_entry _ _) as [ids campaigns].
    simplify_run. apply Hsame; try done; solve_quiet.
  - simplify_run. apply Hsame; try done; solve_quiet.
  - simplify_run. apply Hsame; try done; solve_quiet.
Qed.
(** *** Names in messages *)

Definition named (w : WorkloadNamed) : string := workload_name (instance_name w).

(** A name stands for one workload, and is deleted once. *)
Definition tidy (added : list WorkloadNamed) (deleted : list DeletedWorkload) : Prop :=
  (∀ w w', w ∈ added → w' ∈ added → named w = named w' → w = w') ∧
  NoDup (deleted_name <$> deleted).

Definition tidy_message (msg : FromServer) : Prop :=
  match msg with
  | ServerHello _ added => tidy added []
  | UpdateWorkload added deleted => tidy added deleted
  | _ => True
  end.

Lemma keyed_functional R (added : list WorkloadNamed) :
  keyed R → (∀ w, w ∈ added → ∃ n, R !! n = Some w) →
  ∀ w w', w ∈ added → w' ∈ added → named w = named w' → w = w'.
Proof.
  intros HR Hadded w w' [n Hw]%Hadded [n' Hw']%Hadded Heq. unfold named in Heq.
  rewrite (HR _ _ Hw), (HR _ _ Hw') in Heq. congruence.
Qed.

Lemma all_deleted_nodup current new :
  keyed current → NoDup (deleted_name <$> all_deleted current new).
Proof.
  intros Hkeyed. unfold all_deleted.
  assert (∀ l : list (string * WorkloadNamed), NoDup l.*1 → (∀ p, p ∈ l → named p.2 = p.1) →
    NoDup (deleted_name <$> omap (deleted_or_none new) l)) as Hloop.
  { induction l as [|[n w] l IH]; intros Hnd Hl; [constructor|].
    rewrite fmap_cons in Hnd. apply NoDup_cons in Hnd as [Hn Hnd].
    assert (∀ p, p ∈ l → named p.2 = p.1) as Hl' by (intros p ?; apply Hl; by right).
    csimpl. unfold deleted_or_none at 1. simpl. case_decide; [|by apply IH].
    rewrite fmap_cons. apply NoDup_cons. split; [|by apply IH].
    intros (d & Heq & ([n' w'] & Hin & Hd)%list_elem_of_omap)%list_elem_of_fmap. apply Hn.
    unfold deleted_or_none in Hd. case_decide; [|done]. injection Hd as <-.
    specialize (Hl (n, w) ltac:(by left)). specialize (Hl' _ Hin). simpl in *.
    unfold deleted_name, named in *. simpl in Heq.
    apply list_elem_of_fmap. exists (n', w'). split; [|done]. simpl. congruence. }
  apply Hloop; [apply NoDup_fst_map_iter|]. intros [n w] Hin%elem_of_map_iter. by apply Hkeyed.
Qed.

Lemma update_accepted_tidy s ds ad s' :
  server_wf s → update s ds = (Ok (Some ad), s') → tidy (added_workloads ad) (deleted_workloads ad).
Proof.
  intros Hs Hup. split.
  - apply (keyed_functional (rendered_workloads s')); [by eapply update_keyed|].
    intros w Hw. apply (sent_added "" _ _ _ _ (update_accepted_sent _ _ _ _ Hs Hup "")) in Hw
      as (n & Hn & _). by exists n.
  - unfold update in Hup. destruct (prepare_update s ds) as [[r o']|e] eqn:Hprep; [|done].
    apply prepare_update_ok in Hprep as (_ & _ & Ho & _). symmetry in Ho.
    destruct o' as [ad'|]; [|done]. injection Hup as <- _. apply extract_Some in Ho as ->. simpl.
    unfold apply_delete_conditions_to. rewrite <-list_fmap_compose.
    rewrite (list_fmap_ext _ deleted_name).
    + apply all_deleted_nodup. eapply render_workloads_keyed, (wf_rendered _ Hs).
    + intros i d _. unfold deleted_name. simpl. by rewrite apply_delete_conditions_name.
Qed.

Lemma not_started_sublist sv deleted :
  (handle_not_started_deleted_workloads sv deleted).1.2 `sublist_of` deleted.
Proof.
  unfold handle_not_started_deleted_workloads.
  assert (∀ l1 l2 sv0, ∃ l, (foldl not_started_step (sv0, l1, l2) deleted).1.2 = l1 ++ l ∧
    l `sublist_of` deleted) as Hloop.
  { induction deleted as [|d deleted IH]; intros l1 l2 sv0; cbn [foldl];
      [exists []; by rewrite app_nil_r|].
    unfold not_started_step at 2. case_match.
    - destruct (IH l1 (l2 ++ [{| state_instance_name := deleted_instance_name d;
        execution_state := removed |}])
        (set_workload_states (remove (workload_states_map sv0) (deleted_instance_name d)) sv0))
        as (l & -> & Hl). exists l. split; [done|]. by constructor.
    - destruct (IH (l1 ++ [d]) l2 sv0) as (l & -> & Hl). exists (d :: l).
      split; [by rewrite <-app_assoc|]. by constructor. }
  destruct (Hloop [] [] sv) as (l & -> & Hl). done.
Qed.
Lemma quiet_tidy out : all_quiet out → Forall tidy_message out.
Proof. intros Hq. eapply Forall_impl; [exact Hq|]. by intros []. Qed.

Lemma handle_tidy sv m sv' out :
  ankaios_server_wf sv → handle sv m = Some (sv', out) → Forall tidy_message out.
Proof.
  intros Hwf.
  destruct m as [a tags|a cpu mem|a|[id [[r|r|r| |]|]]|states| |conn|id logs|id r];
    cbn [handle handle_request request_content request_id]; intros Hrun.
  - unfold handle_agent_hello in Hrun. simplify_run.
    apply Forall_app. split; [apply quiet_tidy; case_match; solve_quiet|].
    apply Forall_cons. split; [|apply quiet_tidy; solve_quiet]. split; [|apply NoDup_nil_2].
    apply (keyed_functional (rendered sv)); [by apply rendered_keyed|].
    intros w ([n w'] & -> & [_ Hin%elem_of_map_iter]%list_elem_of_filter)%list_elem_of_fmap. by exists n.
  - unfold handle_agent_load_status in Hrun. simplify_run. apply quiet_tidy. solve_quiet.
  - apply handle_agent_gone_effect in Hrun as [-> (events & Hq%quiet_publish & ->)].
    apply quiet_tidy. solve_quiet.
  - unfold handle_update_state_request in Hrun. destruct (new_state r) as [ns|];
      [|simplify_run; apply quiet_tidy; solve_quiet].
    destruct (generate_new_state _ _ _) as [generated|]; [|simplify_run; apply quiet_tidy; solve_quiet].
    destruct (Validation.validate_pre_rendering _); [|simplify_run; apply quiet_tidy; solve_quiet].
    destruct (update (server_state sv) (new_desired_state generated)) as [[[ad|]|e] s] eqn:Hup;
      [|simplify_run; apply quiet_tidy; solve_quiet..].
    apply (update_accepted_tidy _ _ _ _ (wf_server_state _ Hwf)) in Hup as [Hfun Hnd].
    unfold handle_post_update_steps in Hrun.
    match type of Hrun with context [cancel_log_requests_of_deleted_workloads ?s ?d] =>
      pose proof (quiet_cancel_deleted s d) as Hcancels end.
    destruct (cancel_log_requests_of_deleted_workloads _ _) as [campaigns cancels].
    match type of Hrun with context [handle_not_started_deleted_workloads ?sv ?d] =>
      pose proof (not_started_sublist sv d) as Hsub end.
    destruct (handle_not_started_deleted_workloads _ _) as [[sv1 retained] removed_states].
    simplify_run. simpl in Hsub.
    apply Forall_app. split; [apply quiet_tidy; solve_quiet|].
    apply Forall_app. split; [apply quiet_tidy; solve_quiet|].
    apply Forall_app. split; [apply quiet_tidy; case_match; solve_quiet|].
    apply Forall_cons. split; [|apply quiet_tidy; solve_quiet]. split; [done|].
    eapply sublist_NoDup; [exact Hnd|by apply fmap_sublist].
  - unfold handle_complete_state_request in Hrun. simplify_run.
    case_match; simplify_run; apply quiet_tidy; solve_quiet.
  - unfold handle_logs_request in Hrun. case_match; simplify_run; apply quiet_tidy; solve_quiet.
  - unfold handle_logs_cancel_request in Hrun. simplify_run. apply quiet_tidy. solve_quiet.
  - unfold handle_events_cancel_request in Hrun. simplify_run. apply quiet_tidy. solve_quiet.
  - simplify_run. apply quiet_tidy. solve_quiet.
  - unfold handle_update_workload_state in Hrun. simplify_run. apply quiet_tidy. solve_quiet.
  - simplify_run. constructor.
  - unfold handle_goodbye in Hrun. destruct (remove_cli_log_campaign_entry _ _) as [ids campaigns].
    simplify_run. apply quiet_tidy. solve_quiet.
  - simplify_run. apply quiet_tidy. solve_quiet.
  - simplify_run. apply quiet_tidy. solve_quiet.
Qed.

Lemma deliver_tidy agent msg : tidy_message msg → Forall tidy_message (deliver agent msg).
Proof.
  destruct msg as [n added|added deleted|states|r| |id r|id|]; intros Hmsg;
    try (apply quiet_tidy; by apply deliver_quiet).
  - simpl. case_decide; [|constructor]. by rewrite Forall_singleton.
  - destruct Hmsg as [Hfun Hnd].
    assert (tidy (filter (λ w, agent_name (instance_name w) = agent) added)
      (filter (λ d, agent_name (deleted_instance_name d) = agent) deleted)) as Htidy.
    { split.
      - intros w w' [_ ?]%list_elem_of_filter [_ ?]%list_elem_of_filter. by apply Hfun.
      - eapply sublist_NoDup; [exact Hnd|apply fmap_sublist, sublist_filter]. }
    simpl. destruct (filter _ added), (filter _ deleted);
      [apply Forall_nil_2|by rewrite Forall_singleton..].
Qed.
End server_tells.

(** ** All interleavings *)

Section convergence.
Context `{IterOrder, Sha256, TemplateEngine, YamlMapping, KeyOrder}.
Context {SC : StateConversion} {WC : WireConversion} {V : Versions} {LE : LogEncoding}.
Implicit Types (s : ControlPlane) (g : GrpcServer) (sv : AnkaiosServer).

Section agent.
Context (agent : string) (agent_nonempty : agent ≠ "").

(** What has arrived on a connection, and what is on the way to the agent. *)
Definition arrived s (c : nat) : list FromServer := received_by_agent (sent_of (cp_grpc s) c).
Definition on_the_way s : list FromServer := cp_pending s ≫= deliver agent.
Definition unhandled s : list ToServer := drop (cp_handled s) (to_ankaios_server (cp_grpc s)).

(** From its last hello on, the messages tell the agent what it has to run. *)
Definition informed sv (l : list FromServer) : Prop :=
  known agent sv → has_hello l → ∀ m, replay m l = workloads_of agent (rendered sv).

(** After the server has handled the messages, the agent is known or, if they
    do not concern it, [P] holds. *)
Definition registered_after (P : Prop) (ms : list ToServer) : Prop :=
  foldl (λ P m, if registers agent m then True else if unregisters agent m then False else P) P ms.

Lemma registered_after_mono (P Q : Prop) ms :
  (P → Q) → registered_after P ms → registered_after Q ms.
Proof.
  revert P Q. induction ms as [|m ms IH]; intros P Q HPQ; simpl; [done|].
  apply IH. by case_match; [|case_match].
Qed.

Lemma registered_after_keeps (P : Prop) ms :
  Forall (λ m, unregisters agent m = false) ms → P → registered_after P ms.
Proof.
  revert P. induction ms as [|m ms IH]; intros P Hms HP; [done|].
  apply Forall_cons in Hms as [Hm Hms]. simpl. rewrite Hm. apply IH; [done|]. by case_match.
Qed.

Lemma registered_after_same (P : Prop) ms :
  Forall (λ m, registers agent m = false ∧ unregisters agent m = false) ms →
  registered_after P ms → P.
Proof.
  revert P. induction ms as [|m ms IH]; intros P Hms; [done|].
  apply Forall_cons in Hms as [[Hr Hu] Hms]. simpl. rewrite Hr, Hu. by apply IH.
Qed.

Record converging s : Prop := {
  conv_grpc : grpc_wf (cp_grpc s);
  conv_handled : cp_handled s ≤ length (to_ankaios_server (cp_grpc s));
  conv_tidy : Forall tidy_message (cp_pending s);
  conv_arrived c : agent_senders (cp_grpc s) !! agent = Some c → Forall tidy_message (arrived s c);
  conv_server sv : cp_server s = Some sv → ankaios_server_wf sv ∧ informed sv (on_the_way s);
  conv_sender sv c : cp_server s = Some sv → agent_senders (cp_grpc s) !! agent = Some c →
    informed sv (arrived s c ++ on_the_way s) ∧
    registered_after (known agent sv ∧ has_hello (arrived s c ++ on_the_way s)) (unhandled s)
}.

(** *** Steps of the clients *)

(** The sender of the agent is kept with all it sent, or removed. *)
Definition sender_kept g g' : Prop :=
  ∃ ms, to_ankaios_server g' = to_ankaios_server g ++ ms ∧
  ∀ c, agent_senders g' !! agent = Some c →
    agent_senders g !! agent = Some c ∧ sent_of g' c = sent_of g c ∧
    Forall (λ m, unregisters agent m = false) ms.

#[local] Instance sender_kept_preorder : PreOrder sender_kept.
Proof.
  split.
  - intros g. exists []. split; [by rewrite app_nil_r|]. intros c Hc. by split_and!.
  - intros g1 g2 g3 (ms1 & Hto1 & Hc1) (ms2 & Hto2 & Hc2). exists (ms1 ++ ms2).
    rewrite Hto2, Hto1, app_assoc. split; [done|].
    intros c (Hc & -> & Hms2)%Hc2. apply Hc1 in Hc as (Hc & -> & Hms1).
    split_and!; [done..|by apply Forall_app].
Qed.

Lemma sender_kept_push ms g :
  Forall (λ m, unregisters agent m = false) ms → sender_kept g (push_to_ankaios ms g).
Proof. intros Hms. exists ms. split; [done|]. intros c Hc. by split_and!. Qed.

Lemma sender_kept_stop c g : sender_kept g (stop_connection c g).
Proof. exists []. split; [by rewrite app_nil_r|]. intros c' Hc. by split_and!. Qed.

Lemma sender_kept_delete name g : sender_kept g (set_senders (delete name (agent_senders g)) g).
Proof.
  exists []. split; [by rewrite app_nil_r|]. intros c Hc. cbn in Hc.
  apply lookup_delete_Some in Hc as [_ Hc]. by split_and!.
Qed.

Lemma sender_kept_gone name g :
  sender_kept g (push_to_ankaios [AgentGone name] (set_senders (delete name (agent_senders g)) g)).
Proof.
  exists [AgentGone name]. split; [done|]. intros c Hc. cbn in Hc.
  apply lookup_delete_Some in Hc as [Hne Hc].
  split_and!; [done..|]. repeat constructor. simpl. by apply bool_decide_eq_false.
Qed.

Lemma sender_kept_end c conn failed g : sender_kept g (end_connection c conn failed g).
Proof.
  unfold end_connection. etrans; [apply (sender_kept_stop c)|].
  repeat case_match; [apply sender_kept_delete|apply sender_kept_gone|done].
Qed.

Lemma to_ankaios_registers name m go_on ms :
  to_ankaios name m = Ok (go_on, ms) → Forall (λ m, unregisters agent m = false) ms.
Proof.
  unfold to_ankaios. intros Hms. repeat case_match; simplify_eq; repeat constructor.
  unfold to_server_log_entries_response. apply Forall_fmap, Forall_true. done.
Qed.

Lemma sender_kept_connection c item g : sender_kept g (connection_step c item g).
Proof.
  unfold connection_step. repeat case_match; try reflexivity; try apply sender_kept_end.
  - apply sender_kept_push. by eapply to_ankaios_registers.
  - etrans; [apply sender_kept_push; by eapply to_ankaios_registers|apply sender_kept_end].
Qed.
(** A new connection of the agent has got nothing and the server has to handle
    its hello; every other step keeps the sender. *)
Definition sender_new g g' : Prop :=
  grpc_wf g → ∃ tags, to_ankaios_server g' = to_ankaios_server g ++ [AgentHello agent tags] ∧
  ∀ c, agent_senders g' !! agent = Some c → sent_of g' c = [].

Lemma sender_insert name cli g :
  grpc_wf g → name ≠ agent → sender_kept g (insert_sender name cli g).
Proof.
  intros Hwf Hne. exists []. split; [by rewrite app_nil_r|]. intros c Hc. cbn in Hc.
  rewrite lookup_insert_ne in Hc by done. split_and!; [done| |constructor].
  destruct (senders_known g Hwf _ _ Hc) as (conn & Hconn & _).
  unfold sent_of. simpl. rewrite lookup_app_l; [done|].
  rewrite (sent_length g Hwf). by eapply lookup_lt_Some.
Qed.

Lemma client_step g e :
  grpc_wf g → match e with
              | FromAnkaiosServer _ => False
              | ConnectCli name _ => name ≠ agent
              | _ => True
              end →
  sender_kept g (grpc_step g e) ∨ sender_new g (grpc_step g e).
Proof.
  intros Hwf He. destruct e as [certs first|name first|c item|m]; cbn [grpc_step]; [..|done].
  - unfold connect_agent. destruct (certificate_names certs) as [sans|]; [|by left]. simpl.
    destruct first as [[[a version tags| | | | | | |]|]|]; try by left.
    destruct (check_version_compatibility version); [|by left]. simpl.
    destruct (_ || _); [|by left]. destruct (decide (a = agent)) as [->|Hne]; [right|left].
    + intros _. exists (default ∅ tags). split; [done|]. intros c Hc. cbn in Hc.
      rewrite lookup_insert_eq in Hc. injection Hc as <-.
      unfold sent_of. simpl. by rewrite <-(sent_length g Hwf), list_lookup_middle.
    + etrans; [by apply sender_insert|]. apply sender_kept_push. by repeat constructor.
  - left. unfold connect_cli. destruct first as [[[|version| | | | | |]|]|]; try done.
    destruct (check_version_compatibility version); [by apply sender_insert|done].
  - left. apply sender_kept_connection.
Qed.

Lemma converging_client s g :
  converging s → grpc_wf g → sender_kept (cp_grpc s) g ∨ sender_new (cp_grpc s) g →
  converging (with_grpc g s).
Proof.
  intros [Hwf Hhandled Htidy Harrived Hsv Hsender] Hwf' Hg.
  assert (∀ ms, to_ankaios_server g = to_ankaios_server (cp_grpc s) ++ ms →
    unhandled (with_grpc g s) = unhandled s ++ ms) as Hdrop.
  { intros ms Hto. unfold unhandled. simpl. rewrite Hto. by apply drop_app_le. }
  split; cbn [cp_grpc cp_handled cp_server cp_pending with_grpc]; [done| |done| |done|].
  - destruct Hg as [(ms & -> & _)|Hnew]; [rewrite length_app; lia|].
    destruct (Hnew Hwf) as (tags & -> & _). rewrite length_app. lia.
  - intros c Hc. unfold arrived. cbn [cp_grpc with_grpc]. destruct Hg as [(ms & _ & Hkept)|Hnew].
    + destruct (Hkept c Hc) as (Hc0 & -> & _). by apply Harrived.
    + destruct (Hnew Hwf) as (tags & _ & ->); [constructor|done].
  - intros sv c Hs Hc. destruct Hg as [(ms & Hto & Hkept)|Hnew].
    + destruct (Hkept c Hc) as (Hc0 & Hsent & Hms). destruct (Hsender sv c Hs Hc0) as [Hinf Hreg].
      unfold arrived. cbn [cp_grpc with_grpc]. rewrite Hsent. split; [done|].
      rewrite (Hdrop _ Hto). unfold registered_after. rewrite foldl_app.
      by apply registered_after_keeps.
    + destruct (Hnew Hwf) as (tags & Hto & Hempty). unfold arrived. cbn [cp_grpc with_grpc].
      rewrite (Hempty c Hc). split; [by apply Hsv|]. rewrite (Hdrop _ Hto).
      unfold registered_after. rewrite foldl_app. simpl. by rewrite bool_decide_eq_true_2.
Qed.

(** *** Steps of the server *)

Lemma informed_tells sv sv' l out :
  (known agent sv' ↔ known agent sv) → (known agent sv → tells agent (rendered sv) out (rendered sv')) →
  informed sv l → informed sv' (l ++ (out ≫= deliver agent)).
Proof.
  intros Hknown Htells Hinf Hk%Hknown Hhello m. destruct (Htells Hk) as [Hno Heq].
  apply has_hello_app in Hhello as [Hhello|Hhello]; [|done].
  by rewrite replay_app, Hinf.
Qed.

Lemma informed_registers sv' l out :
  (∀ m, replay m (out ≫= deliver agent) = workloads_of agent (rendered sv')) →
  informed sv' (l ++ (out ≫= deliver agent)).
Proof. intros Heq _ _ m. by rewrite replay_app. Qed.

Lemma agent_gone_unknown sv sv' out :
  handle_agent_gone sv agent = Some (sv', out) → ¬ known agent sv'.
Proof.
  intros [-> _]%handle_agent_gone_effect. unfold known. simpl. rewrite lookup_delete_eq.
  by intros [? ?].
Qed.

Lemma converging_server s : converging s → converging (server_handles s).
Proof.
  intros Hs. pose proof Hs as [Hwf Hhandled Htidy Harrived Hsv Hsender]. unfold server_handles.
  destruct (cp_server s) as [sv|] eqn:Hserver; [|done].
  destruct (to_ankaios_server (cp_grpc s) !! cp_handled s) as [m|] eqn:Hm; [|done].
  pose proof (lookup_lt_Some _ _ _ Hm) as Hlt.
  destruct (handle sv m) as [[sv' out]|] eqn:Hhandle; [|by split; simpl; [|lia|..]].
  destruct (Hsv sv eq_refl) as [Hswf Hway]. pose proof (handle_wf _ _ _ _ Hswf Hhandle) as Hswf'.
  set (s' := {| cp_server := _; cp_grpc := _; cp_handled := _; cp_pending := _ |}).
  assert (on_the_way s' = on_the_way s ++ (out ≫= deliver agent)) as Hway' by apply bind_app.
  assert (unhandled s = m :: unhandled s') as Hunhandled by by apply drop_S.
  assert (∀ c, arrived s' c = arrived s c) as Harr by done.
  assert (∀ l, informed sv l → informed sv' (l ++ (out ≫= deliver agent))) as Hinf.
  { intros l Hl. destruct (registers agent m) eqn:Hreg.
    - apply informed_registers. by apply (handle_registers _ _ _ _ _ Hswf Hreg Hhandle).
    - destruct (unregisters agent m) eqn:Hun.
      + destruct m; try done. apply bool_decide_eq_true in Hun as ->.
        intros Hk. by destruct (agent_gone_unknown _ _ _ Hhandle).
      + destruct (handle_tells _ _ _ _ _ Hswf agent_nonempty Hhandle Hreg Hun).
        by apply (informed_tells sv). }
  split; [done|simpl; lia| |done| |].
  - apply Forall_app. split; [exact Htidy|exact (handle_tidy _ _ _ _ Hswf Hhandle)].
  - intros sv1 [= <-]. split; [done|]. rewrite Hway'. by apply Hinf.
  - intros sv1 c [= <-] Hc. destruct (Hsender sv c eq_refl Hc) as [Hl Hreg_after].
    rewrite Harr, Hway', app_assoc. split; [by apply Hinf|].
    rewrite Hunhandled in Hreg_after. unfold registered_after in Hreg_after. simpl in Hreg_after.
    destruct (registers agent m) eqn:Hreg.
    + revert Hreg_after. apply registered_after_mono. intros _.
      destruct (handle_registers _ _ _ _ _ Hswf Hreg Hhandle) as (? & ? & _).
      split; [done|]. apply has_hello_app. by right.
    + destruct (unregisters agent m) eqn:Hun; revert Hreg_after; apply registered_after_mono; [done|].
      destruct (handle_tells _ _ _ _ _ Hswf agent_nonempty Hhandle Hreg Hun) as [Hknown _].
      intros [Hk Hhello]. split; [by apply Hknown|]. apply has_hello_app. by left.
Qed.

(** *** Steps of the middleware *)

Lemma informed_suffix sv l1 l2 : informed sv (l1 ++ l2) → informed sv l2.
Proof.
  intros Hinf Hk Hhello m. rewrite <-(Hinf Hk) with (m := m), replay_app; [by apply replay_after_hello|].
  apply has_hello_app. by right.
Qed.

Lemma converging_forward s : converging s → converging (middleware_forwards s).
Proof.
  intros [Hwf Hhandled Htidy Harrived Hsv Hsender]. unfold middleware_forwards.
  destruct (cp_pending s) as [|m pending] eqn:Hp; [by split; rewrite ?Hp|].
  apply Forall_cons in Htidy as [Hm Htidy].
  destruct (forward_same m (cp_grpc s)) as (Hs & Hc & Hto & Hlen).
  set (s' := {| cp_server := _; cp_grpc := _; cp_handled := _; cp_pending := _ |}).
  assert (on_the_way s = deliver agent m ++ on_the_way s') as Hway
    by (unfold on_the_way; by rewrite Hp).
  assert (unhandled s' = unhandled s) as Hun by (unfold unhandled; simpl; by rewrite Hto).
  split; cbn [cp_grpc cp_server cp_handled cp_pending s'].
  - by eapply grpc_wf_same.
  - by rewrite Hto.
  - done.
  - intros c Hsend. rewrite Hs in Hsend.
    destruct (forward_delivers m (cp_grpc s) agent c Hwf Hsend) as (new & Hnew & Hdel).
    unfold arrived. cbn [cp_grpc s']. rewrite Hnew, received_app, Hdel.
    apply Forall_app. split; [by apply Harrived|by apply deliver_tidy].
  - intros sv Hserver. destruct (Hsv sv Hserver) as [? Hinf]. split; [done|].
    eapply informed_suffix. by rewrite <-Hway.
  - intros sv c Hserver Hsend. rewrite Hs in Hsend.
    destruct (forward_delivers m (cp_grpc s) agent c Hwf Hsend) as (new & Hnew & Hdel).
    assert (arrived s' c ++ on_the_way s' = arrived s c ++ on_the_way s) as ->.
    { unfold arrived. cbn [cp_grpc s']. by rewrite Hnew, received_app, Hdel, Hway, app_assoc. }
    rewrite Hun. by apply Hsender.
Qed.

Lemma converging_step s e :
  match e with CliConnects name _ => name ≠ agent | _ => True end →
  converging s → converging (control_plane_step s e).
Proof.
  intros He Hs. pose proof (conv_grpc s Hs) as Hwf.
  destruct e as [certs first|name first|c item| |]; cbn [control_plane_step].
  - apply converging_client; [done|by apply grpc_wf_step|by apply client_step].
  - apply converging_client; [done|by apply grpc_wf_step|by apply client_step].
  - apply converging_client; [done|by apply grpc_wf_connection|left; apply sender_kept_connection].
  - by apply converging_server.
  - by apply converging_forward.
Qed.

Lemma converging_start startup sv out :
  start server_new startup = Ok (sv, out) → converging (control_plane_start sv out).
Proof.
  intros Hstart.
  assert (ankaios_server_wf sv ∧ agent_map sv = ∅ ∧ Forall tidy_message out) as (Hwf & Hagents & Htidy).
  { unfold start in Hstart. destruct startup as [st|];
      [|injection Hstart as <- <-; by split; [apply server_wf_new|]].
    destruct (Validation.validate_pre_rendering _); [|done]. simpl in Hstart.
    pose proof (server_wf_update (server_state server_new) (desired_state st) server_wf_default) as Hs.
    destruct (update _ _) as [[[ad|]|e] s'] eqn:Hup; [| |done]; injection Hstart as <- <-;
      (split; [|split; [done|]]); try (split; simpl; [exact Hs| |apply campaign_wf_default]).
    - apply states_wf_initial_state, map_Forall_empty.
    - apply Forall_singleton. by apply (update_accepted_tidy _ _ _ _ server_wf_default Hup).
    - apply map_Forall_empty.
    - constructor. }
  split; cbn [cp_server cp_grpc cp_handled cp_pending control_plane_start].
  - apply grpc_wf_new.
  - simpl. lia.
  - done.
  - intros c Hc. simpl in Hc. by rewrite lookup_empty in Hc.
  - intros sv1 [= <-]. split; [done|]. intros [e He]. by rewrite Hagents, lookup_empty in He.
  - intros sv1 c _ Hc. simpl in Hc. by rewrite lookup_empty in Hc.
Qed.

Lemma converging_run s events :
  (∀ first, CliConnects agent first ∉ events) → converging s → converging (control_plane_run s events).
Proof.
  unfold control_plane_run. revert s. induction events as [|e events IH]; intros s Hcli Hs; [done|].
  simpl. apply IH; [intros first Hin; by apply (Hcli first); right|].
  apply converging_step; [|done]. destruct e as [|name first| | |]; try done.
  intros ->. apply (Hcli first). by left.
Qed.
End agent.
End convergence.

(** ** Properties *)

(** C4: the desired state reaches the agents. Whatever the clients send and
    however the steps of the server and the middleware interleave, also when
    connections break, agents connect again and updates move workloads: as soon
    as the server has handled every hello and every end of a connection of an
    agent, the messages that have arrived on the agent's connection, followed
    by those on their way, tell it to run exactly the workloads that are
    rendered for it, each with the content the server has; and nothing that
    arrived before the last hello matters. *)
Theorem agents_learn_desired_workloads `{IterOrder, Sha256, TemplateEngine, YamlMapping, KeyOrder}
    {SC : StateConversion} {WC : WireConversion} {V : Versions} {LE : LogEncoding}
    startup sv0 out events agent c sv :
  start server_new startup = Ok (sv0, out) → agent ≠ "" →
  (∀ first, CliConnects agent first ∉ events) →
  let s := control_plane_run (control_plane_start sv0 out) events in
  cp_server s = Some sv → agent_senders (cp_grpc s) !! agent = Some c →
  Forall (λ m, registers agent m = false ∧ unregisters agent m = false) (unhandled s) →
  has_hello (arrived s c ++ on_the_way agent s) ∧
  ∀ m n w, replay m (arrived s c ++ on_the_way agent s) !! n = Some w ↔
    rendered_workloads (server_state sv) !! n = Some w ∧ agent_name (instance_name w) = agent.
Proof.
  intros Hstart Hne Hcli s Hserver Hsender Hunhandled.
  assert (converging agent s) as Hs
    by (apply converging_run; [done..|by eapply converging_start]).
  destruct (conv_sender _ _ Hs sv c Hserver Hsender) as [Hinformed Hreg].
  apply registered_after_same in Hreg as [Hknown Hhello]; [|done]. split; [done|].
  intros m n w. rewrite Hinformed by done. apply workloads_of_Some.
Qed.

(** ** Examples *)

Section examples.
#[local] Existing Instance key_order.
#[local] Existing Instance example_sha.
#[local] Existing Instance plain_engine.
#[local] Existing Instance assoc_mapping.
#[local] Existing Instance listed_keys.
#[local] Existing Instance example_conversion.
#[local] Existing Instance example_wire.
#[local] Existing Instance example_versions.
#[local] Instance example_log_encoding : LogEncoding := MessageSize.example_encoding (λ _, 0%N).

(** The agent connects, gets its hello, a user adds a workload; the messages of
    the update are on their way. *)
Definition example_update : UpdateStateRequest :=
  {| new_state := Some (web_state ∅ : CompleteState); update_mask := [] |}.
Definition example_learning : list ControlPlaneEvent :=
  [AgentConnects None (Some (Some (WireAgentHello "agent_A" "1.0.0" None)));
   ServerHandles; MiddlewareForwards;
   CliConnects "cli-conn-1" (Some (Some (WireCommanderHello "1.0.0")));
   ClientSends 1 (StreamMessage (Some (WireRequest {| request_id := "1";
     request_content := Some (UpdateStateRequestContent example_update) |})));
   ServerHandles].

Lemma agents_learn_desired_workloads_witness :
  let s := control_plane_run (control_plane_start server_new []) example_learning in
  ∃ sv w, cp_server s = Some sv ∧ rendered_workloads (server_state sv) !! "web" = Some w ∧
    replay ∅ (arrived s 0 ++ on_the_way "agent_A" s) !! "web" = Some w.
Proof.
  intros s. destruct (cp_server s) as [sv|] eqn:Hsv; [|by vm_compute in Hsv].
  destruct (agents_learn_desired_workloads None server_new [] example_learning "agent_A" 0 sv)
    as [_ Hreplay].
  - reflexivity.
  - discriminate.
  - intros first Hin. repeat (apply elem_of_cons in Hin as [Hin|Hin]; [discriminate Hin|]).
    apply elem_of_nil in Hin. exact Hin.
  - exact Hsv.
  - vm_compute. reflexivity.
  - assert (unhandled s = []) as Hun by (vm_compute; reflexivity).
    change (unhandled (control_plane_run (control_plane_start server_new []) example_learning))
      with (unhandled s). rewrite Hun. constructor.
  - destruct (replay ∅ (arrived s 0 ++ on_the_way "agent_A" s) !! "web") as [w|] eqn:Hw;
      [|by vm_compute in Hw].
    exists sv, w. split; [reflexivity|]. split; [|reflexivity]. apply (Hreplay ∅ "web" w). exact Hw.
Defined.
End examples.
