(* ===== verification/AgentConvergence.v ===== *)
(** * Ankaios: the control loops are told the desired workloads

    The agent's side of [Convergence.v]: what the control loops of an agent were
    told to run, after the agent has handled messages of the server, reports of
    its own workloads and everything else in any order. As long as the
    dependencies of an update are fulfilled when it arrives, this is exactly
    what the messages say; together with [Convergence.v] it is what the server
    has rendered for the agent. *)

From stdpp Require Import base tactics gmap strings list sets.
From S2P Require Import Prelude Api WorkloadStates RequestId LogCampaign ConfigRenderer.
From S2P Require Import DeleteGraph StateManipulation Messages MessageSize ServerState.
From S2P Require Import StateComparator StateDifferences EventHandler Server ServerAnswers.
From S2P Require Import Scheduler WorkloadFiles RetryManager ControlLoop Authorizer ControlInterface.
From S2P Require Import RuntimeManager AgentManager Grpc System Convergence.

(** ** What a control loop was told *)

Section told.
Context `{IterOrder} {SC : StateConversion} {Host : Type} {RH : RuntimeHost Host}.
Implicit Types (rm : RuntimeManager (Host := Host)) (m : RenderedWorkloads).

Definition target_after (target : option WorkloadNamed) (c : WorkloadCommand) : option WorkloadNamed :=
  match c with
  | CommandUpdate w _ => w
  | CommandDelete => None
  | _ => target
  end.

(** The workload the last command of a loop is about. *)
Definition task_target (t : ControlLoopTask) : option WorkloadNamed :=
  foldl target_after (Some (task_workload t)) (task_commands t).

(** What the loop of the workload with this name is to run. *)
Definition told rm (name : string) : option WorkloadNamed :=
  wl ← RuntimeManager.workloads rm !! name; t ← tasks rm !! channel wl; task_target t.

Lemma told_same rm rm' name :
  RuntimeManager.workloads rm' = RuntimeManager.workloads rm → tasks rm' = tasks rm →
  told rm' name = told rm name.
Proof. unfold told. by intros -> ->. Qed.

Lemma told_send rm name wl c n :
  rm_wf rm → RuntimeManager.workloads rm !! name = Some wl →
  told (send_command (channel wl) c rm) n =
  if decide (n = name) then target_after (told rm n) c else told rm n.
Proof.
  intros Hwf Hwl. unfold told. cbn [RuntimeManager.workloads send_command set_tasks].
  case_decide as Hn.
  - subst n. rewrite Hwl. cbn. destruct (wf_channel _ Hwf _ _ Hwl) as (t & Ht & _).
    rewrite (send_command_tasks (channel wl) c rm), decide_True, Ht by done. cbn.
    unfold task_target. cbn. by rewrite foldl_snoc.
  - destruct (RuntimeManager.workloads rm !! n) as [wl'|] eqn:Hwl'; [|done]. cbn.
    rewrite (send_command_tasks (channel wl) c rm), decide_False; [done|].
    intros Heq. apply Hn. by eapply (wf_distinct _ Hwf).
Qed.

(** Registering another object for the same loop. *)
Lemma told_replace rm name wl wl' n :
  RuntimeManager.workloads rm !! name = Some wl → channel wl' = channel wl →
  told (set_workloads (<[name := wl']> (RuntimeManager.workloads rm)) rm) n = told rm n.
Proof.
  intros Hwl Hch. unfold told. cbn [RuntimeManager.workloads tasks set_workloads].
  destruct (decide (name = n)) as [<-|Hne].
  - by rewrite lookup_insert_eq, Hwl; cbn; rewrite Hch.
  - by rewrite lookup_insert_ne.
Qed.

Lemma told_add r rm n :
  rm_wf rm →
  told (add_workload r rm) n =
  if decide (n = reusable_name r) then Some (Scheduler.workload_named r) else told rm n.
Proof.
  intros Hwf. unfold add_workload, create_workload.
  destruct (open_control_interface _ rm) as [ci rm1] eqn:Hopen.
  apply open_control_interface_same in Hopen as (Hw & Ht & _). cbn.
  unfold told. cbn [RuntimeManager.workloads tasks set_workloads set_tasks]. case_decide as Hn.
  - subst n. unfold reusable_name. rewrite lookup_insert_eq. cbn.
    by rewrite lookup_app_r, Nat.sub_diag.
  - rewrite lookup_insert_ne by (intros Heq; by apply Hn). rewrite Hw.
    destruct (RuntimeManager.workloads rm !! n) as [wl|] eqn:Hwl; [|done]. cbn.
    destruct (wf_channel _ Hwf _ _ Hwl) as (t & Ht0 & _).
    by rewrite Ht, Ht0, (lookup_app_l_Some _ _ _ _ Ht0).
Qed.

Definition op_target (op : WorkloadOperation) : option WorkloadNamed :=
  match op with
  | OpCreate r => Some (Scheduler.workload_named r)
  | OpUpdate w _ => Some w
  | OpUpdateDeleteOnly _ | OpDelete _ => None
  end.

Lemma told_execute op rm n :
  rm_wf rm → (∀ d, op ≠ OpUpdateDeleteOnly d) →
  told (execute_workload_operation rm op) n =
  if decide (n = op_name op) then op_target op else told rm n.
Proof.
  intros Hwf Hop. destruct op as [r|w d|d|d]; cbn [execute_workload_operation op_name op_target];
    [by apply told_add| |by destruct (Hop d)|].
  - unfold update_workload. destruct (RuntimeManager.workloads rm !! _) as [wl|] eqn:Hwl;
      [|by apply told_add].
    pose proof (workload_update_spec wl (Some w) (control_interface_info_for rm w) rm) as Hspec.
    destruct (workload_update _ _ _ _) as [wl' rm'].
    destruct Hspec as (Hch & Hw & _ & rm1 & Hw1 & Ht1 & ->).
    rewrite <-Hw1 in Hwl. rewrite (told_replace _ (workload_name (instance_name w)) wl); [|done..].
    rewrite (told_send _ (workload_name (instance_name w))); [|by eapply rm_wf_same, Hwf|done].
    case_decide; [done|]. by apply told_same.
  - unfold delete_workload. fold (deleted_name d).
    destruct (RuntimeManager.workloads rm !! deleted_name d) as [wl|] eqn:Hwl.
    + case_decide as Hn.
      * unfold told. cbn. subst n. by rewrite lookup_delete_eq.
      * pose proof (told_send rm (deleted_name d) wl CommandDelete n Hwf Hwl) as Hsend.
        rewrite decide_False in Hsend by done. rewrite <-Hsend. unfold told. cbn.
        by rewrite lookup_delete_ne by (intros Heq; by apply Hn).
    + case_decide as Hn; [|by apply told_same]. subst n. unfold told. cbn. by rewrite Hwl.
Qed.

Lemma told_execute_all ops rm n :
  rm_wf rm → NoDup (op_name <$> ops) → Forall (λ op, ∀ d, op ≠ OpUpdateDeleteOnly d) ops →
  (∀ op, op ∈ ops → op_name op = n → told (execute_workload_operations ops rm) n = op_target op) ∧
  (n ∉ op_name <$> ops → told (execute_workload_operations ops rm) n = told rm n).
Proof.
  intros Hwf Hnd Hall. revert rm Hwf. induction Hall as [|op ops Hop Hall IH]; intros rm Hwf.
  { split; [by intros op ?%elem_of_nil|done]. }
  rewrite fmap_cons in Hnd |- *. apply NoDup_cons in Hnd as [Hnotin Hnd].
  destruct (IH Hnd (execute_workload_operation rm op)) as [Hin Hout]; [by apply rm_wf_execute|].
  split.
  - intros op' [->|Hop']%elem_of_cons Hn; [|by apply Hin].
    etrans; [apply Hout; by subst n|]. rewrite told_execute by done. by rewrite decide_True.
  - rewrite not_elem_of_cons. intros [Hne Hno]. etrans; [by apply Hout|].
    rewrite told_execute by done. by rewrite decide_False.
Qed.
End told.

(** ** Messages of the server *)

Section messages.
Context `{IterOrder} {SC : StateConversion} {Host : Type} {RH : RuntimeHost Host}.
Implicit Types (rm : RuntimeManager (Host := Host)) (m : RenderedWorkloads).

(** The agent does what the messages say so far, and nothing waits. *)
Record follows rm m : Prop := {
  follows_wf : rm_wf rm;
  follows_queue : queue (workload_queue rm) = ∅;
  follows_told n : told rm n = m !! n
}.

Lemma transform_target rm added deleted op n w :
  tidy added deleted → w ∈ added → named w = n →
  op ∈ transform_into_workload_operations rm (into_reusable_workloads added) deleted →
  op_name op = n → op_target op = Some w.
Proof.
  intros [Hfun Hnd] Hw Hn Hop Hopn.
  assert (∀ r, added_by_name (into_reusable_workloads added) !! n = Some r →
    Scheduler.workload_named r = w) as Hr.
  { intros r [Hrn Hr]%added_by_name_key. apply list_elem_of_fmap in Hr as (w' & -> & Hw').
    apply Hfun; [done..|]. unfold reusable_name in Hrn. simpl in Hrn. unfold named at 1. by rewrite Hn. }
  apply (transform_spec rm _ deleted Hnd) in Hop as [(d & Hd & ->)|(r & Hr' & _ & ->)].
  - rewrite deletion_op_name in Hopn. subst n. unfold deletion_op. rewrite Hopn.
    destruct (_ !! named w) as [r|] eqn:Hlook; [simpl; by rewrite (Hr r)|].
    assert (named w ∈ named <$> added) as Hin%added_names by by apply list_elem_of_fmap_2.
    destruct Hin as [r Hin]. congruence.
  - rewrite transform_added_name in Hopn. rewrite Hopn in Hr'.
    unfold transform_added. case_bool_decide; simpl; by rewrite (Hr r).
Qed.

Lemma follows_execute added deleted db rm m :
  follows rm m → tidy added deleted →
  (∀ w, w ∈ added → create_fulfilled w db = true) →
  (∀ d, d ∈ deleted → delete_fulfilled d db = true) →
  follows (execute_workloads (into_reusable_workloads added) deleted db rm)
    (apply_difference m {| added_workloads := added; deleted_workloads := deleted |}).
Proof.
  intros [Hwf Hq Htold] Htidy Hadd Hdel. pose proof Htidy as [Hfun Hnd].
  split; [by apply rm_wf_execute_workloads|..]; unfold execute_workloads.
  all: assert (∀ r, r ∈ into_reusable_workloads added →
      create_fulfilled (Scheduler.workload_named r) db = true) as Hadd'
    by (intros r (w & -> & Hw)%list_elem_of_fmap; by apply Hadd).
  all: destruct (enqueue_filtered_ready_now db (transform_into_workload_operations rm
      (into_reusable_workloads added) deleted) (workload_queue rm) Hq) as (q & -> & Hq');
    [apply Forall_forall; intros op; by apply transform_ready_now|].
  { by rewrite execute_operations_queue. }
  intros n. destruct (transform_spec rm (into_reusable_workloads added) deleted Hnd) as [Hnames Hops].
  cbv zeta in Hnames, Hops.
  set (ops := transform_into_workload_operations rm _ deleted) in *.
  destruct (told_execute_all ops (set_queue q rm) n) as [Hin Hout].
  { by eapply rm_wf_same, Hwf. }
  { done. }
  { apply Forall_forall. intros op [(d & _ & ->)|(r & _ & _ & ->)]%Hops d'.
    - unfold deletion_op. by case_match.
    - unfold transform_added. by case_bool_decide. }
  destruct (decide (n ∈ named <$> added)) as [Ha|Ha].
  - apply list_elem_of_fmap in Ha as (w & -> & Hw). unfold apply_difference. simpl.
    rewrite (lookup_insert_all_in _ _ _ w); [|done|done|intros w' ? ?; by apply Hfun].
    assert (named w ∈ named <$> added) as Hop by by apply list_elem_of_fmap_2.
    apply (transform_keeps rm added deleted _ Hnd) in Hop as (op & Hop & Hn & _).
    rewrite (Hin op) by done. by eapply transform_target.
  - unfold apply_difference. simpl. rewrite lookup_insert_all_out, lookup_delete_all.
    2:{ intros w Hw Hn. apply Ha. rewrite <-Hn. by apply (list_elem_of_fmap_2 named). }
    case_decide as Hd.
    + apply list_elem_of_fmap in Hd as (d & -> & Hd).
      rewrite (Hin (deletion_op (added_by_name (into_reusable_workloads added)) d)).
      * unfold deletion_op. fold (deleted_name d) in *. destruct (_ !! deleted_name d) eqn:Hr; [|done].
        destruct Ha. apply added_names. by eexists.
      * apply Hops. left. eauto.
      * apply deletion_op_name.
    + rewrite Hout, <-Htold; [by apply told_same|]. intros [Hd'|Ha']%(transform_op_names rm added deleted n Hnd);
        [by apply Hd|by apply Ha].
Qed.
(** *** The first hello of a node without workloads *)

Definition nothing_found : Prop :=
  ∀ runtime_name agent_name (h : Host), (get_reusable_workloads runtime_name agent_name h).1 = Ok [].

Lemma elem_of_added_per_runtime added w :
  (∃ runtime_name l, added_per_runtime added !! runtime_name = Some l ∧ w ∈ l) ↔ w ∈ added.
Proof.
  unfold added_per_runtime.
  assert (∀ lm : runtime_lists,
    (∃ rt l, foldl (λ (lm : runtime_lists) w,
       match lm !! Api.runtime (workload w) with
       | Some l => <[Api.runtime (workload w) := l ++ [w]]> lm
       | None => <[Api.runtime (workload w) := [w]]> lm
       end) lm added !! rt = Some l ∧ w ∈ l) ↔
    (∃ rt l, lm !! rt = Some l ∧ w ∈ l) ∨ w ∈ added) as Hloop.
  { induction added as [|w0 added IH]; intros lm; simpl; [rewrite elem_of_nil; naive_solver|].
    rewrite IH, elem_of_cons. clear IH.
    assert ((∃ rt l, (match lm !! Api.runtime (workload w0) with
      | Some l => <[Api.runtime (workload w0) := l ++ [w0]]> lm
      | None => <[Api.runtime (workload w0) := [w0]]> lm
      end : runtime_lists) !! rt = Some l ∧ w ∈ l) ↔
      (∃ rt l, lm !! rt = Some l ∧ w ∈ l) ∨ w = w0) as ->; [|tauto].
    set (rt0 := Api.runtime (workload w0)). destruct (lm !! rt0) as [l0|] eqn:Hl0; split.
    - intros (rt & l & [[<- <-]|[_ Hl]]%lookup_insert_Some & Hw); [|by eauto].
      apply elem_of_app in Hw as [Hw|Hw%list_elem_of_singleton]; eauto.
    - intros [(rt & l & Hl & Hw)| ->].
      + destruct (decide (rt0 = rt)) as [<-|Hne].
        * exists rt0, (l0 ++ [w0]). split; [apply lookup_insert_eq|].
          apply elem_of_app. left. congruence.
        * exists rt, l. split; [|done]. etrans; [by apply lookup_insert_ne|done].
      + exists rt0, (l0 ++ [w0]). split; [apply lookup_insert_eq|].
        apply elem_of_app. right. by left.
    - intros (rt & l & [[<- <-]|[_ Hl]]%lookup_insert_Some & Hw); [|by eauto].
      apply list_elem_of_singleton in Hw. by right.
    - intros [(rt & l & Hl & Hw)| ->].
      + exists rt, l. split; [|done]. etrans; [apply lookup_insert_ne|done]. intros <-. congruence.
      + exists rt0, [w0]. split; [apply lookup_insert_eq|]. by left. }
  rewrite Hloop. split; [|by right].
  intros [(rt & l & Hl & _)|?]; [|done].
  by pose proof (eq_trans (eq_sym Hl) (lookup_empty rt)).
Qed.

Lemma flatten_named (lists : runtime_lists) :
  flatten lists = into_reusable_workloads ((map_iter lists) ≫= snd).
Proof.
  unfold flatten, into_reusable_workloads. induction (map_iter lists) as [|[rt l] ms IH]; [done|].
  rewrite !bind_cons, fmap_app. by f_equal.
Qed.

Lemma resume_nothing added rm :
  nothing_found →
  ∃ rm' l, resume_and_remove_from_added_workloads added rm = (rm', into_reusable_workloads l, []) ∧
    RuntimeManager.workloads rm' = RuntimeManager.workloads rm ∧ tasks rm' = tasks rm ∧
    workload_queue rm' = workload_queue rm ∧ ∀ w, w ∈ l ↔ w ∈ added.
Proof.
  intros Hnothing. unfold resume_and_remove_from_added_workloads.
  set (P := λ s : ResumeState (Host := Host), RuntimeManager.workloads (resume_manager s) = RuntimeManager.workloads rm ∧
    tasks (resume_manager s) = tasks rm ∧ workload_queue (resume_manager s) = workload_queue rm ∧
    per_runtime s = added_per_runtime added ∧ new_added_workloads s = [] ∧
    resume_deleted_workloads s = []).
  match goal with |- context [foldl resume_runtime ?s0 ?l] =>
    assert (P (foldl resume_runtime s0 l)) as (Hw & Ht & Hq & Hp & Hn & Hd) end.
  { apply (foldl_preserves P); [|done]. intros s rt (Hw & Ht & Hq & Hp & Hn & Hd).
    unfold resume_runtime. pose proof (Hnothing rt (rm_agent_name (resume_manager s))
      (RuntimeManager.host (resume_manager s))) as Hres.
    destruct (get_reusable_workloads _ _ _) as [res h]. simpl in Hres. subst res. done. }
  eexists _, ((map_iter (added_per_runtime added)) ≫= snd).
  rewrite Hp, Hn, Hd, flatten_named. split; [done|]. split_and!; [done..|].
  intros w. rewrite <-(elem_of_added_per_runtime added), list_elem_of_bind. split.
  - intros ([rt l] & Hin & Hl%elem_of_map_iter). eauto.
  - intros (rt & l & Hl & Hin). exists (rt, l). split; [done|]. by apply elem_of_map_iter.
Qed.

(** The order of the added workloads does not matter. *)
Lemma apply_difference_added added added' :
  tidy added [] → (∀ w, w ∈ added' ↔ w ∈ added) →
  apply_difference ∅ {| added_workloads := added'; deleted_workloads := [] |} =
  apply_difference ∅ {| added_workloads := added; deleted_workloads := [] |}.
Proof.
  intros [Hfun _] Hin. unfold apply_difference. simpl. apply map_eq. intros n.
  destruct (decide (n ∈ named <$> added)) as [Hn|Hn].
  - apply list_elem_of_fmap in Hn as (w & -> & Hw).
    rewrite !(lookup_insert_all_in _ _ _ w); try done.
    + intros w' ? ?. by apply Hfun.
    + by apply Hin.
    + intros w' ?%Hin ?. by apply Hfun.
  - rewrite !lookup_insert_all_out; [done| |]; intros w Hw Heq; apply Hn; rewrite <-Heq;
      apply (list_elem_of_fmap_2 named); [done|by apply Hin].
Qed.

Lemma follows_hello added db rm :
  nothing_found → rm_wf rm → queue (workload_queue rm) = ∅ → RuntimeManager.workloads rm = ∅ →
  tidy added [] → (∀ w, w ∈ added → create_fulfilled w db = true) →
  follows (handle_server_hello added db rm)
    (apply_difference ∅ {| added_workloads := added; deleted_workloads := [] |}).
Proof.
  intros Hnothing Hwf Hq Hempty Htidy Hadd. unfold handle_server_hello.
  destruct (resume_nothing added rm Hnothing) as (rm' & l & -> & Hw & Ht & Hq' & Hl).
  rewrite <-(apply_difference_added added l) by done.
  apply follows_execute; [| | |by intros d ?%elem_of_nil].
  - split; [by eapply rm_wf_same, Hwf|by rewrite Hq'|].
    intros n. unfold told. by rewrite Hw, Hempty, !lookup_empty.
  - destruct Htidy as [Hfun Hnd]. split; [|done]. intros w w' ?%Hl ?%Hl. by apply Hfun.
  - intros w ?%Hl. by apply Hadd.
Qed.

(** *** Everything else *)

Lemma follows_forward r rm m : follows rm m → follows (forward_response r rm) m.
Proof.
  intros [Hwf Hq Htold]. split; [by apply rm_wf_forward|..]; unfold forward_response;
    destruct (detach_prefix_from_request_id _) as [name id].
  - by repeat case_match.
  - intros n. rewrite <-Htold. destruct (RuntimeManager.workloads rm !! name) as [wl|] eqn:Hwl; [|done].
    destruct (control_interface wl); [|done]. by eapply told_replace.
Qed.

Lemma follows_log_fetchers answers r rm m :
  follows rm m → follows (get_log_fetchers answers r rm).1 m.
Proof.
  intros Hm. unfold get_log_fetchers.
  apply (foldl_preserves (λ acc, follows acc.1 m ∧
    RuntimeManager.workloads acc.1 = RuntimeManager.workloads rm)); [|done].
  intros [rm1 names] n [[Hwf Hq Htold] Hw]. simpl in *.
  destruct (RuntimeManager.workloads rm !! workload_name n) as [wl|] eqn:Hwl; [|done].
  rewrite <-Hw in Hwl. split; [|done]. split; simpl; [by apply (rm_wf_send (workload_name n))|done|].
  intros n'. rewrite (told_send _ (workload_name n)) by done. rewrite <-Htold. by case_decide.
Qed.

Lemma follows_fulfilled db rm m :
  follows rm m → follows (update_workloads_on_fulfilled_dependencies db rm) m.
Proof.
  intros [Hwf Hq Htold]. unfold update_workloads_on_fulfilled_dependencies, next_workload_operations.
  rewrite Hq, (proj2 (map_iter_nil _)) by done. simpl.
  split; [by eapply rm_wf_same, Hwf|done|]. intros n. rewrite <-Htold. by apply told_same.
Qed.
End messages.

(** ** The loop of the agent *)

Section agent_loop.
Context `{IterOrder} {SC : StateConversion} {Host : Type} {RH : RuntimeHost Host} {LE : LogEncoding}.
Implicit Types (am : AgentManager (Host := Host)) (e : AgentEvent) (m : RenderedWorkloads).

(** The messages of the server among the events. *)
Definition heard e : list FromServer :=
  match e with FromServerMsg _ msg => [msg] | _ => [] end.

(** Nothing has to wait when a message that says what to run arrives; the hello
    is the first of these messages; the server does not end the agent. *)
Definition unhindered e am : Prop :=
  let db := workload_state_store am in
  match e with
  | FromServerMsg _ (ServerHello _ added) =>
    RuntimeManager.workloads (runtime_manager am) = ∅ ∧
    ∀ w, w ∈ added → create_fulfilled w db = true
  | FromServerMsg _ (UpdateWorkload added deleted) =>
    (∀ w, w ∈ added → create_fulfilled w db = true) ∧
    (∀ d, d ∈ deleted → delete_fulfilled d db = true)
  | FromServerMsg _ FromServerStop => False
  | _ => True
  end.

Fixpoint all_unhindered (events : list AgentEvent) am : Prop :=
  match events with
  | [] => True
  | e :: events => unhindered e am ∧ all_unhindered events (agent_step e am).2
  end.

Lemma follows_step e am m :
  nothing_found (Host := Host) → Forall tidy_message (heard e) → unhindered e am →
  follows (runtime_manager am) m →
  (agent_step e am).1 = true ∧ follows (runtime_manager (agent_step e am).2) (replay m (heard e)).
Proof.
  intros Hnothing Htidy He Hm. pose proof Hm as [Hwf Hq _].
  destruct e as [answers msg|s|cpu mem|id n lines|id]; cbn [agent_step heard] in *.
  - rewrite Forall_singleton in Htidy.
    destruct msg as [n added|added deleted|[|s states]|r| |id r|id|]; cbn in He |- *; try done.
    + split; [done|]. destruct He as [Hempty Hadd]. by apply follows_hello.
    + split; [done|]. destruct He as [Hadd Hdel]. by apply follows_execute.
    + split; [done|]. by apply follows_fulfilled.
    + split; [done|]. by apply follows_forward.
    + unfold spawn_log_collection. pose proof (follows_log_fetchers answers r _ m Hm) as Hlog.
      by destruct (get_log_fetchers _ _ _).
  - split; [done|]. by apply follows_fulfilled.
  - done.
  - split; [done|]. unfold log_lines_received. repeat case_match; done.
  - split; [done|]. unfold log_collection_finished. repeat case_match; done.
Qed.

Lemma follows_start events am m :
  nothing_found (Host := Host) → Forall tidy_message (events ≫= heard) → all_unhindered events am →
  follows (runtime_manager am) m →
  follows (runtime_manager (agent_start events am)) (replay m (events ≫= heard)).
Proof.
  intros Hnothing. revert am m. induction events as [|e events IH]; intros am m Htidy Hall Hm; [done|].
  rewrite bind_cons in Htidy |- *. apply Forall_app in Htidy as [Hte Htidy].
  destruct Hall as [He Hall]. destruct (follows_step e am m Hnothing Hte He Hm) as [Hgo Hm'].
  rewrite replay_app. simpl. destruct (agent_step e am) as [go_on am']. simpl in *. subst go_on.
  by apply IH.
Qed.

Lemma follows_new agent_name folder runtimes (h : Host) :
  follows (runtime_manager_new agent_name folder runtimes h) ∅.
Proof.
  split; [apply rm_wf_new|done|]. intros n. unfold told. simpl. by rewrite !lookup_empty.
Qed.
End agent_loop.

(** ** Properties *)

(** The control loops of an agent are told exactly what the server wants.
    In any interleaving of the control plane, and whatever else happens on the
    agent: if nothing had to wait for a dependency when an update arrived, an
    agent on a node without old workloads that has handled all that was sent to
    it has, for every workload that is rendered for it and for no other, one
    live control loop, and the last command about what to run that this loop got
    carries the workload as the server has it. *)
Theorem desired_workloads_reach_control_loops
    `{IterOrder, Sha256, TemplateEngine, YamlMapping, KeyOrder}
    {SC : StateConversion} {WC : WireConversion} {V : Versions} {LE : LogEncoding}
    {Host} {RH : RuntimeHost Host}
    startup sv0 out events agent c sv folder runtimes (h : Host) agent_events :
  start server_new startup = Ok (sv0, out) → agent ≠ "" →
  (∀ first, CliConnects agent first ∉ events) →
  let s := control_plane_run (control_plane_start sv0 out) events in
  cp_server s = Some sv → agent_senders (cp_grpc s) !! agent = Some c →
  Forall (λ m, registers agent m = false ∧ unregisters agent m = false) (unhandled s) →
  on_the_way agent s = [] → agent_events ≫= heard = arrived s c →
  let am := agent_manager_new agent (runtime_manager_new agent folder runtimes h) in
  nothing_found (Host := Host) → all_unhindered agent_events am →
  let rm := runtime_manager (agent_start agent_events am) in
  rm_wf rm ∧
  ∀ n w, told rm n = Some w ↔
    rendered_workloads (server_state sv) !! n = Some w ∧ agent_name (instance_name w) = agent.
Proof.
  intros Hstart Hne Hcli s Hserver Hsender Hunhandled Hway Heard am Hnothing Hall rm.
  assert (converging agent s) as Hs
    by (apply converging_run; [done..|by eapply converging_start]).
  destruct (conv_sender _ _ Hs sv c Hserver Hsender) as [Hinformed Hreg].
  apply registered_after_same in Hreg as [Hknown Hhello]; [|done].
  rewrite Hway, app_nil_r in Hinformed, Hhello.
  destruct (follows_start agent_events am ∅) as [Hwf _ Htold]; [done| |done|apply follows_new|].
  { rewrite Heard. by apply (conv_arrived _ _ Hs). }
  split; [done|]. intros n w. unfold rm. rewrite Htold, Heard, Hinformed by done.
  apply workloads_of_Some.
Qed.

(** ** Examples *)

Section examples.
#[local] Existing Instance key_order.
#[local] Existing Instance example_sha.
#[local] Existing Instance plain_engine.
#[local] Existing Instance assoc_mapping.
#[local] Existing Instance listed_keys.
#[local] Existing Instance example_conversion.
#[local] Existing Instance example_wire.
#[local] Existing Instance example_versions.
#[local] Existing Instance Convergence.example_log_encoding.

(** A node on which nothing runs. *)
Definition empty_host : RuntimeHost () := {|
  get_reusable_workloads := λ _ _ h, (Ok [], h);
  workload_id_decodes := λ _ _, true;
  input_output_new := λ _ h, (Ok (), h)
|}.
#[local] Existing Instance empty_host.

Abbreviation example_converged :=
  (control_plane_run (control_plane_start server_new [])
    (example_learning ++ replicate 3 MiddlewareForwards)).
Definition example_heard : list AgentEvent :=
  FromServerMsg (λ _, true) <$> arrived example_converged 0.
Definition example_agent : AgentManager (Host := ()) :=
  agent_manager_new "agent_A" (runtime_manager_new "agent_A" ["run"] {["podman"]} ()).

Definition web_named : WorkloadNamed :=
  {| instance_name := {| workload_name := "web"; agent_name := "agent_A"; instance_id := "" |};
     workload := set_tags (set_agent workload_default "agent_A") ∅ |}.

Lemma example_heard_eq :
  example_heard = [FromServerMsg (λ _, true) (ServerHello None []);
                   FromServerMsg (λ _, true) (UpdateWorkload [web_named] [])].
Proof. vm_compute. reflexivity. Qed.

Lemma desired_workloads_reach_control_loops_witness :
  told (runtime_manager (agent_start example_heard example_agent)) "web" = Some web_named.
Proof.
  destruct (cp_server example_converged) as [sv|] eqn:Hsv; [|by vm_compute in Hsv].
  destruct (desired_workloads_reach_control_loops None server_new []
    (example_learning ++ replicate 3 MiddlewareForwards) "agent_A" 0 sv ["run"] {["podman"]} ()
    example_heard) as [_ Htold].
  - reflexivity.
  - discriminate.
  - intros first Hin. repeat (apply elem_of_cons in Hin as [Hin|Hin]; [discriminate Hin|]).
    apply elem_of_nil in Hin. exact Hin.
  - exact Hsv.
  - vm_compute. reflexivity.
  - assert (unhandled example_converged = []) as Hun by (vm_compute; reflexivity).
    rewrite Hun. constructor.
  - vm_compute. reflexivity.
  - vm_compute. reflexivity.
  - intros runtime_name agent_name h. reflexivity.
  - rewrite example_heard_eq. split; [|split; [|exact I]].
    + split; [reflexivity|]. intros w Hw. apply elem_of_nil in Hw. destruct Hw.
    + split; [|intros d Hd; apply elem_of_nil in Hd; destruct Hd].
      intros w Hw. apply list_elem_of_singleton in Hw as ->. vm_compute. reflexivity.
  - apply Htold. split; [|reflexivity].
    assert (Some (rendered_workloads (server_state sv) !! "web") = Some (Some web_named)) as Heq
      by (change (((λ sv, rendered_workloads (server_state sv) !! "web") <$> Some sv) =
            Some (Some web_named)); rewrite <-Hsv; vm_compute; reflexivity).
    injection Heq as Heq. exact Heq.
Defined.
End examples.
