(* ===== verification/NodeRuntime.v ===== *)
(** * Ankaios: the containers of a node

    The last step of the way of the desired state: the control loops of an
    agent, started as [RuntimeManager.v] says, run side by side on one runtime.
    Their steps, the reports of the state checkers and the retries interleave in
    any order; the runtime is the shared state. Together with
    [AgentConvergence.v] the workloads on the runtime are the desired ones. *)

From stdpp Require Import base tactics gmap strings list sets.
From S2P Require Import Prelude Api WorkloadStates RequestId LogCampaign ConfigRenderer.
From S2P Require Import DeleteGraph StateManipulation Messages MessageSize ServerState.
From S2P Require Import StateComparator StateDifferences EventHandler Server ServerAnswers.
From S2P Require Import Scheduler WorkloadFiles RetryManager ControlLoop Authorizer ControlInterface.
From S2P Require Import RuntimeManager AgentManager Grpc System Convergence AgentConvergence.

(** ** The tasks an agent starts *)

Section tasks.
Context `{IterOrder} {SC : StateConversion} {Host : Type} {RH : RuntimeHost Host}.
Implicit Types rm : RuntimeManager (Host := Host).

Definition plain_command (c : WorkloadCommand) : Prop :=
  match c with
  | CommandUpdate (Some _) _ | CommandDelete | CommandStartLogFetcher _ => True
  | _ => False
  end.

(** Every loop begins with a creation; a loop that was not told to delete its
    workload belongs to a known workload. *)
Record tasks_sound rm : Prop := {
  sound_task i t : tasks rm !! i = Some t →
    task_workload_id t = None ∧
    ∃ cs, task_commands t = CommandCreate :: cs ∧ Forall plain_command cs;
  sound_owned i t : tasks rm !! i = Some t → CommandDelete ∉ task_commands t →
    ∃ n wl, RuntimeManager.workloads rm !! n = Some wl ∧ channel wl = i
}.

Lemma sound_same rm rm' :
  RuntimeManager.workloads rm' = RuntimeManager.workloads rm → tasks rm' = tasks rm →
  tasks_sound rm → tasks_sound rm'.
Proof. intros Hw Ht [H1 H2]. split; intros i t; rewrite ?Hw, Ht; [apply H1|apply H2]. Qed.

Lemma sound_send name wl c rm :
  RuntimeManager.workloads rm !! name = Some wl → plain_command c → tasks_sound rm →
  tasks_sound (send_command (channel wl) c rm).
Proof.
  intros Hwl Hc [Hshape Hown].
  assert (∀ i t, tasks (send_command (channel wl) c rm) !! i = Some t → ∃ t0, tasks rm !! i = Some t0 ∧
    task_workload_id t = task_workload_id t0 ∧
    ∃ cs, task_commands t = task_commands t0 ++ cs ∧ Forall plain_command cs) as Hold.
  { intros i t. rewrite send_command_tasks. case_decide.
    - intros (t0 & Ht0 & ->)%fmap_Some. exists t0. split_and!; [done..|]. exists [c]. split; [done|].
      by apply Forall_singleton.
    - intros Ht. exists t. split_and!; [done..|]. exists []. by rewrite app_nil_r. }
  split.
  - intros i t (t0 & Ht0 & -> & cs & -> & Hcs)%Hold. destruct (Hshape i t0 Ht0) as (? & cs0 & -> & ?).
    split; [done|]. exists (cs0 ++ cs). split; [done|]. by apply Forall_app.
  - intros i t (t0 & Ht0 & _ & cs & -> & _)%Hold Hno. apply (Hown i t0 Ht0).
    intros Hin. apply Hno, elem_of_app. by left.
Qed.

Lemma sound_replace name wl wl' rm :
  RuntimeManager.workloads rm !! name = Some wl → channel wl' = channel wl → tasks_sound rm →
  tasks_sound (set_workloads (<[name := wl']> (RuntimeManager.workloads rm)) rm).
Proof.
  intros Hwl Hch [Hshape Hown]. split; [apply Hshape|].
  intros i t Ht Hno. destruct (Hown i t Ht Hno) as (n & wl0 & Hn & Hi). simpl.
  destruct (decide (name = n)) as [<-|Hne].
  - exists name, wl'. rewrite lookup_insert_eq. split; [done|]. congruence.
  - exists n, wl0. by rewrite lookup_insert_ne.
Qed.

(** No loop is left behind: the name is new. *)
Lemma sound_add r rm :
  RuntimeManager.workloads rm !! reusable_name r = None → runtime_workload_id r = None →
  tasks_sound rm → tasks_sound (add_workload r rm).
Proof.
  intros Hnew Hid [Hshape Hown]. unfold add_workload, create_workload. rewrite Hid.
  destruct (open_control_interface _ rm) as [ci rm1] eqn:Hopen.
  apply open_control_interface_same in Hopen as (Hw & Ht & _). cbn. fold (reusable_name r).
  split; cbn [tasks RuntimeManager.workloads set_workloads set_tasks]; rewrite ?Hw, Ht; intros i t.
  - intros [Hi|[_ Hi]]%lookup_app_Some; [by apply (Hshape i)|].
    apply list_lookup_singleton_Some in Hi as [_ <-]. split; [done|]. by exists [].
  - intros [Hi|[Hlen Hi]]%lookup_app_Some Hno.
    + destruct (Hown i t Hi Hno) as (n & wl & Hn & Hch). exists n, wl.
      rewrite lookup_insert_ne; [done|]. intros <-. congruence.
    + apply list_lookup_singleton_Some in Hi as [Hi _]. eexists _, _.
      split; [apply lookup_insert_eq|]. simpl. lia.
Qed.

Lemma sound_delete d rm : tasks_sound rm → tasks_sound (delete_workload d rm).
Proof.
  intros Hs. unfold delete_workload. fold (deleted_name d).
  destruct (RuntimeManager.workloads rm !! deleted_name d) as [wl|] eqn:Hwl;
    [|by eapply sound_same, Hs].
  destruct (sound_send (deleted_name d) wl CommandDelete rm Hwl I Hs) as [Hshape _].
  split; [apply Hshape|]. intros i t. rewrite send_command_tasks. case_decide as Hi.
  - intros (t0 & _ & ->)%fmap_Some Hno. destruct Hno. simpl. apply elem_of_app. right. by left.
  - intros Ht Hno. destruct (sound_owned _ Hs i t Ht Hno) as (n & wl' & Hn & Hch).
    exists n, wl'. split; [|done]. cbn. rewrite lookup_delete_ne; [done|]. intros <-. congruence.
Qed.

Definition fresh_op rm (op : WorkloadOperation) : Prop :=
  match op with
  | OpCreate r => RuntimeManager.workloads rm !! reusable_name r = None ∧ runtime_workload_id r = None
  | OpUpdateDeleteOnly _ => False
  | _ => True
  end.

Lemma sound_execute op rm :
  rm_wf rm → fresh_op rm op → tasks_sound rm → tasks_sound (execute_workload_operation rm op).
Proof.
  intros Hwf Hop Hs. destruct op as [r|w d|d|d]; cbn [execute_workload_operation]; [| |done|].
  - destruct Hop. by apply sound_add.
  - unfold update_workload. destruct (RuntimeManager.workloads rm !! _) as [wl|] eqn:Hwl;
      [|by apply sound_add].
    pose proof (workload_update_spec wl (Some w) (control_interface_info_for rm w) rm) as Hspec.
    destruct (workload_update _ _ _ _) as [wl' rm'].
    destruct Hspec as (Hch & Hw & _ & rm1 & Hw1 & Ht1 & ->).
    rewrite <-Hw1 in Hwl. apply (sound_replace _ wl); [done..|].
    apply (sound_send (workload_name (instance_name w))); [done..|]. by eapply sound_same, Hs.
  - by apply sound_delete.
Qed.

Lemma fresh_op_execute op op' rm :
  op_name op ≠ op_name op' → fresh_op rm op → fresh_op rm op' →
  fresh_op (execute_workload_operation rm op) op'.
Proof.
  intros Hne Hop Hop'. destruct op' as [r|w d|d|d]; try done. destruct Hop' as [Hnew Hid].
  split; [|done]. apply not_elem_of_dom. apply not_elem_of_dom in Hnew.
  rewrite dom_execute by (by destruct op). by rewrite decide_False.
Qed.

Lemma sound_execute_all ops rm :
  rm_wf rm → NoDup (op_name <$> ops) → Forall (fresh_op rm) ops → tasks_sound rm →
  tasks_sound (execute_workload_operations ops rm).
Proof.
  unfold execute_workload_operations. revert rm.
  induction ops as [|op ops IH]; intros rm Hwf Hnd Hall Hs; [done|].
  rewrite fmap_cons in Hnd. apply NoDup_cons in Hnd as [Hno Hnd].
  apply Forall_cons in Hall as [Hop Hall]. simpl. apply IH.
  - by apply rm_wf_execute.
  - done.
  - rewrite Forall_forall in Hall |- *. intros op' Hin. apply fresh_op_execute; [|done|by apply Hall].
    intros Heq. apply Hno. rewrite Heq. by apply list_elem_of_fmap_2.
  - by apply sound_execute.
Qed.

Lemma sound_execute_workloads added deleted db rm m :
  follows rm m → tidy added deleted →
  (∀ w, w ∈ added → create_fulfilled w db = true) →
  (∀ d, d ∈ deleted → delete_fulfilled d db = true) → tasks_sound rm →
  tasks_sound (execute_workloads (into_reusable_workloads added) deleted db rm).
Proof.
  intros [Hwf Hq _] [_ Hnd] Hadd Hdel Hs. unfold execute_workloads.
  assert (∀ r, r ∈ into_reusable_workloads added →
      create_fulfilled (Scheduler.workload_named r) db = true) as Hadd'
    by (intros r (w & -> & Hw)%list_elem_of_fmap; by apply Hadd).
  destruct (enqueue_filtered_ready_now db (transform_into_workload_operations rm
      (into_reusable_workloads added) deleted) (workload_queue rm) Hq) as (q & -> & _);
    [apply Forall_forall; intros op; by apply transform_ready_now|].
  destruct (transform_spec rm (into_reusable_workloads added) deleted Hnd) as [Hnames Hops].
  apply sound_execute_all; [by eapply rm_wf_same, Hwf|done| |by eapply sound_same, Hs].
  apply Forall_forall. intros op [(d & _ & ->)|(r & Hr & _ & ->)]%Hops.
  - unfold deletion_op. by case_match.
  - unfold transform_added. case_bool_decide as Hknown; [done|]. simpl.
    split; [by apply eq_None_not_Some|]. apply added_by_name_key in Hr as [_ Hr].
    by apply list_elem_of_fmap in Hr as (w & -> & _).
Qed.

Lemma sound_log_fetchers answers r rm : tasks_sound rm → tasks_sound (get_log_fetchers answers r rm).1.
Proof.
  intros Hs. unfold get_log_fetchers.
  apply (foldl_preserves (λ acc, tasks_sound acc.1 ∧
    RuntimeManager.workloads acc.1 = RuntimeManager.workloads rm)); [|done].
  intros [rm1 names] n [Hs1 Hw]. simpl in *.
  destruct (RuntimeManager.workloads rm !! workload_name n) as [wl|] eqn:Hwl; [|done].
  rewrite <-Hw in Hwl. split; [|done]. by apply (sound_send (workload_name n)).
Qed.

Lemma sound_fulfilled db rm m :
  follows rm m → tasks_sound rm → tasks_sound (update_workloads_on_fulfilled_dependencies db rm).
Proof.
  intros [_ Hq _] Hs. unfold update_workloads_on_fulfilled_dependencies, next_workload_operations.
  rewrite Hq, (proj2 (map_iter_nil _)) by done. simpl. by eapply sound_same, Hs.
Qed.

Lemma sound_forward r rm : tasks_sound rm → tasks_sound (forward_response r rm).
Proof.
  intros Hs. unfold forward_response. destruct (detach_prefix_from_request_id _) as [name id].
  destruct (RuntimeManager.workloads rm !! name) as [wl|] eqn:Hwl; [|done].
  destruct (control_interface wl); [|done]. by eapply sound_replace.
Qed.

Lemma sound_hello added db rm :
  nothing_found (Host := Host) → rm_wf rm → queue (workload_queue rm) = ∅ →
  RuntimeManager.workloads rm = ∅ → tidy added [] →
  (∀ w, w ∈ added → create_fulfilled w db = true) →
  tasks_sound rm → tasks_sound (handle_server_hello added db rm).
Proof.
  intros Hnothing Hwf Hq Hempty [Hfun Hnd] Hadd Hs. unfold handle_server_hello.
  destruct (resume_nothing added rm Hnothing) as (rm' & l & -> & Hw & Ht & Hq' & Hl).
  apply (sound_execute_workloads l [] db rm' ∅).
  - split; [by eapply rm_wf_same, Hwf|by rewrite Hq'|].
    intros n. unfold told. by rewrite Hw, Hempty, !lookup_empty.
  - split; [|done]. intros w w' ?%Hl ?%Hl. by apply Hfun.
  - intros w ?%Hl. by apply Hadd.
  - by intros d ?%elem_of_nil.
  - by eapply sound_same, Hs.
Qed.
End tasks.

Section tasks_of_agent.
Context `{IterOrder} {SC : StateConversion} {Host : Type} {RH : RuntimeHost Host} {LE : LogEncoding}.
Implicit Types (am : AgentManager (Host := Host)) (e : AgentEvent).

Lemma sound_step e am m :
  nothing_found (Host := Host) → Forall tidy_message (heard e) → unhindered e am →
  follows (runtime_manager am) m → tasks_sound (runtime_manager am) →
  tasks_sound (runtime_manager (agent_step e am).2).
Proof.
  intros Hnothing Htidy He Hm Hs. pose proof Hm as [Hwf Hq _].
  destruct e as [answers msg|s|cpu mem|id n lines|id]; cbn [agent_step heard] in *.
  - rewrite Forall_singleton in Htidy.
    destruct msg as [n added|added deleted|[|s states]|r| |id r|id|]; cbn in He |- *; try done.
    + destruct He as [Hempty Hadd]. by apply sound_hello.
    + destruct He as [Hadd Hdel]. by eapply sound_execute_workloads.
    + by eapply sound_fulfilled.
    + by apply sound_forward.
    + unfold spawn_log_collection. pose proof (sound_log_fetchers answers r _ Hs) as Hlog.
      by destruct (get_log_fetchers _ _ _).
  - by eapply sound_fulfilled.
  - done.
  - unfold log_lines_received. repeat case_match; done.
  - unfold log_collection_finished. repeat case_match; done.
Qed.

Lemma sound_start events am m :
  nothing_found (Host := Host) → Forall tidy_message (events ≫= heard) → all_unhindered events am →
  follows (runtime_manager am) m → tasks_sound (runtime_manager am) →
  tasks_sound (runtime_manager (agent_start events am)).
Proof.
  intros Hnothing. revert am m. induction events as [|e events IH]; intros am m Htidy Hall Hm Hs; [done|].
  rewrite bind_cons in Htidy. apply Forall_app in Htidy as [Hte Htidy]. destruct Hall as [He Hall].
  destruct (follows_step e am m Hnothing Hte He Hm) as [Hgo Hm'].
  pose proof (sound_step e am m Hnothing Hte He Hm Hs) as Hs'. simpl.
  destruct (agent_step e am) as [go_on am']. simpl in *. subst go_on. by eapply IH.
Qed.

Lemma sound_new agent_name folder runtimes (h : Host) :
  tasks_sound (runtime_manager_new agent_name folder runtimes h).
Proof. split; intros i t; simpl; by rewrite lookup_nil. Qed.
End tasks_of_agent.

(** ** Control loops on a shared runtime *)

Section node.
Context {RC : RuntimeConnector}.
Implicit Types s : ControlLoopState.

(** [None] is a loop that has returned, or that runs on another runtime. The
    runtime of the loops is the one of the node. *)
Record Node := {
  node_world : World;
  node_loops : list (option ControlLoopState)
}.

Definition set_loop (w : World) (i : nat) (l : option ControlLoopState) (nd : Node) : Node :=
  {| node_world := w; node_loops := <[i := l]> (node_loops nd) |}.

Definition loop_state (r : LoopResult) : ControlLoopState :=
  match r with Continue s | Return s => s end.
Definition loop_after (r : LoopResult) : option ControlLoopState :=
  match r with Continue s => Some s | Return _ => None end.

Definition node_step (nd : Node) (e : nat * LoopEvent) : Node :=
  match node_loops nd !! e.1 with
  | Some (Some s) =>
    let r := loop_step e.2 (ControlLoop.set_runtime (node_world nd) s) in
    set_loop (runtime (loop_state r)) e.1 (loop_after r) nd
  | _ => nd
  end.

Definition node_run : Node → list (nat * LoopEvent) → Node := foldl node_step.

(** The start of the loops of the tasks that run on the runtime. *)
Definition on_runtime (runtime_name : string) (t : ControlLoopTask) : bool :=
  String.eqb (task_runtime t) runtime_name && task_supported t.

Definition start_loop (runtime_name : string) (folder : path) (w0 : World) (decode : string → option WorkloadId)
    (t : ControlLoopTask) : option ControlLoopState :=
  if on_runtime runtime_name t then
    Some (build_control_loop_state (task_workload t) (task_control_interface_path t) folder
      (task_workload_id t ≫= decode) [] w0)
  else None.

(** ** Ownership of the workloads *)

Section ownership.
Context {RL : RuntimeLaws RC}.

Definition holds (nd : Node) (i : nat) (id : WorkloadId) : Prop :=
  ∃ s, node_loops nd !! i = Some (Some s) ∧ workload_id s = Some id.

(** The workloads on the runtime are those held by the loops, each by one, and
    the [foreign] ones. *)
Record node_wf (foreign : gset WorkloadId) (nd : Node) : Prop := {
  node_instances id : id ∈ instances (node_world nd) ↔ id ∈ foreign ∨ ∃ i, holds nd i id;
  node_distinct i j id : holds nd i id → holds nd j id → i = j;
  node_foreign i id : holds nd i id → id ∉ foreign
}.

(** Events that cannot occur: a loop holds a sender of its own channel, and no
    task of a node without old workloads is resumed. *)
Definition possible (e : LoopEvent) : Prop :=
  e ≠ CommandReceived None ∧ e ≠ CommandReceived (Some CommandResume).

Lemma owns_loop_step others e s :
  owns others s → possible e →
  let r := loop_step e s in
  (∀ id, id ∈ instances (runtime (loop_state r)) ↔ id ∈ others ∨ loop_after r ≫= workload_id = Some id) ∧
  (∀ id, loop_after r ≫= workload_id = Some id → id ∉ others).
Proof.
  intros Hs [Hnone Hresume].
  assert (Forall no_resume [e]) as Hno by by apply Forall_singleton.
  pose proof (owns_run others [e] s Hs Hno) as Hrun. simpl in Hrun. cbv zeta.
  destruct (loop_step e s) as [s'|s']; simpl.
  - destruct Hrun as [Hinst Hdisj]. split; intros id.
    + by rewrite Hinst, elem_of_union, elem_of_option_to_set, (comm or).
    + intros Hid Hin. apply (Hdisj id Hin). by apply elem_of_option_to_set.
  - destruct Hrun as [_ Hgone]. destruct Hgone as (_ & <- & _); [by intros <-%list_elem_of_singleton|].
    split; [|done]. intros id. split; [by left|by intros [?|[=]]].
Qed.

Lemma holds_set_loop w i l nd j id :
  i < length (node_loops nd) →
  holds (set_loop w i l nd) j id ↔ if decide (j = i) then l ≫= workload_id = Some id else holds nd j id.
Proof.
  intros Hlt. unfold holds. simpl. case_decide as Hj.
  - subst j. rewrite list_lookup_insert_eq by done. destruct l; naive_solver.
  - by rewrite list_lookup_insert_ne.
Qed.

(** A loop is replaced by one that owns a workload besides those of the others. *)
Lemma node_wf_set_loop foreign nd w i l (others : gset WorkloadId) :
  i < length (node_loops nd) →
  (∀ id, id ∈ others ↔ id ∈ foreign ∨ ∃ j, j ≠ i ∧ holds nd j id) →
  (∀ id, id ∈ instances w ↔ id ∈ others ∨ l ≫= workload_id = Some id) →
  (∀ id, l ≫= workload_id = Some id → id ∉ others) →
  node_wf foreign nd → node_wf foreign (set_loop w i l nd).
Proof.
  intros Hlt Hothers Hw Hl [_ Hdist Hfor]. split.
  - intros id. simpl. rewrite Hw, Hothers. setoid_rewrite holds_set_loop; [|done]. split.
    + intros [[?|(j & Hj & Hh)]|Hid]; [by left|right; exists j|right; exists i]; by case_decide.
    + intros [?|[j Hh]]; [by left; left|]. case_decide; [by right|]. left. right. by exists j.
  - intros j k id Hj Hk. apply holds_set_loop in Hj, Hk; [|done..].
    repeat case_decide; subst; [done| | |by eapply Hdist];
      [destruct (Hl id Hk)|destruct (Hl id Hj)]; apply Hothers; eauto.
  - intros j id Hj Hf. apply holds_set_loop in Hj; [|done]. case_decide; [|by eapply Hfor].
    apply (Hl id Hj), Hothers. by left.
Qed.

Lemma node_wf_step foreign nd e : possible e.2 → node_wf foreign nd → node_wf foreign (node_step nd e).
Proof.
  intros He Hwf. pose proof Hwf as [Hinst Hdist Hfor]. destruct e as [i e]. unfold node_step. cbn [fst snd] in *.
  destruct (node_loops nd !! i) as [[s|]|] eqn:Hi; [|done..].
  set (s0 := ControlLoop.set_runtime (node_world nd) s).
  set (others := instances (node_world nd) ∖ option_to_set (workload_id s)).
  assert (∀ id, id ∈ others ↔ id ∈ foreign ∨ ∃ j, j ≠ i ∧ holds nd j id) as Hothers.
  { intros id. unfold others. rewrite elem_of_difference, Hinst, elem_of_option_to_set. split.
    - intros [[?|[j Hj]] Hne]; [by left|]. right. exists j. split; [|done].
      intros ->. apply Hne. destruct Hj as (s' & Hs' & Hid). congruence.
    - intros [Hf|(j & Hj & Hh)]; (split; [by eauto|]); intros Hid.
      + apply (Hfor i id); [by exists s|done].
      + apply Hj. apply (Hdist j i id); [done|by exists s]. }
  assert (owns others s0) as Hown.
  { split; simpl; [|set_solver]. apply set_eq. intros id. unfold others.
    rewrite elem_of_union, elem_of_difference, elem_of_option_to_set.
    destruct (decide (workload_id s = Some id)) as [Hid|]; [|naive_solver].
    split; [by left|]. intros _. apply Hinst. right. exists i, s. done. }
  destruct (owns_loop_step others e s0 Hown He) as [Hw Hl].
  apply (node_wf_set_loop _ _ _ _ _ others); [by eapply lookup_lt_Some|done..].
Qed.

Lemma node_wf_run foreign nd events :
  Forall (λ e, possible e.2) events → node_wf foreign nd → node_wf foreign (node_run nd events).
Proof.
  unfold node_run. intros Hall. revert nd. induction Hall as [|e events He Hall IH]; intros nd Hnd; [done|].
  apply IH. by apply node_wf_step.
Qed.
End ownership.
(** ** What the loops run *)

(** The runtime and the file system do not refuse the workload. *)
Definition starts (w : WorkloadNamed) : Prop :=
  (∀ id p m rt, is_ok (runtime_create_workload w id p m rt).1 = true) ∧
  (∀ base rt, is_ok (create_files base (workload_files (workload w)) rt).1 = true).

Definition deletes : Prop := ∀ id rt, is_ok (runtime_delete_workload id rt).1 = true.

Lemma create_settles s t :
  starts (workload_named s) →
  let s' := create_workload_on_runtime s t send_retry_for_workload in
  workload_named s' = workload_named s ∧ is_Some (workload_id s').
Proof.
  intros [Hcreate Hfiles]. cbv zeta. unfold create_workload_on_runtime, handle_mount_point_creation.
  assert (∀ m s1, workload_named s1 = workload_named s →
    let s' := match runtime_create_workload (workload_named s1) (workload_id s1)
        (control_interface_path s1) m (runtime s1) with
      | (Ok (new_workload_id, new_state_checker), rt) =>
        set_ids (Some new_workload_id) (Some new_state_checker) (ControlLoop.set_runtime rt s1)
      | (Err err, rt) =>
        let s2 := delete_folder (workload_files_base_path (run_folder s1) (loop_instance_name s1))
                    (ControlLoop.set_runtime rt s1) in
        match err with
        | RuntimeErrorUnsupported msg =>
          send_workload_state_to_agent (loop_instance_name s1) (starting_failed msg) s2
        | _ => send_retry_for_workload s2 (loop_instance_name s1) t (runtime_error_to_string err)
        end
      end in
    workload_named s' = workload_named s ∧ is_Some (workload_id s')) as Hend.
  { intros m s1 Hw. cbv zeta. rewrite Hw.
    pose proof (Hcreate (workload_id s1) (control_interface_path s1) m (runtime s1)) as Hok.
    destruct (runtime_create_workload _ _ _ _ _) as [[[id c]|err] rt]; [|done].
    split; [done|by eexists]. }
  case_bool_decide; [by apply Hend|].
  pose proof (Hfiles (workload_files_base_path (run_folder s) (loop_instance_name s)) (runtime s)) as Hok.
  destruct (create_files _ _ _) as [[m|err] rt]; [|done]. by apply Hend.
Qed.

Lemma create_with_new_token_settles s :
  starts (workload_named s) →
  let s' := let '(s, t) := new_retry_token s in
            create_workload_on_runtime s t send_retry_for_workload in
  workload_named s' = workload_named s ∧ is_Some (workload_id s').
Proof.
  intros Hs. cbv zeta. unfold new_retry_token. destruct (new_token _) as [m r].
  by apply (create_settles (set_retry_manager m s)).
Qed.

Lemma create_new_settles w p s :
  starts w → let s' := create_new_workload (Some w) p s in
  workload_named s' = w ∧ is_Some (workload_id s').
Proof. intros Hw. by apply create_with_new_token_settles. Qed.

Lemma update_settles w p s :
  starts w → deletes → let s' := update_workload_on_runtime s (Some w) p in
  workload_named s' = w ∧ is_Some (workload_id s').
Proof.
  intros Hw Hdel. cbv zeta. destruct (update_deleted s (Some w) p) as (s1 & -> & _).
  - intros err rt (id & _ & Herr). pose proof (Hdel id (runtime s)) as Hok. by rewrite Herr in Hok.
  - by apply create_new_settles.
Qed.

Lemma state_settles st s :
  starts (workload_named s) → deletes → let s' := handle_workload_state st s in
  workload_named s' = workload_named s ∧ (is_Some (workload_id s) → is_Some (workload_id s')).
Proof.
  intros Hw Hdel. cbv zeta. unfold handle_workload_state, restart_workload_on_runtime,
    restart_workload_with_bundle_reuse.
  assert (∀ s', workload_named s' = workload_named s ∧ is_Some (workload_id s') →
    workload_named s' = workload_named s ∧ (is_Some (workload_id s) → is_Some (workload_id s')))
    as Hboth by naive_solver.
  repeat case_match; try done; apply Hboth; [by apply create_new_settles|by apply update_settles].
Qed.

(** The commands for a loop among the events; retries are not commands of the
    agent. *)
Definition command_of (i : nat) (e : nat * LoopEvent) : list WorkloadCommand :=
  match e with
  | (j, CommandReceived (Some c)) =>
    if decide (j = i) then match c with CommandRetry _ _ => [] | _ => [c] end else []
  | _ => []
  end.

Definition commands_of (i : nat) (events : list (nat * LoopEvent)) : list WorkloadCommand :=
  events ≫= command_of i.

(** The workloads a task may run. *)
Definition runs (t : ControlLoopTask) (w : WorkloadNamed) : Prop :=
  w = task_workload t ∨ ∃ p, CommandUpdate (Some w) p ∈ task_commands t.

Definition ordinary (c : WorkloadCommand) : Prop := c = CommandCreate ∨ plain_command c.

Definition creates (c : WorkloadCommand) : Prop :=
  match c with CommandCreate | CommandUpdate _ _ => True | _ => False end.

(** A loop after the commands [cs]. *)
Definition loop_ok (t : ControlLoopTask) (cs : list WorkloadCommand) (l : option ControlLoopState) :
    Prop :=
  match l with
  | Some s => CommandDelete ∉ cs ∧
      foldl target_after (Some (task_workload t)) cs = Some (workload_named s) ∧
      (Exists creates cs → is_Some (workload_id s))
  | None => CommandDelete ∈ cs
  end.

(** A task sends itself the command to create; what the agent sends may come
    before that. *)
Definition arrives (t : ControlLoopTask) (cs : list WorkloadCommand) : Prop :=
  ∃ c1 c2, task_commands t = CommandCreate :: c1 ++ c2 ∧ cs = c1 ++ CommandCreate :: c2.

Lemma arrives_elem t cs c : arrives t cs → c ∈ cs ↔ c ∈ task_commands t.
Proof.
  intros (c1 & c2 & -> & ->). rewrite elem_of_cons, !elem_of_app, elem_of_cons. tauto.
Qed.

Lemma arrives_target t cs target :
  arrives t cs → foldl target_after target cs = foldl target_after target (task_commands t).
Proof. intros (c1 & c2 & -> & ->). simpl. by rewrite !foldl_app. Qed.

(** What is sent to a loop and what it runs. *)
Definition healthy_task (t : ControlLoopTask) (cs : list WorkloadCommand) : Prop :=
  Forall ordinary (task_commands t) ∧ (∀ w, runs t w → starts w) ∧
  ∃ sent, arrives t sent ∧ cs `prefix_of` sent.

Lemma healthy_prefix t cs cs' : healthy_task t (cs ++ cs') → healthy_task t cs.
Proof.
  intros (Ht & Hs & sent & Hsent & Hprefix). split_and!; [done..|]. exists sent. split; [done|].
  etrans; [|exact Hprefix]. by apply prefix_app_r.
Qed.

Lemma healthy_sent t cs c : healthy_task t cs → c ∈ cs → c ∈ task_commands t.
Proof.
  intros (_ & _ & sent & Hsent & rest & ->) Hc. apply (arrives_elem t _ c Hsent).
  apply elem_of_app. by left.
Qed.

Lemma healthy_ordinary t cs c : healthy_task t cs → c ∈ cs → ordinary c.
Proof.
  intros Ht Hc. pose proof Ht as [Hall _]. rewrite Forall_forall in Hall. by eapply Hall, healthy_sent.
Qed.

Lemma healthy_target t cs w :
  healthy_task t cs → foldl target_after (Some (task_workload t)) cs = Some w → starts w.
Proof.
  intros Ht Hw. apply (proj1 (proj2 Ht)).
  assert (∀ c, c ∈ cs → c ∈ task_commands t) as Hin by (intros c; by apply healthy_sent).
  clear Ht. revert w Hw. induction cs as [|c cs IH] using rev_ind; intros w; [intros [= <-]; by left|].
  rewrite foldl_snoc. specialize (IH ltac:(intros c' ?; apply Hin, elem_of_app; by left)).
  destruct c as [|[w'|] p| | | |]; cbn [target_after]; try done; try exact (IH w).
  intros [= <-]. right. exists p. apply Hin, elem_of_app. right. by left.
Qed.

Lemma loop_ok_arrives t cs l : arrives t cs → loop_ok t cs l → loop_ok t (task_commands t) l.
Proof.
  intros Harr. destruct l as [s|]; simpl; rewrite (arrives_elem t cs _ Harr); [|done].
  rewrite (arrives_target t cs _ Harr), !Exists_exists. intros (Hno & Htarget & Hid).
  split_and!; [done..|]. intros (c & Hc & Hcreates). apply Hid. exists c. split; [|done].
  by apply (arrives_elem t).
Qed.

(** A command that a loop survives. *)
Lemma loop_ok_snoc t cs c s s' :
  loop_ok t cs (Some s) → c ≠ CommandDelete →
  target_after (Some (workload_named s)) c = Some (workload_named s') →
  (creates c ∨ is_Some (workload_id s) → is_Some (workload_id s')) → loop_ok t (cs ++ [c]) (Some s').
Proof.
  intros (Hno & Htarget & Hid) Hc Hw Hid'. split_and!.
  - intros [?|Heq%list_elem_of_singleton]%elem_of_app; [done|]. by apply Hc.
  - by rewrite foldl_snoc, Htarget.
  - rewrite Exists_app, Exists_cons, Exists_nil. tauto.
Qed.

Lemma loop_ok_step t cs i e s :
  deletes → possible e → healthy_task t (cs ++ command_of i (i, e)) →
  loop_ok t cs (Some s) → loop_ok t (cs ++ command_of i (i, e)) (loop_after (loop_step e s)).
Proof.
  intros Hdel [Hnone Hresume] Ht Hok. pose proof Hok as (Hno & Htarget & Hid).
  assert (starts (workload_named s)) as Hs
    by (eapply healthy_target; [by eapply healthy_prefix|done]).
  assert (∀ s', workload_named s' = workload_named s → (is_Some (workload_id s) → is_Some (workload_id s')) →
    loop_ok t (cs ++ []) (Some s')) as Hkeep.
  { intros s' Hw Hid'. rewrite app_nil_r. simpl. rewrite Hw. auto. }
  destruct e as [st|[c|]]; [|clear Hnone|done].
  - destruct (state_settles st s Hs Hdel). by apply Hkeep.
  - cbn [command_of] in *. rewrite decide_True in * by done.
    cbn [loop_step handle_command]. destruct c as [|w p|n r| | |o]; [| | | |done|].
    + unfold delete_workload_on_runtime. simpl.
      assert (CommandDelete ∈ cs ++ [CommandDelete]) by (apply elem_of_app; right; by left).
      destruct (workload_id s) as [id|]; [|done]. pose proof (Hdel id (runtime s)) as Hok'.
      by destruct (runtime_delete_workload _ _) as [[u|err] rt].
    + assert (ordinary (CommandUpdate w p)) as [[=]|Hplain]
        by (eapply healthy_ordinary; [done|apply elem_of_app; right; by left]).
      destruct w as [w|]; [|done]. destruct (update_settles w p (invalidate_retries s)) as [Hw Hid'].
      { eapply healthy_target; [done|]. by rewrite foldl_snoc. }
      { done. }
      apply (loop_ok_snoc _ _ _ s); [done..|simpl; by f_equal|done].
    + simpl. unfold retry_create_workload_on_runtime. case_match; [|by apply Hkeep].
      destruct (create_settles s r Hs). by apply Hkeep.
    + destruct (create_with_new_token_settles (send_workload_state_to_agent
        (loop_instance_name s) starting_triggered s) Hs) as [Hw Hid'].
      destruct (new_retry_token _) as [s1 r]. cbn [drop_state loop_after].
      apply (loop_ok_snoc _ _ _ s); [done..|simpl in *; by f_equal|done].
    + destruct (create_log_fetcher s o); (apply (loop_ok_snoc _ _ _ s); [done..|simpl; tauto]).
Qed.

(** *** All loops of a node *)

Definition start_node (runtime_name : string) (folder : path) (w0 : World)
    (decode : string → option WorkloadId) (ts : list ControlLoopTask) : Node :=
  {| node_world := w0; node_loops := start_loop runtime_name folder w0 decode <$> ts |}.

Lemma command_of_other i j e : j ≠ i → command_of i (j, e) = [].
Proof. intros. simpl. repeat case_match; done. Qed.

Lemma node_step_other nd i j e : j ≠ i → node_loops (node_step nd (j, e)) !! i = node_loops nd !! i.
Proof. intros. unfold node_step. repeat case_match; simpl; [|done..]. by rewrite list_lookup_insert_ne. Qed.

Lemma node_step_length nd e : length (node_loops (node_step nd e)) = length (node_loops nd).
Proof. unfold node_step. repeat case_match; simpl; [|done..]. apply length_insert. Qed.

Lemma node_run_length nd events : length (node_loops (node_run nd events)) = length (node_loops nd).
Proof.
  unfold node_run. revert nd. induction events as [|e events IH]; intros nd; [done|].
  simpl. by rewrite IH, node_step_length.
Qed.

Lemma node_step_ok t cs i e nd l :
  node_loops nd !! i = Some l → possible e → deletes → healthy_task t (cs ++ command_of i (i, e)) →
  loop_ok t cs l →
  ∃ l', node_loops (node_step nd (i, e)) !! i = Some l' ∧ loop_ok t (cs ++ command_of i (i, e)) l'.
Proof.
  intros Hi He Hdel Ht Hl. unfold node_step. simpl. rewrite Hi.
  destruct l as [s|].
  - eexists. split; [by eapply list_lookup_insert_eq, lookup_lt_Some|]. by apply loop_ok_step.
  - exists None. split; [done|]. apply elem_of_app. by left.
Qed.

Lemma node_loops_ok r folder w0 decode ts events i t :
  Forall (λ e, possible e.2) events → deletes →
  ts !! i = Some t → (on_runtime r t = true → healthy_task t (commands_of i events)) →
  ∃ l, node_loops (node_run (start_node r folder w0 decode ts) events) !! i = Some l ∧
    if on_runtime r t then loop_ok t (commands_of i events) l else l = None.
Proof.
  intros Hall Hdel Ht. unfold node_run. induction events as [|[j e] events IH] using rev_ind; intros Hh.
  - eexists. simpl. rewrite list_lookup_fmap, Ht. split; [done|]. unfold start_loop.
    case_match; [|done]. split_and!; [by intros ?%elem_of_nil|done|by intros ?%Exists_nil].
  - apply Forall_app in Hall as [Hall He]. rewrite Forall_singleton in He. simpl in He.
    rewrite foldl_snoc. unfold commands_of in *. rewrite bind_app, bind_cons, app_nil_r in *.
    destruct IH as (l & Hl & Hok); [done| |].
    { intros Hp%Hh. by eapply healthy_prefix. }
    set (nd := foldl node_step _ events) in *.
    destruct (decide (j = i)) as [->|Hj].
    + destruct (on_runtime r t).
      * apply (node_step_ok _ _ _ _ _ l); auto.
      * subst l. exists None. unfold node_step. simpl. by rewrite Hl.
    + exists l. by rewrite node_step_other, command_of_other, app_nil_r.
Qed.

Lemma start_node_wf {RL : RuntimeLaws RC} r folder w0 decode ts :
  Forall (λ t, task_workload_id t = None) ts →
  node_wf (instances w0) (start_node r folder w0 decode ts).
Proof.
  intros Hids. set (nd := start_node r folder w0 decode ts).
  assert (∀ i id, ¬ holds nd i id) as Hno.
  { intros i id (s & Hs & Hid). simpl in Hs. apply list_lookup_fmap_Some in Hs as (t & Hs & Ht).
    rewrite Forall_lookup in Hids. specialize (Hids i t Ht). unfold start_loop in Hs.
    rewrite Hids in Hs. case_match; [|done]. injection Hs as ->. done. }
  split; [|by intros i j id ?%Hno|by intros i id ?%Hno].
  intros id. split; [by left|]. intros [?|[i ?%Hno]]; done.
Qed.
End node.

(** ** The containers of the workloads *)

Section containers.
Context `{IterOrder} {SC : StateConversion} {Host : Type} {RH : RuntimeHost Host}.
Context {RC : RuntimeConnector} {RL : RuntimeLaws RC}.
Implicit Types (rm : RuntimeManager (Host := Host)) (nd : Node).

(** The loop of the workload with this name runs it as [id]. *)
Definition container_of rm nd (n : string) (w : WorkloadNamed) (id : WorkloadId) : Prop :=
  ∃ wl s, RuntimeManager.workloads rm !! n = Some wl ∧ node_loops nd !! channel wl = Some (Some s) ∧
    ControlLoop.workload_named s = w ∧ workload_id s = Some id.

(** The loop of the workload with this name runs on the runtime. *)
Definition loop_on (r : string) rm (n : string) : Prop :=
  ∃ wl t, RuntimeManager.workloads rm !! n = Some wl ∧ tasks rm !! channel wl = Some t ∧
    on_runtime r t = true.

(** The loops got all their commands, and the runtime does not refuse their
    workloads. *)
Definition all_carried_out (r : string) rm (events : list (nat * LoopEvent)) : Prop :=
  ∀ i t, tasks rm !! i = Some t → on_runtime r t = true →
    (∀ w, runs t w → starts w) ∧ arrives t (commands_of i events).

Lemma task_ordinary rm i t : tasks_sound rm → tasks rm !! i = Some t → Forall ordinary (task_commands t).
Proof.
  intros Hs Ht. destruct (sound_task _ Hs i t Ht) as (_ & cs & -> & Hcs).
  constructor; [by left|]. eapply Forall_impl; [exact Hcs|]. by right.
Qed.

(** The loops did all they were told. *)
Definition loops_ended (r : string) rm nd : Prop :=
  length (node_loops nd) = length (tasks rm) ∧
  ∀ i t, tasks rm !! i = Some t → ∃ l, node_loops nd !! i = Some l ∧
    if on_runtime r t then loop_ok t (task_commands t) l else l = None.

Lemma loops_at_end r folder w0 decode rm events :
  tasks_sound rm → Forall (λ e, possible e.2) events → deletes →
  all_carried_out r rm events →
  loops_ended r rm (node_run (start_node r folder w0 decode (tasks rm)) events).
Proof.
  intros Hs Hall Hdel Hdone. split; [rewrite node_run_length; apply length_fmap|]. intros i t Ht.
  destruct (node_loops_ok r folder w0 decode (tasks rm) events i t) as (l & Hl & Hok); [done..| |].
  { intros Hon. destruct (Hdone i t Ht Hon) as [Hstarts Harr].
    split_and!; [by eapply task_ordinary|done|by eexists]. }
  exists l. split; [done|]. destruct (on_runtime r t) eqn:Hon; [|done].
  destruct (Hdone i t Ht Hon) as [_ Harr]. by eapply loop_ok_arrives.
Qed.

Lemma container_holds rm nd n w id :
  container_of rm nd n w id → ∃ wl, RuntimeManager.workloads rm !! n = Some wl ∧ holds nd (channel wl) id.
Proof. intros (wl & s & Hwl & Hs & _ & Hid). exists wl. split; [done|]. by exists s. Qed.

Lemma holder_told r rm nd i id :
  tasks_sound rm → loops_ended r rm nd → holds nd i id →
  ∃ n w, told rm n = Some w ∧ container_of rm nd n w id.
Proof.
  intros Hs [Hlen Hloops] (s & Hi & Hid).
  destruct (lookup_lt_is_Some_2 (tasks rm) i) as [t Ht]; [rewrite <-Hlen; by eapply lookup_lt_Some|].
  destruct (Hloops i t Ht) as (l & Hl & Hok). rewrite Hi in Hl. injection Hl as <-.
  destruct (on_runtime r t); [|done]. destruct Hok as (Hno & Htarget & _).
  destruct (sound_owned _ Hs i t Ht Hno) as (n & wl & Hn & <-).
  exists n, (ControlLoop.workload_named s). split; [|by exists wl, s].
  unfold told. rewrite Hn. simpl. by rewrite Ht.
Qed.

Lemma told_contained r rm nd n w :
  rm_wf rm → tasks_sound rm → loops_ended r rm nd → told rm n = Some w → loop_on r rm n →
  ∃ id, container_of rm nd n w id.
Proof.
  intros Hwf Hs [_ Hloops] Htold (wl & t & Hwl & Ht & Hon). unfold told in Htold. rewrite Hwl in Htold.
  simpl in Htold. rewrite Ht in Htold. simpl in Htold.
  destruct (Hloops _ t Ht) as (l & Hl & Hok). rewrite Hon in Hok.
  destruct (wf_channel _ Hwf n wl Hwl) as (t' & Ht' & Hno). simplify_eq.
  destruct l as [s|]; [|done]. destruct Hok as (_ & Htarget & Hid).
  destruct Hid as [id Hid].
  { destruct (sound_task _ Hs _ t Ht) as (_ & cs & -> & _). by constructor. }
  exists id, wl, s. split_and!; [done..| |done]. unfold task_target in Htold. congruence.
Qed.

Lemma containers_as_told r folder w0 decode rm events :
  rm_wf rm → tasks_sound rm → Forall (λ e, possible e.2) events → deletes →
  all_carried_out r rm events →
  let nd := node_run (start_node r folder w0 decode (tasks rm)) events in
  (∀ n w, told rm n = Some w → loop_on r rm n → ∃ id, container_of rm nd n w id) ∧
  (∀ id, id ∈ instances (node_world nd) ↔
    id ∈ instances w0 ∨ ∃ n w, told rm n = Some w ∧ container_of rm nd n w id) ∧
  (∀ n w id, container_of rm nd n w id → id ∉ instances w0 ∧
    ∀ n' w', container_of rm nd n' w' id → n' = n ∧ w' = w).
Proof.
  intros Hwf Hs Hall Hdel Hdone nd.
  assert (loops_ended r rm nd) as Hloops by by apply loops_at_end.
  assert (node_wf (instances w0) nd) as [Hinst Hdist Hfor].
  { apply node_wf_run; [done|]. apply start_node_wf, Forall_lookup. intros i t Ht.
    by destruct (sound_task _ Hs i t Ht). }
  split_and!.
  - intros n w. by apply told_contained.
  - intros id. rewrite Hinst. split; (intros [?|Hex]; [by left|right]).
    + destruct Hex as [i Hh]. by eapply holder_told.
    + destruct Hex as (n & w & _ & (wl & _ & Hh)%container_holds). by exists (channel wl).
  - intros n w id Hc. pose proof (container_holds _ _ _ _ _ Hc) as (wl & Hwl & Hh).
    split; [by eapply Hfor|]. intros n' w' Hc'.
    pose proof (container_holds _ _ _ _ _ Hc') as (wl' & Hwl' & Hh').
    pose proof (Hdist _ _ _ Hh Hh') as Hch. pose proof (wf_distinct _ Hwf _ _ _ _ Hwl Hwl' Hch) as <-.
    split; [done|]. destruct Hc as (? & s & ? & Hs1 & <- & _), Hc' as (? & s' & ? & Hs2 & <- & _).
    congruence.
Qed.
End containers.

(** ** Properties *)


(** ** Examples *)

Section examples.
#[local] Existing Instance key_order.
#[local] Existing Instance example_sha.
#[local] Existing Instance plain_engine.
#[local] Existing Instance assoc_mapping.
#[local] Existing Instance listed_keys.
#[local] Existing Instance example_conversion.
#[local] Existing Instance example_wire.
#[local] Existing Instance example_versions.
#[local] Existing Instance Convergence.example_log_encoding.
#[local] Existing Instance empty_host.

(** A runtime that refuses nothing. *)
Definition healthy_create (reuse : option nat) (rt : gset nat) :
    result RuntimeError (nat * ()) * gset nat :=
  let rt := rt ∖ option_to_set reuse in (Ok (fresh rt, ()), {[fresh rt]} ∪ rt).

Definition healthy_connector : RuntimeConnector := {|
  World := gset nat; WorkloadId := nat; StChecker := (); LogFetcher := ();
  world_files := example_fs;
  world_base64 := λ s, Ok s;
  runtime_create_workload := λ _ reuse _ _, healthy_create reuse;
  runtime_get_workload_id := λ _ rt, (Err (RuntimeErrorList "unknown"), rt);
  runtime_start_checker := λ _ _ rt, (Ok (), rt);
  runtime_get_log_fetcher := λ _ _ _, Ok ();
  runtime_delete_workload := λ id rt, (Ok (), rt ∖ {[id]});
  stop_checker := λ _ rt, rt
|}.
#[local] Existing Instance healthy_connector.

Definition healthy_laws : RuntimeLaws healthy_connector.
Proof.
  unshelve refine (@Build_RuntimeLaws healthy_connector (_ : EqDecision nat) (_ : Countable nat)
    (λ rt : gset nat, rt) _ _ _ _ _ _ _ _ _ _ _); try done.
  - intros w reuse p m rt id c rt' [= <- _ <-]. split; [apply is_fresh|done].
  - by intros id rt u rt' [= _ <-].
Defined.
#[local] Existing Instance healthy_laws.

Abbreviation example_converged :=
  (control_plane_run (control_plane_start server_new [])
    (example_learning ++ replicate 3 MiddlewareForwards)).
Abbreviation example_manager :=
  (runtime_manager (agent_start example_heard
    (agent_manager_new "agent_A" (runtime_manager_new "agent_A" ["run"] {[""]} ())))).

(** The loop of web gets its command and a report of the state checker. *)
Definition example_schedule : list (nat * LoopEvent) :=
  [(0, CommandReceived (Some CommandCreate));
   (0, StateReceived (report (instance_name web_named) (failed "")))].

Lemma example_tasks :
  map (λ t, (task_runtime t, task_supported t, task_workload t, task_commands t)) (tasks example_manager) =
  [("", true, web_named, [CommandCreate])].
Proof. vm_compute. reflexivity. Qed.

Lemma healthy_deletes : deletes.
Proof. intros id rt. reflexivity. Qed.

Lemma web_starts : starts web_named.
Proof. split; intros; reflexivity. Qed.

Lemma example_carried_out : all_carried_out "" example_manager example_schedule.
Proof.
  intros i t Ht _. pose proof example_tasks as Htasks.
  assert (i = 0 ∧ task_workload t = web_named ∧ task_commands t = [CommandCreate]) as (-> & Hw & Hcs).
  { destruct (tasks example_manager) as [|t0 [|]]; [done| |done]. simpl in Htasks.
    apply list_lookup_singleton_Some in Ht as [-> <-]. injection Htasks as _ _ ? ?. done. }
  split; [|exists [], []; split; [exact Hcs|reflexivity]].
  intros w [->|[p Hp]]; [rewrite Hw; apply web_starts|].
  rewrite Hcs in Hp. apply list_elem_of_singleton in Hp. discriminate Hp.
Qed.

Lemma example_loop_on : loop_on "" example_manager "web".
Proof.
  pose proof example_tasks as Htasks.
  assert (channel <$> RuntimeManager.workloads example_manager !! "web" = Some 0) as Hch
    by (vm_compute; reflexivity).
  apply fmap_Some in Hch as (wl & Hwl & Hch).
  destruct (tasks example_manager) as [|t0 [|]] eqn:Hts;
    [discriminate Htasks| |discriminate Htasks].
  exists wl, t0. rewrite Hts, <-Hch. simpl in Htasks. injection Htasks as Hr Hsup _ _.
  split; [exact Hwl|]. split; [reflexivity|]. unfold on_runtime. by rewrite Hr, Hsup.
Qed.

End examples.
