(* ===== verification/Backpressure.v ===== *)
(** * Ankaios: bounded channels

    Everywhere else a channel is the list of what was sent. The channels of the
    programs are bounded: a sender waits while its channel is full. Here the
    channel for the states of the workloads of an agent is taken with its bound
    ([BUFFER_SIZE] in [agent/src/main.rs]): the agent manager reads it in its loop
    ([agent_manager.rs], [start]) and sends on it while it handles an event
    ([scheduler.rs], [report_workload_execution_state]). Other waits of the
    manager, which could only hold it longer, are left out. *)

From stdpp Require Import base tactics gmap strings list relations pretty.
From S2P Require Import Prelude Api WorkloadStates StateManipulation Messages MessageSize.
From S2P Require Import Scheduler WorkloadFiles RetryManager ControlLoop Authorizer ControlInterface.
From S2P Require Import ConfigRenderer ServerState Server Grpc RuntimeManager AgentManager.
From S2P Require Import Convergence AgentConvergence.

(** ** What a handler reports *)

Section reports.
Context `{IterOrder} {SC : StateConversion} {Host : Type} {RH : RuntimeHost Host} {LE : LogEncoding}.
Implicit Types (rm : RuntimeManager (Host := Host)) (am : AgentManager (Host := Host)).
Implicit Types (s q : WorkloadScheduler).

(** Nothing that was reported is taken back. *)
Definition reports_more s s' : Prop := workload_state_sender s `prefix_of` workload_state_sender s'.

#[local] Instance reports_more_preorder : PreOrder reports_more.
Proof. split; [intros s; unfold reports_more; done|intros ???; unfold reports_more; apply transitivity]. Qed.

Lemma reports_more_eq s s' : workload_state_sender s' = workload_state_sender s → reports_more s s'.
Proof. unfold reports_more. by intros ->. Qed.

Lemma reports_more_report n e s : reports_more s (report_workload_execution_state n e s).
Proof. by apply prefix_app_r. Qed.

Lemma reports_more_put name e s s' : reports_more s s' → reports_more s (put_on_queue name e s').
Proof. done. Qed.

Lemma reports_more_enqueue db op s : reports_more s (enqueue_operation db op s).1.
Proof.
  destruct op; simpl; unfold enqueue_pending_create, enqueue_pending_update, enqueue_pending_delete;
    repeat case_match; simpl; try apply reports_more_put; try apply reports_more_report; by apply reports_more_eq.
Qed.

Lemma reports_more_next_entry db e s : reports_more s (next_entry db e s).1.
Proof.
  destruct e; simpl; unfold enqueue_pending_create, enqueue_pending_update, enqueue_pending_delete;
    repeat case_match; simpl; try apply reports_more_put; try apply reports_more_report; by apply reports_more_eq.
Qed.

Lemma reports_more_extend {A} (f : A → WorkloadScheduler → WorkloadScheduler * list WorkloadOperation)
    l s ops :
  (∀ x s, reports_more s (f x s).1) → reports_more s (foldl (extend_ready f) (s, ops) l).1.
Proof.
  intros Hf. apply (foldl_preserves (λ acc, reports_more s acc.1)); [|done].
  intros [s1 ops1] x Hs. unfold extend_ready. simpl in *. pose proof (Hf x s1) as Hx.
  destruct (f x s1). by etrans.
Qed.

Lemma reports_more_next db s : reports_more s (next_workload_operations db s).1.
Proof.
  unfold next_workload_operations.
  etrans; [|apply reports_more_extend; intros; apply reports_more_next_entry]. by apply reports_more_eq.
Qed.

Lemma reports_more_execute ops rm :
  reports_more (workload_queue rm) (workload_queue (execute_workload_operations ops rm)).
Proof.
  unfold execute_workload_operations.
  apply (foldl_preserves (λ rm', reports_more (workload_queue rm) (workload_queue rm'))); [|done].
  intros rm1 op Hrm. etrans; [exact Hrm|]. destruct op as [r|w d|d|d]; simpl.
  - by rewrite add_workload_queue.
  - unfold update_workload. case_match; [|by rewrite add_workload_queue].
    pose proof (workload_update_spec w0 (Some w) (control_interface_info_for rm1 w) rm1) as Hspec.
    destruct (workload_update _ _ _ _) as [wl rm2]. destruct Hspec as (_ & _ & Hq & _). simpl. by rewrite Hq.
  - unfold update_delete_only. case_match; [|done].
    pose proof (workload_update_spec w None None rm1) as Hspec.
    destruct (workload_update _ _ _ _) as [wl rm2]. destruct Hspec as (_ & _ & Hq & _). simpl. by rewrite Hq.
  - unfold delete_workload. case_match; [done|]. apply reports_more_report.
Qed.

Lemma reports_more_fulfilled db rm :
  reports_more (workload_queue rm) (workload_queue (update_workloads_on_fulfilled_dependencies db rm)).
Proof.
  unfold update_workloads_on_fulfilled_dependencies.
  pose proof (reports_more_next db (workload_queue rm)) as Hn.
  destruct (next_workload_operations db (workload_queue rm)) as [q ops].
  etrans; [exact Hn|]. apply (reports_more_execute ops (set_queue q rm)).
Qed.

Lemma reports_more_execute_workloads added deleted db rm :
  reports_more (foldl (extend_ready (enqueue_operation db)) (workload_queue rm, [])
      (transform_into_workload_operations rm added deleted)).1
    (workload_queue (execute_workloads added deleted db rm)).
Proof.
  unfold execute_workloads, enqueue_filtered_workload_operations.
  destruct (foldl _ (workload_queue rm, []) _) as [q1 ready]. simpl.
  pose proof (reports_more_next db q1) as Hn. destruct (next_workload_operations db q1) as [q2 next].
  etrans; [exact Hn|]. apply (reports_more_execute (ready ++ next) (set_queue q2 rm)).
Qed.

Lemma reports_more_update added deleted db rm :
  reports_more (workload_queue rm) (workload_queue (execute_workloads added deleted db rm)).
Proof.
  etrans; [|apply reports_more_execute_workloads]. apply reports_more_extend. intros.
  apply reports_more_enqueue.
Qed.

Lemma reports_more_hello added db rm :
  reports_more (workload_queue rm) (workload_queue (handle_server_hello added db rm)).
Proof.
  unfold handle_server_hello, resume_and_remove_from_added_workloads. cbv zeta.
  etrans; [|apply reports_more_update]. apply reports_more_eq.
  by rewrite (foldl_same (λ rs, workload_queue (resume_manager rs)) resume_runtime);
    [|apply resume_runtime_queue].
Qed.

Lemma reports_more_step e am :
  reports_more (workload_queue (runtime_manager am)) (workload_queue (runtime_manager (agent_step e am).2)).
Proof.
  destruct e as [answers msg|s|cpu mem|id n lines|id]; cbn [agent_step].
  - destruct msg as [n added|added deleted|[|s states]|r| |id r|id|]; simpl; try done.
    + apply reports_more_hello.
    + apply reports_more_update.
    + apply reports_more_fulfilled.
    + by rewrite forward_response_queue.
    + unfold spawn_log_collection. pose proof (get_log_fetchers_queue answers r (runtime_manager am)) as Hq.
      destruct (get_log_fetchers _ _ _). simpl in *. by rewrite Hq.
  - apply reports_more_fulfilled.
  - done.
  - simpl. unfold log_lines_received. by repeat case_match.
  - simpl. unfold log_collection_finished. by repeat case_match.
Qed.

(** *** Workloads that have to wait *)

Definition waiting db (op : WorkloadOperation) : bool :=
  match op_target op with Some w => negb (create_fulfilled w db) | None => false end.

Lemma enqueue_reports db op s :
  waiting db op = true →
  length (workload_state_sender s) < length (workload_state_sender (enqueue_operation db op s).1).
Proof.
  destruct op as [r|w d|d|d]; [| |done..]; unfold waiting; simpl; intros Hw%negb_true_iff.
  - unfold enqueue_pending_create. rewrite Hw. simpl. rewrite length_app. simpl. lia.
  - unfold enqueue_pending_update. rewrite Hw. simpl. case_match; simpl; rewrite length_app; simpl; lia.
Qed.

Lemma enqueue_all_reports db ops s ready :
  length (workload_state_sender s) + length (filter (λ op, waiting db op = true) ops) ≤
  length (workload_state_sender (foldl (extend_ready (enqueue_operation db)) (s, ready) ops).1).
Proof.
  revert s ready. induction ops as [|op ops IH]; intros s ready; [simpl; lia|].
  simpl. unfold extend_ready at 2. cbn [fst snd].
  pose proof (reports_more_enqueue db op s) as Hmore%prefix_length.
  pose proof (enqueue_reports db op s) as Hnew.
  destruct (enqueue_operation db op s) as [s1 ops1]. simpl in *.
  specialize (IH s1 (ready ++ ops1)). rewrite filter_cons. case_decide as Hw; [|lia].
  specialize (Hnew Hw). simpl. lia.
Qed.

Lemma update_reports_waiting added deleted db rm :
  NoDup (named <$> added) → NoDup (deleted_name <$> deleted) →
  (∀ w, w ∈ added → create_fulfilled w db = false) →
  length (reported rm) + length added ≤ length (reported (handle_update_workload added deleted db rm)).
Proof.
  intros Hadded Hdeleted Hwait. unfold handle_update_workload, reported.
  pose proof (reports_more_execute_workloads (into_reusable_workloads added) deleted db rm)
    as Hmore%prefix_length.
  set (ops := transform_into_workload_operations rm (into_reusable_workloads added) deleted) in *.
  pose proof (enqueue_all_reports db ops (workload_queue rm) []) as Hall.
  assert (length added ≤ length (filter (λ op, waiting db op = true) ops)) as Hlen; [|lia].
  rewrite <-(length_fmap named), <-(length_fmap op_name (filter _ ops)).
  apply submseteq_length, NoDup_submseteq; [done|].
  intros n (w & -> & Hw)%list_elem_of_fmap.
  assert (tidy added deleted) as Htidy.
  { split; [|done]. intros w1 w2 Hw1 Hw2 Heq.
    apply list_elem_of_lookup in Hw1 as [i Hi], Hw2 as [j Hj].
    assert (i = j) as <-; [|congruence].
    eapply NoDup_lookup; [exact Hadded|..]; rewrite list_lookup_fmap; [by rewrite Hi|].
    rewrite Hj. simpl. by rewrite Heq. }
  destruct (proj2 (transform_keeps rm added deleted (named w) Hdeleted)) as (op & Hop & Hn & _);
    [by apply list_elem_of_fmap_2|].
  rewrite <-Hn. apply list_elem_of_fmap_2, list_elem_of_filter. split; [|done].
  unfold waiting. rewrite (transform_target rm added deleted op (named w) w) by done.
  by rewrite Hwait.
Qed.

(** ** The manager and the loops on the bounded channel *)

Definition BUFFER_SIZE : nat := 20.

(** What the manager does: it waits for an event, it is at the next report of a
    handler after which it will be as given, or it ended. *)
Inductive ManagerTask :=
  | Listening (am : AgentManager (Host := Host))
  | Reporting (rest : list WorkloadStateSpec) (am : AgentManager (Host := Host))
  | Ended.

Record AgentTasks := { state_channel : list WorkloadStateSpec; manager_task : ManagerTask }.

(** What a handler reports, in order. *)
Definition new_reports am am' : list WorkloadStateSpec :=
  drop (length (reported (runtime_manager am))) (reported (runtime_manager am')).

Definition handled am (r : bool * AgentManager (Host := Host)) : ManagerTask :=
  if r.1 then Reporting (new_reports am r.2) r.2 else Ended.

Definition from_channel (e : AgentEvent) : bool :=
  match e with OwnWorkloadState _ => true | _ => false end.

(** Control loops and state checkers send on the channel at any time; only the
    manager takes from it. *)
Inductive agent_task_step : AgentTasks → AgentTasks → Prop :=
  | manager_handles ch am e :
      from_channel e = false →
      agent_task_step {| state_channel := ch; manager_task := Listening am |}
        {| state_channel := ch; manager_task := handled am (agent_step e am) |}
  | manager_receives r ch am :
      agent_task_step {| state_channel := r :: ch; manager_task := Listening am |}
        {| state_channel := ch; manager_task := handled am (agent_step (OwnWorkloadState r) am) |}
  | manager_reports ch r rest am :
      length ch < BUFFER_SIZE →
      agent_task_step {| state_channel := ch; manager_task := Reporting (r :: rest) am |}
        {| state_channel := ch ++ [r]; manager_task := Reporting rest am |}
  | manager_done ch am :
      agent_task_step {| state_channel := ch; manager_task := Reporting [] am |}
        {| state_channel := ch; manager_task := Listening am |}
  | loop_reports ch r m :
      length ch < BUFFER_SIZE →
      agent_task_step {| state_channel := ch; manager_task := m |}
        {| state_channel := ch ++ [r]; manager_task := m |}.

Lemma new_reports_spec e am :
  let am' := (agent_step e am).2 in
  reported (runtime_manager am') = reported (runtime_manager am) ++ new_reports am am'.
Proof.
  simpl. destruct (reports_more_step e am) as [l Hl]. unfold new_reports, reported.
  by rewrite Hl, drop_app_length.
Qed.

(** The manager is in a handler whose reports do not fit into the channel. *)
Definition stuck am (t : AgentTasks) : Prop :=
  ∃ rest, manager_task t = Reporting rest am ∧ length (state_channel t) ≤ BUFFER_SIZE ∧
    BUFFER_SIZE < length (state_channel t) + length rest.

Lemma stuck_step am t t' : agent_task_step t t' → stuck am t → stuck am t'.
Proof.
  intros Hstep (rest & Hm & Hle & Hlt). destruct Hstep; simpl in *; simplify_eq.
  - eexists. split; [done|]. simpl. rewrite length_app. simpl in *. lia.
  - simpl in *. lia.
  - eexists. split; [done|]. simpl. rewrite length_app. simpl. lia.
Qed.

Lemma stuck_forever am t t' : rtc agent_task_step t t' → stuck am t → stuck am t'.
Proof. induction 1; [done|]. intros. eauto using stuck_step. Qed.

Lemma stuck_reporting am t : stuck am t → ∃ r rest, manager_task t = Reporting (r :: rest) am.
Proof. intros ([|r rest] & Hm & Hle & Hlt); [simpl in Hlt; lia|eauto]. Qed.

(** With room for its reports, and as long as nobody else takes it, a handler
    ends. *)
Lemma reports_fit ch rest am :
  length ch + length rest ≤ BUFFER_SIZE →
  rtc agent_task_step {| state_channel := ch; manager_task := Reporting rest am |}
    {| state_channel := ch ++ rest; manager_task := Listening am |}.
Proof.
  revert ch. induction rest as [|r rest IH]; intros ch Hlen; simpl in Hlen.
  - rewrite app_nil_r. apply rtc_once. constructor.
  - eapply rtc_l; [constructor; lia|]. rewrite (cons_middle r ch rest), (assoc_L (++)).
    apply IH. rewrite length_app. simpl. lia.
Qed.
End reports.

(** ** The server and the middleware on bounded channels *)

Section delivery.
Context `{IterOrder} {SC : StateConversion} {WC : WireConversion} {V : Versions} {LE : LogEncoding}.
Implicit Types g : GrpcServer.

(** [common/src/lib.rs] *)
Definition CHANNEL_CAPACITY : nat := 20.

(** What [forward_from_ankaios] sends for a message, in order. *)
Definition deliveries (m : FromServer) g : list (string * WireFromServer) :=
  match m with
  | ServerHello name added => [(default "" name, WireServerHello (added_workload_from <$> added))]
  | UpdateWorkload added deleted =>
    map_iter (get_workloads_per_agent added deleted) ≫= λ '(name, u),
      [(name, WireUpdateWorkload (added_workload_from <$> updated_added u)
                (deleted_workload_from <$> updated_deleted u))]
  | UpdateWorkloadState states =>
    (map_iter (agent_senders g)).*1 ≫= λ name,
      match filter (λ s, agent_name (state_instance_name s) ≠ name) states with
      | [] => []
      | filtered => [(name, WireUpdateWorkloadState (state_to_wire <$> filtered))]
      end
  | FromServerResponse r =>
    let '(name, id) := detach_prefix_from_request_id (response_request_id r) in
    [(name, WireResponse {| response_request_id := id; response_content := response_content r |})]
  | FromServerLogsRequest id r =>
    map_iter (group_workload_instance_names_by_agent (log_workload_names r)) ≫= λ '(name, names),
      [(name, WireLogsRequest id (Some {| log_workload_names := names;
          follow := follow r; tail_lines := tail_lines r; since := since r; until := until r |}))]
  | FromServerLogsCancelRequest id =>
    (map_iter (agent_senders g)).*1 ≫= λ name, [(name, WireLogsCancelRequest id)]
  | ServerGone | FromServerStop => []
  end.

Lemma forward_deliveries m g : (forward_from_ankaios m g).2 = send_all (deliveries m g) g.
Proof.
  destruct m as [n added|added deleted|states|r| |id r|id|]; cbn [forward_from_ankaios deliveries snd];
    try done.
  - apply foldl_send_all. by intros g' [name u].
  - apply foldl_send_all. intros g' name. apply states_step.
  - by destruct (detach_prefix_from_request_id _).
  - apply foldl_send_all. by intros g' [name names].
  - by apply foldl_send_all.
Qed.

(** The task of the middleware: it waits for a message of the server, it goes
    through the deliveries of one, it sends to a connection, or it ended. *)
Inductive ForwardTask :=
  | Waiting
  | Delivering (rest : list (string * WireFromServer))
  | Sending (c : nat) (w : WireFromServer) (rest : list (string * WireFromServer))
  | Stopped.

(** [unread] counts what the reader of a connection has not taken yet. *)
Record Delivery := {
  to_agents : list FromServer;
  forward_task : ForwardTask;
  unread : nat → nat;
  middleware : GrpcServer
}.

Definition sent_unchanged g g' : Prop := ∀ c, c < length (sent g) → sent_of g' c = sent_of g c.

(** The readers of the connections [hung] do not take anything, and these
    connections stay open. *)
Inductive delivery_step (hung : nat → bool) : Delivery → Delivery → Prop :=
  | server_sends ch task u g m :
      length ch < CHANNEL_CAPACITY →
      delivery_step hung {| to_agents := ch; forward_task := task; unread := u; middleware := g |}
        {| to_agents := ch ++ [m]; forward_task := task; unread := u; middleware := g |}
  | middleware_takes m ch u g :
      delivery_step hung {| to_agents := m :: ch; forward_task := Waiting; unread := u; middleware := g |}
        {| to_agents := ch;
           forward_task := if (forward_from_ankaios m g).1 then Delivering (deliveries m g) else Stopped;
           unread := u; middleware := g |}
  | middleware_looks_up name w rest ch u g :
      delivery_step hung
        {| to_agents := ch; forward_task := Delivering ((name, w) :: rest); unread := u; middleware := g |}
        {| to_agents := ch;
           forward_task := match agent_senders g !! name with
                           | Some c => Sending c w rest
                           | None => Delivering rest
                           end;
           unread := u; middleware := g |}
  | middleware_sends c w rest ch u g :
      u c < CHANNEL_CAPACITY →
      delivery_step hung
        {| to_agents := ch; forward_task := Sending c w rest; unread := u; middleware := g |}
        {| to_agents := ch; forward_task := Delivering rest;
           unread := λ c', if decide (c' = c) then S (u c) else u c'; middleware := send_on c w g |}
  | middleware_fails c w rest ch u g :
      hung c = false →
      delivery_step hung
        {| to_agents := ch; forward_task := Sending c w rest; unread := u; middleware := g |}
        {| to_agents := ch; forward_task := Delivering rest; unread := u; middleware := g |}
  | middleware_done ch u g :
      delivery_step hung {| to_agents := ch; forward_task := Delivering []; unread := u; middleware := g |}
        {| to_agents := ch; forward_task := Waiting; unread := u; middleware := g |}
  | reader_takes c ch task u g :
      hung c = false → 0 < u c →
      delivery_step hung {| to_agents := ch; forward_task := task; unread := u; middleware := g |}
        {| to_agents := ch; forward_task := task;
           unread := λ c', if decide (c' = c) then pred (u c) else u c'; middleware := g |}
  | clients_act ch task u g g' :
      sent_unchanged g g' → length (sent g) ≤ length (sent g') →
      delivery_step hung {| to_agents := ch; forward_task := task; unread := u; middleware := g |}
        {| to_agents := ch; forward_task := task; unread := u; middleware := g' |}.

(** The middleware sends to a connection that is full and not read. *)
Record held (hung : nat → bool) (d0 d : Delivery) : Prop := {
  held_task : forward_task d = forward_task d0;
  held_full c w rest : forward_task d0 = Sending c w rest → hung c = true ∧ CHANNEL_CAPACITY ≤ unread d c;
  held_sent : sent_unchanged (middleware d0) (middleware d) ∧
    length (sent (middleware d0)) ≤ length (sent (middleware d));
  held_channel : to_agents d0 `prefix_of` to_agents d ∧ length (to_agents d) ≤ CHANNEL_CAPACITY
}.

Lemma held_step hung d0 d d' c w rest :
  forward_task d0 = Sending c w rest → delivery_step hung d d' → held hung d0 d → held hung d0 d'.
Proof.
  intros Hd0 Hstep [Htask Hfull [Hsent Hlen] [Hpre Hch]]. destruct (Hfull c w rest Hd0) as [Hhung Hcap].
  destruct Hstep as [ch task u g m Hlt|m ch u g|name w' rest' ch u g|c' w' rest' ch u g Hlt|
    c' w' rest' ch u g Hopen|ch u g|c' ch task u g Hopen Hu|ch task u g g' Hkeep Hmore]; simpl in *;
    rewrite Hd0 in Htask; simplify_eq; [|lia|congruence|..]; split; simpl; try done.
  - split; [by apply prefix_app_r|]. rewrite length_app. simpl. lia.
  - intros c1 w1 rest1 Heq. rewrite Hd0 in Heq. injection Heq as <- <- <-. split; [done|].
    case_decide; [congruence|done].
  - split; [|lia]. intros c1 Hc1. rewrite <-Hsent by done. apply Hkeep. lia.
Qed.

Lemma held_start hung d c w rest :
  forward_task d = Sending c w rest → hung c = true → CHANNEL_CAPACITY ≤ unread d c →
  length (to_agents d) ≤ CHANNEL_CAPACITY → held hung d d.
Proof. intros Hd Hhung Hfull Hch. split; [done| |done|done]. intros c' w' rest'. rewrite Hd. by intros [= <- <- <-]. Qed.

Lemma held_run hung d0 d d' c w rest :
  forward_task d0 = Sending c w rest → rtc (delivery_step hung) d d' → held hung d0 d → held hung d0 d'.
Proof. intros Hd0. induction 1; [done|]. intros Hd. eauto using held_step. Qed.

(** As long as every reader goes on, a reader makes room for every delivery. *)
Lemma room_for hung c task ch u g :
  hung c = false → ∃ u', u' c < CHANNEL_CAPACITY ∧
    rtc (delivery_step hung) {| to_agents := ch; forward_task := task; unread := u; middleware := g |}
      {| to_agents := ch; forward_task := task; unread := u'; middleware := g |}.
Proof.
  intros Hopen. remember (u c) as n eqn:Hn. revert u Hn. induction n as [|n IH]; intros u Hn.
  - exists u. split; [unfold CHANNEL_CAPACITY; lia|done].
  - destruct (IH (λ c', if decide (c' = c) then pred (u c) else u c')) as (u' & Hu' & Hrun).
    { rewrite decide_True by done. lia. }
    exists u'. split; [done|]. eapply rtc_l; [|exact Hrun]. apply reader_takes; [done|lia].
Qed.

Lemma delivers_all hung l ch u g :
  (∀ c, hung c = false) → ∃ u',
    rtc (delivery_step hung) {| to_agents := ch; forward_task := Delivering l; unread := u; middleware := g |}
      {| to_agents := ch; forward_task := Waiting; unread := u'; middleware := send_all l g |}.
Proof.
  intros Hopen. revert u g. induction l as [|[name w] l IH]; intros u g.
  { exists u. apply rtc_once, middleware_done. }
  change (send_all ((name, w) :: l) g) with (send_all l (send_to name w g)). unfold send_to.
  destruct (agent_senders g !! name) as [c|] eqn:Hc.
  - destruct (room_for hung c (Sending c w l) ch u g (Hopen c)) as (u1 & Hu1 & Hrun).
    destruct (IH (λ c', if decide (c' = c) then S (u1 c) else u1 c') (send_on c w g)) as (u2 & Hrest).
    exists u2. eapply rtc_l; [apply middleware_looks_up|]. rewrite Hc. etrans; [exact Hrun|].
    eapply rtc_l; [by apply middleware_sends|exact Hrest].
  - destruct (IH u g) as (u2 & Hrest). exists u2. eapply rtc_l; [apply middleware_looks_up|]. rewrite Hc. exact Hrest.
Qed.
End delivery.

(** ** Properties *)

(** An update with more workloads that have to wait for their dependencies than
    the channel for states has room for stops the agent for good: the manager
    waits until it can report them, and it is the only one who could make room.
    Whatever the control loops do, it never handles another event. *)
Theorem waiting_workloads_block_agent
    `{IterOrder} {SC : StateConversion} {Host : Type} {RH : RuntimeHost Host} {LE : LogEncoding}
    answers added deleted (am : AgentManager (Host := Host)) ch t :
  NoDup (named <$> added) → NoDup (deleted_name <$> deleted) →
  (∀ w, w ∈ added → create_fulfilled w (workload_state_store am) = false) →
  length ch ≤ BUFFER_SIZE → BUFFER_SIZE < length ch + length added →
  let r := agent_step (FromServerMsg answers (UpdateWorkload added deleted)) am in
  rtc agent_task_step {| state_channel := ch; manager_task := handled am r |} t →
  ∃ s rest, manager_task t = Reporting (s :: rest) r.2.
Proof.
  intros Hadded Hdeleted Hwait Hle Hlt r Ht. apply stuck_reporting. eapply stuck_forever; [exact Ht|].
  exists (new_reports am r.2). split; [done|]. split; [done|]. simpl.
  pose proof (update_reports_waiting added deleted (workload_state_store am) (runtime_manager am)
    Hadded Hdeleted Hwait) as Hlen.
  unfold new_reports. rewrite length_drop. cbn in Hlen |- *. lia.
Qed.


(** One agent that does not read its connection stops the server for everyone:
    once the channel of the connection is full, the next message for it holds
    the middleware; no connection gets anything any more, and the server can send
    only what still fits into its channel. *)
Theorem hung_agent_stops_server
    `{IterOrder} {SC : StateConversion} {WC : WireConversion} {V : Versions} {LE : LogEncoding}
    hung c w rest d d' :
  forward_task d = Sending c w rest → hung c = true → CHANNEL_CAPACITY ≤ unread d c →
  length (to_agents d) ≤ CHANNEL_CAPACITY → rtc (delivery_step hung) d d' →
  forward_task d' = Sending c w rest ∧ sent_unchanged (middleware d) (middleware d') ∧
  ∃ ms, to_agents d' = to_agents d ++ ms ∧ length (to_agents d) + length ms ≤ CHANNEL_CAPACITY.
Proof.
  intros Hd Hhung Hfull Hch Hrun.
  destruct (held_run hung d d d' c w rest Hd Hrun (held_start hung d c w rest Hd Hhung Hfull Hch))
    as [-> _ [Hsent _] [[ms Hms] Hlen]].
  split; [done|]. split; [done|]. exists ms. split; [done|]. rewrite <-length_app, <-Hms. exact Hlen.
Qed.

(** Reports that fit into the channel do not hold the manager, unless others
    take the room. *)
Theorem reports_that_fit
    `{IterOrder} {SC : StateConversion} {Host : Type} {RH : RuntimeHost Host} {LE : LogEncoding}
    e (am : AgentManager (Host := Host)) ch :
  let r := agent_step e am in
  r.1 = true → length ch + length (new_reports am r.2) ≤ BUFFER_SIZE →
  rtc agent_task_step {| state_channel := ch; manager_task := handled am r |}
    {| state_channel := ch ++ new_reports am r.2; manager_task := Listening r.2 |}.
Proof. intros r Hgo Hlen. unfold handled. rewrite Hgo. by apply reports_fit. Qed.

(** ** Examples *)

Section examples.
#[local] Existing Instance key_order.
#[local] Existing Instance example_conversion.
#[local] Existing Instance Convergence.example_log_encoding.
#[local] Existing Instance AgentConvergence.empty_host.

Definition waiting_workload (i : nat) : WorkloadNamed :=
  example_workload (pretty i) "1" {["db" := AddCondRunning]}.

Definition blocked_agent : AgentManager (Host := ()) :=
  agent_manager_new "agent_A" (runtime_manager_new "agent_A" ["run"] {["podman"]} ()).

(** Twenty-one new workloads that wait for one that is not running yet. *)
Lemma waiting_workloads_block_agent_witness :
  ∀ t, let added := waiting_workload <$> seq 0 21 in
  let r := agent_step (FromServerMsg (λ _, true) (UpdateWorkload added [])) blocked_agent in
  rtc agent_task_step {| state_channel := []; manager_task := handled blocked_agent r |} t →
  ∃ s rest, manager_task t = Reporting (s :: rest) r.2.
Proof.
  intros t added r Ht.
  apply (waiting_workloads_block_agent (λ _, true) added [] blocked_agent [] t); [..|exact Ht].
  - apply (bool_decide_unpack _). vm_compute. exact I.
  - constructor.
  - intros w (i & -> & _)%list_elem_of_fmap. reflexivity.
  - simpl. unfold BUFFER_SIZE. lia.
  - simpl. unfold BUFFER_SIZE. lia.
Defined.

#[local] Existing Instance example_wire.
#[local] Existing Instance example_versions.

(** The channel of agent_A is full, and its reader goes on. *)
Definition busy_middleware : GrpcServer := insert_sender "agent_A" false grpc_server_new.

End examples.
