(* ===== verification/WaitList.v ===== *)
(** * Ankaios CLI: waiting for workloads

    [ank/src/cli_commands/wait_list.rs]: the workloads an update of the state
    adds and deletes, taken off the list when they reach a final state; the
    list reports to a display through the trait [WaitListDisplayTrait].
    [wait_list_display.rs] and [workload_table_row.rs]: the display that the
    commands use, a table row per workload and the workloads not completed. *)

From Stdlib Require Import Ascii.
From stdpp Require Import base tactics gmap strings list sorting.
From S2P Require Import Prelude Api.

(** ** [ParsedUpdateStateSuccess] *)

Record ParsedUpdateStateSuccess := {
  parsed_added : list WorkloadInstanceNameSpec;
  parsed_deleted : list WorkloadInstanceNameSpec
}.

Definition parse_update_state_success (added deleted : list string) :
    result string ParsedUpdateStateSuccess :=
  added ← try_collect instance_name_try_from added;
  deleted ← try_collect instance_name_try_from deleted;
  Ok {| parsed_added := added; parsed_deleted := deleted |}.

(** ** The list *)

(** What the list asks of a display. *)
Class WaitListDisplayTrait (T : Type) := {
  display_update : WorkloadStateSpec → T → T;
  display_set_complete : WorkloadInstanceNameSpec → T → T;
  display_step_spinner : T → T
}.

Record WaitList {T : Type} := {
  added_workloads : gset WorkloadInstanceNameSpec;
  deleted_workloads : gset WorkloadInstanceNameSpec;
  connected_agents : gset string;
  display : T
}.
Arguments WaitList T : clear implicits.

Section wait_list.
Context {T : Type} `{WaitListDisplayTrait T} `{IterOrder}.

Definition wait_list_new (value : ParsedUpdateStateSuccess) (connected : gset string) (d : T) :
    WaitList T := {|
  added_workloads := list_to_set (parsed_added value);
  deleted_workloads := list_to_set (parsed_deleted value);
  connected_agents := connected;
  display := d
|}.

Definition with_display (d : T) (w : WaitList T) : WaitList T := {|
  added_workloads := added_workloads w;
  deleted_workloads := deleted_workloads w;
  connected_agents := connected_agents w;
  display := d
|}.

(** [if self.added_workloads.remove(n) { self.display.set_complete(n) }]. *)
Definition complete_added (n : WorkloadInstanceNameSpec) (w : WaitList T) : WaitList T :=
  if decide (n ∈ added_workloads w) then {|
    added_workloads := added_workloads w ∖ {[n]};
    deleted_workloads := deleted_workloads w;
    connected_agents := connected_agents w;
    display := display_set_complete n (display w)
  |} else w.

Definition complete_deleted (n : WorkloadInstanceNameSpec) (w : WaitList T) : WaitList T :=
  if decide (n ∈ deleted_workloads w) then {|
    added_workloads := added_workloads w;
    deleted_workloads := deleted_workloads w ∖ {[n]};
    connected_agents := connected_agents w;
    display := display_set_complete n (display w)
  |} else w.

Definition update_with (w : WaitList T) (s : WorkloadStateSpec) : WaitList T :=
  let w := with_display (display_update s (display w)) w in
  let n := state_instance_name s in
  match execution_state_enum (execution_state s) with
  | SRunning | SSucceeded | SFailed _ | NotScheduled => complete_added n w
  | SPending PendingStartingFailed => complete_added n w
  | SRemoved => complete_deleted n w
  | AgentDisconnected => complete_deleted n (complete_added n w)
  | _ => w
  end.

(** The set without the workloads of other agents, and the display told of each. *)
Definition retain_workloads_of_connected_agents (names : gset WorkloadInstanceNameSpec) (d : T)
    (connected : gset string) : gset WorkloadInstanceNameSpec * T :=
  (filter (λ n, agent_name n ∈ connected) names,
   foldl (λ d n, if decide (agent_name n ∈ connected) then d else display_set_complete n d)
     d (set_iter names)).

Definition update (values : list WorkloadStateSpec) (w : WaitList T) : WaitList T :=
  let w := foldl update_with w values in
  let (added, d) :=
    retain_workloads_of_connected_agents (added_workloads w) (display w) (connected_agents w) in
  let (deleted, d) :=
    retain_workloads_of_connected_agents (deleted_workloads w) d (connected_agents w) in
  {| added_workloads := added; deleted_workloads := deleted;
     connected_agents := connected_agents w; display := d |}.

Definition step_spinner (w : WaitList T) : WaitList T :=
  with_display (display_step_spinner (display w)) w.

Definition wait_list_is_empty (w : WaitList T) : bool :=
  bool_decide (added_workloads w = ∅) && bool_decide (deleted_workloads w = ∅).
End wait_list.

(** ** Table rows *)

Record WorkloadTableRow := {
  row_name : string;
  row_agent : string;
  row_runtime : string;
  row_execution_state : string;
  row_additional_info : string
}.

Definition trim_and_replace_newlines (text : string) : string := str_replace "010" ", " (trim text).

Definition table_row_new (name agent runtime execution_state additional_info : string) :
    WorkloadTableRow := {|
  row_name := name;
  row_agent := agent;
  row_runtime := runtime;
  row_execution_state := execution_state;
  row_additional_info := trim_and_replace_newlines additional_info
|}.

Definition set_runtime (runtime : string) (row : WorkloadTableRow) : WorkloadTableRow := {|
  row_name := row_name row;
  row_agent := row_agent row;
  row_runtime := runtime;
  row_execution_state := row_execution_state row;
  row_additional_info := row_additional_info row
|}.

(** Both callers set the execution state and the additional information together. *)
Definition set_state_and_info (s : ExecutionStateSpec) (row : WorkloadTableRow) :
    WorkloadTableRow := {|
  row_name := row_name row;
  row_agent := row_agent row;
  row_runtime := row_runtime row;
  row_execution_state := execution_state_enum_to_string (execution_state_enum s);
  row_additional_info := trim_and_replace_newlines (additional_info s)
|}.

(** ** [WaitListDisplay] *)

Definition SPINNER_SYMBOLS : list string := ["|"; "/"; "-"; "\"].
Definition COMPLETED_SYMBOL : string := " ".

Record WaitListDisplay := {
  data : gmap WorkloadInstanceNameSpec WorkloadTableRow;
  not_completed : gset WorkloadInstanceNameSpec;
  spinner : nat
}.

#[export] Instance wait_list_display : WaitListDisplayTrait WaitListDisplay := {|
  display_update := λ s d,
    {| data := alter (set_state_and_info (execution_state s)) (state_instance_name s) (data d);
       not_completed := not_completed d; spinner := spinner d |};
  display_set_complete := λ n d,
    {| data := data d; not_completed := not_completed d ∖ {[n]}; spinner := spinner d |};
  display_step_spinner := λ d,
    {| data := data d; not_completed := not_completed d;
       spinner := (spinner d + 1) mod length SPINNER_SYMBOLS |}
|}.

(** The symbol in front of the state of a workload. *)
Definition symbol_of (d : WaitListDisplay) (n : WorkloadInstanceNameSpec) : option string :=
  if decide (n ∈ not_completed d) then SPINNER_SYMBOLS !! spinner d else Some COMPLETED_SYMBOL.

(** The rows of the table with their symbols, sorted by the workload name. *)
Definition display_rows `{IterOrder} (d : WaitListDisplay) :
    list (option string * WorkloadTableRow) :=
  merge_sort (λ a b, String.le (row_name a.2) (row_name b.2))
    ((λ p, (symbol_of d p.1, p.2)) <$> map_iter (data d)).

(** ** Lemmas *)

Definition final_for_added (s : ExecutionStateSpec) : bool :=
  match execution_state_enum s with
  | SRunning | SSucceeded | SFailed _ | NotScheduled | SPending PendingStartingFailed
  | AgentDisconnected => true
  | _ => false
  end.

Definition final_for_deleted (s : ExecutionStateSpec) : bool :=
  match execution_state_enum s with SRemoved | AgentDisconnected => true | _ => false end.

(** A list of states has one for the workload that is final. *)
Definition reports (final : ExecutionStateSpec → bool) (values : list WorkloadStateSpec)
    (n : WorkloadInstanceNameSpec) : Prop :=
  ∃ s, s ∈ values ∧ state_instance_name s = n ∧ final (execution_state s) = true.

#[export] Instance reports_dec final values n : Decision (reports final values n).
Proof.
  refine (cast_if (decide (Exists (λ s, state_instance_name s = n ∧ final (execution_state s) = true) values)));
    abstract (unfold reports; by rewrite Exists_exists in *).
Defined.

Lemma reports_cons final s values n :
  reports final (s :: values) n ↔
  (state_instance_name s = n ∧ final (execution_state s) = true) ∨ reports final values n.
Proof. unfold reports. set_solver. Qed.

Lemma reports_app final v1 v2 n : reports final (v1 ++ v2) n ↔ reports final v1 n ∨ reports final v2 n.
Proof. unfold reports. set_solver. Qed.

Section wait_list_lemmas.
Context {T : Type} `{WaitListDisplayTrait T} `{IterOrder}.
Implicit Types w : WaitList T.

Lemma complete_added_sets n w :
  added_workloads (complete_added n w) = added_workloads w ∖ {[n]} ∧
  deleted_workloads (complete_added n w) = deleted_workloads w ∧
  connected_agents (complete_added n w) = connected_agents w.
Proof. unfold complete_added. case_decide; [done|]. set_solver. Qed.

Lemma complete_deleted_sets n w :
  added_workloads (complete_deleted n w) = added_workloads w ∧
  deleted_workloads (complete_deleted n w) = deleted_workloads w ∖ {[n]} ∧
  connected_agents (complete_deleted n w) = connected_agents w.
Proof. unfold complete_deleted. case_decide; [done|]. set_solver. Qed.

Lemma update_with_sets w s :
  added_workloads (update_with w s) =
    (if final_for_added (execution_state s)
     then added_workloads w ∖ {[state_instance_name s]} else added_workloads w) ∧
  deleted_workloads (update_with w s) =
    (if final_for_deleted (execution_state s)
     then deleted_workloads w ∖ {[state_instance_name s]} else deleted_workloads w) ∧
  connected_agents (update_with w s) = connected_agents w.
Proof.
  unfold update_with, final_for_added, final_for_deleted.
  set (w' := with_display _ w). set (n := state_instance_name s).
  pose proof (complete_added_sets n w') as (Ha & Hb & Hc).
  pose proof (complete_deleted_sets n w') as (Hd & He & Hf).
  pose proof (complete_deleted_sets n (complete_added n w')) as (Hg & Hh & Hi).
  destruct (execution_state_enum (execution_state s)) as [|[]| |[]| |[]| |];
    rewrite ?Hg, ?Hh, ?Hi, ?Hd, ?He, ?Hf, ?Ha, ?Hb, ?Hc; done.
Qed.

Lemma foldl_update_with_sets values w :
  (∀ n, n ∈ added_workloads (foldl update_with w values) ↔
        n ∈ added_workloads w ∧ ¬ reports final_for_added values n) ∧
  (∀ n, n ∈ deleted_workloads (foldl update_with w values) ↔
        n ∈ deleted_workloads w ∧ ¬ reports final_for_deleted values n) ∧
  connected_agents (foldl update_with w values) = connected_agents w.
Proof.
  revert w. induction values as [|s values IH]; intros w; simpl.
  - unfold reports. set_solver.
  - destruct (IH (update_with w s)) as (Ha & Hd & ->).
    destruct (update_with_sets w s) as (Ha' & Hd' & ->).
    setoid_rewrite reports_cons. split_and!; [| |done]; intros n.
    + rewrite Ha, Ha'. destruct (final_for_added _); set_solver.
    + rewrite Hd, Hd'. destruct (final_for_deleted _); set_solver.
Qed.

(** What is still waited for after the states of a message. *)
Lemma update_sets values w :
  (∀ n, n ∈ added_workloads (update values w) ↔
        n ∈ added_workloads w ∧ agent_name n ∈ connected_agents w ∧
        ¬ reports final_for_added values n) ∧
  (∀ n, n ∈ deleted_workloads (update values w) ↔
        n ∈ deleted_workloads w ∧ agent_name n ∈ connected_agents w ∧
        ¬ reports final_for_deleted values n) ∧
  connected_agents (update values w) = connected_agents w.
Proof.
  unfold update, retain_workloads_of_connected_agents. simpl.
  destruct (foldl_update_with_sets values w) as (Ha & Hd & ->).
  split_and!; [| |done]; intros n; rewrite elem_of_filter, ?Ha, ?Hd; tauto.
Qed.

Definition update_all (messages : list (list WorkloadStateSpec)) w : WaitList T :=
  foldl (λ w values, update values w) w messages.

Lemma update_all_sets messages w :
  messages ≠ [] →
  (∀ n, n ∈ added_workloads (update_all messages w) ↔
        n ∈ added_workloads w ∧ agent_name n ∈ connected_agents w ∧
        ¬ reports final_for_added (concat messages) n) ∧
  (∀ n, n ∈ deleted_workloads (update_all messages w) ↔
        n ∈ deleted_workloads w ∧ agent_name n ∈ connected_agents w ∧
        ¬ reports final_for_deleted (concat messages) n).
Proof.
  intros Hne. unfold update_all. revert w.
  induction messages as [|values messages IH]; intros w; simpl; [done|].
  setoid_rewrite reports_app. destruct (update_sets values w) as (Ha & Hd & Hc).
  destruct messages as [|v messages].
  - simpl. split; intros n; [rewrite Ha|rewrite Hd]; unfold reports; setoid_rewrite elem_of_nil;
      naive_solver.
  - destruct (IH ltac:(done) (update values w)) as (IHa & IHd). rewrite Hc in *.
    split; intros n; [rewrite IHa, Ha|rewrite IHd, Hd]; tauto.
Qed.

Lemma wait_list_is_empty_true w :
  wait_list_is_empty w = true ↔ added_workloads w = ∅ ∧ deleted_workloads w = ∅.
Proof. unfold wait_list_is_empty. by rewrite andb_true_iff, !bool_decide_eq_true. Qed.

(** [wait_for_complete] waits for a message until the list is empty. *)
Lemma update_all_empty messages w :
  messages ≠ [] →
  (∀ n, n ∈ added_workloads w → agent_name n ∈ connected_agents w →
        reports final_for_added (concat messages) n) →
  (∀ n, n ∈ deleted_workloads w → agent_name n ∈ connected_agents w →
        reports final_for_deleted (concat messages) n) →
  wait_list_is_empty (update_all messages w) = true.
Proof.
  intros Hne Ha Hd. destruct (update_all_sets messages w Hne) as (Ha' & Hd').
  apply wait_list_is_empty_true.
  split; apply elem_of_equiv_empty_L; intros n.
  - rewrite Ha'. intros (Hn & Hc & Hr). by apply Hr, Ha.
  - rewrite Hd'. intros (Hn & Hc & Hr). by apply Hr, Hd.
Qed.
End wait_list_lemmas.

(** *** The display *)

Section display_lemmas.
Context `{IterOrder}.
Implicit Types w : WaitList WaitListDisplay.

(** The workloads shown as not completed are those waited for. *)
Definition display_in_sync (w : WaitList WaitListDisplay) : Prop :=
  not_completed (display w) = added_workloads w ∪ deleted_workloads w ∧
  added_workloads w ## deleted_workloads w.

Lemma complete_in_sync n w :
  display_in_sync w → display_in_sync (complete_added n w) ∧ display_in_sync (complete_deleted n w).
Proof.
  intros (Hn & Hd). unfold complete_added, complete_deleted, display_in_sync.
  split; case_decide; simpl; [|done| |done]; rewrite Hn; (split; [|set_solver]);
    apply set_eq; intros x; destruct (decide (x = n)); set_solver.
Qed.

Lemma update_with_in_sync s w : display_in_sync w → display_in_sync (update_with w s).
Proof.
  intros Hw. unfold update_with. set (w' := with_display _ w).
  assert (display_in_sync w') as Hw' by done.
  destruct (complete_in_sync (state_instance_name s) w' Hw') as [Ha Hd].
  destruct (complete_in_sync (state_instance_name s) _ Ha) as [_ Had].
  destruct (execution_state_enum (execution_state s)) as [|[]| |[]| |[]| |]; done.
Qed.

Lemma retain_not_completed (connected : gset string) l (d : WaitListDisplay) n :
  n ∈ not_completed (foldl (λ d n, if decide (agent_name n ∈ connected) then d
                                   else display_set_complete n d) d l) ↔
  n ∈ not_completed d ∧ (n ∈ l → agent_name n ∈ connected).
Proof.
  revert d. induction l as [|x l IH]; intros d; simpl; [set_solver|].
  rewrite IH. case_decide; simpl; set_solver.
Qed.

Lemma update_in_sync values w : display_in_sync w → display_in_sync (update values w).
Proof.
  intros Hw.
  assert (display_in_sync (foldl update_with w values)) as (Hn & Hd).
  { revert w Hw. induction values as [|s values IH]; intros w Hw; simpl; [done|].
    by apply IH, update_with_in_sync. }
  unfold update, retain_workloads_of_connected_agents, display_in_sync. cbn -[foldl].
  set (w' := foldl update_with w values) in *. split; [|set_solver].
  apply set_eq. intros n. rewrite !retain_not_completed, Hn.
  rewrite !elem_of_set_iter, !elem_of_union, !elem_of_filter.
  pose proof (Hd n). tauto.
Qed.
End display_lemmas.
