(* ===== verification/CliTable.v ===== *)
(** * Ankaios CLI: tables

    [ank/src/cli_commands/cli_table.rs] and the width of the terminal of
    [ank/src/log.rs].  The crate [tabled] renders the tables: its functions are
    a parameter; the width of the column that is fitted to the terminal and the
    truncation of the default table are the program's own. *)

From Stdlib Require Import Ascii.
From stdpp Require Import base tactics numbers strings list.
From S2P Require Import Prelude Utf8.

(** ** The terminal *)

(** [interactive] says whether the standard output is a terminal, [size] is its
    width if it is known. *)
Definition terminal_width (interactive : bool) (size : option nat) : nat :=
  let width := if interactive then default 80 size else 65535 in
  if width =? 0 then 80 else width.

(** [lines]: without the line ends; a line end at the end of the text begins no line. *)
Definition strip_line_end (line : string) : string :=
  if ends_with (String "013" "") line then str_take (String.length line - 1) line else line.

Definition str_lines (s : string) : list string :=
  let parts := split_on "010" s in
  strip_line_end <$> match last parts with Some "" => removelast parts | _ => parts end.

(** ** Tables *)

Class Tabled (Row : Type) := {
  headers : list string;
  fields : Row → list string;
  total_width : list Row → nat;
  render : list Row → string;
  render_wrapped : list Row → nat → nat → string;
  render_truncated : list Row → nat → nat → string
}.

Section cli_table.
Context {Row : Type} `{Tabled Row} (terminal_width : nat).

Definition max_content_length (rows : list Row) (column_position : nat) : option nat :=
  lengths ← mapM (λ row, String.length <$> fields row !! column_position) rows;
  Some (max_list lengths).

(** [None] is the panic of a table without the column. *)
Definition column_width_for_terminal (rows : list Row) (column_position : nat) :
    option (result string nat) :=
  column_name_length ← String.length <$> (headers (Row:=Row)) !! column_position;
  max_content_length ← max_content_length rows column_position;
  let column_width := max_content_length `max` column_name_length in
  let total_table_width := total_width rows in
  Some (
    if total_table_width <? column_width then
      Err "Could not create table: overflow when calculating table width for other columns."
    else
      let table_width_other_columns := total_table_width - column_width in
      if table_width_other_columns + column_name_length <=? terminal_width then
        if terminal_width <? table_width_other_columns then
          Err "Could not create table: overflow when calculating remaining terminal width."
        else Ok (terminal_width - table_width_other_columns)
      else Err "Could not create table: no reasonable terminal width available").

Definition truncate_line (line : string) : option string :=
  if terminal_width <? String.length line then str_slice_to terminal_width line else Some line.

(** [None] is the panic of a slice inside of a character. *)
Definition create_default_table (rows : list Row) : option string :=
  truncated_lines ← mapM truncate_line (str_lines (render rows));
  Some (join (String "010" "") truncated_lines).

Definition table_with_wrapped_column_to_remaining_terminal_width (rows : list Row)
    (column_position : nat) : option (result string string) :=
  (fmap (M:=result string) (render_wrapped rows column_position)) <$>
    column_width_for_terminal rows column_position.

Definition table_with_truncated_column_to_remaining_terminal_width (rows : list Row)
    (column_position : nat) : option (result string string) :=
  (fmap (M:=result string) (render_truncated rows column_position)) <$>
    column_width_for_terminal rows column_position.

(** [unwrap_or_else(|_| create_default_table())]. *)
Definition or_default_table (rows : list Row) (table : option (result string string)) :
    option string :=
  table ← table;
  match table with Ok t => Some t | Err _ => create_default_table rows end.

(** ** Lemmas *)

(** A fitted column fills what the others leave of the terminal and is not
    narrower than its header. *)
Lemma column_width_fits rows column_position name width longest :
  headers (Row:=Row) !! column_position = Some name →
  max_content_length rows column_position = Some longest →
  column_width_for_terminal rows column_position = Some (Ok width) ↔
  longest `max` String.length name ≤ total_width rows ∧
  String.length name ≤ width ∧
  total_width rows - (longest `max` String.length name) + width = terminal_width.
Proof.
  intros Hname Hlongest. unfold column_width_for_terminal. rewrite Hname, Hlongest. simpl.
  destruct (Nat.ltb_spec (total_width rows) (longest `max` String.length name));
    [split; [done|lia]|].
  destruct (Nat.leb_spec (total_width rows - longest `max` String.length name + String.length name)
              terminal_width); [|split; [done|lia]].
  destruct (Nat.ltb_spec terminal_width (total_width rows - longest `max` String.length name)); [lia|].
  split; [intros [= <-]; lia|]. intros. do 2 f_equal. lia.
Qed.

(** The default table panics exactly if a line has a character across the edge
    of the terminal. *)
Lemma default_table_panics rows :
  create_default_table rows = None ↔
  ∃ line, line ∈ str_lines (render rows) ∧ terminal_width < String.length line ∧
          is_char_boundary line terminal_width = false.
Proof.
  unfold create_default_table.
  assert (mapM truncate_line (str_lines (render rows)) = None ↔
          Exists (λ line, truncate_line line = None) (str_lines (render rows))) as Hnone.
  { rewrite <-mapM_None. done. }
  destruct (mapM truncate_line (str_lines (render rows))) as [ls|] eqn:Hls; simpl.
  - split; [done|]. intros (line & Hin & Hlen & Hb).
    exfalso. apply (Some_ne_None ls). apply Hnone, Exists_exists. exists line. split; [done|].
    unfold truncate_line, str_slice_to. by rewrite (proj2 (Nat.ltb_lt _ _) Hlen), Hb.
  - split; [|done]. intros _. apply proj1 in Hnone.
    destruct (proj1 (Exists_exists _ _) (Hnone eq_refl)) as (line & Hin & Hline).
    exists line. split; [done|]. unfold truncate_line, str_slice_to in Hline.
    destruct (Nat.ltb_spec terminal_width (String.length line)); [|done].
    by destruct (is_char_boundary line terminal_width).
Qed.
End cli_table.
