(* ===== verification/Terminal.v ===== *)
(** * Ankaios: output of the command line

    [ank/src/log.rs]: messages that are only printed if the options ask for them,
    and messages that overwrite the previous one while a command waits. The
    terminal is a list of rows with a cursor; what is printed is a sequence of
    characters and of the control sequences of the [crossterm] crate. *)

From Stdlib Require Import NArith Lia.
From stdpp Require Import base tactics numbers list sets.
From S2P Require Import Prelude CliTable.

(** A character, a Unicode scalar value; texts are decoded. *)
Abbreviation Char := N.
Definition NEWLINE : Char := 10%N.

(** ** The terminal *)

Inductive Printed :=
  | Chars (l : list Char)
  | ClearUntilNewLine
  | LineFeed
  | MoveToColumn0
  | MoveUp (n : N).

(** The rows from the top, the row of the cursor and its column. *)
Record Screen := { rows : list (list Char); row : nat; column : nat }.

Definition current_row (s : Screen) : list Char := default [] (rows s !! row s).

(** Rows that were not used yet are empty. *)
Fixpoint set_row (i : nat) (r : list Char) (l : list (list Char)) : list (list Char) :=
  match i, l with
  | O, _ :: l => r :: l
  | O, [] => [r]
  | S i, x :: l => x :: set_row i r l
  | S i, [] => [] :: set_row i r []
  end.

Definition print_one (p : Printed) (s : Screen) : Screen :=
  match p with
  | Chars l =>
    let r := current_row s in
    {| rows := set_row (row s) (take (column s) r ++ l ++ drop (column s + length l) r) (rows s);
       row := row s; column := column s + length l |}
  | ClearUntilNewLine =>
    {| rows := set_row (row s) (take (column s) (current_row s)) (rows s); row := row s;
       column := column s |}
  | LineFeed => {| rows := rows s; row := S (row s); column := 0 |}
  | MoveToColumn0 => {| rows := rows s; row := row s; column := 0 |}
  | MoveUp n => {| rows := rows s; row := row s - N.to_nat n; column := column s |}
  end.

Definition print (ps : list Printed) (s : Screen) : Screen := foldl (λ s p, print_one p s) s ps.

(** ** Output *)

(** [IS_VERBOSE], [IS_QUIET] and [ROWS_PREV_MSG], a 16-bit number; the terminal. *)
Record Output := {
  is_verbose_flag : bool;
  is_quiet : bool;
  rows_prev_msg : N;
  screen : Screen
}.

Definition is_verbose (o : Output) : bool := is_verbose_flag o && negb (is_quiet o).

Definition with_screen (rows_prev_msg : N) (s : Screen) (o : Output) : Output :=
  {| is_verbose_flag := is_verbose_flag o; is_quiet := is_quiet o; rows_prev_msg := rows_prev_msg;
     screen := s |}.

(** [slice::chunks]: pieces of [n] elements, the last one may be shorter. *)
Fixpoint chunks_fuel (fuel n : nat) (l : list Char) : list (list Char) :=
  match fuel, l with
  | S fuel, _ :: _ => take n l :: chunks_fuel fuel n (drop n l)
  | _, _ => []
  end.

Definition chunks (n : nat) (l : list Char) : list (list Char) := chunks_fuel (length l) n l.

(** [split('\n')]. *)
Fixpoint split_lines (l : list Char) : list (list Char) :=
  match l with
  | [] => [[]]
  | c :: l =>
    if N.eqb c NEWLINE then [] :: split_lines l
    else match split_lines l with [] => [[c]] | x :: ls => (c :: x) :: ls end
  end.

Definition println (text : list Char) : list Printed :=
  mjoin ((λ l, [Chars l; LineFeed]) <$> split_lines text).

Definition output_debug_fn (text : list Char) (o : Output) : Output :=
  if is_verbose o then with_screen 0 (print (println text) (screen o)) o else o.

Definition output_warn_fn (text : list Char) (o : Output) : Output :=
  with_screen 0 (print (println text) (screen o)) o.

Definition output_fn (text : list Char) (o : Output) : Output :=
  if is_quiet o then o else with_screen 0 (print (println text) (screen o)) o.

Section output_update.
Context (interactive : bool) (size : option nat).

Definition lf : list Printed := [ClearUntilNewLine; LineFeed].

(** The lines of the message, cut at the width of the terminal. *)
Definition message_rows (text : list Char) : list (list Char) :=
  split_lines text ≫= chunks (terminal_width interactive size).

(** The rows joined by [lf]. *)
Fixpoint join_rows (l : list (list Char)) : list Printed :=
  match l with
  | [] => []
  | [r] => [Chars r]
  | r :: l => Chars r :: lf ++ join_rows l
  end.

Definition is_line_feed (p : Printed) : bool := match p with LineFeed => true | _ => false end.

(** [count() as u16]. *)
Definition count_rows (l : list Printed) : N :=
  N.of_nat (length (filter (λ p, is_line_feed p = true) l)) `mod` 65536.

Definition move_up (n : N) : list Printed := [MoveUp n].

Definition output_update_fn (text : list Char) (o : Output) : Output :=
  if is_quiet o then o
  else if negb interactive then
    with_screen (rows_prev_msg o) (print (println (text ++ [NEWLINE])) (screen o)) o
  else
    let args := join_rows (message_rows text) ++ lf in
    let rows := count_rows args in
    let prev_rows := rows_prev_msg o in
    let pre_up := if (0 <? prev_rows)%N then move_up prev_rows else [] in
    let cleanup :=
      if (rows <? prev_rows)%N then mjoin (replicate (N.to_nat (prev_rows - rows)) lf) else [] in
    let post_up := if (rows <? prev_rows)%N then move_up (prev_rows - rows) else [] in
    with_screen rows (print (MoveToColumn0 :: pre_up ++ args ++ cleanup ++ post_up) (screen o)) o.
End output_update.

(** ** Lemmas *)

Lemma print_app p1 p2 s : print (p1 ++ p2) s = print p2 (print p1 s).
Proof. apply foldl_app. Qed.

Lemma set_row_app base old r rest :
  set_row (length base) r (base ++ old :: rest) = base ++ r :: rest.
Proof. induction base as [|b base IH]; [done|]. simpl. by rewrite IH. Qed.

Lemma set_row_end base r : set_row (length base) r base = base ++ [r].
Proof. induction base as [|b base IH]; [done|]. simpl. by rewrite IH. Qed.

(** The rows from the cursor on: what stands below the rows [base]. *)
Definition at_row (base below : list (list Char)) (s : Screen) : Prop :=
  rows s = base ++ below ∧ row s = length base ∧ column s = 0.

Lemma print_row base below s r :
  at_row base below s → at_row (base ++ [r]) (tail below) (print (Chars r :: lf) s).
Proof.
  intros (Hrows & Hrow & Hcol). unfold print, lf. simpl. unfold current_row. simpl.
  rewrite Hcol, Hrow, Hrows. simpl. split_and!; [|by rewrite length_app, Nat.add_comm|done].
  destruct below as [|old below]; simpl.
  - rewrite app_nil_r, !set_row_end, lookup_app_r, Nat.sub_diag by done. simpl.
    rewrite lookup_ge_None_2 by done. simpl. rewrite drop_nil, app_nil_r, firstn_all.
    change (base ++ [r]) with (base ++ r :: []). rewrite set_row_app. by rewrite app_nil_r.
  - rewrite lookup_app_r, Nat.sub_diag by done. simpl. rewrite !set_row_app.
    rewrite lookup_app_r, Nat.sub_diag by done. simpl.
    rewrite take_app_length. by rewrite <-app_assoc.
Qed.

Lemma print_empty_row base below s :
  at_row base below s → at_row (base ++ [[]]) (tail below) (print lf s).
Proof.
  intros Hs. pose proof (print_row base below s [] Hs) as (H1 & H2 & H3).
  destruct Hs as (Hrows & Hrow & Hcol). unfold print, lf in *. simpl in *.
  unfold current_row in *. simpl in *. rewrite Hcol, Hrow, Hrows in *. simpl in *.
  destruct below as [|old below]; simpl in *.
  - rewrite app_nil_r, !set_row_end in *. split_and!; [|done..].
    by rewrite ?app_nil_r in *.
  - rewrite set_row_app in *. split_and!; [|done..]. by rewrite <-app_assoc.
Qed.

(** The rows a message takes: an empty one takes one. *)
Definition shown (l : list (list Char)) : list (list Char) := match l with [] => [[]] | _ => l end.

Lemma print_message_rows base below s l :
  at_row base below s →
  at_row (base ++ shown l) (drop (length (shown l)) below) (print (join_rows l ++ lf) s).
Proof.
  intros Hs. destruct l as [|r l].
  { pose proof (print_empty_row base below s Hs) as H1. simpl in *. by destruct below. }
  simpl shown. revert base below s r Hs. induction l as [|r2 l IH]; intros base below s r Hs.
  - pose proof (print_row base below s r Hs) as H1. simpl in *. by destruct below.
  - pose proof (IH _ _ _ r2 (print_row base below s r Hs)) as H1.
    rewrite <-app_assoc in H1. destruct below; [by rewrite !drop_nil in *|done].
Qed.

Lemma print_cleanup base below s k :
  at_row base below s →
  at_row (base ++ replicate k []) (drop k below) (print (mjoin (replicate k lf)) s).
Proof.
  revert base below s. induction k as [|k IH]; intros base below s Hs.
  { by rewrite app_nil_r. }
  pose proof (IH _ _ _ (print_empty_row base below s Hs)) as H1. rewrite <-app_assoc in H1.
  cbn [replicate mjoin list_join]. rewrite print_app.
  destruct below; [by rewrite !drop_nil in *|done].
Qed.

Lemma filter_line_feeds l :
  length (filter (λ p, is_line_feed p = true) (join_rows l ++ lf)) = length (shown l).
Proof.
  destruct l as [|r l]; [done|]. revert r. induction l as [|r2 l IH]; intros r; [done|].
  cbn [join_rows app lf]. rewrite !filter_cons_False by done. rewrite filter_cons_True by done.
  simpl. f_equal. apply IH.
Qed.

Lemma count_message_rows l :
  (N.of_nat (length (shown l)) < 65536)%N → count_rows (join_rows l ++ lf) = N.of_nat (length (shown l)).
Proof.
  intros Hl. unfold count_rows. rewrite filter_line_feeds. by apply N.mod_small.
Qed.

(** The screen shows the rows [base], then a message that the next update overwrites,
    then blank rows. *)
Definition shows (base msg : list (list Char)) (o : Output) : Prop :=
  ∃ k, rows (screen o) = base ++ msg ++ replicate k [] ∧ row (screen o) = length base + length msg ∧
    rows_prev_msg o = N.of_nat (length msg).

(** The cursor goes to the first row of the previous message. *)
Lemma shows_at_row base msg o :
  shows base msg o →
  ∃ k, at_row base (msg ++ replicate k [])
    (print (MoveToColumn0 :: (if (0 <? rows_prev_msg o)%N then move_up (rows_prev_msg o) else []))
       (screen o)).
Proof.
  intros (k & Hrows & Hrow & Hprev). exists k. rewrite Hprev.
  destruct (N.ltb_spec 0 (N.of_nat (length msg))) as [Hlt|Hge]; simpl; split_and!; try done; simpl.
  - rewrite Hrow, Nat2N.id. lia.
  - rewrite Hrow. lia.
Qed.

Lemma drop_blanks (msg : list (list Char)) n k :
  length msg ≤ n → drop n (msg ++ replicate k []) = replicate (k - (n - length msg)) [].
Proof. intros Hn. rewrite drop_app, drop_ge by done. simpl. by rewrite drop_replicate. Qed.

Lemma with_screen_shows base msg prev s o k :
  rows s = base ++ msg ++ replicate k [] → row s = length base + length msg →
  prev = N.of_nat (length msg) → shows base msg (with_screen prev s o).
Proof. intros Hr Hc ->. by exists k. Qed.

Lemma rows_move_up n s : rows (print (move_up n) s) = rows s.
Proof. done. Qed.

Lemma row_move_up n s : row (print (move_up n) s) = row s - N.to_nat n.
Proof. done. Qed.

Section update_lemmas.
Context (size : option nat).

Lemma output_update_shows base msg text o :
  is_quiet o = false → (N.of_nat (length (shown (message_rows true size text))) < 65536)%N →
  shows base msg o → shows base (shown (message_rows true size text)) (output_update_fn true size text o).
Proof.
  intros Hquiet Hlen Hs. pose proof Hs as (_ & _ & _ & Hprev).
  destruct (shows_at_row _ _ _ Hs) as [k Hat]. unfold output_update_fn. rewrite Hquiet. cbn [negb].
  rewrite count_message_rows by done. set (s1 := print (MoveToColumn0 :: _) _) in *.
  pose proof (print_message_rows base _ s1 (message_rows true size text) Hat) as H2.
  set (new := shown _) in *. set (args := join_rows _ ++ lf) in *.
  rewrite app_comm_cons, !print_app. fold s1. set (s2 := print args s1) in *. rewrite Hprev.
  destruct (N.ltb_spec (N.of_nat (length new)) (N.of_nat (length msg))) as [Hlt|Hge].
  - replace (N.to_nat (N.of_nat (length msg) - N.of_nat (length new)))
      with (length msg - length new) by lia.
    pose proof (print_cleanup _ _ s2 (length msg - length new) H2) as (Hr & Hc & _).
    apply (with_screen_shows _ _ _ _ _ (length msg - length new + k)); [| |done].
    + rewrite rows_move_up, Hr, drop_drop, drop_blanks by lia.
      replace (k - (length new + (length msg - length new) - length msg)) with k by lia.
      by rewrite replicate_add, <-!app_assoc.
    + rewrite row_move_up, Hc, !length_app, length_replicate. lia.
  - destruct H2 as (Hr & Hc & _).
    apply (with_screen_shows _ _ _ _ _ (k - (length new - length msg))); [| |done].
    + change (rows s2 = base ++ new ++ replicate (k - (length new - length msg)) []). rewrite Hr, drop_blanks by lia. by rewrite <-app_assoc.
    + change (row s2 = length base + length new). by rewrite Hc, length_app.
Qed.

(** While a command updates its message, what was printed before stays and below it
    only the last message is visible. *)
Lemma output_updates_show base texts text o :
  is_quiet o = false → (∀ t, t ∈ texts ++ [text] → (N.of_nat (length (shown (message_rows true size t))) < 65536)%N) →
  shows base [] o →
  shows base (shown (message_rows true size text))
    (foldl (λ o t, output_update_fn true size t o) o (texts ++ [text])).
Proof.
  intros Hquiet Hlen Hs.
  enough (∀ msg o, is_quiet o = false → shows base msg o → ∀ l, (∀ t, t ∈ l → t ∈ texts ++ [text]) →
    let o' := foldl (λ o t, output_update_fn true size t o) o l in
    is_quiet o' = false ∧ ∃ msg', shows base msg' o') as Hall.
  { rewrite foldl_app. destruct (Hall [] o Hquiet Hs texts) as [Hq [msg' Hs']]; [set_solver|].
    simpl. eapply output_update_shows; [done| |done]. apply Hlen. set_solver. }
  clear o Hquiet Hs. intros msg o Hquiet Hs l. revert msg o Hquiet Hs.
  induction l as [|t l IH]; intros msg o Hquiet Hs Hl; [by eauto|]. simpl.
  eapply IH; [|eapply output_update_shows; [done| |done]|set_solver].
  - unfold output_update_fn. by rewrite Hquiet.
  - apply Hlen, Hl. by left.
Qed.

(** An empty line of a message takes no row. *)
Lemma empty_line_lost l1 l2 :
  message_rows true size (l1 ++ NEWLINE :: NEWLINE :: l2) = message_rows true size (l1 ++ NEWLINE :: l2).
Proof.
  assert (∀ l, split_lines (l1 ++ NEWLINE :: l) = split_lines l1 ++ split_lines l) as Hsplit.
  { intros l. induction l1 as [|c l1 IH]; [done|]. cbn [app split_lines].
    destruct (N.eqb c NEWLINE); rewrite IH; [done|].
    by destruct (split_lines l1) eqn:Hl1; [destruct l1; simpl in Hl1; repeat case_match|]. }
  unfold message_rows. by rewrite !Hsplit, !bind_app.
Qed.
End update_lemmas.
