(* ===== verification/ServerConnection.v ===== *)
(** * Ankaios CLI: the connection to the server

    [ank/src/cli_commands/server_connection.rs] and [ank/src/cli_error.rs]: the
    requests of a command and the loops that wait for their answers.

    What happens while a command waits is a list of arrivals: messages of the
    server, the end of the channel, the end of the response timeout, the ticks
    of the spinner and signals.  A command acts on the connection; it stops
    early with an error, or because it waits for something that never comes, or
    because a signal ends the process. *)

From Stdlib Require Import Ascii ZArith.
From stdpp Require Import base tactics gmap strings list sorting pretty.
From S2P Require Import Prelude Api StateManipulation Messages.

(** ** Errors *)

Inductive CliError :=
  | YamlSerialization (message : string)
  | JsonSerialization (message : string)
  | ExecutionError (message : string).

(** [ServerConnectionError] has the case [ExecutionError] only; [?] converts it. *)
Abbreviation ServerConnectionError := string.

Definition cli_error_to_string (e : CliError) : string :=
  match e with
  | YamlSerialization message => "Could not serialize YAML object: '" +:+ message +:+ "'"
  | JsonSerialization message => "Could not serialize JSON object: '" +:+ message +:+ "'"
  | ExecutionError message => "Command failed: '" +:+ message +:+ "'"
  end.

(** Why a command does not return a value. *)
Inductive Stop :=
  | Error (e : CliError)
  | Waiting
  | KilledBySignal
  | Exit (message : string)
  | Panicked.

Definition execution_error (e : ServerConnectionError) : Stop := Error (ExecutionError e).

(** ** The state of a connection *)

Section connection.
Context `{StateConversion}.

Inductive Arrival :=
  | Received (m : FromServer)
  | Closed
  | TimedOut
  | Tick
  | Signal.

(** [next_uuid] counts the ids drawn; [printed] are the log lines on the
    standard output. *)
Record ServerConnection := {
  sent : list ToServer;
  to_server_open : bool;
  arrivals : list Arrival;
  missed_from_server_messages : list FromServer;
  response_timeout : string;
  next_uuid : nat;
  printed : list string
}.

(** The text of the n-th id the process draws with [Uuid::new_v4]. *)
Class Uuid := uuid : nat → string.

Abbreviation cli := (io ServerConnection Stop).

Definition stop {A} (s : Stop) : cli A := io_of (Err s).

(** [for] over a list with an action that may stop. *)
Fixpoint for_each {A} (f : A → cli ()) (l : list A) : cli () :=
  match l with [] => mret () | x :: l => _ ← f x; for_each f l end.

Definition with_arrivals (rest : list Arrival) (missed : list FromServer) (c : ServerConnection) :
    ServerConnection := {|
  sent := sent c;
  to_server_open := to_server_open c;
  arrivals := rest;
  missed_from_server_messages := missed;
  response_timeout := response_timeout c;
  next_uuid := next_uuid c;
  printed := printed c
|}.

Definition send (m : ToServer) : cli () := λ c,
  if to_server_open c then
    (Ok (), {| sent := sent c ++ [m]; to_server_open := to_server_open c; arrivals := arrivals c;
               missed_from_server_messages := missed_from_server_messages c;
               response_timeout := response_timeout c; next_uuid := next_uuid c;
               printed := printed c |})
  else (Err (execution_error "ToServerError: 'channel closed'"), c).

Definition new_v4 `{Uuid} : cli string := λ c,
  (Ok (uuid (next_uuid c)),
   {| sent := sent c; to_server_open := to_server_open c; arrivals := arrivals c;
      missed_from_server_messages := missed_from_server_messages c;
      response_timeout := response_timeout c; next_uuid := S (next_uuid c);
      printed := printed c |}).

Definition print_log (line : string) : cli () := λ c,
  (Ok (), {| sent := sent c; to_server_open := to_server_open c; arrivals := arrivals c;
             missed_from_server_messages := missed_from_server_messages c;
             response_timeout := response_timeout c; next_uuid := next_uuid c;
             printed := printed c ++ [line] |}).

(** ** Waiting loops *)

(** What an arm of the [match] on a received message does. *)
Inductive Arm (A : Type) :=
  | Break (r : result ServerConnectionError A)
  | Store
  | Ignore.
#[global] Arguments Break {A} r.
#[global] Arguments Store {A}.
#[global] Arguments Ignore {A}.

(** A [loop] with [from_server.recv().await], to the end of the arrivals.
    [on_timeout] is the error of a loop under [run_until_timeout], whose timer
    ends if nothing arrives any more; [on_signal] is the other branch of a
    [select!] with [wait_for_signals]. *)
Fixpoint poll {A} (handle : FromServer → Arm A) (on_close : ServerConnectionError)
    (on_timeout : option ServerConnectionError) (on_signal : option A)
    (l : list Arrival) (missed : list FromServer) :
    result Stop A * list Arrival * list FromServer :=
  match l with
  | [] =>
    (match on_timeout with Some e => Err (execution_error e) | None => Err Waiting end, [], missed)
  | Received m :: l =>
    match handle m with
    | Break r => (map_err execution_error r, l, missed)
    | Store => poll handle on_close on_timeout on_signal l (missed ++ [m])
    | Ignore => poll handle on_close on_timeout on_signal l missed
    end
  | Closed :: l => (Err (execution_error on_close), Closed :: l, missed)
  | TimedOut :: l =>
    match on_timeout with
    | Some e => (Err (execution_error e), l, missed)
    | None => poll handle on_close on_timeout on_signal l missed
    end
  | Tick :: l => poll handle on_close on_timeout on_signal l missed
  | Signal :: l =>
    (match on_signal with Some a => Ok a | None => Err KilledBySignal end, l, missed)
  end.

Definition run_poll {A} (handle : FromServer → Arm A) (on_close : ServerConnectionError)
    (on_timeout : option ServerConnectionError) (on_signal : option A) : cli A := λ c,
  let '(r, rest, missed) :=
    poll handle on_close on_timeout on_signal (arrivals c) (missed_from_server_messages c) in
  (r, with_arrivals rest missed c).

(** The error of a loop under [run_until_timeout]. *)
Definition timeout_error : cli ServerConnectionError := λ c,
  (Ok ("Command timed out after '" +:+ response_timeout c +:+ "'"), c).

(** The message is a response to the request. *)
Definition content_for (id : string) (m : FromServer) : option ResponseContent :=
  match m with
  | FromServerResponse r =>
    if decide (response_request_id r = id) then response_content r else None
  | _ => None
  end.

(** *** [get_complete_state] *)

Record CompleteStateRequestDetails := {
  details_request_id : string;
  details_field_masks : list string;
  details_subscribe_for_events : bool
}.

Definition request_details_new `{Uuid} (field_masks : list string) (subscribe : bool) :
    cli CompleteStateRequestDetails :=
  id ← new_v4;
  mret {| details_request_id := id; details_field_masks := field_masks;
          details_subscribe_for_events := subscribe |}.

Definition handle_complete_state (id : string) (m : FromServer) : Arm CompleteState :=
  match content_for id m with
  | Some (CompleteStateResponseContent s _) => Break (Ok (default complete_state_default s))
  | _ => Store
  end.

Definition get_complete_state (d : CompleteStateRequestDetails) : cli CompleteState :=
  _ ← send (request_complete_state (details_request_id d)
              {| field_mask := details_field_masks d;
                 subscribe_for_events := details_subscribe_for_events d |});
  e ← timeout_error;
  run_poll (handle_complete_state (details_request_id d)) "Channel preliminary closed." (Some e) None.

(** *** [update_state] *)

Definition handle_update_state (id : string) (m : FromServer) : Arm (list string * list string) :=
  match content_for id m with
  | Some (UpdateStateSuccessContent added deleted) => Break (Ok (added, deleted))
  | Some (ErrorContent message) => Break (Err ("SetState failed with: '" +:+ message +:+ "'"))
  | _ => Store
  end.

Definition update_state `{Uuid} (new_state : CompleteState) (update_mask : list string) :
    cli (list string * list string) :=
  id ← new_v4;
  _ ← send (request_update_state id new_state update_mask);
  e ← timeout_error;
  run_poll (handle_update_state id) "Connection to server interrupted" (Some e) None.

(** *** Messages that are not answers *)

Definition handle_update_workload_state (m : FromServer) : Arm (list WorkloadStateSpec) :=
  match m with
  | UpdateWorkloadState states => Break (Ok states)
  | _ => Store
  end.

Definition read_next_update_workload_state : cli (list WorkloadStateSpec) :=
  run_poll handle_update_workload_state "Connection to server interrupted" None None.

Definition take_missed_from_server_messages : cli (list FromServer) := λ c,
  (Ok (missed_from_server_messages c), with_arrivals (arrivals c) [] c).

(** *** Events *)

Definition handle_event (id : string) (m : FromServer) :
    Arm (option (option CompleteState * option AlteredFields)) :=
  match content_for id m with
  | Some (CompleteStateResponseContent s altered) => Break (Ok (Some (s, altered)))
  | Some (ErrorContent message) =>
    Break (Err ("Event subscription failed: '" +:+ message +:+ "'"))
  | _ => Ignore
  end.

Definition receive_next_event (id : string) :
    cli (option (option CompleteState * option AlteredFields)) :=
  run_poll (handle_event id) "Connection to server interrupted" None (Some None).

(** *** Logs *)

Record LogsArgs := {
  args_workload_name : list string;
  args_follow : bool;
  args_tail : Z;
  args_output_names : bool;
  args_since : option string;
  args_until : option string
}.

Definition logs_args_to_request (a : LogsArgs) (names : list WorkloadInstanceNameSpec) :
    LogsRequest := {|
  log_workload_names := names;
  follow := if args_follow a then Some true else None;
  tail_lines := if (0 <=? args_tail a)%Z then Some (args_tail a) else None;
  since := args_since a;
  until := args_until a
|}.

(** The derived order of instance names, field by field: the order of a [BTreeSet]. *)
Definition compare_names (n1 n2 : WorkloadInstanceNameSpec) : comparison :=
  match String.compare (workload_name n1) (workload_name n2) with
  | Eq => match String.compare (agent_name n1) (agent_name n2) with
          | Eq => String.compare (instance_id n1) (instance_id n2)
          | c => c
          end
  | c => c
  end.

Definition name_le (n1 n2 : WorkloadInstanceNameSpec) : Prop := compare_names n1 n2 ≠ Gt.
#[export] Instance name_le_dec : RelDecision name_le.
Proof. intros n1 n2. unfold name_le. destruct (compare_names n1 n2); [left|left|right]; naive_solver. Defined.

Definition in_order (names : gset WorkloadInstanceNameSpec) : list WorkloadInstanceNameSpec :=
  merge_sort name_le (elements names).

Definition handle_logs_accepted (id : string) (m : FromServer) :
    Arm (list WorkloadInstanceNameSpec) :=
  match content_for id m with
  | Some (LogsRequestAcceptedContent names) => Break (Ok names)
  | Some (ErrorContent message) =>
    Break (Err ("Server replied with error: '" +:+ message +:+ "'"))
  | _ => Ignore
  end.

Definition get_logs_accepted_response (id : string) : cli (list WorkloadInstanceNameSpec) :=
  e ← timeout_error;
  run_poll (handle_logs_accepted id)
    "Connection to server interrupted while waiting for LogsRequestAccepted response." (Some e) None.

Definition compare_requested_with_accepted_workloads (requested : gset WorkloadInstanceNameSpec)
    (accepted : list WorkloadInstanceNameSpec) : result ServerConnectionError () :=
  try_for_each (λ n,
    if decide (n ∈ accepted) then Ok ()
    else Err ("Workload '" +:+ workload_name n +:+
              "' is not accepted by the server to receive logs from."))
    (in_order requested).

Inductive LogStreamingState :=
  | StopForWorkload (n : WorkloadInstanceNameSpec)
  | Continue
  | Output (logs : LogEntriesResponse).

Definition handle_server_log_response (id : string) (m : FromServer) :
    result ServerConnectionError LogStreamingState :=
  match content_for id m with
  | Some (LogEntriesResponseContent logs) => Ok (Output logs)
  | Some (LogsStopResponseContent r) =>
    match stopped_workload_name r with
    | Some n => Ok (StopForWorkload n)
    | None => Err "Received invalid LogsStopResponse without workload name"
    end
  | Some (ErrorContent message) => Err ("Error streaming logs: '" +:+ message +:+ "'")
  | _ => Ok Continue
  end.

Definition newline : string := String "010" "".

(** [output_and_error] ends the process. *)
Definition output_logs_with_workload_names (entries : LogEntriesResponse) : cli () :=
  for_each (λ entry,
    match log_workload_name entry with
    | Some n => print_log (workload_name n +:+ " " +:+ log_message entry +:+ newline)
    | None =>
      stop (Exit "Failed to output log: workload name is not available inside log entry.")
    end) entries.

Definition output_logs_without_workload_names (entries : LogEntriesResponse) : cli () :=
  for_each (λ entry, print_log (log_message entry +:+ newline)) entries.

Definition is_output_with_workload_names (names : gset WorkloadInstanceNameSpec)
    (force_output_names : bool) : bool :=
  (1 <? size names) || force_output_names.

Definition select_log_format_function (names : gset WorkloadInstanceNameSpec)
    (force_output_names : bool) : LogEntriesResponse → cli () :=
  if is_output_with_workload_names names force_output_names
  then output_logs_with_workload_names else output_logs_without_workload_names.

(** The loop over the arrivals; a signal is answered with a request to cancel. *)
Fixpoint listen_loop (id : string) (names : gset WorkloadInstanceNameSpec)
    (output : LogEntriesResponse → cli ()) (l : list Arrival) (c : ServerConnection) :
    result Stop () * ServerConnection :=
  let at_ rest c := with_arrivals rest (missed_from_server_messages c) c in
  match l with
  | [] => (Err Waiting, at_ [] c)
  | Signal :: l => send (request_logs_cancel id) (at_ l c)
  | Closed :: l =>
    (Err (execution_error "Error streaming workload logs: channel preliminary closed."),
     at_ (Closed :: l) c)
  | Received m :: l =>
    match handle_server_log_response id m with
    | Err e => (Err (execution_error e), at_ l c)
    | Ok (Output logs) =>
      match output logs c with
      | (Ok _, c) => listen_loop id names output l c
      | (Err s, c) => (Err s, at_ l c)
      end
    | Ok Continue => listen_loop id names output l c
    | Ok (StopForWorkload n) =>
      let names := names ∖ {[n]} in
      if decide (names = ∅) then (Ok (), at_ l c) else listen_loop id names output l c
    end
  | TimedOut :: l | Tick :: l => listen_loop id names output l c
  end.

Definition listen_for_workload_logs (id : string) (names : gset WorkloadInstanceNameSpec)
    (output : LogEntriesResponse → cli ()) : cli () :=
  λ c, listen_loop id names output (arrivals c) c.

Definition stream_logs `{Uuid} (names : gset WorkloadInstanceNameSpec) (a : LogsArgs) : cli () :=
  id ← new_v4;
  _ ← send (request_logs id (logs_args_to_request a (in_order names)));
  accepted ← get_logs_accepted_response id;
  _ ← io_of (map_err execution_error (compare_requested_with_accepted_workloads names accepted));
  listen_for_workload_logs id names (select_log_format_function names (args_output_names a)).

(** ** Lemmas *)

Definition messages_of (l : list Arrival) : list FromServer :=
  omap (λ a, match a with Received m => Some m | _ => None end) l.

Lemma messages_of_received (ms : list FromServer) (l : list Arrival) :
  messages_of ((Received <$> ms) ++ l) = ms ++ messages_of l.
Proof. induction ms as [|m ms IH]; simpl; [done|]. by f_equal. Qed.

(** A loop that ignores nothing: the messages are kept in order, up to the one
    that ends the loop. *)
Lemma poll_keeps {A} (handle : FromServer → Arm A) on_close on_timeout on_signal l missed r rest missed' :
  (∀ m, handle m ≠ Ignore) →
  poll handle on_close on_timeout on_signal l missed = (r, rest, missed') →
  ∃ stored taken,
    missed' = missed ++ stored ∧
    messages_of l = stored ++ taken ++ messages_of rest ∧
    Forall (λ m, handle m = Store) stored ∧
    ((taken = [] ∧ (∀ a, r = Ok a → on_signal = Some a)) ∨
     ∃ m r', taken = [m] ∧ handle m = Break r' ∧ r = map_err execution_error r').
Proof.
  intros Hig. revert missed. induction l as [|x l IH]; intros missed; simpl.
  - intros [= <- <- <-]. exists [], []. rewrite app_nil_r.
    split_and!; [done..|]. left. by destruct on_timeout.
  - destruct x as [m| | | |].
    + destruct (handle m) as [r'| |] eqn:Hm.
      * intros [= <- <- <-]. exists [], [m]. rewrite app_nil_r. eauto 10.
      * intros (stored & taken & -> & Hl & Hall & Hend)%IH. exists (m :: stored), taken.
        rewrite <-app_assoc. split_and!; [done|by simpl; rewrite Hl|by constructor|done].
      * by destruct (Hig m).
    + intros [= <- <- <-]. exists [], []. rewrite app_nil_r. naive_solver.
    + destruct on_timeout; [|by apply IH].
      intros [= <- <- <-]. exists [], []. rewrite app_nil_r. naive_solver.
    + by apply IH.
    + intros [= <- <- <-]. exists [], []. rewrite app_nil_r.
      split_and!; [done..|]. left. by destruct on_signal; naive_solver.
Qed.

(** The loop ends at the first message that answers. *)
Lemma poll_answer {A} (handle : FromServer → Arm A) on_close on_timeout on_signal before m r l missed :
  Forall (λ m, handle m = Store) before → handle m = Break r →
  poll handle on_close on_timeout on_signal ((Received <$> before) ++ Received m :: l) missed =
  (map_err execution_error r, l, missed ++ before).
Proof.
  intros Hb Hm. revert missed. induction Hb as [|x before Hx Hb IH]; intros missed; simpl.
  - by rewrite Hm, app_nil_r.
  - by rewrite Hx, IH, <-app_assoc.
Qed.

Lemma poll_ignore {A} (handle : FromServer → Arm A) on_close on_timeout on_signal before m r l missed :
  Forall (λ m, handle m = Ignore) before → handle m = Break r →
  poll handle on_close on_timeout on_signal ((Received <$> before) ++ Received m :: l) missed =
  (map_err execution_error r, l, missed).
Proof. intros Hb Hm. induction Hb as [|x before Hx Hb IH]; simpl; [by rewrite Hm|by rewrite Hx]. Qed.

(** The connection after a request and the messages read up to its answer. *)
Definition asked (m : ToServer) (rest : list Arrival) (missed : list FromServer)
    (c : ServerConnection) : ServerConnection := {|
  sent := sent c ++ [m];
  to_server_open := to_server_open c;
  arrivals := rest;
  missed_from_server_messages := missed;
  response_timeout := response_timeout c;
  next_uuid := next_uuid c;
  printed := printed c
|}.

Lemma ask_run {A} (m : ToServer) (handle : FromServer → Arm A) on_close on_signal c :
  to_server_open c = true →
  (_ ← send m; e ← timeout_error; run_poll handle on_close (Some e) on_signal : cli A) c =
  let '(r, rest, missed) :=
    poll handle on_close (Some ("Command timed out after '" +:+ response_timeout c +:+ "'"))
      on_signal (arrivals c) (missed_from_server_messages c) in
  (r, asked m rest missed c).
Proof.
  intros Hopen. cbv [mbind io_bind send]. rewrite Hopen.
  unfold run_poll, timeout_error, asked. rewrite Hopen. simpl.
  by destruct (poll _ _ _ _ _ _) as [[r rest] missed].
Qed.

Lemma ask_closed {A} (m : ToServer) (k : () → cli A) c :
  to_server_open c = false →
  (x ← send m; k x) c = (Err (execution_error "ToServerError: 'channel closed'"), c).
Proof. intros Hopen. cbv [mbind io_bind send]. by rewrite Hopen. Qed.

Lemma handle_complete_state_keeps id m : handle_complete_state id m ≠ Ignore.
Proof. unfold handle_complete_state. by destruct (content_for id m) as [[]|]. Qed.
Lemma handle_update_state_keeps id m : handle_update_state id m ≠ Ignore.
Proof. unfold handle_update_state. by destruct (content_for id m) as [[]|]. Qed.
Lemma handle_update_workload_state_keeps m : handle_update_workload_state m ≠ Ignore.
Proof. by destruct m. Qed.

(** *** Log lines *)

(** The lines for the entries of one response, if all have what the format needs. *)
Definition log_lines (with_names : bool) (entries : LogEntriesResponse) : list string :=
  (λ e, let line := log_message e +:+ newline in
        if with_names then default "" (workload_name <$> log_workload_name e) +:+ " " +:+ line
        else line) <$> entries.

Definition entries_named (entries : LogEntriesResponse) : Prop :=
  Forall (λ e, is_Some (log_workload_name e)) entries.

Definition print_lines (lines : list string) (c : ServerConnection) : ServerConnection := {|
  sent := sent c;
  to_server_open := to_server_open c;
  arrivals := arrivals c;
  missed_from_server_messages := missed_from_server_messages c;
  response_timeout := response_timeout c;
  next_uuid := next_uuid c;
  printed := printed c ++ lines
|}.

Lemma print_lines_nil c : print_lines [] c = c.
Proof. destruct c. unfold print_lines. simpl. by rewrite app_nil_r. Qed.
Lemma print_lines_app l1 l2 c : print_lines l2 (print_lines l1 c) = print_lines (l1 ++ l2) c.
Proof. unfold print_lines. simpl. by rewrite <-app_assoc. Qed.

Lemma for_each_print {A} (f : A → string) (g : A → cli ()) l c :
  Forall (λ x, g x = print_log (f x)) l → for_each g l c = (Ok (), print_lines (f <$> l) c).
Proof.
  intros Hl. revert c. induction Hl as [|x l Hx Hl IH]; intros c; simpl.
  - by rewrite print_lines_nil.
  - cbv [mbind io_bind]. rewrite Hx.
    change (print_log (f x) c) with (Ok (E:=Stop) (), print_lines [f x] c). simpl.
    by rewrite IH, print_lines_app.
Qed.

Lemma format_prints names force entries c :
  (is_output_with_workload_names names force = true → entries_named entries) →
  select_log_format_function names force entries c =
  (Ok (), print_lines (log_lines (is_output_with_workload_names names force) entries) c).
Proof.
  unfold select_log_format_function. intros Hnamed.
  destruct (is_output_with_workload_names names force); simpl.
  - unfold output_logs_with_workload_names, log_lines. apply for_each_print.
    eapply Forall_impl; [by apply Hnamed|]. by intros e [n ->].
  - unfold output_logs_without_workload_names, log_lines. apply for_each_print.
    by apply Forall_true.
Qed.

(** A stream of messages that the loop can handle: the lines printed and the
    workloads stopped. *)
Definition stream_ok (id : string) (with_names : bool) (m : FromServer) : Prop :=
  match handle_server_log_response id m with
  | Ok (Output logs) => with_names = true → entries_named logs
  | Ok _ => True
  | Err _ => False
  end.

Definition stream_lines (id : string) (with_names : bool) (ms : list FromServer) : list string :=
  ms ≫= λ m, match handle_server_log_response id m with
             | Ok (Output logs) => log_lines with_names logs
             | _ => []
             end.

Definition stopped (id : string) (ms : list FromServer) : gset WorkloadInstanceNameSpec :=
  list_to_set (ms ≫= λ m, match handle_server_log_response id m with
                          | Ok (StopForWorkload n) => [n]
                          | _ => []
                          end).

Lemma stopped_cons id m ms :
  stopped id (m :: ms) =
  (match handle_server_log_response id m with Ok (StopForWorkload n) => {[n]} | _ => ∅ end)
    ∪ stopped id ms.
Proof.
  unfold stopped. simpl. rewrite list_to_set_app_L. f_equal.
  destruct (handle_server_log_response id m) as [[]|]; simpl; set_solver.
Qed.

(** The loop over messages prints their lines and goes on with the workloads
    that were not stopped, as long as there are any. *)
Lemma listen_loop_steps id all force names ms l c :
  let output := select_log_format_function all force in
  let with_names := is_output_with_workload_names all force in
  Forall (stream_ok id with_names) ms →
  (∀ pre, pre `prefix_of` ms → pre ≠ [] → names ∖ stopped id pre ≠ ∅) →
  listen_loop id names output ((Received <$> ms) ++ l) c =
  listen_loop id (names ∖ stopped id ms) output l (print_lines (stream_lines id with_names ms) c).
Proof.
  intros output with_names Hms. revert names c.
  induction Hms as [|m ms Hm Hms IH]; intros names c Hpre.
  - simpl. rewrite print_lines_nil. f_equal. unfold stopped. set_solver.
  - cbn [fmap list_fmap app listen_loop]. rewrite stopped_cons.
    assert (∀ pre, pre `prefix_of` ms → pre ≠ [] →
      names ∖ (match handle_server_log_response id m with Ok (StopForWorkload n) => {[n]} | _ => ∅ end)
        ∖ stopped id pre ≠ ∅) as Hrest.
    { intros pre Hp _. rewrite difference_difference_l_L, <-stopped_cons.
      apply Hpre; [by apply prefix_cons|done]. }
    unfold stream_lines. cbn [mbind list_bind]. fold (stream_lines id with_names ms).
    specialize (Hpre [m] ltac:(by apply prefix_cons, prefix_nil) ltac:(done)).
    rewrite stopped_cons in Hpre.
    unfold stream_ok in Hm. destruct (handle_server_log_response id m) as [[n| |logs]|]; [| | |done].
    + rewrite decide_False by (intros Hn; apply Hpre; set_solver).
      rewrite IH by done. by rewrite difference_difference_l_L, app_nil_l.
    + rewrite IH by set_solver. by rewrite app_nil_l, (left_id_L ∅ (∪)).
    + unfold output at 1. rewrite format_prints by done. fold with_names.
      rewrite IH by set_solver. by rewrite print_lines_app, (left_id_L ∅ (∪)).
Qed.

Lemma stopped_mono id pre ms : pre `prefix_of` ms → stopped id pre ⊆ stopped id ms.
Proof.
  intros [k ->]. unfold stopped. rewrite bind_app, list_to_set_app_L. set_solver.
Qed.

Lemma compare_accepted names accepted :
  names ⊆ list_to_set accepted → compare_requested_with_accepted_workloads names accepted = Ok ().
Proof.
  intros Hsub. unfold compare_requested_with_accepted_workloads. apply try_for_each_ok.
  intros n Hn. rewrite decide_True; [done|]. unfold in_order in Hn.
  rewrite merge_sort_Permutation, elem_of_elements in Hn. set_solver.
Qed.

Lemma listen_until_stopped id all force names ms last l c :
  let output := select_log_format_function all force in
  let with_names := is_output_with_workload_names all force in
  Forall (stream_ok id with_names) (ms ++ [last]) →
  names ∖ stopped id ms ≠ ∅ → names ⊆ stopped id (ms ++ [last]) →
  listen_loop id names output ((Received <$> (ms ++ [last])) ++ l) c =
  (Ok (), with_arrivals l (missed_from_server_messages c)
            (print_lines (stream_lines id with_names (ms ++ [last])) c)).
Proof.
  intros output with_names [Hms Hlast]%Forall_app Hgo Hend.
  rewrite fmap_app, <-app_assoc. unfold output. rewrite listen_loop_steps; [| done |].
  2:{ intros pre Hp _. pose proof (stopped_mono id pre ms Hp). set_solver. }
  fold with_names. rewrite Forall_singleton in Hlast. unfold stream_ok in Hlast.
  unfold stream_lines at 2. rewrite bind_app. fold (stream_lines id with_names ms).
  unfold stopped in Hend. rewrite bind_app, list_to_set_app_L in Hend.
  fold (stopped id ms) in Hend. simpl in *.
  destruct (handle_server_log_response id last) as [[n| |logs]|]; simpl in *;
    [|set_solver..|done].
  rewrite decide_True by set_solver. by rewrite app_nil_r.
Qed.
End connection.

Arguments Arrival {_}.
Arguments ServerConnection {_}.
Abbreviation cli := (io ServerConnection Stop).

(** ** Properties *)

(** While [get_complete_state] waits, no message of the server is lost.  The
    request is sent, every message read before the answer is appended to the
    missed messages in its order, none of them answers the request, and the
    messages not read stay in the channel.  The result is the state of the first
    answer; if there is an error no message was consumed without being kept. *)
Theorem get_complete_state_spec `{StateConversion} d c r c' :
  to_server_open c = true →
  get_complete_state d c = (r, c') →
  ∃ stored taken,
    sent c' = sent c ++ [request_complete_state (details_request_id d)
      {| field_mask := details_field_masks d;
         subscribe_for_events := details_subscribe_for_events d |}] ∧
    missed_from_server_messages c' = missed_from_server_messages c ++ stored ∧
    messages_of (arrivals c) = stored ++ taken ++ messages_of (arrivals c') ∧
    Forall (λ m, ∀ s altered, content_for (details_request_id d) m ≠
                              Some (CompleteStateResponseContent s altered)) stored ∧
    match r with
    | Ok s => ∃ answer s' altered, taken = [answer] ∧ s = default complete_state_default s' ∧
        content_for (details_request_id d) answer = Some (CompleteStateResponseContent s' altered)
    | Err _ => taken = []
    end.
Proof.
  intros Hopen. unfold get_complete_state. rewrite ask_run by done.
  destruct (poll _ _ _ _ _ _) as [[r' rest] missed'] eqn:Hpoll. intros [= <- <-].
  apply poll_keeps in Hpoll as (stored & taken & -> & Hl & Hst & Hend);
    [|apply handle_complete_state_keeps].
  exists stored, taken. split_and!; [done..| |].
  - eapply Forall_impl; [exact Hst|]. intros m Hm s altered Hc.
    unfold handle_complete_state in Hm. by rewrite Hc in Hm.
  - destruct Hend as [[-> Hok]|(m & r'' & -> & Hm & ->)].
    + destruct r'; [|done]. by specialize (Hok _ eq_refl).
    + unfold handle_complete_state in Hm.
      destruct (content_for _ m) as [[]|] eqn:Hc; simplify_eq. simpl. eauto 10.
Qed.


(** ** Examples *)

Definition example_uuid : Uuid := λ n, "id" +:+ pretty n.

(** A server that streams the logs of two workloads. *)
Definition example_names : gset WorkloadInstanceNameSpec :=
  {[ instance_name_new "agent_A" "nginx" "1"; instance_name_new "agent_A" "db" "2" ]}.

Definition example_entry (n : WorkloadInstanceNameSpec) (message : string) : LogEntry :=
  {| log_workload_name := Some n; log_message := message |}.

Definition example_stop `{StateConversion} (n : WorkloadInstanceNameSpec) : FromServer :=
  logs_stop_response "id0" {| stopped_workload_name := Some n |}.

Definition example_stream : list (@FromServer example_conversion) :=
  [ @log_entries_response example_conversion "id0"
      [example_entry (instance_name_new "agent_A" "nginx" "1") "started"];
    @example_stop example_conversion (instance_name_new "agent_A" "nginx" "1");
    @log_entries_response example_conversion "id0"
      [example_entry (instance_name_new "agent_A" "db" "2") "ready"] ].

Definition example_last : @FromServer example_conversion :=
  @example_stop example_conversion (instance_name_new "agent_A" "db" "2").

Definition example_accepted : @FromServer example_conversion :=
  @respond example_conversion "id0" (LogsRequestAcceptedContent (elements example_names)).

Definition example_connection (l : list (@Arrival example_conversion)) :
    @ServerConnection example_conversion := {|
  sent := []; to_server_open := true; arrivals := l; missed_from_server_messages := [];
  response_timeout := "3s"; next_uuid := 0; printed := []
|}.

Definition example_args : LogsArgs := {|
  args_workload_name := ["nginx"; "db"]; args_follow := true; args_tail := (-1)%Z;
  args_output_names := false; args_since := None; args_until := None
|}.


Definition example_waiting : @ServerConnection example_conversion :=
  example_connection [Received (UpdateWorkloadState []);
    Received (@complete_state example_conversion "id" complete_state_spec_default None)].

Definition example_details : CompleteStateRequestDetails :=
  {| details_request_id := "id"; details_field_masks := []; details_subscribe_for_events := false |}.

Lemma get_complete_state_spec_witness :
  ∃ stored taken,
    missed_from_server_messages (get_complete_state example_details example_waiting).2 = stored ∧
    messages_of (arrivals example_waiting) =
      stored ++ taken ++
      messages_of (arrivals (get_complete_state example_details example_waiting).2).
Proof.
  destruct (get_complete_state_spec example_details example_waiting _ _ eq_refl
              (surjective_pairing _)) as (stored & taken & _ & Hs & Hm & _).
  exists stored, taken. split; [exact Hs|exact Hm].
Defined.
