(* ===== verification/ApplyManifests.v ===== *)
(** * Ankaios CLI: applying manifests

    [ank/src/cli_commands/apply_manifests.rs], the validation of a manifest in
    [ank_schema/src/lib.rs] and of its tags in
    [ankaios_api/src/ank_base/workload.rs], and the check of the tags of the
    startup manifest in [server/src/main.rs].

    Parsing YAML and JSON, the generated schema and the [serde] conversions of
    the generated [State] are parameters. *)

From Stdlib Require Import Ascii.
From stdpp Require Import base tactics gmap strings list.
From S2P Require Import Prelude Api StateManipulation Messages.

(** ** Third-party code *)

Class ManifestParsing := {
  JsonValue : Type;
  Schema : Type;
  Validator : Type;
  yaml_from_str : string → result string Value;
  json_to_value : Value → result string JsonValue;
  (** [instance.get("apiVersion").and_then(as_str)]. *)
  json_api_version : JsonValue → option string;
  state_schema : result string Schema;
  build_validator : Schema → result string Validator;
  (** The texts of the errors with their paths. *)
  validation_errors : Validator → JsonValue → list string
}.

(** The generated [State] and the [CompleteState] that has it. *)
Class StateObject `{StateConversion} := {
  State : Type;
  initial_state_to_value : string → result string Value;
  state_from_value : Value → result string State;
  complete_state_with : State → CompleteState
}.

(** A manifest is its name and what reading it gives. *)
Abbreviation InputSourcePair := (string * result string string)%type.

(** ** Tags *)

Definition validate_tags (api_version : string) (tags_value : Value) (workload_name : string) :
    result string () :=
  if String.eqb api_version CURRENT_API_VERSION then
    if is_mapping tags_value then Ok ()
    else Err ("For API version '" +:+ CURRENT_API_VERSION +:+
              "', tags must be specified as a mapping (key-value pairs). Found tags as sequence for workload '"
              +:+ workload_name +:+ "'.")
  else if String.eqb api_version PREVIOUS_API_VERSION then
    if is_sequence tags_value then Ok ()
    else Err ("For API version '" +:+ PREVIOUS_API_VERSION +:+
              "', tags must be specified as a sequence (list of key-value entries). Found tags as mapping for workload '"
              +:+ workload_name +:+ "'.")
  else Ok ().

Section manifests.
Context `{YamlMapping, IterOrder, ManifestParsing}.

(** The startup manifest of the server. *)
Definition validate_tags_format_in_manifest (data : string) : result string () :=
  yaml_value ← map_err (λ e, "Failed to parse YAML: " +:+ e) (yaml_from_str data);
  let api_version := default "" (v ← value_get yaml_value "apiVersion"; as_str v) in
  match workloads ← value_get yaml_value "workloads";
        match untag workloads with VMapping m => Some m | _ => None end with
  | Some workloads_map =>
    try_for_each (λ '(workload_name, workload),
      match value_get workload "tags" with
      | Some tags_value =>
        validate_tags api_version tags_value (default "unknown" (as_str workload_name))
      | None => Ok ()
      end) workloads_map
  | None => Ok ()
  end.

(** ** The schema *)

Definition get_schema_value : result string Schema :=
  map_err (λ e, "Failed to serialize schema: " +:+ e) state_schema.

Definition validate_manifest (instance : JsonValue) : result string () :=
  if String.eqb (default "" (json_api_version instance)) PREVIOUS_API_VERSION then Ok ()
  else
    schema_value ← get_schema_value;
    validator ← map_err (λ e, "Failed to build schema validator: " +:+ e)
                  (build_validator schema_value);
    match validation_errors validator instance with
    | [] => Ok ()
    | errors =>
      Err ("Manifest schema validation failed:" +:+ String "010" "" +:+
           join (String "010" "") errors)
    end.

(** ** One manifest *)

Definition INVALID_VERSION_VALUE : string := "Invalid manifest API version or format provided.".

Fixpoint detect_api_version (obj : Value) (obj_paths : list Path) :
    result string (option string) :=
  match obj_paths with
  | [] => Ok None
  | path :: obj_paths =>
    if decide ("apiVersion" ∈ path) then
      let manifest_api_version :=
        default INVALID_VERSION_VALUE (value ← object_get obj path; as_str value) in
      if String.eqb manifest_api_version CURRENT_API_VERSION then Ok (Some CURRENT_API_VERSION)
      else if String.eqb manifest_api_version PREVIOUS_API_VERSION then
        Ok (Some PREVIOUS_API_VERSION)
      else Err ("Invalid manifest API version provided. Expected '" +:+ CURRENT_API_VERSION +:+
                "', got: '" +:+ manifest_api_version +:+ "'.")
    else detect_api_version obj obj_paths
  end.

(** The path of the workload or configuration that a path leads into. *)
Definition workload_path (parts : Path) : option Path :=
  match parts with
  | p0 :: p1 :: _ => Some (path_from (p0 +:+ "." +:+ p1))
  | _ => None
  end.

Definition validate_path_tags (obj : Value) (api_version : option string) (path : Path) :
    result string () :=
  match path, api_version with
  | [p0; p1; p2], Some api_version =>
    if String.eqb p0 "workloads" && String.eqb p2 "tags" then
      match object_get obj path with
      | Some tags_value => validate_tags api_version tags_value p1
      | None => Ok ()
      end
    else Ok ()
  | _, _ => Ok ()
  end.

Definition parse_manifest (manifest : InputSourcePair) : result string (Value * list Path) :=
  obj ← map_err (λ e, "Invalid manifest data provided: " +:+ e)
          (content ← manifest.2; yaml_from_str content);
  manifest_json ← map_err (λ e, "Failed to convert manifest for schema validation: " +:+ e)
                    (json_to_value obj);
  _ ← validate_manifest manifest_json;
  obj_paths ← get_paths_from_yaml_node obj true;
  detected_api_version ← detect_api_version obj obj_paths;
  _ ← try_for_each (validate_path_tags obj detected_api_version) obj_paths;
  Ok (obj, set_iter (list_to_set (omap workload_path obj_paths) : gset Path)).

(** ** Several manifests *)

(** [workload_path.parts()[1]] is out of range for a shorter path: a panic,
    [None].  A failing [set] is ignored. *)
Fixpoint update_request_obj (req_obj cur_obj : Value) (paths : list Path) :
    option (result string Value) :=
  match paths with
  | [] => Some (Ok req_obj)
  | workload_path :: paths =>
    workload_name ← workload_path !! 1;
    match object_get cur_obj workload_path with
    | None =>
      Some (Err ("The provided path does not exist! This may be caused by improper naming. Names expected to have characters in '"
                 +:+ Validation.ALLOWED_CHAR_SET +:+ "'"))
    | Some cur_workload =>
      match object_get req_obj workload_path with
      | None =>
        update_request_obj
          match object_set req_obj workload_path cur_workload with
          | Ok req_obj => req_obj
          | Err _ => req_obj
          end cur_obj paths
      | Some _ =>
        Some (Err ("Multiple workloads with the same name '" +:+ workload_name +:+ "' found!"))
      end
    end
  end.

(** [Vec::dedup]: drops repeated elements that follow each other. *)
Fixpoint dedup (l : list string) : list string :=
  match l with
  | [] => []
  | x :: l =>
    match l with
    | y :: _ => if decide (x = y) then dedup l else x :: dedup l
    | [] => [x]
    end
  end.

Definition create_filter_masks_from_paths (paths : list Path) (prefix : string) : list string :=
  dedup (sort_strings ((λ path, prefix +:+ "." +:+ path_to_string path) <$> paths)).

(** The loop of [handle_agent_overwrite]. *)
Fixpoint overwrite_agents (filter_masks : list Path) (cli_specified_agent_name : option string)
    (state_obj : Value) : result string Value :=
  match filter_masks with
  | [] => Ok state_obj
  | mask_path :: filter_masks =>
    if decide (head mask_path = Some "workloads") then
      let workload_agent_mask := path_from (path_to_string mask_path +:+ ".agent") in
      match cli_specified_agent_name with
      | Some agent_name =>
        state_obj ← map_err (λ _, "Could not find workload to update.")
                      (object_set state_obj workload_agent_mask (VString agent_name));
        overwrite_agents filter_masks cli_specified_agent_name state_obj
      | None =>
        match object_get state_obj workload_agent_mask with
        | None => Err "No agent name specified -> use '--agent' option to specify!"
        | Some _ => overwrite_agents filter_masks cli_specified_agent_name state_obj
        end
      end
    else overwrite_agents filter_masks cli_specified_agent_name state_obj
  end.

(** The loop over the manifests: the request object and the paths. *)
Fixpoint merge_manifests (manifests : list InputSourcePair) (req_obj : Value)
    (req_paths : list Path) : option (result string (Value * list Path)) :=
  match manifests with
  | [] => Some (Ok (req_obj, req_paths))
  | manifest :: manifests =>
    match parse_manifest manifest with
    | Err e => Some (Err e)
    | Ok (cur_obj, cur_workload_paths) =>
      res ← update_request_obj req_obj cur_obj cur_workload_paths;
      match res with
      | Err e => Some (Err e)
      | Ok req_obj => merge_manifests manifests req_obj (req_paths ++ cur_workload_paths)
      end
    end
  end.

Record ApplyArgs := {
  manifest_files : list string;
  apply_agent_name : option string;
  delete_mode : bool
}.

Context `{StateObject}.

Definition handle_agent_overwrite (filter_masks : list Path)
    (cli_specified_agent_name : option string) (state_obj : Value) : result string State :=
  state_obj ← overwrite_agents filter_masks cli_specified_agent_name state_obj;
  map_err (λ e, "Invalid manifest data provided: " +:+ e) (state_from_value state_obj).

(** [None] is a panic. *)
Definition generate_state_obj_and_filter_masks_from_manifests
    (manifests : list InputSourcePair) (apply_args : ApplyArgs) :
    option (result string (option (CompleteState * list string))) :=
  match initial_state_to_value CURRENT_API_VERSION with
  | Err e => Some (Err ("Could not create initial empty state object from State: " +:+ e))
  | Ok req_obj =>
    merged ← merge_manifests manifests req_obj [];
    Some (
      '(req_obj, req_paths) ← merged;
      match req_paths with
      | [] => Ok None
      | _ =>
        let filter_masks := create_filter_masks_from_paths req_paths "desiredState" in
        complete_state_req_obj ←
          (if delete_mode apply_args then Ok complete_state_default
           else complete_state_with <$>
                  handle_agent_overwrite req_paths (apply_agent_name apply_args) req_obj);
        Ok (Some (complete_state_req_obj, filter_masks))
      end)
  end.
End manifests.

(** ** Lemmas *)

Lemma elem_of_dedup l s : s ∈ dedup l ↔ s ∈ l.
Proof.
  induction l as [|x l IH]; [done|]. cbn [dedup]. destruct l as [|y l]; [done|].
  rewrite elem_of_cons. case_decide as Hx; rewrite <-IH; [|by rewrite elem_of_cons].
  subst. rewrite IH, elem_of_cons. naive_solver.
Qed.

Lemma elem_of_filter_masks paths prefix s :
  s ∈ create_filter_masks_from_paths paths prefix ↔
  ∃ p, p ∈ paths ∧ s = prefix +:+ "." +:+ path_to_string p.
Proof.
  unfold create_filter_masks_from_paths.
  rewrite elem_of_dedup, elem_of_sort_strings, list_elem_of_fmap. naive_solver.
Qed.

(** A path of a workload or configuration; its parts have no separator. *)
Definition entry_path (p : Path) : Prop :=
  ∃ h n, p = [h; n] ∧ has_char PATH_SEPARATOR h = false ∧ has_char PATH_SEPARATOR n = false.

Lemma path_from_parts s : Forall (λ p, has_char PATH_SEPARATOR p = false) (path_from s).
Proof. unfold path_from. destruct (str_is_empty s); [constructor|apply split_on_parts]. Qed.

Lemma path_from_pair h n :
  has_char PATH_SEPARATOR h = false → has_char PATH_SEPARATOR n = false →
  path_from (h +:+ "." +:+ n) = [h; n].
Proof.
  intros Hh Hn. unfold path_from. change ("." +:+ n) with (String PATH_SEPARATOR n).
  destruct (str_is_empty _) eqn:He; [by apply str_is_empty_true in He; destruct h|].
  by rewrite split_on_app_sep, split_on_no_char.
Qed.

Lemma path_from_agent h n :
  has_char PATH_SEPARATOR h = false → has_char PATH_SEPARATOR n = false →
  path_from (path_to_string [h; n] +:+ ".agent") = [h; n; "agent"].
Proof.
  intros Hh Hn.
  assert (path_to_string [h; n] +:+ ".agent" = join "." [h; n; "agent"]) as ->.
  { unfold path_to_string. rewrite !join_cons by done. by rewrite <-!str_app_assoc. }
  unfold path_from. destruct (str_is_empty _) eqn:He.
  { apply str_is_empty_true in He. rewrite join_cons in He by done. by destruct h. }
  apply (split_on_join "."); [done|]. by repeat constructor.
Qed.

Lemma workload_path_entry p q :
  Forall (λ x, has_char PATH_SEPARATOR x = false) p → workload_path p = Some q → entry_path q.
Proof.
  unfold workload_path. destruct p as [|h [|n p]]; try done.
  intros [Hh [Hn _]%Forall_cons]%Forall_cons Hq.
  rewrite path_from_pair in Hq by done. injection Hq as <-. by exists h, n.
Qed.

Section manifest_lemmas.
Context `{YamlMapping, IterOrder, ManifestParsing}.

Lemma get_paths_parts node b ps p :
  get_paths_from_yaml_node node b = Ok ps → p ∈ ps →
  Forall (λ x, has_char PATH_SEPARATOR x = false) p.
Proof.
  unfold get_paths_from_yaml_node. intros (found & _ & [= <-])%bind_ok.
  intros (s & -> & _)%list_elem_of_fmap. apply path_from_parts.
Qed.

(** The paths of a parsed manifest: one for each workload and configuration. *)
Lemma parse_manifest_paths manifest obj paths :
  parse_manifest manifest = Ok (obj, paths) → Forall entry_path paths ∧ NoDup paths.
Proof.
  unfold parse_manifest.
  intros (v & _ & (j & _ & (u & _ & (ps & Hps & (ver & _ & (u' & _ & [= <- <-])%bind_ok)%bind_ok)%bind_ok)%bind_ok)%bind_ok)%bind_ok.
  split; [|apply NoDup_set_iter]. apply Forall_forall. intros p.
  rewrite elem_of_set_iter, elem_of_list_to_set, list_elem_of_omap.
  intros (q & Hq & Hp). eauto using workload_path_entry, get_paths_parts.
Qed.

(** The part [h] of the object can hold entries. *)
Definition section_ok (obj : Value) (h : string) : Prop :=
  ∃ m, obj = VMapping m ∧ ∀ x, object_get obj [h] = Some x → ∃ m', x = VMapping m'.

Lemma object_set_entry obj h n v :
  section_ok obj h →
  ∃ obj', object_set obj [h; n] v = Ok obj' ∧ object_get obj' [h; n] = Some v ∧
    (∀ h' n', [h'; n'] ≠ [h; n] → object_get obj' [h'; n'] = object_get obj [h'; n']) ∧
    (∀ h', section_ok obj h' → section_ok obj' h').
Proof.
  intros (m & -> & Hh).
  assert (is_ok (object_set (VMapping m) [h; n] v) = true) as [obj' Hobj]%is_ok_true.
  { apply object_set_correct. split; [done|]. intros q x Hq Hne Hx.
    destruct q as [|a [|b q]].
    - injection Hx as <-. by eexists.
    - apply Hh. by rewrite (prefix_cons_inv_1 _ _ _ _ Hq) in Hx.
    - destruct Hne. pose proof (prefix_cons_inv_1 _ _ _ _ Hq) as ->.
      apply prefix_cons_inv_2 in Hq. pose proof (prefix_cons_inv_1 _ _ _ _ Hq) as ->.
      apply prefix_cons_inv_2, prefix_nil_inv in Hq. by subst. }
  exists obj'. split; [done|]. apply object_set_ok in Hobj as Hset.
  destruct Hset as [Hget Hother]. split; [done|]. split.
  - intros h' n' Hne. apply Hother; intros Hp; apply Hne.
    + symmetry. by apply (prefix_length_eq [h; n] [h'; n']).
    + by apply (prefix_length_eq [h'; n'] [h; n]).
  - unfold object_set in Hobj. simpl in Hobj.
    destruct (default (VMapping []) (mapping_get m (VString h))) as [| | | | |next|] eqn:Hnext; try done.
    simpl in Hobj. injection Hobj as <-.
    intros h' (m0 & [= <-] & Hh'). eexists. split; [done|]. intros x.
    rewrite object_get_mapping, mapping_get_insert. case_decide as Heq; simpl.
    + intros [= <-]. by eexists.
    + intros Hx. apply Hh'. by rewrite object_get_mapping.
Qed.

(** The entries of a manifest are copied, none is there already. *)
Lemma update_request_obj_ok req cur paths :
  Forall entry_path paths → (∀ p h, p ∈ paths → head p = Some h → section_ok req h) →
  ∃ r, update_request_obj req cur paths = Some r ∧
  ∀ req', r = Ok req' →
    NoDup paths ∧
    (∀ p, p ∈ paths → object_get req p = None ∧ is_Some (object_get cur p) ∧
                      object_get req' p = object_get cur p) ∧
    (∀ h n, [h; n] ∉ paths → object_get req' [h; n] = object_get req [h; n]) ∧
    (∀ h, section_ok req h → section_ok req' h).
Proof.
  intros Hpaths. revert req.
  induction Hpaths as [|p paths (h & n & -> & _) Hpaths IH]; intros req Hsec.
  { eexists. split; [done|]. intros req' [= ->].
    split_and!; [constructor|by intros p ?%elem_of_nil|done|done]. }
  cbn [update_request_obj lookup list_lookup mbind option_bind].
  destruct (object_get cur [h; n]) as [w|] eqn:Hcur; [|by eexists].
  destruct (object_get req [h; n]) as [old|] eqn:Hreq; [by eexists|].
  destruct (object_set_entry req h n w) as (req1 & -> & Hget & Hother & Hkeep).
  { apply (Hsec [h; n]); [by left|done]. }
  destruct (IH req1) as (r & -> & Hr).
  { intros p h' Hp Hh'. apply Hkeep, (Hsec p); [by right|done]. }
  exists r. split; [done|]. intros req' ->.
  destruct (Hr req' eq_refl) as (Hnd & Hin & Hout & Hsec').
  assert ([h; n] ∉ paths) as Hnew.
  { intros Hp. destruct (Hin _ Hp) as [Hnone _]. congruence. }
  split_and!.
  - by constructor.
  - intros p [->|Hp]%elem_of_cons.
    + split_and!; [done|by rewrite Hcur|]. by rewrite (Hout h n Hnew), Hget.
    + destruct (Hin p Hp) as (Hnone & Hsome & Heq). split_and!; [|done..].
      rewrite Forall_forall in Hpaths. destruct (Hpaths p Hp) as (h' & n' & -> & _).
      rewrite <-Hother; [done|]. intros Heq'. by rewrite Heq' in Hp.
  - intros h' n' [Hne Hp]%not_elem_of_cons. rewrite (Hout _ _ Hp). by apply Hother.
  - eauto.
Qed.

(** Manifests that can be merged into an object with these parts. *)
Definition fits (obj : Value) (manifests : list InputSourcePair) : Prop :=
  ∀ manifest cur paths p h, manifest ∈ manifests → parse_manifest manifest = Ok (cur, paths) →
    p ∈ paths → head p = Some h → section_ok obj h.

Lemma merge_manifests_ok manifests req req_paths :
  fits req manifests → Forall entry_path req_paths →
  (∀ p, p ∈ req_paths → is_Some (object_get req p)) →
  ∃ r, merge_manifests manifests req req_paths = Some r ∧
  ∀ obj paths, r = Ok (obj, paths) →
    ∃ ops, Forall2 (λ manifest op, parse_manifest manifest = Ok op) manifests ops ∧
      paths = req_paths ++ (ops ≫= snd) ∧
      (NoDup req_paths → NoDup paths) ∧ Forall entry_path paths ∧
      (∀ p, p ∈ req_paths → object_get obj p = object_get req p) ∧
      (∀ op p, op ∈ ops → p ∈ op.2 → is_Some (object_get op.1 p) ∧
                                     object_get obj p = object_get op.1 p) ∧
      (∀ h n, [h; n] ∉ paths → object_get obj [h; n] = object_get req [h; n]) ∧
      (∀ h, section_ok req h → section_ok obj h).
Proof.
  revert req req_paths. induction manifests as [|manifest manifests IH]; intros req req_paths Hfits Hrp Hex.
  { eexists. split; [done|]. intros obj paths [= -> ->]. exists []. simpl. rewrite app_nil_r.
    split_and!; [constructor|done..| |done|done]. by intros ? ? ?%elem_of_nil. }
  cbn [merge_manifests].
  destruct (parse_manifest manifest) as [[cur cur_paths]|e] eqn:Hparse; [|by eexists].
  destruct (parse_manifest_paths _ _ _ Hparse) as [Hentry _].
  destruct (update_request_obj_ok req cur cur_paths Hentry) as (r & -> & Hr).
  { intros p h Hp Hh. apply (Hfits manifest cur cur_paths p); [by left|done..]. }
  cbn [mbind option_bind]. destruct r as [req1|e]; [|by eexists].
  destruct (Hr req1 eq_refl) as (Hnd & Hin & Hout & Hkeep).
  assert (∀ p, p ∈ req_paths → p ∉ cur_paths) as Hdisj.
  { intros p Hp Hp'. destruct (Hin p Hp') as [Hnone _]. destruct (Hex p Hp). congruence. }
  rewrite Forall_forall in Hrp.
  assert (∀ p, p ∈ req_paths → object_get req1 p = object_get req p) as Hold.
  { intros p Hp. destruct (Hrp p Hp) as (h & n & -> & _). by apply Hout, Hdisj. }
  destruct (IH req1 (req_paths ++ cur_paths)) as (r & -> & Hres).
  { intros m c ps p h Hm Hp ??. eapply Hkeep, Hfits; [by right|done..]. }
  { apply Forall_app. split; [by apply Forall_forall|done]. }
  { intros p [Hp|Hp]%elem_of_app; [by rewrite Hold; [apply Hex|]|].
    destruct (Hin p Hp) as (_ & ? & ->). done. }
  exists r. split; [done|]. intros obj paths ->.
  destruct (Hres obj paths eq_refl) as (ops & Hops & -> & Hnd' & Hall & Hreq & Hop & Hother & Hsec).
  exists ((cur, cur_paths) :: ops). cbn [mbind list_bind snd].
  split_and!; try done; [by constructor|by rewrite app_assoc| | |..].
  - intros Hrnd. apply Hnd'. apply NoDup_app. split_and!; [done|exact Hdisj|done].
  - intros p Hp. rewrite Hreq by (apply elem_of_app; by left). by apply Hold.
  - intros op p [->|Hin']%elem_of_cons Hp; [|by apply Hop]. simpl in *.
    destruct (Hin p Hp) as (_ & Hsome & Heq). split; [done|].
    rewrite Hreq; [done|]. apply elem_of_app. by right.
  - intros h n Hp. rewrite Hother by done. apply Hout. intros Hp'. apply Hp.
    rewrite !elem_of_app. naive_solver.
  - eauto.
Qed.

Definition agent_path (n : string) : Path := ["workloads"; n; "agent"].

Lemma overwrite_agents_some masks a obj obj' :
  Forall entry_path masks → overwrite_agents masks (Some a) obj = Ok obj' →
  (∀ n, ["workloads"; n] ∈ masks → object_get obj' (agent_path n) = Some (VString a)) ∧
  (∀ q, (∀ n, ["workloads"; n] ∈ masks → ¬ agent_path n `prefix_of` q ∧ ¬ q `prefix_of` agent_path n) →
        object_get obj' q = object_get obj q).
Proof.
  intros Hmasks. revert obj. induction Hmasks as [|p masks (h & n & -> & Hh & Hn) Hmasks IH];
    intros obj; cbn [overwrite_agents].
  { intros [= ->]. split; [by intros n ?%elem_of_nil|done]. }
  case_decide as Hhead; cbn [head] in Hhead; [injection Hhead as ->|].
  - rewrite path_from_agent by done. intros (obj1 & Hset%map_err_ok & Hrest)%bind_ok.
    destruct (IH obj1 Hrest) as [Hin Hout]. apply object_set_ok in Hset as [Hget Hother]. split.
    + intros n' Hn'. destruct (decide (["workloads"; n'] ∈ masks)) as [Hm|Hm]; [by apply Hin|].
      assert (n' = n) as -> by (apply elem_of_cons in Hn' as [[= ->]|?]; done).
      rewrite Hout; [done|]. intros n' Hn''.
      assert (n' ≠ n) as Hne by (by intros ->).
      split; intros Hp; apply prefix_length_eq in Hp; [by injection Hp as ->|done|by injection Hp as ->|done].
    + intros q Hq. rewrite Hout; [apply Hother; apply Hq; by left|].
      intros n' Hn'. apply Hq. by right.
  - intros Hrest. destruct (IH obj Hrest) as [Hin Hout]. split.
    + intros n' [[= <- _]|Hn']%elem_of_cons; [by destruct Hhead|by apply Hin].
    + intros q Hq. apply Hout. intros n' Hn'. apply Hq. by right.
Qed.

Lemma overwrite_agents_none masks obj obj' :
  Forall entry_path masks → overwrite_agents masks None obj = Ok obj' →
  obj' = obj ∧ ∀ n, ["workloads"; n] ∈ masks → is_Some (object_get obj (agent_path n)).
Proof.
  intros Hmasks. induction Hmasks as [|p masks (h & n & -> & Hh & Hn) Hmasks IH];
    cbn [overwrite_agents].
  { intros [= ->]. split; [done|by intros n ?%elem_of_nil]. }
  case_decide as Hhead; cbn [head] in Hhead; [injection Hhead as ->|].
  - rewrite path_from_agent by done. destruct (object_get obj _) as [w|] eqn:Hw; [|done].
    intros [-> Hin]%IH. split; [done|]. intros n' [[= ->]|?]%elem_of_cons; [|by apply Hin].
    unfold agent_path. by rewrite Hw.
  - intros [-> Hin]%IH. split; [done|]. intros n' [[= <- _]|?]%elem_of_cons; [done|by apply Hin].
Qed.
End manifest_lemmas.

(** ** Properties *)


(** Which version a manifest has depends on the order in which its paths are
    visited.  A configuration may have a key of the name [apiVersion]; then the
    same manifest is accepted in one order and rejected in another. *)
Theorem api_version_depends_on_order `{YamlMapping} obj p1 p2 v :
  "apiVersion" ∈ p1 → "apiVersion" ∈ p2 →
  (value ← object_get obj p1; as_str value) = Some CURRENT_API_VERSION →
  (value ← object_get obj p2; as_str value) = Some v →
  v ≠ CURRENT_API_VERSION → v ≠ PREVIOUS_API_VERSION →
  detect_api_version obj [p1; p2] = Ok (Some CURRENT_API_VERSION) ∧
  is_ok (detect_api_version obj [p2; p1]) = false.
Proof.
  intros H1 H2 Hv1 Hv2 Hc Hp. cbn [detect_api_version]. cbv zeta.
  rewrite (decide_True _ _ H1), (decide_True _ _ H2), Hv1, Hv2. unfold default, id; simpl.
  split; [done|].
  by rewrite (proj2 (String.eqb_neq _ _) Hc), (proj2 (String.eqb_neq _ _) Hp).
Qed.

(** ** Examples *)

(** A manifest with a configuration that has a version of its own. *)
Definition example_manifest : Value :=
  VMapping [
    (VString "apiVersion", VString "v1");
    (VString "workloads", VMapping [(VString "web", VMapping [(VString "runtime", VString "podman")])]);
    (VString "configs", VMapping [(VString "api", VMapping [(VString "apiVersion", VString "2")])])].

Lemma api_version_depends_on_order_witness :
  @detect_api_version assoc_mapping example_manifest
    [["apiVersion"]; ["configs"; "api"; "apiVersion"]] = Ok (Some "v1") ∧
  is_ok (@detect_api_version assoc_mapping example_manifest
    [["configs"; "api"; "apiVersion"]; ["apiVersion"]]) = false.
Proof.
  apply (@api_version_depends_on_order assoc_mapping example_manifest _ _ "2").
  - apply (bool_decide_eq_true_1 _). vm_compute. reflexivity.
  - apply (bool_decide_eq_true_1 _). vm_compute. reflexivity.
  - reflexivity.
  - reflexivity.
  - intros [=].
  - intros [=].
Defined.

(** Every document is the manifest of a workload that has no agent. *)
Definition example_workload (name : string) : Value :=
  VMapping [
    (VString "apiVersion", VString "v1");
    (VString "workloads", VMapping [(VString name, VMapping [(VString "runtime", VString "podman")])])].

Definition example_parsing : ManifestParsing := {|
  JsonValue := Value; Schema := unit; Validator := unit;
  yaml_from_str := λ name, Ok (example_workload name);
  json_to_value := Ok;
  json_api_version := λ _, Some "v1";
  state_schema := Ok ();
  build_validator := λ _, Ok ();
  validation_errors := λ _ _, []
|}.

Definition example_state_object : @StateObject example_conversion :=
  @Build_StateObject example_conversion Value
    (λ version, Ok (VMapping [(VString "apiVersion", VString version)])) Ok
    (λ _, complete_state_spec_default).

Definition example_apply_args : ApplyArgs :=
  {| manifest_files := ["a.yaml"; "b.yaml"]; apply_agent_name := Some "agent_A"; delete_mode := false |}.

Definition example_manifests : list InputSourcePair := [("a.yaml", Ok "web"); ("b.yaml", Ok "db")].

Lemma example_fits req_obj :
  @initial_state_to_value _ example_state_object CURRENT_API_VERSION = Ok req_obj →
  @fits assoc_mapping key_order example_parsing req_obj example_manifests.
Proof.
  intros [= <-] manifest cur paths p h Hin Hparse Hp Hh.
  assert (h = "workloads") as ->.
  { apply elem_of_cons in Hin as [Hin|Hin%list_elem_of_singleton]; subst manifest;
      vm_compute in Hparse; injection Hparse as _ <-;
      apply list_elem_of_singleton in Hp as ->; by injection Hh. }
  eexists. split; [done|]. intros x Hx. vm_compute in Hx. done.
Qed.

