(* ===== verification/Config.v ===== *)
(** * Ankaios: configuration and start-up

    [common/src/config.rs], the configurations of the three programs
    ([server_config.rs], [agent_config.rs], [ank_config.rs]) and what their
    [main] functions do before the work begins: the configuration file, the
    arguments that override it, certificates and keys, and the checks that end
    the program. The parsers of TOML, YAML and of the command line are
    parameters. *)

From Stdlib Require Import Ascii NArith.
From stdpp Require Import base tactics gmap numbers strings list.
From S2P Require Import Prelude Api StateManipulation Messages MessageSize Validation WorkloadFiles ContainerRuntime PodmanRuntime ContainerdRuntime KubeManifest PodmanKube ControlInterface AgentFiles Grpc Security GrpcClient ApplyManifests.

Definition CONFIG_VERSION : string := "v1".
Definition DEFAULT_SERVER_ADDRESS : string := "https://127.0.0.1:25551".
Definition DEFAULT_SOCKET_ADDRESS : string := "127.0.0.1:25551".

Inductive ConversionErrors :=
  | WrongVersion (msg : string)
  | ConflictingCertificates (msg : string)
  | InvalidConfig (msg : string)
  | InvalidCertificate (msg : string).

Definition conversion_errors_display (e : ConversionErrors) : string :=
  match e with
  | WrongVersion msg => "Wrong version: " +:+ msg
  | ConflictingCertificates msg => "Conflicting certificates: " +:+ msg
  | InvalidConfig msg => "Config file could not have been parsed due to: " +:+ msg
  | InvalidCertificate msg => "Certificate could not have been read due to: " +:+ msg
  end.

(** [unwrap_or_exit]: the error is what the program logs before it exits. *)
Definition unwrap_or_exit {E A} (display : E → string) (message : string) (r : result E A) :
    result string A :=
  map_err (λ err, message +:+ ": '" +:+ display err +:+ "'") r.

(** The trait of the configurations. *)
Class ConfigFile (T : Type) := {
  config_default : T;
  from_file : string → result ConversionErrors T
}.

(** The files of the host that are only read. *)
Class ConfigHost := {
  read_to_string : string → result string string;
  path_exists : string → bool
}.

Definition handle_config {T} `{ConfigFile T, ConfigHost} (config_path : option string)
    (default_paths : list string) : result string T :=
  let load path :=
    unwrap_or_exit conversion_errors_display "Config file could not be parsed" (from_file path) in
  match config_path with
  | Some config_path => load config_path
  | None =>
    match filter (λ path, path_exists path = true) default_paths with
    | path :: _ => load path
    | [] => Ok config_default
    end
  end.

(** ** Certificates

    The six fields the three configurations have in common, and the arguments
    with the paths. *)
Record Certificates := {
  cfg_ca_pem : option string;
  cfg_crt_pem : option string;
  cfg_key_pem : option string;
  ca_pem_content : option string;
  crt_pem_content : option string;
  key_pem_content : option string
}.

Definition no_certificates : Certificates := {|
  cfg_ca_pem := None; cfg_crt_pem := None; cfg_key_pem := None;
  ca_pem_content := None; crt_pem_content := None; key_pem_content := None |}.

Record PemArguments := {
  arg_ca_pem : option string;
  arg_crt_pem : option string;
  arg_key_pem : option string
}.

Section certificates.
Context `{PemFiles}.

Definition both_set (path content : option string) : bool :=
  bool_decide (is_Some path) && bool_decide (is_Some content).

(** The content that is set, or the one of the file at the path. *)
Definition content_of (file_type : PemFileType) (path content : option string) :
    result GrpcMiddlewareError (option string) :=
  match path with
  | Some path => content ← read_pem_file path file_type; Ok (Some content)
  | None => Ok content
  end.

Definition load_contents (c : Certificates) : result GrpcMiddlewareError Certificates :=
  ca ← content_of Certificate (cfg_ca_pem c) (ca_pem_content c);
  crt ← content_of Certificate (cfg_crt_pem c) (crt_pem_content c);
  key ← content_of PrivateKey (cfg_key_pem c) (key_pem_content c);
  Ok {| cfg_ca_pem := cfg_ca_pem c; cfg_crt_pem := cfg_crt_pem c; cfg_key_pem := cfg_key_pem c;
        ca_pem_content := ca; crt_pem_content := crt; key_pem_content := key |}.

(** The part of [from_file] that deals with certificates. *)
Definition certificates_from_file (c : Certificates) : result ConversionErrors Certificates :=
  if both_set (cfg_ca_pem c) (ca_pem_content c) || both_set (cfg_crt_pem c) (crt_pem_content c) ||
     both_set (cfg_key_pem c) (key_pem_content c)
  then Err (ConflictingCertificates "Certificate paths and certificate content are both set")
  else map_err (λ err, InvalidCertificate (grpc_middleware_error_display err)) (load_contents c).

Definition or_else (a b : option string) : option string := match a with Some _ => a | None => b end.

(** The part of [update_with_args] that deals with certificates: a given path
    replaces path and content. *)
Definition certificates_with_args (args : PemArguments) (c : Certificates) : result string Certificates :=
  map_err grpc_middleware_error_display
    (ca ← content_of Certificate (arg_ca_pem args) (ca_pem_content c);
     crt ← content_of Certificate (arg_crt_pem args) (crt_pem_content c);
     key ← content_of PrivateKey (arg_key_pem args) (key_pem_content c);
     Ok {| cfg_ca_pem := or_else (arg_ca_pem args) (cfg_ca_pem c);
           cfg_crt_pem := or_else (arg_crt_pem args) (cfg_crt_pem c);
           cfg_key_pem := or_else (arg_key_pem args) (cfg_key_pem c);
           ca_pem_content := ca; crt_pem_content := crt; key_pem_content := key |}).

Definition tls_of (insecure : bool) (c : Certificates) : result string (option TLSConfig) :=
  unwrap_or_exit id "Missing certificate files"
    (tls_config_new insecure (ca_pem_content c) (crt_pem_content c) (key_pem_content c)).
End certificates.

(** ** The server *)

Record ServerConfig := {
  server_version : string;
  startup_manifest : option string;
  address : string;
  server_insecure : bool;
  server_certificates : Certificates
}.

Record ServerArguments := {
  server_config_path : option string;
  manifest_path : option string;
  addr : option string;
  server_arg_insecure : option bool;
  server_pem : PemArguments
}.

Definition DEFAULT_SERVER_CONFIG_FILE_PATH : list string := ["/etc/ankaios/ank-server.conf"].

Definition server_config_default : ServerConfig := {|
  server_version := CONFIG_VERSION; startup_manifest := None; address := DEFAULT_SOCKET_ADDRESS;
  server_insecure := false; server_certificates := no_certificates |}.

(** [toml::from_str] with the derived deserializers; [serde_yaml::from_str] of the
    startup manifest. *)
Class ServerParsers := {
  server_config_from_str : string → result string ServerConfig;
  startup_state_from_str : string → result string StateSpec
}.

Section server.
Context `{ConfigHost, PemFiles, ServerParsers}.

#[export] Instance server_config_file : ConfigFile ServerConfig := {|
  config_default := server_config_default;
  from_file file_path :=
    content ← map_err InvalidConfig (read_to_string file_path);
    config ← map_err InvalidConfig (server_config_from_str content);
    if bool_decide (server_version config ≠ CONFIG_VERSION) then Err (WrongVersion (server_version config))
    else
      certificates ← certificates_from_file (server_certificates config);
      Ok {| server_version := server_version config; startup_manifest := startup_manifest config;
            address := address config; server_insecure := server_insecure config;
            server_certificates := certificates |}
|}.

Definition server_update_with_args (args : ServerArguments) (config : ServerConfig) :
    result string ServerConfig :=
  certificates ← certificates_with_args (server_pem args) (server_certificates config);
  Ok {| server_version := server_version config;
        startup_manifest := or_else (manifest_path args) (startup_manifest config);
        address := default (address config) (addr args);
        server_insecure := default (server_insecure config) (server_arg_insecure args);
        server_certificates := certificates |}.

Context `{YamlMapping, IterOrder, ManifestParsing}.

Definition startup_state_of (config : ServerConfig) : result string (option CompleteStateSpec) :=
  match startup_manifest config with
  | None => Ok None
  | Some config_path =>
    data ← unwrap_or_exit id "Could not read the startup config" (read_to_string config_path);
    _ ← unwrap_or_exit id "Invalid tags format in startup manifest"
      (validate_tags_format_in_manifest data);
    state ← unwrap_or_exit id "Parsing start config failed with error" (startup_state_from_str data);
    Ok (Some {| desired_state := state;
                complete_workload_states := complete_workload_states complete_state_spec_default;
                agents := agents complete_state_spec_default |})
  end.

(** [main] up to the start of the two tasks: the state [start] is called with, TLS
    and the address to listen on. *)
Definition server_main (args : ServerArguments) :
    result string (option CompleteStateSpec * option TLSConfig * string) :=
  config ← handle_config (server_config_path args) DEFAULT_SERVER_CONFIG_FILE_PATH;
  config ← unwrap_or_exit id "Failed to load certificate files!" (server_update_with_args args config);
  startup_state ← startup_state_of config;
  tls ← tls_of (server_insecure config) (server_certificates config);
  Ok (startup_state, tls, address config).
End server.

(** ** The agent *)

(** [validate_agent_name]; the regular expression accepts one or more of the
    allowed characters. *)
Definition EXPECTED_AGENT_NAME_FORMAT : string :=
  "It shall contain only regular upper and lowercase characters (a-z and A-Z), numbers and the symbols '-' and '_'.".

Definition validate_agent_name (agent_name : string) : result string () :=
  if str_is_empty agent_name then
    Err ("Empty agent name is not allowed. " +:+ EXPECTED_AGENT_NAME_FORMAT)
  else if str_forall allowed_char agent_name then Ok ()
  else Err ("Agent name '" +:+ agent_name +:+ "' is invalid. " +:+ EXPECTED_AGENT_NAME_FORMAT).

Definition SUPPORTED_RUNTIMES : list string :=
  [PODMAN_RUNTIME_NAME; CONTAINERD_RUNTIME_NAME; PODMAN_KUBE_RUNTIME_NAME].

(** The list is printed for debugging. *)
Definition no_valid_runtimes (debug_list : list string → string) : string :=
  "No valid runtimes configured. Supported runtimes: " +:+ debug_list SUPPORTED_RUNTIMES.

Definition validate_runtimes (debug_list : list string → string)
    (config_runtimes : option (list string)) : result string (list string) :=
  match config_runtimes with
  | Some configured_runtimes =>
    let valid_runtimes := filter (λ runtime, runtime ∈ SUPPORTED_RUNTIMES) configured_runtimes in
    match valid_runtimes with
    | [] => Err (no_valid_runtimes debug_list)
    | _ => Ok valid_runtimes
    end
  | None => Ok SUPPORTED_RUNTIMES
  end.

(** The tag argument of the command line, KEY=VALUE. *)
Definition parse_key_val (s : string) : result string (string * string) :=
  match split_once "=" s with
  | Some (key, value) => Ok (key, value)
  | None => Err ("invalid KEY=value: no `=` found in `" +:+ s +:+ "`")
  end.

Record AgentConfig := {
  agent_version : string;
  agent_config_name : string;
  server_url : string;
  run_folder : string;
  agent_insecure : bool;
  runtimes : option (list string);
  config_tags : gmap string string;
  agent_certificates : Certificates
}.

Record AgentArguments := {
  agent_config_path : option string;
  arg_agent_name : option string;
  arg_server_url : option string;
  arg_run_folder : option string;
  agent_arg_insecure : option bool;
  arg_tags : option (list (string * string));
  agent_pem : PemArguments
}.

Definition DEFAULT_AGENT_CONFIG_FILE_PATH : list string := ["/etc/ankaios/ank-agent.conf"].

(** The parser of the configuration, the default run folder below the folder for
    temporary files, and paths as the lists of their names. *)
Class AgentEnvironment := {
  agent_config_from_str : string → result string AgentConfig;
  default_run_folder_string : string;
  path_of : string → path;
  debug_list : list string → string
}.

Section agent.
Context `{ConfigHost, PemFiles, AgentEnvironment}.

Definition agent_config_default : AgentConfig := {|
  agent_version := CONFIG_VERSION; agent_config_name := ""; server_url := DEFAULT_SERVER_ADDRESS;
  run_folder := default_run_folder_string; agent_insecure := false; runtimes := None;
  config_tags := ∅; agent_certificates := no_certificates |}.

#[export] Instance agent_config_file : ConfigFile AgentConfig := {|
  config_default := agent_config_default;
  from_file file_path :=
    content ← map_err InvalidConfig (read_to_string file_path);
    config ← map_err InvalidConfig (agent_config_from_str content);
    if bool_decide (agent_version config ≠ CONFIG_VERSION) then Err (WrongVersion (agent_version config))
    else
      certificates ← certificates_from_file (agent_certificates config);
      Ok {| agent_version := agent_version config; agent_config_name := agent_config_name config;
            server_url := server_url config; run_folder := run_folder config;
            agent_insecure := agent_insecure config; runtimes := runtimes config;
            config_tags := config_tags config; agent_certificates := certificates |}
|}.

(** Of two tags with the same key the last one counts. *)
Definition tags_of_arguments (tags : list (string * string)) : gmap string string :=
  foldl (λ m kv, <[kv.1 := kv.2]> m) ∅ tags.

Definition agent_update_with_args (args : AgentArguments) (config : AgentConfig) :
    result string AgentConfig :=
  certificates ← certificates_with_args (agent_pem args) (agent_certificates config);
  Ok {| agent_version := agent_version config;
        agent_config_name := default (agent_config_name config) (arg_agent_name args);
        server_url := default (server_url config) (arg_server_url args);
        run_folder := default (run_folder config) (arg_run_folder args);
        agent_insecure := default (agent_insecure config) (agent_arg_insecure args);
        runtimes := runtimes config;
        config_tags := match arg_tags args with
                       | Some tags => tags_of_arguments tags
                       | None => config_tags config
                       end;
        agent_certificates := certificates |}.

Definition agent_config_of (args : AgentArguments) : result string AgentConfig :=
  config ← handle_config (agent_config_path args) DEFAULT_AGENT_CONFIG_FILE_PATH;
  config ← unwrap_or_exit id "Failed to load certificate files!" (agent_update_with_args args config);
  _ ← unwrap_or_exit id "Error encountered while checking agent name!"
    (validate_agent_name (agent_config_name config));
  Ok config.

(** The runtimes that are registered: the valid ones, by their name. *)
Definition registered_runtimes (config : AgentConfig) : result string (gset string) :=
  valid ← unwrap_or_exit id "Invalid runtime configuration" (validate_runtimes debug_list (runtimes config));
  Ok (list_to_set valid).

Definition agent_client (config : AgentConfig) : result string GRPCCommunicationsClient :=
  tls ← tls_of (agent_insecure config) (agent_certificates config);
  unwrap_or_exit id "Failed to create communications client."
    (new_agent_communication (agent_config_name config) (server_url config) (config_tags config) tls).

(** [main] up to the start of the two tasks: the run directory, the runtimes and the
    client. When the program exits, the run directory stays. *)
Definition agent_main {W} `{HostFs W} (args : AgentArguments) :
    io W string (Directory * gset string * GRPCCommunicationsClient) :=
  config ← io_of (agent_config_of args);
  run_directory ← io_map_err
    (λ e, "Run folder creation failed. Cannot continue without run folder.: '" +:+
          Fs.file_system_error_display e +:+ "'")
    (prepare_agent_run_directory (path_of default_run_folder_string) (path_of (run_folder config))
       (agent_config_name config));
  runtimes ← io_of (registered_runtimes config);
  client ← io_of (agent_client config);
  mret (run_directory, runtimes, client).
End agent.

(** ** The command line *)

Record AnkConfig := {
  ank_config_version : string;
  response_timeout : N;
  verbose : bool;
  quiet : bool;
  no_wait : bool;
  ank_server_url : string;
  ank_insecure : bool;
  ank_certificates : Certificates
}.

Record AnkArguments := {
  ank_config_path : option string;
  ank_arg_server_url : option string;
  response_timeout_ms : option N;
  arg_verbose : option bool;
  arg_quiet : option bool;
  arg_no_wait : option bool;
  ank_arg_insecure : option bool;
  ank_pem : PemArguments
}.

Definition DEFAULT_CONFIG : string := "default".
Definition DEFAULT_RESPONSE_TIMEOUT : N := 3000.

(** TOML: the entries of a document in order, the entries of a value that is a
    table, and the derived deserializer of the helper. *)
Class AnkParsers := {
  TomlValue : Type;
  toml_entries : string → result string (list (string * TomlValue));
  toml_table : TomlValue → option (list (string * TomlValue));
  helper_deserialize : gmap string TomlValue → result string AnkConfig;
  home_dir : result string string
}.

Section ank.
Context `{ConfigHost, PemFiles, AnkParsers}.

Definition ank_config_default : AnkConfig := {|
  ank_config_version := CONFIG_VERSION; response_timeout := DEFAULT_RESPONSE_TIMEOUT;
  verbose := false; quiet := false; no_wait := false; ank_server_url := DEFAULT_SERVER_ADDRESS;
  ank_insecure := false; ank_certificates := no_certificates |}.

Definition extend (merged : gmap string TomlValue) (inner : list (string * TomlValue)) :
    gmap string TomlValue := foldl (λ m kv, <[kv.1 := kv.2]> m) merged inner.

(** [visit_map]: the entries of the default table become entries of the document. *)
Fixpoint visit_map (entries : list (string * TomlValue)) (merged : gmap string TomlValue) :
    result string (gmap string TomlValue) :=
  match entries with
  | [] => Ok merged
  | (key, value) :: entries =>
    if String.eqb key DEFAULT_CONFIG then
      match toml_table value with
      | Some inner => visit_map entries (extend merged inner)
      | None => Err ("Expected '" +:+ DEFAULT_CONFIG +:+ "' to be a table")
      end
    else visit_map entries (<[key := value]> merged)
  end.

Definition ank_config_from_str (content : string) : result string AnkConfig :=
  entries ← toml_entries content;
  merged ← visit_map entries ∅;
  helper_deserialize merged.

#[export] Instance ank_config_file : ConfigFile AnkConfig := {|
  config_default := ank_config_default;
  from_file file_path :=
    content ← map_err InvalidConfig (read_to_string file_path);
    config ← map_err InvalidConfig (ank_config_from_str content);
    if bool_decide (ank_config_version config ≠ CONFIG_VERSION)
    then Err (WrongVersion (ank_config_version config))
    else
      certificates ← certificates_from_file (ank_certificates config);
      Ok {| ank_config_version := ank_config_version config;
            response_timeout := response_timeout config; verbose := verbose config;
            quiet := quiet config; no_wait := no_wait config;
            ank_server_url := ank_server_url config; ank_insecure := ank_insecure config;
            ank_certificates := certificates |}
|}.

Definition ank_update_with_args (args : AnkArguments) (config : AnkConfig) : result string AnkConfig :=
  certificates ← certificates_with_args (ank_pem args) (ank_certificates config);
  Ok {| ank_config_version := ank_config_version config;
        response_timeout := default (response_timeout config) (response_timeout_ms args);
        verbose := default (verbose config) (arg_verbose args);
        quiet := default (quiet config) (arg_quiet args);
        no_wait := default (no_wait config) (arg_no_wait args);
        ank_server_url := default (ank_server_url config) (ank_arg_server_url args);
        ank_insecure := default (ank_insecure config) (ank_arg_insecure args);
        ank_certificates := certificates |}.

Definition ank_default_config_paths : result string (list string) :=
  home_dir ← unwrap_or_exit id "HOME environment variable not set" home_dir;
  Ok [home_dir +:+ "/.config/ankaios/ank.conf"; "/etc/ankaios/ank.conf"].

(** [main] up to the command: the configuration and the client of the connection. *)
Definition ank_main (args : AnkArguments) : result string (AnkConfig * GRPCCommunicationsClient) :=
  default_paths ← ank_default_config_paths;
  config ← handle_config (ank_config_path args) default_paths;
  config ← ank_update_with_args args config;
  tls ← map_err (λ err, "Missing certificate files: " +:+ err)
    (tls_config_new (ank_insecure config) (ca_pem_content (ank_certificates config))
       (crt_pem_content (ank_certificates config)) (key_pem_content (ank_certificates config)));
  client ← map_err (λ err, "Cannot connect to server: '" +:+ err +:+ "'")
    (new_cli_communication "ank-cli" (ank_server_url config) tls);
  Ok (config, client).
End ank.

(** ** Lemmas *)

Lemma unwrap_or_exit_ok {E A} (display : E → string) message (r : result E A) a :
  unwrap_or_exit display message r = Ok a ↔ r = Ok a.
Proof. apply map_err_ok. Qed.

(** The configuration is the one of the given path, of the first default path that
    exists, or the default. *)
Lemma handle_config_ok {T} `{ConfigFile T, ConfigHost} config_path default_paths (config : T) :
  handle_config config_path default_paths = Ok config →
  (∃ path, from_file path = Ok config ∧
    (config_path = Some path ∨ (config_path = None ∧ path ∈ default_paths ∧ path_exists path = true))) ∨
  (config_path = None ∧ config = config_default ∧ ∀ path, path ∈ default_paths → path_exists path = false).
Proof.
  unfold handle_config. destruct config_path as [path|].
  { intros Hc%unwrap_or_exit_ok. left. eauto. }
  destruct (filter _ default_paths) as [|path paths] eqn:Hf.
  - intros [= <-]. right. split_and!; [done..|]. intros path Hin.
    apply not_true_is_false. intros He. apply (not_elem_of_nil path). rewrite <-Hf.
    by apply list_elem_of_filter.
  - intros Hc%unwrap_or_exit_ok. left. exists path. split; [done|]. right. split; [done|].
    assert (path ∈ filter (λ path, path_exists path = true) default_paths) as Hin by (rewrite Hf; by left).
    by apply list_elem_of_filter in Hin as [? ?].
Qed.

Section certificate_lemmas.
Context `{PemFiles}.

(** A key from a file that only its owner may access. *)
Definition protected (key : string) : Prop :=
  ∃ path file p, file_open path = Ok file ∧ permissions file = Ok p ∧ contents file = Ok key ∧
    N.land p 63 = 0%N.

Lemma content_of_key path content key :
  content_of PrivateKey path content = Ok (Some key) → content = Some key ∨ protected key.
Proof.
  unfold content_of. destruct path as [path|]; [|intros [= ->]; by left].
  intros (s & (file & p & ? & ? & ? & ?)%private_key_protected & [= ->])%bind_ok.
  right. by exists path, file, p.
Qed.

Lemma certificates_from_file_key c c' key :
  certificates_from_file c = Ok c' → key_pem_content c' = Some key →
  key_pem_content c = Some key ∨ protected key.
Proof.
  unfold certificates_from_file, load_contents. destruct (_ || _); [done|].
  intros (ca & _ & (crt & _ & (key' & Hkey & [= <-])%bind_ok)%bind_ok)%map_err_ok%bind_ok.
  simpl. intros ->. by eapply content_of_key.
Qed.

Lemma certificates_with_args_key args c c' key :
  certificates_with_args args c = Ok c' → key_pem_content c' = Some key →
  key_pem_content c = Some key ∨ protected key.
Proof.
  unfold certificates_with_args.
  intros (ca & _ & (crt & _ & (key' & Hkey & [= <-])%bind_ok)%bind_ok)%map_err_ok%bind_ok.
  simpl. intros ->. by eapply content_of_key.
Qed.

Lemma tls_of_ok insecure c tls :
  tls_of insecure c = Ok tls →
  (tls = None → insecure = true ∧ key_pem_content c = None) ∧
  (∀ t, tls = Some t → key_pem_content c = Some (key_pem t)).
Proof.
  intros Hs%unwrap_or_exit_ok%tls_config_new_spec. destruct tls; naive_solver.
Qed.
End certificate_lemmas.

Lemma validate_agent_name_ok name :
  validate_agent_name name = Ok () ↔ name ≠ "" ∧ str_forall allowed_char name = true.
Proof.
  unfold validate_agent_name, str_is_empty. destruct (String.eqb_spec name "") as [->|];
    [naive_solver|]. destruct (str_forall allowed_char name); naive_solver.
Qed.

Lemma validate_runtimes_ok debug config_runtimes valid :
  validate_runtimes debug config_runtimes = Ok valid →
  valid ≠ [] ∧ (∀ r, r ∈ valid ↔ r ∈ SUPPORTED_RUNTIMES ∧
    match config_runtimes with Some rs => r ∈ rs | None => True end).
Proof.
  unfold validate_runtimes. destruct config_runtimes as [rs|].
  - destruct (filter _ rs) as [|r0 rs0] eqn:Hf; [done|]. intros [= <-]. split; [done|].
    intros r. by rewrite <-Hf, list_elem_of_filter.
  - intros [= <-]. split; [done|]. intros r. naive_solver.
Qed.

Section agent_lemmas.
Context `{ConfigHost, PemFiles, AgentEnvironment}.

(** The key may also stand in the configuration file itself. *)
Definition inline_key (key : string) : Prop :=
  ∃ path content config, read_to_string path = Ok content ∧
    agent_config_from_str content = Ok config ∧
    key_pem_content (agent_certificates config) = Some key.

Lemma agent_from_file_key path config key :
  from_file (T := AgentConfig) path = Ok config →
  key_pem_content (agent_certificates config) = Some key → inline_key key ∨ protected key.
Proof.
  cbn [from_file agent_config_file].
  intros (content & Hread%map_err_ok & (cfg & Hparse%map_err_ok & Hc)%bind_ok)%bind_ok.
  destruct (bool_decide _); [done|]. apply bind_ok in Hc as (certs & Hcerts & [= <-]). simpl. intros Hkey.
  destruct (certificates_from_file_key _ _ _ Hcerts Hkey) as [Hin|]; [left|by right].
  by exists path, content, cfg.
Qed.

Lemma agent_config_of_ok args config :
  agent_config_of args = Ok config →
  agent_config_name config ≠ "" ∧ str_forall allowed_char (agent_config_name config) = true ∧
  ∀ key, key_pem_content (agent_certificates config) = Some key → inline_key key ∨ protected key.
Proof.
  unfold agent_config_of. intros (cfg & Hcfg & Hr)%bind_ok.
  apply bind_ok in Hr as (cfg' & Hargs%unwrap_or_exit_ok & Hr).
  apply bind_ok in Hr as ([] & [Hne Hall]%unwrap_or_exit_ok%validate_agent_name_ok & [= <-]).
  split_and!; [done..|]. intros key Hkey.
  apply bind_ok in Hargs as (certs & Hcerts & [= <-]). simpl in Hkey.
  destruct (certificates_with_args_key _ _ _ _ Hcerts Hkey) as [Hin|]; [|by right].
  apply handle_config_ok in Hcfg as [(path & Hfile & _)|(_ & -> & _)]; [|done].
  by eapply agent_from_file_key.
Qed.

Lemma agent_client_ok config client :
  agent_client config = Ok client →
  client_name client = agent_config_name config ∧ connection_type client = AgentConnection ∧
  client_tags client = config_tags config ∧
  (tls_config client = None →
    agent_insecure config = true ∧ starts_with "http:" (server_address client) = true) ∧
  (∀ t, tls_config client = Some t → key_pem_content (agent_certificates config) = Some (key_pem t)).
Proof.
  unfold agent_client. intros (tls & [Hnone Hsome]%tls_of_ok & Hc%unwrap_or_exit_ok)%bind_ok.
  apply bind_ok in Hc as ([] & Haddr%verified_address & [= <-]). simpl. split_and!; [done..| |done].
  intros ->. split; [by apply Hnone|]. by apply insecure_url_is_http.
Qed.
End agent_lemmas.

(** C20: An agent only starts with a name of allowed characters, an existing run
    directory of its own and at least one supported runtime; its communication
    is only without TLS if this was configured, and then over plain HTTP, and a
    private key comes from the configuration itself or from a file nobody else
    has access to. *)
Theorem agent_main_spec `{ConfigHost, PemFiles, AgentEnvironment} {W} {F : HostFs W} args dir rts client w w' :
  agent_main args w = (Ok (dir, rts, client), w') →
  (client_name client ≠ "" ∧ str_forall allowed_char (client_name client) = true) ∧
  (∃ base, dir = base ++ [client_name client +:+ RUNFOLDER_SUFFIX] ∧ node_at w' dir ≠ None) ∧
  (rts ≠ ∅ ∧ ∀ r, r ∈ rts → r ∈ SUPPORTED_RUNTIMES) ∧
  (tls_config client = None →
    starts_with "http:" (server_address client) = true ∧
    ∃ config, agent_config_of args = Ok config ∧ agent_insecure config = true) ∧
  (∀ t, tls_config client = Some t → inline_key (key_pem t) ∨ protected (key_pem t)).
Proof.
  unfold agent_main. intros (config & w1 & [= Hconfig ->] & Hr)%io_bind_ok.
  apply io_bind_ok in Hr as (dir' & w2 & Hdir & Hr).
  apply io_bind_ok in Hr as (rts' & w3 & [= Hrts ->] & Hr).
  apply io_bind_ok in Hr as (client' & w4 & [= Hclient ->] & [= -> -> -> ->]).
  destruct (agent_config_of_ok _ _ Hconfig) as (Hne & Hall & Hkey).
  destruct (agent_client_ok _ _ Hclient) as (Hname & _ & _ & Hnone & Hsome).
  rewrite Hname. split_and!; [done..| | | | |].
  - exists (path_of (run_folder config)). unfold io_map_err in Hdir.
    destruct (prepare_agent_run_directory _ _ _ w1) as [r w5] eqn:Hp. simpl in Hdir.
    injection Hdir as Hr ->. apply map_err_ok in Hr.
    by apply (prepare_agent_run_directory_spec _ _ _ _ _ _ Hp).
  - apply bind_ok in Hrts as (valid & [Hv _]%unwrap_or_exit_ok%validate_runtimes_ok & [= <-]).
    intros Hempty. apply Hv. destruct valid as [|r valid]; [done|]. set_solver.
  - apply bind_ok in Hrts as (valid & [_ Hv]%unwrap_or_exit_ok%validate_runtimes_ok & [= <-]).
    intros r Hr%elem_of_list_to_set. by apply Hv in Hr as [? _].
  - intros Ht%Hnone. destruct Ht. eauto.
  - intros t Ht%Hsome. by apply Hkey.
Qed.

(** The same for the server: without a flag it never listens without TLS. *)
Lemma server_main_tls `{ConfigHost, PemFiles, ServerParsers, YamlMapping, IterOrder, ManifestParsing}
    args startup_state tls a :
  server_main args = Ok (startup_state, tls, a) →
  ∃ config, (config' ← handle_config (server_config_path args) DEFAULT_SERVER_CONFIG_FILE_PATH;
             server_update_with_args args config') = Ok config ∧ a = address config ∧
    (tls = None → server_insecure config = true) ∧
    (∀ t, tls = Some t → key_pem_content (server_certificates config) = Some (key_pem t)).
Proof.
  unfold server_main. intros (cfg & Hcfg & Hr)%bind_ok.
  apply bind_ok in Hr as (config & Hargs%unwrap_or_exit_ok & Hr).
  apply bind_ok in Hr as (st & _ & (tls' & [Hnone Hsome]%tls_of_ok & [= <- <- <-])%bind_ok).
  exists config. rewrite Hcfg. split_and!; [done..| |done]. intros Ht. by apply Hnone.
Qed.

(** Of all bindings of a key, at the top level and in the default table, the one
    that comes last counts. *)
Lemma visit_map_ok `{AnkParsers} entries merged merged' :
  visit_map entries merged = Ok merged' →
  merged' = extend merged (entries ≫= λ '(key, value),
    if String.eqb key DEFAULT_CONFIG then default [] (toml_table value) else [(key, value)]).
Proof.
  revert merged. induction entries as [|[key value] entries IH]; intros merged; simpl; [naive_solver|].
  unfold extend in *. rewrite foldl_app. destruct (String.eqb key DEFAULT_CONFIG).
  - destruct (toml_table value); [|done]. apply IH.
  - apply IH.
Qed.

(** ** Witness *)

Definition example_config_host : ConfigHost := {|
  read_to_string path := if String.eqb path "/etc/ankaios/ank-agent.conf" then Ok "tls" else Err "no file";
  path_exists path := String.eqb path "/etc/ankaios/ank-agent.conf"
|}.

(** Every file has the permissions 0600 and holds its own path. *)
Definition example_pem_files : PemFiles := {|
  file_open path := Ok {| permissions := Ok 33152%N; contents := Ok path |};
  debug_file_path := in_quotes
|}.

Definition example_agent_environment : AgentEnvironment := {|
  agent_config_from_str _ := Ok {|
    agent_version := "v1"; agent_config_name := "agent_A"; server_url := "https://server:25551";
    run_folder := "run"; agent_insecure := false; runtimes := Some ["podman"; "docker"];
    config_tags := ∅;
    agent_certificates := {|
      cfg_ca_pem := Some "ca.pem"; cfg_crt_pem := Some "crt.pem"; cfg_key_pem := None;
      ca_pem_content := None; crt_pem_content := None; key_pem_content := None |} |};
  default_run_folder_string := "tmp";
  path_of s := [s];
  debug_list := String.concat ", "
|}.

Lemma agent_main_spec_witness :
  let H := example_config_host in let P := example_pem_files in let E := example_agent_environment in
  let F := nodes_fs in
  let args := {| agent_config_path := None; arg_agent_name := None; arg_server_url := None;
                 arg_run_folder := None; agent_arg_insecure := None; arg_tags := None;
                 agent_pem := {| arg_ca_pem := None; arg_crt_pem := None; arg_key_pem := Some "key.pem" |} |} in
  let w : Nodes := λ p, if bool_decide (p = ["run"]) then Some DirectoryNode else None in
  let client := {| client_name := "agent_A"; server_address := "https://server:25551";
                   connection_type := AgentConnection; client_tags := ∅;
                   tls_config := Some {| ca_pem := "ca.pem"; crt_pem := "crt.pem"; key_pem := "key.pem" |} |} in
  (agent_main args w).1 = Ok (["run"; "agent_A_io"], {["podman"]}, client) ∧
  (inline_key "key.pem" ∨ protected "key.pem").
Proof.
  intros H P E F args w client.
  assert ((agent_main args w).1 = Ok (["run"; "agent_A_io"], {["podman"]}, client)) as Hr
    by (vm_compute; reflexivity).
  split; [exact Hr|].
  assert (agent_main args w = (Ok (["run"; "agent_A_io"], {["podman"]}, client), (agent_main args w).2)) as Hm
    by (rewrite <-Hr; apply surjective_pairing).
  destruct (agent_main_spec args ["run"; "agent_A_io"] {["podman"]} client w _ Hm) as (_ & _ & _ & _ & Hkey).
  exact (Hkey _ eq_refl).
Defined.
