(* ===== verification/CliCommands.v ===== *)
(** * Ankaios CLI: the commands

    [ank/src/cli_commands.rs] and the files of the single commands in
    [ank/src/cli_commands/].  A command acts on the connection to the server;
    it stops with an error, a panic or because it waits for ever.

    The fields of the generated message types, the renderings with [serde] and
    the files are parameters, as are the tables of the crate [tabled]. *)

From Stdlib Require Import Ascii ZArith.
From stdpp Require Import base tactics gmap strings list sorting pretty.
From S2P Require Import Prelude Utf8 Api StateManipulation Messages ApplyManifests.
From S2P Require Import WaitList CliTable ServerConnection.

(** ** The fields of the messages *)

(** [proto_state_enum] is the state of the message converted with [TryInto]; the
    inner option is the result of the conversion. *)
Record ProtoExecutionState := {
  proto_additional_info : option string;
  proto_state_enum : option (option ExecutionStateEnumSpec)
}.

Record ProtoWorkload := {
  proto_agent : option string;
  proto_runtime : option string;
  proto_tags : option (gmap string string);
  proto_runtime_config : option string
}.

Record ProtoAgent := {
  proto_cpu_usage : option N;
  proto_free_memory : option N;
  proto_has_status : bool;
  proto_has_tags : bool
}.

Abbreviation ProtoStatesMap := (gmap string (gmap string (gmap string ProtoExecutionState))).

(** [workloads_field] is the field of the workloads of the desired state. *)
Class CompleteStateFields `{StateConversion} := {
  has_desired_state : CompleteState → bool;
  workloads_field : CompleteState → option (gmap string ProtoWorkload);
  configs_field : CompleteState → option (gset string);
  workload_states_field : CompleteState → option ProtoStatesMap;
  agents_field : CompleteState → option (gmap string ProtoAgent);
  complete_state_of_workload : string → ProtoWorkload → CompleteState
}.

Record WorkloadState := {
  ws_instance_name : option WorkloadInstanceNameSpec;
  ws_execution_state : option ProtoExecutionState
}.

Abbreviation WorkloadInfos := (list (WorkloadInstanceNameSpec * WorkloadTableRow)).

Section states.
Context `{IterOrder}.

(** [Vec::<WorkloadState>::from]. *)
Definition workload_states_of_map (m : ProtoStatesMap) : list WorkloadState :=
  '(agent_name, name_state_map) ← map_iter m;
  '(wl_name, id_state_map) ← map_iter name_state_map;
  (λ '(wl_id, exec_state),
     {| ws_instance_name := Some (instance_name_new agent_name wl_name wl_id);
        ws_execution_state := Some exec_state |}) <$> map_iter id_state_map.

(** ** Workload infos *)

Definition workload_info (s : WorkloadState) :
    result string (WorkloadInstanceNameSpec * WorkloadTableRow) :=
  match ws_instance_name s with
  | None => Err "Missing instance_name in workload state"
  | Some instance_name =>
    match ws_execution_state s with
    | None => Err "Missing execution_state in workload state"
    | Some exec_state =>
      let exec_state_str :=
        match proto_state_enum exec_state with
        | Some (Some state) => execution_state_enum_to_string state
        | _ => ""
        end in
      Ok (instance_name,
          table_row_new (workload_name instance_name) (agent_name instance_name) ""
            exec_state_str (default "" (proto_additional_info exec_state)))
    end
  end.

Definition workload_infos_try_from (m : ProtoStatesMap) : result string WorkloadInfos :=
  try_collect workload_info (workload_states_of_map m).

Definition runtime_of (row : WorkloadTableRow) (workloads : gmap string ProtoWorkload) :
    option string :=
  '(_, (_, found_wl)) ← list_find (λ p,
      p.1 = row_name row ∧ proto_agent p.2 = Some (row_agent row) ∧ is_Some (proto_runtime p.2))
    (map_iter workloads);
  proto_runtime found_wl.

Definition add_runtime_name_to_workload_infos (infos : WorkloadInfos)
    (workloads : gmap string ProtoWorkload) : WorkloadInfos :=
  (λ '(n, row), (n, match runtime_of row workloads with
                    | Some runtime => set_runtime runtime row
                    | None => row
                    end)) <$> infos.

(** ** Filters *)

Definition check_workload_filters (agent state : option string) (workload_names : list string)
    (row : WorkloadTableRow) : bool :=
  match agent with Some a => bool_decide (row_agent row = a) | None => true end &&
  match state with
  | Some s => bool_decide (to_lowercase (row_execution_state row) = to_lowercase s)
  | None => true
  end &&
  (bool_decide (workload_names = []) || bool_decide (row_name row ∈ workload_names)).
End states.

(** ** Commands *)

Section commands.
Context `{IterOrder, Conv : StateConversion, !CompleteStateFields, Uuid}.

Definition default_details : cli CompleteStateRequestDetails := request_details_new [] false.

(** [unwrap] of the infos panics if a state has no name or no execution state. *)
Definition transform_into_workload_infos (s : CompleteState) : cli WorkloadInfos :=
  match workload_infos_try_from (default ∅ (workload_states_field s)) with
  | Ok infos =>
    mret (add_runtime_name_to_workload_infos infos (default ∅ (workloads_field s)))
  | Err _ => stop Panicked
  end.

Definition get_workloads : cli WorkloadInfos :=
  details ← default_details;
  s ← get_complete_state details;
  transform_into_workload_infos s.

(** *** Waiting for the workloads of an update *)

Definition update_states_of (messages : list FromServer) : list WorkloadStateSpec :=
  messages ≫= λ m, match m with UpdateWorkloadState states => states | _ => [] end.

(** The [while] loop over the [select!] of the next update and the spinner. *)
Fixpoint wait_loop (l : list Arrival) (missed : list FromServer) (w : WaitList WaitListDisplay) :
    result Stop () * list Arrival * list FromServer :=
  if wait_list_is_empty w then (Ok (), l, missed)
  else
    match l with
    | [] => (Err Waiting, [], missed)
    | Received m :: l =>
      match handle_update_workload_state m with
      | Break (Ok states) => wait_loop l missed (update states w)
      | Break (Err e) => (Err (execution_error e), l, missed)
      | Store => wait_loop l (missed ++ [m]) w
      | Ignore => wait_loop l missed w
      end
    | Closed :: l =>
      (Err (execution_error "Connection to server interrupted"), Closed :: l, missed)
    | Tick :: l => wait_loop l missed (step_spinner w)
    | TimedOut :: l => wait_loop l missed w
    | Signal :: l => (Err KilledBySignal, l, missed)
    end.

Definition run_wait_loop (w : WaitList WaitListDisplay) : cli () := λ c,
  let '(r, rest, missed) := wait_loop (arrivals c) (missed_from_server_messages c) w in
  (r, with_arrivals rest missed c).

(** The rows of the changed workloads, those known before and those known now. *)
Definition changed_infos (previous : gmap WorkloadInstanceNameSpec WorkloadTableRow)
    (infos : WorkloadInfos) (changed : gset WorkloadInstanceNameSpec) :
    gmap WorkloadInstanceNameSpec WorkloadTableRow :=
  filter (λ p, p.1 ∈ changed) (foldl (λ m p, <[p.1:=p.2]> m) previous infos).

Definition changed_workloads (success : ParsedUpdateStateSuccess) :
    gset WorkloadInstanceNameSpec :=
  list_to_set (parsed_added success) ∪ list_to_set (parsed_deleted success).

Definition wait_list_for (success : ParsedUpdateStateSuccess) (connected : gset string)
    (data : gmap WorkloadInstanceNameSpec WorkloadTableRow) : WaitList WaitListDisplay :=
  wait_list_new success connected
    {| data := data; not_completed := changed_workloads success; spinner := 0 |}.

Definition wait_for_complete (success : ParsedUpdateStateSuccess)
    (previous : gmap WorkloadInstanceNameSpec WorkloadTableRow) : cli () :=
  let changed := changed_workloads success in
  if decide (changed = ∅) then mret ()
  else
    details ← default_details;
    new_complete_state ← get_complete_state details;
    let connected := dom (default ∅ (agents_field new_complete_state)) in
    infos ← transform_into_workload_infos new_complete_state;
    missed ← take_missed_from_server_messages;
    run_wait_loop (update (update_states_of missed)
                     (wait_list_for success connected (changed_infos previous infos changed))).

Definition update_state_and_wait_for_complete (no_wait : bool) (new_state : CompleteState)
    (update_mask : list string) : cli () :=
  infos ← get_workloads;
  let current := foldl (λ m p, <[p.1:=p.2]> m) ∅ infos in
  answer ← update_state new_state update_mask;
  match parse_update_state_success answer.1 answer.2 with
  | Err e => stop (execution_error ("Could not parse UpdateStateSuccess message: " +:+ e))
  | Ok success => if no_wait then mret () else wait_for_complete success current
  end.

(** *** Changing the state *)

Definition DESIRED_STATE_CONFIGS : string := "desiredState.configs".
Definition DESIRED_STATE_WORKLOADS : string := "desiredState.workloads".

Definition delete_workloads (no_wait : bool) (workload_names : list string) : cli () :=
  update_state_and_wait_for_complete no_wait complete_state_default
    ((λ name, DESIRED_STATE_WORKLOADS +:+ "." +:+ name) <$> workload_names).

(** The [Debug] text of a string, for the characters of ASCII. *)
Definition escape_char (c : ascii) : string :=
  if decide (c = "034"%char) then String "\" (String "034" "")
  else if decide (c = "\"%char) then "\\"
  else if decide (c = "010"%char) then "\n"
  else if decide (c = "013"%char) then "\r"
  else if decide (c = "009"%char) then "\t"
  else if decide (c = "000"%char) then "\0"
  else String c "".
Fixpoint escape (s : string) : string :=
  match s with "" => "" | String c s => escape_char c +:+ escape s end.

(** [map_err] with the [Debug] text of a [ServerConnectionError]. *)
Definition with_prefix {A} (pre post : string) (m : cli A) : cli A :=
  io_map_err (λ s, match s with
                   | Error (ExecutionError e) =>
                     execution_error (pre +:+ "ExecutionError(" +:+ in_quotes (escape e) +:+ ")" +:+ post)
                   | s => s
                   end) m.

Definition delete_configs (config_names : list string) : cli () :=
  _ ← with_prefix "Failed to delete configs: " ""
        (update_state complete_state_default
          ((λ name, DESIRED_STATE_CONFIGS +:+ "." +:+ name) <$> config_names));
  mret ().

Definition run_workload (no_wait : bool) (workload_name runtime_name runtime_config agent_name : string)
    (tags : gmap string string) : cli () :=
  let new_workload := {|
    proto_agent := Some agent_name; proto_runtime := Some runtime_name;
    proto_tags := Some tags; proto_runtime_config := Some runtime_config |} in
  update_state_and_wait_for_complete no_wait
    (complete_state_of_workload workload_name new_workload)
    ["desiredState.workloads." +:+ workload_name].

(** Files: a missing one and other errors of opening; what reading an open file gives. *)
Inductive OpenError := NotFound | OtherError (message : string).
Class Files := {
  open_manifest : string → result OpenError (result string string);
  read_file_to_string : string → result string string;
  read_stdin : result string string
}.

Definition get_input_sources `{Files} (manifest_files : list string) :
    result string (list InputSourcePair) :=
  match manifest_files with
  | [] => Ok []
  | "-" :: _ => Ok [("stdin", read_stdin)]
  | _ =>
    try_collect (λ file_path,
      match open_manifest file_path with
      | Ok open_file => Ok (file_path, open_file)
      | Err NotFound => Err ("File '" +:+ file_path +:+ "' not found!")
      | Err (OtherError e) => Err e
      end) manifest_files
  end.

Definition apply_manifests `{Files, YamlMapping, ManifestParsing, !StateObject} (no_wait : bool)
    (args : ApplyArgs) : cli () :=
  match get_input_sources (manifest_files args) with
  | Err e => stop (execution_error e)
  | Ok manifests =>
    match generate_state_obj_and_filter_masks_from_manifests manifests args with
    | None => stop Panicked
    | Some (Err e) => stop (execution_error e)
    | Some (Ok None) => mret ()
    | Some (Ok (Some (s, filter_masks))) =>
      update_state_and_wait_for_complete no_wait s filter_masks
    end
  end.

Definition process_inputs `{Files, ManifestParsing} (state_object_file : string) :
    result CliError Value :=
  if String.eqb state_object_file "-" then
    stdin ← map_err (λ e, ExecutionError ("Could not read the state object from stdin." +:+ newline
                            +:+ "Error: '" +:+ e +:+ "'")) read_stdin;
    map_err (λ e, YamlSerialization ("Could not convert stdin input to yaml." +:+ newline
                    +:+ "Error: '" +:+ e +:+ "'")) (yaml_from_str stdin)
  else
    data ← map_err (λ e, ExecutionError ("Could not read the state object file '"
                           +:+ state_object_file +:+ "'." +:+ newline +:+ "Error: '" +:+ e +:+ "'"))
             (read_file_to_string state_object_file);
    map_err (λ e, YamlSerialization ("Could not convert state object file to yaml." +:+ newline
                    +:+ "Error: '" +:+ e +:+ "'")) (yaml_from_str data).

Definition set_state `{Files, ManifestParsing} (no_wait : bool) (object_field_mask : list string)
    (state_object_file : string) : cli () :=
  x ← io_of (map_err Error (process_inputs state_object_file));
  new_complete_state ← io_of (map_err (λ e, Error (YamlSerialization e)) (complete_state_from_value x));
  update_state_and_wait_for_complete no_wait new_complete_state object_field_mask.
End commands.

(** ** Lemmas *)

Section command_lemmas.
Context `{IterOrder, Conv : StateConversion, !CompleteStateFields, Uuid}.

Lemma update_states_of_app l1 l2 :
  update_states_of (l1 ++ l2) = update_states_of l1 ++ update_states_of l2.
Proof. apply bind_app. Qed.

(** From [c] to [c'] the messages [consumed] were read, and the updates among
    them were kept. *)
Definition reads (c c' : ServerConnection) (consumed : list FromServer) : Prop :=
  messages_of (arrivals c) = consumed ++ messages_of (arrivals c') ∧
  update_states_of (missed_from_server_messages c') =
    update_states_of (missed_from_server_messages c ++ consumed).

Lemma reads_refl c : reads c c [].
Proof. split; [done|]. by rewrite app_nil_r. Qed.

Lemma reads_trans c1 c2 c3 l1 l2 : reads c1 c2 l1 → reads c2 c3 l2 → reads c1 c3 (l1 ++ l2).
Proof.
  intros [Hm1 Hu1] [Hm2 Hu2]. split; [by rewrite Hm1, Hm2, app_assoc|].
  rewrite Hu2, update_states_of_app, Hu1. by rewrite <-update_states_of_app, app_assoc.
Qed.

(** A request whose loop keeps everything but the answer, which is no update. *)
Lemma ask_reads {A} m (handle : FromServer → Arm A) on_close c r c' :
  to_server_open c = true →
  (∀ m, handle m ≠ Ignore) →
  (∀ m r, handle m = Break r → update_states_of [m] = []) →
  (_ ← send m; e ← timeout_error; run_poll handle on_close (Some e) None : cli A) c = (r, c') →
  ∃ consumed, reads c c' consumed ∧ to_server_open c' = true ∧
    ∀ a, r = Ok a → ∃ answer, answer ∈ consumed ∧ handle answer = Break (Ok a).
Proof.
  intros Hopen Hig Hbreak. rewrite ask_run by done.
  destruct (poll _ _ _ _ _ _) as [[r' rest] missed'] eqn:Hpoll. intros [= <- <-].
  apply poll_keeps in Hpoll as (stored & taken & -> & Hl & _ & Hend); [|done].
  exists (stored ++ taken). unfold reads. simpl.
  split_and!; [by rewrite Hl, app_assoc| |done|].
  - rewrite !update_states_of_app. f_equal. symmetry. rewrite <-(app_nil_r (update_states_of stored)) at 2.
    f_equal. destruct Hend as [[-> _]|(x & r'' & -> & Hx & _)]; [done|]. by eapply Hbreak.
  - intros a ->. destruct Hend as [[_ Hs]|(x & r'' & -> & Hx & Hr)]; [by specialize (Hs a eq_refl)|].
    destruct r'' as [a'|]; simpl in Hr; [injection Hr as <-|done]. exists x. split; [|done]. apply elem_of_app. right. by left.
Qed.

Lemma closed_connection {A} m (k : () → cli A) c r c' :
  (x ← send m; k x) c = (r, c') → to_server_open c = false → is_ok r = false.
Proof. intros Hrun Hopen. rewrite ask_closed in Hrun by done. by injection Hrun as <- <-. Qed.

Lemma content_no_update id m content : content_for id m = Some content → update_states_of [m] = [].
Proof. by destruct m. Qed.

Lemma get_complete_state_reads d c s c' :
  get_complete_state d c = (Ok s, c') →
  ∃ consumed, reads c c' consumed ∧
    ∃ answer s' altered, answer ∈ consumed ∧ s = default complete_state_default s' ∧
      content_for (details_request_id d) answer = Some (CompleteStateResponseContent s' altered).
Proof.
  intros Hrun. destruct (to_server_open c) eqn:Hopen.
  2:{ by pose proof (closed_connection _ _ _ _ _ Hrun Hopen). }
  apply ask_reads in Hrun as (consumed & Hreads & _ & Hans); [|done|apply handle_complete_state_keeps|].
  2:{ intros m r. unfold handle_complete_state. destruct (content_for _ m) eqn:Hc; [|done].
      intros _. by eapply content_no_update. }
  exists consumed. split; [done|]. destruct (Hans s eq_refl) as (answer & Hin & Ha).
  unfold handle_complete_state in Ha. destruct (content_for _ answer) as [[]|] eqn:Hc; simplify_eq.
  eauto 10.
Qed.

Lemma new_v4_reads {A} (k : string → cli A) c :
  (id ← new_v4; k id) c =
  k (uuid (next_uuid c)) {| sent := sent c; to_server_open := to_server_open c; arrivals := arrivals c;
      missed_from_server_messages := missed_from_server_messages c;
      response_timeout := response_timeout c; next_uuid := S (next_uuid c);
      printed := printed c |}.
Proof. done. Qed.

Lemma update_state_reads s mask c answer c' :
  update_state s mask c = (Ok answer, c') →
  ∃ consumed, reads c c' consumed ∧
    ∃ id m, m ∈ consumed ∧ content_for id m = Some (UpdateStateSuccessContent answer.1 answer.2).
Proof.
  unfold update_state. rewrite new_v4_reads. set (c1 := {| sent := _ |}). intros Hrun.
  destruct (to_server_open c1) eqn:Hopen.
  2:{ by pose proof (closed_connection _ _ _ _ _ Hrun Hopen). }
  apply ask_reads in Hrun as (consumed & Hreads & _ & Hans); [|done|apply handle_update_state_keeps|].
  2:{ intros m r. unfold handle_update_state. destruct (content_for _ m) eqn:Hc; [|done].
      intros _. by eapply content_no_update. }
  exists consumed. split; [done|]. destruct (Hans answer eq_refl) as (m & Hin & Ha).
  unfold handle_update_state in Ha. destruct (content_for _ m) as [[]|] eqn:Hc; simplify_eq.
  eauto 10.
Qed.

(** *** The infos never panic *)

Lemma workload_states_complete m s :
  s ∈ workload_states_of_map m →
  ∃ n e, ws_instance_name s = Some n ∧ ws_execution_state s = Some e.
Proof.
  unfold workload_states_of_map. intros ([agent names] & Hs & _)%list_elem_of_bind.
  apply list_elem_of_bind in Hs as ([wl ids] & Hs & _).
  apply list_elem_of_fmap in Hs as ([id e] & -> & _). simpl. eauto.
Qed.

Lemma workload_infos_total m : ∃ infos, workload_infos_try_from m = Ok infos.
Proof.
  apply is_ok_true, try_collect_is_ok. intros s Hs.
  destruct (workload_states_complete m s Hs) as (n & e & Hn & He).
  unfold workload_info. by rewrite Hn, He.
Qed.

Lemma transform_returns s c : ∃ infos, transform_into_workload_infos s c = (Ok infos, c).
Proof.
  unfold transform_into_workload_infos.
  destruct (workload_infos_total (default ∅ (workload_states_field s))) as [infos ->].
  by eexists.
Qed.

Lemma default_details_reads c d c' : default_details c = (Ok d, c') → reads c c' [].
Proof. intros [= <- <-]. split; [done|]. by rewrite app_nil_r. Qed.

Lemma get_workloads_reads c infos c' :
  get_workloads c = (Ok infos, c') → ∃ consumed, reads c c' consumed.
Proof.
  unfold get_workloads. intros (d & c1 & Hc1%default_details_reads & Hrest)%io_bind_ok.
  apply io_bind_ok in Hrest as (s & c2 & Hget & Htr).
  apply get_complete_state_reads in Hget as (consumed & Hreads & _).
  destruct (transform_returns s c2) as [infos' Htr']. rewrite Htr' in Htr. simplify_eq.
  exists consumed. by apply (reads_trans _ c1 _ []).
Qed.

(** *** The waiting loop *)

Lemma step_spinner_sets (w : WaitList WaitListDisplay) :
  added_workloads (step_spinner w) = added_workloads w ∧
  deleted_workloads (step_spinner w) = deleted_workloads w ∧
  connected_agents (step_spinner w) = connected_agents w.
Proof. done. Qed.

(** What is waited for: the workloads of connected agents. *)
Definition awaited_reported (w : WaitList WaitListDisplay) (states : list WorkloadStateSpec) : Prop :=
  (∀ n, n ∈ added_workloads w → agent_name n ∈ connected_agents w →
        reports final_for_added states n) ∧
  (∀ n, n ∈ deleted_workloads w → agent_name n ∈ connected_agents w →
        reports final_for_deleted states n).

Lemma awaited_after_update (w : WaitList WaitListDisplay) states rest :
  awaited_reported (update states w) rest → awaited_reported w (states ++ rest).
Proof.
  destruct (update_sets states w) as (Ha & Hd & Hc). unfold awaited_reported. rewrite Hc.
  intros [Hadd Hdel].
  split; intros n Hn Hag; rewrite reports_app.
  - destruct (decide (reports final_for_added states n)); [by left|]. right.
    apply Hadd; [by apply Ha|done].
  - destruct (decide (reports final_for_deleted states n)); [by left|]. right.
    apply Hdel; [by apply Hd|done].
Qed.

Lemma awaited_before_update (w : WaitList WaitListDisplay) states rest :
  awaited_reported w (states ++ rest) → awaited_reported (update states w) rest.
Proof.
  destruct (update_sets states w) as (Ha & Hd & Hc). unfold awaited_reported. rewrite Hc.
  intros [Hadd Hdel]. split; intros n Hn Hag.
  - apply Ha in Hn as (Hn & _ & Hno). specialize (Hadd n Hn Hag).
    apply reports_app in Hadd as [?|?]; done.
  - apply Hd in Hn as (Hn & _ & Hno). specialize (Hdel n Hn Hag).
    apply reports_app in Hdel as [?|?]; done.
Qed.

Lemma wait_loop_sound l missed w rest missed' :
  wait_loop l missed w = (Ok (), rest, missed') →
  ∃ consumed, messages_of l = consumed ++ messages_of rest ∧
              awaited_reported w (update_states_of consumed).
Proof.
  revert missed w. induction l as [|x l IH]; intros missed w; simpl;
    destruct (wait_list_is_empty w) eqn:Hempty; try done.
  1-2: intros [= <- <-]; exists []; split; [done|];
    apply wait_list_is_empty_true in Hempty as [Ha Hd];
    unfold awaited_reported; rewrite Ha, Hd; by split; intros n ?%not_elem_of_empty.
  destruct x as [m| | | |]; try done.
  - destruct m; simpl; intros (consumed & Hm & Haw)%IH;
      eexists (_ :: consumed); (split; [simpl; by rewrite Hm|]); try exact Haw.
    unfold update_states_of. cbn [mbind list_bind]. by apply awaited_after_update.
  - intros (consumed & Hm & Haw)%IH. by exists consumed.
  - intros (consumed & Hm & Haw)%IH. by exists consumed.
Qed.

(** Neither the channel ends nor the process is stopped. *)
Definition undisturbed (l : list Arrival) : Prop :=
  Forall (λ x, match x with Closed | Signal => False | _ => True end) l.

Definition all_connected (w : WaitList WaitListDisplay) : Prop :=
  ∀ n, n ∈ added_workloads w ∪ deleted_workloads w → agent_name n ∈ connected_agents w.

Lemma update_all_connected (w : WaitList WaitListDisplay) states : all_connected (update states w).
Proof.
  destruct (update_sets states w) as (Ha & Hd & Hc). intros n. rewrite Hc, elem_of_union.
  intros [(_ & ? & _)%Ha|(_ & ? & _)%Hd]; done.
Qed.

Lemma wait_loop_returns l missed w :
  undisturbed l → all_connected w → awaited_reported w (update_states_of (messages_of l)) →
  ∃ rest missed', wait_loop l missed w = (Ok (), rest, missed').
Proof.
  intros Hl. revert missed w. induction Hl as [|x l Hx Hl IH]; intros missed w Hcon Haw; simpl.
  - destruct (wait_list_is_empty w) eqn:Hempty; [eauto|].
    exfalso. assert (wait_list_is_empty w = true); [|congruence].
    apply wait_list_is_empty_true. destruct Haw as [Ha Hd].
    split; apply elem_of_equiv_empty_L; intros n Hn;
      [destruct (Ha n Hn) as (? & ?%elem_of_nil & _)|destruct (Hd n Hn) as (? & ?%elem_of_nil & _)];
      try done; apply Hcon; set_solver.
  - destruct (wait_list_is_empty w); [eauto|].
    destruct x as [m| | | |]; try done; [|by apply IH..].
    destruct m; try (by apply IH). simpl. apply IH; [apply update_all_connected|].
    by apply awaited_before_update.
Qed.

Lemma run_wait_loop_sound w c c' :
  run_wait_loop w c = (Ok (), c') →
  ∃ consumed, messages_of (arrivals c) = consumed ++ messages_of (arrivals c') ∧
              awaited_reported w (update_states_of consumed).
Proof.
  unfold run_wait_loop.
  destruct (wait_loop _ _ _) as [[r rest] missed'] eqn:Hloop. intros [= -> <-].
  by apply wait_loop_sound in Hloop.
Qed.

(** The updates received before the connected agents were known count as well. *)
Lemma wait_for_complete_sound success previous c c' :
  wait_for_complete success previous c = (Ok (), c') →
  ∃ consumed connected,
    messages_of (arrivals c) = consumed ++ messages_of (arrivals c') ∧
    (changed_workloads success ≠ ∅ → ∃ s m id altered, m ∈ consumed ∧
       content_for id m = Some (CompleteStateResponseContent s altered) ∧
       connected = dom (default ∅ (agents_field (default complete_state_default s)))) ∧
    awaited_reported (wait_list_for success connected ∅)
      (update_states_of (missed_from_server_messages c ++ consumed)).
Proof.
  unfold wait_for_complete. case_decide as Hch.
  { intros [= <-]. exists [], ∅. split_and!; [done|done|].
    unfold awaited_reported, wait_list_for, wait_list_new. simpl.
    split; intros n _ ?%not_elem_of_empty; done. }
  intros (d & c1 & Hc1%default_details_reads & Hrest)%io_bind_ok.
  apply io_bind_ok in Hrest as (s & c2 & Hget & Hrest).
  apply get_complete_state_reads in Hget as (consumed & Hreads & m & s' & altered & Hm & -> & Hcon).
  apply io_bind_ok in Hrest as (infos & c3 & Htr & Hrest).
  destruct (transform_returns (default complete_state_default s') c2) as [infos' Htr'].
  rewrite Htr' in Htr. injection Htr as <- <-.
  apply io_bind_ok in Hrest as (missed & c4 & [= <- <-] & Hrun).
  apply run_wait_loop_sound in Hrun as (consumed' & Hm' & Haw).
  pose proof (reads_trans _ _ _ _ _ Hc1 Hreads) as [Hall Hupd]. simpl in Hall, Hupd.
  apply awaited_after_update in Haw.
  exists (consumed ++ consumed'), (dom (default ∅ (agents_field (default complete_state_default s')))).
  simpl in Hm'. split_and!.
  - by rewrite Hall, Hm', app_assoc.
  - intros _. exists s', m, (details_request_id d), altered. split_and!; [|done..].
    apply elem_of_app. by left.
  - rewrite Hupd, <-update_states_of_app, <-app_assoc in Haw. exact Haw.
Qed.
End command_lemmas.

(** ** Properties *)

Section command_properties.
Context `{IterOrder, Conv : StateConversion, !CompleteStateFields, Uuid}.

(** C26: a command that waits returns only when the workloads are done.  If an
    update with waiting succeeds, the server answered it with the added and
    deleted workloads, and, unless there are none, with the connected agents;
    every added workload of a connected agent was then reported in a final state
    by the messages received, and every deleted one as removed or with its agent
    disconnected. *)
Theorem update_and_wait_sound new_state update_mask c c' :
  update_state_and_wait_for_complete false new_state update_mask c = (Ok (), c') →
  ∃ consumed id answer added deleted success connected,
    messages_of (arrivals c) = consumed ++ messages_of (arrivals c') ∧
    answer ∈ consumed ∧ content_for id answer = Some (UpdateStateSuccessContent added deleted) ∧
    parse_update_state_success added deleted = Ok success ∧
    (changed_workloads success ≠ ∅ → ∃ s m id altered, m ∈ consumed ∧
       content_for id m = Some (CompleteStateResponseContent s altered) ∧
       connected = dom (default ∅ (agents_field (default complete_state_default s)))) ∧
    let states := update_states_of (missed_from_server_messages c ++ consumed) in
    (∀ n, n ∈ parsed_added success → agent_name n ∈ connected → reports final_for_added states n) ∧
    (∀ n, n ∈ parsed_deleted success → agent_name n ∈ connected →
          reports final_for_deleted states n).
Proof.
  unfold update_state_and_wait_for_complete. intros (infos & c1 & Hget & Hrun)%io_bind_ok.
  apply get_workloads_reads in Hget as (r1 & Hr1).
  apply io_bind_ok in Hrun as ([added deleted] & c2 & Hup & Hrun).
  apply update_state_reads in Hup as (r2 & Hr2 & id & answer & Hin & Hans).
  destruct (parse_update_state_success _ _) as [success|] eqn:Hparse; [|done].
  apply wait_for_complete_sound in Hrun as (r3 & connected & Hm & Hcon & Haw).
  destruct (reads_trans _ _ _ _ _ Hr1 Hr2) as [Hall Hupd].
  exists ((r1 ++ r2) ++ r3), id, answer, added, deleted, success, connected.
  split_and!; [by rewrite Hall, Hm, app_assoc|set_solver|done|done| |..].
  - intros Hne. destruct (Hcon Hne) as (s & m & id' & altered & Hmin & Hc & ->).
    exists s, m, id', altered. split_and!; [set_solver|done|done].
  - rewrite update_states_of_app, Hupd, <-update_states_of_app, <-app_assoc in Haw.
    destruct Haw as [Ha _]. intros n Hn. apply Ha. by apply elem_of_list_to_set.
  - rewrite update_states_of_app, Hupd, <-update_states_of_app, <-app_assoc in Haw.
    destruct Haw as [_ Hd]. intros n Hn. apply Hd. by apply elem_of_list_to_set.
Qed.

(** C27: a command does not wait for ever.  If neither the channel ends nor a
    signal arrives, and the updates that were missed or are still to come report
    every added and deleted workload of a connected agent in its final state, the
    wait ends with success; workloads of agents that are not connected are not
    waited for. *)
Theorem wait_ends success connected data missed c :
  undisturbed (arrivals c) →
  awaited_reported (wait_list_for success connected data)
    (update_states_of (missed ++ messages_of (arrivals c))) →
  ∃ c', run_wait_loop (update (update_states_of missed) (wait_list_for success connected data)) c =
        (Ok (), c').
Proof.
  intros Hl Haw. rewrite update_states_of_app in Haw. unfold run_wait_loop.
  destruct (wait_loop_returns (arrivals c) (missed_from_server_messages c)
    (update (update_states_of missed) (wait_list_for success connected data)) Hl)
    as (rest & missed' & ->).
  - apply update_all_connected.
  - by apply awaited_before_update.
  - by eexists.
Qed.
End command_properties.

(** ** Examples *)

Definition example_fields : @CompleteStateFields example_conversion :=
  @Build_CompleteStateFields example_conversion (λ _, true)
    (λ _, Some {["web" := {| proto_agent := Some "agent_A"; proto_runtime := Some "podman";
                             proto_tags := None; proto_runtime_config := None |}]})
    (λ _, None) (λ _, None)
    (λ s, Some ((λ _, {| proto_cpu_usage := None; proto_free_memory := None;
                         proto_has_status := false; proto_has_tags := false |}) <$> agents s))
    (λ _ _, complete_state_spec_default).

Definition example_agent_state : CompleteStateSpec := {|
  desired_state := state_default; complete_workload_states := ∅;
  agents := {["agent_A" := {| status := None; agent_tags := ∅ |}]}
|}.

Definition example_web : WorkloadInstanceNameSpec := instance_name_new "agent_A" "web" "1".

(** The messages around an update that adds a workload. *)
Definition example_arrivals : list (@Arrival example_conversion) :=
  [ Received (@complete_state example_conversion "id0" example_agent_state None);
    Received (@update_state_success example_conversion "id1" [instance_name_to_string example_web] []);
    Received (@complete_state example_conversion "id2" example_agent_state None);
    Tick;
    Received (UpdateWorkloadState [{| state_instance_name := example_web; execution_state := running |}])
  ].

Lemma update_and_wait_sound_witness :
  ∃ consumed, messages_of example_arrivals = consumed ++
    messages_of (arrivals (@update_state_and_wait_for_complete key_order example_conversion
      example_fields example_uuid false complete_state_spec_default []
      (example_connection example_arrivals)).2).
Proof.
  destruct (@update_and_wait_sound key_order example_conversion example_fields example_uuid
    complete_state_spec_default [] (example_connection example_arrivals)
    (@update_state_and_wait_for_complete key_order example_conversion
      example_fields example_uuid false complete_state_spec_default []
      (example_connection example_arrivals)).2) as (consumed & _ & _ & _ & _ & _ & _ & Hm & _).
  - vm_compute. reflexivity.
  - exists consumed. exact Hm.
Defined.

Definition example_success : ParsedUpdateStateSuccess :=
  {| parsed_added := [example_web; instance_name_new "agent_B" "db" "2"]; parsed_deleted := [] |}.

Lemma wait_ends_witness :
  ∃ c', @run_wait_loop key_order example_conversion
          (@update WaitListDisplay _ key_order (@update_states_of example_conversion [])
             (wait_list_for example_success {["agent_A"]} ∅))
          (example_connection (drop 3 example_arrivals)) = (Ok (), c').
Proof.
  apply (@wait_ends key_order example_conversion example_success {["agent_A"]} ∅ []
           (example_connection (drop 3 example_arrivals))).
  - repeat constructor.
  - split; intros n Hn Hag.
    + exists {| state_instance_name := example_web; execution_state := running |}.
      split; [left|]. split; [|reflexivity].
      apply elem_of_list_to_set, elem_of_cons in Hn as [->|Hn%list_elem_of_singleton]; [reflexivity|].
      subst n. change ("agent_B" ∈ ({["agent_A"]} : gset string)) in Hag.
      apply elem_of_singleton in Hag. discriminate Hag.
    + apply elem_of_list_to_set, elem_of_nil in Hn. destruct Hn.
Defined.
