(* ===== verification/CliQueries.v ===== *)
(** * Ankaios CLI: the commands that show the state

    The [get] and [logs] commands of [ank/src/cli_commands/], the loops of
    [watch_workloads] and [get_events], and the completions of
    [ank/src/cli.rs].

    Both loops end only with an error or a signal.  Every round reads at least
    one arrival, so the number of arrivals is enough fuel. *)

From Stdlib Require Import Ascii ZArith.
From stdpp Require Import base tactics gmap strings list sorting pretty.
From S2P Require Import Prelude Utf8 Api WorkloadStates StateManipulation Messages.
From S2P Require Import WaitList CliTable ServerConnection CliCommands.

Record AgentTableRow := {
  agent_row_name : string;
  agent_row_workloads : N;
  agent_row_cpu_usage : string;
  agent_row_free_memory : string
}.

Record ConfigTableRow := { config_row_config : string }.

Inductive OutputFormat := Yaml | Json.

Section queries.
Context `{IterOrder, Conv : StateConversion, !CompleteStateFields, Uuid}.

Record EventOutput := {
  event_timestamp : string;
  event_altered_fields : option AlteredFields;
  event_complete_state : option CompleteState
}.

(** The renderings of [serde] and the clock. *)
Class Rendering := {
  state_to_yaml : CompleteState → result string string;
  state_to_json_pretty : CompleteState → result string string;
  event_to_yaml : EventOutput → result string string;
  event_to_json : EventOutput → result string string;
  utc_now : ServerConnection → string
}.

Context `{Rendering, Tabled WorkloadTableRow, Tabled AgentTableRow, Tabled ConfigTableRow}.
Context (quiet : bool) (terminal_width : nat).

(** [None] is a panic. *)
Definition unwrap {A} (a : option A) : cli A :=
  match a with Some a => mret a | None => stop Panicked end.

(** [output!]. *)
Definition output (text : string) : cli () :=
  if quiet then mret () else print_log (text +:+ newline).

(** ** [get state] *)

Definition get_state (object_field_mask : list string) (output_format : OutputFormat) : cli string :=
  details ← request_details_new object_field_mask false;
  s ← get_complete_state details;
  io_of match output_format with
        | Yaml => map_err (λ e, Error (YamlSerialization e)) (state_to_yaml s)
        | Json => map_err (λ e, Error (JsonSerialization e)) (state_to_json_pretty s)
        end.

(** ** [get agents] and [get configs] *)

Definition get_cpu_usage_as_string (a : ProtoAgent) : string :=
  match proto_cpu_usage a with Some cpu => pretty cpu +:+ "%" | None => "" end.
Definition get_free_memory_as_string (a : ProtoAgent) : string :=
  match proto_free_memory a with Some memory => pretty memory +:+ "B" | None => "" end.

(** The number of the states of an agent, as [u32]. *)
Definition workload_states_count (m : ProtoStatesMap) (agent : string) : N :=
  N.of_nat (length (default [] (
    (λ name_map, '(_, id_map) ← map_iter name_map; (map_iter id_map).*1) <$> m !! agent)))
  mod 2 ^ 32.

Definition agent_table_rows (agents : gmap string ProtoAgent) (m : ProtoStatesMap) :
    list AgentTableRow :=
  merge_sort (λ a b, String.le (agent_row_name a) (agent_row_name b))
    ((λ '(name, attributes), {|
        agent_row_name := name;
        agent_row_workloads := workload_states_count m name;
        agent_row_cpu_usage := get_cpu_usage_as_string attributes;
        agent_row_free_memory := get_free_memory_as_string attributes
      |}) <$> map_iter agents).

(** The conversion of the map fails if a state does not convert. *)
Definition states_convert (m : ProtoStatesMap) : bool :=
  forallb (λ s, match ws_execution_state s with
                | Some e => match proto_state_enum e with Some (Some _) => true | _ => false end
                | None => false
                end) (workload_states_of_map m).

Context (conversion_error : ProtoStatesMap → string).

Definition get_agents : cli string :=
  details ← default_details;
  s ← get_complete_state details;
  let m := default ∅ (workload_states_field s) in
  if states_convert m then
    unwrap (create_default_table terminal_width
              (agent_table_rows (default ∅ (agents_field s)) m))
  else stop (execution_error ("Failed to convert workload states map: " +:+ conversion_error m)).

Definition config_table_rows (configs : gset string) : list ConfigTableRow :=
  merge_sort (λ a b, String.le (config_row_config a) (config_row_config b))
    (Build_ConfigTableRow <$> set_iter configs).

Definition get_configs : cli string :=
  details ← request_details_new [DESIRED_STATE_CONFIGS] false;
  s ← get_complete_state details;
  unwrap (create_default_table terminal_width (config_table_rows (default ∅ (configs_field s)))).

(** ** [get workloads] *)

Definition ADDITIONAL_INFO_POS : nat := 4.

Definition workloads_table (rows : list WorkloadTableRow) : cli string :=
  unwrap (or_default_table terminal_width rows
    (table_with_wrapped_column_to_remaining_terminal_width terminal_width rows ADDITIONAL_INFO_POS)).

Section filtered.
Context (agent state : option string) (workload_names : list string).

Definition fetch_filtered_workloads : cli WorkloadInfos :=
  infos ← get_workloads;
  mret (merge_sort (λ a b, String.le (row_name a.2) (row_name b.2))
          (filter (λ p, check_workload_filters agent state workload_names p.2 = true) infos)).

Definition get_workloads_table : cli string :=
  infos ← fetch_filtered_workloads;
  workloads_table (infos.*2).

(** The table of a watch, by the text of the instance name. *)
Definition table_of_infos (infos : WorkloadInfos) : gmap string WorkloadTableRow :=
  foldl (λ m p, <[instance_name_to_string p.1:=p.2]> m) ∅ infos.

Fixpoint process_workload_updates (l : list WorkloadStateSpec)
    (table : gmap string WorkloadTableRow) : cli (gmap string WorkloadTableRow) :=
  match l with
  | [] => mret table
  | wl_state :: l =>
    let name := instance_name_to_string (state_instance_name wl_state) in
    let new_state := execution_state_enum_to_string (execution_state_enum (execution_state wl_state)) in
    match table !! name with
    | None =>
      updated ← get_workloads;
      process_workload_updates l (table_of_infos
        (filter (λ p, check_workload_filters agent state workload_names p.2 = true) updated))
    | Some row =>
      let table :=
        if String.eqb new_state "Removed" then delete name table
        else <[name := set_state_and_info (execution_state wl_state) row]> table in
      process_workload_updates l
        (filter (λ p, check_workload_filters agent state workload_names p.2 = true) table)
    end
  end.

(** The rows of a [BTreeMap], in the order of the keys. *)
Definition table_rows (table : gmap string WorkloadTableRow) : list WorkloadTableRow :=
  (merge_sort (λ a b, String.le a.1 b.1) (map_to_list table)).*2.

Definition update_table (table : gmap string WorkloadTableRow) : cli () :=
  text ← workloads_table (table_rows table);
  output text.

Fixpoint watch_loop (fuel : nat) (table : gmap string WorkloadTableRow) : cli () :=
  match fuel with
  | 0 => stop Waiting
  | S fuel =>
    changed ← read_next_update_workload_state;
    table ← process_workload_updates changed table;
    _ ← update_table table;
    watch_loop fuel table
  end.

Definition watch_workloads : cli () := λ c,
  (infos ← fetch_filtered_workloads;
   let table := table_of_infos infos in
   _ ← update_table table;
   watch_loop (S (length (arrivals c))) table) c.
End filtered.

(** ** [get events] *)

Definition event_output (s : option CompleteState) (altered : option AlteredFields) :
    cli EventOutput := λ c,
  (Ok {| event_timestamp := utc_now c; event_altered_fields := altered;
         event_complete_state := s |}, c).

Definition serialize_event (event : EventOutput) (output_format : OutputFormat) : cli () :=
  match output_format with
  | Yaml =>
    yaml ← io_of (map_err execution_error (event_to_yaml event));
    output ("---" +:+ newline +:+ trim_end yaml)
  | Json =>
    json ← io_of (map_err execution_error (event_to_json event));
    output json
  end.

Fixpoint event_loop (fuel : nat) (id : string) (output_format : OutputFormat) : cli () :=
  match fuel with
  | 0 => stop Waiting
  | S fuel =>
    event ← receive_next_event id;
    match event with
    | None => mret ()
    | Some (s, altered) =>
      event ← event_output s altered;
      _ ← serialize_event event output_format;
      event_loop fuel id output_format
    end
  end.

Definition get_events (object_field_mask : list string) (output_format : OutputFormat)
    (detailed : bool) : cli () := λ c,
  (details ← request_details_new object_field_mask true;
   initial ← get_complete_state details;
   _ ← (if detailed then
          event ← event_output (Some initial) None; serialize_event event output_format
        else mret ());
   event_loop (S (length (arrivals c))) (details_request_id details) output_format) c.

(** ** [logs] *)

Definition available_instance_names (m : ProtoStatesMap) :
    gmap string (gset WorkloadInstanceNameSpec) :=
  foldl (λ acc s, match ws_instance_name s with
                  | Some n => <[workload_name n := {[n]} ∪ default ∅ (acc !! workload_name n)]> acc
                  | None => acc
                  end) ∅ (workload_states_of_map m).

Fixpoint convert_names (available : gmap string (gset WorkloadInstanceNameSpec))
    (names : list string) (converted : gset WorkloadInstanceNameSpec) :
    result string (gset WorkloadInstanceNameSpec) :=
  match names with
  | [] => Ok converted
  | wl_name :: names =>
    match available !! wl_name with
    | Some instance_names => convert_names available names (converted ∪ instance_names)
    | None => Err ("Workload name '" +:+ wl_name +:+ "' does not exist.")
    end
  end.

Definition workload_names_to_instance_names (workload_names : list string) :
    cli (gset WorkloadInstanceNameSpec) :=
  details ← request_details_new ["workloadStates"] false;
  s ← get_complete_state details;
  io_of (map_err execution_error
    match workload_states_field s with
    | Some m => convert_names (available_instance_names m) workload_names ∅
    | None => Err "No workload states available to convert workload names to instance names."
    end).

Definition get_logs_blocking (args : LogsArgs) : cli () :=
  names ← workload_names_to_instance_names (args_workload_name args);
  with_prefix "Failed to get logs: '" "'" (stream_logs names args).

(** ** Completions *)

Definition completions (current : string) (candidates : list string) : list string :=
  filter (λ s, starts_with current s = true) candidates.

Definition completions_workloads (s : CompleteState) (current : string) : list string :=
  completions current (default [] ((λ m, (map_iter m).*1) <$> workloads_field s)).

Definition completions_configs (s : CompleteState) (current : string) : list string :=
  completions current (default [] (set_iter <$> configs_field s)).

Definition completions_object_field_mask (s : CompleteState) (current : string) : list string :=
  completions current (
    (if has_desired_state s then
       ["desiredState"] ++
       match workloads_field s with
       | Some workloads =>
         "desiredState.workloads" ::
         ((λ p, "desiredState.workloads." +:+ p.1) <$> map_iter workloads)
       | None => []
       end ++
       match configs_field s with
       | Some configs =>
         "desiredState.configs" :: ((λ n, "desiredState.configs." +:+ n) <$> set_iter configs)
       | None => []
       end
     else []) ++
    match workload_states_field s with
    | Some states =>
      "workloadStates" ::
      ('(agent, names) ← map_iter states;
       ("workloadStates." +:+ agent) ::
       ((λ p, "workloadStates." +:+ agent +:+ "." +:+ p.1) <$> map_iter names))
    | None => []
    end ++
    match agents_field s with
    | Some agents =>
      "agents" ::
      ('(agent_name, agent_data) ← map_iter agents;
       ("agents." +:+ agent_name) ::
       (if proto_has_status agent_data then ["agents." +:+ agent_name +:+ ".status"] else []) ++
       (if proto_has_tags agent_data then ["agents." +:+ agent_name +:+ ".tags"] else []))
    | None => []
    end).
End queries.

(** ** Lemmas *)

(** *** Arrivals are only read *)

Section shrinking.
Context `{Conv : StateConversion}.

Definition shrinks {A} (m : cli A) : Prop :=
  ∀ c r c', m c = (r, c') → length (arrivals c') ≤ length (arrivals c).

Lemma shrinks_ret {A} (a : A) : shrinks (mret a).
Proof. by intros c r c' [= <- <-]. Qed.
Lemma shrinks_io_of {A} (r : result Stop A) : shrinks (io_of r).
Proof. by intros c r' c' [= <- <-]. Qed.
Lemma shrinks_bind {A B} (m : cli A) (k : A → cli B) :
  shrinks m → (∀ a, shrinks (k a)) → shrinks (x ← m; k x).
Proof.
  intros Hm Hk c r c'. cbv [mbind io_bind]. destruct (m c) as [[a|e] c1] eqn:Hrun.
  - intros Hk'%Hk. apply Hm in Hrun. lia.
  - intros [= <- <-]. by apply Hm in Hrun.
Qed.
Lemma shrinks_send m : shrinks (send m).
Proof. intros c r c'. unfold send. by destruct (to_server_open c); intros [= <- <-]. Qed.
Lemma shrinks_print line : shrinks (print_log line).
Proof. by intros c r c' [= <- <-]. Qed.
Lemma shrinks_timeout_error : shrinks timeout_error.
Proof. by intros c r c' [= <- <-]. Qed.

Lemma poll_length {A} (handle : FromServer → Arm A) on_close on_timeout on_signal l missed r rest missed' :
  poll handle on_close on_timeout on_signal l missed = (r, rest, missed') →
  length rest ≤ length l ∧ (is_ok r = true → length rest < length l).
Proof.
  revert missed. induction l as [|x l IH]; intros missed; simpl.
  - intros [= <- <- <-]. by destruct on_timeout.
  - destruct x; [destruct (handle _)|..]; try (intros [= <- <- <-]; simpl; split; [lia|intros; lia || done]);
      try (intros (?&?)%IH; split; [lia|intros ?; specialize (H0 H1); lia]).
    destruct on_timeout; [intros [= <- <- <-]; simpl; split; [lia|done]|].
    intros [Hle Hlt]%IH. split; [lia|]. intros Hok. specialize (Hlt Hok). lia.
Qed.

Lemma run_poll_length {A} (handle : FromServer → Arm A) on_close on_timeout on_signal c r c' :
  run_poll handle on_close on_timeout on_signal c = (r, c') →
  length (arrivals c') ≤ length (arrivals c) ∧
  (is_ok r = true → length (arrivals c') < length (arrivals c)).
Proof.
  unfold run_poll. destruct (poll _ _ _ _ _ _) as [[r' rest] missed'] eqn:Hpoll.
  intros [= <- <-]. by apply poll_length in Hpoll.
Qed.

Lemma shrinks_run_poll {A} (handle : FromServer → Arm A) on_close on_timeout on_signal :
  shrinks (run_poll handle on_close on_timeout on_signal).
Proof. intros c r c' Hrun. by apply run_poll_length in Hrun as [? _]. Qed.
End shrinking.

Create HintDb shrinks.
#[export] Hint Resolve shrinks_ret shrinks_io_of shrinks_bind shrinks_send : shrinks.
#[export] Hint Resolve shrinks_print shrinks_timeout_error shrinks_run_poll : shrinks.

Section query_lemmas.
Context `{IterOrder, Conv : StateConversion, !CompleteStateFields, Uuid}.

Lemma shrinks_new_v4 : shrinks new_v4.
Proof. by intros c r c' [= <- <-]. Qed.
Hint Resolve shrinks_new_v4 : shrinks.

Lemma shrinks_get_complete_state d : shrinks (get_complete_state d).
Proof. unfold get_complete_state. auto 10 with shrinks. Qed.

Lemma shrinks_get_workloads : shrinks get_workloads.
Proof.
  unfold get_workloads, default_details, request_details_new.
  apply shrinks_bind; [auto with shrinks|]. intros d. apply shrinks_bind.
  - apply shrinks_get_complete_state.
  - intros s c r c' Hrun. destruct (transform_returns s c) as [infos Htr].
    rewrite Htr in Hrun. by injection Hrun as <- <-.
Qed.
End query_lemmas.

#[export] Hint Resolve shrinks_new_v4 shrinks_get_complete_state shrinks_get_workloads : shrinks.

Section fuel.
Context `{IterOrder, Conv : StateConversion, !CompleteStateFields, Uuid}.
Context `{!Rendering, Tabled WorkloadTableRow, Tabled AgentTableRow, Tabled ConfigTableRow}.
Context (quiet : bool) (terminal_width : nat).

Lemma shrinks_output text : shrinks (output quiet text).
Proof. unfold output. destruct quiet; auto with shrinks. Qed.
Lemma shrinks_unwrap {A} (a : option A) : shrinks (unwrap a).
Proof. destruct a; [apply shrinks_ret|apply shrinks_io_of]. Qed.
Hint Resolve shrinks_output shrinks_unwrap : shrinks.

Lemma shrinks_serialize event f : shrinks (serialize_event quiet event f).
Proof. destruct f; simpl; auto with shrinks. Qed.

Lemma shrinks_event_output s altered : shrinks (event_output s altered).
Proof. by intros c r c' [= <- <-]. Qed.

Lemma shrinks_process agent state names l table :
  shrinks (process_workload_updates agent state names l table).
Proof.
  revert table. induction l as [|s l IH]; intros table; simpl; [auto with shrinks|].
  destruct (table !! _); [apply IH|]. apply shrinks_bind; [apply shrinks_get_workloads|done].
Qed.

Lemma shrinks_update_table table : shrinks (update_table quiet terminal_width table).
Proof. unfold update_table, workloads_table. auto with shrinks. Qed.

Lemma event_loop_fuel fuel1 fuel2 id f c :
  length (arrivals c) < fuel1 → length (arrivals c) < fuel2 →
  event_loop quiet fuel1 id f c = event_loop quiet fuel2 id f c.
Proof.
  revert fuel2 c. induction fuel1 as [|fuel1 IH]; intros [|fuel2] c Hf1 Hf2; try lia.
  simpl. unfold receive_next_event at 1 2. cbv [mbind io_bind].
  destruct (run_poll _ _ _ _ c) as [[event|e] c1] eqn:Hrun; [|done].
  apply run_poll_length in Hrun as [_ Hlt]. specialize (Hlt eq_refl).
  destruct event as [[s altered]|]; [|done]. simpl.
  destruct (serialize_event _ _ _ c1) as [[[]|e] c2] eqn:Hser; [|done].
  apply shrinks_serialize in Hser. apply IH; lia.
Qed.

Lemma watch_loop_fuel agent state names fuel1 fuel2 table c :
  length (arrivals c) < fuel1 → length (arrivals c) < fuel2 →
  watch_loop quiet terminal_width agent state names fuel1 table c =
  watch_loop quiet terminal_width agent state names fuel2 table c.
Proof.
  revert fuel2 table c. induction fuel1 as [|fuel1 IH]; intros [|fuel2] table c Hf1 Hf2; try lia.
  simpl. unfold read_next_update_workload_state at 1 2. cbv [mbind io_bind].
  destruct (run_poll _ _ _ _ c) as [[changed|e] c1] eqn:Hrun; [|done].
  apply run_poll_length in Hrun as [_ Hlt]. specialize (Hlt eq_refl).
  destruct (process_workload_updates _ _ _ _ _ c1) as [[table'|e] c2] eqn:Hproc; [|done].
  apply shrinks_process in Hproc.
  destruct (update_table _ _ _ c2) as [[[]|e] c3] eqn:Hup; [|done].
  apply shrinks_update_table in Hup. apply IH; lia.
Qed.
End fuel.

(** *** Instance names for the logs *)

Section names.
Context `{IterOrder}.

Definition has_state (m : ProtoStatesMap) (n : WorkloadInstanceNameSpec) : Prop :=
  ∃ names ids e, m !! agent_name n = Some names ∧ names !! workload_name n = Some ids ∧
                 ids !! instance_id n = Some e.

Lemma elem_of_workload_states m s :
  s ∈ workload_states_of_map m → ∃ n, ws_instance_name s = Some n ∧ has_state m n.
Proof.
  unfold workload_states_of_map, has_state.
  intros ([agent names] & Hs & Ha%elem_of_map_iter)%list_elem_of_bind.
  apply list_elem_of_bind in Hs as ([wl ids] & Hs & Hw%elem_of_map_iter).
  apply list_elem_of_fmap in Hs as ([id e] & -> & He%elem_of_map_iter). simpl. eauto 10.
Qed.

Lemma has_state_listed m n :
  has_state m n → ∃ s, s ∈ workload_states_of_map m ∧ ws_instance_name s = Some n.
Proof.
  intros (names & ids & e & Ha & Hw & He). unfold workload_states_of_map.
  eexists {| ws_instance_name := Some n; ws_execution_state := Some e |}. split; [|done].
  apply list_elem_of_bind. exists (agent_name n, names). split; [|by apply elem_of_map_iter].
  apply list_elem_of_bind. exists (workload_name n, ids). split; [|by apply elem_of_map_iter].
  apply list_elem_of_fmap. exists (instance_id n, e). split; [by destruct n|].
  by apply elem_of_map_iter.
Qed.

Lemma collected_names l (acc : gmap string (gset WorkloadInstanceNameSpec)) wl n :
  n ∈ default ∅ (foldl (λ acc s, match ws_instance_name s with
      | Some n => <[workload_name n := {[n]} ∪ default ∅ (acc !! workload_name n)]> acc
      | None => acc
      end) acc l !! wl) ↔
  n ∈ default ∅ (acc !! wl) ∨ (workload_name n = wl ∧ ∃ s, s ∈ l ∧ ws_instance_name s = Some n).
Proof.
  revert acc. induction l as [|s l IH]; intros acc; simpl.
  - split; [by left|]. intros [?|(_ & s & ?%elem_of_nil & _)]; done.
  - rewrite IH. setoid_rewrite elem_of_cons. destruct (ws_instance_name s) as [n'|] eqn:Hs; [|naive_solver].
    destruct (decide (workload_name n' = wl)) as [<-|Hne].
    + rewrite lookup_insert_eq. simpl. rewrite elem_of_union, elem_of_singleton. naive_solver.
    + rewrite lookup_insert_ne by done. naive_solver.
Qed.

Lemma collected_present l (acc : gmap string (gset WorkloadInstanceNameSpec)) wl X :
  (∀ Y, acc !! wl = Some Y → Y ≠ ∅) →
  foldl (λ acc s, match ws_instance_name s with
      | Some n => <[workload_name n := {[n]} ∪ default ∅ (acc !! workload_name n)]> acc
      | None => acc
      end) acc l !! wl = Some X → X ≠ ∅.
Proof.
  revert acc. induction l as [|s l IH]; intros acc Hacc; simpl; [apply Hacc|].
  apply IH. destruct (ws_instance_name s) as [n|]; [|done].
  intros Y. destruct (decide (workload_name n = wl)) as [<-|Hne].
  - rewrite lookup_insert_eq. intros [= <-]. set_solver.
  - rewrite lookup_insert_ne by done. apply Hacc.
Qed.

Lemma available_spec m wl :
  match available_instance_names m !! wl with
  | Some X => X ≠ ∅ ∧ ∀ n, n ∈ X ↔ workload_name n = wl ∧ has_state m n
  | None => ∀ n, workload_name n = wl → ¬ has_state m n
  end.
Proof.
  pose proof (collected_names (workload_states_of_map m) ∅ wl) as Hin.
  fold (available_instance_names m) in Hin.
  assert (∀ n, n ∈ default ∅ (available_instance_names m !! wl) ↔
               workload_name n = wl ∧ has_state m n) as Hspec.
  { intros n. rewrite Hin, lookup_empty. simpl. split.
    - intros [?%not_elem_of_empty|(Hn & s & Hs & Hname)]; [done|]. split; [done|].
      apply elem_of_workload_states in Hs as (n' & Hn' & ?). by simplify_eq.
    - intros (Hn & (s & ? & ?)%has_state_listed). right. eauto. }
  destruct (available_instance_names m !! wl) as [X|] eqn:HX; simpl in Hspec.
  - split; [|done]. eapply collected_present; [|exact HX]. intros Y. by rewrite lookup_empty.
  - intros n Hn Hs. by apply (not_elem_of_empty (C:=gset WorkloadInstanceNameSpec) n), Hspec.
Qed.

Lemma convert_names_ok available names acc X :
  convert_names available names acc = Ok X ↔
  (∀ wl, wl ∈ names → is_Some (available !! wl)) ∧
  X = foldl (λ acc wl, acc ∪ default ∅ (available !! wl)) acc names.
Proof.
  revert acc. induction names as [|wl names IH]; intros acc; simpl.
  - split; [intros [= ->]|intros [_ ->]]; [|done]. split; [by intros wl ?%elem_of_nil|done].
  - setoid_rewrite elem_of_cons. destruct (available !! wl) as [Y|] eqn:Hwl; simpl.
    + rewrite IH. naive_solver.
    + split; [done|]. intros [Hall _]. destruct (Hall wl) as [? ?]; [by left|congruence].
Qed.

Lemma elem_of_converted available names (acc : gset WorkloadInstanceNameSpec) n :
  n ∈ foldl (λ acc wl, acc ∪ default ∅ (available !! wl)) acc names ↔
  n ∈ acc ∨ ∃ wl, wl ∈ names ∧ n ∈ default ∅ ((available : gmap string (gset _)) !! wl).
Proof.
  revert acc. induction names as [|wl names IH]; intros acc; simpl.
  - setoid_rewrite elem_of_nil. naive_solver.
  - rewrite IH. setoid_rewrite elem_of_cons. rewrite elem_of_union. naive_solver.
Qed.
End names.

(** ** Properties *)

(** [ank logs] asks for the logs of exactly the instances that have one of
    the given names.  The names are converted if and only if each of them has an
    instance among the workload states, and the result is the set of all
    instances, on every agent, with one of the names. *)
Theorem log_instances_spec `{IterOrder} m names :
  (is_ok (convert_names (available_instance_names m) names ∅) = true ↔
   ∀ wl, wl ∈ names → ∃ n, workload_name n = wl ∧ has_state m n) ∧
  ∀ X, convert_names (available_instance_names m) names ∅ = Ok X →
       ∀ n, n ∈ X ↔ workload_name n ∈ names ∧ has_state m n.
Proof.
  assert (∀ wl, is_Some (available_instance_names m !! wl) ↔
                ∃ n, workload_name n = wl ∧ has_state m n) as Hsome.
  { intros wl. pose proof (available_spec m wl) as Hwl.
    destruct (available_instance_names m !! wl) as [X|].
    - destruct Hwl as [[n Hn]%set_choose_L Hin]. split; [|by eexists].
      intros _. exists n. by apply Hin.
    - split; [by intros [? ?]|]. intros (n & Hn & Hs). by destruct (Hwl n Hn). }
  split.
  - rewrite is_ok_true. setoid_rewrite convert_names_ok. setoid_rewrite <-Hsome. naive_solver.
  - intros X [Hall ->]%convert_names_ok n. rewrite elem_of_converted.
    assert (∀ wl, n ∈ default ∅ (available_instance_names m !! wl) ↔
                  workload_name n = wl ∧ has_state m n) as Hin.
    { intros wl. pose proof (available_spec m wl) as Hwl.
      destruct (available_instance_names m !! wl) as [Y|]; simpl; [apply Hwl|].
      split; [by intros ?%not_elem_of_empty|]. intros [Hn Hs]. by destruct (Hwl n Hn). }
    setoid_rewrite Hin. split; [|naive_solver].
    intros [?%not_elem_of_empty|(wl & ? & <- & ?)]; done.
Qed.

(** The loop over the events of a subscription has enough fuel: with more
    fuel than there are arrivals the result does not depend on it, so
    [get_events] stops waiting only when no message is left. *)
Theorem event_loop_enough_fuel
    `{IterOrder, Conv : StateConversion, !Rendering} quiet id f fuel c :
  event_loop quiet (S (length (arrivals c)) + fuel) id f c =
  event_loop quiet (S (length (arrivals c))) id f c.
Proof. apply event_loop_fuel; lia. Qed.

(** A watch of the workloads can show an old state for ever.  If a message
    first names a workload that is not in the table, the table is fetched anew;
    the rest of the message, which is older than what was fetched, is then
    applied to it, and the newer update that was received while waiting for the
    answer is among the missed messages, which a watch does not read. *)
Theorem watch_shows_old_state
    `{IterOrder, Conv : StateConversion, !CompleteStateFields, Uuid} table c infos c1 new old row :
  let name s := instance_name_to_string (state_instance_name s) in
  table !! name new = None →
  get_workloads c = (Ok infos, c1) →
  table_of_infos infos !! name old = Some row →
  is_removed (execution_state old) = false →
  ∃ table', process_workload_updates None None [] [new; old] table c = (Ok table', c1) ∧
            table' !! name old = Some (set_state_and_info (execution_state old) row).
Proof.
  intros name Hnew Hget Hold Hrem. cbn [process_workload_updates]. fold (name new). rewrite Hnew.
  assert (∀ (m : gmap string WorkloadTableRow),
    filter (λ p, check_workload_filters None None [] p.2 = true) m = m) as Hall by
    (intros m; apply map_filter_id; done).
  assert (filter (λ p : WorkloadInstanceNameSpec * WorkloadTableRow,
    check_workload_filters None None [] p.2 = true) infos = infos) as Hinfos.
  { clear. induction infos as [|p infos IH]; [done|]. by rewrite filter_cons_True, IH. }
  cbv [mbind io_bind]. rewrite Hget, Hinfos. cbn [process_workload_updates].
  fold (name old). rewrite Hold.
  assert (String.eqb (execution_state_enum_to_string (execution_state_enum (execution_state old)))
            "Removed" = false) as ->.
  { unfold is_removed in Hrem.
    destruct (execution_state_enum (execution_state old)) as [|[]| |[]| |[]| |]; done. }
  rewrite Hall. eexists. split; [done|]. by rewrite lookup_insert_eq.
Qed.

(** ** Examples *)

Definition example_states : ProtoStatesMap :=
  {["agent_A" := {["web" := {["1" := {| proto_additional_info := None;
                                        proto_state_enum := Some (Some SRunning) |}]}]}]}.

Lemma log_instances_spec_witness :
  ∃ X, @convert_names (@available_instance_names key_order example_states) ["web"] ∅ = Ok X ∧
       example_web ∈ X.
Proof.
  destruct (@log_instances_spec key_order example_states ["web"]) as [_ Hin].
  assert (is_ok (@convert_names (@available_instance_names key_order example_states) ["web"] ∅)
          = true) as [X HX]%is_ok_true by (vm_compute; reflexivity).
  exists X. split; [exact HX|]. apply (Hin X HX). split; [left|].
  eexists _, _, _. split; [reflexivity|]. split; reflexivity.
Defined.

Definition example_proto_state (e : ExecutionStateSpec) : ProtoExecutionState := {|
  proto_additional_info := Some (additional_info e);
  proto_state_enum := Some (Some (execution_state_enum e))
|}.

Definition example_proto_states (m : WorkloadStatesMap) : ProtoStatesMap :=
  fmap (M:=gmap string) (fmap (M:=gmap string) (fmap (M:=gmap string) example_proto_state)) m.

Definition example_watch_fields : @CompleteStateFields example_conversion :=
  @Build_CompleteStateFields example_conversion (λ _, true) (λ _, None) (λ _, None)
    (λ s : CompleteStateSpec, Some (example_proto_states (complete_workload_states s)))
    (λ _, None) (λ _ _, complete_state_spec_default).

(** The server knows that [web] failed. *)
Definition example_failed_state : CompleteStateSpec := {|
  desired_state := state_default;
  complete_workload_states := {["agent_A" := {["web" := {["1" := failed "exit code 1"]}]}]};
  agents := ∅
|}.

Definition example_watch : @ServerConnection example_conversion :=
  example_connection [
    Received (UpdateWorkloadState
      [{| state_instance_name := example_web; execution_state := failed "exit code 1" |}]);
    Received (@complete_state example_conversion "id0" example_failed_state None)].

Definition example_new : WorkloadStateSpec :=
  {| state_instance_name := instance_name_new "agent_A" "db" "2"; execution_state := running |}.
Definition example_old : WorkloadStateSpec :=
  {| state_instance_name := example_web; execution_state := running |}.

Lemma watch_shows_old_state_witness :
  ∃ table',
    @process_workload_updates key_order example_conversion example_watch_fields example_uuid
      None None [] [example_new; example_old] ∅ example_watch =
      (Ok table', (@get_workloads key_order example_conversion example_watch_fields example_uuid
                     example_watch).2) ∧
    row_execution_state <$> table' !! "web.1.agent_A" = Some "Running(Ok)".
Proof.
  destruct (@watch_shows_old_state key_order example_conversion example_watch_fields example_uuid
    ∅ example_watch [(example_web, table_row_new "web" "agent_A" "" "Failed(ExecFailed)" "exit code 1")]
    (@get_workloads key_order example_conversion example_watch_fields example_uuid example_watch).2
    example_new example_old
    (table_row_new "web" "agent_A" "" "Failed(ExecFailed)" "exit code 1"))
    as (table' & Hrun & Hrow).
  - reflexivity.
  - vm_compute. reflexivity.
  - vm_compute. reflexivity.
  - reflexivity.
  - exists table'. split; [exact Hrun|].
    change (table' !! "web.1.agent_A") with
      (table' !! instance_name_to_string (state_instance_name example_old)).
    rewrite Hrow. reflexivity.
Defined.
