(* ===== verification/AnkMain.v ===== *)
(** * Ankaios CLI: the program ank

    [ank/src/main.rs] after its start-up ([Config.v]): the subcommand that was
    given is executed and its result becomes what the process prints last and
    its exit code. The subcommands of [ank/src/cli.rs] are data; a group without
    a subcommand cannot be given, the parser of the arguments answers it with a
    help. *)

From Stdlib Require Import Ascii ZArith.
From stdpp Require Import base tactics gmap strings list.
From S2P Require Import Prelude Api StateManipulation Messages WaitList CliTable ServerConnection.
From S2P Require Import ApplyManifests CliCommands CliQueries.

(** ** The arguments *)

Inductive GetCommands :=
  | GetState (output_format : OutputFormat) (object_field_mask : list string)
  | GetWorkload (agent_name state : option string) (workload_name : list string) (watch : bool)
  | GetAgent
  | GetConfig
  | GetEvents (output_format : OutputFormat) (detailed : bool) (object_field_mask : list string).

Inductive SetCommands := SetState (object_field_mask : list string) (state_object_file : string).

Inductive DeleteCommands :=
  | DeleteWorkload (workload_name : list string)
  | DeleteConfig (config_name : list string).

Inductive RunCommands :=
  | RunWorkload (workload_name runtime_name runtime_config agent_name : string)
      (tags : list (string * string)).

Inductive Commands :=
  | Get (command : option GetCommands)
  | Set_ (command : option SetCommands)
  | Delete (command : option DeleteCommands)
  | Run (command : option RunCommands)
  | Apply (args : ApplyArgs)
  | Logs (args : LogsArgs).

(** ** The end of the process *)

(** [ExitSuccess] with the text of [output_and_exit], or after the connection
    was shut down; [Unreachable] panics. *)
Inductive AnkOutcome :=
  | ExitSuccess (text : option string)
  | ExitError (message : string)
  | StillRunning
  | Killed
  | Unreachable.

Definition exit_code (o : AnkOutcome) : option N :=
  match o with
  | ExitSuccess _ => Some 0%N
  | ExitError _ => Some 1%N
  | _ => None
  end.

(** What becomes of the result of a command. *)
Definition outcome_of {A} (text : A → option string) (message : CliError → string)
    (r : result Stop A) : AnkOutcome :=
  match r with
  | Ok a => ExitSuccess (text a)
  | Err (Error e) => ExitError (message e)
  | Err (Exit m) => ExitError m
  | Err Waiting => StillRunning
  | Err KilledBySignal => Killed
  | Err Panicked => Unreachable
  end.

Definition failed_to (what : string) (e : CliError) : string :=
  "Failed to " +:+ what +:+ ": '" +:+ cli_error_to_string e +:+ "'".

Section main.
Context `{IterOrder, Conv : StateConversion, !CompleteStateFields, Uuid}.
Context `{!Rendering, Tabled WorkloadTableRow, Tabled AgentTableRow, Tabled ConfigTableRow}.
Context `{Files, YamlMapping, ManifestParsing, !StateObject}.
Context (quiet no_wait : bool) (terminal_width : nat) (conversion_error : ProtoStatesMap → string).

(** Runs a command to its outcome. *)
Definition finish {A} (text : A → option string) (message : CliError → string) (m : cli A)
    (c : ServerConnection) : AnkOutcome * ServerConnection :=
  let (r, c) := m c in (outcome_of text message r, c).

Definition get_command (command : GetCommands) : ServerConnection → AnkOutcome * ServerConnection :=
  match command with
  | GetState output_format object_field_mask =>
    finish Some (λ _, "Could not retrieve state.") (get_state object_field_mask output_format)
  | GetWorkload agent_name state workload_name watch =>
    if watch then
      finish (λ _, None) (failed_to "watch workloads")
        (watch_workloads quiet terminal_width agent_name state workload_name)
    else
      finish Some (failed_to "get workloads")
        (get_workloads_table terminal_width agent_name state workload_name)
  | GetAgent => finish Some (failed_to "get agents") (get_agents terminal_width conversion_error)
  | GetConfig => finish Some (failed_to "get configs") (get_configs terminal_width)
  | GetEvents output_format detailed object_field_mask =>
    finish (λ _, None) (failed_to "get events") (get_events quiet object_field_mask output_format detailed)
  end.

Definition ank_command (command : Commands) (c : ServerConnection) : AnkOutcome * ServerConnection :=
  match command with
  | Get (Some command) => get_command command c
  | Set_ (Some (SetState object_field_mask state_object_file)) =>
    finish (λ _, None) (failed_to "set state") (set_state no_wait object_field_mask state_object_file) c
  | Delete (Some (DeleteWorkload workload_name)) =>
    finish (λ _, None) (failed_to "delete workloads") (delete_workloads no_wait workload_name) c
  | Delete (Some (DeleteConfig config_name)) =>
    finish (λ _, None) (failed_to "delete configs") (delete_configs config_name) c
  | Run (Some (RunWorkload workload_name runtime_name runtime_config agent_name tags)) =>
    finish (λ _, None) (failed_to "run workloads")
      (run_workload no_wait workload_name runtime_name runtime_config agent_name
         (foldl (λ m kv, <[kv.1:=kv.2]> m) ∅ tags)) c
  | Apply args => finish (λ _, None) cli_error_to_string (apply_manifests no_wait args) c
  | Logs args => finish (λ _, None) (failed_to "output logs") (get_logs_blocking args) c
  | Get None | Set_ None | Delete None | Run None => (Unreachable, c)
  end.
End main.

(** ** Lemmas *)

(** *** What a command sends *)

Create HintDb reading.

Section reading.
Context `{Conv : StateConversion}.

(** The message asks for something and changes nothing. *)
Definition reads_only (m : ToServer) : bool :=
  match m with
  | ToServerRequest r =>
    match request_content r with
    | Some (CompleteStateRequestContent _ | LogsRequestContent _ | LogsCancelRequestContent) => true
    | _ => false
    end
  | _ => false
  end.

Definition only_reads {A} (m : cli A) : Prop :=
  ∀ c, ∃ l, sent (m c).2 = sent c ++ l ∧ Forall (λ m, reads_only m = true) l.

Lemma only_reads_same {A} (m : cli A) : (∀ c, sent (m c).2 = sent c) → only_reads m.
Proof. intros Hm c. exists []. by rewrite Hm, app_nil_r. Qed.

Lemma only_reads_ret {A} (a : A) : only_reads (mret a).
Proof. by apply only_reads_same. Qed.
Lemma only_reads_io_of {A} (r : result Stop A) : only_reads (io_of r).
Proof. by apply only_reads_same. Qed.
Lemma only_reads_stop {A} s : only_reads (stop s : cli A).
Proof. apply only_reads_io_of. Qed.

Lemma only_reads_bind {A B} (m : cli A) (k : A → cli B) :
  only_reads m → (∀ a, only_reads (k a)) → only_reads (x ← m; k x).
Proof.
  intros Hm Hk c. cbv [mbind io_bind]. destruct (Hm c) as (l1 & Hl1 & Hall1).
  destruct (m c) as [[a|e] c1]; [|by exists l1]. simpl in Hl1.
  destruct (Hk a c1) as (l2 & Hl2 & Hall2). exists (l1 ++ l2).
  rewrite Hl2, Hl1, app_assoc. split; [done|]. by apply Forall_app.
Qed.

Lemma only_reads_for_each {A} (f : A → cli ()) l : (∀ x, only_reads (f x)) → only_reads (for_each f l).
Proof. intros Hf. induction l as [|x l IH]; [apply only_reads_ret|]. by apply only_reads_bind. Qed.

Lemma only_reads_send m : reads_only m = true → only_reads (send m).
Proof.
  intros Hm c. unfold send. destruct (to_server_open c); simpl.
  - exists [m]. split; [done|]. by apply Forall_singleton.
  - exists []. by rewrite app_nil_r.
Qed.

Lemma only_reads_print line : only_reads (print_log line).
Proof. by apply only_reads_same. Qed.
Lemma only_reads_timeout : only_reads timeout_error.
Proof. by apply only_reads_same. Qed.

Lemma only_reads_run_poll {A} (handle : FromServer → Arm A) on_close on_timeout on_signal :
  only_reads (run_poll handle on_close on_timeout on_signal).
Proof. apply only_reads_same. intros c. unfold run_poll. by destruct (poll _ _ _ _ _ _) as [[? ?] ?]. Qed.

Lemma only_reads_map_err {A} f (m : cli A) : only_reads m → only_reads (io_map_err f m).
Proof.
  intros Hm c. specialize (Hm c). unfold io_map_err. by destruct (m c) as [[a|e] c1].
Qed.
End reading.

#[export] Hint Resolve only_reads_ret only_reads_io_of only_reads_stop only_reads_bind : reading.
#[export] Hint Resolve only_reads_for_each only_reads_send only_reads_print only_reads_timeout : reading.
#[export] Hint Resolve only_reads_run_poll only_reads_map_err : reading.

Section reading_commands.
Context `{IterOrder, Conv : StateConversion, !CompleteStateFields, Uuid}.
Context `{!Rendering, Tabled WorkloadTableRow, Tabled AgentTableRow, Tabled ConfigTableRow}.

Lemma only_reads_new_v4 : only_reads new_v4.
Proof. by apply only_reads_same. Qed.
Hint Resolve only_reads_new_v4 : reading.

Lemma only_reads_details masks subscribe : only_reads (request_details_new masks subscribe).
Proof. unfold request_details_new. auto with reading. Qed.

Lemma only_reads_get_complete_state d : only_reads (get_complete_state d).
Proof. unfold get_complete_state. auto with reading. Qed.
Hint Resolve only_reads_details only_reads_get_complete_state : reading.

Lemma only_reads_get_workloads : only_reads get_workloads.
Proof.
  unfold get_workloads, default_details. apply only_reads_bind; [auto with reading|]. intros d.
  apply only_reads_bind; [auto with reading|]. intros s. unfold transform_into_workload_infos.
  case_match; auto with reading.
Qed.
Hint Resolve only_reads_get_workloads : reading.

Lemma only_reads_output quiet text : only_reads (output quiet text).
Proof. unfold output. destruct quiet; auto with reading. Qed.
Lemma only_reads_unwrap {A} (a : option A) : only_reads (unwrap a).
Proof. destruct a; simpl; auto with reading. Qed.
Hint Resolve only_reads_output only_reads_unwrap : reading.

Lemma only_reads_table terminal_width rows : only_reads (workloads_table terminal_width rows).
Proof. unfold workloads_table. auto with reading. Qed.
Hint Resolve only_reads_table : reading.

Lemma only_reads_fetch agent state names : only_reads (fetch_filtered_workloads agent state names).
Proof. unfold fetch_filtered_workloads. auto with reading. Qed.

Lemma only_reads_process agent state names l table :
  only_reads (process_workload_updates agent state names l table).
Proof.
  revert table. induction l as [|s l IH]; intros table; simpl; [auto with reading|].
  destruct (table !! _); auto with reading.
Qed.

Lemma only_reads_watch_loop quiet terminal_width agent state names fuel table :
  only_reads (watch_loop quiet terminal_width agent state names fuel table).
Proof.
  revert table. induction fuel as [|fuel IH]; intros table; simpl; [auto with reading|].
  unfold read_next_update_workload_state, update_table.
  apply only_reads_bind; [auto with reading|]. intros changed.
  apply only_reads_bind; [apply only_reads_process|]. intros t. auto with reading.
Qed.

Lemma only_reads_serialize quiet event f : only_reads (serialize_event quiet event f).
Proof. destruct f; simpl; auto with reading. Qed.
Lemma only_reads_event_output s altered : only_reads (event_output s altered).
Proof. by apply only_reads_same. Qed.
Hint Resolve only_reads_serialize only_reads_event_output : reading.

Lemma only_reads_event_loop quiet fuel id f : only_reads (event_loop quiet fuel id f).
Proof.
  induction fuel as [|fuel IH]; simpl; [auto with reading|]. unfold receive_next_event.
  apply only_reads_bind; [auto with reading|]. intros [[s altered]|]; auto with reading.
Qed.

Lemma only_reads_listen id names output :
  (∀ logs, only_reads (output logs)) → only_reads (listen_for_workload_logs id names output).
Proof.
  intros Hout c. unfold listen_for_workload_logs. generalize (arrivals c) as l. intros l. revert names c.
  induction l as [|a l IH]; intros names c; simpl; [by exists []; rewrite app_nil_r|].
  destruct a as [m| | | |]; try apply IH; [| |].
  - destruct (handle_server_log_response id m) as [[n| |logs]|e]; [|by apply IH| |].
    + case_decide; [by exists []; rewrite app_nil_r|]. apply IH.
    + destruct (Hout logs c) as (l1 & Hl1 & Hall1). destruct (output logs c) as [[u|e] c1]; simpl in Hl1.
      * destruct (IH names c1) as (l2 & Hl2 & Hall2). exists (l1 ++ l2).
        rewrite Hl2, Hl1, app_assoc. split; [done|]. by apply Forall_app.
      * by exists l1.
    + by exists []; rewrite app_nil_r.
  - by exists []; rewrite app_nil_r.
  - by apply (only_reads_send (request_logs_cancel id) eq_refl (with_arrivals l _ c)).
Qed.

Lemma only_reads_logs args : only_reads (get_logs_blocking args).
Proof.
  unfold get_logs_blocking, workload_names_to_instance_names.
  apply only_reads_bind.
  { apply only_reads_bind; [auto with reading|]. intros d. apply only_reads_bind; [auto with reading|].
    intros s. auto with reading. }
  intros names. apply only_reads_map_err. unfold stream_logs, get_logs_accepted_response.
  apply only_reads_bind; [auto with reading|]. intros id.
  apply only_reads_bind; [by auto with reading|]. intros _.
  apply only_reads_bind; [auto with reading|]. intros accepted.
  apply only_reads_bind; [auto with reading|]. intros _. apply only_reads_listen. intros logs.
  unfold select_log_format_function, output_logs_with_workload_names, output_logs_without_workload_names.
  case_match; [|auto with reading]. apply only_reads_for_each. intros e. case_match; auto with reading.
Qed.
End reading_commands.

#[export] Hint Resolve only_reads_details only_reads_get_complete_state only_reads_get_workloads : reading.
#[export] Hint Resolve only_reads_output only_reads_unwrap only_reads_table only_reads_fetch : reading.
#[export] Hint Resolve only_reads_watch_loop only_reads_serialize only_reads_event_output : reading.
#[export] Hint Resolve only_reads_event_loop only_reads_logs : reading.

(** ** Properties *)

(** Whatever the server answers, [ank get] and [ank logs] never ask it to change
    anything: all they send are requests for the state, for logs and for the
    end of logs. *)
Theorem queries_only_read
    `{IterOrder, Conv : StateConversion, !CompleteStateFields, Uuid}
    `{!Rendering, Tabled WorkloadTableRow, Tabled AgentTableRow, Tabled ConfigTableRow}
    `{Files, YamlMapping, ManifestParsing, !StateObject}
    quiet no_wait terminal_width conversion_error command c :
  match command with Get _ | Logs _ => true | _ => false end = true →
  ∃ l, sent (ank_command quiet no_wait terminal_width conversion_error command c).2 = sent c ++ l ∧
    Forall (λ m, reads_only m = true) l.
Proof.
  intros Hquery.
  assert (∀ A (text : A → option string) message (m : cli A), only_reads m →
    ∃ l, sent (finish text message m c).2 = sent c ++ l ∧ Forall (λ m, reads_only m = true) l) as Hfinish.
  { intros A text message m Hm. specialize (Hm c). unfold finish. by destruct (m c) as [r c1]. }
  destruct command as [[command|]| | | | |args]; simpl; try discriminate Hquery.
  - destruct command as [fmt mask|agent state names watch| | |fmt detailed mask]; simpl.
    + apply Hfinish. unfold get_state. auto with reading.
    + destruct watch; apply Hfinish; [|unfold get_workloads_table; auto with reading].
      intros c0. unfold watch_workloads, update_table. revert c0.
      refine (λ c0, only_reads_bind _ _ (only_reads_fetch agent state names) _ c0). auto with reading.
    + apply Hfinish. unfold get_agents, default_details. apply only_reads_bind; [auto with reading|].
      intros d. apply only_reads_bind; [auto with reading|]. intros s. case_match; auto with reading.
    + apply Hfinish. unfold get_configs. auto with reading.
    + apply Hfinish. intros c0. unfold get_events.
      refine (only_reads_bind _ _ (only_reads_details _ _) _ c0). intros d. destruct detailed; auto with reading.
  - exists []. by rewrite app_nil_r.
  - apply Hfinish, only_reads_logs.
Qed.
